(* ===== verification/_CoqProject ===== *)
-Q . S2P
Prelude.v
Text.v
Iostream.v
Crypto.v
Protocol.v
Hoare.v
Posix.v
Stream.v
Net.v
Manifest.v
ResumeStore.v
ResumeFlush.v
Tracker.v
Presence.v
PeerServer.v
Pool.v
Heartbeat.v
Download.v
Filestream.v
Persist.v
Durable.v
Workers.v
Run.v
Save.v
Sockets.v
Start.v
Cli.v
TrackerCli.v
