(* ===== verification/Prelude.v ===== *)
(** * SwarmSync: verification library

    SwarmSync distributes a file among peers.  A manifest names the file, its
    SHA-256 and that of each chunk; a tracker remembers for a while which peer
    announced which chunks of which swarm; peers serve chunks to each other; a
    downloader fetches the chunks, verifies and stores each, keeps a resume
    file, and publishes the file once its hash is right.  This library models
    the C++ sources under src/ and proves what the parts promise each other.

    ** Conventions

    A [std::string] or byte vector is a list of 8-bit characters ([bytes]); an
    unsigned integer is a [Z] whose wrap-around is written where the code can
    reach it ([u16], [u32], [u64]).  A function that throws returns [res A]: [Ok]
    or [Throw] of an [exn], which is [Error] for the program's own class,
    [StdException] for the library's, and [Diverged] for a loop that ran out of
    fuel.  [Diverged] is not an exception of the program; the theorems show that
    it never comes out, the fuel being computed from the input or the script of
    outcomes.  Effects are [io S A], state passing with exceptions; [let!] and
    [do] are its binds, [catch_error] is [catch (const Error&)] and [catch_all]
    is [catch (...)].  Hoare has triples for [io] with one postcondition for a
    return and one for an exception.

    The world outside is a list of outcomes that any theorem quantifies over: a
    system call works, transfers less, is interrupted or fails (Posix, Stream,
    Sockets), a connection attempt succeeds or not (Net).  SHA-256 is the class
    [Evp] of Crypto with the documented behaviour of OpenSSL's interface as
    laws; [getaddrinfo] and the order of an [unordered_map] are classes too.  A
    toy digest and concrete orders make the witnesses evaluate.

    ** Files, in order

    - Prelude: bytes, exceptions, effects, notation, hint databases, shared
      lemmas and tactics.
    - Text, Iostream: what is used of [from_chars], [to_string], paths, and of
      [std::ifstream].
    - Crypto: crypto.cpp.  Protocol: the messages of protocol.cpp.
    - Hoare: triples.  Posix: files, descriptors, durability and the history of
      file systems a crash could leave.
    - Stream: [read_line], [read_exact], [write_all] of protocol.cpp.  Net:
      outgoing connections as a client sees them.
    - Manifest: manifest.cpp.  Save: [Manifest::save] over Filestream.
    - ResumeStore: resume_store.cpp, with [write_atomic].  ResumeFlush: [flush]
      interleaved with other threads.
    - Tracker: the registry, the connection handler and the client of
      tracker.cpp.  Presence: the history that the registry refines.
    - PeerServer: the handler of peer_server.cpp.
    - Pool: the accept and worker threads and [stop] of both servers as a step
      relation.  Start: [start] and [stop] over Sockets.
    - Heartbeat: the heartbeat thread of download.cpp and [stop_heartbeat].
    - Download: [fetch_chunk], [fetch_with_retry].  Filestream: [ofstream] and
      [std::filesystem].  Persist: the partial file.  Durable: the invariant
      that ties store, resume file and partial file.  Workers: the download
      threads as a step relation.  Run: [DownloadCoordinator::run].
    - Sockets: the [Socket] class, [connect_tcp], [listen_tcp], [accept_tcp] and
      their helpers over a descriptor table that other threads share.
    - Cli: apps/swarmsync_main.cpp.  TrackerCli: apps/tracker_main.cpp.

    A definition has the name of the function it models; a loop or a block of a
    function has its own ([pwrite_loop], [write_chunk_cleanup]).  State is a
    record with the class's members; threads are a step relation whose positions
    are the points between the accesses to shared state.

    ** What is shown

    - A download is right or absent.  [Run.run_verified]: whatever the network
      sends and whatever calls fail, at every moment the final path is as it was
      or holds the manifest's file, a run that returns has published it, and one
      that throws leaves files from which a run can start again;
      [Cli.download_exit_code] carries this to the exit code of the program.
    - A crash loses no promise.  [Durable.store_chunk_crash_safe]: in every file
      system that storing a chunk goes through, the chunks the resume file lists
      survive in the partial file; [ResumeStore.write_atomic_atomic]: the resume
      file is the old or the new one; [Durable.revalidate_exact]: a restart
      clears exactly the marks whose bytes are wrong.
    - The workers share the chunks.  [Workers.workers_complete]: no two work on
      one chunk, and if all end without a failure everything is complete;
      [Workers.workers_terminate]: they end in a bounded number of steps.
    - The wire is inverted exactly.  A query lists what was announced
      ([Tracker.query_roundtrip], [Tracker.announce_roundtrip]), a chunk that a
      server offers arrives ([Download.fetch_from_server]), only verified bytes
      are accepted ([Download.fetch_only_verified]), a resume file and a manifest
      load as what was written ([ResumeStore.resume_roundtrip],
      [Save.saved_manifest_safe], also when the file was cut short).
    - The servers hold.  The registry stays within its limits
      ([Tracker.tracker_invariant]) and changes only for a request with the
      token ([Tracker.change_is_authorised]), and though it erases lazily its
      answers are those of a history that never forgets
      ([Presence.registry_refines_presence]); a peer answers one connection with
      one answer and gives no bytes away ([PeerServer.serve_connection_safe]);
      [Pool] bounds the connections, loses no wakeup and stops; [Start] starts
      completely or not at all, and stops with every thread joined.
    - Descriptors are owned.  [Sockets.connect_tcp_exact] and
      [Sockets.server_sockets_exact] account for every open and close.
    - Where the code does not do what it means to, a theorem says so:
      [Tracker.large_partial_announcement_fails],
      [Heartbeat.heartbeat_lost_wakeup] (and [heartbeat_stop_bounded], the bound
      that remains), [Sockets.connect_closes_foreign_descriptor],
      [ResumeFlush.concurrent_flush_loses_mark],
      [Tracker.scoped_address_breaks_query], [Tracker.short_swarm_breaks_query],
      [Stream.read_line_any_length],
      [Persist.prepare_silent_failure], [Save.save_can_lose_everything].

    ** How the parts meet

    Pool and Start share [stop]: Start joins a thread only when it was told to
    end (the flag, the shutdown of the listener, the notification), and Pool
    shows that from there it does end, with no client arriving and no call
    failing by itself.  Presence specifies what Tracker's critical sections answer, one step each, so
    that workers may interleave between them in any order.  Durable's record
    [in_step] is the interface between the store, the files and
    the workers: Persist and ResumeStore preserve it, Workers carries it through
    every interleaving, Run starts from it and ends with it.  Net's [dial_ok] is
    what Download and Tracker need of a connection; Sockets shows what
    [connect_tcp] does to get one.  Run takes the joined workers as a parameter
    of its environment with the hypothesis that they are a run of Workers that
    ended; its witness computes such a run with the scheduler of Workers.

    ** Bounds and fuel

    The loops over [recv] have one unit of fuel for each event and byte still to
    come; those over [write], [pwrite], [poll] and [accept] have one for each
    outcome in the script, which an interruption uses up; the retry loop is
    bounded by the configuration.  The counter of the workers is a 32-bit atomic:
    their theorems ask that chunks and workers together stay below 2^32, which
    the limit of a million chunks leaves room for.  Pool asks for a connection
    limit below 2^32 - 1, where its counter could wrap.

    ** Not modelled

    - logging (common.cpp) and everything printed;
    - what SHA-256 computes, and the resolver;
    - directories: [create_directories] works or throws; every file is regular;
      device errors while an open file is read;
    - [std::bad_alloc], and the termination of the process when the creation of
      a worker thread fails after another was created (a finding of the
      manifest);
    - inside one fetch, one announcement or one stored chunk of the workers
      nothing of another worker is interleaved: a fetch touches only its own
      connections and adds to the retry counter, an announcement reads the store
      (at one moment here, under two locks in the code), and a stored chunk
      holds the write mutex throughout. *)

From Stdlib Require Export Ascii ZArith Lia.
From stdpp Require Export base tactics list option numbers strings gmap relations.

#[local] Open Scope Z_scope.

(** ** Bytes

    A [std::string], [std::string_view] or [std::vector<std::byte>] of the
    program is a list of 8-bit characters. *)

Abbreviation bytes := (list ascii).

(** The value of an [unsigned char]. *)
Definition code (c : ascii) : Z := Z.of_N (N_of_ascii c).

(** [static_cast<char>] of an integer: the low eight bits. *)
Definition chr (z : Z) : ascii := ascii_of_N (Z.to_N (z mod 256)).

(** A string literal of the source. *)
Definition str (s : string) : bytes := String.list_ascii_of_string s.

#[global] Arguments str : simpl never.

(** [size()] of a string or a vector, a [size_t]. *)
Definition len {A} (s : list A) : Z := Z.of_nat (length s).

(** [lo <= c && c <= hi] for characters. *)
Definition in_range (lo hi c : ascii) : bool :=
  (code lo <=? code c) && (code c <=? code hi).

(** Wrap-around of the unsigned types. *)
Definition u16 (z : Z) : Z := z mod 2 ^ 16.
Definition u32 (z : Z) : Z := z mod 2 ^ 32.
Definition u64 (z : Z) : Z := z mod 2 ^ 64.

(** Equality of strings, the [==] of [std::string_view]. *)
Definition beq (s t : bytes) : bool := bool_decide (s = t).

(** [std::string::starts_with]. *)
Fixpoint starts_with (prefix s : bytes) : bool :=
  match prefix, s with
  | [], _ => true
  | p :: prefix', c :: s' => bool_decide (p = c) && starts_with prefix' s'
  | _ :: _, [] => false
  end.

(** Control characters used by the line formats. *)
Definition LF : ascii := chr 10.
Definition CR : ascii := chr 13.
Definition SP : ascii := " "%char.
Definition COMMA : ascii := ","%char.

(** ** Exceptions

    The program throws [swarmsync::Error]; the standard library it calls
    throws its own exceptions, which [catch (const Error&)] does not catch.
    [Diverged] is not an exception of the program: it is the result of a
    model loop whose fuel is used up, and the termination theorems show that
    no operation returns it. *)

Inductive exn :=
| Error (what : bytes)
| StdException (what : bytes)
| Diverged.

Inductive res (A : Type) :=
| Ok (a : A)
| Throw (e : exn).
Arguments Ok {A} _.
Arguments Throw {A} _.

#[global] Instance exn_eq_dec : EqDecision exn.
Proof. solve_decision. Defined.
#[global] Instance res_eq_dec {A} `{EqDecision A} : EqDecision (res A).
Proof. solve_decision. Defined.

Definition throw {A} (what : string) : res A := Throw (Error (str what)).

Definition rbind {A B} (m : res A) (k : A → res B) : res B :=
  match m with Ok a => k a | Throw e => Throw e end.

Definition is_ok {A} (m : res A) : bool :=
  match m with Ok _ => true | Throw _ => false end.

Declare Scope swarm_scope.
Delimit Scope swarm_scope with swarm.
#[global] Open Scope swarm_scope.

Notation "'let!' x ':=' m 'in' k" := (rbind m (λ x, k))
  (at level 10, x binder, m at level 100, k at level 200) : swarm_scope.
Notation "'let!' ' p ':=' m 'in' k" := (rbind m (λ x, match x with p => k end))
  (at level 10, p pattern, m at level 100, k at level 200) : swarm_scope.

(** ** Effects: state passing with exceptions

    An operation that changes an object, a socket or the file system returns
    its result (or the exception) together with the new state: what was done
    before a throw stays done. *)

Definition io (S A : Type) : Type := S → res A * S.

Definition ret {S A} (a : A) : io S A := λ s, (Ok a, s).
Definition raise {S A} (e : exn) : io S A := λ s, (Throw e, s).
Definition raise_error {S A} (what : string) : io S A := raise (Error (str what)).
Definition lift {S A} (m : res A) : io S A := λ s, (m, s).
Definition bind {S A B} (m : io S A) (k : A → io S B) : io S B :=
  λ s, match m s with
       | (Ok a, s') => k a s'
       | (Throw e, s') => (Throw e, s')
       end.

(** [try { m } catch (const Error&) { h }]. *)
Definition catch_error {S A} (m : io S A) (h : bytes → io S A) : io S A :=
  λ s, match m s with
       | (Throw (Error what), s') => h what s'
       | r => r
       end.

(** [try { m } catch (...) { h }]: the handler sees every exception. *)
Definition catch_all {S A} (m : io S A) (h : exn → io S A) : io S A :=
  λ s, match m s with
       | (Throw e, s') => h e s'
       | r => r
       end.

Notation "'do' x <- m ; k" := (bind m (λ x, k))
  (at level 10, x binder, m at level 100, k at level 200) : swarm_scope.
Notation "'do' ' p <- m ; k" := (bind m (λ x, match x with p => k end))
  (at level 10, p pattern, m at level 100, k at level 200) : swarm_scope.
Notation "m ';;;' k" := (bind m (λ _, k))
  (at level 199, right associativity) : swarm_scope.

(** ** Strictly increasing lists, the order of every chunk list *)

Fixpoint increasing (l : list Z) : bool :=
  match l with
  | x :: (y :: _) as l' => (x <? y) && increasing l'
  | _ => true
  end.

(** ** Automation *)

Ltac destruct_res m := let E := fresh "E" in destruct m eqn:E.

(** Splits on the next [match] or [if] of the goal. *)
Ltac case_next :=
  match goal with
  | |- context [match ?x with _ => _ end] => let E := fresh "E" in destruct x eqn:E
  end.

(** The same in a hypothesis. *)
Ltac case_next_in H :=
  match type of H with
  | context [match ?x with _ => _ end] => let E := fresh "E" in destruct x eqn:E
  end.

(** Turns boolean tests into propositions. *)
Ltac reflect :=
  repeat match goal with
  | H : _ && _ = true |- _ => apply andb_true_iff in H as [? ?]
  | H : _ || _ = false |- _ => apply orb_false_iff in H as [? ?]
  | H : negb _ = true |- _ => apply negb_true_iff in H
  | H : negb _ = false |- _ => apply negb_false_iff in H
  | H : (_ =? _) = true |- _ => apply Z.eqb_eq in H
  | H : (_ =? _) = false |- _ => apply Z.eqb_neq in H
  | H : (_ <? _) = true |- _ => apply Z.ltb_lt in H
  | H : (_ <? _) = false |- _ => apply Z.ltb_ge in H
  | H : (_ <=? _) = true |- _ => apply Z.leb_le in H
  | H : (_ <=? _) = false |- _ => apply Z.leb_gt in H
  | H : (_ >? _) = true |- _ => rewrite Z.gtb_ltb in H
  | H : (_ >? _) = false |- _ => rewrite Z.gtb_ltb in H
  | H : (_ >=? _) = true |- _ => rewrite Z.geb_leb in H
  | H : (_ >=? _) = false |- _ => rewrite Z.geb_leb in H
  | H : bool_decide _ = true |- _ => apply bool_decide_eq_true in H
  | H : bool_decide _ = false |- _ => apply bool_decide_eq_false in H
  | H : beq _ _ = true |- _ => unfold beq in H
  | H : beq _ _ = false |- _ => unfold beq in H
  end.

Create HintDb swarm.
Create HintDb no_diverge.

(** ** Lemmas: results and effects *)

Lemma rbind_ok {A B} (m : res A) (k : A → res B) b :
  rbind m k = Ok b ↔ ∃ a, m = Ok a ∧ k a = Ok b.
Proof. destruct m; naive_solver. Qed.

Lemma Ok_inj {A} (a b : A) : Ok a = Ok b → a = b.
Proof. congruence. Qed.

(** From [H : rbind m k = Ok b]: the intermediate result and its equation. *)
Ltac bind_inv H a Ha := apply rbind_ok in H as (a & Ha & H).
Ltac bind_skip H a := apply rbind_ok in H as (a & _ & H).

Lemma rbind_no_diverge {A B} (m : res A) (k : A → res B) :
  m ≠ Throw Diverged → (∀ a, k a ≠ Throw Diverged) → rbind m k ≠ Throw Diverged.
Proof. destruct m; naive_solver. Qed.

(** Proves that an operation does not run out of fuel from the same fact about
    the operations it calls. *)
Ltac no_diverge :=
  repeat first
    [ done
    | progress intros
    | apply rbind_no_diverge
    | solve [eauto with no_diverge]
    | case_match ].

(** The operation throws nothing but [Error], so [catch (const Error&)] sees
    every exception of it. *)
Definition errors_only {A} (m : res A) : Prop :=
  match m with Ok _ | Throw (Error _) => True | Throw _ => False end.

Lemma rbind_errors_only {A B} (m : res A) (k : A → res B) :
  errors_only m → (∀ a, m = Ok a → errors_only (k a)) → errors_only (rbind m k).
Proof. destruct m; simpl; auto. Qed.

Lemma errors_only_throw {A} (m : res A) e : errors_only m → m = Throw e → ∃ w, e = Error w.
Proof. intros H ->. destruct e; naive_solver. Qed.

Create HintDb errors_only.

(** The same automation for [errors_only]. *)
Ltac errors_only :=
  repeat match goal with
    | |- errors_only (Ok _) => exact I
    | |- errors_only (throw _) => exact I
    | |- errors_only (Throw (Error _)) => exact I
    | |- ∀ _, _ => intros
    | |- errors_only (rbind _ _) => apply rbind_errors_only
    | |- errors_only (match _ with _ => _ end) => case_match
    | |- errors_only _ => solve [eauto with errors_only]
    end.

(** ** Lemmas: characters *)

Lemma code_range c : 0 ≤ code c < 256.
Proof. unfold code. pose proof (N_ascii_bounded c). lia. Qed.

Lemma chr_code c : chr (code c) = c.
Proof.
  unfold chr. rewrite Z.mod_small by apply code_range.
  unfold code. rewrite N2Z.id. apply ascii_N_embedding.
Qed.

Lemma code_chr z : 0 ≤ z < 256 → code (chr z) = z.
Proof.
  intros Hz. unfold code, chr. rewrite Z.mod_small by done.
  rewrite N_ascii_embedding by lia. lia.
Qed.

Lemma code_inj c d : code c = code d → c = d.
Proof. intros H. by rewrite <-(chr_code c), <-(chr_code d), H. Qed.

Lemma in_range_spec lo hi c : in_range lo hi c = true ↔ code lo ≤ code c ≤ code hi.
Proof. unfold in_range. rewrite andb_true_iff, !Z.leb_le. done. Qed.

Lemma beq_spec s t : beq s t = true ↔ s = t.
Proof. apply bool_decide_eq_true. Qed.

Lemma beq_refl s : beq s s = true.
Proof. by apply beq_spec. Qed.

Lemma starts_with_spec p s : starts_with p s = true ↔ ∃ r, s = p ++ r.
Proof.
  revert s. induction p as [|c p IH]; intros s; simpl; [naive_solver|].
  destruct s as [|d s]; [naive_solver|].
  rewrite andb_true_iff, bool_decide_eq_true, IH. naive_solver.
Qed.

Lemma starts_with_app p r : starts_with p (p ++ r) = true.
Proof. apply starts_with_spec. eauto. Qed.

Lemma gtb_false a b : (a >? b) = false ↔ a ≤ b.
Proof. rewrite Z.gtb_ltb, Z.ltb_ge. done. Qed.

Lemma gtb_true a b : (a >? b) = true ↔ b < a.
Proof. rewrite Z.gtb_ltb, Z.ltb_lt. done. Qed.

Lemma u16_small z : 0 ≤ z < 2 ^ 16 → u16 z = z.
Proof. apply Z.mod_small. Qed.

Lemma u32_small z : 0 ≤ z < 2 ^ 32 → u32 z = z.
Proof. apply Z.mod_small. Qed.

Lemma u64_small z : 0 ≤ z < 2 ^ 64 → u64 z = z.
Proof. apply Z.mod_small. Qed.

Lemma len_nonneg {A} (s : list A) : 0 ≤ len s.
Proof. unfold len. lia. Qed.

Lemma len_app {A} (s t : list A) : len (s ++ t) = len s + len t.
Proof. unfold len. rewrite length_app. lia. Qed.

Lemma len_cons {A} (x : A) s : len (x :: s) = 1 + len s.
Proof. unfold len. simpl. lia. Qed.

Lemma len_nil {A} : len (@nil A) = 0.
Proof. done. Qed.

#[export] Hint Rewrite @len_app @len_cons @len_nil : swarm.

(** ** Lemmas: increasing lists *)

Lemma increasing_cons x l :
  increasing (x :: l) = true ↔ Forall (λ y, x < y) l ∧ increasing l = true.
Proof.
  revert x. induction l as [|y l IH]; intros x; [simpl; naive_solver|].
  change (increasing (x :: y :: l)) with ((x <? y) && increasing (y :: l)).
  rewrite andb_true_iff, Z.ltb_lt. split; intros [Hxy Hl]; (split; [|done]).
  - constructor; [done|]. apply IH in Hl as [Hl _].
    eapply Forall_impl; [exact Hl|]. simpl; lia.
  - by apply Forall_cons in Hxy as [? _].
Qed.

Lemma increasing_app l1 l2 :
  increasing (l1 ++ l2) = true ↔
  increasing l1 = true ∧ increasing l2 = true ∧ ∀ x y, x ∈ l1 → y ∈ l2 → x < y.
Proof.
  induction l1 as [|a l1 IH]; simpl app.
  - split; [intros; repeat split; set_solver|naive_solver].
  - rewrite !increasing_cons, IH, Forall_app, !Forall_forall. split.
    + intros ([? ?]&?&?&?); repeat split; try done.
      intros x y [->|?]%elem_of_cons ?; naive_solver.
    + intros ([? ?]&?&?); repeat split; set_solver.
Qed.

Lemma increasing_NoDup l : increasing l = true → NoDup l.
Proof.
  induction l as [|x l IH]; [constructor|].
  rewrite increasing_cons. intros [Hx Hl]. constructor; [|by apply IH].
  intros Hin. rewrite Forall_forall in Hx. specialize (Hx x Hin). lia.
Qed.

(** ** Lemmas: sums over a list that is updated *)

Lemma sum_list_insert {A} (f : A → nat) (l : list A) i x y :
  l !! i = Some x →
  (sum_list_with f (<[i := y]> l) + f x = sum_list_with f l + f y)%nat.
Proof.
  revert i. induction l as [|a l IH]; intros [|i] H; simpl in *; simplify_eq; [lia|].
  specialize (IH i H). lia.
Qed.

Lemma sum_list_le {A B} (f : A → nat) (g : B → nat) (h : A → B) (l : list A) :
  (∀ x, g (h x) ≤ f x)%nat → (sum_list_with g (map h l) ≤ sum_list_with f l)%nat.
Proof. intros H. induction l as [|x l IH]; simpl; [lia|]. specialize (H x). lia. Qed.

Lemma sum_list_zero {A} (f : A → nat) (l : list A) :
  Forall (λ x, f x = 0%nat) l → sum_list_with f l = 0%nat.
Proof. induction 1 as [|x l Hx Hl IH]; simpl in *; lia. Qed.
