(* ===== verification/Text.v ===== *)
(** * Text: the standard-library text operations the program uses

    [std::from_chars] for unsigned types, decimal output ([std::to_string] and
    [operator<<] on unsigned integers), [find] of a separator, and the two
    loops that read a comma-separated list of chunk numbers.  Everything here
    is shared by Protocol, Manifest, ResumeStore and Cli. *)

From S2P Require Export Prelude.

#[local] Open Scope Z_scope.

(** ** Definitions *)

(** A decimal digit, and the character of a digit value. *)
Definition is_digit (c : ascii) : bool := in_range "0" "9" c.
Definition digit_value (c : ascii) : Z := code c - 48.
Definition digit_char (d : Z) : ascii := chr (48 + d).

(** The longest prefix of decimal digits and what follows it. *)
Fixpoint span_digits (s : bytes) : bytes * bytes :=
  match s with
  | c :: s' =>
      if is_digit c then let '(ds, r) := span_digits s' in (c :: ds, r)
      else ([], s)
  | [] => ([], [])
  end.

(** The value of a string of digits. *)
Definition decimal (ds : bytes) : Z :=
  fold_left (λ acc c, acc * 10 + digit_value c) ds 0.

(** [std::errc] as [std::from_chars] reports it. *)
Inductive errc := errc_ok | invalid_argument | result_out_of_range.

(** [std::from_chars(first, last, value)] into an unsigned [w]-bit integer:
    the value, the characters from the returned pointer to [last], and the
    error.  The whole digit prefix is consumed even when the value is out of
    range, and the destination then keeps its initial 0. *)
Definition from_chars (w : Z) (s : bytes) : Z * bytes * errc :=
  match span_digits s with
  | ([], _) => (0, s, invalid_argument)
  | (ds, r) => if decimal ds <? 2 ^ w then (decimal ds, r, errc_ok)
               else (0, r, result_out_of_range)
  end.

Definition errc_is_ok (e : errc) : bool :=
  match e with errc_ok => true | _ => false end.

(** The check around [from_chars] that every parser of the program makes:
    an empty field, an error or unread characters are rejected, with the
    messages of the caller. *)
Definition parse_field (w : Z) (value empty invalid : bytes) : res Z :=
  if bool_decide (value = []) then Throw (Error empty)
  else
    let '(result, rest, error) := from_chars w value in
    if negb (errc_is_ok error) || negb (bool_decide (rest = []))
    then Throw (Error invalid)
    else Ok result.

(** [require_field]: the text after [field=] at the start of a line. *)
Definition require_prefix (line : bytes) (field : string) (missing : bytes) : res bytes :=
  let prefix := str field ++ str "=" in
  if negb (starts_with prefix line) then Throw (Error missing)
  else Ok (drop (length prefix) line).

(** Decimal output of an unsigned integer. *)
Fixpoint digits_loop (fuel : nat) (n : Z) (acc : bytes) : bytes :=
  match fuel with
  | O => acc
  | S fuel' =>
      let acc' := digit_char (n mod 10) :: acc in
      if n / 10 =? 0 then acc' else digits_loop fuel' (n / 10) acc'
  end.
Definition to_string (n : Z) : bytes := digits_loop (S (Z.to_nat (Z.log2 n))) n [].

(** [s.find(c)]: what precedes the first [c] and what follows it, or [None]
    for [npos]. *)
Fixpoint split_at (c : ascii) (s : bytes) : option (bytes * bytes) :=
  match s with
  | [] => None
  | d :: s' =>
      if bool_decide (d = c) then Some ([], s')
      else match split_at c s' with
           | Some (l, r) => Some (d :: l, r)
           | None => None
           end
  end.

(** Decimal fields joined by commas, the output format of the chunk lists. *)
Fixpoint join_commas (l : list Z) : bytes :=
  match l with
  | [] => []
  | [x] => to_string x
  | x :: l' => to_string x ++ COMMA :: join_commas l'
  end.

(** [path.filename()]: what follows the last separator. *)
Fixpoint path_filename (path : bytes) : bytes :=
  match path with
  | [] => []
  | c :: path' =>
      match split_at "/" path with
      | None => path
      | Some _ => path_filename path'
      end
  end.

(** [path.parent_path()]: the path without its last component and the
    separators before it. *)
Fixpoint strip_slashes (reversed : bytes) : bytes :=
  match reversed with
  | "/"%char :: r => strip_slashes r
  | _ => reversed
  end.
Definition path_parent (path : bytes) : bytes :=
  let directory := take (length path - length (path_filename path)) path in
  match directory, rev (strip_slashes (rev directory)) with
  | [], _ => []
  | _, [] => str "/"
  | _, stripped => stripped
  end.

(** [directory / name] for a relative [name]. *)
Definition path_join (directory name : bytes) : bytes :=
  match last directory with
  | None => name
  | Some "/"%char => directory ++ name
  | Some _ => directory ++ str "/" ++ name
  end.

(** ** Digits *)

Lemma digit_char_digit d : 0 ≤ d < 10 → is_digit (digit_char d) = true.
Proof.
  intros Hd. unfold is_digit, digit_char. apply in_range_spec.
  rewrite code_chr by lia. change (code "0") with 48. change (code "9") with 57. lia.
Qed.

Lemma digit_value_char d : 0 ≤ d < 10 → digit_value (digit_char d) = d.
Proof. intros Hd. unfold digit_value, digit_char. rewrite code_chr; lia. Qed.

Lemma digit_value_range c : is_digit c = true → 0 ≤ digit_value c < 10.
Proof.
  unfold is_digit, digit_value. rewrite in_range_spec.
  change (code "0") with 48. change (code "9") with 57. lia.
Qed.

Lemma span_digits_app ds r :
  Forall (λ c, is_digit c = true) ds →
  span_digits (ds ++ r) = (ds ++ (span_digits r).1, (span_digits r).2).
Proof.
  induction 1 as [|c ds Hc _ IH]; simpl; [by destruct (span_digits r)|].
  by rewrite Hc, IH.
Qed.

Lemma span_digits_spec s ds r :
  span_digits s = (ds, r) → s = ds ++ r ∧ Forall (λ c, is_digit c = true) ds.
Proof.
  revert ds r. induction s as [|c s IH]; intros ds r; simpl; [naive_solver|].
  destruct (is_digit c) eqn:Hc; [|naive_solver].
  destruct (span_digits s) as [ds' r']. intros [= <- <-].
  destruct (IH ds' r' eq_refl) as [-> ?]. naive_solver.
Qed.

Lemma span_digits_all ds :
  Forall (λ c, is_digit c = true) ds → span_digits ds = (ds, []).
Proof.
  intros H. rewrite <-(app_nil_r ds) at 1. rewrite span_digits_app by done.
  simpl. by rewrite app_nil_r.
Qed.

Lemma decimal_snoc ds c : decimal (ds ++ [c]) = decimal ds * 10 + digit_value c.
Proof. unfold decimal. by rewrite fold_left_app. Qed.

Lemma decimal_nonneg ds : Forall (λ c, is_digit c = true) ds → 0 ≤ decimal ds.
Proof.
  induction ds as [|c ds IH] using rev_ind; intros H; [done|].
  apply Forall_app in H as [H1 H2]. rewrite Forall_singleton in H2.
  rewrite decimal_snoc. apply digit_value_range in H2. specialize (IH H1). lia.
Qed.

(** ** Decimal output *)

Lemma digits_loop_acc fuel n acc :
  digits_loop fuel n acc = digits_loop fuel n [] ++ acc.
Proof.
  revert n acc. induction fuel as [|fuel IH]; intros n acc; simpl; [done|].
  case_match; [done|]. rewrite IH, (IH _ [_]), <-app_assoc. done.
Qed.

(** One step of the digits of [n], once the fuel is known to be enough. *)
Lemma digits_loop_spec fuel n :
  0 ≤ n < 2 ^ Z.of_nat fuel → (0 < fuel)%nat →
  Forall (λ c, is_digit c = true) (digits_loop fuel n []) ∧
  decimal (digits_loop fuel n []) = n ∧ digits_loop fuel n [] ≠ [].
Proof.
  revert n. induction fuel as [|fuel IH]; intros n Hn Hf; [lia|]. simpl.
  pose proof (Z.mod_pos_bound n 10 ltac:(lia)) as Hm.
  pose proof (Z.div_mod n 10 ltac:(lia)) as Hdm.
  destruct (Z.eqb_spec (n / 10) 0) as [H0|H0].
  - split_and!; [by repeat constructor; apply digit_char_digit| |done].
    unfold decimal; simpl. rewrite digit_value_char; lia.
  - rewrite Nat2Z.inj_succ, Z.pow_succ_r in Hn by lia.
    assert (0 ≤ n / 10) by (apply Z.div_pos; lia).
    assert (n / 10 < 2 ^ Z.of_nat fuel) by (apply Z.div_lt_upper_bound; lia).
    assert (0 < fuel)%nat by (destruct fuel; simpl in *; lia).
    destruct (IH (n / 10)) as (IH1 & IH2 & IH3); [lia|done|].
    rewrite digits_loop_acc. split_and!.
    + apply Forall_app; split; [done|]. by repeat constructor; apply digit_char_digit.
    + rewrite decimal_snoc, IH2, digit_value_char; lia.
    + by destruct (digits_loop fuel (n / 10) []).
Qed.

Lemma to_string_spec n :
  0 ≤ n →
  Forall (λ c, is_digit c = true) (to_string n) ∧ decimal (to_string n) = n ∧
  to_string n ≠ [].
Proof.
  intros Hn. apply digits_loop_spec; [|lia]. split; [done|].
  rewrite Nat2Z.inj_succ, Z2Nat.id by apply Z.log2_nonneg.
  destruct (Z.eq_dec n 0) as [->|]; [done|]. apply Z.log2_spec; lia.
Qed.

Lemma to_string_digits n : 0 ≤ n → Forall (λ c, is_digit c = true) (to_string n).
Proof. intros. by apply to_string_spec. Qed.

Lemma to_string_nonempty n : 0 ≤ n → to_string n ≠ [].
Proof. intros. by apply to_string_spec. Qed.

Lemma decimal_to_string n : 0 ≤ n → decimal (to_string n) = n.
Proof. intros. by apply to_string_spec. Qed.

(** ** [from_chars] *)

(** The number of characters printed for [n] is that of its decimal digits:
    [d] digits are enough for [n < 10^d]. *)
Lemma digits_loop_length fuel n d :
  0 ≤ n < 10 ^ Z.of_nat d → (0 < d)%nat → (length (digits_loop fuel n []) ≤ d)%nat.
Proof.
  revert n d. induction fuel as [|fuel IH]; intros n d Hn Hd; simpl; [lia|].
  case_match; [simpl; lia|]. rewrite digits_loop_acc, length_app. simpl.
  destruct d as [|d]; [lia|]. reflect.
  rewrite Nat2Z.inj_succ, Z.pow_succ_r in Hn by lia.
  pose proof (Z.div_mod n 10 ltac:(lia)). pose proof (Z.mod_pos_bound n 10 ltac:(lia)).
  destruct d as [|d]; [change (10 ^ Z.of_nat 0) with 1 in Hn; lia|].
  specialize (IH (n / 10) (S d)). lia.
Qed.

(** Accepting a whole field is exactly: not empty, only digits, in range. *)
Lemma from_chars_whole w s v :
  from_chars w s = (v, [], errc_ok) ↔
  s ≠ [] ∧ Forall (λ c, is_digit c = true) s ∧ decimal s = v ∧ v < 2 ^ w.
Proof.
  unfold from_chars. split.
  - destruct (span_digits s) as [ds r] eqn:E.
    destruct (span_digits_spec _ _ _ E) as [-> Hd].
    destruct ds as [|c ds]; [naive_solver|].
    destruct (Z.ltb_spec (decimal (c :: ds)) (2 ^ w)); intros [=]; subst.
    rewrite app_nil_r. naive_solver.
  - intros (Hne & Hd & <- & Hlt). rewrite span_digits_all by done.
    destruct s as [|c s]; [done|]. by apply Z.ltb_lt in Hlt as ->.
Qed.

Lemma parse_field_iff w v e i n :
  parse_field w v e i = Ok n ↔
  v ≠ [] ∧ Forall (λ c, is_digit c = true) v ∧ decimal v = n ∧ n < 2 ^ w.
Proof.
  rewrite <-from_chars_whole. unfold parse_field. split.
  - case_bool_decide; [done|]. destruct (from_chars w v) as [[z r] []]; simpl; try done.
    case_bool_decide; simpl; [|done]. naive_solver.
  - intros H. rewrite H. simpl.
    apply from_chars_whole in H as [Hv _]. by rewrite bool_decide_eq_false_2.
Qed.

Lemma parse_field_range w v e i n : parse_field w v e i = Ok n → 0 ≤ n < 2 ^ w.
Proof. intros (_ & Hd & <- & ?)%parse_field_iff. split; [by apply decimal_nonneg|done]. Qed.

Lemma parse_field_to_string w n e i :
  0 ≤ n < 2 ^ w → parse_field w (to_string n) e i = Ok n.
Proof.
  intros Hn. apply parse_field_iff. destruct (to_string_spec n) as (?&?&?); naive_solver lia.
Qed.

Lemma parse_field_no_diverge w v e i : parse_field w v e i ≠ Throw Diverged.
Proof. unfold parse_field. repeat (case_match; try done). Qed.

Lemma require_prefix_app field missing s :
  require_prefix (str field ++ str "=" ++ s) field missing = Ok s.
Proof.
  unfold require_prefix. rewrite app_assoc, starts_with_app. simpl. by rewrite drop_app_length.
Qed.

Lemma require_prefix_no_diverge l f m : require_prefix l f m ≠ Throw Diverged.
Proof. unfold require_prefix. by case_match. Qed.

Lemma decimal_lt ds : Forall (λ c, is_digit c = true) ds → decimal ds < 10 ^ len ds.
Proof.
  induction ds as [|c ds IH] using rev_ind; [done|]. intros [Hds Hc]%Forall_app.
  apply Forall_cons in Hc as [Hc%digit_value_range _]. specialize (IH Hds).
  rewrite decimal_snoc, len_app, len_cons, len_nil. pose proof (len_nonneg ds).
  replace (len ds + (1 + 0)) with (Z.succ (len ds)) by lia. rewrite Z.pow_succ_r by lia. lia.
Qed.

(** No field of digits is shorter than the decimal output of its value. *)
Lemma to_string_shortest ds :
  ds ≠ [] → Forall (λ c, is_digit c = true) ds → len (to_string (decimal ds)) ≤ len ds.
Proof.
  intros Hne Hds. pose proof (decimal_nonneg ds Hds). pose proof (decimal_lt ds Hds).
  unfold len, to_string in *. apply Nat2Z.inj_le, digits_loop_length; [done|].
  destruct ds; [done|simpl; lia].
Qed.

(** ** Splitting *)

Lemma split_at_none c s : split_at c s = None ↔ c ∉ s.
Proof.
  induction s as [|d s IH]; simpl; [set_solver|].
  case_bool_decide; subst; [set_solver|].
  destruct (split_at c s) as [[l r]|]; set_solver.
Qed.

Lemma split_at_app c l r : c ∉ l → split_at c (l ++ c :: r) = Some (l, r).
Proof.
  induction l as [|d l IH]; intros H; simpl.
  - by rewrite bool_decide_eq_true_2.
  - rewrite bool_decide_eq_false_2 by set_solver. rewrite IH by set_solver. done.
Qed.

Lemma split_at_some c s l r : split_at c s = Some (l, r) → s = l ++ c :: r ∧ c ∉ l.
Proof.
  revert l r. induction s as [|d s IH]; intros l r; simpl; [done|].
  case_bool_decide; subst; [intros [= <- <-]; set_solver|].
  destruct (split_at c s) as [[l' r']|]; [|done]. intros [= <- <-].
  destruct (IH _ _ eq_refl). set_solver.
Qed.

Lemma digits_not_in c ds :
  is_digit c = false → Forall (λ c, is_digit c = true) ds → c ∉ ds.
Proof. rewrite Forall_forall. intros Hc H Hin. specialize (H _ Hin). congruence. Qed.

Lemma join_commas_cons x l :
  l ≠ [] → join_commas (x :: l) = to_string x ++ COMMA :: join_commas l.
Proof. by destruct l. Qed.

Lemma join_commas_nonempty l : l ≠ [] → Forall (λ x, 0 ≤ x) l → join_commas l ≠ [].
Proof.
  destruct l as [|x [|y l]]; [done|..]; intros _ [Hx _]%Forall_cons.
  - by apply to_string_nonempty.
  - simpl. by destruct (to_string x).
Qed.

Lemma join_commas_length l : Forall (λ x, 0 ≤ x) l → (length l ≤ length (join_commas l))%nat.
Proof.
  induction 1 as [|x l Hx Hl IH]; [simpl; lia|].
  assert (0 < length (to_string x))%nat.
  { pose proof (to_string_nonempty x Hx). destruct (to_string x); [done|simpl; lia]. }
  destruct (decide (l = [])) as [->|]; [simpl in *; lia|].
  rewrite join_commas_cons, length_app by done. simpl in *. lia.
Qed.

Lemma join_commas_head l :
  l ≠ [] → Forall (λ x, 0 ≤ x) l → ∃ d r, join_commas l = d :: r ∧ is_digit d = true.
Proof.
  destruct l as [|x l]; [done|]. intros _ [Hx _]%Forall_cons.
  destruct (to_string_spec x Hx) as (Hd & _ & Hne).
  destruct (to_string x) as [|d r] eqn:E; [done|]. apply Forall_cons in Hd as [Hd _].
  destruct l; simpl; rewrite E; simpl; eauto.
Qed.

Lemma parse_field_errors w v e i : errors_only (parse_field w v e i).
Proof. unfold parse_field. case_match; [done|]. by repeat case_match. Qed.

Lemma require_prefix_errors l f m : errors_only (require_prefix l f m).
Proof. unfold require_prefix. by case_match. Qed.

#[export] Hint Resolve parse_field_errors require_prefix_errors : errors_only.
#[export] Hint Resolve parse_field_no_diverge require_prefix_no_diverge : no_diverge.
#[export] Hint Resolve to_string_digits to_string_nonempty : swarm.
