(* ===== verification/Iostream.v ===== *)
(** * Iostream: the file streams the program reads with

    [std::ifstream] as its readers use it: the file's bytes, the position and
    the two state bits that drive the loops ([while (input)], [input.eof()],
    [std::getline]).  Device errors ([badbit]) are not modelled: a file that
    was opened is read to its end. *)

From S2P Require Export Prelude.
From S2P Require Import Text.

#[local] Open Scope Z_scope.

(** ** Definitions *)

Record ifstream := {
  is_content : bytes;
  is_pos : nat;
  is_eofbit : bool;
  is_failbit : bool
}.

(** [std::ifstream input(path, std::ios::binary)]: [None] is a path that
    cannot be opened, which sets [failbit]. *)
Definition open_ifstream (file : option bytes) : ifstream :=
  match file with
  | Some content => {| is_content := content; is_pos := 0; is_eofbit := false; is_failbit := false |}
  | None => {| is_content := []; is_pos := 0; is_eofbit := false; is_failbit := true |}
  end.

(** [operator bool] and [good()]. *)
Definition is_ok_stream (i : ifstream) : bool := negb (is_failbit i).
Definition is_good (i : ifstream) : bool := negb (is_eofbit i) && negb (is_failbit i).

Definition set_state (i : ifstream) (pos : nat) (eof fail : bool) : ifstream :=
  {| is_content := is_content i; is_pos := pos; is_eofbit := eof; is_failbit := fail |}.

(** [input.read(buffer, n)] and the bytes counted by [gcount()]. *)
Definition is_read (n : Z) (i : ifstream) : bytes * ifstream :=
  if is_good i then
    let data := take (Z.to_nat n) (drop (is_pos i) (is_content i)) in
    let short := len data <? n in
    (data, set_state i (is_pos i + length data) short short)
  else ([], set_state i (is_pos i) (is_eofbit i) true).

(** [input.clear()] and [input.seekg(offset)]. *)
Definition is_clear (i : ifstream) : ifstream := set_state i (is_pos i) false false.
Definition is_seekg (offset : Z) (i : ifstream) : ifstream :=
  if is_failbit i then set_state i (is_pos i) false true
  else set_state i (Z.to_nat offset) false false.

(** [std::getline(input, line)]: the result tested by the program, the line
    and the stream. *)
Definition is_getline (i : ifstream) : bool * bytes * ifstream :=
  if is_good i then
    let rest := drop (is_pos i) (is_content i) in
    match split_at LF rest with
    | Some (line, _) => (true, line, set_state i (is_pos i + length line + 1) false false)
    | None =>
        let nothing := bool_decide (rest = []) in
        (negb nothing, rest, set_state i (length (is_content i)) true nothing)
    end
  else (false, [], set_state i (is_pos i) (is_eofbit i) true).

(** One line of a text file: [std::getline] and the removal of a final
    carriage return ([read_line] of the manifest, [read_required_line] of the
    resume state). *)
Definition chomp_cr (line : bytes) : bytes :=
  if bool_decide (last line = Some CR) then removelast line else line.

Definition read_text_line (at_eof : bytes) (i : ifstream) : res (bytes * ifstream) :=
  let '(got, line, i') := is_getline i in
  if negb got then Throw (Error at_eof) else Ok (chomp_cr line, i').

(** [while (input) { input.read(buffer, size); if (gcount() > 0) body }]. *)
Fixpoint while_read {S} (fuel : nat) (size : Z) (body : S → bytes → res S)
    (input : ifstream) (st : S) : res (S * ifstream) :=
  match fuel with
  | O => Throw Diverged
  | Datatypes.S fuel' =>
      if is_ok_stream input then
        let '(data, input') := is_read size input in
        let! st' := if 0 <? len data then body st data else Ok st in
        while_read fuel' size body input' st'
      else Ok (st, input)
  end.

(** Enough iterations for any positive block size. *)
Definition read_fuel (i : ifstream) : nat := length (is_content i) + 2.

(** The blocks of [k] bytes of a string, the last one possibly shorter. *)
Fixpoint blocks_loop (fuel k : nat) (s : bytes) : list bytes :=
  match fuel, s with
  | S fuel', _ :: _ => take k s :: blocks_loop fuel' k (drop k s)
  | _, _ => []
  end.
Definition blocks (k : nat) (s : bytes) : list bytes := blocks_loop (length s) k s.

(** Left fold with exceptions. *)
Fixpoint rfold {S A} (f : S → A → res S) (st : S) (l : list A) : res S :=
  match l with
  | [] => Ok st
  | a :: l' => let! st' := f st a in rfold f st' l'
  end.

(** A stream positioned before the lines that remain. *)
Definition at_rest (i : ifstream) (rest : bytes) : Prop :=
  is_good i = true ∧ drop (is_pos i) (is_content i) = rest ∧
  (is_pos i ≤ length (is_content i))%nat.

(** ** Blocks *)

Lemma blocks_loop_concat fuel k s :
  (0 < k)%nat → (length s ≤ fuel)%nat → concat (blocks_loop fuel k s) = s.
Proof.
  intros Hk. revert s. induction fuel as [|fuel IH]; intros [|c s] Hf; simpl in Hf; try done; try lia.
  simpl blocks_loop. simpl concat. rewrite IH; [by rewrite take_drop|].
  rewrite length_drop. simpl. lia.
Qed.

Lemma blocks_loop_fuel f1 f2 k s :
  (0 < k)%nat → (length s ≤ f1)%nat → (length s ≤ f2)%nat →
  blocks_loop f1 k s = blocks_loop f2 k s.
Proof.
  intros Hk. revert f2 s. induction f1 as [|f1 IH]; intros [|f2] [|c s] H1 H2;
    simpl in H1, H2; try done; try lia.
  simpl. f_equal. apply IH; rewrite length_drop; simpl; lia.
Qed.

Lemma blocks_unfold k s :
  (0 < k)%nat → s ≠ [] → blocks k s = take k s :: blocks k (drop k s).
Proof.
  intros Hk Hs. unfold blocks. destruct s as [|c s]; [done|].
  change (length (c :: s)) with (S (length s)) at 1.
  change (blocks_loop (S (length s)) k (c :: s))
    with (take k (c :: s) :: blocks_loop (length s) k (drop k (c :: s))).
  f_equal. apply blocks_loop_fuel; [done| |]; rewrite length_drop; simpl; lia.
Qed.

Lemma blocks_concat k s : (0 < k)%nat → concat (blocks k s) = s.
Proof. intros. by apply blocks_loop_concat. Qed.

Lemma blocks_nonempty k s : (0 < k)%nat → Forall (λ b, b ≠ []) (blocks k s).
Proof.
  intros Hk. unfold blocks. generalize (length s) at 1. intros n. revert s.
  induction n as [|n IH]; intros [|c s]; simpl; constructor; [|apply IH].
  destruct k; [lia|done].
Qed.

(** The number of blocks, as the program computes it. *)
Lemma blocks_length k s :
  (0 < k)%nat →
  len (blocks k s) = if len s =? 0 then 0 else (len s - 1) / Z.of_nat k + 1.
Proof.
  intros Hk. remember (length s) as n eqn:Hn. revert s Hn.
  induction n as [n IH] using lt_wf_ind. intros s Hn.
  destruct s as [|c s']; [done|]. set (s := c :: s') in *.
  assert (len s <> 0) as Hs by (unfold len, s; simpl; lia).
  destruct (Z.eqb_spec (len s) 0); [done|].
  rewrite blocks_unfold by done. rewrite len_cons.
  rewrite (IH (length (drop k s))) by
    (rewrite ?length_drop; subst n; unfold s; simpl; lia).
  unfold len in *. rewrite length_drop.
  assert (0 < length s)%nat by (unfold s; simpl; lia).
  destruct (Z.eqb_spec (Z.of_nat (length s - k)) 0).
  - rewrite Z.div_small by lia. lia.
  - replace (Z.of_nat (length s) - 1) with (Z.of_nat (length s - k) - 1 + 1 * Z.of_nat k) by lia.
    rewrite Z.div_add by lia. lia.
Qed.

(** Block [i] is the slice that starts at [i * k]. *)
Lemma blocks_lookup k s i b :
  (0 < k)%nat → blocks k s !! i = Some b → b = take k (drop (i * k) s) ∧ (i * k < length s)%nat.
Proof.
  intros Hk. revert s b. induction i as [|i IH]; intros s b Hb.
  - destruct s as [|c s]; [done|]. rewrite blocks_unfold in Hb by done.
    simplify_eq/=. split; [done|lia].
  - destruct s as [|c s]; [done|]. set (t := c :: s) in *.
    rewrite blocks_unfold in Hb by done. simpl in Hb. apply IH in Hb as [-> Hlt].
    rewrite drop_drop. rewrite length_drop in Hlt. split; [|lia].
    done.
Qed.

(** ** Reading loops *)

Lemma open_at_rest content : at_rest (open_ifstream (Some content)) content.
Proof. split_and!; simpl; [done|done|lia]. Qed.

(** The loop visits the blocks in order and ends at end of file. *)
Lemma while_read_spec {S} (body : S → bytes → res S) fuel k i rest st :
  (0 < k)%nat → at_rest i rest → (length rest + 2 ≤ fuel)%nat →
  (∃ e, rfold body st (blocks k rest) = Throw e ∧
        while_read fuel (Z.of_nat k) body i st = Throw e) ∨
  (∃ st' i', rfold body st (blocks k rest) = Ok st' ∧
             while_read fuel (Z.of_nat k) body i st = Ok (st', i') ∧ is_eofbit i' = true).
Proof.
  intros Hk. revert i rest st.
  induction fuel as [|fuel IH]; intros i rest st (Hg & Hr & Hp) Hf; [lia|].
  cbn [while_read]. unfold is_read. rewrite Hg, Hr, Nat2Z.id.
  assert (is_ok_stream i = true) as -> by (by apply andb_true_iff in Hg as [_ ?]).
  destruct (Z.ltb_spec (len (take k rest)) (Z.of_nat k)) as [Hs|Hs];
    unfold len in Hs; rewrite length_take in Hs.
  - (* the last block: end of file, the loop stops *)
    rewrite take_ge by lia.
    destruct fuel as [|fuel]; [lia|].
    destruct rest as [|c rest'].
    + right. change (0 <? len []) with false. simpl. eauto.
    + set (t := c :: rest') in *. rewrite blocks_unfold by done.
      rewrite drop_ge, take_ge by lia. simpl rfold.
      destruct (Z.ltb_spec 0 (len t)); [|unfold len, t in *; simpl in *; lia].
      destruct (body st t) as [st'|e]; simpl; [right|left]; eauto.
  - (* a full block *)
    assert (rest ≠ []) as Hne by (intros ->; simpl in Hs; lia).
    rewrite blocks_unfold by done. simpl rfold.
    assert (0 < len (take k rest)) as Hl%Z.ltb_lt by (unfold len; rewrite length_take; lia).
    rewrite Hl. destruct (body st (take k rest)) as [st'|e]; simpl; [|left; eauto].
    apply IH; [|rewrite length_drop; lia]. unfold at_rest, is_good; simpl.
    rewrite length_take, Nat.min_l by lia. split_and!; [done| |].
    + by rewrite <-Hr, drop_drop.
    + rewrite <-Hr, length_drop in Hs. lia.
Qed.

(** ** Lines *)

Lemma getline_line i line rest :
  at_rest i (line ++ LF :: rest) → LF ∉ line →
  ∃ i', is_getline i = (true, line, i') ∧ at_rest i' rest.
Proof.
  intros (Hg & Hr & Hp) Hl. unfold is_getline. rewrite Hg, Hr, split_at_app by done.
  eexists. split; [done|].
  assert (length (is_content i) - is_pos i = length line + 1 + length rest)%nat as Hlen.
  { rewrite <-length_drop, Hr, length_app. simpl. lia. }
  unfold at_rest; simpl. split_and!; [done| |lia].
  rewrite <-drop_drop, <-drop_drop, Hr, drop_app_length. done.
Qed.

Lemma getline_end i : at_rest i [] → ∃ line i', is_getline i = (false, line, i').
Proof. intros (Hg & Hr & Hp). unfold is_getline. rewrite Hg, Hr. simpl. eauto. Qed.

Lemma chomp_cr_id line : CR ∉ line → chomp_cr line = line.
Proof.
  intros H. unfold chomp_cr. rewrite bool_decide_eq_false_2; [done|].
  intros Hl. apply H. by apply last_Some_elem_of.
Qed.

(** Reading back a line that was written without control characters. *)
Lemma read_text_line_spec msg i line rest :
  at_rest i (line ++ LF :: rest) → LF ∉ line → CR ∉ line →
  ∃ i', read_text_line msg i = Ok (line, i') ∧ at_rest i' rest.
Proof.
  intros Hi Hl Hc. destruct (getline_line i line rest Hi Hl) as (i' & Hg & Hr).
  exists i'. unfold read_text_line. by rewrite Hg, chomp_cr_id.
Qed.

Lemma read_text_line_no_diverge msg i : read_text_line msg i ≠ Throw Diverged.
Proof. unfold read_text_line. by repeat case_match. Qed.

#[export] Hint Resolve read_text_line_no_diverge : no_diverge.

(** ** Plain text: no control characters *)

Definition plain (s : bytes) : Prop := Forall (λ c, 32 ≤ code c) s.

Lemma plain_app s t : plain (s ++ t) ↔ plain s ∧ plain t.
Proof. apply Forall_app. Qed.

Lemma plain_not_in c s : plain s → code c < 32 → c ∉ s.
Proof. unfold plain. rewrite Forall_forall. intros H Hc Hin. specialize (H c Hin). lia. Qed.

Lemma plain_str (s : string) :
  forallb (λ c, 32 <=? code c) (str s) = true → plain (str s).
Proof.
  intros H. apply Forall_forall. intros c Hc%list_elem_of_In.
  rewrite forallb_forall in H. by apply Z.leb_le, H.
Qed.

Lemma plain_to_string n : 0 ≤ n → plain (to_string n).
Proof.
  intros Hn. eapply Forall_impl; [by apply to_string_digits|].
  intros c. unfold is_digit. rewrite in_range_spec. change (code "0") with 48. lia.
Qed.

(** Reading back a [field=value] line. *)
Lemma read_field_line msg i (field : string) value rest :
  at_rest i (str field ++ str "=" ++ value ++ LF :: rest) → plain (str field) → plain value →
  ∃ i', read_text_line msg i = Ok (str field ++ str "=" ++ value, i') ∧ at_rest i' rest.
Proof.
  intros Hi Hf Hv. rewrite (app_assoc (str "=")), app_assoc in Hi.
  assert (plain (str field ++ str "=" ++ value)) as Hp.
  { rewrite !plain_app. split_and!; [done|by apply plain_str|done]. }
  apply read_text_line_spec; [done| |]; by apply plain_not_in.
Qed.
