(* ===== verification/Crypto.v ===== *)
(** * Crypto: [src/src/crypto.cpp]

    The SHA-256 wrapper over the EVP interface of OpenSSL, the hexadecimal
    codec and the token comparison.  OpenSSL is not part of the repository:
    its operations are the class [Evp], and what its manual promises of them
    is the class [EvpLaws]. *)

From S2P Require Export Prelude.
From S2P Require Import Text Iostream.

#[local] Open Scope Z_scope.

(** ** Definitions *)

(** The EVP calls of the program; [None] is a return value other than 1 (or a
    null context). *)
Class Evp := {
  EVP_MD_CTX : Type;
  EVP_MD_CTX_new : option EVP_MD_CTX;
  EVP_DigestInit_ex : EVP_MD_CTX → option EVP_MD_CTX;
  EVP_DigestUpdate : EVP_MD_CTX → bytes → option EVP_MD_CTX;
  EVP_DigestFinal_ex : EVP_MD_CTX → option bytes
}.

(** Updates in sequence. *)
Fixpoint evp_updates `{Evp} (c : EVP_MD_CTX) (l : list bytes) : option EVP_MD_CTX :=
  match l with
  | [] => Some c
  | b :: l' => match EVP_DigestUpdate c b with
               | Some c' => evp_updates c' l'
               | None => None
               end
  end.

(** The documented behaviour of the interface when it does not fail: a digest
    of 32 bytes that depends on the concatenation of the updates only. *)
Class EvpLaws `{Evp} := {
  evp_sha256 : bytes → bytes;
  evp_sha256_size s : length (evp_sha256 s) = 32%nat;
  evp_digest l :
    ∃ c0 c1 c2, EVP_MD_CTX_new = Some c0 ∧ EVP_DigestInit_ex c0 = Some c1 ∧
      evp_updates c1 l = Some c2 ∧ EVP_DigestFinal_ex c2 = Some (evp_sha256 (concat l))
}.

Definition kHex : bytes := str "0123456789abcdef".

(** [kHex[i]]. *)
Definition kHex_at (i : Z) : ascii := nth (Z.to_nat i) kHex "0"%char.

Definition hex_byte (c : ascii) : bytes :=
  [kHex_at (Z.shiftr (code c) 4); kHex_at (Z.land (code c) 15)].

Definition nibble (value : ascii) : Z :=
  if in_range "0" "9" value then code value - code "0"
  else if in_range "a" "f" value then code value - code "a" + 10
  else if in_range "A" "F" value then code value - code "A" + 10
  else -1.

Fixpoint hex_encode (value : bytes) : bytes :=
  match value with
  | [] => []
  | character :: value' => hex_byte character ++ hex_encode value'
  end.

Fixpoint hex_decode_loop (value decoded : bytes) : res bytes :=
  match value with
  | h :: l :: value' =>
      let high := nibble h in
      let low := nibble l in
      if (high <? 0) || (low <? 0)
      then throw "Hex value contains an invalid character"
      else hex_decode_loop value' (decoded ++ [chr (Z.lor (Z.shiftl high 4) low)])
  | _ => Ok decoded
  end.

Definition hex_decode (value : bytes) : res bytes :=
  if negb (len value mod 2 =? 0) then throw "Hex value must contain complete bytes"
  else hex_decode_loop value [].

Definition is_sha256_hex (value : bytes) : bool :=
  (len value =? 64) &&
  forallb (λ c, in_range "0" "9" c || in_range "a" "f" c) value.

(** [index < s.size() ? s[index] : 0U]. *)
Definition byte_or_zero (s : bytes) (index : nat) : Z :=
  match nth_error s index with Some c => code c | None => 0 end.

(** The loop body, for [index] from 0 up to [longest]. *)
Fixpoint token_loop (expected supplied : bytes) (index n : nat) (difference : Z) : Z :=
  match n with
  | O => difference
  | S n' =>
      let left := byte_or_zero expected index in
      let right := byte_or_zero supplied index in
      token_loop expected supplied (S index) n' (Z.lor difference (Z.lxor left right))
  end.

Definition secure_token_equal (expected supplied : bytes) : bool :=
  let difference := Z.lxor (len expected) (len supplied) in
  let longest := Nat.max (length expected) (length supplied) in
  token_loop expected supplied 0 longest difference =? 0.

Section Sha256.
Context `{Evp}.

Definition new_digest_context : res EVP_MD_CTX :=
  match EVP_MD_CTX_new with
  | None => throw "Unable to allocate SHA-256 context"
  | Some context =>
      match EVP_DigestInit_ex context with
      | None => throw "Unable to initialize SHA-256 context"
      | Some context' => Ok context'
      end
  end.

Definition update_digest (context : EVP_MD_CTX) (data : bytes) : res EVP_MD_CTX :=
  if len data =? 0 then Ok context
  else match EVP_DigestUpdate context data with
       | None => throw "Unable to update SHA-256 digest"
       | Some context' => Ok context'
       end.

Definition finish_digest (context : EVP_MD_CTX) : res bytes :=
  match EVP_DigestFinal_ex context with
  | Some digest =>
      if len digest =? 32 then Ok (hex_encode digest)
      else throw "Unable to finalize SHA-256 digest"
  | None => throw "Unable to finalize SHA-256 digest"
  end.

Definition sha256_hex (data : bytes) : res bytes :=
  let! context := new_digest_context in
  let! context := update_digest context data in
  finish_digest context.

(** [file] is the content of the file at [path], if it can be opened. *)
Definition sha256_file (path : bytes) (file : option bytes) : res bytes :=
  let input := open_ifstream file in
  if negb (is_ok_stream input)
  then Throw (Error (str "Unable to open file for hashing: " ++ path))
  else
    let! context := new_digest_context in
    let! ' (context, input) :=
      while_read (read_fuel input) (64 * 1024) update_digest input context in
    if negb (is_eofbit input)
    then Throw (Error (str "Unable to read file while hashing: " ++ path))
    else finish_digest context.

End Sha256.

(** A small digest that satisfies the laws, for evaluating the model on
    concrete inputs: the context is the data so far, the digest its length and
    a rolling checksum. *)
Definition toy_sum (s : bytes) : Z :=
  fold_left (λ acc c, Z.land (acc * 257 + code c + 1) (Z.ones 64)) s 7.

Definition toy_digest (s : bytes) : bytes :=
  map (λ i, chr (Z.shiftr (toy_sum s + len s) (8 * Z.of_nat i))) (seq 0 32).

#[global] Instance toy_evp : Evp := {|
  EVP_MD_CTX := bytes;
  EVP_MD_CTX_new := Some [];
  EVP_DigestInit_ex c := Some [];
  EVP_DigestUpdate c s := Some (c ++ s);
  EVP_DigestFinal_ex c := Some (toy_digest c)
|}.

(** ** Hexadecimal codec *)

Lemma toy_updates c l : evp_updates (H := toy_evp) c l = Some (c ++ concat l).
Proof.
  revert c. induction l as [|b l IH]; intros c; simpl; [by rewrite app_nil_r|].
  by rewrite IH, app_assoc.
Qed.

#[global] Instance toy_evp_laws : EvpLaws (H := toy_evp).
Proof.
  refine {| evp_sha256 := toy_digest |}.
  - intros s. unfold toy_digest. by rewrite length_map, length_seq.
  - intros l. exists [], [], (concat l). by rewrite toy_updates.
Defined.

(** Both characters of a byte decode to its nibbles, which rebuild it. *)
Lemma hex_byte_nibbles c :
  ∃ h l, hex_byte c = [h; l] ∧ 0 ≤ nibble h ∧ 0 ≤ nibble l ∧
         chr (Z.lor (Z.shiftl (nibble h) 4) (nibble l)) = c.
Proof.
  eexists _, _. split; [reflexivity|]. rewrite <-!Z.leb_le.
  destruct c as [[] [] [] [] [] [] [] []]; split_and!; reflexivity.
Qed.

Lemma hex_byte_lower c :
  Forall (λ d, in_range "0" "9" d || in_range "a" "f" d = true) (hex_byte c).
Proof.
  destruct c as [[] [] [] [] [] [] [] []]; repeat constructor.
Qed.

Lemma hex_encode_cons c s : hex_encode (c :: s) = hex_byte c ++ hex_encode s.
Proof. done. Qed.

Lemma hex_encode_length s : length (hex_encode s) = (2 * length s)%nat.
Proof. induction s as [|c s IH]; [done|]. simpl. rewrite IH. lia. Qed.

Lemma hex_encode_lower s :
  forallb (λ c, in_range "0" "9" c || in_range "a" "f" c) (hex_encode s) = true.
Proof.
  induction s as [|c s IH]; [done|]. rewrite hex_encode_cons, forallb_app, IH, andb_true_r.
  apply forallb_forall. intros d Hd%list_elem_of_In.
  pose proof (hex_byte_lower c) as Hc. rewrite Forall_forall in Hc. by apply Hc.
Qed.

Lemma hex_decode_loop_encode s acc : hex_decode_loop (hex_encode s) acc = Ok (acc ++ s).
Proof.
  revert acc. induction s as [|c s IH]; intros acc; [by rewrite app_nil_r|].
  destruct (hex_byte_nibbles c) as (h & l & Hb & Hh & Hl & Hc).
  rewrite hex_encode_cons, Hb. simpl.
  destruct (Z.ltb_spec (nibble h) 0); [lia|]. destruct (Z.ltb_spec (nibble l) 0); [lia|].
  simpl. by rewrite IH, Hc, <-app_assoc.
Qed.

Lemma hex_decode_encode s : hex_decode (hex_encode s) = Ok s.
Proof.
  unfold hex_decode, len. rewrite hex_encode_length.
  replace (Z.of_nat (2 * length s) mod 2) with 0
    by (rewrite Nat2Z.inj_mul, Z.mul_comm, Z.mod_mul; lia).
  apply (hex_decode_loop_encode s []).
Qed.

Lemma hex_encode_inj s t : hex_encode s = hex_encode t → s = t.
Proof.
  intros H. assert (Ok s = Ok t) as [=]; [|done].
  by rewrite <-!hex_decode_encode, H.
Qed.

(** Decoding never throws anything but an [Error]. *)
Lemma hex_decode_no_diverge s : hex_decode s ≠ Throw Diverged.
Proof.
  unfold hex_decode. case_match; [done|].
  enough (∀ n s acc, (length s ≤ n)%nat → hex_decode_loop s acc ≠ Throw Diverged)
    by eauto.
  clear. induction n as [|n IH]; intros [|h [|l s]] acc Hlen; simpl in *; try done; try lia.
  case_match; [done|]. apply IH. lia.
Qed.

#[export] Hint Resolve hex_decode_no_diverge : no_diverge.

(** ** SHA-256 *)

Lemma is_sha256_hex_spec v :
  is_sha256_hex v = true ↔
  length v = 64%nat ∧
  Forall (λ c, 48 ≤ code c ≤ 57 ∨ 97 ≤ code c ≤ 102) v.
Proof.
  unfold is_sha256_hex, len. rewrite andb_true_iff, Z.eqb_eq, forallb_forall, Forall_forall.
  change 64 with (Z.of_nat 64). rewrite Nat2Z.inj_iff.
  enough (∀ c, in_range "0" "9" c || in_range "a" "f" c = true ↔
               48 ≤ code c ≤ 57 ∨ 97 ≤ code c ≤ 102) as Hc.
  { setoid_rewrite Hc. by setoid_rewrite list_elem_of_In. }
  intros c. rewrite orb_true_iff, !in_range_spec. done.
Qed.

Section Sha256Lemmas.
Context `{HE : Evp, !EvpLaws}.

(** The specification of the two [sha256_hex] overloads. *)
Definition sha256 (s : bytes) : bytes := hex_encode (evp_sha256 s).

Lemma new_digest_context_ok :
  ∃ c1, new_digest_context = Ok c1 ∧
    ∀ l, ∃ c2, evp_updates c1 l = Some c2 ∧
               finish_digest c2 = Ok (sha256 (concat l)).
Proof.
  destruct (evp_digest []) as (c0 & c1 & _ & H0 & H1 & _).
  unfold new_digest_context. rewrite H0, H1. exists c1. split; [done|].
  intros l. destruct (evp_digest l) as (c0' & c1' & c2 & H0' & H1' & H2 & H3).
  simplify_eq. exists c2. split; [done|]. unfold finish_digest, len.
  by rewrite H3, evp_sha256_size.
Qed.

Lemma sha256_hex_spec s : sha256_hex s = Ok (sha256 s).
Proof.
  unfold sha256_hex. destruct new_digest_context_ok as (c1 & -> & Hl). simpl.
  unfold update_digest. destruct (Z.eqb_spec (len s) 0) as [H0|H0].
  - destruct (Hl []) as (c2 & [= ->] & Hf). simpl in *.
    assert (s = []) as -> by (destruct s; [done|unfold len in H0; simpl in H0; lia]).
    done.
  - destruct (Hl [s]) as (c2 & Hu & Hf). simpl in Hu. case_match; [|done].
    simplify_eq. simpl. by rewrite Hf; simpl; rewrite app_nil_r.
Qed.

(** Updating block by block is the EVP sequence of the same blocks. *)
Lemma rfold_update_digest c l c' :
  evp_updates c l = Some c' → Forall (λ b, b ≠ []) l →
  rfold update_digest c l = Ok c'.
Proof.
  revert c. induction l as [|b l IH]; intros c; simpl; [naive_solver|].
  intros Hu [Hb Hl]%Forall_cons. unfold update_digest.
  destruct (Z.eqb_spec (len b) 0) as [H0|_].
  { destruct b; [done|]. unfold len in H0; simpl in H0; lia. }
  destruct (EVP_DigestUpdate c b); simpl; [by apply IH|done].
Qed.

Lemma sha256_file_spec path content : sha256_file path (Some content) = Ok (sha256 content).
Proof.
  unfold sha256_file. change (negb (is_ok_stream _)) with false. cbv iota.
  destruct new_digest_context_ok as (c1 & -> & Hl). cbn [rbind].
  set (k := Z.to_nat (64 * 1024)). change (64 * 1024) with (Z.of_nat k).
  assert (0 < k)%nat as Hk by lia.
  destruct (Hl (blocks k content)) as (c2 & Hu & Hf).
  rewrite blocks_concat in Hf by done.
  assert (rfold update_digest c1 (blocks k content) = Ok c2) as Hr.
  { apply rfold_update_digest; [done|]. by apply blocks_nonempty. }
  destruct (while_read_spec update_digest (read_fuel (open_ifstream (Some content))) k
              (open_ifstream (Some content)) content c1 Hk (open_at_rest content))
    as [(e & He & _)|(c & i & Hc & -> & Hi)];
    [unfold read_fuel; simpl; lia|congruence|].
  rewrite Hr in Hc. simplify_eq. simpl. rewrite Hi. simpl.
  done.
Qed.

Lemma sha256_is_hex s : is_sha256_hex (sha256 s) = true.
Proof.
  unfold is_sha256_hex, sha256, len. rewrite hex_encode_length, evp_sha256_size.
  apply hex_encode_lower.
Qed.

End Sha256Lemmas.

(** ** Token comparison *)

Lemma token_loop_zero e s index n d :
  token_loop e s index n d = 0 ↔
  d = 0 ∧ ∀ i, (index ≤ i < index + n)%nat → byte_or_zero e i = byte_or_zero s i.
Proof.
  revert index d. induction n as [|n IH]; intros index d; simpl.
  - split; [intros ->; split; [done|lia]|naive_solver].
  - rewrite IH, Z.lor_eq_0_iff, Z.lxor_eq_0_iff. split.
    + intros ([-> H0] & H). split; [done|]. intros i Hi.
      destruct (decide (i = index)) as [->|]; [done|]. apply H; lia.
    + intros [-> H]. split; [|intros; apply H; lia]. split; [done|apply H; lia].
Qed.

Lemma byte_or_zero_ext (s t : bytes) :
  length s = length t →
  (∀ i, (i < length s)%nat → byte_or_zero s i = byte_or_zero t i) → s = t.
Proof.
  revert t. induction s as [|c s IH]; intros [|d t] Hlen H; simplify_eq/=; [done|].
  f_equal.
  - apply code_inj. apply (H 0%nat). lia.
  - apply IH; [done|]. intros i Hi. apply (H (S i)). lia.
Qed.

Lemma secure_token_equal_spec e s : secure_token_equal e s = true ↔ e = s.
Proof.
  unfold secure_token_equal, len. rewrite Z.eqb_eq, token_loop_zero, Z.lxor_eq_0_iff.
  split; [|by intros ->].
  intros [Hlen%Nat2Z.inj H]. apply byte_or_zero_ext; [done|]. intros; apply H; lia.
Qed.

(** ** Exceptions *)

Lemma sha256_hex_errors `{Evp} s : errors_only (sha256_hex s).
Proof.
  unfold sha256_hex, new_digest_context, update_digest, finish_digest. errors_only.
Qed.

#[export] Hint Resolve sha256_hex_errors : errors_only.

(** ** The decoder on arbitrary text *)

Lemma nibble_range c : nibble c = -1 ∨ 0 ≤ nibble c < 16.
Proof.
  unfold nibble. destruct (in_range "0" "9" c) eqn:E1;
    [|destruct (in_range "a" "f" c) eqn:E2; [|destruct (in_range "A" "F" c) eqn:E3; [|by left]]];
    match goal with H : in_range _ _ _ = true |- _ => apply in_range_spec in H end;
    change (code "0") with 48 in *; change (code "9") with 57 in *;
    change (code "a") with 97 in *; change (code "f") with 102 in *;
    change (code "A") with 65 in *; change (code "F") with 70 in *; right; lia.
Qed.

(** A byte made of two nibbles encodes to characters with these values. *)
Lemma hex_byte_pair h l :
  0 ≤ h < 16 → 0 ≤ l < 16 → map nibble (hex_byte (chr (Z.lor (Z.shiftl h 4) l))) = [h; l].
Proof.
  assert (forallb (λ a, forallb (λ b, bool_decide
    (map nibble (hex_byte (chr (Z.lor (Z.shiftl (Z.of_nat a) 4) (Z.of_nat b)))) =
       [Z.of_nat a; Z.of_nat b])) (seq 0 16)) (seq 0 16) = true) as H by by vm_compute.
  intros Hh Hl. rewrite forallb_forall in H.
  specialize (H (Z.to_nat h) ltac:(apply in_seq; lia)). rewrite forallb_forall in H.
  specialize (H (Z.to_nat l) ltac:(apply in_seq; lia)). apply bool_decide_eq_true in H.
  by rewrite !Z2Nat.id in H by lia.
Qed.

Lemma hex_decode_loop_sound n t acc s :
  length t = (2 * n)%nat → hex_decode_loop t acc = Ok s →
  ∃ s', s = acc ++ s' ∧ map nibble t = map nibble (hex_encode s').
Proof.
  revert t acc. induction n as [|n IH]; intros [|h [|l t]] acc Hn; simpl in Hn; try lia.
  - intros <-%Ok_inj. exists []. by rewrite app_nil_r.
  - cbn [hex_decode_loop]. destruct (_ || _) eqn:E; [done|]. reflect. intros Hr.
    apply IH in Hr as (s' & -> & Ht); [|lia].
    eexists (_ :: s'). rewrite <-app_assoc. split; [done|].
    rewrite hex_encode_cons, map_app, hex_byte_pair, <-Ht; [done|..].
    + destruct (nibble_range h); lia.
    + destruct (nibble_range l); lia.
Qed.

Lemma hex_decode_loop_ext n t u acc :
  length t = (2 * n)%nat → map nibble t = map nibble u →
  hex_decode_loop t acc = hex_decode_loop u acc.
Proof.
  revert t u acc. induction n as [|n IH]; intros [|h [|l t]] u acc Hn; simpl in Hn; try lia.
  - by destruct u.
  - destruct u as [|h' [|l' u]]; try done. intros [= Hh Hl Hu].
    cbn [hex_decode_loop]. rewrite Hh, Hl. destruct (_ || _); [done|]. apply IH; [lia|done].
Qed.

Lemma even_length (t : bytes) : len t mod 2 = 0 → ∃ n, length t = (2 * n)%nat.
Proof.
  intros H%Z.mod_divide; [|lia]. destruct H as [k Hk]. exists (Z.to_nat k).
  unfold len in Hk. lia.
Qed.

(** ** Properties *)

(** The codec is exact: [hex_decode] accepts a text and returns [s] if and
    only if the text has, digit for digit and in either case, the values of
    the canonical encoding of [s]; in particular it inverts [hex_encode], and
    a text of odd length is an error. *)
Lemma hex_decode_exact t s :
  hex_decode t = Ok s ↔ map nibble t = map nibble (hex_encode s).
Proof.
  unfold hex_decode. split.
  - destruct (Z.eqb_spec (len t mod 2) 0) as [He|]; [cbn [negb]|done].
    destruct (even_length t He) as [n Hn]. intros H.
    by apply (hex_decode_loop_sound n) in H as (s' & -> & ?).
  - intros Hm. assert (length t = (2 * length s)%nat) as Hl.
    { apply (f_equal length) in Hm. by rewrite !length_map, hex_encode_length in Hm. }
    destruct (Z.eqb_spec (len t mod 2) 0) as [|[]].
    2:{ apply Z.mod_divide; [lia|]. exists (len s). unfold len. lia. }
    cbn [negb]. rewrite (hex_decode_loop_ext _ t (hex_encode s) [] Hl Hm).
    by rewrite hex_decode_loop_encode.
Qed.

(** C38: the token comparison, which folds every byte difference and the
    length difference into one value, accepts exactly equal tokens: a prefix,
    an extension with zero bytes or a token of another length is refused. *)
Theorem secure_token_equal_exact expected supplied :
  secure_token_equal expected supplied = bool_decide (expected = supplied).
Proof.
  apply eq_bool_prop_intro. rewrite bool_decide_spec, Is_true_true. apply secure_token_equal_spec.
Qed.

