(* ===== verification/Protocol.v ===== *)
(** * Protocol: the control messages of [src/src/protocol.cpp]

    Header splitting, field validation, the three message parsers and the
    chunk-list encoder.  The socket half of the same source file is modelled
    in Stream (reading and writing bytes) and Sockets (descriptors). *)

From S2P Require Export Prelude.
From S2P Require Import Text Crypto.

#[local] Open Scope Z_scope.

(** ** Definitions *)

Definition kMaxHeaderBytes : Z := 8192.
Definition kMaxChunkBytes : Z := 4 * 1024 * 1024.

Record Endpoint := { host : bytes; port : Z }.

Inductive TrackerRequestKind := announce | peers.

Record TrackerRequest := {
  kind : TrackerRequestKind;
  tr_token : bytes;
  tr_swarm_id : bytes;
  tr_peer_id : bytes;
  tr_listen_port : Z;
  tr_has_all_chunks : bool;
  tr_chunks : list Z
}.

Record ChunkRequest := {
  cr_token : bytes;
  cr_swarm_id : bytes;
  cr_chunk_index : Z
}.

Record DataHeader := {
  dh_byte_count : Z;
  dh_sha256 : bytes
}.

(** The loop of [split_header] over the characters that remain; [field] is
    [header.substr(start, index - start)]. The four messages are those of the
    caller ([split_header] here, [split_response] of the tracker client). *)
Fixpoint split_loop (bad_char empty_field trailing : string)
    (rest field : bytes) (fields : list bytes) : res (list bytes) :=
  match rest with
  | [] => if bool_decide (field = []) then throw trailing else Ok (fields ++ [field])
  | c :: rest' =>
      if (code c <? 32) || (code c >? 126) then throw bad_char
      else if bool_decide (c = SP) then
        if bool_decide (field = []) then throw empty_field
        else split_loop bad_char empty_field trailing rest' [] (fields ++ [field])
      else split_loop bad_char empty_field trailing rest' (field ++ [c]) fields
  end.

Definition split_fields (bad_length bad_char empty_field trailing : string)
    (header : bytes) : res (list bytes) :=
  if bool_decide (header = []) || (len header >? kMaxHeaderBytes) then throw bad_length
  else split_loop bad_char empty_field trailing header [] [].

Definition split_header : bytes → res (list bytes) :=
  split_fields "Protocol header has an invalid length"
    "Protocol header contains a control character"
    "Protocol header contains an empty field"
    "Protocol header ends with a separator".

Definition safe_atom_char (c : ascii) : bool :=
  in_range "a" "z" c || in_range "A" "Z" c || in_range "0" "9" c ||
  bool_decide (c = "-"%char) || bool_decide (c = "_"%char) ||
  bool_decide (c = "."%char) || bool_decide (c = ":"%char).

Definition safe_atom_max (value : bytes) (maximum : Z) : bool :=
  if bool_decide (value = []) || (len value >? maximum) then false
  else forallb safe_atom_char value.

Definition safe_atom (value : bytes) : bool := safe_atom_max value 128.

Definition require_atom (value : bytes) (name : string) : res unit :=
  if negb (safe_atom value)
  then Throw (Error (str "Protocol " ++ str name ++ str " contains invalid characters"))
  else Ok tt.

(** [parse_number<Number>] for a [w]-bit unsigned [Number]. *)
Definition parse_number (w : Z) (value : bytes) (name : string) : res Z :=
  parse_field w value
    (str "Protocol " ++ str name ++ str " is empty")
    (str "Protocol " ++ str name ++ str " is not an unsigned integer").

(** [chunks.back()] compared with the next chunk. *)
Definition not_above_last (chunks : list Z) (chunk : Z) : bool :=
  match last chunks with Some b => chunk <=? b | None => false end.

(** The loop of [parse_chunk_list]; [rest] is [value.substr(start)]. *)
Fixpoint chunk_list_loop (fuel : nat) (rest : bytes) (chunks : list Z) : res (list Z) :=
  match fuel with
  | O => Throw Diverged
  | S fuel' =>
      if bool_decide (rest = []) then Ok chunks
      else
        let comma := split_at COMMA rest in
        let field := match comma with Some (f, _) => f | None => rest end in
        let! chunk := parse_number 32 field "chunk list entry" in
        if not_above_last chunks chunk
        then throw "Protocol chunk advertisements must be sorted and unique"
        else
          match comma with
          | None => Ok (chunks ++ [chunk])
          | Some (_, next) =>
              if bool_decide (next = []) then throw "Protocol chunk list has an empty entry"
              else chunk_list_loop fuel' next (chunks ++ [chunk])
          end
  end.

Definition parse_chunk_list (value : bytes) : res (list Z) :=
  if beq value (str "all") || beq value (str "none") then Ok []
  else
    let! chunks := chunk_list_loop (S (length value)) value [] in
    if bool_decide (chunks = []) then throw "Protocol chunk list cannot be empty"
    else Ok chunks.

Definition parse_tracker_request (header : bytes) : res TrackerRequest :=
  let! fields := split_header header in
  let front := default [] (head fields) in
  if beq front (str "ANNOUNCE") then
    match fields with
    | [_; token; swarm; peer; port_text; chunk_text] =>
        let! _ := require_atom token "token" in
        let! _ := require_atom swarm "swarm id" in
        let! _ := require_atom peer "peer id" in
        let! port := parse_number 32 port_text "listen port" in
        if (port =? 0) || (port >? 65535)
        then throw "Protocol listen port is outside range"
        else
          let! chunks := parse_chunk_list chunk_text in
          Ok {| kind := announce; tr_token := token; tr_swarm_id := swarm;
                tr_peer_id := peer; tr_listen_port := u16 port;
                tr_has_all_chunks := beq chunk_text (str "all");
                tr_chunks := chunks |}
    | _ => throw "ANNOUNCE requires token, swarm, peer, port, and chunks"
    end
  else if beq front (str "PEERS") then
    match fields with
    | [_; token; swarm] =>
        let! _ := require_atom token "token" in
        let! _ := require_atom swarm "swarm id" in
        Ok {| kind := peers; tr_token := token; tr_swarm_id := swarm;
              tr_peer_id := []; tr_listen_port := 0;
              tr_has_all_chunks := false; tr_chunks := [] |}
    | _ => throw "PEERS requires token and swarm id"
    end
  else throw "Unsupported tracker command".

Definition parse_chunk_request (header : bytes) : res ChunkRequest :=
  let! fields := split_header header in
  match fields with
  | [front; token; swarm; index_text] =>
      if negb (beq front (str "GET"))
      then throw "GET requires token, swarm id, and chunk index"
      else
        let! _ := require_atom token "token" in
        let! _ := require_atom swarm "swarm id" in
        let! index := parse_number 32 index_text "chunk index" in
        Ok {| cr_token := token; cr_swarm_id := swarm; cr_chunk_index := index |}
  | _ => throw "GET requires token, swarm id, and chunk index"
  end.

Definition parse_data_header (header : bytes) : res DataHeader :=
  let! fields := split_header header in
  match fields with
  | [front; count_text; digest] =>
      if negb (beq front (str "DATA"))
      then throw "DATA requires byte count and SHA-256 digest"
      else
        let! byte_count := parse_number 32 count_text "byte count" in
        if (byte_count >? kMaxChunkBytes) || negb (is_sha256_hex digest)
        then throw "DATA header is outside protocol limits"
        else Ok {| dh_byte_count := byte_count; dh_sha256 := digest |}
  | _ => throw "DATA requires byte count and SHA-256 digest"
  end.

(** The loop of [encode_chunk_list]; [previous] is [chunks[index - 1]]. *)
Fixpoint encode_loop (previous : option Z) (chunks : list Z) (output : bytes) : res bytes :=
  match chunks with
  | [] => Ok output
  | chunk :: chunks' =>
      match previous with
      | None => encode_loop (Some chunk) chunks' (output ++ to_string chunk)
      | Some p =>
          if chunk <=? p then throw "Chunk list must be sorted and unique"
          else encode_loop (Some chunk) chunks' (output ++ COMMA :: to_string chunk)
      end
  end.

Definition encode_chunk_list (chunks : list Z) (has_all_chunks : bool) : res bytes :=
  if has_all_chunks then Ok (str "all")
  else if bool_decide (chunks = []) then Ok (str "none")
  else encode_loop None chunks [].

(** *** Specifications *)

(** Fields joined by single spaces. *)
Fixpoint join_spaces (fields : list bytes) : bytes :=
  match fields with
  | [] => []
  | [f] => f
  | f :: fields' => f ++ SP :: join_spaces fields'
  end.

(** A field: not empty, printable, no space. *)
Definition field_ok (f : bytes) : Prop := f ≠ [] ∧ Forall (λ c, 32 < code c ≤ 126) f.

(** The chunk numbers a list may hold. *)
Definition chunks_ok (chunks : list Z) : Prop :=
  increasing chunks = true ∧ Forall (λ c, 0 ≤ c < 2 ^ 32) chunks.

(** What every accepted request satisfies. *)
Definition request_ok (r : TrackerRequest) : Prop :=
  safe_atom (tr_token r) = true ∧ safe_atom (tr_swarm_id r) = true ∧
  match kind r with
  | announce =>
      safe_atom (tr_peer_id r) = true ∧ 1 ≤ tr_listen_port r ≤ 65535 ∧
      chunks_ok (tr_chunks r) ∧ (tr_has_all_chunks r = true → tr_chunks r = [])
  | peers =>
      tr_peer_id r = [] ∧ tr_listen_port r = 0 ∧ tr_has_all_chunks r = false ∧ tr_chunks r = []
  end.

(** ** Header splitting *)

Lemma printable_test c : (code c <? 32) || (code c >? 126) = false ↔ 32 ≤ code c ≤ 126.
Proof. rewrite orb_false_iff, Z.ltb_ge, Z.gtb_ltb, Z.ltb_ge. done. Qed.

Lemma code_SP c : code c = 32 ↔ c = SP.
Proof. split; [|by intros ->]. intros H. by apply code_inj. Qed.

Lemma join_spaces_cons f fs : fs ≠ [] → join_spaces (f :: fs) = f ++ SP :: join_spaces fs.
Proof. by destruct fs. Qed.

Lemma len_join_cons f g fs :
  len (join_spaces (f :: g :: fs)) = len f + 1 + len (join_spaces (g :: fs)).
Proof. rewrite join_spaces_cons, len_app, len_cons by done. lia. Qed.

Lemma len_join_one f : len (join_spaces [f]) = len f.
Proof. done. Qed.

Section SplitLoop.
Variables bad_char empty_field trailing : string.
#[local] Abbreviation loop := (split_loop bad_char empty_field trailing).

(** What the loop accepts is the fields so far followed by a well-formed
    split of the current field and the rest. *)
Lemma split_loop_sound rest field fields fs :
  Forall (λ c, 32 < code c ≤ 126) field →
  loop rest field fields = Ok fs →
  ∃ gs, fs = fields ++ gs ∧ gs ≠ [] ∧ Forall field_ok gs ∧ join_spaces gs = field ++ rest.
Proof.
  revert field fields.
  induction rest as [|c rest IH]; intros field fields Hf; simpl.
  - case_bool_decide; [done|]. intros [= <-]. exists [field]. rewrite app_nil_r.
    split_and!; [done|done| |done]. by repeat constructor.
  - destruct ((code c <? 32) || (code c >? 126)) eqn:Hc; [done|].
    apply printable_test in Hc. case_bool_decide as Hsp; intros H.
    + case_bool_decide; [done|]. apply IH in H as (gs & -> & Hne & Hok & Hj); [|done].
      exists (field :: gs). rewrite <-app_assoc. split_and!; [done|done| |].
      * by repeat constructor.
      * rewrite join_spaces_cons by done. by rewrite Hj, Hsp.
    + assert (code c ≠ 32) by (intros ?%code_SP; done).
      apply IH in H as (gs & -> & ? & ? & Hj).
      * exists gs. by rewrite Hj, <-app_assoc.
      * apply Forall_app; split; [done|]. repeat constructor; lia.
Qed.

Lemma split_loop_field g rest field fields :
  Forall (λ c, 32 < code c ≤ 126) g →
  loop (g ++ rest) field fields = loop rest (field ++ g) fields.
Proof.
  intros Hg. revert field.
  induction Hg as [|c g Hc _ IH]; intros field; simpl; [by rewrite app_nil_r|].
  rewrite (proj2 (printable_test c)) by lia.
  rewrite bool_decide_eq_false_2 by (intros ?%code_SP; lia).
  by rewrite IH, <-app_assoc.
Qed.

Lemma split_loop_complete gs fields :
  gs ≠ [] → Forall field_ok gs → loop (join_spaces gs) [] fields = Ok (fields ++ gs).
Proof.
  revert fields. induction gs as [|g gs IH]; intros fields; [done|].
  intros _ [[Hne Hg] Hgs]%Forall_cons.
  destruct (decide (gs = [])) as [->|Hnil].
  - simpl join_spaces. rewrite <-(app_nil_r g) at 1.
    rewrite split_loop_field by done. cbn [split_loop app].
    by rewrite bool_decide_eq_false_2.
  - rewrite join_spaces_cons, split_loop_field by done.
    cbn [split_loop app]. rewrite (proj2 (printable_test SP)), bool_decide_eq_true_2 by done.
    rewrite bool_decide_eq_false_2 by done. rewrite IH by done. by rewrite <-app_assoc.
Qed.

End SplitLoop.

(** Splitting is the inverse of joining: it accepts exactly the lines of at
    most 8192 characters made of non-empty printable fields separated by
    single spaces. *)
Lemma split_fields_iff m1 m2 m3 m4 header fs :
  split_fields m1 m2 m3 m4 header = Ok fs ↔
  fs ≠ [] ∧ Forall field_ok fs ∧ header = join_spaces fs ∧ len header ≤ kMaxHeaderBytes.
Proof.
  unfold split_fields. split.
  - destruct (bool_decide (header = []) || (len header >? kMaxHeaderBytes)) eqn:Hlen; [done|].
    intros H. apply orb_false_iff in Hlen as [_ Hlen%gtb_false].
    apply split_loop_sound in H as (gs & -> & ? & ? & Hj); [|done]. simpl in *.
    split_and!; done.
  - intros (Hne & Hok & -> & Hlen).
    assert (join_spaces fs ≠ []) as Hj.
    { destruct fs as [|f [|f' fs]]; [done|..]; apply Forall_cons in Hok as [[? ?] _];
        [done|by destruct f]. }
    rewrite (bool_decide_eq_false_2 _ Hj), (proj2 (gtb_false _ _) Hlen).
    by apply split_loop_complete.
Qed.

(** ** Numbers and atoms *)

Lemma parse_number_range w v name n : parse_number w v name = Ok n → 0 ≤ n < 2 ^ w.
Proof. apply parse_field_range. Qed.

Lemma parse_number_to_string w n name :
  0 ≤ n < 2 ^ w → parse_number w (to_string n) name = Ok n.
Proof. apply parse_field_to_string. Qed.

Lemma parse_number_no_diverge w v name : parse_number w v name ≠ Throw Diverged.
Proof. apply parse_field_no_diverge. Qed.

Lemma digit_printable c : is_digit c = true → 32 < code c ≤ 126.
Proof.
  unfold is_digit. rewrite in_range_spec.
  change (code "0") with 48. change (code "9") with 57. lia.
Qed.

Lemma safe_atom_char_printable c : safe_atom_char c = true → 32 < code c ≤ 126.
Proof.
  unfold safe_atom_char. rewrite !orb_true_iff, !in_range_spec, !bool_decide_eq_true.
  change (code "a") with 97. change (code "z") with 122. change (code "A") with 65.
  change (code "Z") with 90. change (code "0") with 48. change (code "9") with 57.
  intros [[[[[[?|?]|?]| ->]| ->]| ->]| ->]; try lia; vm_compute; by split.
Qed.

Lemma safe_atom_spec v :
  safe_atom v = true ↔ v ≠ [] ∧ len v ≤ 128 ∧ Forall (λ c, safe_atom_char c = true) v.
Proof.
  unfold safe_atom, safe_atom_max. case_bool_decide; simpl; [naive_solver|].
  destruct (len v >? 128) eqn:Hl.
  - apply gtb_true in Hl. split; [done|]. intros (_ & ? & _). lia.
  - apply gtb_false in Hl. rewrite forallb_forall, Forall_forall.
    setoid_rewrite list_elem_of_In. naive_solver.
Qed.

Lemma safe_atom_field v : safe_atom v = true → field_ok v.
Proof.
  intros (Hne & _ & Hv)%safe_atom_spec. split; [done|].
  eapply Forall_impl; [exact Hv|]. apply safe_atom_char_printable.
Qed.

Lemma require_atom_ok v name u : require_atom v name = Ok u ↔ safe_atom v = true.
Proof. unfold require_atom. destruct u, (safe_atom v); naive_solver. Qed.

Lemma to_string_field n : 0 ≤ n → field_ok (to_string n).
Proof.
  intros Hn. destruct (to_string_spec n Hn) as (Hd & _ & Hne). split; [done|].
  eapply Forall_impl; [exact Hd|]. apply digit_printable.
Qed.

(** ** Chunk lists *)

Lemma not_above_last_spec acc c :
  increasing acc = true →
  not_above_last acc c = negb (increasing (acc ++ [c])).
Proof.
  intros Hacc. unfold not_above_last.
  destruct acc as [|x acc _] using rev_ind; [done|].
  rewrite last_snoc. symmetry. destruct (Z.leb_spec c x); simpl.
  - apply negb_true_iff, not_true_iff_false. intros Hi%increasing_app.
    destruct Hi as (_ & _ & Hlt). specialize (Hlt x c). set_solver by lia.
  - apply negb_false_iff, increasing_app. split_and!; [done|done|].
    intros y z Hy ->%list_elem_of_singleton.
    apply elem_of_app in Hy as [Hy| ->%list_elem_of_singleton]; [|done].
    apply increasing_app in Hacc as (_ & _ & Hlt).
    specialize (Hlt y x Hy ltac:(set_solver)). lia.
Qed.

Lemma chunk_list_loop_sound fuel rest acc cs :
  chunks_ok acc → chunk_list_loop fuel rest acc = Ok cs → chunks_ok cs.
Proof.
  revert rest acc. induction fuel as [|fuel IH]; intros rest acc Hacc; simpl; [done|].
  case_bool_decide; [naive_solver|].
  destruct (parse_number _ _ _) as [c|] eqn:Hc; simpl; [|done].
  apply parse_number_range in Hc.
  destruct (not_above_last acc c) eqn:Hl; [done|].
  assert (chunks_ok (acc ++ [c])) as Hacc'.
  { destruct Hacc as [Hi Hr]. rewrite not_above_last_spec in Hl by done.
    split; [by apply negb_false_iff in Hl|]. apply Forall_app; split; [done|]. by constructor. }
  destruct (split_at COMMA rest) as [[f r]|]; [|naive_solver].
  case_bool_decide; [done|]. by apply IH.
Qed.

Lemma chunk_list_loop_complete fuel l acc :
  l ≠ [] → chunks_ok (acc ++ l) → (length l < fuel)%nat →
  chunk_list_loop fuel (join_commas l) acc = Ok (acc ++ l).
Proof.
  revert acc l. induction fuel as [|fuel IH]; intros acc l Hne Hok Hf; [lia|].
  destruct l as [|c l]; [done|]. destruct Hok as [Hi Hr].
  assert (0 ≤ c < 2 ^ 32) as Hc by (rewrite Forall_forall in Hr; apply Hr; set_solver).
  assert (increasing acc = true) as Hacc by (by apply increasing_app in Hi as [? _]).
  assert (increasing (acc ++ [c]) = true) as Hac.
  { rewrite (cons_middle c acc l), app_assoc in Hi. by apply increasing_app in Hi as [? _]. }
  destruct (to_string_spec c) as (Hd & _ & Hnil); [lia|].
  assert (COMMA ∉ to_string c) as Hcomma by (by apply digits_not_in).
  cbn [chunk_list_loop].
  destruct (decide (l = [])) as [->|Hl].
  - simpl join_commas. rewrite bool_decide_eq_false_2 by done.
    rewrite (proj2 (split_at_none _ _)) by done.
    rewrite parse_number_to_string by done. simpl.
    by rewrite not_above_last_spec, Hac by done.
  - rewrite join_commas_cons, split_at_app by done.
    rewrite bool_decide_eq_false_2 by (by destruct (to_string c)).
    rewrite parse_number_to_string by done. simpl.
    rewrite not_above_last_spec, Hac by done. simpl.
    rewrite bool_decide_eq_false_2.
    + rewrite IH, <-app_assoc; [done|done| |simpl in Hf; lia].
      rewrite <-app_assoc. done.
    + apply join_commas_nonempty; [done|]. rewrite Forall_app, Forall_cons in Hr.
      destruct Hr as (_ & _ & Hr). eapply Forall_impl; [exact Hr|]. simpl. lia.
Qed.

Lemma chunk_list_loop_no_diverge fuel rest acc :
  (length rest < fuel)%nat → chunk_list_loop fuel rest acc ≠ Throw Diverged.
Proof.
  revert rest acc. induction fuel as [|fuel IH]; intros rest acc Hf; simpl; [lia|].
  case_bool_decide; [done|].
  pose proof (parse_number_no_diverge 32
    (match split_at COMMA rest with Some (f, _) => f | None => rest end) "chunk list entry") as Hp.
  destruct (parse_number _ _ _); simpl; [|naive_solver].
  case_match; [done|]. destruct (split_at COMMA rest) as [[f r]|] eqn:Hs; [|done].
  case_bool_decide; [done|]. apply IH.
  apply split_at_some in Hs as [-> _]. rewrite length_app in Hf. simpl in Hf. lia.
Qed.

Lemma chunks_nonneg cs : chunks_ok cs → Forall (λ x, 0 ≤ x) cs.
Proof. intros [_ H]. eapply Forall_impl; [exact H|]. simpl. lia. Qed.

Lemma parse_chunk_list_join cs :
  cs ≠ [] → chunks_ok cs → parse_chunk_list (join_commas cs) = Ok cs.
Proof.
  intros Hne Hok. pose proof (chunks_nonneg _ Hok) as Hnn.
  unfold parse_chunk_list.
  destruct (join_commas_head cs Hne Hnn) as (d & r & Hj & Hd).
  assert (beq (join_commas cs) (str "all") || beq (join_commas cs) (str "none") = false) as ->.
  { unfold beq. rewrite Hj. apply orb_false_iff.
    split; apply bool_decide_eq_false_2; intros [= -> _]; done. }
  rewrite (chunk_list_loop_complete _ cs []); [|done|done|].
  - simpl. by rewrite bool_decide_eq_false_2.
  - pose proof (join_commas_length cs Hnn). lia.
Qed.

Lemma parse_chunk_list_ok v cs : parse_chunk_list v = Ok cs → chunks_ok cs.
Proof.
  unfold parse_chunk_list. case_match; [intros [= <-]; by split|].
  destruct (chunk_list_loop _ v []) eqn:E; simpl; [|done].
  apply chunk_list_loop_sound in E; [|by split]. case_bool_decide; naive_solver.
Qed.

Lemma parse_chunk_list_no_diverge v : parse_chunk_list v ≠ Throw Diverged.
Proof.
  unfold parse_chunk_list. case_match; [done|].
  pose proof (chunk_list_loop_no_diverge (S (length v)) v [] ltac:(lia)).
  destruct (chunk_list_loop _ v []); simpl; [|naive_solver]. by case_match.
Qed.

(** ** The encoder *)

Lemma encode_loop_spec p cs output :
  encode_loop (Some p) cs output =
    if increasing (p :: cs)
    then Ok (output ++ concat (map (λ c, COMMA :: to_string c) cs))
    else throw "Chunk list must be sorted and unique".
Proof.
  revert p output. induction cs as [|c cs IH]; intros p output; simpl.
  - by rewrite app_nil_r.
  - rewrite IH. destruct (Z.leb_spec c p), (Z.ltb_spec p c); try lia; [done|].
    simpl. rewrite <-app_assoc. done.
Qed.

Lemma join_commas_concat c cs :
  join_commas (c :: cs) = to_string c ++ concat (map (λ c, COMMA :: to_string c) cs).
Proof.
  revert c. induction cs as [|d cs IH]; intros c; [simpl; by rewrite app_nil_r|].
  rewrite join_commas_cons, IH by done. done.
Qed.

Lemma encode_chunk_list_spec cs all :
  encode_chunk_list cs all =
    if all then Ok (str "all")
    else if bool_decide (cs = []) then Ok (str "none")
    else if increasing cs then Ok (join_commas cs)
    else throw "Chunk list must be sorted and unique".
Proof.
  unfold encode_chunk_list. destruct all; [done|]. destruct cs as [|c cs]; [done|].
  rewrite !bool_decide_eq_false_2 by done. simpl encode_loop.
  rewrite encode_loop_spec, join_commas_concat. done.
Qed.

(** The canonical text of an accepted list is not longer than the text it was
    read from. *)
Lemma chunk_list_loop_length fuel rest acc cs :
  chunk_list_loop fuel rest acc = Ok cs → rest ≠ [] →
  ∃ l, cs = acc ++ l ∧ l ≠ [] ∧ len (join_commas l) ≤ len rest.
Proof.
  revert rest acc. induction fuel as [|fuel IH]; intros rest acc; [done|].
  cbn [chunk_list_loop]. intros Hr Hne. rewrite bool_decide_eq_false_2 in Hr by done.
  bind_inv Hr x Hx. apply parse_field_iff in Hx as (Hf & Hd & Hv & _).
  destruct (not_above_last acc x); [done|].
  destruct (split_at COMMA rest) as [[f next]|] eqn:E.
  - apply split_at_some in E as [-> _]. case_bool_decide as Hnext; [done|].
    apply IH in Hr as (l & -> & Hl & Hlen); [|done].
    exists (x :: l). rewrite <-app_assoc. split_and!; [done|done|].
    rewrite join_commas_cons by done. rewrite !len_app, !len_cons.
    pose proof (to_string_shortest f Hf Hd). subst x. lia.
  - apply Ok_inj in Hr as <-. exists [x]. split_and!; [done|done|].
    subst x. by apply to_string_shortest.
Qed.

Lemma parse_chunk_list_length v cs :
  parse_chunk_list v = Ok cs →
  ∃ text, encode_chunk_list cs (beq v (str "all")) = Ok text ∧ len text ≤ len v.
Proof.
  intros Hp. pose proof (parse_chunk_list_ok v cs Hp) as [Hinc _].
  unfold parse_chunk_list in Hp. rewrite encode_chunk_list_spec.
  destruct (beq v (str "all")) eqn:Ea.
  - apply beq_spec in Ea as ->. eexists. split; [done|lia].
  - cbn [orb] in Hp. destruct (beq v (str "none")) eqn:En.
    + apply beq_spec in En as ->. apply Ok_inj in Hp as <-. eexists. split; [done|lia].
    + bind_inv Hp cs' Hl. case_bool_decide as Hne; [done|]. apply Ok_inj in Hp as <-.
      assert (v ≠ []) as Hv. { intros ->. by apply Ok_inj in Hl as <-. }
      apply chunk_list_loop_length in Hl as (l & -> & _ & Hlen); [|done].
      simpl app in *. rewrite bool_decide_eq_false_2 by done.
      rewrite Hinc. by eexists.
Qed.

(** What the parser reads back from the encoder's text. *)
Lemma parse_encode_chunk_list cs all text :
  chunks_ok cs → encode_chunk_list cs all = Ok text →
  parse_chunk_list text = Ok (if all then [] else cs) ∧ beq text (str "all") = all.
Proof.
  intros Hok. rewrite encode_chunk_list_spec. destruct all; [intros [= <-]; done|].
  case_bool_decide as Hne; [intros [= <-]; naive_solver|].
  destruct (increasing cs) eqn:Hi; [|done]. intros [= <-].
  split; [by apply parse_chunk_list_join|].
  destruct (join_commas_head cs Hne (chunks_nonneg _ Hok)) as (d & r & Hj & Hd).
  rewrite Hj. apply bool_decide_eq_false_2. intros [= -> _]. done.
Qed.

Lemma encode_chunk_list_ok cs all :
  chunks_ok cs → ∃ text, encode_chunk_list cs all = Ok text ∧ field_ok text.
Proof.
  intros Hok. rewrite encode_chunk_list_spec. destruct all.
  { eexists; split; [done|]. split; [done|]. by repeat constructor. }
  case_bool_decide as Hne.
  { eexists; split; [done|]. split; [done|]. by repeat constructor. }
  destruct Hok as [Hi Hr]. rewrite Hi. eexists; split; [done|].
  assert (Forall (λ x, 0 ≤ x) cs) as Hnn by (eapply Forall_impl; [exact Hr|]; simpl; lia).
  split; [by apply join_commas_nonempty|]. clear Hne Hi Hr.
  induction Hnn as [|x l Hx Hl IH]; [constructor|].
  destruct (decide (l = [])) as [->|]; [by apply to_string_field|].
  rewrite join_commas_cons by done. apply Forall_app; split; [by apply to_string_field|].
  constructor; [vm_compute; by split|done].
Qed.

(** ** Messages *)

Lemma split_header_join fs :
  fs ≠ [] → Forall field_ok fs → len (join_spaces fs) ≤ kMaxHeaderBytes →
  split_header (join_spaces fs) = Ok fs.
Proof. intros. by apply split_fields_iff. Qed.

Lemma split_loop_no_diverge m2 m3 m4 h field fields :
  split_loop m2 m3 m4 h field fields ≠ Throw Diverged.
Proof.
  revert field fields. induction h as [|c h IH]; intros field fields; cbn [split_loop].
  - by case_bool_decide.
  - destruct ((code c <? 32) || (code c >? 126)); [done|].
    repeat case_bool_decide; done || apply IH.
Qed.

Lemma split_fields_no_diverge m1 m2 m3 m4 h : split_fields m1 m2 m3 m4 h ≠ Throw Diverged.
Proof. unfold split_fields. case_match; [done|]. apply split_loop_no_diverge. Qed.

Lemma literal_field (s : string) :
  forallb (λ c, (32 <? code c) && (code c <=? 126)) (str s) = true → str s ≠ [] →
  field_ok (str s).
Proof.
  intros H Hne. split; [done|]. apply Forall_forall. intros c Hc.
  rewrite forallb_forall in H. specialize (H c). rewrite <-list_elem_of_In in H.
  specialize (H Hc). rewrite andb_true_iff, Z.ltb_lt, Z.leb_le in H. done.
Qed.

Lemma sha256_hex_field d : is_sha256_hex d = true → field_ok d.
Proof.
  intros [Hlen Hd]%is_sha256_hex_spec. split; [by intros ->|].
  eapply Forall_impl; [exact Hd|]. simpl. lia.
Qed.

(** A header is a printable line. *)
Lemma fields_printable fs :
  Forall field_ok fs → Forall (λ c, 32 ≤ code c ≤ 126) (join_spaces fs).
Proof.
  induction 1 as [|f fs [_ Hf] Hfs IH]; [constructor|].
  assert (Forall (λ c, 32 ≤ code c ≤ 126) f) as Hf'.
  { eapply Forall_impl; [exact Hf|]. simpl; lia. }
  destruct fs as [|g fs]; [done|]. rewrite join_spaces_cons by done.
  apply Forall_app. split; [done|]. constructor; [by vm_compute|done].
Qed.

Lemma literal_printable (s : string) :
  forallb (λ c, (32 <=? code c) && (code c <=? 126)) (str s) = true →
  Forall (λ c, 32 ≤ code c ≤ 126) (str s).
Proof.
  intros H. apply Forall_forall. intros c Hc%list_elem_of_In.
  rewrite forallb_forall in H. specialize (H c Hc). reflect. lia.
Qed.

Lemma sha256_hex_atom d : is_sha256_hex d = true → safe_atom d = true.
Proof.
  intros [Hlen Hd]%is_sha256_hex_spec. apply safe_atom_spec.
  split_and!; [by intros ->|unfold len; lia|]. eapply Forall_impl; [exact Hd|].
  intros c Hc. unfold safe_atom_char, in_range.
  change (code "0") with 48. change (code "9") with 57.
  change (code "a") with 97. change (code "z") with 122.
  destruct Hc as [[H1 H2]|[H1 H2]].
  - apply Z.leb_le in H1 as ->, H2 as ->. by rewrite !orb_true_r.
  - apply Z.leb_le in H1 as ->. by rewrite (proj2 (Z.leb_le _ _)) by lia.
Qed.

(** Discharges [Forall field_ok] on the fields of a message. *)
Ltac fields_ok :=
  repeat (apply Forall_cons; split); try apply Forall_nil_2;
  first [ assumption | apply safe_atom_field; assumption
        | apply to_string_field; lia | apply sha256_hex_field; assumption
        | apply literal_field; [reflexivity | discriminate] ].

Lemma parse_announce token swarm peer port text cs :
  safe_atom token = true → safe_atom swarm = true → safe_atom peer = true →
  1 ≤ port ≤ 65535 → field_ok text → parse_chunk_list text = Ok cs →
  let header := join_spaces [str "ANNOUNCE"; token; swarm; peer; to_string port; text] in
  len header ≤ kMaxHeaderBytes →
  parse_tracker_request header =
    Ok {| kind := announce; tr_token := token; tr_swarm_id := swarm; tr_peer_id := peer;
          tr_listen_port := port; tr_has_all_chunks := beq text (str "all"); tr_chunks := cs |}.
Proof.
  intros Ht Hs Hp Hport Htext Hcs header Hlen.
  unfold parse_tracker_request, header.
  rewrite split_header_join; [|done|fields_ok|done].
  cbn [rbind head default from_option]. rewrite beq_refl.
  rewrite (proj2 (require_atom_ok token _ tt)), (proj2 (require_atom_ok swarm _ tt)),
    (proj2 (require_atom_ok peer _ tt)) by done. cbn [rbind].
  rewrite parse_number_to_string by lia. cbn [rbind].
  destruct (Z.eqb_spec port 0); [lia|]. rewrite (proj2 (gtb_false port 65535)) by lia.
  cbn [orb]. rewrite Hcs. cbn [rbind]. by rewrite u16_small by lia.
Qed.

Lemma parse_peers token swarm :
  safe_atom token = true → safe_atom swarm = true →
  parse_tracker_request (join_spaces [str "PEERS"; token; swarm]) =
    Ok {| kind := peers; tr_token := token; tr_swarm_id := swarm; tr_peer_id := [];
          tr_listen_port := 0; tr_has_all_chunks := false; tr_chunks := [] |}.
Proof.
  intros Ht Hs. unfold parse_tracker_request.
  rewrite split_header_join; [|done| |].
  - cbn [rbind head default from_option].
    change (beq (str "PEERS") (str "ANNOUNCE")) with false. rewrite beq_refl.
    by rewrite (proj2 (require_atom_ok token _ tt)), (proj2 (require_atom_ok swarm _ tt)).
  - fields_ok.
  - apply safe_atom_spec in Ht as (_ & Ht & _), Hs as (_ & Hs & _).
    rewrite !len_join_cons, len_join_one.
    change (len (str "PEERS")) with 5. unfold kMaxHeaderBytes. lia.
Qed.

Lemma parse_tracker_request_sound h r : parse_tracker_request h = Ok r → request_ok r.
Proof.
  unfold parse_tracker_request. destruct (split_header h) as [fields|]; simpl; [|done].
  case_match eqn:Ha.
  - destruct fields as [|f0 [|token [|swarm [|peer [|pt [|ct [|]]]]]]]; simpl; try done.
    intros Hr. bind_inv Hr u1 H1. bind_inv Hr u2 H2. bind_inv Hr u3 H3. bind_inv Hr p Hp.
    apply require_atom_ok in H1, H2, H3.
    destruct ((p =? 0) || (p >? 65535)) eqn:Hpo; [done|].
    rewrite orb_false_iff, Z.eqb_neq, gtb_false in Hpo.
    bind_inv Hr cs Hcs. injection Hr as <-.
    unfold request_ok; simpl. apply parse_number_range in Hp.
    rewrite u16_small by lia. split_and!; try done; try lia; try apply (parse_chunk_list_ok _ _ Hcs).
    intros Hall%beq_spec. subst ct. by injection Hcs.
  - case_match; [|done].
    destruct fields as [|f0 [|token [|swarm [|]]]]; simpl; try done.
    intros Hr. bind_inv Hr u1 H1. bind_inv Hr u2 H2. injection Hr as <-.
    by apply require_atom_ok in H1, H2.
Qed.

Lemma require_atom_no_diverge v n : require_atom v n ≠ Throw Diverged.
Proof. unfold require_atom. by case_match. Qed.

#[export] Hint Resolve require_atom_no_diverge parse_number_no_diverge
  parse_chunk_list_no_diverge split_fields_no_diverge : no_diverge.

Lemma parse_tracker_request_no_diverge h : parse_tracker_request h ≠ Throw Diverged.
Proof.
  unfold parse_tracker_request, split_header. no_diverge.
Qed.

Lemma parse_chunk_request_no_diverge h : parse_chunk_request h ≠ Throw Diverged.
Proof. unfold parse_chunk_request, split_header. no_diverge. Qed.

Lemma parse_data_header_no_diverge h : parse_data_header h ≠ Throw Diverged.
Proof. unfold parse_data_header, split_header. no_diverge. Qed.

#[export] Hint Resolve parse_tracker_request_no_diverge parse_chunk_request_no_diverge
  parse_data_header_no_diverge : no_diverge.

(** *** Exceptions of the parsers *)

Lemma split_fields_errors m1 m2 m3 m4 h : errors_only (split_fields m1 m2 m3 m4 h).
Proof.
  unfold split_fields. destruct (_ || _); [done|].
  assert (∀ rest field fields, errors_only (split_loop m2 m3 m4 rest field fields)) as Hl; [|apply Hl].
  induction rest as [|c rest IH]; intros field fields; cbn [split_loop]; [by case_match|].
  destruct (_ || _); [done|]. repeat (case_bool_decide; try done); apply IH.
Qed.

Lemma require_atom_errors v n : errors_only (require_atom v n).
Proof. unfold require_atom. by case_match. Qed.

Lemma parse_number_errors w v n : errors_only (parse_number w v n).
Proof. apply parse_field_errors. Qed.

Lemma parse_chunk_list_errors v : errors_only (parse_chunk_list v).
Proof.
  unfold parse_chunk_list. case_match; [done|].
  apply rbind_errors_only; [|intros; by case_match].
  assert (∀ n rest acc, (length rest < n)%nat → errors_only (chunk_list_loop n rest acc)) as Hl;
    [|apply Hl; lia].
  induction n as [|n IH]; intros rest acc Hn; [lia|]. cbn [chunk_list_loop].
  case_bool_decide; [done|]. apply rbind_errors_only; [apply parse_number_errors|].
  intros x _. destruct (not_above_last acc x); [done|].
  destruct (split_at COMMA rest) as [[f next]|] eqn:E; [|done].
  case_bool_decide; [done|]. apply IH. apply split_at_some in E as [-> _].
  rewrite length_app in Hn. simpl in Hn. lia.
Qed.

Lemma encode_chunk_list_errors cs all : errors_only (encode_chunk_list cs all).
Proof. rewrite encode_chunk_list_spec. by repeat case_match. Qed.

#[export] Hint Resolve split_fields_errors require_atom_errors parse_number_errors
  parse_chunk_list_errors encode_chunk_list_errors : errors_only.

Lemma parse_tracker_request_errors h : errors_only (parse_tracker_request h).
Proof. unfold parse_tracker_request, split_header. errors_only. Qed.

Lemma parse_chunk_request_errors h : errors_only (parse_chunk_request h).
Proof. unfold parse_chunk_request, split_header. errors_only. Qed.

Lemma parse_data_header_errors h : errors_only (parse_data_header h).
Proof. unfold parse_data_header, split_header. errors_only. Qed.

#[export] Hint Resolve parse_tracker_request_errors parse_chunk_request_errors
  parse_data_header_errors : errors_only.

Lemma parse_get token swarm index :
  safe_atom token = true → safe_atom swarm = true → 0 ≤ index < 2 ^ 32 →
  parse_chunk_request (join_spaces [str "GET"; token; swarm; to_string index]) =
    Ok {| cr_token := token; cr_swarm_id := swarm; cr_chunk_index := index |}.
Proof.
  intros Ht Hs Hi. unfold parse_chunk_request.
  rewrite split_header_join; [|done| |].
  - cbn [rbind]. rewrite beq_refl. cbn [negb].
    rewrite (proj2 (require_atom_ok token _ tt)), (proj2 (require_atom_ok swarm _ tt)) by done.
    cbn [rbind]. by rewrite parse_number_to_string.
  - fields_ok.
  - apply safe_atom_spec in Ht as (_ & Ht & _), Hs as (_ & Hs & _).
    assert (length (to_string index) ≤ 10)%nat.
    { apply digits_loop_length; [|lia]. change (10 ^ Z.of_nat 10) with 10000000000. lia. }
    rewrite !len_join_cons, len_join_one.
    change (len (str "GET")) with 3. unfold len in *. unfold kMaxHeaderBytes. lia.
Qed.

Lemma parse_chunk_request_sound h r :
  parse_chunk_request h = Ok r →
  safe_atom (cr_token r) = true ∧ safe_atom (cr_swarm_id r) = true ∧
  0 ≤ cr_chunk_index r < 2 ^ 32.
Proof.
  unfold parse_chunk_request. destruct (split_header h) as [fields|]; simpl; [|done].
  destruct fields as [|f0 [|token [|swarm [|it [|]]]]]; simpl; try done.
  case_match; [done|]. intros Hr. bind_inv Hr u1 H1. bind_inv Hr u2 H2. bind_inv Hr n Hn.
  injection Hr as <-. apply require_atom_ok in H1, H2. by apply parse_number_range in Hn.
Qed.

Lemma parse_data count digest :
  0 ≤ count ≤ kMaxChunkBytes → is_sha256_hex digest = true →
  parse_data_header (join_spaces [str "DATA"; to_string count; digest]) =
    Ok {| dh_byte_count := count; dh_sha256 := digest |}.
Proof.
  unfold kMaxChunkBytes. intros Hc Hd. unfold parse_data_header.
  rewrite split_header_join; [|done| |].
  - cbn [rbind]. rewrite beq_refl. cbn [negb].
    rewrite parse_number_to_string by lia. cbn [rbind].
    rewrite (proj2 (gtb_false count kMaxChunkBytes)) by (unfold kMaxChunkBytes; lia).
    by rewrite Hd.
  - fields_ok.
  - apply is_sha256_hex_spec in Hd as [Hd _].
    assert (length (to_string count) ≤ 10)%nat.
    { apply digits_loop_length; [|lia]. change (10 ^ Z.of_nat 10) with 10000000000. lia. }
    rewrite !len_join_cons, len_join_one.
    change (len (str "DATA")) with 4. unfold len in *. unfold kMaxHeaderBytes. lia.
Qed.

Lemma parse_data_header_sound h d :
  parse_data_header h = Ok d →
  0 ≤ dh_byte_count d ≤ kMaxChunkBytes ∧ is_sha256_hex (dh_sha256 d) = true.
Proof.
  unfold parse_data_header. destruct (split_header h) as [fields|]; simpl; [|done].
  destruct fields as [|f0 [|ct [|dg [|]]]]; simpl; try done.
  case_match; [done|]. intros Hr. bind_inv Hr n Hn. apply parse_number_range in Hn.
  destruct ((n >? kMaxChunkBytes) || negb (is_sha256_hex dg)) eqn:Hl; [done|].
  injection Hr as <-. rewrite orb_false_iff, gtb_false, negb_false_iff in Hl. simpl. naive_solver lia.
Qed.

(** ** Properties *)

(** C39: whatever bytes arrive, a tracker request that is accepted has safe
    atoms of at most 128 characters for its token and identifiers, a port from
    1 to 65535, and a strictly increasing list of 32-bit chunk numbers that is
    empty when the peer claims every chunk; a GET request has safe atoms and a
    32-bit index; a DATA header announces at most 4 MiB and a lowercase
    SHA-256 digest; and parsing always ends. *)
Theorem accepted_messages_bounded header :
  (∀ r, parse_tracker_request header = Ok r → request_ok r) ∧
  (∀ r, parse_chunk_request header = Ok r →
     safe_atom (cr_token r) = true ∧ safe_atom (cr_swarm_id r) = true ∧
     0 ≤ cr_chunk_index r < 2 ^ 32) ∧
  (∀ d, parse_data_header header = Ok d →
     0 ≤ dh_byte_count d ≤ kMaxChunkBytes ∧ is_sha256_hex (dh_sha256 d) = true) ∧
  parse_tracker_request header ≠ Throw Diverged ∧
  parse_chunk_request header ≠ Throw Diverged ∧ parse_data_header header ≠ Throw Diverged.
Proof.
  split_and!; eauto using parse_tracker_request_sound, parse_chunk_request_sound,
    parse_data_header_sound with no_diverge.
Qed.

