(* ===== verification/Hoare.v ===== *)
(** * Hoare: reasoning about effectful operations

    Triples for the state-and-exception effect [io] of the prelude, with one
    postcondition for normal return and one for exceptions, and the rules the
    components use. *)

From S2P Require Export Prelude.

(** ** Definitions *)

(** From a state in [P], [m] returns [a] in a state in [Q a] or throws [e] in
    a state in [E e]. *)
Definition triple {S A} (P : S → Prop) (m : io S A) (Q : A → S → Prop) (E : exn → S → Prop) : Prop :=
  ∀ s, P s → match m s with
             | (Ok a, s') => Q a s'
             | (Throw e, s') => E e s'
             end.

(** ** Rules *)

Lemma triple_ret' {S A} (P : S → Prop) (a : A) Q (E : exn → S → Prop) :
  (∀ s, P s → Q a s) → triple P (ret a) Q E.
Proof. intros H s HP. by apply H. Qed.

Lemma triple_raise {S A} (P : S → Prop) e (Q : A → S → Prop) (E : exn → S → Prop) :
  (∀ s, P s → E e s) → triple P (raise e) Q E.
Proof. intros H s HP. by apply H. Qed.

Lemma triple_bind {S A B} (P : S → Prop) (m : io S A) (k : A → io S B) R Q E :
  triple P m R E → (∀ a, triple (R a) (k a) Q E) → triple P (bind m k) Q E.
Proof.
  intros Hm Hk s HP. specialize (Hm s HP). unfold bind.
  destruct (m s) as [[a|e] s']; [by apply Hk|done].
Qed.

(** An operation that does not throw. *)
Lemma triple_bind_safe {S A B} (P : S → Prop) (m : io S A) (k : A → io S B) R Q E :
  triple P m R (λ _ _, False) → (∀ a, triple (R a) (k a) Q E) → triple P (bind m k) Q E.
Proof.
  intros Hm Hk s HP. specialize (Hm s HP). unfold bind.
  destruct (m s) as [[a|e] s']; [by apply Hk|done].
Qed.

Lemma triple_pre {S A} (P P' : S → Prop) (m : io S A) Q E :
  triple P' m Q E → (∀ s, P s → P' s) → triple P m Q E.
Proof. intros H HP s Hs. by apply H, HP. Qed.

Lemma triple_conseq {S A} (P P' : S → Prop) (m : io S A) (Q Q' : A → S → Prop)
    (E E' : exn → S → Prop) :
  triple P' m Q' E' → (∀ s, P s → P' s) → (∀ a s, Q' a s → Q a s) →
  (∀ e s, E' e s → E e s) → triple P m Q E.
Proof.
  intros H HP HQ HE s Hs. specialize (H s (HP s Hs)). destruct (m s) as [[|] ?]; auto.
Qed.

Lemma triple_exn {S A} (P : S → Prop) (m : io S A) Q (E E' : exn → S → Prop) :
  triple P m Q E' → (∀ e s, E' e s → E e s) → triple P m Q E.
Proof. intros H HE s Hs. specialize (H s Hs). destruct (m s) as [[|] ?]; auto. Qed.

Lemma triple_catch_all {S A} (P : S → Prop) (m : io S A) (h : exn → io S A) Q E' E :
  triple P m Q E' → (∀ e, triple (E' e) (h e) Q E) → triple P (catch_all m h) Q E.
Proof.
  intros Hm Hh s HP. specialize (Hm s HP). unfold catch_all.
  destruct (m s) as [[a|e] s']; [done|by apply Hh].
Qed.

Lemma triple_catch_error {S A} (P : S → Prop) (m : io S A) (h : bytes → io S A) Q E' E :
  triple P m Q E' → (∀ w, triple (E' (Error w)) (h w) Q E) →
  (∀ w s, E' (StdException w) s → E (StdException w) s) →
  (∀ s, E' Diverged s → E Diverged s) →
  triple P (catch_error m h) Q E.
Proof.
  intros Hm Hh Hs Hd s HP. specialize (Hm s HP). unfold catch_error.
  destruct (m s) as [[a|[w|w|]] s']; [done|by apply Hh|by apply Hs|by apply Hd].
Qed.

Lemma triple_if {S A} (b : bool) (P : S → Prop) (m1 m2 : io S A) Q E :
  (b = true → triple P m1 Q E) → (b = false → triple P m2 Q E) →
  triple P (if b then m1 else m2) Q E.
Proof. destruct b; auto. Qed.

Lemma triple_lift {S A} (P : S → Prop) (m : res A) (Q : A → S → Prop) (E : exn → S → Prop) :
  (∀ a s, m = Ok a → P s → Q a s) → (∀ e s, m = Throw e → P s → E e s) →
  triple P (lift m) Q E.
Proof. intros HQ HE s HP. unfold lift. destruct m; auto. Qed.

Lemma triple_lift_ok {S A B} (P : S → Prop) (m : res A) (a : A) (k : A → io S B) Q E :
  m = Ok a → triple P (k a) Q E → triple P (bind (lift m) k) Q E.
Proof. intros -> H s Hs. by apply H. Qed.

Lemma triple_if_false {S A} (c : bool) (P : S → Prop) (m1 m2 : io S A) Q E :
  c = false → triple P m2 Q E → triple P (if c then m1 else m2) Q E.
Proof. by intros ->. Qed.

Lemma triple_ex {S A X} (P : X → S → Prop) (m : io S A) Q E :
  (∀ x, triple (P x) m Q E) → triple (λ s, ∃ x, P x s) m Q E.
Proof. intros H s [x Hx]. by apply (H x). Qed.

Lemma triple_pure {S A} (φ : Prop) (P : S → Prop) (m : io S A) Q E :
  (φ → triple P m Q E) → triple (λ s, φ ∧ P s) m Q E.
Proof. intros H s [Hφ Hs]. by apply H. Qed.

(** ** Operations that throw only [Error]s *)

Definition is_error (e : exn) : Prop := ∃ what, e = Error what.

Lemma errors_only_is_error {A} (m : res A) e : errors_only m → m = Throw e → is_error e.
Proof. apply errors_only_throw. Qed.

Lemma triple_lift_errors {S A} (m : res A) (Q : A → Prop) (P : S → Prop) :
  errors_only m → (∀ a, m = Ok a → Q a) →
  triple P (lift m) (λ a s, Q a ∧ P s) (λ e s, is_error e ∧ P s).
Proof.
  intros He HQ. apply triple_lift; [by auto|]. intros e s Hm HP. split; [|done].
  by eapply errors_only_is_error.
Qed.
