(* ===== verification/Posix.v ===== *)
(** * Posix: files, descriptors and failing system calls

    The operating system under the persistence code: regular files with their
    content and what of it was synced, descriptors, a script of outcomes that
    makes any call fail, be interrupted or write less than asked, and the
    history of file systems the calls went through (what a crash at that point
    would leave).  Directories are not modelled: [create_directories] either
    throws or does nothing. *)

From S2P Require Export Prelude.
From S2P Require Import Hoare.

#[local] Open Scope Z_scope.

(** ** Definitions *)

Record file := { data : bytes; synced : bytes }.

(** What the next system call does: work, transfer at most [n] bytes, be
    interrupted by a signal, or fail with an error text. *)
Inductive outcome :=
| Works
| Short (n : Z)
| Interrupted
| Fails (errno : bytes).

(** A descriptor: its file and the position of the next [write]. *)
Record descriptor := { fd_path : bytes; fd_offset : Z }.

Record os := {
  files : gmap bytes file;
  fds : gmap Z descriptor;
  next_fd : Z;
  bad_closes : Z;
  script : list outcome;
  history : list (gmap bytes file)
}.

(** The result of a call: a value, or -1 with [errno] ([EINTR] apart). *)
Inductive sysres :=
| Done (n : Z)
| EINTR
| Errno (what : bytes).

Definition next_outcome (s : os) : outcome :=
  match script s with o :: _ => o | [] => Works end.

(** The state after a call: one outcome used, the new file system recorded. *)
Definition after (s : os) (fs : gmap bytes file) (ds : gmap Z descriptor) : os :=
  {| files := fs; fds := ds; next_fd := next_fd s; bad_closes := bad_closes s;
     script := tail (script s); history := history s ++ [fs] |}.

(** Bytes written over [content] from [offset]; a gap is filled with zeros,
    and writing nothing changes nothing. *)
Definition overwrite (content : bytes) (offset : nat) (s : bytes) : bytes :=
  if bool_decide (s = []) then content
  else take offset content ++ replicate (offset - length content) (chr 0) ++ s ++
       drop (offset + length s) content.

(** [open] of an existing or new file; [truncate] is
    [O_CREAT | O_TRUNC], otherwise the file must exist. *)
Definition sys_open (path : bytes) (truncate : bool) : io os sysres := λ s,
  let opened fs :=
    let fd := next_fd s in
    (Ok (Done fd),
     {| files := fs; fds := <[fd := {| fd_path := path; fd_offset := 0 |}]> (fds s);
        next_fd := fd + 1; bad_closes := bad_closes s; script := tail (script s);
        history := history s ++ [fs] |}) in
  match next_outcome s with
  | Interrupted => (Ok EINTR, after s (files s) (fds s))
  | Fails e => (Ok (Errno e), after s (files s) (fds s))
  | _ =>
      match files s !! path, truncate with
      | Some f, true => opened (<[path := {| data := []; synced := synced f |}]> (files s))
      | None, true => opened (<[path := {| data := []; synced := [] |}]> (files s))
      | Some _, false => opened (files s)
      | None, false => (Ok (Errno (str "No such file or directory")), after s (files s) (fds s))
      end
  end.

(** How many of [n] bytes the call transfers. *)
Definition transferred (o : outcome) (n : Z) : Z :=
  match o with Short k => Z.max 0 (Z.min k n) | _ => n end.

(** [pwrite(fd, buffer, n, offset)] and [write(fd, buffer, n)]. *)
Definition write_at (fd : Z) (buffer : bytes) (offset : option Z) : io os sysres := λ s,
  match next_outcome s with
  | Interrupted => (Ok EINTR, after s (files s) (fds s))
  | Fails e => (Ok (Errno e), after s (files s) (fds s))
  | o =>
      match fds s !! fd with
      | None => (Ok (Errno (str "Bad file descriptor")), after s (files s) (fds s))
      | Some d =>
          match files s !! fd_path d with
          | None => (Ok (Errno (str "Bad file descriptor")), after s (files s) (fds s))
          | Some f =>
              let n := transferred o (len buffer) in
              let start := match offset with Some z => z | None => fd_offset d end in
              let f' := {| data := overwrite (data f) (Z.to_nat start) (take (Z.to_nat n) buffer);
                           synced := synced f |} in
              let d' := {| fd_path := fd_path d;
                           fd_offset := match offset with Some _ => fd_offset d
                                        | None => fd_offset d + n end |} in
              (Ok (Done n), after s (<[fd_path d := f']> (files s)) (<[fd := d']> (fds s)))
          end
      end
  end.

Definition sys_write (fd : Z) (buffer : bytes) : io os sysres := write_at fd buffer None.
Definition sys_pwrite (fd : Z) (buffer : bytes) (offset : Z) : io os sysres :=
  write_at fd buffer (Some offset).

Definition sys_fsync (fd : Z) : io os sysres := λ s,
  match next_outcome s with
  | Interrupted => (Ok EINTR, after s (files s) (fds s))
  | Fails e => (Ok (Errno e), after s (files s) (fds s))
  | _ =>
      match fds s !! fd with
      | None => (Ok (Errno (str "Bad file descriptor")), after s (files s) (fds s))
      | Some d =>
          match files s !! fd_path d with
          | None => (Ok (Errno (str "Bad file descriptor")), after s (files s) (fds s))
          | Some f =>
              (Ok (Done 0),
               after s (<[fd_path d := {| data := data f; synced := data f |}]> (files s)) (fds s))
          end
      end
  end.

(** [close] releases the descriptor whatever it returns; closing one that is
    not open is counted. *)
Definition sys_close (fd : Z) : io os sysres := λ s,
  match fds s !! fd with
  | None =>
      (Ok (Errno (str "Bad file descriptor")),
       {| files := files s; fds := fds s; next_fd := next_fd s;
          bad_closes := bad_closes s + 1; script := tail (script s);
          history := history s ++ [files s] |})
  | Some _ =>
      let s' := after s (files s) (delete fd (fds s)) in
      match next_outcome s with
      | Interrupted => (Ok EINTR, s')
      | Fails e => (Ok (Errno e), s')
      | _ => (Ok (Done 0), s')
      end
  end.

Definition sys_rename (from to : bytes) : io os sysres := λ s,
  match next_outcome s with
  | Interrupted => (Ok EINTR, after s (files s) (fds s))
  | Fails e => (Ok (Errno e), after s (files s) (fds s))
  | _ =>
      match files s !! from with
      | None => (Ok (Errno (str "No such file or directory")), after s (files s) (fds s))
      | Some f => (Ok (Done 0), after s (<[to := f]> (delete from (files s))) (fds s))
      end
  end.

Definition sys_unlink (path : bytes) : io os sysres := λ s,
  match next_outcome s with
  | Interrupted => (Ok EINTR, after s (files s) (fds s))
  | Fails e => (Ok (Errno e), after s (files s) (fds s))
  | _ => (Ok (Done 0), after s (delete path (files s)) (fds s))
  end.

(** [std::filesystem::create_directories]: throws when the system does. *)
Definition create_directories (path : bytes) : io os unit := λ s,
  match next_outcome s with
  | Interrupted => (Throw (StdException (str "filesystem error")), after s (files s) (fds s))
  | Fails e => (Throw (StdException e), after s (files s) (fds s))
  | _ => (Ok tt, after s (files s) (fds s))
  end.

(** The error text [strerror(errno)]. *)
Definition strerror (r : sysres) : bytes :=
  match r with EINTR => str "Interrupted system call" | Errno e => e | Done _ => [] end.

(** [result < 0]. *)
Definition failed (r : sysres) : bool := match r with Done _ => false | _ => true end.

(** Every file system the run went through, and the present one, satisfies
    [Φ]. *)
Definition always (Φ : gmap bytes file → Prop) (s : os) : Prop :=
  Φ (files s) ∧ Forall Φ (history s).

(** A state with known files, descriptors, failed closes and script, reached
    from the history [h0] through file systems that satisfy [Φ], and whose next
    descriptor is unused. *)
Record at_state (Φ : gmap bytes file → Prop) (h0 : list (gmap bytes file)) (f : gmap bytes file) (d : gmap Z descriptor)
    (b : Z) (sc : list outcome) (s : os) : Prop := {
  at_files : files s = f;
  at_fds : fds s = d;
  at_bad : bad_closes s = b;
  at_script : script s = sc;
  at_history : ∃ hs, history s = h0 ++ hs ∧ Forall Φ hs;
  at_now : Φ f;
  at_fresh : 0 ≤ next_fd s ∧ ∀ fd, is_Some (d !! fd) → fd < next_fd s
}.

(** The next descriptor is unused. *)
Definition os_ok (s : os) : Prop :=
  0 ≤ next_fd s ∧ ∀ fd, is_Some (fds s !! fd) → fd < next_fd s.

Lemma at_start Φ s :
  os_ok s → Φ (files s) →
  at_state Φ (history s) (files s) (fds s) (bad_closes s) (script s) s.
Proof. intros Hs HΦ. constructor; try done. exists []. by rewrite app_nil_r. Qed.

(** Runs in sequence, each with its own invariant of the file systems. *)
Lemma at_restart Φ Φ' h0 f d b sc s :
  at_state Φ h0 f d b sc s → Φ' f → at_state Φ' (history s) f d b sc s.
Proof. intros [] HΦ. constructor; try done. exists []. by rewrite app_nil_r. Qed.

Lemma at_join (Φ Φ' : gmap bytes file → Prop) h0 f d b sc f' d' b' sc' s s' :
  at_state Φ h0 f d b sc s → at_state Φ' (history s) f' d' b' sc' s' →
  (∀ fs, Φ' fs → Φ fs) → at_state Φ h0 f' d' b' sc' s'.
Proof.
  intros [_ _ _ _ (hs & Hh & HF) _ _] [? ? ? ? (hs' & Hh' & HF') ? ?] Hw. constructor; auto.
  exists (hs ++ hs'). rewrite Hh', Hh, app_assoc. split; [done|]. apply Forall_app. split; [done|].
  eapply Forall_impl; [exact HF'|auto].
Qed.

(** ** Writing over a file *)

(** The byte at each position after the write. *)
Lemma overwrite_lookup content offset s i :
  overwrite content offset s !! i =
    if bool_decide (s = []) then content !! i
    else if decide (i < offset)%nat then
      if decide (i < length content)%nat then content !! i else Some (chr 0)
    else if decide (i < offset + length s)%nat then s !! (i - offset)%nat
    else content !! i.
Proof.
  unfold overwrite. case_bool_decide as Hs; [done|].
  assert (length (take offset content) = Nat.min offset (length content)) as Ht by apply length_take.
  repeat case_decide.
  - by rewrite lookup_app_l, lookup_take_lt by lia.
  - rewrite lookup_app_r, lookup_app_l by (rewrite ?length_replicate; lia).
    by apply lookup_replicate_2; lia.
  - rewrite 2!lookup_app_r, lookup_app_l by (rewrite ?length_replicate; lia).
    rewrite length_replicate. f_equal. lia.
  - rewrite 3!lookup_app_r by (rewrite ?length_replicate; lia).
    rewrite length_replicate, lookup_drop. f_equal. lia.
Qed.

Lemma overwrite_nil content offset : overwrite content offset [] = content.
Proof. done. Qed.

Lemma overwrite_append content s : overwrite content (length content) s = content ++ s.
Proof.
  unfold overwrite. case_bool_decide; [by subst; rewrite app_nil_r|].
  rewrite take_ge, Nat.sub_diag, drop_ge by lia. simpl. by rewrite app_nil_r.
Qed.

(** The slice written reads back. *)
Lemma overwrite_same content offset s :
  take (length s) (drop offset (overwrite content offset s)) = s.
Proof.
  apply list_eq. intros i. rewrite lookup_take, lookup_drop, overwrite_lookup.
  case_bool_decide; [subst s; by rewrite decide_False by (simpl; lia)|]. repeat case_decide; try lia.
  - f_equal. lia.
  - by rewrite lookup_ge_None_2 by lia.
Qed.

(** A slice that was there and is disjoint from the bytes written stays. *)
Lemma overwrite_disjoint content offset s start n :
  length (take n (drop start content)) = n →
  (start + n ≤ offset ∨ offset + length s ≤ start)%nat →
  take n (drop start (overwrite content offset s)) = take n (drop start content).
Proof.
  intros Hn Hd. rewrite length_take, length_drop in Hn. apply list_eq. intros i.
  rewrite !lookup_take, !lookup_drop, overwrite_lookup.
  case_bool_decide; [done|]. by repeat case_decide; try lia.
Qed.

(** Writing the parts of a string one after the other writes the string. *)
Lemma overwrite_app content offset s1 s2 :
  overwrite (overwrite content offset s1) (offset + length s1) s2 =
  overwrite content offset (s1 ++ s2).
Proof.
  destruct s1 as [|c1 s1]; [by rewrite Nat.add_0_r|].
  destruct s2 as [|c2 s2]; [by rewrite app_nil_r|]. set (a := c1 :: s1). set (b := c2 :: s2).
  assert (a ≠ []) as Ha by done. assert (b ≠ []) as Hb by done.
  assert (length (overwrite content offset a) = Nat.max (length content) (offset + length a)) as Hl.
  { unfold overwrite. rewrite bool_decide_eq_false_2 by done.
    rewrite !length_app, length_take, length_replicate, length_drop. lia. }
  apply list_eq. intros i. rewrite !overwrite_lookup, Hl, length_app.
  rewrite !(bool_decide_eq_false_2 (a ++ b = _)) by (by destruct a).
  rewrite !bool_decide_eq_false_2 by done. rewrite lookup_app.
  repeat case_decide; try lia; try done.
  - by destruct (lookup_lt_is_Some_2 a (i - offset) ltac:(lia)) as [x ->].
  - rewrite (lookup_ge_None_2 a) by lia. f_equal. lia.
Qed.

(** ** The calls *)

Section Calls.
Context {Φ : gmap bytes file → Prop} {h0 : list (gmap bytes file)}.

#[local] Abbreviation At := (at_state Φ h0).

Lemma history_snoc (h : list (gmap bytes file)) f :
  (∃ hs, h = h0 ++ hs ∧ Forall Φ hs) → Φ f → ∃ hs, h ++ [f] = h0 ++ hs ∧ Forall Φ hs.
Proof.
  intros (hs & -> & H) Hf. exists (hs ++ [f]). rewrite <-app_assoc. split; [done|].
  apply Forall_app. by repeat constructor.
Qed.

Lemma at_after f d b sc s f' d' :
  At f d b sc s → Φ f' →
  (∀ fd, is_Some (d' !! fd) → is_Some (d !! fd)) →
  At f' d' b (tail sc) (after s f' d').
Proof.
  intros [H1 H2 H3 H4 H5 H6 [H7 H8]] Hf Hd. subst. constructor; simpl; try done.
  - by apply history_snoc.
  - split; [done|]. intros fd Hfd. by apply H8, Hd.
Qed.

Lemma sys_open_truncate f d b sc path :
  (∀ y, Φ (<[path := {| data := []; synced := y |}]> f)) →
  triple (At f d b sc) (sys_open path true)
    (λ r s, match r with
            | Done fd => 0 ≤ fd ∧ d !! fd = None ∧ ∃ y,
                At (<[path := {| data := []; synced := y |}]> f)
                   (<[fd := {| fd_path := path; fd_offset := 0 |}]> d) b (tail sc) s
            | _ => sc ≠ [] ∧ At f d b (tail sc) s
            end) (λ _ _, False).
Proof.
  intros Hf s Hs. pose proof Hs as [H1 H2 H3 H4 H5 H6 [H7 H8]]. unfold sys_open.
  assert (d !! next_fd s = None) as Hnone.
  { destruct (d !! next_fd s) eqn:E; [|done]. specialize (H8 (next_fd s)). rewrite E in H8.
    specialize (H8 ltac:(eauto)). lia. }
  assert (∀ y, At (<[path := {| data := []; synced := y |}]> f)
      (<[next_fd s := {| fd_path := path; fd_offset := 0 |}]> d) b (tail sc)
      {| files := <[path := {| data := []; synced := y |}]> (files s);
         fds := <[next_fd s := {| fd_path := path; fd_offset := 0 |}]> (fds s);
         next_fd := next_fd s + 1; bad_closes := bad_closes s; script := tail (script s);
         history := history s ++ [<[path := {| data := []; synced := y |}]> (files s)] |}) as Hok.
  { intros y. subst. constructor; simpl; try done; [|split; [lia|]].
    - by apply history_snoc.
    - intros fd [z Hz]. rewrite lookup_insert in Hz. case_decide; [lia|].
      specialize (H8 fd ltac:(eauto)). lia. }
  assert (next_outcome s ≠ Works → sc ≠ []) as Hsc by (unfold next_outcome; rewrite H4; by destruct sc).
  clear H3 H4. subst f d. destruct (next_outcome s); try (split; [by apply Hsc|by eapply at_after]).
  all: destruct (files s !! path) as [fl|]; split_and!; [done|done|eexists; apply Hok|done|done|eexists; apply Hok].
Qed.

Lemma sys_open_existing f d b sc path fl :
  f !! path = Some fl →
  triple (At f d b sc) (sys_open path false)
    (λ r s, match r with
            | Done fd => 0 ≤ fd ∧ d !! fd = None ∧
                At f (<[fd := {| fd_path := path; fd_offset := 0 |}]> d) b (tail sc) s
            | _ => At f d b (tail sc) s
            end) (λ _ _, False).
Proof.
  intros Hf s Hs. pose proof Hs as [H1 H2 H3 H4 H5 H6 [H7 H8]]. unfold sys_open.
  assert (d !! next_fd s = None) as Hnone.
  { destruct (d !! next_fd s) eqn:E; [|done]. specialize (H8 (next_fd s)). rewrite E in H8.
    specialize (H8 ltac:(eauto)). lia. }
  assert (At f (<[next_fd s := {| fd_path := path; fd_offset := 0 |}]> d) b (tail sc)
      {| files := files s; fds := <[next_fd s := {| fd_path := path; fd_offset := 0 |}]> (fds s);
         next_fd := next_fd s + 1; bad_closes := bad_closes s; script := tail (script s);
         history := history s ++ [files s] |}) as Hok.
  { subst. constructor; simpl; try done; [|split; [lia|]].
    - by apply history_snoc.
    - intros fd [z Hz]. rewrite lookup_insert in Hz. case_decide; [lia|].
      specialize (H8 fd ltac:(eauto)). lia. }
  clear H3 H4. subst f d. destruct (next_outcome s); try by eapply at_after.
  all: rewrite Hf; by split_and!.
Qed.

Lemma write_at_spec f d b sc fd buffer offset ds fl :
  d !! fd = Some ds → f !! fd_path ds = Some fl →
  let start := match offset with Some z => z | None => fd_offset ds end in
  let next n := match offset with Some _ => fd_offset ds | None => fd_offset ds + n end in
  let written n := {| data := overwrite (data fl) (Z.to_nat start) (take (Z.to_nat n) buffer);
                      synced := synced fl |} in
  (∀ n, 0 ≤ n ≤ len buffer → Φ (<[fd_path ds := written n]> f)) →
  triple (At f d b sc) (write_at fd buffer offset)
    (λ r s, match r with
            | Done n => 0 ≤ n ≤ len buffer ∧ (sc = [] → n = len buffer) ∧
                At (<[fd_path ds := written n]> f)
                   (<[fd := {| fd_path := fd_path ds; fd_offset := next n |}]> d) b (tail sc) s
            | EINTR => sc ≠ [] ∧ At f d b (tail sc) s
            | Errno _ => sc ≠ [] ∧ At f d b (tail sc) s
            end) (λ _ _, False).
Proof.
  intros Hd Hf start next written Hn s Hs. pose proof Hs as [H1 H2 H3 H4 H5 H6 H7].
  unfold write_at. pose proof (len_nonneg buffer) as Hlen.
  assert (∀ n, 0 ≤ n ≤ len buffer →
    At (<[fd_path ds := written n]> f)
       (<[fd := {| fd_path := fd_path ds; fd_offset := next n |}]> d) b (tail sc)
       (after s (<[fd_path ds := written n]> (files s))
          (<[fd := {| fd_path := fd_path ds; fd_offset := next n |}]> (fds s)))) as Hok.
  { intros n Hr. rewrite H1, H2. eapply at_after; [done|by apply Hn|].
    intros fd' [z Hz]. rewrite lookup_insert in Hz. case_decide; subst; eauto. }
  assert (next_outcome s = match sc with o :: _ => o | [] => Works end) as Ho by (by subst).
  clear H3 H4. subst f d. rewrite Hd, Hf.
  destruct (next_outcome s) eqn:E; try (split; [by destruct sc|]; by eapply at_after);
    cbn [transferred].
  - split; [lia|]. split; [done|]. apply Hok. lia.
  - split; [lia|]. split; [by intros ->|]. apply Hok. lia.
Qed.

Lemma sys_fsync_spec f d b sc fd ds fl :
  d !! fd = Some ds → f !! fd_path ds = Some fl →
  Φ (<[fd_path ds := {| data := data fl; synced := data fl |}]> f) →
  triple (At f d b sc) (sys_fsync fd)
    (λ r s, if failed r then At f d b (tail sc) s
            else At (<[fd_path ds := {| data := data fl; synced := data fl |}]> f) d b (tail sc) s)
    (λ _ _, False).
Proof.
  intros Hd Hf HΦ s Hs. pose proof Hs as [H1 H2 H3 H4 H5 H6 H7]. unfold sys_fsync.
  destruct (next_outcome s); rewrite ?H1, ?H2, ?Hd, ?Hf; cbn [failed]; by eapply at_after.
Qed.

Lemma sys_close_spec f d b sc fd :
  is_Some (d !! fd) →
  triple (At f d b sc) (sys_close fd) (λ _ s, At f (delete fd d) b (tail sc) s) (λ _ _, False).
Proof.
  intros [z Hd] s Hs. pose proof Hs as [H1 H2 H3 H4 H5 H6 H7]. unfold sys_close.
  rewrite H2, Hd.
  assert (At f (delete fd d) b (tail sc) (after s (files s) (delete fd (fds s)))).
  { rewrite H1, H2. eapply at_after; [done|done|].
    intros fd' [y Hy]. apply lookup_delete_Some in Hy as [_ Hy]. eauto. }
  rewrite H2 in H. by destruct (next_outcome s).
Qed.

Lemma sys_rename_spec f d b sc from to fl :
  f !! from = Some fl → Φ (<[to := fl]> (delete from f)) →
  triple (At f d b sc) (sys_rename from to)
    (λ r s, if failed r then At f d b (tail sc) s
            else At (<[to := fl]> (delete from f)) d b (tail sc) s) (λ _ _, False).
Proof.
  intros Hf HΦ s Hs. pose proof Hs as [H1 H2 H3 H4 H5 H6 H7]. unfold sys_rename.
  destruct (next_outcome s); rewrite ?H1, ?H2, ?Hf; cbn [failed]; by eapply at_after.
Qed.

Lemma sys_unlink_spec f d b sc path :
  Φ (delete path f) →
  triple (At f d b sc) (sys_unlink path)
    (λ r s, if failed r then At f d b (tail sc) s else At (delete path f) d b (tail sc) s)
    (λ _ _, False).
Proof.
  intros HΦ s Hs. pose proof Hs as [H1 H2 H3 H4 H5 H6 H7]. unfold sys_unlink.
  destruct (next_outcome s); rewrite ?H1, ?H2; cbn [failed]; by eapply at_after.
Qed.

Lemma create_directories_spec f d b sc path :
  triple (At f d b sc) (create_directories path)
    (λ _ s, At f d b (tail sc) s) (λ e s, e ≠ Diverged ∧ At f d b (tail sc) s).
Proof.
  intros s Hs. pose proof Hs as [H1 H2 H3 H4 H5 H6 H7]. unfold create_directories.
  destruct (next_outcome s); rewrite ?H1, ?H2; try split; try done; by eapply at_after.
Qed.

End Calls.
