(* ===== verification/Stream.v ===== *)
(** * Stream: reading and writing on a connected socket

    The byte-level half of [src/src/protocol.cpp]: [read_line], [read_exact]
    and [write_all] over [recv] and [send].  The peer and the network are a
    list of events: bytes arrive in segments of any size, calls are
    interrupted by signals, fail (a timeout included), or find the connection
    closed; [send] may accept any part of what it is given. *)

From S2P Require Export Prelude.
From S2P Require Import Hoare Posix Protocol.

#[local] Open Scope Z_scope.

(** ** Definitions *)

Inductive recv_event :=
| Arrives (s : bytes)
| RecvInterrupted
| RecvFails (errno : bytes).

(** A connected socket: what will happen on the receiving side (the end of
    the list is the peer closing), what was sent, and the outcomes of the next
    [send] calls. *)
Record conn := {
  valid : bool;
  incoming : list recv_event;
  outgoing : bytes;
  sends : list outcome
}.

Inductive recv_result :=
| Received (s : bytes)
| RecvEINTR
| RecvErrno (errno : bytes).

Definition with_incoming (c : conn) (i : list recv_event) : conn :=
  {| valid := valid c; incoming := i; outgoing := outgoing c; sends := sends c |}.

(** [recv] of at most [n] bytes: the beginning of the first segment. *)
Fixpoint recv_from (n : nat) (i : list recv_event) : recv_result * list recv_event :=
  match i with
  | [] => (Received [], [])
  | Arrives [] :: i' => recv_from n i'
  | Arrives s :: i' =>
      (Received (take n s), if bool_decide (drop n s = []) then i' else Arrives (drop n s) :: i')
  | RecvInterrupted :: i' => (RecvEINTR, i')
  | RecvFails e :: i' => (RecvErrno e, i')
  end.

Definition recv (n : Z) : io conn recv_result := λ c,
  let '(r, i) := recv_from (Z.to_nat n) (incoming c) in (Ok r, with_incoming c i).

(** [send] of [data]: appends what is accepted. *)
Definition send (data : bytes) : io conn sysres := λ c,
  let used out :=
    {| valid := valid c; incoming := incoming c; outgoing := out; sends := tail (sends c) |} in
  match sends c with
  | Interrupted :: _ => (Ok EINTR, used (outgoing c))
  | Fails e :: _ => (Ok (Errno e), used (outgoing c))
  | o =>
      let n := transferred (match o with x :: _ => x | [] => Works end) (len data) in
      (Ok (Done n), used (outgoing c ++ take (Z.to_nat n) data))
  end.

(** The loop of [read_line]. *)
Fixpoint read_line_loop (fuel : nat) (max_bytes : Z) (result : bytes) : io conn bytes :=
  match fuel with
  | O => raise Diverged
  | S fuel' =>
      do read <- recv 1;
      match read with
      | Received [] => raise_error "Peer closed connection before completing a header"
      | RecvEINTR => read_line_loop fuel' max_bytes result
      | RecvErrno e => raise (Error (str "Unable to read TCP header: " ++ e))
      | Received (character :: _) =>
          if bool_decide (character = LF) then ret result
          else if bool_decide (character = CR) then read_line_loop fuel' max_bytes result
          else if (code character <? 32) || (code character >? 126) || (len result >=? max_bytes)
          then raise_error "TCP header is invalid or exceeds its limit"
          else read_line_loop fuel' max_bytes (result ++ [character])
      end
  end.

(** Every iteration uses an event or a byte. *)
Definition event_cost (e : recv_event) : nat :=
  match e with Arrives s => S (length s) | _ => 1 end.
Definition recv_fuel (i : list recv_event) : nat := S (sum_list_with event_cost i).

Definition read_line (max_bytes : Z) : io conn bytes := λ c,
  if negb (valid c) || (max_bytes =? 0) || (max_bytes >? kMaxHeaderBytes)
  then (throw "Invalid bounded line read request", c)
  else read_line_loop (recv_fuel (incoming c)) max_bytes [] c.

(** The loop of [read_exact]; [output] is what was read so far and [n] what is
    still missing. *)
Fixpoint read_exact_loop (fuel : nat) (n : Z) (output : bytes) : io conn bytes :=
  match fuel with
  | O => raise Diverged
  | S fuel' =>
      if n <=? 0 then ret output
      else
        do read <- recv n;
        match read with
        | Received [] => raise_error "Peer closed connection before sending requested bytes"
        | RecvEINTR => read_exact_loop fuel' n output
        | RecvErrno e => raise (Error (str "Unable to read TCP bytes: " ++ e))
        | Received s => read_exact_loop fuel' (n - len s) (output ++ s)
        end
  end.

Definition read_exact (n : Z) : io conn bytes := λ c,
  read_exact_loop (recv_fuel (incoming c)) n [] c.

(** The loop of [write_all]; [rest] is [data] from [offset]. *)
Fixpoint write_all_loop (fuel : nat) (rest : bytes) : io conn unit :=
  match fuel with
  | O => raise Diverged
  | S fuel' =>
      if bool_decide (rest = []) then ret tt
      else
        do written <- send rest;
        match written with
        | Done n => write_all_loop fuel' (drop (Z.to_nat n) rest)
        | EINTR => write_all_loop fuel' rest
        | Errno e => raise (Error (str "Unable to write TCP bytes: " ++ e))
        end
  end.

Definition write_all (data : bytes) : io conn unit := λ c,
  write_all_loop (length (sends c) + 2) data c.

(** *** Specifications *)

(** The bytes that arrive, in order. *)
Fixpoint payload (i : list recv_event) : bytes :=
  match i with
  | [] => []
  | Arrives s :: i' => s ++ payload i'
  | _ :: i' => payload i'
  end.

(** No receive call fails. *)
Definition clean (i : list recv_event) : Prop :=
  Forall (λ e, match e with RecvFails _ => False | _ => True end) i.

(** No send call fails. *)
Definition accepting (c : conn) : Prop :=
  Forall (λ o, match o with Fails _ => False | _ => True end) (sends c).

(** The same socket with another receiving side. *)
Definition same_output (c c' : conn) : Prop :=
  valid c' = valid c ∧ outgoing c' = outgoing c ∧ sends c' = sends c.

(** ** Receiving *)

Lemma recv_from_clean n i :
  clean i → (0 < n)%nat →
  ∃ r i', recv_from n i = (r, i') ∧ clean i' ∧
    match r with
    | Received [] => payload i = [] ∧ payload i' = []
    | Received s => payload i = s ++ payload i' ∧ (length s ≤ n)%nat ∧
                    (sum_list_with event_cost i' < sum_list_with event_cost i)%nat
    | RecvEINTR => payload i' = payload i ∧
                   (sum_list_with event_cost i' < sum_list_with event_cost i)%nat
    | RecvErrno _ => False
    end.
Proof.
  intros Hc Hn. induction Hc as [|[[|c s]| |e] i He Hi IH]; cbn [recv_from].
  - eexists _, _. split; [done|]. by split; [constructor|].
  - destruct IH as (r & i' & -> & Hc' & H). exists r, i'. split; [done|]. split; [done|].
    simpl. destruct r as [[|]| |]; naive_solver lia.
  - eexists _, _. split; [done|]. destruct n as [|n]; [lia|]. cbn [take drop].
    case_bool_decide as Hd.
    + split; [done|]. simpl. rewrite take_ge.
      2:{ apply (f_equal length) in Hd. rewrite length_drop in Hd. simpl in Hd. lia. }
      split; [done|]. simpl. apply (f_equal length) in Hd. rewrite length_drop in Hd.
      simpl in Hd. lia.
    + split; [by constructor|]. simpl. split.
      * by rewrite app_assoc, take_drop.
      * rewrite length_take, length_drop. lia.
  - eexists _, _. split; [done|]. split; [done|]. simpl. split; [done|lia].
  - done.
Qed.

Lemma recv_from_cost n i r i' :
  recv_from n i = (r, i') → (0 < n)%nat →
  r = Received [] ∨ (sum_list_with event_cost i' < sum_list_with event_cost i)%nat.
Proof.
  intros H Hn. revert r i' H. induction i as [|[[|c s]| |e] i IH]; intros r i'; cbn [recv_from].
  - intros [= <- <-]. by left.
  - intros H. destruct (IH _ _ H); [by left|right; simpl; lia].
  - destruct n as [|n]; [lia|]. intros [= <- <-]. right. cbn [drop].
    case_bool_decide; simpl; rewrite ?length_drop; lia.
  - intros [= <- <-]. right. simpl. lia.
  - intros [= <- <-]. right. simpl. lia.
Qed.

(** ** [read_line] *)

(** Characters of a header line as [read_line] accepts them. *)
Lemma header_char_test (c : ascii) (max : Z) (result : bytes) :
  32 ≤ code c ≤ 126 → len result < max →
  bool_decide (c = LF) = false ∧ bool_decide (c = CR) = false ∧
  (code c <? 32) || (code c >? 126) || (len result >=? max) = false.
Proof.
  intros Hc Hr. split_and!.
  - apply bool_decide_eq_false_2. intros ->. vm_compute in Hc. naive_solver.
  - apply bool_decide_eq_false_2. intros ->. vm_compute in Hc. naive_solver.
  - rewrite (proj2 (printable_test c)) by lia. rewrite Z.geb_leb. simpl. by apply Z.leb_gt.
Qed.

(** The header bytes with any carriage returns in between. *)
Definition strip_cr (s : bytes) : bytes := List.filter (λ c, negb (bool_decide (c = CR))) s.

Lemma read_line_loop_spec fuel max c text rest result :
  clean (incoming c) → payload (incoming c) = text ++ LF :: rest →
  Forall (λ c, 32 ≤ code c ≤ 126 ∨ c = CR) text →
  len result + len (strip_cr text) ≤ max →
  (sum_list_with event_cost (incoming c) < fuel)%nat →
  ∃ c', read_line_loop fuel max result c = (Ok (result ++ strip_cr text), c') ∧
        clean (incoming c') ∧ payload (incoming c') = rest ∧ same_output c c'.
Proof.
  revert c text result. induction fuel as [|fuel IH]; intros c text result Hc Hp Ht Hlen Hf; [lia|].
  cbn [read_line_loop]. unfold bind at 1. unfold recv. change (Z.to_nat 1) with 1%nat.
  destruct (recv_from_clean 1 (incoming c) Hc ltac:(lia)) as (r & i' & -> & Hc' & Hr).
  destruct r as [[|x s]| |e]; [|..|done].
  - destruct Hr as [Hr _]. rewrite Hr in Hp. by destruct text.
  - destruct Hr as (Hr & Hs & Hcost). destruct s; [|simpl in Hs; lia].
    rewrite Hr in Hp. destruct text as [|y text].
    + injection Hp as -> Hp. rewrite bool_decide_eq_true_2 by done. simpl.
      eexists. rewrite app_nil_r. split; [done|]. simpl. split_and!; try done.
    + injection Hp as -> Hp. apply Forall_cons in Ht as [Hy Ht].
      destruct (decide (y = CR)) as [->|Hne].
      * rewrite bool_decide_eq_false_2, bool_decide_eq_true_2 by done.
        destruct (IH (with_incoming c i') text result) as (c' & ? & ? & ? & ?);
          simpl; try done; [lia|]. by exists c'.
      * destruct Hy as [Hy|]; [|done].
        unfold strip_cr in *. cbn [List.filter] in *.
        rewrite (bool_decide_eq_false_2 (y = CR)) in * by done. cbn [negb] in *.
        rewrite len_cons in Hlen. pose proof (len_nonneg (List.filter (λ c, negb (bool_decide (c = CR))) text)).
        destruct (header_char_test y max result) as (-> & _ & ->); [done|lia|].
        destruct (IH (with_incoming c i') text (result ++ [y])) as (c' & H1 & ? & ? & ?);
          simpl; try done; [rewrite len_app, len_cons, len_nil; lia|lia|].
        exists c'. by rewrite H1, <-app_assoc.
  - destruct Hr as [Hr Hcost].
    destruct (IH (with_incoming c i') text result) as (c' & ? & ? & ? & ?);
      simpl; try done; [congruence|lia|]. by exists c'.
Qed.

(** A line that arrives in any segmentation is read back, and the bytes after
    it are left for the next read. *)
Lemma read_line_spec max c text rest :
  valid c = true → 1 ≤ max ≤ kMaxHeaderBytes →
  clean (incoming c) → payload (incoming c) = text ++ LF :: rest →
  Forall (λ c, 32 ≤ code c ≤ 126 ∨ c = CR) text → len (strip_cr text) ≤ max →
  ∃ c', read_line max c = (Ok (strip_cr text), c') ∧
        clean (incoming c') ∧ payload (incoming c') = rest ∧ same_output c c'.
Proof.
  intros Hv Hm Hc Hp Ht Hlen. unfold read_line. rewrite Hv.
  destruct (Z.eqb_spec max 0); [lia|]. rewrite (proj2 (gtb_false _ _)) by lia. cbn [negb orb].
  apply (read_line_loop_spec _ _ _ text rest []); try done. unfold recv_fuel. lia.
Qed.

Lemma strip_cr_id s : CR ∉ s → strip_cr s = s.
Proof.
  induction s as [|c s IH]; intros H; [done|]. unfold strip_cr in *. cbn [List.filter].
  rewrite bool_decide_eq_false_2 by set_solver. cbn [negb]. f_equal. apply IH. set_solver.
Qed.

Lemma read_line_loop_no_diverge fuel max result c r c' :
  (sum_list_with event_cost (incoming c) < fuel)%nat →
  read_line_loop fuel max result c = (r, c') →
  r ≠ Throw Diverged ∧ same_output c c' ∧
  (∀ s, r = Ok s → len result ≤ max → Forall (λ c, 32 ≤ code c ≤ 126) result →
        len s ≤ max ∧ Forall (λ c, 32 ≤ code c ≤ 126) s).
Proof.
  revert result c. induction fuel as [|fuel IH]; intros result c Hf; [lia|].
  cbn [read_line_loop]. unfold bind at 1. unfold recv. change (Z.to_nat 1) with 1%nat.
  destruct (recv_from 1 (incoming c)) as [r0 i'] eqn:E.
  apply recv_from_cost in E; [|lia].
  destruct r0 as [[|x s]| |e]; (destruct E as [E|E]; [try done|]).
  1,2: intros [= <- <-]; by split_and!.
  - case_bool_decide.
    { intros [= <- <-]. split_and!; try done. by intros s' <-%Ok_inj. }
    case_bool_decide; [intros Hq; apply (IH _ (with_incoming c i')) in Hq; [done|simpl; lia]|].
    destruct (_ || _ || _) eqn:Ht; [intros [= <- <-]; by split_and!|].
    intros Hq. apply (IH _ (with_incoming c i')) in Hq as (? & ? & Hs); [|simpl; lia].
    split_and!; [done|done|]. intros s' -> Hl Hp. apply Hs; [done|..].
    + rewrite orb_false_iff, Z.geb_leb, Z.leb_gt in Ht. rewrite len_app, len_cons, len_nil. lia.
    + apply Forall_app. split; [done|]. constructor; [|done].
      apply orb_false_iff in Ht as [Ht _]. by apply printable_test.
  - intros H. apply (IH _ (with_incoming c i')) in H; [done|simpl; lia].
  - intros [= <- <-]. by split_and!.
Qed.

(** ** [read_exact] *)

Lemma read_exact_loop_spec fuel n c s rest output :
  clean (incoming c) → payload (incoming c) = s ++ rest → len s = n →
  (sum_list_with event_cost (incoming c) < fuel)%nat →
  ∃ c', read_exact_loop fuel n output c = (Ok (output ++ s), c') ∧
        clean (incoming c') ∧ payload (incoming c') = rest ∧ same_output c c'.
Proof.
  revert c n s output. induction fuel as [|fuel IH]; intros c n s output Hc Hp Hn Hf; [lia|].
  cbn [read_exact_loop]. destruct (Z.leb_spec n 0) as [H0|H0].
  - assert (s = []) as ->.
    { destruct s; [done|]. rewrite len_cons in Hn. pose proof (len_nonneg s). lia. }
    exists c. by rewrite app_nil_r.
  - unfold bind at 1. unfold recv.
    destruct (recv_from_clean (Z.to_nat n) (incoming c) Hc ltac:(lia)) as (r & i' & -> & Hc' & Hr).
    destruct r as [[|x t]| |e]; [|..|done].
    + destruct Hr as [Hr _]. rewrite Hr in Hp. symmetry in Hp.
      apply app_nil in Hp as [-> _]. rewrite len_nil in Hn. lia.
    + destruct Hr as (Hr & Ht & Hcost). set (t' := x :: t) in *.
      rewrite Hr in Hp.
      assert (∃ s', s = t' ++ s' ∧ payload i' = s' ++ rest) as (s' & -> & Hp').
      { exists (drop (length t') s). assert (length t' ≤ length s)%nat by (unfold len in Hn; lia).
        assert (take (length t') s = t') as Hts.
        { apply (f_equal (take (length t'))) in Hp. rewrite take_app_length in Hp.
          by rewrite take_app_le in Hp by lia. }
        split; [by rewrite <-Hts at 1; rewrite take_drop|].
        apply (f_equal (drop (length t'))) in Hp. rewrite drop_app_length in Hp.
        by rewrite drop_app_le in Hp by lia. }
      rewrite len_app in Hn.
      destruct (IH (with_incoming c i') (n - len t') s' (output ++ t')) as (c' & H1 & ? & ? & ?);
        simpl; try done; [lia|lia|]. exists c'. by rewrite H1, <-app_assoc.
    + destruct Hr as [Hr Hcost].
      destruct (IH (with_incoming c i') n s output) as (c' & ? & ? & ? & ?);
        simpl; try done; [congruence|lia|]. by exists c'.
Qed.

Lemma read_exact_spec n c s rest :
  clean (incoming c) → payload (incoming c) = s ++ rest → len s = n →
  ∃ c', read_exact n c = (Ok s, c') ∧
        clean (incoming c') ∧ payload (incoming c') = rest ∧ same_output c c'.
Proof.
  intros. unfold read_exact. apply (read_exact_loop_spec _ _ _ s rest []); try done.
  unfold recv_fuel. lia.
Qed.

Lemma read_exact_loop_any fuel n output c r c' :
  (sum_list_with event_cost (incoming c) < fuel)%nat →
  read_exact_loop fuel n output c = (r, c') →
  r ≠ Throw Diverged ∧ same_output c c' ∧ (∀ s, r = Ok s → 0 ≤ n → len s = len output + n).
Proof.
  revert n output c. induction fuel as [|fuel IH]; intros n output c Hf; [lia|].
  cbn [read_exact_loop]. destruct (Z.leb_spec n 0) as [H0|H0].
  { intros [= <- <-]. split_and!; try done. intros s [= <-] ?. lia. }
  unfold bind at 1. unfold recv.
  destruct (recv_from (Z.to_nat n) (incoming c)) as [r0 i'] eqn:E.
  assert (∀ s, r0 = Received s → len s ≤ n) as Hle.
  { intros s ->. clear -E H0. revert E. induction (incoming c) as [|[[|x t]| |e] i IHi]; cbn [recv_from].
    - intros [= <- _]. rewrite len_nil. lia.
    - done.
    - intros [= <- _]. unfold len. rewrite length_take. lia.
    - done.
    - done. }
  apply recv_from_cost in E; [|lia].
  destruct r0 as [[|x s]| |e]; (destruct E as [E|E]; [try done|]).
  1,2: intros [= <- <-]; by split_and!.
  - intros H. apply (IH _ _ (with_incoming c i')) in H as (? & ? & Hs); [|simpl; lia].
    split_and!; [done|done|]. intros s' -> Hn. specialize (Hle _ eq_refl).
    specialize (Hs s' eq_refl ltac:(lia)). rewrite len_app in Hs. lia.
  - intros H. apply (IH _ _ (with_incoming c i')) in H; [done|simpl; lia].
  - intros [= <- <-]. by split_and!.
Qed.

(** *** Exceptions of the readers *)

Lemma read_line_loop_no_std fuel max result c w :
  (read_line_loop fuel max result c).1 ≠ Throw (StdException w).
Proof.
  revert result c. induction fuel as [|fuel IH]; intros result c; [done|].
  cbn [read_line_loop]. unfold bind. destruct (recv 1 c) as [[read|e] c1] eqn:E.
  - destruct read as [[|x s]| |e]; [done| |apply IH|done].
    repeat case_match; try done; apply IH.
  - unfold recv in E. by destruct (recv_from _ _).
Qed.

Lemma read_exact_loop_no_std fuel n output c w :
  (read_exact_loop fuel n output c).1 ≠ Throw (StdException w).
Proof.
  revert n output c. induction fuel as [|fuel IH]; intros n output c; [done|].
  cbn [read_exact_loop]. destruct (n <=? 0); [done|].
  unfold bind. destruct (recv n c) as [[read|e] c1] eqn:E.
  - destruct read as [[|x s]| |e]; [done|apply IH|apply IH|done].
  - unfold recv in E. by destruct (recv_from _ _).
Qed.

(** Reading a line throws only [Error]s, sends nothing and always ends. *)
Lemma read_line_outcome max c r c' :
  0 ≤ max → read_line max c = (r, c') →
  errors_only r ∧ same_output c c' ∧
  ∀ s, r = Ok s → len s ≤ max ∧ Forall (λ c, 32 ≤ code c ≤ 126) s.
Proof.
  intros H0. unfold read_line. destruct (_ || _) eqn:Hb; [by intros [= <- <-]|].
  intros H. pose proof (read_line_loop_no_std (recv_fuel (incoming c)) max [] c) as Hstd.
  pose proof H as Hn. apply read_line_loop_no_diverge in Hn as (Hd & ? & Hs);
    [|unfold recv_fuel; lia].
  rewrite H in Hstd. split_and!; [|done|].
  - destruct r as [|[| |]]; naive_solver.
  - intros s ->. apply Hs; [done|rewrite len_nil; lia|constructor].
Qed.

Lemma read_exact_outcome n c r c' :
  0 ≤ n → read_exact n c = (r, c') →
  errors_only r ∧ same_output c c' ∧ ∀ s, r = Ok s → len s = n.
Proof.
  intros Hn H. pose proof (read_exact_loop_no_std (recv_fuel (incoming c)) n [] c) as Hstd.
  unfold read_exact in H. rewrite H in Hstd.
  apply read_exact_loop_any in H as (Hd & ? & Hs); [|unfold recv_fuel; lia].
  split_and!; [|done|].
  - destruct r as [|[| |]]; naive_solver.
  - intros s ->. by rewrite (Hs s).
Qed.

(** *** Progress of the readers *)

Lemma read_line_loop_progress fuel max result c s c' :
  read_line_loop fuel max result c = (Ok s, c') →
  (sum_list_with event_cost (incoming c') < sum_list_with event_cost (incoming c))%nat.
Proof.
  revert result c. induction fuel as [|fuel IH]; intros result c; [done|].
  cbn [read_line_loop]. unfold bind at 1. unfold recv. change (Z.to_nat 1) with 1%nat.
  destruct (recv_from 1 (incoming c)) as [r0 i'] eqn:E. apply recv_from_cost in E; [|lia].
  destruct r0 as [[|x t]| |e]; [done| | |done]; (destruct E as [|E]; [done|]).
  - repeat case_match; try done; intros Hr.
    1: injection Hr as <- <-; simpl; lia.
    all: apply IH in Hr; simpl in Hr; lia.
  - intros Hr. apply IH in Hr. simpl in Hr. lia.
Qed.

(** Reading a line uses up part of what arrives. *)
Lemma read_line_progress max c s c' :
  read_line max c = (Ok s, c') →
  (sum_list_with event_cost (incoming c') < sum_list_with event_cost (incoming c))%nat.
Proof. unfold read_line. destruct (_ || _); [done|]. apply read_line_loop_progress. Qed.

Lemma payload_length i : (length (payload i) ≤ sum_list_with event_cost i)%nat.
Proof.
  induction i as [|[s| |e] i IH]; simpl; [lia| |lia|lia]. rewrite length_app. simpl. lia.
Qed.

(** A line of printable characters. *)
Lemma read_printable_line c text rest :
  valid c = true → clean (incoming c) → payload (incoming c) = text ++ LF :: rest →
  Forall (λ c, 32 ≤ code c ≤ 126) text → len text ≤ kMaxHeaderBytes →
  ∃ c', read_line kMaxHeaderBytes c = (Ok text, c') ∧
        clean (incoming c') ∧ payload (incoming c') = rest ∧ same_output c c'.
Proof.
  intros Hv Hc Hp Ht Hl. assert (strip_cr text = text) as Hs.
  { apply strip_cr_id. intros Hin. rewrite Forall_forall in Ht. specialize (Ht CR Hin).
    vm_compute in Ht. naive_solver. }
  destruct (read_line_spec kMaxHeaderBytes c text rest) as (c' & Hr & ?); try done.
  - eapply Forall_impl; [exact Ht|]. simpl. auto.
  - by rewrite Hs.
  - rewrite Hs in Hr. by exists c'.
Qed.

(** ** [write_all] *)

Lemma write_all_loop_spec fuel rest c r c' :
  (length (sends c) + 2 ≤ fuel ∨ 1 ≤ fuel ∧ rest = [])%nat →
  write_all_loop fuel rest c = (r, c') →
  r ≠ Throw Diverged ∧ (∀ w, r ≠ Throw (StdException w)) ∧
  valid c' = valid c ∧ incoming c' = incoming c ∧
  ∃ sent unsent, rest = sent ++ unsent ∧ outgoing c' = outgoing c ++ sent ∧
                 (r = Ok tt → unsent = []).
Proof.
  revert rest c. induction fuel as [|fuel IH]; intros rest c Hf; [lia|].
  cbn [write_all_loop]. case_bool_decide as Hr.
  { intros [= <- <-]. subst. split_and!; try done. exists [], []. by rewrite !app_nil_r. }
  destruct Hf as [Hf|[_ ?]]; [|done].
  unfold bind at 1. unfold send.
  assert (∀ n s', 
    let c1 := {| valid := valid c; incoming := incoming c;
                 outgoing := outgoing c ++ take (Z.to_nat n) rest; sends := s' |} in
    (length s' + 2 ≤ fuel ∨ 1 ≤ fuel ∧ drop (Z.to_nat n) rest = [])%nat →
    write_all_loop fuel (drop (Z.to_nat n) rest) c1 = (r, c') →
    r ≠ Throw Diverged ∧ (∀ w, r ≠ Throw (StdException w)) ∧
    valid c' = valid c ∧ incoming c' = incoming c ∧
    ∃ sent unsent, rest = sent ++ unsent ∧ outgoing c' = outgoing c ++ sent ∧
                   (r = Ok tt → unsent = [])) as Hnext.
  { intros n s' c1 Hfuel H. apply IH in H as (? & ? & ? & ? & sent & unsent & Hsp & Hout & Hok); [|done].
    split_and!; try done. exists (take (Z.to_nat n) rest ++ sent), unsent.
    split_and!; [|by rewrite Hout, app_assoc|done].
    by rewrite <-app_assoc, <-Hsp, take_drop. }
  destruct (sends c) as [|[|n| |e] l]; simpl in Hf |- *.
  - apply Hnext. right. split; [lia|]. apply drop_ge. unfold len. lia.
  - apply Hnext. left. lia.
  - apply Hnext. left. lia.
  - intros H. apply IH in H; [done|]. left. simpl. lia.
  - intros [= <- <-]. split_and!; try done. exists [], rest. by rewrite app_nil_r.
Qed.

(** Either everything was sent, or an [Error] and a prefix was. *)
Lemma write_all_spec data c r c' :
  write_all data c = (r, c') →
  valid c' = valid c ∧ incoming c' = incoming c ∧
  (r = Ok tt ∧ outgoing c' = outgoing c ++ data ∨
   ∃ w sent unsent, r = Throw (Error w) ∧ data = sent ++ unsent ∧
     outgoing c' = outgoing c ++ sent).
Proof.
  unfold write_all. intros H. apply write_all_loop_spec in H as (Hd & Hs & ? & ? & sent & unsent & Hsp & Ho & Hok);
    [|left; lia]. split_and!; try done.
  destruct r as [[]|[w|w|]]; [left| |naive_solver..].
  - rewrite (Hok eq_refl), app_nil_r in Hsp. by subst.
  - right. by exists w, sent, unsent.
Qed.

(** When no [send] fails, everything is sent. *)
Lemma write_all_loop_ok fuel rest c :
  Forall (λ o, match o with Fails _ => False | _ => True end) (sends c) →
  (length (sends c) + 2 ≤ fuel ∨ 1 ≤ fuel ∧ rest = [])%nat →
  ∃ c', write_all_loop fuel rest c = (Ok tt, c') ∧
        Forall (λ o, match o with Fails _ => False | _ => True end) (sends c').
Proof.
  revert rest c. induction fuel as [|fuel IH]; intros rest c Hs Hf; [lia|].
  cbn [write_all_loop]. case_bool_decide as Hr; [by exists c|].
  destruct Hf as [Hf|[_ ?]]; [|done]. unfold bind at 1. unfold send.
  destruct (sends c) as [|[|n| |e] l] eqn:E; simpl in Hf |- *;
    try (apply Forall_cons in Hs as [? Hs]); try done;
    apply IH; simpl; try done; try (left; lia).
  right. split; [lia|]. apply drop_ge. unfold len. lia.
Qed.

Lemma write_all_ok data c :
  accepting c →
  ∃ c', write_all data c = (Ok tt, c') ∧ valid c' = valid c ∧ incoming c' = incoming c ∧
        outgoing c' = outgoing c ++ data ∧ accepting c'.
Proof.
  intros Hs. unfold write_all.
  destruct (write_all_loop_ok (length (sends c) + 2) data c Hs) as (c' & H & Hs'); [by left|].
  exists c'. split; [done|].
  pose proof (write_all_spec data c (Ok tt) c' H) as (? & ? & [[_ ?]|(w & ? & ? & ? & _)]); done.
Qed.

(** Carriage returns do not count towards the limit: a line of any length on
    the wire is accepted. *)
Lemma read_line_any_length n :
  ∃ c', read_line 1 {| valid := true; outgoing := []; sends := [];
                       incoming := [Arrives (replicate n CR ++ str "a" ++ [LF])] |} = (Ok (str "a"), c').
Proof.
  assert (strip_cr (replicate n CR ++ str "a") = str "a") as Hs.
  { induction n as [|n IH]; [done|]. exact IH. }
  destruct (read_line_spec 1 {| valid := true; outgoing := []; sends := [];
      incoming := [Arrives (replicate n CR ++ str "a" ++ [LF])] |} (replicate n CR ++ str "a") [])
    as (c' & Hc & _).
  - done.
  - done.
  - repeat constructor.
  - cbn. by rewrite app_nil_r, <-app_assoc.
  - apply Forall_app. split; [apply Forall_replicate; by right|]. repeat constructor; vm_compute; discriminate.
  - by rewrite Hs.
  - exists c'. by rewrite <-Hs at 2.
Qed.

(** ** Properties *)

(** C40: a header line is read back whatever the segmentation of the stream,
    the interruptions and the carriage returns in it, and the bytes after the
    line feed are left for the next read; in any event the call ends, sends
    nothing, and what it returns is printable and within the limit. *)
Theorem read_line_exact max c :
  valid c = true → 1 ≤ max ≤ kMaxHeaderBytes →
  (∀ text rest,
     clean (incoming c) → payload (incoming c) = text ++ LF :: rest →
     Forall (λ c, 32 ≤ code c ≤ 126 ∨ c = CR) text → len (strip_cr text) ≤ max →
     ∃ c', read_line max c = (Ok (strip_cr text), c') ∧
           payload (incoming c') = rest ∧ same_output c c') ∧
  (∀ r c', read_line max c = (r, c') →
     r ≠ Throw Diverged ∧ same_output c c' ∧
     ∀ s, r = Ok s → len s ≤ max ∧ Forall (λ c, 32 ≤ code c ≤ 126) s).
Proof.
  intros Hv Hm. split.
  - intros text rest Hc Hp Ht Hl.
    destruct (read_line_spec max c text rest) as (c' & ? & _ & ? & ?); eauto.
  - intros r c'. unfold read_line. rewrite Hv.
    destruct (Z.eqb_spec max 0); [lia|]. rewrite (proj2 (gtb_false _ _)) by lia. cbn [negb orb].
    intros H. apply read_line_loop_no_diverge in H as (? & ? & Hs); [|unfold recv_fuel; lia].
    split_and!; [done|done|]. intros s ->. apply Hs; [done|rewrite len_nil; lia|constructor].
Qed.

Definition example_conn : conn :=
  {| valid := true; outgoing := []; sends := [Interrupted; Short 2];
     incoming := [Arrives (str "O"); RecvInterrupted; Arrives (str "K" ++ [CR; LF] ++ str "re");
                  Arrives (str "st")] |}.

Lemma read_line_exact_witness :
  ∃ c', read_line 8192 example_conn = (Ok (str "OK"), c') ∧
        payload (incoming c') = str "rest" ∧ same_output example_conn c'.
Proof.
  destruct (read_line_exact 8192 example_conn) as [H _]; [reflexivity|unfold kMaxHeaderBytes; lia|].
  apply (H (str "OK" ++ [CR]) (str "rest")); [repeat constructor|reflexivity| |vm_compute; discriminate].
  apply Forall_forall. intros c Hc.
  repeat (apply elem_of_cons in Hc as [->|Hc]; [first [left; vm_compute; split; discriminate | right; reflexivity]|]).
  by apply elem_of_nil in Hc.
Defined.

