(* ===== verification/Net.v ===== *)
(** * Net: outgoing connections

    What a client operation sees of the network: the outcome of each
    [connect_tcp] call it will make, in order, and the log of the connections
    it used, with their endpoint and their state when the [Socket] was
    destroyed.  [connect_tcp] itself is modelled in Sockets. *)

From S2P Require Export Prelude.
From S2P Require Import Protocol Stream.

#[local] Open Scope Z_scope.

(** ** Definitions *)

Record net := {
  dials : list (res conn);
  used : list (Endpoint * conn)
}.

(** [const auto connection = connect_tcp(endpoint, timeout)] and the rest of
    its scope, [m]. *)
Definition with_connection {A} (endpoint : Endpoint) (m : io conn A) : io net A := λ n,
  match dials n with
  | [] => (throw "Unable to connect", n)
  | Throw e :: ds => (Throw e, {| dials := ds; used := used n |})
  | Ok c :: ds =>
      let '(r, c') := m c in (r, {| dials := ds; used := used n ++ [(endpoint, c')] |})
  end.

(** A fresh connection to a peer that will send [i]. *)
Definition fresh (i : list recv_event) : conn :=
  {| valid := true; incoming := i; outgoing := []; sends := [] |}.

(** [connect_tcp] throws [Error]s only, and a socket it returns is open and
    unused. *)
Definition dial_ok (d : res conn) : Prop :=
  match d with
  | Ok c => valid c = true ∧ outgoing c = []
  | Throw (Error _) => True
  | Throw _ => False
  end.

(** ** Lemmas *)

Lemma with_connection_ok {A} ep (m : io conn A) n c ds r c' :
  dials n = Ok c :: ds → m c = (r, c') →
  with_connection ep m n = (r, {| dials := ds; used := used n ++ [(ep, c')] |}).
Proof. intros Hd Hm. unfold with_connection. by rewrite Hd, Hm. Qed.

