(* ===== verification/Manifest.v ===== *)
(** * Manifest: [src/src/manifest.cpp]

    The immutable description of a shared file: its name, size, chunk size and
    hashes; hashing a file into a manifest, the text format, validation, and
    the arithmetic of chunk offsets and sizes. *)

From S2P Require Export Prelude.
From S2P Require Import Text Iostream Crypto.

#[local] Open Scope Z_scope.

(** ** Definitions *)

Record Manifest := {
  file_name : bytes;
  file_size_bytes : Z;
  chunk_size_bytes : Z;
  file_sha256 : bytes;
  chunk_hashes : list bytes
}.

Definition kMaxChunkSize : Z := 4 * 1024 * 1024.
Definition kMaxChunkCount : Z := 1000000.

(** [parse_unsigned<Number>] for a [w]-bit [Number]. *)
Definition parse_unsigned (w : Z) (value : bytes) (field : string) : res Z :=
  parse_field w value (str "Manifest field is empty: " ++ str field)
    (str "Manifest field is not an unsigned integer: " ++ str field).

Definition expected_chunk_count (file_size chunk_size : Z) : Z :=
  if file_size =? 0 then 0 else u64 (u64 (file_size - 1) / chunk_size + 1).

Definition safe_file_name (name : bytes) : bool :=
  negb (bool_decide (name = [])) && negb (beq name (str ".")) && negb (beq name (str "..")) &&
  bool_decide (split_at "/" name = None) && bool_decide (split_at "\" name = None) &&
  bool_decide (split_at (chr 0) name = None).

Definition read_line (input : ifstream) (path : bytes) : res (bytes * ifstream) :=
  read_text_line (str "Unexpected end of manifest: " ++ path) input.

Definition require_field (line : bytes) (field : string) : res bytes :=
  require_prefix line field (str "Expected manifest field: " ++ str field).

(** The hash loop of [validate]. *)
Fixpoint validate_hashes (hashes : list bytes) : res unit :=
  match hashes with
  | [] => Ok tt
  | hash :: hashes' =>
      if negb (is_sha256_hex hash)
      then throw "Manifest chunk hash is not a lowercase SHA-256 digest"
      else validate_hashes hashes'
  end.

Definition validate (m : Manifest) : res unit :=
  if negb (safe_file_name (file_name m))
  then throw "Manifest file name is not a safe basename"
  else if (chunk_size_bytes m =? 0) || (chunk_size_bytes m >? kMaxChunkSize)
  then throw "Manifest chunk size is outside the allowed range"
  else if negb (is_sha256_hex (file_sha256 m))
  then throw "Manifest file hash is not a lowercase SHA-256 digest"
  else
    let expected := expected_chunk_count (file_size_bytes m) (chunk_size_bytes m) in
    if (expected >? kMaxChunkCount) || negb (len (chunk_hashes m) =? expected)
    then throw "Manifest chunk count does not match file size"
    else validate_hashes (chunk_hashes m).

(** The output of [serialize] for the chunk [index] onwards. *)
Fixpoint serialize_chunks (index : Z) (hashes : list bytes) : bytes :=
  match hashes with
  | [] => []
  | hash :: hashes' =>
      str "chunk=" ++ to_string index ++ [COMMA] ++ hash ++ [LF] ++
      serialize_chunks (index + 1) hashes'
  end.

Definition serialize (m : Manifest) : res bytes :=
  let! _ := validate m in
  Ok (str "SWARMSYNC_MANIFEST_V1" ++ [LF] ++
      str "file_name=" ++ hex_encode (file_name m) ++ [LF] ++
      str "file_size=" ++ to_string (file_size_bytes m) ++ [LF] ++
      str "chunk_size=" ++ to_string (chunk_size_bytes m) ++ [LF] ++
      str "file_sha256=" ++ file_sha256 m ++ [LF] ++
      str "chunk_count=" ++ to_string (len (chunk_hashes m)) ++ [LF] ++
      serialize_chunks 0 (chunk_hashes m)).

(** One [chunk=<index>,<hash>] entry. *)
Definition parse_chunk_entry (entry : bytes) : res (Z * bytes) :=
  match split_at COMMA entry with
  | None => throw "Manifest chunk entry is missing a comma"
  | Some (index_text, hash) =>
      let! index := parse_unsigned 32 index_text "chunk index" in
      Ok (index, hash)
  end.

(** The loop over the declared number of entries; the [std::map] of the
    source is a [gmap]. *)
Fixpoint load_chunks (path : bytes) (n : nat) (input : ifstream) (chunks : gmap Z bytes)
    : res (gmap Z bytes * ifstream) :=
  match n with
  | O => Ok (chunks, input)
  | S n' =>
      let! ' (line, input) := read_line input path in
      let! entry := require_field line "chunk" in
      let! ' (index, hash) := parse_chunk_entry entry in
      match chunks !! index with
      | Some _ => throw "Manifest contains a duplicate chunk index"
      | None => load_chunks path n' input (<[index := hash]> chunks)
      end
  end.

(** [chunks] read out in index order. *)
Fixpoint collect_chunks (n : nat) (index : Z) (chunks : gmap Z bytes)
    (hashes : list bytes) : res (list bytes) :=
  match n with
  | O => Ok hashes
  | S n' =>
      match chunks !! index with
      | None => throw "Manifest chunk indexes are not contiguous"
      | Some hash => collect_chunks n' (index + 1) chunks (hashes ++ [hash])
      end
  end.

(** [Manifest::load]; [file] is the content at [path], if it opens. *)
Definition load (path : bytes) (file : option bytes) : res Manifest :=
  let input := open_ifstream file in
  if negb (is_ok_stream input)
  then Throw (Error (str "Unable to open manifest: " ++ path))
  else
    let! ' (line, input) := read_line input path in
    if negb (beq line (str "SWARMSYNC_MANIFEST_V1")) then throw "Unsupported manifest format"
    else
      let! ' (line, input) := read_line input path in
      let! text := require_field line "file_name" in
      let! name := hex_decode text in
      let! ' (line, input) := read_line input path in
      let! text := require_field line "file_size" in
      let! size := parse_unsigned 64 text "file_size" in
      let! ' (line, input) := read_line input path in
      let! text := require_field line "chunk_size" in
      let! csize := parse_unsigned 32 text "chunk_size" in
      let! ' (line, input) := read_line input path in
      let! digest := require_field line "file_sha256" in
      let! ' (line, input) := read_line input path in
      let! text := require_field line "chunk_count" in
      let! declared_count := parse_unsigned 32 text "chunk_count" in
      if declared_count >? kMaxChunkCount then throw "Manifest declares too many chunks"
      else
        let! ' (chunks, input) := load_chunks path (Z.to_nat declared_count) input ∅ in
        let '(trailing, _, _) := is_getline input in
        if trailing then throw "Manifest contains unexpected trailing data"
        else
          let! hashes := collect_chunks (Z.to_nat declared_count) 0 chunks [] in
          let m := {| file_name := name; file_size_bytes := size; chunk_size_bytes := csize;
                      file_sha256 := digest; chunk_hashes := hashes |} in
          let! _ := validate m in
          Ok m.

Definition chunk_size (m : Manifest) (index : Z) : res Z :=
  let! _ := validate m in
  if index >=? len (chunk_hashes m) then throw "Chunk index is outside the manifest"
  else
    let offset := u64 (index * chunk_size_bytes m) in
    let remaining := u64 (file_size_bytes m - offset) in
    Ok (u32 (Z.min remaining (chunk_size_bytes m))).

Definition chunk_offset (m : Manifest) (index : Z) : res Z :=
  if index >=? len (chunk_hashes m) then throw "Chunk index is outside the manifest"
  else Ok (u64 (index * chunk_size_bytes m)).

Section Hashing.
Context `{Evp}.

Definition swarm_id (m : Manifest) : res bytes :=
  let! text := serialize m in
  sha256_hex text.

(** [Manifest::from_file]: [stat] is [file_size] of [path] when it is a
    regular file, [file] its content when it opens. *)
Definition from_file (path : bytes) (stat : option Z) (file : option bytes)
    (size : Z) : res Manifest :=
  if (size =? 0) || (size >? kMaxChunkSize)
  then throw "Chunk size must be between 1 and 4194304 bytes"
  else match stat with
  | None => Throw (Error (str "Manifest source must be a regular file: " ++ path))
  | Some file_size =>
      let count := expected_chunk_count file_size size in
      if count >? kMaxChunkCount
      then throw "File creates more chunks than the configured manifest limit"
      else
        let input := open_ifstream file in
        if negb (is_ok_stream input)
        then Throw (Error (str "Unable to open manifest source: " ++ path))
        else
          let! digest := sha256_file path file in
          let! ' (hashes, input) :=
            while_read (read_fuel input) size
              (λ hashes block, let! h := sha256_hex block in Ok (hashes ++ [h])) input [] in
          if negb (is_eofbit input)
          then Throw (Error (str "Unable to read manifest source: " ++ path))
          else
            let m := {| file_name := path_filename path; file_size_bytes := file_size;
                        chunk_size_bytes := size; file_sha256 := digest;
                        chunk_hashes := hashes |} in
            let! _ := validate m in
            Ok m
  end.

End Hashing.

(** *** Specifications *)

(** A name of a file in whatever directory it is joined to. *)
Definition plain_basename (name : bytes) : Prop :=
  name ≠ [] ∧ name ≠ str "." ∧ name ≠ str ".." ∧
  "/"%char ∉ name ∧ "\"%char ∉ name ∧ chr 0 ∉ name.

Lemma safe_file_name_spec name : safe_file_name name = true → plain_basename name.
Proof.
  unfold safe_file_name, beq. intros H. reflect.
  repeat match goal with H : split_at _ _ = None |- _ => apply split_at_none in H end. by split_and!.
Qed.

(** A manifest the program accepts: [validate] succeeds and the fields are in
    the range of their types. *)
Definition manifest_ok (m : Manifest) : Prop :=
  validate m = Ok tt ∧ 0 ≤ file_size_bytes m < 2 ^ 64 ∧ 0 ≤ chunk_size_bytes m < 2 ^ 32.

(** The bytes of chunk [index] in a file with the manifest's geometry. *)
Definition chunk_slice (m : Manifest) (content : bytes) (index : Z) : bytes :=
  take (Z.to_nat (chunk_size_bytes m))
    (drop (Z.to_nat (index * chunk_size_bytes m)) content).

(** ** Validation *)

Lemma expected_chunk_count_spec size csize :
  0 ≤ size < 2 ^ 64 → 1 ≤ csize →
  expected_chunk_count size csize = (if size =? 0 then 0 else (size - 1) / csize + 1) ∧
  0 ≤ expected_chunk_count size csize.
Proof.
  intros Hs Hc. unfold expected_chunk_count. destruct (Z.eqb_spec size 0); [done|].
  rewrite (u64_small (size - 1)) by lia.
  assert (0 ≤ (size - 1) / csize) by (apply Z.div_pos; lia).
  assert ((size - 1) / csize ≤ size - 1) by (apply Z.div_le_upper_bound; nia).
  rewrite u64_small by lia. lia.
Qed.

Lemma validate_hashes_spec l u :
  validate_hashes l = Ok u ↔ Forall (λ h, is_sha256_hex h = true) l.
Proof.
  destruct u. induction l as [|h l IH]; simpl; [naive_solver|].
  rewrite Forall_cons, <-IH. destruct (is_sha256_hex h); naive_solver.
Qed.

Lemma validate_spec m :
  validate m = Ok tt ↔
  safe_file_name (file_name m) = true ∧
  chunk_size_bytes m ≠ 0 ∧ chunk_size_bytes m ≤ kMaxChunkSize ∧
  is_sha256_hex (file_sha256 m) = true ∧
  len (chunk_hashes m) = expected_chunk_count (file_size_bytes m) (chunk_size_bytes m) ∧
  len (chunk_hashes m) ≤ kMaxChunkCount ∧
  Forall (λ h, is_sha256_hex h = true) (chunk_hashes m).
Proof.
  unfold validate. destruct (safe_file_name (file_name m)); simpl; [|naive_solver].
  destruct (Z.eqb_spec (chunk_size_bytes m) 0); simpl; [naive_solver|].
  destruct (chunk_size_bytes m >? kMaxChunkSize) eqn:Hmax.
  { apply gtb_true in Hmax. split; [done|]. naive_solver lia. }
  apply gtb_false in Hmax.
  destruct (is_sha256_hex (file_sha256 m)); simpl; [|naive_solver].
  destruct (expected_chunk_count _ _ >? kMaxChunkCount) eqn:Hc; simpl.
  { apply gtb_true in Hc. split; [done|]. naive_solver lia. }
  apply gtb_false in Hc.
  destruct (Z.eqb_spec (len (chunk_hashes m))
    (expected_chunk_count (file_size_bytes m) (chunk_size_bytes m))) as [Heq|]; simpl; [|naive_solver].
  rewrite validate_hashes_spec. naive_solver lia.
Qed.

Lemma validate_hashes_no_diverge l : validate_hashes l ≠ Throw Diverged.
Proof. induction l as [|h l IH]; simpl; [done|]. by case_match. Qed.

Lemma validate_no_diverge m : validate m ≠ Throw Diverged.
Proof. unfold validate. do 4 (case_match; [done|]). apply validate_hashes_no_diverge. Qed.

#[export] Hint Resolve validate_no_diverge : no_diverge.

(** The facts the arithmetic needs, from an accepted manifest. *)
Lemma manifest_ok_geometry m :
  manifest_ok m →
  1 ≤ chunk_size_bytes m ≤ kMaxChunkSize ∧ len (chunk_hashes m) ≤ kMaxChunkCount ∧
  len (chunk_hashes m) =
    if file_size_bytes m =? 0 then 0 else (file_size_bytes m - 1) / chunk_size_bytes m + 1.
Proof.
  intros (Hv & Hs & Hc). apply validate_spec in Hv as (_ & ? & ? & _ & Hlen & ? & _).
  destruct (expected_chunk_count_spec (file_size_bytes m) (chunk_size_bytes m)); lia.
Qed.

(** ** Chunk geometry *)

(** An index in range starts strictly inside the file. *)
Lemma chunk_start m i :
  manifest_ok m → 0 ≤ i < len (chunk_hashes m) →
  0 ≤ i * chunk_size_bytes m < file_size_bytes m.
Proof.
  intros Hm Hi. destruct (manifest_ok_geometry m Hm) as (Hc & _ & Hlen).
  destruct Hm as (_ & Hs & _). destruct (Z.eqb_spec (file_size_bytes m) 0); [lia|].
  pose proof (Z.mul_div_le (file_size_bytes m - 1) (chunk_size_bytes m) ltac:(lia)). nia.
Qed.

Lemma chunk_offset_spec m i :
  manifest_ok m → 0 ≤ i < len (chunk_hashes m) →
  chunk_offset m i = Ok (i * chunk_size_bytes m).
Proof.
  intros Hm Hi. unfold chunk_offset.
  destruct (i >=? len (chunk_hashes m)) eqn:E; [rewrite Z.geb_leb, Z.leb_le in E; lia|].
  pose proof (chunk_start m i Hm Hi). destruct Hm as (_ & ? & _).
  by rewrite u64_small by lia.
Qed.

Lemma chunk_size_spec m i :
  manifest_ok m → 0 ≤ i < len (chunk_hashes m) →
  chunk_size m i =
    Ok (Z.min (file_size_bytes m - i * chunk_size_bytes m) (chunk_size_bytes m)).
Proof.
  intros Hm Hi. unfold chunk_size.
  destruct (manifest_ok_geometry m Hm) as (Hc & _).
  pose proof (chunk_start m i Hm Hi). destruct Hm as (-> & Hs & Hcs). simpl.
  destruct (i >=? len (chunk_hashes m)) eqn:E; [rewrite Z.geb_leb, Z.leb_le in E; lia|].
  rewrite (u64_small (i * _)) by lia. rewrite u64_small by lia.
  unfold kMaxChunkSize in Hc. rewrite u32_small by lia. done.
Qed.

Lemma chunk_index_error m i :
  manifest_ok m → len (chunk_hashes m) ≤ i →
  chunk_size m i = throw "Chunk index is outside the manifest" ∧
  chunk_offset m i = throw "Chunk index is outside the manifest".
Proof.
  intros (Hv & _) Hi. unfold chunk_size, chunk_offset. rewrite Hv. simpl.
  destruct (i >=? len (chunk_hashes m)) eqn:E; [done|].
  rewrite Z.geb_leb, Z.leb_gt in E. lia.
Qed.

(** The slice of a chunk has the size [chunk_size] computes. *)
Lemma chunk_slice_length m content i n :
  manifest_ok m → 0 ≤ i < len (chunk_hashes m) → len content = file_size_bytes m →
  chunk_size m i = Ok n → len (chunk_slice m content i) = n ∧ 1 ≤ n ≤ kMaxChunkSize.
Proof.
  intros Hm Hi Hlen. rewrite chunk_size_spec by done. intros [= <-].
  destruct (manifest_ok_geometry m Hm) as (Hc & _).
  pose proof (chunk_start m i Hm Hi). unfold chunk_slice, len in *.
  rewrite length_take, length_drop. lia.
Qed.

(** Reading block by block visits the chunk slices. *)
Lemma blocks_chunk_slice m content :
  manifest_ok m → len content = file_size_bytes m →
  length (blocks (Z.to_nat (chunk_size_bytes m)) content) = length (chunk_hashes m) ∧
  ∀ i b, blocks (Z.to_nat (chunk_size_bytes m)) content !! i = Some b →
         b = chunk_slice m content (Z.of_nat i).
Proof.
  intros Hm Hlen. destruct (manifest_ok_geometry m Hm) as (Hc & _ & Hn). split.
  - pose proof (blocks_length (Z.to_nat (chunk_size_bytes m)) content ltac:(lia)) as Hb.
    rewrite Hlen, Z2Nat.id in Hb by lia. rewrite <-Hn in Hb. unfold len in Hb. lia.
  - intros i b Hb. apply blocks_lookup in Hb as [-> _]; [|lia].
    unfold chunk_slice. do 2 f_equal. lia.
Qed.

(** ** The text format *)

Lemma sha256_hex_plain d : is_sha256_hex d = true → plain d.
Proof.
  intros [_ Hd]%is_sha256_hex_spec. eapply Forall_impl; [exact Hd|]. simpl. lia.
Qed.

Lemma hex_encode_plain s : plain (hex_encode s).
Proof.
  pose proof (hex_encode_lower s) as H. rewrite forallb_forall in H.
  apply Forall_forall. intros c Hc%list_elem_of_In. specialize (H c Hc).
  rewrite orb_true_iff, !in_range_spec in H.
  change (code "0") with 48 in H. change (code "a") with 97 in H. lia.
Qed.

Lemma serialize_chunks_cons i h l :
  serialize_chunks i (h :: l) =
  str "chunk" ++ str "=" ++ (to_string i ++ COMMA :: h) ++ LF :: serialize_chunks (i + 1) l.
Proof.
  cbn [serialize_chunks]. change (str "chunk=") with (str "chunk" ++ str "=").
  by rewrite <-!app_assoc.
Qed.

Lemma parse_chunk_entry_spec i h :
  0 ≤ i < 2 ^ 32 → parse_chunk_entry (to_string i ++ COMMA :: h) = Ok (i, h).
Proof.
  intros Hi. unfold parse_chunk_entry.
  rewrite split_at_app by (apply digits_not_in; [done|apply to_string_digits; lia]).
  unfold parse_unsigned. by rewrite parse_field_to_string.
Qed.

(** Loading the serialised entries fills the map at the consecutive indexes. *)
Lemma load_chunks_serialize path hashes idx input chunks rest :
  Forall (λ h, is_sha256_hex h = true) hashes →
  0 ≤ idx → idx + len hashes ≤ 2 ^ 32 →
  (∀ j, idx ≤ j → chunks !! j = None) →
  at_rest input (serialize_chunks idx hashes ++ rest) →
  ∃ chunks' input',
    load_chunks path (length hashes) input chunks = Ok (chunks', input') ∧
    at_rest input' rest ∧
    (∀ j, 0 ≤ j < len hashes → chunks' !! (idx + j) = hashes !! Z.to_nat j) ∧
    (∀ j, j < idx → chunks' !! j = chunks !! j).
Proof.
  revert idx input chunks.
  induction hashes as [|h l IH]; intros idx input chunks Hh Hidx Hbound Hfree Hin.
  { exists chunks, input. split_and!; try done. unfold len; simpl. lia. }
  apply Forall_cons in Hh as [Hh Hl]. rewrite len_cons in Hbound. pose proof (len_nonneg l).
  rewrite serialize_chunks_cons, <-!app_assoc in Hin.
  change ((LF :: serialize_chunks (idx + 1) l) ++ rest)
    with (LF :: (serialize_chunks (idx + 1) l ++ rest)) in Hin.
  destruct (read_field_line (str "Unexpected end of manifest: " ++ path) input "chunk"
              (to_string idx ++ COMMA :: h) (serialize_chunks (idx + 1) l ++ rest))
    as (i1 & Hread & Hi1).
  { by rewrite <-!app_assoc. }
  { by apply plain_str. }
  { apply plain_app. split; [by apply plain_to_string|].
    constructor; [done|by apply sha256_hex_plain]. }
  cbn [length load_chunks]. unfold read_line, require_field.
  rewrite Hread. cbn [rbind]. rewrite require_prefix_app. cbn [rbind].
  rewrite parse_chunk_entry_spec by lia. cbn [rbind]. rewrite Hfree by lia.
  destruct (IH (idx + 1) i1 (<[idx:=h]> chunks)) as (c' & i' & Hload & Hrest & Hnew & Hold).
  { done. } { lia. } { lia. }
  { intros j Hj. rewrite lookup_insert_ne by lia. apply Hfree. lia. }
  { done. }
  exists c', i'. split_and!; [done|done| |].
  - intros j Hj. rewrite len_cons in Hj. destruct (decide (j = 0)) as [->|].
    + rewrite Z.add_0_r, Hold by lia. by rewrite lookup_insert_eq.
    + replace (idx + j) with (idx + 1 + (j - 1)) by lia. rewrite Hnew by lia.
      replace (Z.to_nat j) with (S (Z.to_nat (j - 1))) by lia. done.
  - intros j Hj. rewrite Hold by lia. by rewrite lookup_insert_ne by lia.
Qed.

Lemma collect_chunks_spec n idx chunks acc hs :
  length hs = n →
  (∀ j, 0 ≤ j < Z.of_nat n → chunks !! (idx + j) = hs !! Z.to_nat j) →
  collect_chunks n idx chunks acc = Ok (acc ++ hs).
Proof.
  revert idx acc hs. induction n as [|n IH]; intros idx acc hs Hlen H; simpl.
  { destruct hs; [by rewrite app_nil_r|done]. }
  destruct hs as [|h hs]; [done|].
  specialize (H 0 ltac:(lia)) as H0. rewrite Z.add_0_r in H0. rewrite H0. simpl.
  rewrite (IH _ _ hs); [by rewrite <-app_assoc|simpl in Hlen; lia|].
  intros j Hj. replace (idx + 1 + j) with (idx + (j + 1)) by lia. rewrite H by lia.
  by replace (Z.to_nat (j + 1)) with (S (Z.to_nat j)) by lia.
Qed.

Lemma serialize_text m :
  serialize m = let! _ := validate m in
  Ok (str "SWARMSYNC_MANIFEST_V1" ++ LF ::
      str "file_name" ++ str "=" ++ hex_encode (file_name m) ++ LF ::
      str "file_size" ++ str "=" ++ to_string (file_size_bytes m) ++ LF ::
      str "chunk_size" ++ str "=" ++ to_string (chunk_size_bytes m) ++ LF ::
      str "file_sha256" ++ str "=" ++ file_sha256 m ++ LF ::
      str "chunk_count" ++ str "=" ++ to_string (len (chunk_hashes m)) ++ LF ::
      serialize_chunks 0 (chunk_hashes m)).
Proof. done. Qed.

(** Reads the next [field=value] line of the goal. *)
Ltac read_field msg Hin :=
  match type of Hin with
  | at_rest ?i (str ?f ++ str "=" ++ ?v ++ LF :: ?rest) =>
      let i' := fresh "i" in let Hr := fresh "Hr" in let Hn := fresh "Hin" in
      destruct (read_field_line msg i f v rest Hin)
        as (i' & Hr & Hn);
      [by apply plain_str | | rewrite Hr; cbn [rbind];
         rewrite require_prefix_app; cbn [rbind]; clear Hin Hr; rename Hn into Hin]
  end.

Lemma load_serialize path m text :
  manifest_ok m → serialize m = Ok text → load path (Some text) = Ok m.
Proof.
  intros (Hv & Hsize & Hcs) Htext. rewrite serialize_text, Hv in Htext.
  cbn [rbind] in Htext. apply Ok_inj in Htext as <-.
  apply validate_spec in Hv as Hv'. destruct Hv' as (_ & _ & _ & Hsha & _ & Hcount & Hhashes).
  pose proof (len_nonneg (chunk_hashes m)) as Hnn. unfold kMaxChunkCount in Hcount.
  unfold load. change (negb (is_ok_stream _)) with false. cbv iota.
  unfold read_line, require_field. set (msg := str "Unexpected end of manifest: " ++ path).
  match goal with |- context [open_ifstream (Some ?t)] => pose proof (open_at_rest t) as Hin end.
  destruct (read_text_line_spec msg _ (str "SWARMSYNC_MANIFEST_V1") _ Hin) as (i0 & Hr0 & Hin0);
    [by apply plain_not_in; [apply plain_str|]..|].
  rewrite Hr0. cbn [rbind]. rewrite beq_refl. cbn [negb]. clear Hin Hr0.
  rename Hin0 into Hin.
  read_field msg Hin; [apply hex_encode_plain|]. rewrite hex_decode_encode. cbn [rbind].
  read_field msg Hin; [apply plain_to_string; lia|].
  unfold parse_unsigned. rewrite parse_field_to_string by lia. cbn [rbind].
  read_field msg Hin; [apply plain_to_string; lia|].
  rewrite parse_field_to_string by lia. cbn [rbind].
  read_field msg Hin; [by apply sha256_hex_plain|].
  read_field msg Hin; [by apply plain_to_string|].
  rewrite parse_field_to_string by lia. cbn [rbind].
  rewrite (proj2 (gtb_false _ _)) by (unfold kMaxChunkCount; lia).
  replace (Z.to_nat (len (chunk_hashes m))) with (length (chunk_hashes m)) by (unfold len; lia).
  rewrite <-(app_nil_r (serialize_chunks 0 (chunk_hashes m))) in Hin.
  destruct (load_chunks_serialize path (chunk_hashes m) 0 i4 ∅ [])
    as (chunks & i' & Hload & Hend & Hnew & _); [done|lia|lia| |exact Hin|].
  { intros. apply lookup_empty. }
  rewrite Hload. cbn [rbind]. destruct (getline_end i' Hend) as (l & i'' & ->).
  rewrite (collect_chunks_spec _ 0 chunks [] (chunk_hashes m)); [|done|intros; by apply Hnew].
  cbn [rbind app]. destruct m; simpl in *. by rewrite Hv.
Qed.

Lemma serialize_ok m : manifest_ok m → ∃ text, serialize m = Ok text.
Proof. intros (Hv & _). unfold serialize. rewrite Hv. simpl. eauto. Qed.

(** The text determines the manifest. *)
Lemma serialize_inj m1 m2 text :
  manifest_ok m1 → manifest_ok m2 → serialize m1 = Ok text → serialize m2 = Ok text → m1 = m2.
Proof.
  intros H1 H2 Ht1 Ht2. apply (Ok_inj m1 m2).
  by rewrite <-(load_serialize [] m1 text H1 Ht1), <-(load_serialize [] m2 text H2 Ht2).
Qed.

(** Whatever the text, a manifest that loads is one [validate] accepts. *)
Lemma load_sound path file m : load path file = Ok m → manifest_ok m.
Proof.
  unfold load. case_match; [done|]. intros H1.
  bind_skip H1 x0. destruct x0 as [line i]. case_match; [done|].
  bind_skip H1 x1. destruct x1. bind_skip H1 t1. bind_skip H1 name.
  bind_skip H1 x2. destruct x2. bind_skip H1 t2. bind_inv H1 fsize Hsize.
  bind_skip H1 x3. destruct x3. bind_skip H1 t3. bind_inv H1 csize Hcsize.
  bind_skip H1 x4. destruct x4. bind_skip H1 digest.
  bind_skip H1 x5. destruct x5. bind_skip H1 t5. bind_skip H1 count.
  case_match; [done|]. bind_skip H1 x6. destruct x6 as [chunks i6].
  destruct (is_getline i6) as [[[] ?] ?]; [done|].
  bind_skip H1 hashes. bind_inv H1 u Hv. apply Ok_inj in H1 as <-. destruct u.
  apply parse_field_range in Hsize, Hcsize. done.
Qed.

Lemma load_chunks_no_diverge path n i chunks : load_chunks path n i chunks ≠ Throw Diverged.
Proof.
  revert i chunks. induction n as [|n IH]; intros i chunks; [done|]. cbn [load_chunks].
  unfold read_line, require_field, parse_chunk_entry, parse_unsigned. no_diverge; apply IH.
Qed.

Lemma collect_chunks_no_diverge n j chunks acc : collect_chunks n j chunks acc ≠ Throw Diverged.
Proof.
  revert j acc. induction n as [|n IH]; intros j acc; [done|]. simpl. case_match; [apply IH|done].
Qed.

#[export] Hint Resolve load_chunks_no_diverge collect_chunks_no_diverge : no_diverge.

Lemma load_no_diverge path file : load path file ≠ Throw Diverged.
Proof.
  unfold load, read_line, require_field, parse_unsigned. no_diverge.
Qed.

Lemma serialize_no_diverge m : serialize m ≠ Throw Diverged.
Proof. unfold serialize. no_diverge. Qed.

Lemma chunk_size_no_diverge m i : chunk_size m i ≠ Throw Diverged.
Proof. unfold chunk_size. no_diverge. Qed.

#[export] Hint Resolve load_no_diverge serialize_no_diverge chunk_size_no_diverge : no_diverge.

(** ** Hashing *)

Section HashingLemmas.
Context `{HE : Evp, !EvpLaws}.

Lemma rfold_hash l acc :
  rfold (λ hashes block, let! h := sha256_hex block in Ok (hashes ++ [h])) acc l =
  Ok (acc ++ map sha256 l).
Proof.
  revert acc. induction l as [|b l IH]; intros acc; simpl; [by rewrite app_nil_r|].
  rewrite sha256_hex_spec. simpl. by rewrite IH, <-app_assoc.
Qed.

(** The manifest [from_file] builds, before it is validated. *)
Definition hashed_manifest (path content : bytes) (size : Z) : Manifest :=
  {| file_name := path_filename path; file_size_bytes := len content;
     chunk_size_bytes := size; file_sha256 := sha256 content;
     chunk_hashes := map sha256 (blocks (Z.to_nat size) content) |}.

Lemma from_file_spec path content size :
  1 ≤ size ≤ kMaxChunkSize → len content < 2 ^ 64 →
  expected_chunk_count (len content) size ≤ kMaxChunkCount →
  from_file path (Some (len content)) (Some content) size =
    let! _ := validate (hashed_manifest path content size) in
    Ok (hashed_manifest path content size).
Proof.
  intros Hsize Hlen Hcount. unfold from_file.
  destruct (Z.eqb_spec size 0); [lia|]. rewrite (proj2 (gtb_false size _)) by lia. cbn [orb].
  rewrite (proj2 (gtb_false _ kMaxChunkCount)) by lia.
  change (negb (is_ok_stream (open_ifstream (Some content)))) with false. cbv iota.
  rewrite sha256_file_spec. cbn [rbind].
  rewrite <-(Z2Nat.id size) at 1 by lia.
  destruct (while_read_spec (λ hashes block, let! h := sha256_hex block in Ok (hashes ++ [h]))
              (read_fuel (open_ifstream (Some content))) (Z.to_nat size)
              (open_ifstream (Some content)) content [] ltac:(lia) (open_at_rest content))
    as [(e & He & _)|(hs & i & Hhs & -> & Hi)];
    [unfold read_fuel; simpl; lia|by rewrite rfold_hash in He|].
  rewrite rfold_hash in Hhs. apply Ok_inj in Hhs as <-. cbn [rbind]. by rewrite Hi.
Qed.

Lemma hashed_manifest_valid path content size :
  1 ≤ size ≤ kMaxChunkSize → len content < 2 ^ 64 →
  expected_chunk_count (len content) size ≤ kMaxChunkCount →
  safe_file_name (path_filename path) = true →
  manifest_ok (hashed_manifest path content size).
Proof.
  intros Hsize Hlen Hcount Hname. pose proof (len_nonneg content) as Hnn.
  unfold kMaxChunkSize in Hsize.
  destruct (expected_chunk_count_spec (len content) size) as [Hexp _]; [lia|lia|].
  assert (len (map sha256 (blocks (Z.to_nat size) content)) = expected_chunk_count (len content) size)
    as Hn.
  { rewrite Hexp. unfold len at 1. rewrite length_map.
    pose proof (blocks_length (Z.to_nat size) content ltac:(lia)) as Hb.
    unfold len in Hb. unfold len. rewrite Hb, Z2Nat.id by lia. done. }
  split; [|simpl; lia]. apply validate_spec. simpl. unfold kMaxChunkSize.
  split_and!; try done; try lia; [apply sha256_is_hex|].
  apply Forall_forall. intros h [b [-> _]]%list_elem_of_fmap. apply sha256_is_hex.
Qed.

Lemma swarm_id_ok m : manifest_ok m → ∃ id, swarm_id m = Ok id ∧ is_sha256_hex id = true.
Proof.
  intros Hm. destruct (serialize_ok m Hm) as [text Ht]. unfold swarm_id. rewrite Ht. simpl.
  rewrite sha256_hex_spec. eexists. split; [done|]. apply sha256_is_hex.
Qed.

(** The hash recorded for a chunk is that of its slice. *)
Lemma hashed_manifest_chunk path content size i h :
  manifest_ok (hashed_manifest path content size) →
  chunk_hashes (hashed_manifest path content size) !! i = Some h →
  h = sha256 (chunk_slice (hashed_manifest path content size) content (Z.of_nat i)).
Proof.
  intros Hm Hh. destruct (blocks_chunk_slice _ content Hm eq_refl) as [_ Hb].
  cbn [chunk_hashes chunk_size_bytes hashed_manifest] in Hh, Hb.
  apply list_lookup_fmap_Some in Hh as (b & -> & Hbi). by rewrite <-(Hb i b Hbi).
Qed.

End HashingLemmas.

(** ** Exceptions *)

Lemma validate_errors m : errors_only (validate m).
Proof.
  unfold validate. errors_only.
  clear. induction (chunk_hashes m) as [|h l IH]; [done|].
  cbn [validate_hashes]. destruct (negb (is_sha256_hex h)); [done|apply IH].
Qed.

Lemma serialize_errors m : errors_only (serialize m).
Proof. unfold serialize. apply rbind_errors_only; [apply validate_errors|done]. Qed.

Lemma chunk_size_errors m i : errors_only (chunk_size m i).
Proof.
  unfold chunk_size. apply rbind_errors_only; [apply validate_errors|]. intros. by case_match.
Qed.

Lemma swarm_id_errors `{Evp} m : errors_only (swarm_id m).
Proof. unfold swarm_id. apply rbind_errors_only; [apply serialize_errors|]. intros. apply sha256_hex_errors. Qed.

#[export] Hint Resolve validate_errors serialize_errors chunk_size_errors swarm_id_errors : errors_only.

(** The indexes of a manifest's chunks. *)
Definition chunk_indexes (m : Manifest) : list Z :=
  map Z.of_nat (seq 0 (length (chunk_hashes m))).

Lemma concat_chunk_slices m content :
  manifest_ok m → len content = file_size_bytes m →
  concat (map (chunk_slice m content) (chunk_indexes m)) = content.
Proof.
  intros Hm Hlen. destruct (blocks_chunk_slice m content Hm Hlen) as [Hn Hb].
  destruct (manifest_ok_geometry m Hm) as [Hc _].
  rewrite <-(blocks_concat (Z.to_nat (chunk_size_bytes m)) content) at 2 by lia.
  f_equal. apply list_eq. intros i. unfold chunk_indexes. rewrite map_map.
  destruct (decide (i < length (chunk_hashes m))%nat) as [Hi|Hi].
  - rewrite list_lookup_fmap, lookup_seq_lt by done. simpl.
    destruct (lookup_lt_is_Some_2 (blocks (Z.to_nat (chunk_size_bytes m)) content) i) as [b Hbi];
      [by rewrite Hn|]. by rewrite Hbi, (Hb i b Hbi).
  - rewrite !lookup_ge_None_2; [done|by rewrite Hn; lia|].
    rewrite length_map, length_seq. lia.
Qed.

(** ** Properties *)

(** C31: loading any bytes ends, and a manifest that loads is safe: its name is
    not empty, not a dot or two, and has no slash, backslash or NUL, so that it
    names a file in the directory it is joined to; its chunk size is 1 to 4 MiB, it has the number of chunks
    its size implies and at most a million, and every hash is a lowercase
    SHA-256 digest. *)
Theorem load_safe path file :
  load path file ≠ Throw Diverged ∧
  ∀ m, load path file = Ok m →
    safe_file_name (file_name m) = true ∧ plain_basename (file_name m) ∧
    is_sha256_hex (file_sha256 m) = true ∧ 1 ≤ chunk_size_bytes m ≤ kMaxChunkSize ∧ 0 ≤ file_size_bytes m < 2 ^ 64 ∧
    len (chunk_hashes m) = (if file_size_bytes m =? 0 then 0
                            else (file_size_bytes m - 1) / chunk_size_bytes m + 1) ∧
    len (chunk_hashes m) ≤ kMaxChunkCount ∧
    Forall (λ h, is_sha256_hex h = true) (chunk_hashes m).
Proof.
  split; [apply load_no_diverge|]. intros m Hm%load_sound.
  destruct (manifest_ok_geometry m Hm) as (? & ? & ?). destruct Hm as (Hv & ? & ?).
  apply validate_spec in Hv as (? & ? & ? & ? & ? & ? & ?).
  split_and!; try (done || lia). by apply safe_file_name_spec.
Qed.

(** C30: the chunks of an accepted manifest tile the file: for every index the
    offset and the size are computed without overflow, the slice has that size
    (at least one byte, at most 4 MiB), the slices in index order concatenate
    to the content, and an index outside is an [Error] from both. *)
Theorem chunks_tile_file m content :
  manifest_ok m → len content = file_size_bytes m →
  concat (map (chunk_slice m content) (chunk_indexes m)) = content ∧
  (∀ i, 0 ≤ i < len (chunk_hashes m) →
     chunk_offset m i = Ok (i * chunk_size_bytes m) ∧
     chunk_size m i = Ok (len (chunk_slice m content i)) ∧
     1 ≤ len (chunk_slice m content i) ≤ kMaxChunkSize ∧
     i * chunk_size_bytes m + len (chunk_slice m content i) ≤ file_size_bytes m) ∧
  (∀ i, len (chunk_hashes m) ≤ i →
     chunk_size m i = throw "Chunk index is outside the manifest" ∧
     chunk_offset m i = throw "Chunk index is outside the manifest").
Proof.
  intros Hm Hlen. split; [by apply concat_chunk_slices|]. split; [|intros; by apply chunk_index_error].
  intros i Hi. pose proof (chunk_size_spec m i Hm Hi) as Hs.
  destruct (chunk_slice_length m content i _ Hm Hi Hlen Hs) as [Hl Hr].
  rewrite Hl. split_and!; [by apply chunk_offset_spec|done|lia|lia|lia].
Qed.

(** C29: hashing a regular file whose name is a safe basename gives an accepted
    manifest that describes it: its name, its size, the digest of its content,
    and for every chunk the digest of the chunk's slice. *)
Theorem from_file_describes `{HE : Evp, !EvpLaws} path content size :
  1 ≤ size ≤ kMaxChunkSize → len content < 2 ^ 64 →
  expected_chunk_count (len content) size ≤ kMaxChunkCount →
  safe_file_name (path_filename path) = true →
  ∃ m, from_file path (Some (len content)) (Some content) size = Ok m ∧ manifest_ok m ∧
    file_name m = path_filename path ∧ file_size_bytes m = len content ∧
    chunk_size_bytes m = size ∧ sha256_hex content = Ok (file_sha256 m) ∧
    ∀ i h, chunk_hashes m !! i = Some h → sha256_hex (chunk_slice m content (Z.of_nat i)) = Ok h.
Proof.
  intros Hs Hl Hc Hn. pose proof (hashed_manifest_valid path content size Hs Hl Hc Hn) as Hm.
  exists (hashed_manifest path content size). rewrite from_file_spec by done.
  destruct Hm as [Hv ?] eqn:E. rewrite Hv. split_and!; try done.
  - apply sha256_hex_spec.
  - intros i h Hh. rewrite sha256_hex_spec. f_equal.
    symmetry. by apply (hashed_manifest_chunk path content size).
Qed.

(** C37: a swarm identifier names one manifest: two accepted manifests with the
    same identifier are equal, unless their texts are a SHA-256 collision. *)
Theorem swarm_id_binds `{HE : Evp, !EvpLaws} m1 m2 id :
  manifest_ok m1 → manifest_ok m2 → swarm_id m1 = Ok id → swarm_id m2 = Ok id →
  m1 = m2 ∨ ∃ t1 t2, t1 ≠ t2 ∧ serialize m1 = Ok t1 ∧ serialize m2 = Ok t2 ∧
                     evp_sha256 t1 = evp_sha256 t2.
Proof.
  intros H1 H2 I1 I2. destruct (serialize_ok m1 H1) as [t1 T1].
  destruct (serialize_ok m2 H2) as [t2 T2]. unfold swarm_id in *. rewrite T1 in I1. rewrite T2 in I2.
  simpl in I1, I2. rewrite sha256_hex_spec in I1, I2.
  destruct (decide (t1 = t2)) as [<-|Hne]; [left; by eapply serialize_inj|right].
  exists t1, t2. split_and!; try done. apply hex_encode_inj. unfold sha256 in *. congruence.
Qed.

(** Eleven bytes in chunks of four. *)
Definition example_content : bytes := str "hello world".
Definition example_manifest : Manifest :=
  hashed_manifest (str "dir/greeting.txt") example_content 4.

Lemma example_manifest_ok : manifest_ok example_manifest.
Proof. repeat split; vm_compute; first [reflexivity | discriminate]. Qed.

Lemma chunks_tile_file_witness :
  concat (map (chunk_slice example_manifest example_content) [0; 1; 2]) = example_content ∧
  chunk_size example_manifest 2 = Ok 3.
Proof.
  destruct (chunks_tile_file example_manifest example_content example_manifest_ok eq_refl)
    as (H & Hi & _).
  split; [exact H|]. apply (Hi 2). vm_compute. split; [discriminate|reflexivity].
Defined.

Lemma from_file_describes_witness :
  ∃ m, from_file (str "dir/greeting.txt") (Some 11) (Some example_content) 4 = Ok m ∧
       file_name m = str "greeting.txt" ∧ sha256_hex example_content = Ok (file_sha256 m).
Proof.
  destruct (from_file_describes (str "dir/greeting.txt") example_content 4)
    as (m & H & _ & Hn & _ & _ & Hs & _);
    [unfold kMaxChunkSize; lia|vm_compute; reflexivity|vm_compute; discriminate|vm_compute; reflexivity|].
  exists m. split; [exact H|]. split; [exact Hn|exact Hs].
Defined.

Lemma swarm_id_binds_witness :
  ∃ id, swarm_id example_manifest = Ok id ∧
  (example_manifest = example_manifest ∨ ∃ t1 t2, t1 ≠ t2 ∧ serialize example_manifest = Ok t1 ∧
     serialize example_manifest = Ok t2 ∧ evp_sha256 t1 = evp_sha256 t2).
Proof.
  destruct (swarm_id_ok example_manifest example_manifest_ok) as (id & Hid & _).
  exists id. split; [exact Hid|].
  exact (swarm_id_binds example_manifest example_manifest id example_manifest_ok
    example_manifest_ok Hid Hid).
Defined.
