(* ===== verification/ResumeStore.v ===== *)
(** * ResumeStore: [src/src/resume_store.cpp]

    The set of verified chunks of a download: the object with its flags, its
    text format, and the atomic replacement of the file.  Every method takes
    the object's mutex, so each is one atomic operation, except [flush], which
    releases the mutex while it writes: its two critical sections are
    [flush_begin] and [flush_end]. *)

From S2P Require Export Prelude.
From S2P Require Import Hoare Text Iostream Posix.

#[local] Open Scope Z_scope.

(** ** Definitions *)

(** *** Atomic replacement of a file *)

(** The local descriptor of [write_atomic] lives next to the system. *)
Definition on_os {A L} (m : io os A) : io (os * L) A :=
  λ '(s, l), let '(r, s') := m s in (r, (s', l)).
Definition get_local {L} : io (os * L) L := λ '(s, l), (Ok l, (s, l)).
Definition set_local {L} (l : L) : io (os * L) unit := λ '(s, _), (Ok tt, (s, l)).

(** The loop over [write]; [rest] is [content.substr(offset)]. *)
Fixpoint write_loop (fuel : nat) (fd : Z) (rest : bytes) : io os unit :=
  match fuel with
  | O => raise Diverged
  | S fuel' =>
      if bool_decide (rest = []) then ret tt
      else
        do written <- sys_write fd rest;
        match written with
        | Done n => write_loop fuel' fd (drop (Z.to_nat n) rest)
        | EINTR => write_loop fuel' fd rest
        | Errno e => raise (Error (str "Unable to write temporary resume state: " ++ e))
        end
  end.

(** Each iteration uses one entry of the script, and a call after its end
    writes everything. *)
Definition write_fuel (s : os) : nat := length (script s) + 2.

(** The [try] block: the local is the variable [fd] of the source. *)
Definition write_atomic_body (path content temporary : bytes) : io (os * Z) unit :=
  do fd <- get_local;
  do _ <- on_os (λ s, write_loop (write_fuel s) fd content s);
  do synced <- on_os (sys_fsync fd);
  if failed synced
  then raise (Error (str "Unable to flush temporary resume state: " ++ strerror synced))
  else
    do closing_fd <- get_local;
    do _ <- set_local (-1);
    do closed <- on_os (sys_close closing_fd);
    if failed closed
    then raise (Error (str "Unable to close temporary resume state: " ++ strerror closed))
    else
      do renamed <- on_os (sys_rename temporary path);
      if failed renamed
      then raise (Error (str "Unable to publish resume state: " ++ strerror renamed))
      else ret tt.

(** The [catch (...)] block. *)
Definition write_atomic_cleanup (temporary : bytes) (e : exn) : io (os * Z) unit :=
  do fd <- get_local;
  do _ <- (if fd >=? 0 then on_os (sys_close fd) else ret (Done 0));
  do _ <- on_os (sys_unlink temporary);
  raise e.

Definition write_atomic (path content : bytes) : io os unit :=
  let parent := path_parent path in
  do _ <- (if negb (bool_decide (parent = [])) then create_directories parent else ret tt);
  let temporary := path ++ str ".tmp" in
  do opened <- sys_open temporary true;
  match opened with
  | Done fd => λ s,
      let '(r, (s', _)) :=
        catch_all (write_atomic_body path content temporary)
          (write_atomic_cleanup temporary) (s, fd) in
      (r, s')
  | r => raise (Error (str "Unable to open temporary resume state: " ++ strerror r))
  end.

(** *** The object *)

Record ResumeStore := {
  path_ : bytes;
  swarm_id_ : bytes;
  chunk_count_ : Z;
  completed_ : list bool;
  revision_ : Z;
  dirty_ : bool
}.

Definition parse_unsigned (w : Z) (value : bytes) (field : string) : res Z :=
  parse_field w value (str "Resume field is empty: " ++ str field)
    (str "Resume field is not an unsigned integer: " ++ str field).

Definition read_required_line (input : ifstream) (path : bytes) : res (bytes * ifstream) :=
  read_text_line (str "Unexpected end of resume state: " ++ path) input.

Definition require_field (line : bytes) (field : string) : res bytes :=
  require_prefix line field (str "Expected resume field: " ++ str field).

(** The private constructor. *)
Definition construct (path swarm_id : bytes) (chunk_count : Z) : res ResumeStore :=
  if bool_decide (path = []) || bool_decide (swarm_id = [])
  then throw "Resume state requires a path and swarm identifier"
  else Ok {| path_ := path; swarm_id_ := swarm_id; chunk_count_ := chunk_count;
             completed_ := replicate (Z.to_nat chunk_count) false;
             revision_ := 0; dirty_ := true |}.

Definition with_completed (st : ResumeStore) (completed : list bool) : ResumeStore :=
  {| path_ := path_ st; swarm_id_ := swarm_id_ st; chunk_count_ := chunk_count_ st;
     completed_ := completed; revision_ := revision_ st; dirty_ := dirty_ st |}.

Definition with_dirty (st : ResumeStore) (dirty : bool) : ResumeStore :=
  {| path_ := path_ st; swarm_id_ := swarm_id_ st; chunk_count_ := chunk_count_ st;
     completed_ := completed_ st; revision_ := revision_ st; dirty_ := dirty |}.

(** [completed_[index] = value; ++revision_; dirty_ = true;]. *)
Definition set_completed (st : ResumeStore) (index : Z) (value : bool) : ResumeStore :=
  {| path_ := path_ st; swarm_id_ := swarm_id_ st; chunk_count_ := chunk_count_ st;
     completed_ := <[Z.to_nat index := value]> (completed_ st);
     revision_ := u64 (revision_ st + 1); dirty_ := true |}.

(** [completed_[index]] of a checked index. *)
Definition completed_at (st : ResumeStore) (index : Z) : bool :=
  default false (completed_ st !! Z.to_nat index).

Definition check_index (index : Z) (st : ResumeStore) : res unit :=
  if index >=? chunk_count_ st then throw "Resume chunk index is outside the manifest"
  else Ok tt.

Definition mark_complete (index : Z) : io ResumeStore unit := λ st,
  match check_index index st with
  | Throw e => (Throw e, st)
  | Ok _ => (Ok tt, if negb (completed_at st index) then set_completed st index true else st)
  end.

Definition mark_incomplete (index : Z) : io ResumeStore unit := λ st,
  match check_index index st with
  | Throw e => (Throw e, st)
  | Ok _ => (Ok tt, if completed_at st index then set_completed st index false else st)
  end.

Definition complete (index : Z) (st : ResumeStore) : res bool :=
  let! _ := check_index index st in
  Ok (completed_at st index).

Definition all_complete (st : ResumeStore) : bool := forallb (λ c, c) (completed_ st).

(** The index loop of [completed_chunks]. *)
Fixpoint completed_from (index : Z) (completed : list bool) : list Z :=
  match completed with
  | [] => []
  | c :: rest => if c then index :: completed_from (index + 1) rest
                 else completed_from (index + 1) rest
  end.

Definition completed_chunks (st : ResumeStore) : list Z := completed_from 0 (completed_ st).

(** The index loop of [serialize_locked]. *)
Fixpoint serialize_loop (index : Z) (first : bool) (completed : list bool) (output : bytes)
    : bytes * bool :=
  match completed with
  | [] => (output, first)
  | c :: rest =>
      if c then
        let output := if negb first then output ++ [COMMA] else output in
        serialize_loop (index + 1) false rest (output ++ to_string index)
      else serialize_loop (index + 1) first rest output
  end.

Definition serialize_locked (st : ResumeStore) : bytes :=
  let header :=
    str "SWARMSYNC_RESUME_V1" ++ [LF] ++
    str "swarm_id=" ++ swarm_id_ st ++ [LF] ++
    str "chunk_count=" ++ to_string (chunk_count_ st) ++ [LF] ++
    str "complete=" in
  let '(output, first) := serialize_loop 0 true (completed_ st) header in
  (if first then output ++ str "none" else output) ++ [LF].

(** The first critical section of [flush]: nothing to do, or the text and the
    revision it was taken at. *)
Definition flush_begin (st : ResumeStore) : option (bytes * Z) :=
  if negb (dirty_ st) then None else Some (serialize_locked st, revision_ st).

(** The second critical section. *)
Definition flush_end (revision : Z) (st : ResumeStore) : ResumeStore :=
  if revision_ st =? revision then with_dirty st false else st.

Definition flush : io (os * ResumeStore) unit := λ '(s, st),
  match flush_begin st with
  | None => (Ok tt, (s, st))
  | Some (snapshot, revision) =>
      match write_atomic (path_ st) snapshot s with
      | (Throw e, s') => (Throw e, (s', st))
      | (Ok _, s') => (Ok tt, (s', flush_end revision st))
      end
  end.

(** The loop of [load_existing] over the completed list; [rest] is
    [completed.substr(start)]. *)
Fixpoint load_loop (fuel : nat) (chunk_count : Z) (rest : bytes) (previous : option Z)
    (completed : list bool) : res (list bool) :=
  match fuel with
  | O => Throw Diverged
  | S fuel' =>
      if bool_decide (rest = []) then Ok completed
      else
        let comma := split_at COMMA rest in
        let value := match comma with Some (v, _) => v | None => rest end in
        let! index := parse_unsigned 32 value "completed chunk" in
        if (index >=? chunk_count) ||
           match previous with Some p => index <=? p | None => false end
        then throw "Resume state contains an invalid completed chunk list"
        else
          let completed := <[Z.to_nat index := true]> completed in
          match comma with
          | None => Ok completed
          | Some (_, next) =>
              if bool_decide (next = [])
              then throw "Resume state contains an empty completed chunk entry"
              else load_loop fuel' chunk_count next (Some index) completed
          end
  end.

(** [load_existing]: [file] is the content at [path_], if it opens. *)
Definition load_existing (file : option bytes) (st : ResumeStore) : res ResumeStore :=
  let input := open_ifstream file in
  if negb (is_ok_stream input)
  then Throw (Error (str "Unable to open resume state: " ++ path_ st))
  else
    let! ' (line, input) := read_required_line input (path_ st) in
    if negb (beq line (str "SWARMSYNC_RESUME_V1"))
    then throw "Unsupported resume state format"
    else
      let! ' (line, input) := read_required_line input (path_ st) in
      let! stored_swarm := require_field line "swarm_id" in
      let! ' (line, input) := read_required_line input (path_ st) in
      let! text := require_field line "chunk_count" in
      let! stored_count := parse_unsigned 32 text "chunk_count" in
      let! ' (line, input) := read_required_line input (path_ st) in
      let! completed := require_field line "complete" in
      let '(trailing, _, _) := is_getline input in
      if trailing then throw "Resume state contains unexpected trailing data"
      else if negb (beq stored_swarm (swarm_id_ st)) || negb (stored_count =? chunk_count_ st)
      then throw "Resume state does not match the selected manifest"
      else if beq completed (str "none") then Ok st
      else
        let! flags := load_loop (S (length completed)) (chunk_count_ st) completed None (completed_ st) in
        Ok (with_completed st flags).

(** [load_or_create]: [file] is the content at [path], if it exists. *)
Definition load_or_create (path : bytes) (file : option bytes) (swarm_id : bytes)
    (chunk_count : Z) : res ResumeStore :=
  let! store := construct path swarm_id chunk_count in
  match file with
  | None => Ok store
  | Some _ =>
      let! store := load_existing file store in
      Ok (with_dirty store false)
  end.

(** The move operations, both objects afterwards.  The moved-from vector is
    empty; its path and its string are left in a valid state that the standard
    does not determine, [left_path] and [left_id].  The locks order the two
    objects' other users. *)
Definition move_construct (other : ResumeStore) (left_path left_id : bytes) : ResumeStore * ResumeStore :=
  (other,
   {| path_ := left_path; swarm_id_ := left_id; chunk_count_ := chunk_count_ other; completed_ := [];
      revision_ := revision_ other; dirty_ := dirty_ other |}).

(** [same] is [this == &other]. *)
Definition move_assign (same : bool) (this other : ResumeStore) (left_path left_id : bytes)
    : ResumeStore * ResumeStore :=
  if same then (this, other) else move_construct other left_path left_id.

(** *** Specifications *)

(** The vector has one flag per chunk. *)
Definition store_ok (st : ResumeStore) : Prop :=
  0 ≤ chunk_count_ st < 2 ^ 32 ∧ len (completed_ st) = chunk_count_ st ∧
  0 ≤ revision_ st < 2 ^ 64.

(** The abstract state: the set of completed chunks. *)
Definition completed_set (st : ResumeStore) : gset Z := list_to_set (completed_chunks st).

(** The outcome of replacing the file at [path] by [content]: the old file or
    the complete, synced new one. *)
Definition old_or_new (path : bytes) (old : option file) (content : bytes)
    (f : gmap bytes file) : Prop :=
  f !! path = old ∨ f !! path = Some {| data := content; synced := content |}.

(** ** Atomic replacement *)

(** An operation on the system next to a local variable. *)
Lemma triple_on_os_exn {A L} (P : os → Prop) (m : io os A) Q E' (E : exn → os * L → Prop) (l : L) :
  triple P m Q E' → (∀ e s, E' e s → E e (s, l)) →
  triple (λ '(s, l'), P s ∧ l' = l) (on_os m) (λ a '(s, l'), Q a s ∧ l' = l) E.
Proof.
  intros H HE [s l'] [HP ->]. specialize (H s HP). unfold on_os.
  destruct (m s) as [[a|e] s']; [done|by apply HE].
Qed.

(** A system call throws nothing. *)
Lemma triple_on_os {A L} (P : os → Prop) (m : io os A) Q (E : exn → os * L → Prop) (l : L) :
  triple P m Q (λ _ _, False) →
  triple (λ '(s, l'), P s ∧ l' = l) (on_os m) (λ a '(s, l'), Q a s ∧ l' = l) E.
Proof. intros H. by eapply triple_on_os_exn. Qed.

Lemma triple_get_local {A L} (P : os → Prop) (k : L → io (os * L) A) Q E (l : L) :
  triple (λ '(s, l'), P s ∧ l' = l) (k l) Q E →
  triple (λ '(s, l'), P s ∧ l' = l) (bind get_local k) Q E.
Proof. intros H [s l'] [HP ->]. by apply (H (s, l)). Qed.

Lemma triple_set_local {A L} (P : os → Prop) (k : unit → io (os * L) A) Q E (l l2 : L) :
  triple (λ '(s, l'), P s ∧ l' = l2) (k tt) Q E →
  triple (λ '(s, l'), P s ∧ l' = l) (bind (set_local l2) k) Q E.
Proof. intros H [s l'] [HP ->]. by apply (H (s, l2)). Qed.

Section WriteAtomic.
Variables (path content : bytes) (f0 : gmap bytes file) (d0 : gmap Z descriptor) (b : Z)
  (h0 : list (gmap bytes file)) (Φ : gmap bytes file → Prop).

#[local] Abbreviation tmp := (path ++ str ".tmp").
#[local] Abbreviation new := {| data := content; synced := content |}.

(** An invariant of the file systems that ignores the temporary file and
    allows the publication. *)
Hypothesis Φ_same : ∀ f, (∀ q, q ≠ tmp → f !! q = f0 !! q) → Φ f.
Hypothesis Φ_new : Φ (<[path := new]> (delete tmp f0)).

#[local] Abbreviation At := (at_state Φ h0).

Lemma tmp_ne : tmp ≠ path.
Proof. intros H. apply (f_equal length) in H. rewrite length_app in H. simpl in H. lia. Qed.

Lemma tmp_harmless fl : Φ (<[tmp := fl]> f0).
Proof. apply Φ_same. intros q Hq. by apply lookup_insert_ne. Qed.

(** The temporary file holds the first [k] bytes and the descriptor is behind
    them. *)
Definition writing (fd : Z) (k : nat) (n : nat) (s : os) : Prop :=
  ∃ y sc, (length sc ≤ n)%nat ∧
    At (<[tmp := {| data := take k content; synced := y |}]> f0)
       (<[fd := {| fd_path := tmp; fd_offset := Z.of_nat k |}]> d0) b sc s.

(** An error before the descriptor is closed. *)
Definition broken (fd : Z) (s : os) : Prop :=
  ∃ fl o sc, At (<[tmp := fl]> f0) (<[fd := {| fd_path := tmp; fd_offset := o |}]> d0) b sc s.

Lemma writing_broken fd k n s : writing fd k n s → broken fd s.
Proof. intros (y & sc & _ & H). unfold broken. eauto. Qed.

Lemma sys_write_spec fd k n :
  (k ≤ length content)%nat →
  triple (writing fd k n) (sys_write fd (drop k content))
    (λ r s, match r with
            | Done z => 0 ≤ z ≤ len (drop k content) ∧ writing fd (k + Z.to_nat z) (n - 1) s ∧
                        (n = O → z = len (drop k content))
            | _ => (0 < n)%nat ∧ writing fd k (n - 1) s
            end) (λ _ _, False).
Proof.
  intros Hk s (y & sc & Hn & Hs).
  pose proof (write_at_spec (Φ := Φ) (h0 := h0)
    (<[tmp := {| data := take k content; synced := y |}]> f0)
    (<[fd := {| fd_path := tmp; fd_offset := Z.of_nat k |}]> d0) b sc fd (drop k content) None
    {| fd_path := tmp; fd_offset := Z.of_nat k |} {| data := take k content; synced := y |}
    (lookup_insert_eq _ _ _) (lookup_insert_eq _ _ _)) as H.
  cbn [fd_path fd_offset data synced] in H.
  specialize (H ltac:(intros; rewrite insert_insert_eq; apply tmp_harmless) s Hs).
  unfold sys_write. destruct (write_at fd (drop k content) None s) as [[r|e] s']; [|done].
  assert (length (tail sc) ≤ n - 1)%nat as Htl by (destruct sc; simpl in *; lia).
  destruct r as [z| |e].
  - destruct H as (Hz & Hall & H). rewrite !insert_insert_eq in H.
    split; [done|]. split.
    + exists y, (tail sc). split; [done|].
      rewrite Nat2Z.inj_add, Z2Nat.id by lia. revert H.
      rewrite Nat2Z.id. replace k with (length (take k content)) at 2
        by (rewrite length_take; lia).
      by rewrite overwrite_append, take_take_drop.
    + intros ->. apply Hall. by destruct sc; simpl in *; [|lia].
  - destruct H as [Hne H]. split; [destruct sc; simpl in *; [done|lia]|]. by exists y, (tail sc).
  - destruct H as [Hne H]. split; [destruct sc; simpl in *; [done|lia]|]. by exists y, (tail sc).
Qed.

Lemma write_loop_spec fuel fd k n :
  (k ≤ length content)%nat → (n + 2 ≤ fuel ∨ 1 ≤ fuel ∧ k = length content)%nat →
  triple (writing fd k n) (write_loop fuel fd (drop k content))
    (λ _ s, ∃ n', writing fd (length content) n' s) (λ e s, e ≠ Diverged ∧ broken fd s).
Proof.
  revert k n. induction fuel as [|fuel IH]; intros k n Hk Hf; [lia|]. cbn [write_loop].
  apply triple_if; intros Hrest; reflect.
  - apply triple_ret'. intros s Hs. exists n.
    assert (length content - k = 0)%nat by (by rewrite <-length_drop, Hrest).
    by replace (length content) with k by lia.
  - assert (k < length content)%nat.
    { destruct (decide (k < length content)%nat); [done|]. by rewrite drop_ge in Hrest by lia. }
    eapply triple_bind.
    { eapply triple_conseq; [by apply sys_write_spec|done|done|done]. }
    intros [z| |e]; cbn beta iota.
    + apply triple_pure. intros Hz. rewrite drop_drop.
      unfold len in Hz. rewrite length_drop in Hz.
      intros s [Hs Hall]. destruct n as [|n].
      * unfold len in Hall. rewrite length_drop in Hall. specialize (Hall eq_refl).
        apply (IH (k + Z.to_nat z)%nat 0%nat); [lia|right; lia|done].
      * apply (IH (k + Z.to_nat z)%nat n); [lia|lia|].
        by replace (S n - 1)%nat with n in Hs by lia.
    + apply triple_pure. intros Hn. apply (IH k (n - 1)%nat); [done|lia].
    + apply triple_pure. intros Hn. apply triple_raise. intros s Hs.
      split; [done|]. by eapply writing_broken.
Qed.

(** The states the body leaves: published, or an error with the descriptor
    still open, or an error after it was closed. *)
Definition published (s : os) : Prop := ∃ sc, At (<[path := new]> (delete tmp f0)) d0 b sc s.
Definition unpublished (s : os) : Prop := ∃ fl sc, At (<[tmp := fl]> f0) d0 b sc s.

Definition abandoned (s : os) : Prop :=
  ∃ f sc, At f d0 b sc s ∧ ∀ q, q ≠ tmp → f !! q = f0 !! q.

(** After the body failed: the local descriptor says whether it is open. *)
Definition failed_body (fd0 : Z) : os * Z → Prop :=
  λ '(s, fd), fd = fd0 ∧ broken fd0 s ∨ fd = -1 ∧ unpublished s.

Lemma unlink_spec f sc :
  (∀ q, q ≠ tmp → f !! q = f0 !! q) → Φ f →
  triple (At f d0 b sc) (sys_unlink tmp) (λ _ s, abandoned s) (λ _ _, False).
Proof.
  intros Hf HΦ. assert (Φ (delete tmp f)) as Hd.
  { apply Φ_same. intros q Hq. rewrite lookup_delete_ne by done. by apply Hf. }
  eapply triple_conseq; [by apply (sys_unlink_spec (Φ := Φ) (h0 := h0) f d0 b sc tmp)|done| |done].
  intros r s. cbn beta. destruct (failed r); intros Hs; eexists _, _; (split; [exact Hs|]); [done|].
  intros q Hq. rewrite lookup_delete_ne by done. by apply Hf.
Qed.

Lemma close_broken fd0 :
  d0 !! fd0 = None →
  triple (broken fd0) (sys_close fd0) (λ _ s, unpublished s) (λ _ _, False).
Proof.
  intros Hnone. apply triple_ex. intros fl. apply triple_ex. intros o. apply triple_ex. intros sc.
  eapply triple_conseq; [apply (sys_close_spec (Φ := Φ) (h0 := h0))|done| |done].
  - rewrite lookup_insert_eq. eauto.
  - intros r s Hs. cbn beta in Hs. rewrite delete_insert_id in Hs by done.
    unfold unpublished. eauto.
Qed.

Lemma cleanup_spec fd0 e :
  0 ≤ fd0 → d0 !! fd0 = None →
  triple (failed_body fd0) (write_atomic_cleanup tmp e)
    (λ _ _, False) (λ e' '(s, _), e' = e ∧ abandoned s).
Proof.
  intros Hfd Hnone.
  assert (∀ fd, triple (λ '(s, l), unpublished s ∧ l = fd)
      (do _ <- on_os (sys_unlink tmp); @raise (os * Z) unit e)
      (λ _ _, False) (λ e' '(s, _), e' = e ∧ abandoned s)) as Hunlink.
  { intros fd. eapply triple_bind.
    - apply triple_on_os. apply triple_ex. intros fl. apply triple_ex. intros sc.
      apply unlink_spec; [intros q Hq; by apply lookup_insert_ne|apply tmp_harmless].
    - intros r. apply triple_raise. intros [s' l] [H _]. done. }
  assert (triple (λ '(s, l), broken fd0 s ∧ l = fd0)
      (do _ <- on_os (sys_close fd0); do _ <- on_os (sys_unlink tmp); @raise (os * Z) unit e)
      (λ _ _, False) (λ e' '(s, _), e' = e ∧ abandoned s)) as Hclose.
  { eapply triple_bind.
    - apply triple_on_os. by apply close_broken.
    - intros r. apply Hunlink. }
  intros [s fd] [[-> Hs]|[-> Hs]]; unfold write_atomic_cleanup, get_local; unfold bind at 1; cbn beta iota.
  - destruct (fd0 >=? 0) eqn:E; [|rewrite Z.geb_leb, Z.leb_gt in E; lia].
    apply (Hclose (s, fd0)). done.
  - change (-1 >=? 0) with false. cbv iota. apply (Hunlink (-1) (s, -1)). done.
Qed.

Lemma write_content_spec fd :
  triple (λ s, ∃ n, writing fd 0 n s) (λ s, write_loop (write_fuel s) fd content s)
    (λ _ s, ∃ n, writing fd (length content) n s) (λ e s, e ≠ Diverged ∧ broken fd s).
Proof.
  intros s (n & y & sc & Hn & Hs).
  apply (write_loop_spec (write_fuel s) fd 0 (length sc)); [lia| |].
  - left. unfold write_fuel. by rewrite (at_script _ _ _ _ _ _ _ Hs).
  - exists y, sc. done.
Qed.

(** The content is complete and synced; the descriptor is still open. *)
Definition flushed (fd : Z) (s : os) : Prop :=
  ∃ o sc, At (<[tmp := new]> f0) (<[fd := {| fd_path := tmp; fd_offset := o |}]> d0) b sc s.
Definition closed_file (s : os) : Prop := ∃ sc, At (<[tmp := new]> f0) d0 b sc s.

Lemma fsync_spec fd :
  triple (λ s, ∃ n, writing fd (length content) n s) (sys_fsync fd)
    (λ r s, if failed r then broken fd s else flushed fd s) (λ _ _, False).
Proof.
  apply triple_ex. intros n. intros s (y & sc & _ & Hs). rewrite take_ge in Hs by lia.
  pose proof (sys_fsync_spec (Φ := Φ) (h0 := h0) _ _ b sc fd _ _
    (lookup_insert_eq d0 fd {| fd_path := tmp; fd_offset := Z.of_nat (length content) |})
    (lookup_insert_eq f0 tmp {| data := content; synced := y |})) as H.
  cbn [fd_path data] in H. specialize (H ltac:(rewrite insert_insert_eq; apply tmp_harmless) s Hs).
  rewrite insert_insert_eq in H. destruct (sys_fsync fd s) as [[r|e] s']; [|done].
  unfold broken, flushed. destruct (failed r); eauto.
Qed.

Lemma close_flushed fd :
  d0 !! fd = None →
  triple (flushed fd) (sys_close fd) (λ _ s, closed_file s) (λ _ _, False).
Proof.
  intros Hnone. apply triple_ex. intros o. apply triple_ex. intros sc.
  eapply triple_conseq; [apply (sys_close_spec (Φ := Φ) (h0 := h0))|done| |done].
  - rewrite lookup_insert_eq. eauto.
  - intros r s Hs. cbn beta in Hs. rewrite delete_insert_id in Hs by done.
    unfold closed_file. eauto.
Qed.

Lemma rename_spec :
  triple closed_file (sys_rename tmp path)
    (λ r s, if failed r then unpublished s else published s) (λ _ _, False).
Proof.
  apply triple_ex. intros sc.
  eapply triple_conseq; [eapply (sys_rename_spec (Φ := Φ) (h0 := h0))|done| |done].
  - apply lookup_insert_eq.
  - rewrite delete_insert_eq. apply Φ_new.
  - intros r s. cbn beta. rewrite delete_insert_eq. unfold unpublished, published.
    destruct (failed r); eauto.
Qed.

Lemma body_spec fd :
  d0 !! fd = None →
  triple (λ '(s, l), (∃ n, writing fd 0 n s) ∧ l = fd) (write_atomic_body path content tmp)
    (λ _ '(s, _), published s) (λ e x, e ≠ Diverged ∧ failed_body fd x).
Proof.
  intros Hnone. unfold write_atomic_body. apply triple_get_local.
  eapply triple_bind.
  { eapply triple_on_os_exn; [apply write_content_spec|]. intros e s [? ?]. split; [done|by left]. }
  intros u. cbn beta. eapply triple_bind; [apply triple_on_os, fsync_spec|].
  intros r. apply triple_if; intros Hr; rewrite Hr.
  { apply triple_raise. intros [s l] [Hs ->]. split; [done|by left]. }
  apply triple_get_local, triple_set_local.
  eapply triple_bind; [by apply triple_on_os, close_flushed|].
  intros c. apply triple_if; intros Hc.
  { apply triple_raise. intros [s l] [[sc Hs] ->]. split; [done|].
    right. split; [done|]. unfold unpublished. eauto. }
  eapply triple_bind; [apply triple_on_os, rename_spec|].
  intros n. apply triple_if; intros Hn; rewrite Hn.
  - apply triple_raise. intros [s l] [Hs ->]. split; [done|by right].
  - apply triple_ret'. by intros [s l] [Hs _].
Qed.

(** Whatever fails, the file at [path] is the old one or the complete and
    synced new one, at every point of the run; the new one exactly when the
    call returns.  No descriptor stays open or is closed twice. *)
Lemma write_atomic_triple sc0 :
  triple (At f0 d0 b sc0) (write_atomic path content)
    (λ _ s, published s) (λ e s, e ≠ Diverged ∧ abandoned s).
Proof.
  unfold write_atomic. eapply (triple_bind _ _ _ (λ _ s, ∃ sc, At f0 d0 b sc s)).
  { destruct (negb _).
    - eapply triple_conseq; [apply (create_directories_spec (Φ := Φ) (h0 := h0))|done| |].
      + intros a s Hs. by exists (tail sc0).
      + intros e s [He Hs]. split; [done|]. by exists f0, (tail sc0).
    - apply triple_ret'. intros s Hs. by exists sc0. }
  intros u. apply triple_ex. intros sc. eapply triple_bind.
  { eapply triple_conseq; [apply (sys_open_truncate (Φ := Φ) (h0 := h0))|done|intros ?? H; exact H|done].
    intros y. apply tmp_harmless. }
  assert (∀ e : exn, e ≠ Diverged → triple (At f0 d0 b (tail sc)) (@raise os unit e)
     (λ _ s, published s) (λ e s, e ≠ Diverged ∧ abandoned s)) as Hraise.
  { intros e He. apply triple_raise. intros s Hs. split; [done|]. by exists f0, (tail sc). }
  intros [fd| |e]; [|apply triple_pure; intros _; by apply Hraise..].
  intros s (Hfd & Hnone & y & Hs).
  assert (triple (λ '(s, l), (∃ n, writing fd 0 n s) ∧ l = fd)
    (catch_all (write_atomic_body path content tmp) (write_atomic_cleanup tmp))
    (λ _ '(s, _), published s) (λ e '(s, _), e ≠ Diverged ∧ abandoned s)) as Hbody.
  { eapply triple_catch_all; [by apply body_spec|]. intros e. apply triple_pure. intros He.
    eapply triple_conseq; [by apply cleanup_spec|done|done|].
    by intros e' [s' l] [-> ?]. }
  specialize (Hbody (s, fd)). destruct (catch_all _ _ (s, fd)) as [[a|e] [s' l]];
    apply Hbody; (split; [|done]); exists (length (tail sc)), y, (tail sc); done.
Qed.
End WriteAtomic.

(** [flush] by one caller: nothing when the store is clean; otherwise the text
    is published and the store is clean, or an exception and nothing changed. *)
Lemma flush_triple (Φ : gmap bytes file → Prop) h0 f0 d0 b st :
  let tmp := path_ st ++ str ".tmp" in
  let new := <[path_ st := {| data := serialize_locked st; synced := serialize_locked st |}]> (delete tmp f0) in
  (∀ f, (∀ q, q ≠ tmp → f !! q = f0 !! q) → Φ f) → Φ new →
  triple (λ '(s, st'), (∃ sc, at_state Φ h0 f0 d0 b sc s) ∧ st' = st) flush
    (λ _ '(s, st'), ∃ sc, if dirty_ st
                          then at_state Φ h0 new d0 b sc s ∧ st' = with_dirty st false
                          else at_state Φ h0 f0 d0 b sc s ∧ st' = st)
    (λ e '(s, st'), e ≠ Diverged ∧ st' = st ∧
       ∃ f sc, at_state Φ h0 f d0 b sc s ∧ ∀ q, q ≠ tmp → f !! q = f0 !! q).
Proof.
  intros tmp new Hsame Hnew [s st'] [[sc Hs] ->]. unfold flush, flush_begin.
  destruct (dirty_ st) eqn:Ed; cbn [negb]; [|by exists sc].
  pose proof (write_atomic_triple (path_ st) (serialize_locked st) f0 d0 b h0 Φ Hsame Hnew sc s Hs) as H.
  destruct (write_atomic _ _ s) as [[u|e] s'].
  - destruct H as [sc' H]. exists sc'. split; [done|]. unfold flush_end. by rewrite Z.eqb_refl.
  - destruct H as (He & f & sc' & H & Hf). split_and!; [done|done|]. by exists f, sc'.
Qed.

(** ** The set of completed chunks *)

Lemma completed_from_spec idx cs i :
  0 ≤ idx → i ∈ completed_from idx cs ↔ idx ≤ i ∧ cs !! Z.to_nat (i - idx) = Some true.
Proof.
  revert idx. induction cs as [|c cs IH]; intros idx Hidx; simpl.
  - split; [set_solver|by intros [_ ?]].
  - assert (i ∈ completed_from (idx + 1) cs ↔
        idx < i ∧ (c :: cs) !! Z.to_nat (i - idx) = Some true) as Htl.
    { rewrite IH by lia. split; intros [H1 H2].
      - split; [lia|]. replace (Z.to_nat (i - idx)) with (S (Z.to_nat (i - (idx + 1)))) by lia. done.
      - split; [lia|]. replace (Z.to_nat (i - idx)) with (S (Z.to_nat (i - (idx + 1)))) in H2 by lia.
        done. }
    destruct c; rewrite ?elem_of_cons, Htl; split.
    + intros [->|[? ?]]; [|naive_solver lia]. rewrite Z.sub_diag. naive_solver lia.
    + intros [H1 H2]. destruct (decide (i = idx)); [by left|right; naive_solver lia].
    + naive_solver lia.
    + intros [H1 H2]. split; [|done]. destruct (decide (i = idx)) as [->|]; [|lia].
      by rewrite Z.sub_diag in H2.
Qed.

Lemma completed_from_lower idx cs : Forall (λ i, idx ≤ i) (completed_from idx cs).
Proof.
  revert idx. induction cs as [|c cs IH]; intros idx; simpl; [done|].
  assert (Forall (λ i, idx ≤ i) (completed_from (idx + 1) cs)).
  { eapply Forall_impl; [apply IH|]. simpl. lia. }
  destruct c; [constructor; [lia|done]|done].
Qed.

Lemma completed_from_increasing idx cs : increasing (completed_from idx cs) = true.
Proof.
  revert idx. induction cs as [|c cs IH]; intros idx; simpl; [done|].
  destruct c; [|apply IH]. apply increasing_cons. split; [|apply IH].
  eapply Forall_impl; [apply completed_from_lower|]. simpl. lia.
Qed.

Lemma elem_of_completed st i :
  store_ok st → i ∈ completed_set st ↔ 0 ≤ i < chunk_count_ st ∧ completed_at st i = true.
Proof.
  intros (Hc & Hlen & _). unfold completed_set, completed_chunks, completed_at.
  rewrite elem_of_list_to_set, completed_from_spec, Z.sub_0_r by lia.
  destruct (completed_ st !! Z.to_nat i) as [f|] eqn:E; simpl.
  - apply lookup_lt_Some in E as Hlt. unfold len in Hlen. naive_solver lia.
  - naive_solver.
Qed.

Lemma completed_chunks_ok st :
  store_ok st →
  increasing (completed_chunks st) = true ∧
  Forall (λ c, 0 ≤ c < chunk_count_ st) (completed_chunks st).
Proof.
  intros Hst. split; [apply completed_from_increasing|].
  apply Forall_forall. intros i Hi. apply (elem_of_completed st i Hst).
  by apply elem_of_list_to_set.
Qed.

Lemma all_complete_spec st :
  store_ok st → all_complete st = true ↔ ∀ i, 0 ≤ i < chunk_count_ st → i ∈ completed_set st.
Proof.
  intros Hst. unfold all_complete. rewrite forallb_forall.
  pose proof Hst as (Hc & Hlen & _). unfold len in Hlen. split.
  - intros H i Hi. apply elem_of_completed; [done|]. split; [done|].
    unfold completed_at. destruct (completed_ st !! Z.to_nat i) as [f|] eqn:E; simpl.
    + apply H. apply list_elem_of_In. eapply list_elem_of_lookup_2, E.
    + apply lookup_ge_None in E. lia.
  - intros H f Hf%list_elem_of_In. apply list_elem_of_lookup in Hf as [k Hk].
    pose proof (lookup_lt_Some _ _ _ Hk).
    assert (Z.of_nat k ∈ completed_set st) as Hin by (apply H; lia).
    apply elem_of_completed in Hin as [_ Hin]; [|done].
    unfold completed_at in Hin. by rewrite Nat2Z.id, Hk in Hin.
Qed.

Lemma check_index_spec i st :
  check_index i st =
    if decide (i < chunk_count_ st) then Ok tt
    else throw "Resume chunk index is outside the manifest".
Proof.
  unfold check_index. rewrite Z.geb_leb. destruct (Z.leb_spec (chunk_count_ st) i);
    case_decide; done || lia.
Qed.

Lemma construct_ok path swarm count st :
  0 ≤ count < 2 ^ 32 → construct path swarm count = Ok st →
  store_ok st ∧ completed_set st = ∅ ∧ path_ st = path ∧ swarm_id_ st = swarm ∧
  chunk_count_ st = count ∧ dirty_ st = true ∧ completed_ st = replicate (Z.to_nat count) false.
Proof.
  intros Hc. unfold construct. case_match; [done|]. intros [= <-].
  assert (∀ n idx, completed_from idx (replicate n false) = []) as Hnil.
  { induction n; intros; simpl; auto. }
  split.
  { unfold store_ok, len; simpl. rewrite length_replicate. lia. }
  split_and!; try done. unfold completed_set, completed_chunks. simpl. by rewrite Hnil.
Qed.

Lemma completed_at_set st i j v :
  0 ≤ i < chunk_count_ st → store_ok st → 0 ≤ j →
  completed_at (set_completed st i v) j = if decide (i = j) then v else completed_at st j.
Proof.
  intros Hi (Hc & Hlen & _) Hj. unfold completed_at, set_completed, len in *. simpl. case_decide.
  - subst j. by rewrite list_lookup_insert_eq by lia.
  - by rewrite list_lookup_insert_ne by lia.
Qed.

Lemma set_completed_ok st i v : store_ok st → store_ok (set_completed st i v).
Proof.
  intros (Hc & Hlen & Hr). unfold store_ok, set_completed, len in *; simpl.
  rewrite length_insert. split_and!; try lia; apply Z.mod_pos_bound; lia.
Qed.

(** Marking adds the chunk to the set, records the change, and touches
    nothing else; an index out of range is an error and changes nothing. *)
Lemma mark_complete_spec i st :
  store_ok st → 0 ≤ i →
  mark_complete i st =
    if decide (i < chunk_count_ st) then
      (Ok tt, if decide (i ∈ completed_set st) then st else set_completed st i true)
    else (throw "Resume chunk index is outside the manifest", st).
Proof.
  intros Hst Hi. unfold mark_complete. rewrite check_index_spec.
  destruct (decide (i < chunk_count_ st)); [|done].
  pose proof (elem_of_completed st i Hst) as He.
  destruct (completed_at st i) eqn:E; simpl; case_decide; naive_solver lia.
Qed.

Lemma mark_incomplete_spec i st :
  store_ok st → 0 ≤ i →
  mark_incomplete i st =
    if decide (i < chunk_count_ st) then
      (Ok tt, if decide (i ∈ completed_set st) then set_completed st i false else st)
    else (throw "Resume chunk index is outside the manifest", st).
Proof.
  intros Hst Hi. unfold mark_incomplete. rewrite check_index_spec.
  destruct (decide (i < chunk_count_ st)); [|done].
  pose proof (elem_of_completed st i Hst) as He.
  destruct (completed_at st i) eqn:E; simpl; case_decide; naive_solver lia.
Qed.

Lemma completed_set_set st i v :
  store_ok st → 0 ≤ i < chunk_count_ st →
  completed_set (set_completed st i v) =
    if v then {[i]} ∪ completed_set st else completed_set st ∖ {[i]}.
Proof.
  intros Hst Hi. apply set_eq. intros j.
  rewrite elem_of_completed by by apply set_completed_ok. simpl.
  pose proof (elem_of_completed st j Hst) as He.
  destruct (decide (0 ≤ j)) as [Hj|Hj].
  - rewrite completed_at_set by done. case_decide; subst; destruct v; set_solver by lia.
  - destruct v; set_solver by lia.
Qed.

(** ** The text format *)

Lemma serialize_loop_spec idx first cs out :
  0 ≤ idx →
  serialize_loop idx first cs out =
    match completed_from idx cs with
    | [] => (out, first)
    | l => (out ++ (if first then [] else [COMMA]) ++ join_commas l, false)
    end.
Proof.
  revert idx first out. induction cs as [|c cs IH]; intros idx first out Hidx; [done|].
  cbn [serialize_loop completed_from]. destruct c; [|by apply IH; lia]. rewrite IH by lia.
  destruct (completed_from (idx + 1) cs) as [|j l].
  - destruct first; cbn [negb join_commas app]; by rewrite <-?app_assoc.
  - rewrite (join_commas_cons idx) by done.
    destruct first; cbn [negb app]; by rewrite <-!app_assoc.
Qed.

(** The text after [complete=]. *)
Definition completed_text (st : ResumeStore) : bytes :=
  match completed_chunks st with [] => str "none" | l => join_commas l end.

Lemma serialize_locked_spec st :
  serialize_locked st =
  str "SWARMSYNC_RESUME_V1" ++ LF ::
  str "swarm_id" ++ str "=" ++ swarm_id_ st ++ LF ::
  str "chunk_count" ++ str "=" ++ to_string (chunk_count_ st) ++ LF ::
  str "complete" ++ str "=" ++ completed_text st ++ LF :: [].
Proof.
  unfold serialize_locked, completed_text, completed_chunks.
  rewrite serialize_loop_spec by lia.
  destruct (completed_from 0 (completed_ st)) as [|j l];
    rewrite <-!app_assoc; cbn [app]; do 2 f_equal.
Qed.

(** The flags after marking a list of chunks. *)
Definition mark_all (l : list Z) (flags : list bool) : list bool :=
  fold_left (λ f i, <[Z.to_nat i := true]> f) l flags.

Lemma load_loop_join fuel count l prev flags :
  l ≠ [] → increasing (match prev with Some p => p :: l | None => l end) = true →
  Forall (λ i, 0 ≤ i < count) l → count ≤ 2 ^ 32 → (length l < fuel)%nat →
  load_loop fuel count (join_commas l) prev flags = Ok (mark_all l flags).
Proof.
  intros Hne Hinc Hr Hcount. revert prev flags fuel Hinc.
  induction l as [|i l IH]; intros prev flags fuel Hinc Hf; [done|].
  destruct fuel as [|fuel]; [simpl in Hf; lia|]. cbn [load_loop].
  apply Forall_cons in Hr as [Hi Hr].
  destruct (to_string_spec i) as (Hd & _ & Hnil); [lia|].
  assert (COMMA ∉ to_string i) as Hcomma by (by apply digits_not_in).
  assert ((i >=? count) || match prev with Some p => i <=? p | None => false end = false) as Hok.
  { rewrite Z.geb_leb. apply orb_false_iff. split; [apply Z.leb_gt; lia|].
    destruct prev as [p|]; [|done]. apply increasing_cons in Hinc as [Hlt _].
    apply Forall_cons in Hlt as [Hlt _]. by apply Z.leb_gt. }
  assert (increasing (i :: l) = true) as Hil.
  { destruct prev; [|done]. by apply increasing_cons in Hinc as [_ ?]. }
  destruct (decide (l = [])) as [->|Hl].
  - simpl join_commas. rewrite bool_decide_eq_false_2 by done.
    rewrite (proj2 (split_at_none _ _)) by done. unfold parse_unsigned.
    rewrite parse_field_to_string by lia. cbn [rbind]. by rewrite Hok.
  - rewrite join_commas_cons, split_at_app by done.
    rewrite bool_decide_eq_false_2 by (by destruct (to_string i)).
    unfold parse_unsigned. rewrite parse_field_to_string by lia. cbn [rbind]. rewrite Hok.
    rewrite bool_decide_eq_false_2.
    + apply (IH Hl Hr (Some i)); [done|simpl in Hf; lia].
    + apply join_commas_nonempty; [done|]. eapply Forall_impl; [exact Hr|]. simpl; lia.
Qed.

Lemma load_loop_no_diverge fuel count rest prev flags :
  (length rest < fuel)%nat → load_loop fuel count rest prev flags ≠ Throw Diverged.
Proof.
  revert rest prev flags. induction fuel as [|fuel IH]; intros rest prev flags Hf; [lia|].
  cbn [load_loop]. case_bool_decide; [done|]. apply rbind_no_diverge; [apply parse_field_no_diverge|].
  intros i. destruct (_ || _); [done|]. destruct (split_at COMMA rest) as [[f r]|] eqn:Hs; [|done].
  case_bool_decide; [done|]. apply IH.
  apply split_at_some in Hs as [-> _]. rewrite length_app in Hf. simpl in Hf. lia.
Qed.

Lemma mark_all_completed cs pre :
  mark_all (completed_from (len pre) cs) (pre ++ replicate (length cs) false) = pre ++ cs.
Proof.
  revert pre. induction cs as [|c cs IH]; intros pre; [done|]. simpl.
  specialize (IH (pre ++ [c])). rewrite len_app, len_cons, len_nil in IH.
  replace (len pre + (1 + 0)) with (len pre + 1) in IH by lia.
  rewrite <-!app_assoc in IH. simpl in IH. destruct c; [|exact IH].
  rewrite <-IH. unfold mark_all at 1. simpl. fold (mark_all (completed_from (len pre + 1) cs)).
  unfold mark_all. f_equal. unfold len. rewrite Nat2Z.id.
  by rewrite insert_app_r_alt, Nat.sub_diag by lia.
Qed.

Lemma join_commas_plain l : Forall (λ x, 0 ≤ x) l → plain (join_commas l).
Proof.
  induction 1 as [|x l Hx Hl IH]; [by constructor|].
  destruct (decide (l = [])) as [->|]; [by apply plain_to_string|].
  rewrite join_commas_cons by done. apply plain_app. split; [by apply plain_to_string|].
  constructor; [vm_compute; done|done].
Qed.

Lemma join_commas_not_none l :
  l ≠ [] → Forall (λ x, 0 ≤ x) l → beq (join_commas l) (str "none") = false.
Proof.
  intros Hne Hl. apply bool_decide_eq_false_2.
  destruct (join_commas_head l Hne Hl) as (d & r & -> & Hd). by intros [= -> _].
Qed.

Lemma completed_nonneg st : store_ok st → Forall (λ x, 0 ≤ x) (completed_chunks st).
Proof.
  intros Hst. destruct (completed_chunks_ok st Hst) as [_ Hr].
  eapply Forall_impl; [exact Hr|]. simpl; lia.
Qed.

(** Reading a written file: the fields are compared with those of the object,
    then the list is read. *)
Lemma load_existing_text st0 st :
  store_ok st → plain (swarm_id_ st) →
  load_existing (Some (serialize_locked st)) st0 =
    if negb (beq (swarm_id_ st) (swarm_id_ st0)) || negb (chunk_count_ st =? chunk_count_ st0)
    then throw "Resume state does not match the selected manifest"
    else if beq (completed_text st) (str "none") then Ok st0
    else
      let! flags := load_loop (S (length (completed_text st))) (chunk_count_ st0)
                      (completed_text st) None (completed_ st0) in
      Ok (with_completed st0 flags).
Proof.
  intros Hst Hplain. pose proof Hst as (Hc & _).
  assert (plain (completed_text st)) as Htext.
  { pose proof (completed_nonneg st Hst) as Hnn. unfold completed_text.
    destruct (completed_chunks st) eqn:E; [by apply plain_str|]. by apply join_commas_plain. }
  unfold load_existing. change (negb (is_ok_stream _)) with false. cbv iota.
  unfold read_required_line, require_field.
  set (msg := str "Unexpected end of resume state: " ++ path_ st0).
  pose proof (open_at_rest (serialize_locked st)) as Hin.
  set (i := open_ifstream _) in *. clearbody i. rewrite serialize_locked_spec in Hin.
  destruct (read_text_line_spec msg i (str "SWARMSYNC_RESUME_V1") _ Hin) as (i1 & Hr & Hin1);
    [by apply plain_not_in; [apply plain_str|]..|].
  rewrite Hr. cbn [rbind]. rewrite beq_refl. cbn [negb]. clear Hr Hin.
  destruct (read_field_line msg i1 "swarm_id" _ _ Hin1) as (i2 & Hr & Hin2);
    [by apply plain_str|done|].
  rewrite Hr. cbn [rbind]. rewrite require_prefix_app. cbn [rbind]. clear Hr Hin1.
  destruct (read_field_line msg i2 "chunk_count" _ _ Hin2) as (i3 & Hr & Hin3);
    [by apply plain_str|apply plain_to_string; lia|].
  rewrite Hr. cbn [rbind]. rewrite require_prefix_app. cbn [rbind]. clear Hr Hin2.
  unfold parse_unsigned. rewrite parse_field_to_string by lia. cbn [rbind].
  destruct (read_field_line msg i3 "complete" _ _ Hin3) as (i4 & Hr & Hin4);
    [by apply plain_str|done|].
  rewrite Hr. cbn [rbind]. rewrite require_prefix_app. cbn [rbind]. clear Hr Hin3.
  destruct (getline_end i4 Hin4) as (l4 & i5 & ->). done.
Qed.

(** Reading the text back restores the flags. *)
Lemma load_existing_serialize st0 st :
  store_ok st → plain (swarm_id_ st) →
  swarm_id_ st0 = swarm_id_ st → chunk_count_ st0 = chunk_count_ st →
  completed_ st0 = replicate (Z.to_nat (chunk_count_ st)) false →
  load_existing (Some (serialize_locked st)) st0 = Ok (with_completed st0 (completed_ st)).
Proof.
  intros Hst Hplain Hid Hcount Hflags. pose proof Hst as (Hc & Hlen & _).
  destruct (completed_chunks_ok st Hst) as [Hinc Hrange].
  pose proof (completed_nonneg st Hst) as Hnn.
  rewrite load_existing_text, Hid, Hcount, Hflags, beq_refl, Z.eqb_refl by done. cbn [negb orb].
  assert (length (completed_ st) = Z.to_nat (chunk_count_ st)) as Hl by (unfold len in Hlen; lia).
  pose proof (mark_all_completed (completed_ st) []) as Hmark. simpl in Hmark.
  change (completed_from (len []) (completed_ st)) with (completed_chunks st) in Hmark.
  unfold completed_text in *. destruct (completed_chunks st) as [|j l] eqn:E.
  - rewrite beq_refl. f_equal. unfold with_completed. rewrite <-Hmark, Hl. simpl.
    rewrite <-Hflags. by destruct st0.
  - rewrite join_commas_not_none by done. rewrite load_loop_join; try done; try lia.
    + cbn [rbind]. by rewrite <-Hl, Hmark.
    + pose proof (join_commas_length _ Hnn). lia.
Qed.

Lemma load_existing_no_diverge file st : load_existing file st ≠ Throw Diverged.
Proof.
  unfold load_existing, read_required_line, require_field, parse_unsigned.
  no_diverge. apply load_loop_no_diverge. lia.
Qed.

(** What loading returns. *)
Lemma load_existing_ok file st0 st :
  load_existing file st0 = Ok st →
  path_ st = path_ st0 ∧ swarm_id_ st = swarm_id_ st0 ∧ chunk_count_ st = chunk_count_ st0 ∧
  length (completed_ st) = length (completed_ st0) ∧ revision_ st = revision_ st0 ∧
  dirty_ st = dirty_ st0.
Proof.
  assert (∀ fuel c t p f f', load_loop fuel c t p f = Ok f' → length f' = length f) as Hlen.
  { induction fuel as [|fuel IH]; intros c t p f f'; [done|]. cbn [load_loop].
    case_bool_decide; [by intros ->%Ok_inj|]. intros H'. bind_inv H' j Hj.
    destruct (_ || _); [done|]. destruct (split_at COMMA t) as [[v next]|].
    - case_bool_decide; [done|]. apply IH in H'. by rewrite H', length_insert.
    - apply Ok_inj in H' as <-. by rewrite length_insert. }
  unfold load_existing. destruct (negb _); [done|]. intros Hr.
  bind_inv Hr a1 H1. destruct a1 as [l1 i1]. destruct (negb _); [done|].
  bind_inv Hr a2 H2. destruct a2 as [l2 i2]. bind_inv Hr sw Hsw.
  bind_inv Hr a3 H3. destruct a3 as [l3 i3]. bind_inv Hr t3 Ht3. bind_inv Hr c Hc.
  bind_inv Hr a4 H4. destruct a4 as [l4 i4]. bind_inv Hr t4 Ht4.
  destruct (is_getline i4) as [[tr l5] i5]. destruct tr; [done|].
  destruct (_ || _); [done|]. destruct (beq t4 _); [by apply Ok_inj in Hr as <-|].
  bind_inv Hr fl Hfl. apply Ok_inj in Hr as <-. apply Hlen in Hfl. by simpl.
Qed.

Lemma load_or_create_ok path file swarm count st :
  0 ≤ count < 2 ^ 32 → load_or_create path file swarm count = Ok st →
  store_ok st ∧ path_ st = path ∧ swarm_id_ st = swarm ∧ chunk_count_ st = count ∧
  (file = None → completed_set st = ∅ ∧ dirty_ st = true) ∧ (file ≠ None → dirty_ st = false).
Proof.
  intros Hc H. unfold load_or_create in H. bind_inv H st0 H0.
  destruct (construct_ok _ _ _ _ Hc H0) as (Hok & Hset & Hp & Hs & Hn & Hd & Hf).
  destruct file as [text|].
  - bind_inv H st1 H1. apply Ok_inj in H as <-.
    pose proof Hok as (_ & Hl & Hr). apply load_existing_ok in H1 as (? & ? & ? & Hlen & Hrev & ?).
    simpl. split_and!; try congruence; try done.
    unfold store_ok, len in *; simpl. rewrite Hlen, Hrev. split_and!; try lia; congruence.
  - apply Ok_inj in H as <-. by split_and!.
Qed.

(** A written file loads as a store with the same set. *)
Lemma load_or_create_serialize st path :
  store_ok st → plain (swarm_id_ st) → path ≠ [] → swarm_id_ st ≠ [] →
  ∃ st', load_or_create path (Some (serialize_locked st)) (swarm_id_ st) (chunk_count_ st) = Ok st' ∧
    store_ok st' ∧ completed_set st' = completed_set st ∧ dirty_ st' = false ∧
    path_ st' = path ∧ swarm_id_ st' = swarm_id_ st ∧ chunk_count_ st' = chunk_count_ st.
Proof.
  intros Hst Hp Hpath Hswarm. unfold load_or_create.
  assert (∃ st0, construct path (swarm_id_ st) (chunk_count_ st) = Ok st0) as [st0 H0].
  { unfold construct. rewrite !bool_decide_eq_false_2 by done. eauto. }
  rewrite H0. cbn [rbind].
  destruct (construct_ok _ _ _ _ (proj1 Hst) H0) as (Hok0 & _ & Hp0 & Hs0 & Hc0 & _ & Hf0).
  rewrite load_existing_serialize by done. cbn [rbind].
  eexists. split; [done|]. destruct Hst as (? & ? & ?). destruct Hok0 as (? & ? & ?).
  split_and!; simpl; try congruence; try done. unfold store_ok; simpl. by rewrite Hc0.
Qed.

(** ** Properties *)

(** C5: replacing a file is atomic under every failure: whatever calls fail,
    are interrupted or write short, the file at the path is at every moment the
    old one or the complete, synced new one; it is the new one, and no
    temporary file is left, exactly when the call returns; after an exception
    the old file is still there; no descriptor is leaked or closed twice, and
    no other file changes. *)
Theorem write_atomic_atomic path content s :
  0 ≤ next_fd s → (∀ fd, is_Some (fds s !! fd) → fd < next_fd s) →
  let temporary := path ++ str ".tmp" in
  let '(r, s') := write_atomic path content s in
  fds s' = fds s ∧ bad_closes s' = bad_closes s ∧
  (∀ q, q ≠ path → q ≠ temporary → files s' !! q = files s !! q) ∧
  (∃ hs, history s' = history s ++ hs ∧
         Forall (old_or_new path (files s !! path) content) hs) ∧
  match r with
  | Ok _ => files s' !! path = Some {| data := content; synced := content |} ∧
            files s' !! temporary = None
  | Throw e => e ≠ Diverged ∧ files s' !! path = files s !! path
  end.
Proof.
  intros Hn Hfd temporary.
  assert (at_state (old_or_new path (files s !! path) content) (history s) (files s) (fds s)
            (bad_closes s) (script s) s) as Hat.
  { constructor; try done; [|by left]. exists []. by rewrite app_nil_r. }
  assert (temporary ≠ path) as Hne by apply tmp_ne.
  pose proof (write_atomic_triple path content (files s) (fds s) (bad_closes s) (history s)
                (old_or_new path (files s !! path) content)) as H.
  specialize (H (λ f Hf, or_introl (Hf path (not_eq_sym Hne)))
    (or_intror (lookup_insert_eq _ _ _)) (script s) s Hat).
  destruct (write_atomic path content s) as [[u|e] s'].
  - destruct H as (sc & [Hf Hd Hb _ Hh _ _]). rewrite Hf. split_and!; try done.
    + intros q Hq Hq'. by rewrite lookup_insert_ne, lookup_delete_ne by done.
    + by rewrite lookup_insert_eq.
    + by rewrite lookup_insert_ne, lookup_delete_eq by done.
  - destruct H as (He & f & sc & [Hf Hd Hb _ Hh _ _] & Hq). rewrite Hf. split_and!; try done.
    + intros q _ Hq'. by apply Hq.
    + by apply Hq.
Qed.

(** C20: the resume file restores the download: loading the text of a store,
    for the same swarm and chunk count, gives a clean store with the same set
    of completed chunks; for another swarm or another count it is an [Error]
    and the text is never applied. *)
Theorem resume_roundtrip st path swarm count :
  store_ok st → plain (swarm_id_ st) → path ≠ [] → swarm ≠ [] → 0 ≤ count < 2 ^ 32 →
  if decide (swarm = swarm_id_ st ∧ count = chunk_count_ st) then
    ∃ st', load_or_create path (Some (serialize_locked st)) swarm count = Ok st' ∧
      store_ok st' ∧ completed_set st' = completed_set st ∧ dirty_ st' = false ∧
      path_ st' = path ∧ swarm_id_ st' = swarm
  else load_or_create path (Some (serialize_locked st)) swarm count =
       throw "Resume state does not match the selected manifest".
Proof.
  intros Hst Hp Hpath Hswarm Hcount. case_decide as Hd.
  - destruct Hd as [-> ->]. destruct (load_or_create_serialize st path) as (st' & Hl & ? & ? & ? & ? & ? & _);
      [done..|]. by exists st'.
  - unfold load_or_create.
    assert (∃ st0, construct path swarm count = Ok st0) as [st0 H0].
    { unfold construct. rewrite !bool_decide_eq_false_2 by done. eauto. }
    rewrite H0. cbn [rbind].
    destruct (construct_ok _ _ _ _ Hcount H0) as (Hok0 & _ & Hp0 & Hs0 & Hc0 & _ & Hf0).
    rewrite load_existing_text, Hs0, Hc0 by done.
    destruct (negb _ || negb _) eqn:E; [done|]. reflect. destruct Hd. naive_solver.
Qed.

(** C35: the marks are set operations: on an index of the manifest
    [mark_complete] adds it and [mark_incomplete] removes it, keeping the
    store well formed and recording any change as dirty; on an index outside
    both are [Error]s and change nothing.  [completed_chunks] lists the set in
    increasing order and [all_complete] is true exactly when the set holds
    every index. *)
Theorem marks_are_set_operations i st :
  store_ok st → 0 ≤ i →
  (∀ op add, (op = mark_complete ∧ add = true) ∨ (op = mark_incomplete ∧ add = false) →
   if decide (i < chunk_count_ st) then
     ∃ st', op i st = (Ok tt, st') ∧ store_ok st' ∧
       completed_set st' = (if (add : bool) then {[i]} ∪ completed_set st
                            else completed_set st ∖ {[i]}) ∧
       (st' = st ∨ dirty_ st' = true)
   else op i st = (throw "Resume chunk index is outside the manifest", st)) ∧
  increasing (completed_chunks st) = true ∧ completed_set st = list_to_set (completed_chunks st) ∧
  (all_complete st = true ↔ completed_set st = list_to_set (seqZ 0 (chunk_count_ st))).
Proof.
  intros Hst Hi. split; [|split; [by apply completed_chunks_ok|split; [done|]]].
  - intros op add [[-> ->]|[-> ->]].
    + rewrite mark_complete_spec by done. repeat case_decide; try done; eexists.
      * split; [done|]. split_and!; [done|set_solver|by left].
      * split; [done|]. split_and!; [by apply set_completed_ok| |by right].
        by rewrite completed_set_set.
    + rewrite mark_incomplete_spec by done. repeat case_decide; try done; eexists.
      * split; [done|]. split_and!; [by apply set_completed_ok| |by right].
        by rewrite completed_set_set.
      * split; [done|]. split_and!; [done|set_solver|by left].
  - rewrite all_complete_spec by done. split.
    + intros H. apply set_eq. intros j. rewrite elem_of_list_to_set, elem_of_seqZ.
      rewrite elem_of_completed by done. specialize (H j). rewrite elem_of_completed in H by done.
      naive_solver lia.
    + intros -> j Hj. apply elem_of_list_to_set, elem_of_seqZ. lia.
Qed.

Definition example_store : ResumeStore :=
  {| path_ := str "out/a.resume"; swarm_id_ := str "abc"; chunk_count_ := 3;
     completed_ := [true; false; true]; revision_ := 2; dirty_ := true |}.

Lemma example_store_ok : store_ok example_store.
Proof. repeat split; vm_compute; first [reflexivity | discriminate]. Qed.

(** A system whose second write is short and whose sync fails. *)
Definition example_os : os :=
  {| files := {[ str "a" := {| data := str "old"; synced := str "old" |} ]}; fds := ∅;
     next_fd := 3; bad_closes := 0;
     script := [Works; Short 1; Interrupted; Works; Fails (str "EIO")]; history := [] |}.

Lemma write_atomic_atomic_witness :
  let '(r, s') := write_atomic (str "a") (str "new") example_os in
  r = Throw (Error (str "Unable to flush temporary resume state: EIO")) ∧
  files s' !! str "a" = files example_os !! str "a".
Proof.
  assert ((write_atomic (str "a") (str "new") example_os).1 =
    Throw (Error (str "Unable to flush temporary resume state: EIO"))) as Hr
    by (vm_compute; reflexivity).
  assert (∀ fd, is_Some (fds example_os !! fd) → fd < next_fd example_os) as Hfd
    by (intros fd [x Hx]; discriminate).
  pose proof (write_atomic_atomic (str "a") (str "new") example_os ltac:(discriminate) Hfd) as H.
  destruct (write_atomic (str "a") (str "new") example_os) as [r s'].
  cbn [fst] in Hr. subst r. split; [reflexivity|]. apply H.
Defined.

Lemma resume_roundtrip_witness :
  ∃ st', load_or_create (str "r") (Some (serialize_locked example_store)) (str "abc") 3 = Ok st' ∧
      store_ok st' ∧ completed_set st' = completed_set example_store ∧ dirty_ st' = false ∧
      path_ st' = str "r" ∧ swarm_id_ st' = str "abc".
Proof.
  apply (resume_roundtrip example_store (str "r") (str "abc") 3);
    [exact example_store_ok|repeat constructor; vm_compute; discriminate
    |discriminate|discriminate|lia].
Defined.

Lemma marks_are_set_operations_witness :
  ∃ st', mark_complete 1 example_store = (Ok tt, st') ∧ store_ok st' ∧
    completed_set st' = {[1]} ∪ completed_set example_store ∧
    (st' = example_store ∨ dirty_ st' = true).
Proof.
  destruct (marks_are_set_operations 1 example_store example_store_ok) as [H _]; [lia|].
  apply (H mark_complete true). left. split; reflexivity.
Defined.
