(* ===== verification/ResumeFlush.v ===== *)
(** * ResumeFlush: [ResumeStore::flush] under concurrency

    [flush] releases the object's mutex while it replaces the file, so marks
    can happen between its two critical sections, and so could another flush.
    A step relation interleaves the critical sections of the flushes in
    progress with marks; the replacement of the file is one step by
    [ResumeStore.write_atomic_atomic]. *)

From S2P Require Export Prelude.
From S2P Require Import Text ResumeStore.

#[local] Open Scope Z_scope.

(** ** Definitions *)

(** A flush between its critical sections: what it took, and whether the file
    was replaced already. *)
Record flight := { fl_snapshot : bytes; fl_revision : Z; fl_written : bool }.

Record shared := {
  sh_store : ResumeStore;
  sh_disk : option bytes;
  sh_flights : list flight
}.

(** One step.  When [serial] is true a flush begins only while no other is in
    progress, as under the [write_mutex] of the downloader. *)
Inductive step (serial : bool) : shared → shared → Prop :=
| step_complete i st st' d fs :
    0 ≤ i → mark_complete i st = (Ok tt, st') →
    step serial {| sh_store := st; sh_disk := d; sh_flights := fs |}
         {| sh_store := st'; sh_disk := d; sh_flights := fs |}
| step_incomplete i st st' d fs :
    0 ≤ i → mark_incomplete i st = (Ok tt, st') →
    step serial {| sh_store := st; sh_disk := d; sh_flights := fs |}
         {| sh_store := st'; sh_disk := d; sh_flights := fs |}
| step_begin st d fs snapshot revision :
    flush_begin st = Some (snapshot, revision) → (serial = true → fs = []) →
    step serial {| sh_store := st; sh_disk := d; sh_flights := fs |}
         {| sh_store := st; sh_disk := d;
            sh_flights := fs ++ [{| fl_snapshot := snapshot; fl_revision := revision;
                                    fl_written := false |}] |}
| step_write st d fs1 fs2 s r :
    step serial
         {| sh_store := st; sh_disk := d;
            sh_flights := fs1 ++ {| fl_snapshot := s; fl_revision := r; fl_written := false |} :: fs2 |}
         {| sh_store := st; sh_disk := Some s;
            sh_flights := fs1 ++ {| fl_snapshot := s; fl_revision := r; fl_written := true |} :: fs2 |}
| step_throw st d fs1 fs2 s r :
    step serial
         {| sh_store := st; sh_disk := d;
            sh_flights := fs1 ++ {| fl_snapshot := s; fl_revision := r; fl_written := false |} :: fs2 |}
         {| sh_store := st; sh_disk := d; sh_flights := fs1 ++ fs2 |}
| step_end st d fs1 fs2 s r :
    step serial
         {| sh_store := st; sh_disk := d;
            sh_flights := fs1 ++ {| fl_snapshot := s; fl_revision := r; fl_written := true |} :: fs2 |}
         {| sh_store := flush_end r st; sh_disk := d; sh_flights := fs1 ++ fs2 |}.

(** The state after the store was created or loaded. *)
Definition starts (st : ResumeStore) (disk : option bytes) : shared :=
  {| sh_store := st; sh_disk := disk; sh_flights := [] |}.

(** What the serial executions keep: the flush in progress has a snapshot of
    the store [k] marks ago, and a clean store is the one on disk. *)
Definition consistent (n : nat) (s : shared) : Prop :=
  store_ok (sh_store s) ∧
  match sh_flights s with
  | [] => dirty_ (sh_store s) = false → sh_disk s = Some (serialize_locked (sh_store s))
  | [f] => dirty_ (sh_store s) = true ∧ (fl_written f = true → sh_disk s = Some (fl_snapshot f)) ∧
      0 ≤ fl_revision f < 2 ^ 64 ∧
      ∃ k, 0 ≤ k ≤ Z.of_nat n ∧ revision_ (sh_store s) = u64 (fl_revision f + k) ∧
           (k = 0 → serialize_locked (sh_store s) = fl_snapshot f)
  | _ => False
  end.

(** ** Lemmas *)

Lemma serialize_with_dirty st b : serialize_locked (with_dirty st b) = serialize_locked st.
Proof. done. Qed.

(** A mark leaves the store alone or counts one more revision. *)
Lemma mark_result i op st st' :
  store_ok st → 0 ≤ i → op = mark_complete ∨ op = mark_incomplete →
  op i st = (Ok tt, st') → st' = st ∨ ∃ v, st' = set_completed st i v.
Proof.
  intros Hst Hi [-> | ->]; [rewrite mark_complete_spec by done|rewrite mark_incomplete_spec by done];
    repeat case_decide; intros [= <-]; eauto.
Qed.

Lemma u64_same a k : 0 ≤ a < 2 ^ 64 → 0 ≤ k < 2 ^ 64 → u64 (a + k) = a → k = 0.
Proof.
  unfold u64. intros Ha Hk H. pose proof (Z.div_mod (a + k) (2 ^ 64) ltac:(lia)).
  assert ((a + k) / 2 ^ 64 = 0 ∨ (a + k) / 2 ^ 64 = 1) as [E|E]; [|lia..].
  assert (0 ≤ (a + k) / 2 ^ 64 < 2); [|lia]. split; [apply Z.div_pos; lia|].
  apply Z.div_lt_upper_bound; lia.
Qed.

Lemma consistent_mark n i op st st' d fs :
  0 ≤ i → op = mark_complete ∨ op = mark_incomplete → op i st = (Ok tt, st') →
  consistent n {| sh_store := st; sh_disk := d; sh_flights := fs |} →
  consistent (S n) {| sh_store := st'; sh_disk := d; sh_flights := fs |}.
Proof.
  intros Hi Hop Hm [Hst Hfs]. cbn [sh_store sh_flights sh_disk] in *.
  destruct (mark_result i op st st' Hst Hi Hop Hm) as [->|[v ->]].
  - split; [done|]. destruct fs as [|f [|]]; [done| |done].
    destruct Hfs as (? & ? & ? & k & ? & ? & ?). cbn [sh_store sh_flights sh_disk].
    split_and!; try done || lia. exists k. split_and!; try done || lia.
  - split; [by apply set_completed_ok|]. destruct fs as [|f [|]]; [done| |done].
    destruct Hfs as (? & ? & ? & k & ? & Hr & ?). cbn [sh_store sh_flights sh_disk].
    split_and!; try done || lia. exists (k + 1). split_and!; try lia.
    cbn [set_completed revision_]. rewrite Hr. unfold u64.
    rewrite Zplus_mod_idemp_l. f_equal. lia.
Qed.

Lemma consistent_step n s s' :
  Z.of_nat n < 2 ^ 64 → step true s s' → consistent n s → consistent (S n) s'.
Proof.
  intros Hn Hstep Hc. destruct Hstep as [i st st' d fs Hi Hm|i st st' d fs Hi Hm
    |st d fs sn r Hb Hser|st d fs1 fs2 sn r|st d fs1 fs2 sn r|st d fs1 fs2 sn r].
  - by apply (consistent_mark n i mark_complete st); auto.
  - by apply (consistent_mark n i mark_incomplete st); auto.
  - rewrite (Hser eq_refl) in *. destruct Hc as [Hst _].
    unfold flush_begin in Hb. cbn [sh_store] in *.
    destruct (dirty_ st) eqn:Hd; [|done]. injection Hb as <- <-.
    split; [done|]. cbn. destruct Hst as (? & ? & ?). split_and!; try done || lia.
    exists 0. rewrite Z.add_0_r, u64_small by lia. split_and!; try done || lia.
  - destruct fs1 as [|? [|]], fs2; try (by destruct Hc as [_ []]).
    destruct Hc as (? & ? & _ & ? & k & ? & ? & ?). cbn in *.
    split; [done|]. cbn. split_and!; try done || lia. exists k. split_and!; try done || lia.
  - destruct fs1 as [|? [|]], fs2; try (by destruct Hc as [_ []]).
    destruct Hc as (? & Hd & _). split; [done|]. cbn in *. congruence.
  - destruct fs1 as [|? [|]], fs2; try (by destruct Hc as [_ []]).
    destruct Hc as ((? & ? & Hrr) & Hd & Hw & Hr & k & Hk & Hrev & Hs). cbn in *.
    unfold flush_end. split; [by case_match|]. cbn. intros Hclean.
    destruct (Z.eqb_spec (revision_ st) r) as [He|He]; [|congruence].
    rewrite serialize_with_dirty, (Hw eq_refl), Hs; [done|].
    apply (u64_same r k); [lia|lia|congruence].
Qed.

Lemma consistent_steps n s s' m :
  nsteps (step true) n s s' → Z.of_nat (m + n) ≤ 2 ^ 64 → consistent m s →
  consistent (m + n) s'.
Proof.
  intros H. revert m. induction H as [s|n s1 s2 s3 H1 H2 IH]; intros m Hm Hc.
  - by rewrite Nat.add_0_r.
  - replace (m + S n)%nat with (S m + n)%nat in * by lia. apply IH; [done|].
    eapply consistent_step; [|done|done]. lia.
Qed.

(** ** Properties *)

(** C21: flushing one at a time never loses a mark: after any interleaving of
    marks, flush sections and failed writes, as long as fewer than 2^64 steps
    were made, a store that is not dirty and has no flush in progress is
    exactly what the file on disk holds. *)
Theorem serial_flush_consistent st disk n s :
  store_ok st → (dirty_ st = false → disk = Some (serialize_locked st)) →
  Z.of_nat n ≤ 2 ^ 64 → nsteps (step true) n (starts st disk) s →
  sh_flights s = [] → dirty_ (sh_store s) = false →
  sh_disk s = Some (serialize_locked (sh_store s)).
Proof.
  intros Hst Hd Hn H Hf Hclean.
  assert (consistent 0 (starts st disk)) as H0 by done.
  destruct (consistent_steps n _ s 0 H Hn H0) as [_ Hc]. rewrite Hf in Hc. by apply Hc.
Qed.

(** Two chunks, none complete. *)
Definition two_chunks : ResumeStore :=
  {| path_ := str "r"; swarm_id_ := str "s"; chunk_count_ := 2;
     completed_ := [false; false]; revision_ := 0; dirty_ := true |}.

(** C36: the object alone does not give that guarantee: with two flushes in
    progress the older snapshot can be written last, after which the store is
    clean but the file on disk lacks a chunk that was marked complete. *)
Theorem concurrent_flush_loses_mark :
  ∃ s, rtc (step false) (starts two_chunks None) s ∧
    sh_flights s = [] ∧ dirty_ (sh_store s) = false ∧
    0 ∈ completed_set (sh_store s) ∧
    sh_disk s = Some (serialize_locked two_chunks) ∧
    sh_disk s ≠ Some (serialize_locked (sh_store s)).
Proof.
  eexists. split.
  - eapply rtc_l; [apply (step_begin false two_chunks None []); [vm_compute; reflexivity|done]|].
    eapply rtc_l; [apply (step_complete false 0); [lia|vm_compute; reflexivity]|].
    eapply rtc_l; [eapply step_begin; [vm_compute; reflexivity|done]|].
    eapply rtc_l; [eapply (step_write false _ _ [_] [])|].
    eapply rtc_l; [eapply (step_write false _ _ [] [_])|].
    eapply rtc_l; [eapply (step_end false _ _ [_] [])|].
    eapply rtc_l; [eapply (step_end false _ _ [] [])|].
    apply rtc_refl.
  - split; [reflexivity|]. split; [vm_compute; reflexivity|].
    split; [by apply (bool_decide_unpack _); vm_compute|]. split; [reflexivity|].
    by apply (bool_decide_unpack _); vm_compute.
Qed.

Lemma serial_flush_consistent_witness :
  ∃ s, nsteps (step true) 4 (starts two_chunks None) s ∧
    sh_disk s = Some (serialize_locked (sh_store s)).
Proof.
  assert (∃ s, nsteps (step true) 4 (starts two_chunks None) s ∧ sh_flights s = [] ∧
            dirty_ (sh_store s) = false) as (s & Hs & Hf & Hd).
  { eexists. split.
    - eapply nsteps_l; [apply (step_complete true 0); [lia|vm_compute; reflexivity]|].
      eapply nsteps_l; [eapply step_begin; [vm_compute; reflexivity|reflexivity]|].
      eapply nsteps_l; [eapply (step_write true _ _ [] [])|].
      eapply nsteps_l; [eapply (step_end true _ _ [] [])|]. apply nsteps_O.
    - split; [reflexivity|vm_compute; reflexivity]. }
  exists s. split; [exact Hs|].
  apply (serial_flush_consistent two_chunks None 4 s); try assumption; try lia; [|discriminate].
  repeat split; vm_compute; first [reflexivity | discriminate].
Defined.
