(* ===== verification/Tracker.v ===== *)
(** * Tracker: [src/src/tracker.cpp]

    The tracker's registry of swarms and peers, the handling of one request,
    and the tracker client.  The threads and the queue of the server are in
    Pool; a connection is handled here from the moment a worker has it. *)

From S2P Require Export Prelude.
From S2P Require Import Text Crypto Protocol Stream Net.

#[local] Open Scope Z_scope.

(** ** Definitions *)

Record TrackerLimits := {
  max_connections : Z;
  worker_count : Z;
  max_swarms : Z;
  max_peers_per_swarm : Z;
  max_response_peers : Z
}.

Record PeerAdvertisement := {
  pa_swarm_id : bytes;
  pa_peer_id : bytes;
  pa_listen_port : Z;
  pa_chunks : list Z;
  pa_has_all_chunks : bool
}.

Record DiscoveredPeer := {
  dp_peer_id : bytes;
  dp_endpoint : Endpoint;
  dp_chunks : list Z;
  dp_has_all_chunks : bool
}.

(** [last_seen] is a [steady_clock] time in nanoseconds. *)
Record PeerRecord := { peer : DiscoveredPeer; last_seen : Z }.

(** [swarms_]. *)
Abbreviation registry := (gmap bytes (gmap bytes PeerRecord)).

(** The members of the server that a request reads. *)
Record TrackerServer := {
  requested_port_ : Z;
  token_ : bytes;
  ttl_ : Z;
  bind_address_ : bytes;
  limits_ : TrackerLimits
}.

(** The constructor; [ttl] is in seconds. *)
Definition make_server (port : Z) (token : bytes) (ttl : Z) (bind_address : bytes)
    (limits : TrackerLimits) : res TrackerServer :=
  if bool_decide (token = []) || (ttl <=? 0) || bool_decide (bind_address = [])
  then throw "Tracker server requires a token, positive TTL, and bind address"
  else if (max_connections limits =? 0) || (worker_count limits =? 0) ||
          (worker_count limits >? max_connections limits) || (max_swarms limits =? 0) ||
          (max_peers_per_swarm limits =? 0) || (max_response_peers limits =? 0) ||
          (max_response_peers limits >? max_peers_per_swarm limits)
  then throw "Tracker limits must be positive and internally consistent"
  else Ok {| requested_port_ := port; token_ := token; ttl_ := ttl;
             bind_address_ := bind_address; limits_ := limits |}.

(** The order in which a range-for visits an [unordered_map]: unspecified, but
    every element once. *)
Class IterationOrder := {
  iteration : gmap bytes PeerRecord → list (bytes * PeerRecord);
  iteration_perm m : iteration m ≡ₚ map_to_list m
}.

(** [now - last_seen >= ttl_], nanoseconds against seconds. *)
Definition expired (ttl now : Z) (record : PeerRecord) : bool :=
  now - last_seen record >=? ttl * 1000000000.

(** [prune_expired_locked]: the inner loop erases expired peers, the outer
    loop the swarms that become empty. *)
Definition prune_peers (ttl now : Z) (members : gmap bytes PeerRecord) : gmap bytes PeerRecord :=
  filter (λ '(_, record), expired ttl now record = false) members.

Definition prune_expired_locked (ttl now : Z) (swarms : registry) : registry :=
  omap (λ members,
    let live := prune_peers ttl now members in
    if bool_decide (live = ∅) then None else Some live) swarms.

Definition size_of {V} (m : gmap bytes V) : Z := Z.of_nat (size m).

(** The critical section of an announcement. *)
Definition register_peer (server : TrackerServer) (now : Z) (request : TrackerRequest)
    (record : PeerRecord) (swarms : registry) : bool * registry :=
  let swarms := prune_expired_locked (ttl_ server) now swarms in
  let swarms :=
    match swarms !! tr_swarm_id request with
    | Some _ => swarms
    | None => if size_of swarms <? max_swarms (limits_ server)
              then <[tr_swarm_id request := ∅]> swarms else swarms
    end in
  match swarms !! tr_swarm_id request with
  | None => (false, swarms)
  | Some members =>
      if bool_decide (is_Some (members !! tr_peer_id request)) ||
         (size_of members <? max_peers_per_swarm (limits_ server))
      then (true, <[tr_swarm_id request := <[tr_peer_id request := record]> members]> swarms)
      else (false, swarms)
  end.

(** The loop that copies the peers of a swarm, with its [break]. *)
Fixpoint copy_peers (max : Z) (records : list (bytes * PeerRecord)) (found : list DiscoveredPeer)
    : list DiscoveredPeer :=
  match records with
  | [] => found
  | (_, record) :: records' =>
      let found := found ++ [peer record] in
      if len found =? max then found else copy_peers max records' found
  end.

(** The critical section of a query. *)
Definition find_peers `{IterationOrder} (server : TrackerServer) (now : Z)
    (request : TrackerRequest) (swarms : registry) : list DiscoveredPeer * registry :=
  let swarms := prune_expired_locked (ttl_ server) now swarms in
  (match swarms !! tr_swarm_id request with
   | Some members => copy_peers (max_response_peers (limits_ server)) (iteration members) []
   | None => []
   end, swarms).

(** Operations on the registry next to the connection. *)
Definition on_conn {R A} (m : io conn A) : io (R * conn) A := λ '(reg, c),
  let '(r, c') := m c in (r, (reg, c')).
Definition locked {R A} (f : R → A * R) : io (R * conn) A := λ '(reg, c),
  let '(a, reg') := f reg in (Ok a, (reg', c)).

Definition peer_line (p : DiscoveredPeer) : res bytes :=
  let! text := encode_chunk_list (dp_chunks p) (dp_has_all_chunks p) in
  Ok (str "PEER " ++ dp_peer_id p ++ str " " ++ host (dp_endpoint p) ++ str " " ++
      to_string (port (dp_endpoint p)) ++ str " " ++ text ++ [LF]).

Fixpoint send_peers (found : list DiscoveredPeer) : io conn unit :=
  match found with
  | [] => ret tt
  | p :: rest =>
      do line <- lift (peer_line p);
      do _ <- write_all line;
      send_peers rest
  end.

(** The [PeerRecord] of an announcement: the port is the announced one, the
    address the one the connection comes from. *)
Definition make_record (now : Z) (remote_endpoint : Endpoint) (request : TrackerRequest) : PeerRecord :=
  {| peer := {| dp_peer_id := tr_peer_id request;
                dp_endpoint := {| host := host remote_endpoint; port := tr_listen_port request |};
                dp_chunks := tr_chunks request;
                dp_has_all_chunks := tr_has_all_chunks request |};
     last_seen := now |}.

(** [handle_connection]; [now] is the clock after the request was read. *)
Definition handle_request `{IterationOrder} (server : TrackerServer) (now : Z)
    (remote_endpoint : Endpoint) : io (registry * conn) unit :=
  do header <- on_conn (read_line kMaxHeaderBytes);
  do request <- lift (parse_tracker_request header);
  if negb (secure_token_equal (token_ server) (tr_token request))
  then on_conn (write_all (str "ERROR unauthorized" ++ [LF]))
  else
    match kind request with
    | announce =>
        let record := make_record now remote_endpoint request in
        do accepted <- locked (register_peer server now request record);
        if negb accepted then on_conn (write_all (str "ERROR capacity" ++ [LF]))
        else on_conn (write_all (str "OK" ++ [LF]))
    | peers =>
        do found <- locked (find_peers server now request);
        do _ <- on_conn (send_peers found);
        on_conn (write_all (str "END" ++ [LF]))
    end.

Definition handle_connection `{IterationOrder} (server : TrackerServer) (now : Z)
    (remote_endpoint : Endpoint) : io (registry * conn) unit :=
  catch_error (handle_request server now remote_endpoint)
    (λ _, catch_error (on_conn (write_all (str "ERROR bad_request" ++ [LF]))) (λ _, ret tt)).

(** [endpoint()] of a server whose member [endpoint_] is [e]. *)
Definition tracker_endpoint (e : Endpoint) : res Endpoint :=
  if bool_decide (host e = []) || (port e =? 0) then throw "Tracker server has not started" else Ok e.

(** [send_tracker_error], used by the accept loop for a busy server. *)
Definition send_tracker_error (code : bytes) : io conn unit :=
  catch_error (write_all (str "ERROR " ++ code ++ [LF])) (λ _, ret tt).

(** *** The client *)

Record TrackerClient := { endpoint_ : Endpoint; client_token : bytes; timeout_ : Z }.

Definition make_client (endpoint : Endpoint) (token : bytes) (timeout : Z) : res TrackerClient :=
  if bool_decide (host endpoint = []) || (port endpoint =? 0) || bool_decide (token = []) ||
     (timeout <=? 0)
  then throw "Tracker client requires endpoint, token, and positive timeout"
  else Ok {| endpoint_ := endpoint; client_token := token; timeout_ := timeout |}.

Definition split_response : bytes → res (list bytes) :=
  split_fields "Tracker response has an invalid length"
    "Tracker response contains an invalid character"
    "Tracker response contains an empty field"
    "Tracker response ends with a separator".

Definition parse_peer_response (line : bytes) : res DiscoveredPeer :=
  let! fields := split_response line in
  match fields with
  | [front; id; address; port_text; chunk_text] =>
      if negb (beq front (str "PEER")) then throw "Tracker returned an invalid peer record"
      else
        let! validated := parse_tracker_request
          (str "ANNOUNCE check-token check-swarm " ++ id ++ str " " ++ port_text ++ str " " ++
           chunk_text) in
        let! _ := parse_tracker_request (str "PEERS check-token " ++ address) in
        Ok {| dp_peer_id := id;
              dp_endpoint := {| host := address; port := tr_listen_port validated |};
              dp_chunks := tr_chunks validated;
              dp_has_all_chunks := tr_has_all_chunks validated |}
  | _ => throw "Tracker returned an invalid peer record"
  end.

Definition expect_ok : io conn unit :=
  do response <- read_line kMaxHeaderBytes;
  if negb (beq response (str "OK"))
  then raise (Error (str "Tracker rejected request: " ++ response))
  else ret tt.

(** The header of an announcement, as both sides see it. *)
Definition announce_header (token : bytes) (advertisement : PeerAdvertisement) (chunks : bytes) : bytes :=
  str "ANNOUNCE " ++ token ++ str " " ++ pa_swarm_id advertisement ++ str " " ++
  pa_peer_id advertisement ++ str " " ++ to_string (pa_listen_port advertisement) ++ str " " ++ chunks.

Definition client_announce (client : TrackerClient) (advertisement : PeerAdvertisement) : io net unit :=
  do chunks <- lift (encode_chunk_list (pa_chunks advertisement) (pa_has_all_chunks advertisement));
  let header := announce_header (client_token client) advertisement chunks in
  do _ <- lift (parse_tracker_request header);
  with_connection (endpoint_ client)
    (do _ <- write_all (header ++ [LF]); expect_ok).

(** The loop of [peers]. *)
Fixpoint peers_loop (fuel : nat) (discovered : list DiscoveredPeer) : io conn (list DiscoveredPeer) :=
  match fuel with
  | O => raise Diverged
  | S fuel' =>
      do response <- read_line kMaxHeaderBytes;
      if beq response (str "END") then ret discovered
      else if starts_with (str "ERROR ") response
      then raise (Error (str "Tracker rejected peer query: " ++ response))
      else
        do found <- lift (parse_peer_response response);
        peers_loop fuel' (discovered ++ [found])
  end.

(** Every line uses at least one event or byte. *)
Definition client_peers (client : TrackerClient) (swarm_id : bytes) : io net (list DiscoveredPeer) :=
  let header := str "PEERS " ++ client_token client ++ str " " ++ swarm_id in
  do _ <- lift (parse_tracker_request header);
  with_connection (endpoint_ client)
    (do _ <- write_all (header ++ [LF]);
     λ c, peers_loop (recv_fuel (incoming c)) [] c).

(** *** Specifications *)

(** The record of a peer in a swarm. *)
Definition peer_at (m : registry) (swarm id : bytes) : option PeerRecord :=
  m !! swarm ≫= λ members, members !! id.

(** A peer's record, unless it is expired. *)
Definition live_at (ttl now : Z) (m : registry) (swarm id : bytes) : option PeerRecord :=
  match peer_at m swarm id with
  | Some r => if expired ttl now r then None else Some r
  | None => None
  end.

(** The limits after the constructor's checks. *)
Definition limits_ok (l : TrackerLimits) : Prop :=
  1 ≤ worker_count l ≤ max_connections l ∧ 1 ≤ max_swarms l ∧
  1 ≤ max_response_peers l ≤ max_peers_per_swarm l.

Definition server_ok (server : TrackerServer) : Prop :=
  token_ server ≠ [] ∧ 1 ≤ ttl_ server ∧ limits_ok (limits_ server).

(** The parts of the record fit into one announcement in [swarm] under [token]
    that the parser accepts.  Which announcement a record did come from is what
    Presence shows. *)
Definition announced (token swarm : bytes) (p : DiscoveredPeer) : Prop :=
  safe_atom (dp_peer_id p) = true ∧ 1 ≤ port (dp_endpoint p) ≤ 65535 ∧
  chunks_ok (dp_chunks p) ∧ (dp_has_all_chunks p = true → dp_chunks p = []) ∧
  ∃ text, encode_chunk_list (dp_chunks p) (dp_has_all_chunks p) = Ok text ∧
    len (str "ANNOUNCE") + 1 + len token + 1 + len swarm + 1 + len (dp_peer_id p) + 1 +
    len (to_string (port (dp_endpoint p))) + 1 + len text ≤ kMaxHeaderBytes.

(** The registry invariant: the limits hold, no swarm is empty, and every
    record is filed under its own identifier and well formed. *)
Definition members_ok (server : TrackerServer) (swarm : bytes) (members : gmap bytes PeerRecord) : Prop :=
  safe_atom swarm = true ∧ members ≠ ∅ ∧ size_of members ≤ max_peers_per_swarm (limits_ server) ∧
  map_Forall (λ id r, dp_peer_id (peer r) = id ∧ announced (token_ server) swarm (peer r)) members.

Definition registry_ok (server : TrackerServer) (m : registry) : Prop :=
  size_of m ≤ max_swarms (limits_ server) ∧ map_Forall (members_ok server) m.

(** ** The registry *)

Lemma make_server_ok port token ttl bind_address limits server :
  0 ≤ max_connections limits → 0 ≤ worker_count limits → 0 ≤ max_swarms limits →
  0 ≤ max_peers_per_swarm limits → 0 ≤ max_response_peers limits →
  make_server port token ttl bind_address limits = Ok server → server_ok server ∧ token_ server = token.
Proof.
  intros H1 H2 H3 H4 H5. unfold make_server. destruct (_ || _ || _) eqn:Ea; [done|].
  match goal with |- (if ?b then _ else _) = _ → _ => destruct b eqn:Eb end; [done|].
  intros <-%Ok_inj. reflect. unfold server_ok, limits_ok. simpl. split_and!; try done; lia.
Qed.

Lemma lookup_prune ttl now m swarm :
  prune_expired_locked ttl now m !! swarm =
    match m !! swarm with
    | Some members =>
        if bool_decide (prune_peers ttl now members = ∅) then None
        else Some (prune_peers ttl now members)
    | None => None
    end.
Proof. unfold prune_expired_locked. rewrite lookup_omap. by destruct (m !! swarm). Qed.

(** Pruning removes exactly the expired records. *)
Lemma peer_at_prune ttl now m swarm id :
  peer_at (prune_expired_locked ttl now m) swarm id =
    match peer_at m swarm id with
    | Some r => if expired ttl now r then None else Some r
    | None => None
    end.
Proof.
  unfold peer_at. rewrite lookup_prune. destruct (m !! swarm) as [members|]; simpl; [|done].
  assert (prune_peers ttl now members !! id =
    match members !! id with Some r => if expired ttl now r then None else Some r | None => None end) as Hp.
  { unfold prune_peers. rewrite map_lookup_filter. destruct (members !! id) as [r|]; simpl; [|done].
    by destruct (expired ttl now r). }
  case_bool_decide as He; simpl; [|done]. by rewrite <-Hp, He, lookup_empty.
Qed.

Lemma prune_subseteq ttl now members : prune_peers ttl now members ⊆ members.
Proof. apply map_filter_subseteq. Qed.

Lemma size_of_subseteq {V} (m1 m2 : gmap bytes V) : m1 ⊆ m2 → size_of m1 ≤ size_of m2.
Proof. intros H%map_subseteq_size. unfold size_of. lia. Qed.

Lemma size_of_prune ttl now m : size_of (prune_expired_locked ttl now m) ≤ size_of m.
Proof.
  unfold size_of, prune_expired_locked. apply Nat2Z.inj_le.
  rewrite <-!size_dom. apply subseteq_size, dom_omap_subseteq.
Qed.

Lemma prune_registry_ok server now m :
  registry_ok server m → registry_ok server (prune_expired_locked (ttl_ server) now m).
Proof.
  intros [Hsize Hm]. split.
  - pose proof (size_of_prune (ttl_ server) now m). lia.
  - intros swarm members. rewrite lookup_prune. destruct (m !! swarm) as [members0|] eqn:E; [|done].
    case_bool_decide as He; [done|]. intros [= <-].
    destruct (Hm swarm members0 E) as (? & ? & Hs & Hr). split_and!; try done.
    + pose proof (size_of_subseteq _ _ (prune_subseteq (ttl_ server) now members0)). lia.
    + intros id r Hid. apply Hr. eapply lookup_weaken; [done|apply prune_subseteq].
Qed.

(** Nothing expired is left. *)
Definition all_live (ttl now : Z) (m : registry) : Prop :=
  ∀ swarm id r, peer_at m swarm id = Some r → expired ttl now r = false.

Lemma prune_all_live ttl now m : all_live ttl now (prune_expired_locked ttl now m).
Proof.
  intros swarm id r. rewrite peer_at_prune. destruct (peer_at m swarm id) as [r'|]; [|done].
  destruct (expired ttl now r') eqn:E; [done|]. by intros [= <-].
Qed.

(** The whole effect of an announcement on the pruned registry. *)
Lemma register_peer_spec server now request record m :
  let live := prune_expired_locked (ttl_ server) now m in
  let swarm := tr_swarm_id request in
  let id := tr_peer_id request in
  1 ≤ max_peers_per_swarm (limits_ server) →
  register_peer server now request record m =
    if (match live !! swarm with
        | Some members => bool_decide (is_Some (members !! id)) ||
                          (size_of members <? max_peers_per_swarm (limits_ server))
        | None => size_of live <? max_swarms (limits_ server)
        end)
    then (true, <[swarm := <[id := record]> (default ∅ (live !! swarm))]> live)
    else (false, live).
Proof.
  intros live swarm id Hmax. unfold register_peer. fold live swarm id.
  destruct (live !! swarm) as [members|] eqn:E.
  - rewrite E. by case_match.
  - destruct (Z.ltb_spec (size_of live) (max_swarms (limits_ server))) as [Hs|Hs].
    + rewrite lookup_insert_eq. rewrite lookup_empty, bool_decide_eq_false_2 by (by intros [? ?]).
      assert (size_of (∅ : gmap bytes PeerRecord) = 0) as -> by done. cbn [orb].
      destruct (Z.ltb_spec 0 (max_peers_per_swarm (limits_ server))); [|lia].
      by rewrite insert_insert_eq.
    + by rewrite E.
Qed.

Lemma size_of_insert {V} (m : gmap bytes V) k v :
  size_of (<[k := v]> m) = size_of m + (if bool_decide (is_Some (m !! k)) then 0 else 1).
Proof.
  unfold size_of. case_bool_decide as H.
  - destruct H as [x Hx]. rewrite map_size_insert_Some by eauto. lia.
  - rewrite map_size_insert_None; [lia|]. by apply eq_None_not_Some.
Qed.

Lemma register_registry_ok server now request record m :
  server_ok server → registry_ok server m → safe_atom (tr_swarm_id request) = true →
  dp_peer_id (peer record) = tr_peer_id request →
  announced (token_ server) (tr_swarm_id request) (peer record) →
  registry_ok server (register_peer server now request record m).2.
Proof.
  intros (_ & _ & _ & Hms & Hmr) Hm Hswarm Hid Hrec. rewrite register_peer_spec by lia.
  apply (prune_registry_ok server now) in Hm. set (live := prune_expired_locked _ _ m) in *.
  match goal with |- context [if ?b then _ else _] => destruct b eqn:E end; [|done].
  cbn [snd]. destruct Hm as [Hsize Hlive]. split.
  - rewrite size_of_insert. case_bool_decide as Hin; [lia|].
    destruct (live !! tr_swarm_id request) eqn:El; [naive_solver|]. reflect. lia.
  - apply map_Forall_insert_2; [|done]. split_and!; [done|apply insert_non_empty| |].
    + rewrite size_of_insert. destruct (live !! tr_swarm_id request) as [members|] eqn:El; simpl.
      * destruct (Hlive _ _ El) as (_ & _ & Hs & _). case_bool_decide as Hin; [lia|].
        apply orb_true_iff in E as [Hb|Hb]; reflect; [done|lia].
      * rewrite lookup_empty, bool_decide_eq_false_2 by (by intros [? ?]).
        assert (size_of (∅ : gmap bytes PeerRecord) = 0) as -> by done. lia.
    + apply map_Forall_insert_2; [done|]. destruct (live !! tr_swarm_id request) as [members|] eqn:El; simpl.
      * by destruct (Hlive _ _ El) as (_ & _ & _ & Hs).
      * apply map_Forall_empty.
Qed.

(** ** One request *)

Section Requests.
Context `{HI : IterationOrder}.
Variables (server : TrackerServer) (now : Z) (remote : Endpoint).

(** What a request does to the registry. *)
Definition request_effect (request : TrackerRequest) (m : registry) : registry :=
  if negb (secure_token_equal (token_ server) (tr_token request)) then m
  else match kind request with
       | announce => (register_peer server now request (make_record now remote request) m).2
       | peers => prune_expired_locked (ttl_ server) now m
       end.

(** The effect of a connection: that of the request it carries, if any. *)
Definition connection_effect (c : conn) (m : registry) : registry :=
  match (read_line kMaxHeaderBytes c).1 with
  | Ok header =>
      match parse_tracker_request header with
      | Ok request => request_effect request m
      | Throw _ => m
      end
  | Throw _ => m
  end.

Lemma on_conn_write {R} (m : R) data c r m' c' :
  on_conn (write_all data) (m, c) = (r, (m', c')) → errors_only r ∧ m' = m ∧ incoming c' = incoming c.
Proof.
  unfold on_conn. destruct (write_all data c) as [r0 c0] eqn:E. intros [= <- <- <-].
  apply write_all_spec in E as (_ & ? & [[-> _]|(w & ? & ? & -> & _)]); done.
Qed.

Lemma peer_line_errors p : errors_only (peer_line p).
Proof. unfold peer_line. apply rbind_errors_only; [apply encode_chunk_list_errors|done]. Qed.

Lemma send_peers_errors l c r c' :
  send_peers l c = (r, c') → errors_only r.
Proof.
  revert c. induction l as [|p l IH]; intros c; cbn [send_peers]; [by intros [= <- _]|].
  unfold bind, lift. pose proof (peer_line_errors p) as Hp.
  destruct (peer_line p) as [line|e]; [|intros [= <- _]; by destruct e].
  destruct (write_all line c) as [[u|e] c1] eqn:E; [apply IH|]. intros [= <- _].
  apply write_all_spec in E as (_ & _ & [[? _]|(w & ? & ? & He & _)]); [done|by injection He as ->].
Qed.

Lemma on_conn_send_peers {R} (m : R) l c r m' c' :
  on_conn (send_peers l) (m, c) = (r, (m', c')) → errors_only r ∧ m' = m.
Proof.
  unfold on_conn. destruct (send_peers l c) as [r0 c0] eqn:E. intros [= <- <- <-].
  split; [by eapply send_peers_errors|done].
Qed.

Lemma handle_request_effect m c r m' c' :
  handle_request server now remote (m, c) = (r, (m', c')) →
  errors_only r ∧ m' = connection_effect c m.
Proof.
  unfold handle_request, connection_effect. unfold bind at 1. unfold on_conn at 1.
  destruct (read_line kMaxHeaderBytes c) as [r0 c0] eqn:Er. simpl.
  apply read_line_outcome in Er as (He & _ & _); [|done].
  destruct r0 as [h|e]; [|intros [= <- <- _]; by destruct e].
  unfold bind at 1. unfold lift. pose proof (parse_tracker_request_errors h) as Hp.
  destruct (parse_tracker_request h) as [req|e]; [|intros [= <- <- _]; by destruct e].
  unfold request_effect. destruct (negb _); [by intros (? & -> & _)%on_conn_write|].
  destruct (kind req); unfold bind at 1; unfold locked at 1.
  - destruct (register_peer server now req (make_record now remote req) m) as [accepted m1].
    destruct (negb accepted); by intros (? & -> & _)%on_conn_write.
  - unfold find_peers. unfold bind.
    match goal with |- context [on_conn (send_peers ?l) (?m1, c0)] =>
      destruct (on_conn (send_peers l) (m1, c0)) as [[u|e] [m2 c2]] eqn:Es end.
    + apply on_conn_send_peers in Es as [_ ->]. by intros (? & -> & _)%on_conn_write.
    + apply on_conn_send_peers in Es as [? ->]. intros [= <- <- _]. by destruct e.
Qed.

(** A worker survives every connection: whatever the peer sends and however
    its socket fails, no exception leaves the handler, and the registry
    changes exactly as the request says. *)
Lemma handle_connection_effect m c r m' c' :
  handle_connection server now remote (m, c) = (r, (m', c')) →
  r = Ok tt ∧ m' = connection_effect c m.
Proof.
  unfold handle_connection, catch_error at 1.
  destruct (handle_request server now remote (m, c)) as [r0 [m0 c0]] eqn:E.
  apply handle_request_effect in E as [He ->].
  destruct r0 as [[]|[w|w|]]; try done; [by intros [= <- <- _]|].
  unfold catch_error.
  destruct (on_conn (write_all (str "ERROR bad_request" ++ [LF])) (connection_effect c m, c0))
    as [r1 [m1 c1]] eqn:Ew. apply on_conn_write in Ew as (He1 & -> & _).
  destruct r1 as [[]|[w'|w'|]]; try done; by intros [= <- <- _].
Qed.

(** Every accepted announcement makes a well-formed record. *)
Lemma make_record_announced h request :
  parse_tracker_request h = Ok request → kind request = announce → len h ≤ kMaxHeaderBytes →
  announced (tr_token request) (tr_swarm_id request) (peer (make_record now remote request)).
Proof.
  intros Hp Hk Hh. pose proof (parse_tracker_request_sound h request Hp) as (_ & _ & Hr).
  rewrite Hk in Hr. destruct Hr as (Hid & Hport & Hcs & Hall). unfold announced. simpl.
  split_and!; try done; try lia. clear Hid Hcs Hall.
  revert Hp. unfold parse_tracker_request. intros Hp. bind_inv Hp fields Hf.
  apply split_fields_iff in Hf as (_ & _ & -> & _).
  destruct (beq (default [] (head fields)) (str "ANNOUNCE")) eqn:Ha.
  2:{ destruct (beq _ (str "PEERS")); [|done].
      destruct fields as [|? [|? [|? [|]]]]; try done. bind_skip Hp u1. bind_skip Hp u2.
      by apply Ok_inj in Hp as <-. }
  destruct fields as [|f0 [|token [|swarm [|id [|pt [|ct [|]]]]]]]; try done.
  apply beq_spec in Ha. simpl in Ha. subst f0.
  bind_skip Hp u1. bind_skip Hp u2. bind_skip Hp u3. bind_inv Hp p Hpt.
  destruct ((p =? 0) || (p >? 65535)) eqn:Hpr; [done|].
  bind_inv Hp cs Hct. apply Ok_inj in Hp as <-. simpl in *.
  apply parse_field_iff in Hpt as (Hne & Hd & Hv & _).
  destruct (parse_chunk_list_length ct cs Hct) as (text & Ht & Hlen). exists text. split; [done|].
  pose proof (decimal_nonneg pt Hd). reflect. rewrite u16_small by lia.
  pose proof (to_string_shortest pt Hne Hd) as Hpl. rewrite Hv in Hpl.
  change (len (str "ANNOUNCE")) with 8.
  repeat rewrite ?len_cons, ?len_app in Hh. lia.
Qed.

Lemma connection_registry_ok m c :
  server_ok server → registry_ok server m → registry_ok server (connection_effect c m).
Proof.
  intros Hs Hm. unfold connection_effect.
  destruct (read_line kMaxHeaderBytes c) as [[h|e] c0] eqn:Er; simpl; [|done].
  apply read_line_outcome in Er as (_ & _ & Hh); [|done]. destruct (Hh h eq_refl) as [Hl _].
  destruct (parse_tracker_request h) as [req|] eqn:Hp; [|done].
  unfold request_effect. destruct (secure_token_equal _ _) eqn:Ht; [cbn [negb]|done].
  apply secure_token_equal_spec in Ht. pose proof (parse_tracker_request_sound h req Hp) as (_ & Hsw & _).
  destruct (kind req) eqn:Hk; [|by apply prune_registry_ok].
  apply register_registry_ok; try done. rewrite Ht. by eapply make_record_announced.
Qed.

End Requests.

(** ** Responses *)

Lemma copy_peers_spec max records found :
  len found < max →
  copy_peers max records found = found ++ take (Z.to_nat (max - len found)) (map (λ '(_, r), peer r) records).
Proof.
  revert found. induction records as [|[id r] records IH]; intros found Hlt; cbn [copy_peers map].
  - by rewrite take_nil, app_nil_r.
  - rewrite len_app, len_cons, len_nil. destruct (Z.eqb_spec (len found + (1 + 0)) max) as [E|E].
    + by replace (Z.to_nat (max - len found)) with 1%nat by lia.
    + rewrite IH by (rewrite len_app, len_cons, len_nil; lia).
      rewrite len_app, len_cons, len_nil, <-app_assoc.
      by replace (Z.to_nat (max - len found)) with (S (Z.to_nat (max - (len found + (1 + 0))))) by lia.
Qed.

(** The text of a peer's line. *)
Definition peer_text (p : DiscoveredPeer) : bytes :=
  match peer_line p with Ok line => line | Throw _ => [] end.

Section Responses.
Context `{HI : IterationOrder}.
Variables (server : TrackerServer) (now : Z) (remote : Endpoint).

(** The peers of a swarm are live peers of the registry, and all of them when
    they are not more than the limit. *)
Lemma find_peers_spec request m :
  limits_ok (limits_ server) →
  let live := prune_expired_locked (ttl_ server) now m in
  let members := default ∅ (live !! tr_swarm_id request) in
  find_peers server now request m =
    (take (Z.to_nat (max_response_peers (limits_ server))) (map (λ '(_, r), peer r) (iteration members)),
     live).
Proof.
  intros (_ & _ & Hl) live members. unfold find_peers. fold live. f_equal. unfold members.
  destruct (live !! tr_swarm_id request) as [ms|]; simpl.
  - rewrite copy_peers_spec by (rewrite len_nil; lia). by rewrite len_nil, Z.sub_0_r.
  - assert (iteration ∅ = []) as ->.
    { apply Permutation_nil. rewrite (iteration_perm ∅). by rewrite map_to_list_empty. }
    simpl. by rewrite take_nil.
Qed.

Lemma elem_of_found request m p :
  limits_ok (limits_ server) → p ∈ (find_peers server now request m).1 →
  ∃ id r, peer_at m (tr_swarm_id request) id = Some r ∧ expired (ttl_ server) now r = false ∧ p = peer r.
Proof.
  intros Hl. rewrite find_peers_spec by done. simpl. intros Hp.
  assert (p ∈ map (λ '(_, r), peer r)
    (iteration (default ∅ (prune_expired_locked (ttl_ server) now m !! tr_swarm_id request)))) as H.
  { eapply subseteq_take, Hp. } clear Hp.
  apply list_elem_of_fmap in H as ([id r] & -> & Hin). rewrite iteration_perm in Hin.
  apply elem_of_map_to_list in Hin. exists id, r.
  pose proof (peer_at_prune (ttl_ server) now m (tr_swarm_id request) id) as Hprune.
  unfold peer_at at 1 in Hprune.
  destruct (prune_expired_locked (ttl_ server) now m !! tr_swarm_id request) as [ms|]; simpl in *.
  - rewrite Hin in Hprune. destruct (peer_at m (tr_swarm_id request) id) as [r'|]; [|done].
    destruct (expired (ttl_ server) now r') eqn:E; [done|]. by injection Hprune as ->.
  - by rewrite lookup_empty in Hin.
Qed.

Lemma found_announced request m p :
  server_ok server → registry_ok server m → p ∈ (find_peers server now request m).1 →
  announced (token_ server) (tr_swarm_id request) p.
Proof.
  intros (_ & _ & Hl) [_ Hm] Hp. apply elem_of_found in Hp as (id & r & Hr & _ & ->); [|done].
  unfold peer_at in Hr. destruct (m !! tr_swarm_id request) as [ms|] eqn:E; [|done]. simpl in Hr.
  destruct (Hm _ _ E) as (_ & _ & _ & Hall). by apply Hall in Hr as [_ ?].
Qed.

(** The text of the answer to a header. *)
Definition response (header : bytes) (m : registry) : bytes :=
  match parse_tracker_request header with
  | Throw _ => str "ERROR bad_request" ++ [LF]
  | Ok request =>
      if negb (secure_token_equal (token_ server) (tr_token request))
      then str "ERROR unauthorized" ++ [LF]
      else match kind request with
           | announce =>
               if negb (register_peer server now request (make_record now remote request) m).1
               then str "ERROR capacity" ++ [LF] else str "OK" ++ [LF]
           | peers =>
               concat (map peer_text (find_peers server now request m).1) ++ str "END" ++ [LF]
           end
  end.

Lemma send_peers_ok l c :
  accepting c → Forall (λ p, is_ok (peer_line p) = true) l →
  ∃ c', send_peers l c = (Ok tt, c') ∧ incoming c' = incoming c ∧
        outgoing c' = outgoing c ++ concat (map peer_text l) ∧ accepting c'.
Proof.
  intros Hc Hl. revert c Hc. induction Hl as [|p l Hp Hl IH]; intros c Hc; cbn [send_peers].
  - exists c. by rewrite app_nil_r.
  - unfold bind, lift. cbn [map concat]. unfold peer_text at 1.
    destruct (peer_line p) as [line|]; [|done].
    destruct (write_all_ok line c Hc) as (c1 & -> & _ & Hi & Ho & Hc1).
    destruct (IH c1 Hc1) as (c2 & -> & Hi2 & Ho2 & Hc2). exists c2.
    split_and!; [done|congruence| |done]. by rewrite Ho2, Ho, <-app_assoc.
Qed.

Lemma announced_line token swarm p : announced token swarm p → is_ok (peer_line p) = true.
Proof. intros (_ & _ & _ & _ & text & Ht & _). unfold peer_line. by rewrite Ht. Qed.

(** On a connection that does not fail, a complete header gets its answer. *)
Lemma handle_connection_response m c h rest :
  server_ok server → registry_ok server m →
  valid c = true → clean (incoming c) → accepting c → payload (incoming c) = h ++ LF :: rest →
  Forall (λ c, 32 ≤ code c ≤ 126) h → len h ≤ kMaxHeaderBytes →
  ∃ c', handle_connection server now remote (m, c) =
          (Ok tt, (connection_effect server now remote c m, c')) ∧
        outgoing c' = outgoing c ++ response h m ∧
        connection_effect server now remote c m =
          match parse_tracker_request h with
          | Ok request => request_effect server now remote request m
          | Throw _ => m
          end.
Proof.
  intros Hs Hm Hv Hc Ha Hp Hh Hl.
  destruct (read_printable_line c h rest Hv Hc Hp Hh Hl) as (c1 & Hr & _ & _ & (_ & Ho & Hse)).
  assert (accepting c1) as Ha1 by (unfold accepting; by rewrite Hse).
  assert (∃ c', handle_connection server now remote (m, c) =
          (Ok tt, (connection_effect server now remote c m, c')) ∧
          outgoing c' = outgoing c ++ response h m) as (c' & H1 & H2).
  2:{ exists c'. split_and!; try done. unfold connection_effect. by rewrite Hr. }
  assert (∀ (reg : registry) text, ∃ c', on_conn (write_all text) (reg, c1) = (Ok tt, (reg, c')) ∧
            outgoing c' = outgoing c ++ text) as Hw.
  { intros reg text. unfold on_conn. destruct (write_all_ok text c1 Ha1) as (c' & -> & _ & _ & Ho' & _).
    exists c'. by rewrite Ho', Ho. }
  unfold handle_connection, catch_error at 1, handle_request, connection_effect, response.
  unfold bind at 1. unfold on_conn at 1. rewrite Hr. cbn [fst]. unfold bind at 1. unfold lift.
  pose proof (parse_tracker_request_errors h) as He.
  destruct (parse_tracker_request h) as [req|[w|w|]]; [|unfold catch_error|done..].
  2:{ destruct (Hw m (str "ERROR bad_request" ++ [LF])) as (c' & -> & ?). by exists c'. }
  unfold request_effect. destruct (negb (secure_token_equal _ _)).
  { destruct (Hw m (str "ERROR unauthorized" ++ [LF])) as (c' & -> & ?). by exists c'. }
  destruct (kind req).
  - unfold bind at 1, locked at 1.
    destruct (register_peer server now req (make_record now remote req) m) as [acc m1]. cbn [fst snd].
    destruct acc; cbn [negb].
    + destruct (Hw m1 (str "OK" ++ [LF])) as (c' & -> & ?). by exists c'.
    + destruct (Hw m1 (str "ERROR capacity" ++ [LF])) as (c' & -> & ?). by exists c'.
  - unfold bind at 1, locked at 1.
    pose proof (λ p, found_announced req m p Hs Hm) as Hf.
    rewrite (find_peers_spec req m) in * by apply Hs. cbn [fst snd] in *.
    set (found := take _ _) in *.
    assert (Forall (λ p, is_ok (peer_line p) = true) found) as Hlines.
    { apply Forall_forall. intros p Hin. by eapply announced_line, Hf. }
    destruct (send_peers_ok found c1 Ha1 Hlines) as (c2 & H2 & _ & Ho2 & Ha2).
    unfold bind at 1, on_conn at 1. rewrite H2.
    destruct (write_all_ok (str "END" ++ [LF]) c2 Ha2) as (c3 & H3 & _ & _ & Ho3 & _).
    unfold on_conn. rewrite H3. exists c3. split; [done|].
    by rewrite Ho3, Ho2, Ho, <-app_assoc.
Qed.

End Responses.

(** ** The client *)

(** The line of a peer is within the limit, and so is the announcement that
    the client makes of it, under a token and a swarm of eleven characters, to
    check the line. *)
Definition response_fits (p : DiscoveredPeer) : Prop :=
  ∀ text, encode_chunk_list (dp_chunks p) (dp_has_all_chunks p) = Ok text →
    let record := len (dp_peer_id p) + 1 + len (to_string (port (dp_endpoint p))) + 1 + len text in
    len (str "PEER") + 1 + len (host (dp_endpoint p)) + 1 + record ≤ kMaxHeaderBytes ∧
    len (str "ANNOUNCE check-token check-swarm ") + record ≤ kMaxHeaderBytes.

(** A peer whose record the client reads back: its address is an atom, and its
    line fits. *)
Definition listable (token swarm : bytes) (p : DiscoveredPeer) : Prop :=
  announced token swarm p ∧ safe_atom (host (dp_endpoint p)) = true ∧ response_fits p.

(** In a swarm of the program, whose identifier has 64 characters, the line of
    every announced peer with a numeric address fits. *)
Lemma long_swarm_fits token swarm p :
  announced token swarm p → 22 ≤ len swarm → len (host (dp_endpoint p)) ≤ len swarm → response_fits p.
Proof.
  intros (_ & _ & _ & _ & text & Ht & Hlen) Hs Hh text' Ht'. rewrite Ht in Ht'.
  apply Ok_inj in Ht' as <-. pose proof (len_nonneg token).
  change (len (str "ANNOUNCE check-token check-swarm ")) with 33.
  change (len (str "PEER")) with 4. change (len (str "ANNOUNCE")) with 8 in Hlen. lia.
Qed.

Lemma announce_header_join token ad text :
  announce_header token ad text =
  join_spaces [str "ANNOUNCE"; token; pa_swarm_id ad; pa_peer_id ad; to_string (pa_listen_port ad); text].
Proof. done. Qed.

Lemma peer_line_join p text :
  encode_chunk_list (dp_chunks p) (dp_has_all_chunks p) = Ok text →
  peer_line p = Ok (join_spaces [str "PEER"; dp_peer_id p; host (dp_endpoint p);
                                 to_string (port (dp_endpoint p)); text] ++ [LF]).
Proof. intros Ht. unfold peer_line. rewrite Ht. cbn [rbind join_spaces].
  repeat (rewrite <-app_assoc; cbn [app]). done. Qed.

Lemma split_response_join fs :
  fs ≠ [] → Forall field_ok fs → len (join_spaces fs) ≤ kMaxHeaderBytes →
  split_response (join_spaces fs) = Ok fs.
Proof. intros. by apply split_fields_iff. Qed.

(** The client reads back the record the tracker wrote. *)
Lemma parse_peer_line token swarm p :
  listable token swarm p →
  ∃ line, peer_line p = Ok (line ++ [LF]) ∧ parse_peer_response line = Ok p ∧
    Forall (λ c, 32 ≤ code c ≤ 126) line ∧ len line ≤ kMaxHeaderBytes ∧
    beq line (str "END") = false ∧ starts_with (str "ERROR ") line = false.
Proof.
  intros ((Hid & Hport & Hcs & Hall & text & Ht & Hlen) & Hhost & Hfit).
  destruct (Hfit text Ht) as [Hfit1 Hfit2]. change (len (str "PEER")) with 4 in Hfit1.
  change (len (str "ANNOUNCE check-token check-swarm ")) with 33 in Hfit2.
  destruct (encode_chunk_list_ok _ (dp_has_all_chunks p) Hcs) as (text' & Ht' & Hf).
  rewrite Ht in Ht'. apply Ok_inj in Ht' as <-.
  destruct (parse_encode_chunk_list _ _ _ Hcs Ht) as [Hpt Hb].
  set (fs := [str "PEER"; dp_peer_id p; host (dp_endpoint p); to_string (port (dp_endpoint p)); text]).
  assert (Forall field_ok fs) as Hfs by (unfold fs; fields_ok).
  assert (len (join_spaces fs) ≤ kMaxHeaderBytes) as Hl.
  { unfold fs. rewrite !len_join_cons, len_join_one. change (len (str "PEER")) with 4. lia. }
  exists (join_spaces fs). split; [by apply peer_line_join|]. split.
  - unfold parse_peer_response. rewrite split_response_join by done. unfold fs. cbn [rbind].
    rewrite beq_refl. cbn [negb].
    change (str "ANNOUNCE check-token check-swarm " ++ dp_peer_id p ++ str " " ++
            to_string (port (dp_endpoint p)) ++ str " " ++ text) with
      (join_spaces [str "ANNOUNCE"; str "check-token"; str "check-swarm"; dp_peer_id p;
                    to_string (port (dp_endpoint p)); text]).
    rewrite (parse_announce _ _ _ _ _ (if dp_has_all_chunks p then [] else dp_chunks p)) by
      (try done; rewrite !len_join_cons, len_join_one; change (len (str "ANNOUNCE")) with 8;
       change (len (str "check-token")) with 11; change (len (str "check-swarm")) with 11; lia).
    cbn [rbind]. change (str "PEERS check-token " ++ host (dp_endpoint p)) with
      (join_spaces [str "PEERS"; str "check-token"; host (dp_endpoint p)]).
    rewrite parse_peers by done. cbn [rbind tr_listen_port tr_chunks tr_has_all_chunks].
    rewrite Hb. f_equal. destruct p as [id [h pt] cs all]; simpl in *. f_equal.
    destruct all; [by rewrite Hall|done].
  - split_and!; [by apply fields_printable|done| |]; by unfold fs.
Qed.

Lemma peers_loop_spec token swarm l fuel c rest acc :
  Forall (listable token swarm) l → (length l < fuel)%nat →
  valid c = true → clean (incoming c) →
  payload (incoming c) = concat (map peer_text l) ++ str "END" ++ LF :: rest →
  ∃ c', peers_loop fuel acc c = (Ok (acc ++ l), c') ∧ payload (incoming c') = rest ∧
        same_output c c'.
Proof.
  intros Hl. revert fuel c acc.
  induction Hl as [|p l Hp Hl IH]; intros [|fuel] c acc Hf Hv Hc Hpl; simpl in Hf; try lia;
    cbn [peers_loop]; unfold bind at 1.
  - destruct (read_printable_line c (str "END") rest Hv Hc Hpl) as (c' & -> & _ & ? & ?);
      [by apply literal_printable|done|].
    rewrite beq_refl. exists c'. by rewrite app_nil_r.
  - destruct (parse_peer_line token swarm p Hp) as (line & Hline & Hparse & Hpr & Hlen & He & Hs).
    cbn [map concat] in Hpl. unfold peer_text at 1 in Hpl. rewrite Hline, <-!app_assoc in Hpl.
    destruct (read_printable_line c line _ Hv Hc Hpl Hpr Hlen) as (c1 & -> & Hc1 & Hp1 & (Hv1 & Ho1 & Hs1)).
    rewrite He, Hs. unfold bind, lift. rewrite Hparse.
    destruct (IH fuel c1 (acc ++ [p])) as (c' & -> & ? & (? & ? & ?)); [lia|congruence|done|done|].
    exists c'. rewrite <-app_assoc. split_and!; try done; unfold same_output; split_and!; congruence.
Qed.

Lemma parse_peer_response_errors line : errors_only (parse_peer_response line).
Proof. unfold parse_peer_response, split_response. errors_only. Qed.

(** *** The bytes of a request *)

Lemma query_header token swarm :
  safe_atom token = true → safe_atom swarm = true →
  let header := str "PEERS " ++ token ++ str " " ++ swarm in
  Forall (λ c, 32 ≤ code c ≤ 126) header ∧ len header ≤ kMaxHeaderBytes ∧
  parse_tracker_request header =
    Ok {| kind := peers; tr_token := token; tr_swarm_id := swarm; tr_peer_id := [];
          tr_listen_port := 0; tr_has_all_chunks := false; tr_chunks := [] |}.
Proof.
  intros Ht Hs. cbv zeta.
  change (str "PEERS " ++ token ++ str " " ++ swarm) with (join_spaces [str "PEERS"; token; swarm]).
  split_and!; [apply fields_printable; fields_ok| |by apply parse_peers].
  apply safe_atom_spec in Ht as (_ & ? & _). apply safe_atom_spec in Hs as (_ & ? & _).
  rewrite !len_join_cons, len_join_one. change (len (str "PEERS")) with 5. unfold kMaxHeaderBytes. lia.
Qed.

(** An advertisement the client can send. *)
Definition advertisable (token : bytes) (ad : PeerAdvertisement) (text : bytes) : Prop :=
  safe_atom token = true ∧ safe_atom (pa_swarm_id ad) = true ∧ safe_atom (pa_peer_id ad) = true ∧
  1 ≤ pa_listen_port ad ≤ 65535 ∧ chunks_ok (pa_chunks ad) ∧
  encode_chunk_list (pa_chunks ad) (pa_has_all_chunks ad) = Ok text ∧
  len (announce_header token ad text) ≤ kMaxHeaderBytes.

Lemma announce_header_parse token ad text :
  advertisable token ad text →
  Forall (λ c, 32 ≤ code c ≤ 126) (announce_header token ad text) ∧
  parse_tracker_request (announce_header token ad text) =
    Ok {| kind := announce; tr_token := token; tr_swarm_id := pa_swarm_id ad;
          tr_peer_id := pa_peer_id ad; tr_listen_port := pa_listen_port ad;
          tr_has_all_chunks := pa_has_all_chunks ad;
          tr_chunks := if pa_has_all_chunks ad then [] else pa_chunks ad |}.
Proof.
  intros (Ht & Hs & Hp & Hport & Hcs & Hx & Hl). rewrite announce_header_join in *.
  destruct (encode_chunk_list_ok _ (pa_has_all_chunks ad) Hcs) as (text' & Hx' & Hf).
  rewrite Hx in Hx'. apply Ok_inj in Hx' as <-.
  destruct (parse_encode_chunk_list _ _ _ Hcs Hx) as [Hpt Hb].
  split; [apply fields_printable; fields_ok|]. by rewrite (parse_announce _ _ _ _ _ _ Ht Hs Hp Hport Hf Hpt Hl), Hb.
Qed.

(** ** Properties *)

(** One connection, at any time, from any address and with any network. *)
Definition tracker_step `{IterationOrder} (server : TrackerServer) (m m' : registry) : Prop :=
  ∃ now remote c r c', handle_connection server now remote (m, c) = (r, (m', c')).

(** The listing order of a concrete tracker, for examples. *)
Definition listing_order : IterationOrder :=
  {| iteration := map_to_list; iteration_perm := λ m, reflexivity _ |}.

(** C7: from the empty registry, after any sequence of connections with any
    bytes, times, addresses and socket failures: the registry is within its
    limits, no swarm is empty, and every record is filed under its own
    identifier, has the parts of an announcement that is valid in its swarm
    under the token, a port and a sorted chunk list; and whatever the connection, its handler returns normally, so
    no exception ends the worker thread. *)
Theorem tracker_invariant `{HI : IterationOrder} server m :
  server_ok server → rtc (tracker_step server) ∅ m →
  registry_ok server m ∧
  ∀ now remote c, (handle_connection server now remote (m, c)).1 = Ok tt.
Proof.
  intros Hs H. split.
  - assert (∀ m0, rtc (tracker_step server) m0 m → registry_ok server m0 → registry_ok server m) as Hinv.
    { clear H. intros m0 H. induction H as [|m0 m1 m2 (now & remote & c & r & c' & Hc) _ IH]; [done|].
      intros Hm. apply IH. apply handle_connection_effect in Hc as [_ ->].
      by apply connection_registry_ok. }
    apply (Hinv ∅ H). destruct Hs as (_ & _ & _ & ? & _). split; [|apply map_Forall_empty].
    unfold size_of. rewrite map_size_empty. lia.
  - intros now remote c. destruct (handle_connection server now remote (m, c)) as [r [m' c']] eqn:E.
    by apply handle_connection_effect in E as [-> _].
Qed.

(** The request of a connection, if it is well formed and carries exactly the
    server's token. *)
Definition authorised_request (server : TrackerServer) (c : conn) : option TrackerRequest :=
  match (read_line kMaxHeaderBytes c).1 with
  | Ok header =>
      match parse_tracker_request header with
      | Ok request => if bool_decide (tr_token request = token_ server) then Some request else None
      | Throw _ => None
      end
  | Throw _ => None
  end.

Lemma register_peer_at server now request record m swarm id :
  1 ≤ max_peers_per_swarm (limits_ server) →
  let m' := (register_peer server now request record m).2 in
  peer_at m' swarm id = live_at (ttl_ server) now m swarm id ∨
  swarm = tr_swarm_id request ∧ id = tr_peer_id request ∧ peer_at m' swarm id = Some record.
Proof.
  intros Hmax m'. unfold m'. rewrite register_peer_spec by done.
  set (live := prune_expired_locked (ttl_ server) now m).
  assert (peer_at live swarm id = live_at (ttl_ server) now m swarm id) as <- by apply peer_at_prune.
  match goal with |- context [if ?b then _ else _] => destruct b end; [|by left].
  cbn [snd]. unfold peer_at. destruct (decide (swarm = tr_swarm_id request)) as [->|Hne];
    [|left; by rewrite lookup_insert_ne].
  rewrite lookup_insert_eq. simpl. destruct (decide (id = tr_peer_id request)) as [->|Hid].
  - right. by rewrite lookup_insert_eq.
  - left. rewrite lookup_insert_ne by done.
    by destruct (live !! tr_swarm_id request); simpl; rewrite ?lookup_empty.
Qed.

(** C33: only a client that has the token changes anything: unless the header
    is a well-formed request with exactly the server's token, the registry is
    untouched.  After every request that is authorised, query or announcement,
    no expired record is left, and every peer's record is its old one, gone
    exactly if it was expired, except that an announcement may store, for its
    own peer in its own swarm, the announced record with the address of the
    connection and the present time. *)
Theorem change_is_authorised `{HI : IterationOrder} server now remote m c r m' c' :
  server_ok server → handle_connection server now remote (m, c) = (r, (m', c')) →
  match authorised_request server c with
  | None => m' = m
  | Some request =>
      all_live (ttl_ server) now m' ∧
      ∀ swarm id, peer_at m' swarm id = live_at (ttl_ server) now m swarm id ∨
        kind request = announce ∧ swarm = tr_swarm_id request ∧ id = tr_peer_id request ∧
        peer_at m' swarm id = Some (make_record now remote request)
  end.
Proof.
  intros (_ & Httl & _ & _ & Hl) [_ ->]%handle_connection_effect.
  unfold connection_effect, authorised_request, request_effect.
  destruct (read_line kMaxHeaderBytes c).1 as [h|]; [|done].
  destruct (parse_tracker_request h) as [req|]; [|done].
  case_bool_decide as Ht; [symmetry in Ht; rewrite (proj2 (secure_token_equal_spec _ _) Ht)|
    rewrite (not_true_is_false (secure_token_equal _ _)) by (by intros ?%secure_token_equal_spec; congruence);
    done]. cbn [negb]. destruct (kind req).
  - pose proof (λ swarm id, register_peer_at server now req (make_record now remote req) m swarm id
      ltac:(lia)) as Hat. cbv zeta in Hat. split; [|intros swarm id; destruct (Hat swarm id) as [|(? & ? & ?)]; auto].
    intros swarm id r0 Hr. destruct (Hat swarm id) as [E|(_ & _ & E)]; rewrite E in Hr.
    + unfold live_at in Hr. destruct (peer_at m swarm id) as [r1|]; [|done].
      destruct (expired (ttl_ server) now r1) eqn:Ee; [done|]. by injection Hr as <-.
    + injection Hr as <-. unfold expired, make_record. cbn [last_seen].
      rewrite Z.geb_leb. apply Z.leb_gt. lia.
  - split; [apply prune_all_live|]. intros swarm id. left. apply peer_at_prune.
Qed.

(** C34: a query lists live peers and nothing else: every listed peer is an
    unexpired record of the swarm, no record is listed twice, and the list is
    complete unless the swarm has more live peers than the response limit,
    when it has exactly that many. *)
Theorem query_lists_live `{HI : IterationOrder} server now request m :
  limits_ok (limits_ server) →
  let live := prune_expired_locked (ttl_ server) now m in
  let members := default ∅ (live !! tr_swarm_id request) in
  let limit := max_response_peers (limits_ server) in
  ∃ records, (find_peers server now request m).1 = map (λ '(_, r), peer r) records ∧
    NoDup records.*1 ∧
    (∀ id r, (id, r) ∈ records → peer_at m (tr_swarm_id request) id = Some r ∧
                                 expired (ttl_ server) now r = false) ∧
    len records = Z.min limit (size_of members) ∧
    (size_of members ≤ limit → ∀ id r, peer_at m (tr_swarm_id request) id = Some r →
       expired (ttl_ server) now r = false → (id, r) ∈ records).
Proof.
  intros Hl live members limit. rewrite find_peers_spec by done. fold live members limit.
  exists (take (Z.to_nat limit) (iteration members)).
  assert (∀ id r, (id, r) ∈ iteration members ↔
    peer_at m (tr_swarm_id request) id = Some r ∧ expired (ttl_ server) now r = false) as Hin.
  { intros id r. rewrite iteration_perm, elem_of_map_to_list. unfold members.
    pose proof (peer_at_prune (ttl_ server) now m (tr_swarm_id request) id) as Hp.
    fold live in Hp. unfold peer_at at 1 in Hp.
    destruct (live !! tr_swarm_id request) as [ms|]; simpl in *; rewrite ?Hp, ?lookup_empty;
      destruct (peer_at m (tr_swarm_id request) id) as [r'|]; try naive_solver;
      destruct (expired (ttl_ server) now r') eqn:E; naive_solver congruence. }
  assert (length (iteration members) = size members) as Hlen.
  { by rewrite iteration_perm, length_map_to_list. }
  destruct Hl as (_ & _ & Hlim). split_and!.
  - simpl. by rewrite firstn_map.
  - rewrite fmap_take. assert (NoDup (iteration members).*1) as Hn.
    { rewrite (iteration_perm members). apply NoDup_fst_map_to_list. }
    rewrite <-(take_drop (Z.to_nat limit)) in Hn. by apply NoDup_app in Hn as [? _].
  - intros id r Hr. apply Hin. by eapply subseteq_take.
  - unfold len, size_of. rewrite length_take, Hlen. fold limit in Hlim. lia.
  - intros Hsz id r Hr He. rewrite take_ge; [by apply Hin|]. rewrite Hlen. unfold size_of in Hsz. lia.
Qed.

(** C9: a query is answered exactly, end to end: when the client's header
    reaches a tracker with the same token, and the address of every live peer
    of the swarm is an atom and its line fits, as well as the announcement the
    client makes of the line to check it, then what the tracker sends, in any
    segmentation, is read back by the client as the very list the tracker
    found, its endpoints and chunk lists included; and the client sent nothing
    but its header.  For a swarm identifier as the program makes them and a
    numeric address every line fits ([long_swarm_fits]); in a short swarm an
    announcement close to the limit makes a line that does not
    ([short_swarm_breaks_query]). *)
Theorem query_roundtrip `{HI : IterationOrder} server client now remote swarm m cs rest :
  server_ok server → registry_ok server m → client_token client = token_ server →
  safe_atom (token_ server) = true → safe_atom swarm = true →
  (∀ id r, live_at (ttl_ server) now m swarm id = Some r →
     safe_atom (host (dp_endpoint (peer r))) = true ∧ response_fits (peer r)) →
  let header := str "PEERS " ++ client_token client ++ str " " ++ swarm in
  let query := {| kind := peers; tr_token := token_ server; tr_swarm_id := swarm; tr_peer_id := [];
                  tr_listen_port := 0; tr_has_all_chunks := false; tr_chunks := [] |} in
  valid cs = true → clean (incoming cs) → accepting cs → outgoing cs = [] →
  payload (incoming cs) = header ++ LF :: rest →
  ∃ cs', handle_connection server now remote (m, cs) =
           (Ok tt, (prune_expired_locked (ttl_ server) now m, cs')) ∧
    ∀ n cc ds, dials n = Ok cc :: ds → valid cc = true → clean (incoming cc) → accepting cc →
      payload (incoming cc) = outgoing cs' →
      ∃ cc', client_peers client swarm n =
        (Ok (find_peers server now query m).1,
         {| dials := ds; used := used n ++ [(endpoint_ client, cc')] |}) ∧
        outgoing cc' = outgoing cc ++ header ++ [LF].
Proof.
  intros Hs Hm Htok Hatom Hsw Hhosts header query Hv Hc Ha Ho Hp.
  destruct (query_header (client_token client) swarm) as (Hpr & Hhl & Hparse);
    [by rewrite Htok|done|]. fold header in Hpr, Hhl, Hparse. rewrite Htok in Hparse. fold query in Hparse.
  destruct (handle_connection_response server now remote m cs header rest) as (cs' & H1 & H2 & H3);
    try done. rewrite Hparse in H3. exists cs'. split.
  { rewrite H1, H3. unfold request_effect, query. simpl.
    by rewrite (proj2 (secure_token_equal_spec _ _) eq_refl). }
  assert (outgoing cs' = concat (map peer_text (find_peers server now query m).1) ++ str "END" ++ [LF]) as Ho'.
  { rewrite H2, Ho. unfold response. rewrite Hparse. unfold query at 1. simpl.
    by rewrite (proj2 (secure_token_equal_spec _ _) eq_refl). }
  intros n cc ds Hd Hvc Hcc Hac Hpc. unfold client_peers. fold header.
  unfold bind at 1. unfold lift. rewrite Hparse.
  destruct (write_all_ok (header ++ [LF]) cc Hac) as (c1 & Hw & Hv1 & Hi1 & Ho1 & _).
  destruct (peers_loop_spec (token_ server) swarm (find_peers server now query m).1
    (recv_fuel (incoming c1)) c1 [] []) as (c2 & Hl & _ & (_ & Ho2 & _)); try done.
  - apply Forall_forall. intros p Hin. split_and!; [by eapply (found_announced server now query)| |];
      apply elem_of_found in Hin as (id & r & Hr & He & ->); try apply Hs;
      (assert (live_at (ttl_ server) now m swarm id = Some r) as Hlive
         by (unfold live_at; change (tr_swarm_id query) with swarm in Hr; by rewrite Hr, He));
      by apply Hhosts in Hlive as [? ?].
  - unfold recv_fuel. rewrite Hi1. pose proof (payload_length (incoming cc)) as Hpl.
    rewrite Hpc, Ho', length_app in Hpl.
    assert (length (find_peers server now query m).1 ≤
            length (concat (map peer_text (find_peers server now query m).1)))%nat; [|lia].
    assert (∀ p, p ∈ (find_peers server now query m).1 → peer_text p ≠ []) as Hne.
    { intros p Hin. apply found_announced in Hin as (_ & _ & _ & _ & text & Ht & _); [|done..].
      unfold peer_text. by rewrite (peer_line_join p text Ht). }
    clear -Hne. induction (find_peers server now query m).1 as [|p l IH]; simpl; [lia|].
    rewrite length_app. pose proof (Hne p ltac:(set_solver)).
    destruct (peer_text p); [done|]. simpl. specialize (IH ltac:(set_solver)). lia.
  - by rewrite Hv1.
  - by rewrite Hi1.
  - rewrite Hi1, Hpc, Ho'. done.
  - exists c2. erewrite with_connection_ok; [|done|].
    2:{ unfold bind. rewrite Hw. exact Hl. }
    split; [done|]. by rewrite Ho2, Ho1.
Qed.

(** C10: an announcement arrives exactly, end to end: when the client's header
    reaches a tracker with the same token, the tracker registers the
    advertisement with the address of the connection, and the client returns
    if and only if the tracker accepted it; otherwise it throws the tracker's
    refusal. *)
Theorem announce_roundtrip `{HI : IterationOrder} server client now remote ad text m cs rest :
  server_ok server → registry_ok server m → client_token client = token_ server →
  advertisable (token_ server) ad text →
  let header := announce_header (client_token client) ad text in
  let request := {| kind := announce; tr_token := token_ server; tr_swarm_id := pa_swarm_id ad;
                    tr_peer_id := pa_peer_id ad; tr_listen_port := pa_listen_port ad;
                    tr_has_all_chunks := pa_has_all_chunks ad;
                    tr_chunks := if pa_has_all_chunks ad then [] else pa_chunks ad |} in
  let '(accepted, m') := register_peer server now request (make_record now remote request) m in
  valid cs = true → clean (incoming cs) → accepting cs → outgoing cs = [] →
  payload (incoming cs) = header ++ LF :: rest →
  ∃ cs', handle_connection server now remote (m, cs) = (Ok tt, (m', cs')) ∧
    ∀ n cc ds, dials n = Ok cc :: ds → valid cc = true → clean (incoming cc) → accepting cc →
      payload (incoming cc) = outgoing cs' →
      ∃ cc', client_announce client ad n =
        (if (accepted : bool) then Ok tt
         else Throw (Error (str "Tracker rejected request: ERROR capacity")),
         {| dials := ds; used := used n ++ [(endpoint_ client, cc')] |}) ∧
        outgoing cc' = outgoing cc ++ header ++ [LF].
Proof.
  intros Hs Hm Htok Had header request.
  destruct (register_peer server now request (make_record now remote request) m) as [accepted m'] eqn:Er.
  intros Hv Hc Ha Ho Hp.
  destruct (announce_header_parse (token_ server) ad text Had) as (Hpr & Hparse).
  rewrite <-Htok in Hpr, Hparse at 1. fold header in Hpr, Hparse. fold request in Hparse.
  pose proof Had as (_ & _ & _ & _ & _ & Hx & Hl). rewrite <-Htok in Hl. fold header in Hl.
  destruct (handle_connection_response server now remote m cs header rest) as (cs' & H1 & H2 & H3);
    try done. rewrite Hparse in H3. exists cs'. split.
  { rewrite H1, H3. unfold request_effect. unfold request at 1 2. simpl.
    rewrite (proj2 (secure_token_equal_spec _ _) eq_refl). simpl. fold request. by rewrite Er. }
  assert (outgoing cs' = if accepted then str "OK" ++ [LF] else str "ERROR capacity" ++ [LF]) as Ho'.
  { rewrite H2, Ho. unfold response. rewrite Hparse. unfold request at 1 2. simpl.
    rewrite (proj2 (secure_token_equal_spec _ _) eq_refl). simpl. fold request. rewrite Er. by destruct accepted. }
  intros n cc ds Hd Hvc Hcc Hac Hpc. unfold client_announce. rewrite Hx.
  unfold bind at 1. unfold lift at 1. fold header. unfold bind at 1. unfold lift at 1. rewrite Hparse.
  destruct (write_all_ok (header ++ [LF]) cc Hac) as (c1 & Hw & Hv1 & Hi1 & Ho1 & _).
  set (answer := if accepted then str "OK" else str "ERROR capacity").
  destruct (read_printable_line c1 answer []) as (c2 & Hr & _ & _ & (_ & Ho2 & _)).
  - by rewrite Hv1.
  - by rewrite Hi1.
  - rewrite Hi1, Hpc, Ho'. unfold answer. by destruct accepted.
  - unfold answer. destruct accepted; by apply literal_printable.
  - unfold answer. by destruct accepted.
  - exists c2. rewrite (with_connection_ok _ _ n cc ds
      (if accepted then Ok tt else Throw (Error (str "Tracker rejected request: ERROR capacity"))) c2 Hd);
      [by rewrite Ho2, Ho1|].
    unfold bind at 1. rewrite Hw. unfold expect_ok, bind. rewrite Hr. unfold answer. by destruct accepted.
Qed.

(** One listed peer with an address that is not an atom, as the scoped
    address of a link-local IPv6 peer is, makes every query of its swarm fail
    at the client, although the peer itself announced itself correctly. *)
Lemma scoped_address_breaks_query `{HI : IterationOrder} client swarm p text rest n cc ds :
  safe_atom (client_token client) = true → safe_atom swarm = true →
  announced (client_token client) swarm p →
  encode_chunk_list (dp_chunks p) (dp_has_all_chunks p) = Ok text →
  host (dp_endpoint p) = str "fe80::1%eth0" →
  64 ≤ len swarm →
  dials n = Ok cc :: ds → valid cc = true → clean (incoming cc) → accepting cc →
  payload (incoming cc) = peer_text p ++ rest →
  (client_peers client swarm n).1 = throw "Protocol swarm id contains invalid characters".
Proof.
  intros Htok Hsw (Hid & Hport & Hcs & Hall & text' & Ht & Hlen) Hx Hh Hl64 Hd Hv Hc Ha Hp.
  rewrite Hx in Ht. apply Ok_inj in Ht as <-. change (len (str "ANNOUNCE")) with 8 in Hlen.
  pose proof (len_nonneg (client_token client)) as Hn.
  destruct (query_header (client_token client) swarm Htok Hsw) as (_ & _ & Hparse).
  unfold client_peers. unfold bind at 1. unfold lift at 1. rewrite Hparse.
  destruct (write_all_ok ((str "PEERS " ++ client_token client ++ str " " ++ swarm) ++ [LF]) cc Ha)
    as (c1 & Hw & Hv1 & Hi1 & _).
  destruct (encode_chunk_list_ok _ (dp_has_all_chunks p) Hcs) as (text' & Hx' & Hf).
  rewrite Hx in Hx'. apply Ok_inj in Hx' as <-.
  destruct (parse_encode_chunk_list _ _ _ Hcs Hx) as [Hpt Hb].
  set (fs := [str "PEER"; dp_peer_id p; str "fe80::1%eth0"; to_string (port (dp_endpoint p)); text]).
  assert (Forall field_ok fs) as Hfs by (unfold fs; fields_ok).
  assert (len (join_spaces fs) ≤ kMaxHeaderBytes) as Hl.
  { unfold fs. rewrite !len_join_cons, len_join_one. change (len (str "PEER")) with 4.
    change (len (str "fe80::1%eth0")) with 12. lia. }
  destruct (read_printable_line c1 (join_spaces fs) rest) as (c2 & Hr & _); try done.
  - by rewrite Hv1.
  - by rewrite Hi1.
  - rewrite Hi1, Hp. unfold peer_text. rewrite (peer_line_join p text Hx), Hh, <-app_assoc. done.
  - by apply fields_printable.
  - rewrite (with_connection_ok _ _ n cc ds
      (throw "Protocol swarm id contains invalid characters") c2 Hd); [done|].
    unfold bind at 1. rewrite Hw. unfold recv_fuel. cbn [peers_loop]. unfold bind at 1. rewrite Hr.
    replace (beq (join_spaces fs) (str "END")) with false by done.
    replace (starts_with (str "ERROR ") (join_spaces fs)) with false by done.
    unfold bind, lift. unfold parse_peer_response. rewrite split_response_join by done.
    unfold fs. cbn [rbind]. rewrite beq_refl. cbn [negb].
    change (str "ANNOUNCE check-token check-swarm " ++ dp_peer_id p ++ str " " ++
            to_string (port (dp_endpoint p)) ++ str " " ++ text) with
      (join_spaces [str "ANNOUNCE"; str "check-token"; str "check-swarm"; dp_peer_id p;
                    to_string (port (dp_endpoint p)); text]).
    rewrite (parse_announce _ _ _ _ _ (if dp_has_all_chunks p then [] else dp_chunks p)) by
      (try done; rewrite !len_join_cons, len_join_one; change (len (str "ANNOUNCE")) with 8;
       change (len (str "check-token")) with 11; change (len (str "check-swarm")) with 11; lia).
    reflexivity.
Qed.

(** C22: a peer with many, but not all, chunks cannot announce itself: the
    header of a list of two thousand chunks is longer than the protocol allows,
    so the client throws before it connects, whatever the tracker. *)
Theorem large_partial_announcement_fails client ad n :
  pa_chunks ad = seqZ 0 2000 → pa_has_all_chunks ad = false →
  client_announce client ad n = (throw "Protocol header has an invalid length", n).
Proof.
  intros Hcs Hall. unfold client_announce. rewrite Hcs, Hall, encode_chunk_list_spec.
  assert (increasing (seqZ 0 2000) = true) as -> by by vm_compute.
  assert (len (join_commas (seqZ 0 2000)) = 8889) as Hl by by vm_compute.
  rewrite bool_decide_eq_false_2 by by vm_compute.
  unfold bind at 1, lift at 1. cbv zeta. unfold bind at 1, lift at 1.
  assert (∀ t, 8192 < len t → parse_tracker_request t = throw "Protocol header has an invalid length") as Hlong.
  { intros t Ht. unfold parse_tracker_request, split_header, split_fields.
    rewrite (proj2 (gtb_true _ _)) by (unfold kMaxHeaderBytes; lia). by rewrite orb_true_r. }
  rewrite Hlong; [done|]. unfold announce_header. rewrite !len_app, Hl.
  repeat match goal with |- context [len ?x] =>
    lazymatch goal with H : 0 ≤ len x |- _ => fail | _ => pose proof (len_nonneg x) end end.
  lia.
Qed.

(** *** Examples *)

Definition example_limits : TrackerLimits :=
  {| max_connections := 32; worker_count := 4; max_swarms := 2; max_peers_per_swarm := 2;
     max_response_peers := 2 |}.
Definition example_server : TrackerServer :=
  {| requested_port_ := 0; token_ := str "secret"; ttl_ := 60; bind_address_ := str "127.0.0.1";
     limits_ := example_limits |}.
Definition example_swarm : bytes := replicate 64 "a"%char.
Definition example_remote : Endpoint := {| host := str "10.0.0.7"; port := 5555 |}.
Definition example_client : TrackerClient :=
  {| endpoint_ := {| host := str "127.0.0.1"; port := 7000 |}; client_token := str "secret";
     timeout_ := 3000 |}.
Definition example_ad : PeerAdvertisement :=
  {| pa_swarm_id := example_swarm; pa_peer_id := str "p1"; pa_listen_port := 7001;
     pa_chunks := [0; 2]; pa_has_all_chunks := false |}.
Definition example_request : TrackerRequest :=
  {| kind := announce; tr_token := str "secret"; tr_swarm_id := example_swarm;
     tr_peer_id := str "p1"; tr_listen_port := 7001; tr_has_all_chunks := false; tr_chunks := [0; 2] |}.
Definition example_announce : bytes :=
  announce_header (str "secret") example_ad (str "0,2").
Definition example_announce_conn : conn := fresh [Arrives (example_announce ++ [LF])].
Definition example_registry : registry :=
  {[ example_swarm := {[ str "p1" := make_record 5 example_remote example_request ]} ]}.
Definition example_query : bytes := str "PEERS " ++ str "secret" ++ str " " ++ example_swarm.
Definition example_query_conn : conn := fresh [Arrives (example_query ++ [LF])].

#[local] Existing Instance listing_order.

Lemma example_server_ok : server_ok example_server.
Proof. split; [done|]. split; [done|]. repeat split; vm_compute; discriminate. Qed.

Lemma example_announced : announced (str "secret") example_swarm (peer (make_record 5 example_remote example_request)).
Proof.
  split; [reflexivity|]. split; [vm_compute; split; discriminate|]. split; [|split; [discriminate|]].
  - split; [reflexivity|]. repeat constructor; vm_compute; first [reflexivity|discriminate].
  - exists (str "0,2"). split; [reflexivity|]. vm_compute. discriminate.
Qed.

Lemma example_advertisable : advertisable (str "secret") example_ad (str "0,2").
Proof.
  split; [reflexivity|]. split; [reflexivity|]. split; [reflexivity|].
  split; [vm_compute; split; discriminate|]. split.
  - split; [reflexivity|]. repeat constructor; vm_compute; first [reflexivity|discriminate].
  - split; [reflexivity|]. vm_compute. discriminate.
Qed.

Lemma tracker_invariant_witness :
  let m := (handle_connection example_server 5 example_remote (∅, example_announce_conn)).2.1 in
  registry_ok example_server m ∧
  (handle_connection example_server 6 example_remote (m, example_query_conn)).1 = Ok tt.
Proof.
  cbv zeta. edestruct (tracker_invariant example_server) as [H1 H2];
    [exact example_server_ok| |split; [exact H1|apply H2]].
  apply rtc_once. unfold tracker_step. exists 5, example_remote, example_announce_conn.
  destruct (handle_connection example_server 5 example_remote (∅, example_announce_conn)) as [r [m' c']].
  exists r, c'. reflexivity.
Defined.

Lemma change_is_authorised_witness :
  (∃ request, authorised_request example_server example_announce_conn = Some request) ∧
  all_live 60 5 (handle_connection example_server 5 example_remote (∅, example_announce_conn)).2.1.
Proof.
  destruct (handle_connection example_server 5 example_remote (∅, example_announce_conn)) as [r [m' c']] eqn:E.
  pose proof (change_is_authorised example_server 5 example_remote ∅ example_announce_conn r m' c'
    example_server_ok E) as H.
  destruct (authorised_request example_server example_announce_conn) as [request|] eqn:Ha.
  - split; [exists request; reflexivity|exact (proj1 H)].
  - vm_compute in Ha. discriminate Ha.
Defined.

Lemma query_lists_live_witness :
  ∃ records, (find_peers example_server 6 example_request example_registry).1 =
    map (λ '((_, r) : bytes * PeerRecord), peer r) records ∧ NoDup records.*1.
Proof.
  destruct (query_lists_live example_server 6 example_request example_registry)
    as (records & H1 & H2 & _); [apply example_server_ok|].
  exists records. split; [exact H1|exact H2].
Defined.

(** The swarm of the program's own tests. *)
Definition short_swarm : bytes := str "swarm-a".
Definition short_registry : registry :=
  {[ short_swarm := {[ str "p1" := make_record 5 example_remote example_request ]} ]}.
Definition short_query_conn : conn :=
  fresh [Arrives (str "PEERS " ++ str "secret" ++ str " " ++ short_swarm ++ [LF])].

Lemma short_registry_ok : registry_ok example_server short_registry.
Proof.
  split; [vm_compute; discriminate|]. apply map_Forall_singleton.
  split; [reflexivity|]. split; [apply map_non_empty_singleton|]. split; [vm_compute; discriminate|].
  apply map_Forall_singleton. split; [reflexivity|].
  destruct example_announced as (H1 & H2 & H3 & H4 & _). split_and!; [exact H1|apply H2|apply H2|exact H3|exact H4|].
  exists (str "0,2"). split; [reflexivity|]. vm_compute. discriminate.
Qed.

Lemma query_roundtrip_witness :
  ∃ cs', handle_connection example_server 6 example_remote (short_registry, short_query_conn) =
      (Ok tt, (prune_expired_locked 60 6 short_registry, cs')) ∧
    (client_peers example_client short_swarm
      {| dials := [Ok (fresh [Arrives (outgoing cs')])]; used := [] |}).1 =
    Ok [peer (make_record 5 example_remote example_request)].
Proof.
  destruct (query_roundtrip example_server example_client 6 example_remote short_swarm
    short_registry short_query_conn []) as (cs' & H1 & H2);
    [exact example_server_ok|exact short_registry_ok|reflexivity|reflexivity|reflexivity
    | |reflexivity|repeat constructor|constructor|reflexivity|reflexivity|].
  - intros id r. unfold live_at, peer_at, short_registry. rewrite lookup_singleton_eq. simpl.
    destruct (_ !! id) as [r'|] eqn:E; [|discriminate]. apply lookup_singleton_Some in E as [_ <-].
    destruct (expired _ _ _); [discriminate|]. intros [= <-]. split; [reflexivity|].
    intros text [= <-]. vm_compute. split; discriminate.
  - exists cs'. split; [exact H1|].
    destruct (H2 {| dials := [Ok (fresh [Arrives (outgoing cs')])]; used := [] |}
      (fresh [Arrives (outgoing cs')]) []) as (cc' & -> & _);
      [reflexivity|reflexivity|repeat constructor|constructor|apply app_nil_r|].
    vm_compute. reflexivity.
Defined.

Lemma announce_roundtrip_witness :
  ∃ cs' m', handle_connection example_server 5 example_remote (∅, example_announce_conn) =
      (Ok tt, (m', cs')) ∧
    (client_announce example_client example_ad
      {| dials := [Ok (fresh [Arrives (outgoing cs')])]; used := [] |}).1 = Ok tt.
Proof.
  pose proof (announce_roundtrip example_server example_client 5 example_remote example_ad
    (str "0,2") ∅ example_announce_conn [] example_server_ok) as H.
  cbv zeta in H. destruct (register_peer _ _ _ _ _) as [accepted m'] eqn:E.
  assert (accepted = true) as ->.
  { apply (f_equal fst) in E. vm_compute in E. congruence. }
  destruct H as (cs' & H1 & H2);
    [split; [unfold size_of; rewrite map_size_empty; vm_compute; discriminate|apply map_Forall_empty]
    |reflexivity|exact example_advertisable|reflexivity|repeat constructor|constructor|reflexivity
    |reflexivity|].
  exists cs', m'. split; [exact H1|].
  destruct (H2 {| dials := [Ok (fresh [Arrives (outgoing cs')])]; used := [] |}
    (fresh [Arrives (outgoing cs')]) []) as (cc' & -> & _);
    [reflexivity|reflexivity|repeat constructor|constructor|apply app_nil_r|reflexivity].
Defined.

Definition scoped_peer : DiscoveredPeer :=
  peer (make_record 5 {| host := str "fe80::1%eth0"; port := 5555 |} example_request).

Lemma scoped_address_example :
  (client_peers example_client example_swarm
    {| dials := [Ok (fresh [Arrives (peer_text scoped_peer ++ str "END" ++ [LF])])]; used := [] |}).1 =
  throw "Protocol swarm id contains invalid characters".
Proof.
  apply (scoped_address_breaks_query example_client example_swarm scoped_peer (str "0,2")
    (str "END" ++ [LF]) _ (fresh [Arrives (peer_text scoped_peer ++ str "END" ++ [LF])]) []);
    [reflexivity|reflexivity|exact example_announced|reflexivity|reflexivity|vm_compute; discriminate
    |reflexivity|reflexivity|repeat constructor|constructor|apply app_nil_r].
Qed.

(** An announcement that the tracker of swarm [s] accepts and whose line the
    client then rejects: only because it checks the line under longer names. *)
Definition short_swarm_chunks : bytes :=
  match encode_chunk_list (seqZ 0 1856) false with Ok text => text | Throw _ => [] end.

Lemma short_swarm_breaks_query :
  is_ok (parse_tracker_request (str "ANNOUNCE t s p 7001 " ++ short_swarm_chunks)) = true ∧
  len (str "PEER p 10.0.0.7 7001 " ++ short_swarm_chunks) ≤ kMaxHeaderBytes ∧
  parse_peer_response (str "PEER p 10.0.0.7 7001 " ++ short_swarm_chunks) =
    throw "Protocol header has an invalid length".
Proof. split; [|split]; vm_compute; done. Qed.

Lemma large_partial_announcement_fails_witness :
  client_announce example_client
    {| pa_swarm_id := example_swarm; pa_peer_id := str "p1"; pa_listen_port := 7001;
       pa_chunks := seqZ 0 2000; pa_has_all_chunks := false |} {| dials := []; used := [] |} =
  (throw "Protocol header has an invalid length", {| dials := []; used := [] |}).
Proof. apply large_partial_announcement_fails; reflexivity. Defined.
