(* ===== verification/Presence.v ===== *)
(** * Presence: what the tracker's registry implements

    The registry of src/src/tracker.cpp forgets lazily: every critical section
    first erases what has expired, and counts what is left against the limits.
    Its contract needs no registry at all: a history of announcements and clock
    readings, where a peer is seen as long as no reading has found its last
    announcement too old.  Here the two are labelled transition systems, one
    step for each critical section, and the registry refines the history.

    The clock is read before the mutex is taken, so the readings of different
    workers may come out of order; nothing here assumes that they do not.
    [seen_now] says what the contract is when they do not: a peer is seen while
    its last accepted announcement is not expired. *)

From S2P Require Export Prelude.
From S2P Require Import Protocol Stream Tracker.

#[local] Open Scope Z_scope.

(** ** Definitions *)

(** A critical section, with the answer it gives. *)
Inductive call :=
  | Announce (now : Z) (remote : Endpoint) (request : TrackerRequest) (accepted : bool)
  | Query (now : Z) (request : TrackerRequest) (found : list DiscoveredPeer).

(** The critical sections of [handle_connection] as steps of the registry. *)
Inductive registry_step `{IterationOrder} (server : TrackerServer) : registry → call → registry → Prop :=
  | registry_announce now remote request accepted m m' :
      register_peer server now request (make_record now remote request) m = (accepted, m') →
      registry_step server m (Announce now remote request accepted) m'
  | registry_query now request found m m' :
      find_peers server now request m = (found, m') →
      registry_step server m (Query now request found) m'.

(** The runs of a system from one state to another. *)
Inductive run {S} (step : S → call → S → Prop) : S → list call → S → Prop :=
  | run_nil s : run step s [] s
  | run_cons s1 s2 s3 c calls :
      step s1 c s2 → run step s2 calls s3 → run step s1 (c :: calls) s3.

(** *** The specification *)

(** One entry of the history: the clock, and the announcement if the entry is
    one that was accepted.  The latest entry comes first. *)
Record entry := { clock : Z; stored : option (bytes * PeerRecord) }.

Definition concerns (swarm id : bytes) (e : entry) : option PeerRecord :=
  match stored e with
  | Some (s, r) => if bool_decide (s = swarm ∧ dp_peer_id (peer r) = id) then Some r else None
  | None => None
  end.

(** The record of a peer's last announcement, unless it is expired at [T] or
    was at one of the readings since. *)
Fixpoint seen (ttl T : Z) (h : list entry) (swarm id : bytes) : option PeerRecord :=
  match h with
  | [] => None
  | e :: h' =>
      match concerns swarm id e with
      | Some r => if expired ttl T r then None else Some r
      | None => seen ttl (Z.max T (clock e)) h' swarm id
      end
  end.

(** Who ever announced what, the peers seen in a swarm, the swarms in which
    some peer is seen. *)
Definition names (h : list entry) : list (bytes * bytes) :=
  omap (λ e, match stored e with Some (s, r) => Some (s, dp_peer_id (peer r)) | None => None end) h.

Definition online (ttl T : Z) (h : list entry) (swarm : bytes) : gset bytes :=
  list_to_set (filter (λ id, is_Some (seen ttl T h swarm id)) (names h).*2).

Definition live_swarms (ttl T : Z) (h : list entry) : gset bytes :=
  list_to_set (filter (λ swarm, online ttl T h swarm ≠ ∅) (names h).*1).

(** An announcement is admitted when its peer is seen or its swarm has room,
    and a swarm that nobody is seen in must find room for itself. *)
Definition admits (server : TrackerServer) (T : Z) (h : list entry) (swarm id : bytes) : bool :=
  let here := online (ttl_ server) T h swarm in
  if bool_decide (here = ∅)
  then Z.of_nat (size (live_swarms (ttl_ server) T h)) <? max_swarms (limits_ server)
  else bool_decide (id ∈ here) ||
       (Z.of_nat (size here) <? max_peers_per_swarm (limits_ server)).

(** An answer lists peers that are seen, none twice, as many as the limit
    allows. *)
Definition answers (server : TrackerServer) (T : Z) (h : list entry) (swarm : bytes)
    (found : list DiscoveredPeer) : Prop :=
  NoDup (map dp_peer_id found) ∧
  (∀ p, p ∈ found → ∃ r, seen (ttl_ server) T h swarm (dp_peer_id p) = Some r ∧ p = peer r) ∧
  len found = Z.min (max_response_peers (limits_ server))
                    (Z.of_nat (size (online (ttl_ server) T h swarm))).

Inductive presence_step (server : TrackerServer) : list entry → call → list entry → Prop :=
  | presence_announce now remote request h :
      let accepted := admits server now h (tr_swarm_id request) (tr_peer_id request) in
      presence_step server h (Announce now remote request accepted)
        ({| clock := now;
            stored := if accepted
                      then Some (tr_swarm_id request, make_record now remote request)
                      else None |} :: h)
  | presence_query now request found h :
      answers server now h (tr_swarm_id request) found →
      presence_step server h (Query now request found) ({| clock := now; stored := None |} :: h).

(** ** The history *)

Lemma concerns_some swarm id e r :
  concerns swarm id e = Some r → stored e = Some (swarm, r) ∧ dp_peer_id (peer r) = id.
Proof.
  unfold concerns. destruct (stored e) as [[s r']|]; [|done].
  case_bool_decide as H; [|done]. destruct H as [-> <-]. by intros [= ->].
Qed.

(** What is seen is live and filed under its own name. *)
Lemma seen_some ttl T h swarm id r :
  seen ttl T h swarm id = Some r →
  dp_peer_id (peer r) = id ∧ expired ttl T r = false ∧ (swarm, id) ∈ names h.
Proof.
  revert T. induction h as [|e h IH]; intros T; simpl; [done|].
  destruct (concerns swarm id e) as [r'|] eqn:Ec.
  - apply concerns_some in Ec as [-> <-]. destruct (expired ttl T r') eqn:He; [done|].
    intros [= ->]. split_and!; [done..|left].
  - intros (? & He & Hin)%IH. split_and!; [done| |].
    + unfold expired in *. rewrite Z.geb_leb in *. apply Z.leb_gt. apply Z.leb_gt in He. lia.
    + destruct (stored e) as [[s r']|]; [by right|done].
Qed.

(** When the clock never ran backwards, only the present counts. *)
Fixpoint last_announced (h : list entry) (swarm id : bytes) : option PeerRecord :=
  match h with
  | [] => None
  | e :: h' => match concerns swarm id e with
               | Some r => Some r
               | None => last_announced h' swarm id
               end
  end.

Lemma seen_now ttl T h swarm id :
  Forall (λ e, clock e ≤ T) h →
  seen ttl T h swarm id =
    match last_announced h swarm id with
    | Some r => if expired ttl T r then None else Some r
    | None => None
    end.
Proof.
  induction 1 as [|e h He _ IH]; simpl; [done|].
  destruct (concerns swarm id e); [done|]. by rewrite Z.max_l.
Qed.

Lemma elem_of_online ttl T h swarm id :
  id ∈ online ttl T h swarm ↔ is_Some (seen ttl T h swarm id).
Proof.
  unfold online. rewrite elem_of_list_to_set, list_elem_of_filter. split; [tauto|].
  intros [r Hr]. split; [by exists r|]. apply seen_some in Hr as (_ & _ & Hr).
  apply list_elem_of_fmap. by exists (swarm, id).
Qed.

Lemma elem_of_live_swarms ttl T h swarm :
  swarm ∈ live_swarms ttl T h ↔ ∃ id, is_Some (seen ttl T h swarm id).
Proof.
  unfold live_swarms. rewrite elem_of_list_to_set, list_elem_of_filter. split.
  - intros [[id Hid]%set_choose_L _]. exists id. by apply elem_of_online.
  - intros [id Hid]. split.
    + apply elem_of_online in Hid. set_solver.
    + destruct Hid as (r & (_ & _ & Hr)%seen_some). apply list_elem_of_fmap. by exists (swarm, id).
Qed.

(** ** The simulation *)

(** The registry stores what is seen, at every time it may be looked at. *)
Definition represents (ttl : Z) (m : registry) (h : list entry) : Prop :=
  ∀ T swarm id, peer_at (prune_expired_locked ttl T m) swarm id = seen ttl T h swarm id.

Lemma expired_max ttl T now r : expired ttl (Z.max T now) r = expired ttl T r || expired ttl now r.
Proof.
  unfold expired. rewrite !Z.geb_leb. apply eq_bool_prop_intro.
  rewrite orb_True, !Is_true_true, !Z.leb_le. lia.
Qed.

Lemma peer_at_prune_prune ttl T now m swarm id :
  peer_at (prune_expired_locked ttl T (prune_expired_locked ttl now m)) swarm id =
  peer_at (prune_expired_locked ttl (Z.max T now) m) swarm id.
Proof.
  rewrite !peer_at_prune. destruct (peer_at m swarm id) as [r|]; [|done]. rewrite expired_max.
  destruct (expired ttl now r); [by rewrite orb_true_r|]. by rewrite orb_false_r.
Qed.

(** A reading of the clock: the registry prunes, the history notes the time. *)
Lemma represents_prune ttl m h now :
  represents ttl m h →
  represents ttl (prune_expired_locked ttl now m) ({| clock := now; stored := None |} :: h).
Proof. intros H T swarm id. rewrite peer_at_prune_prune. apply H. Qed.

Section Simulation.
Variables (ttl now : Z) (m : registry) (h : list entry).
Hypothesis Hrep : represents ttl m h.
Local Abbreviation live := (prune_expired_locked ttl now m).

(** No swarm of a pruned registry is empty, so its swarms are those in which
    somebody is seen, and its peers are those who are. *)
Lemma live_swarm_spec swarm :
  live !! swarm = None ∧ online ttl now h swarm = ∅ ∨
  ∃ members, live !! swarm = Some members ∧ dom members = online ttl now h swarm ∧ members ≠ ∅.
Proof.
  assert (∀ members, live !! swarm = Some members → members ≠ ∅) as Hne.
  { intros members. rewrite lookup_prune. destruct (m !! swarm); [|done].
    case_bool_decide; [done|]. by intros [= <-]. }
  pose proof (Hrep now swarm) as Hat. unfold peer_at in Hat.
  destruct (live !! swarm) as [members|] eqn:E; [right|left]; simpl in Hat.
  - exists members. split_and!; [done| |by apply Hne]. apply set_eq. intros id.
    by rewrite elem_of_dom, elem_of_online, Hat.
  - split; [done|]. apply elem_of_equiv_empty_L. intros id [r Hr]%elem_of_online.
    by rewrite <-Hat in Hr.
Qed.

Lemma dom_live : dom live = live_swarms ttl now h.
Proof.
  apply set_eq. intros swarm. rewrite elem_of_dom, elem_of_live_swarms.
  setoid_rewrite <-elem_of_online.
  destruct (live_swarm_spec swarm) as [[-> ->]|(members & -> & <- & Hne)].
  - split; [by intros [? Hx]|]. set_solver.
  - split; [|by eexists]. intros _. apply set_choose_L. intros He.
    by apply dom_empty_inv_L in He.
Qed.

End Simulation.

(** The registry's decision on an announcement is the specified one. *)
Lemma register_admits server now request record m h :
  represents (ttl_ server) m h → 1 ≤ max_peers_per_swarm (limits_ server) →
  let live := prune_expired_locked (ttl_ server) now m in
  register_peer server now request record m =
    if admits server now h (tr_swarm_id request) (tr_peer_id request)
    then (true, <[tr_swarm_id request := <[tr_peer_id request := record]>
                   (default ∅ (live !! tr_swarm_id request))]> live)
    else (false, live).
Proof.
  intros Hrep Hmax live. rewrite register_peer_spec by done. fold live. unfold admits.
  pose proof (dom_live _ now m h Hrep) as Hdom. fold live in Hdom.
  destruct (live_swarm_spec _ now m h Hrep (tr_swarm_id request)) as [[Hl Ho]|(members & Hl & Ho & Hne)];
    fold live in Hl; rewrite Hl.
  - rewrite Ho, bool_decide_eq_true_2 by done. unfold size_of. by rewrite <-Hdom, size_dom.
  - rewrite <-Ho, (bool_decide_eq_false_2 (dom members = ∅)) by (by intros ?%dom_empty_inv_L).
    unfold size_of. rewrite size_dom. by rewrite (bool_decide_ext _ _ (symmetry (elem_of_dom members _))).
Qed.

Lemma represents_announce ttl now remote request m h :
  represents ttl m h →
  let live := prune_expired_locked ttl now m in
  let record := make_record now remote request in
  represents ttl
    (<[tr_swarm_id request := <[tr_peer_id request := record]>
        (default ∅ (live !! tr_swarm_id request))]> live)
    ({| clock := now; stored := Some (tr_swarm_id request, record) |} :: h).
Proof.
  intros Hrep live record T swarm id. rewrite peer_at_prune. unfold peer_at. simpl. unfold concerns.
  simpl. case_bool_decide as Hc.
  - destruct Hc as [<- <-]. rewrite lookup_insert_eq. simpl. by rewrite lookup_insert_eq.
  - rewrite <-Hrep, <-peer_at_prune_prune, peer_at_prune. fold live. unfold peer_at.
    destruct (decide (tr_swarm_id request = swarm)) as [Hs|Hs]; [|by rewrite lookup_insert_ne].
    rewrite Hs, lookup_insert_eq. simpl. rewrite lookup_insert_ne by tauto.
    by destruct (live !! swarm); simpl; rewrite ?lookup_empty.
Qed.

(** The registry's answer to a query is one of the specified ones. *)
Lemma find_answers `{HI : IterationOrder} server now request m h :
  represents (ttl_ server) m h → limits_ok (limits_ server) →
  answers server now h (tr_swarm_id request) (find_peers server now request m).1.
Proof.
  intros Hrep Hl. rewrite find_peers_spec by done. simpl.
  set (swarm := tr_swarm_id request). set (members := default ∅ _).
  set (limit := max_response_peers (limits_ server)).
  assert (∀ id r, (id, r) ∈ iteration members → seen (ttl_ server) now h swarm id = Some r) as Hin.
  { intros id r. rewrite iteration_perm, elem_of_map_to_list. rewrite <-Hrep. unfold members, peer_at.
    fold swarm. by destruct (prune_expired_locked _ _ _ !! swarm). }
  assert (size members = size (online (ttl_ server) now h swarm)) as Hsize.
  { unfold members. fold swarm.
    destruct (live_swarm_spec _ now m h Hrep swarm) as [[-> ->]|(ms & -> & <- & _)]; simpl;
      [done|by rewrite size_dom]. }
  assert (Forall (λ '(id, r), dp_peer_id (peer r) = id) (iteration members)) as Hid.
  { apply Forall_forall. intros [id r] Hr. by apply Hin, seen_some in Hr as [? _]. }
  assert (map dp_peer_id (map (λ '(_, r), peer r) (iteration members)) = (iteration members).*1) as Hids.
  { clear Hin. induction Hid as [|[id r] l Hr _ IH]; [done|]. cbn. by rewrite Hr, IH. }
  split_and!.
  - rewrite <-firstn_map, Hids. assert (NoDup (iteration members).*1) as Hn.
    { rewrite (iteration_perm members). apply NoDup_fst_map_to_list. }
    rewrite <-(take_drop (Z.to_nat limit)) in Hn. by apply NoDup_app in Hn as [? _].
  - intros p Hp%subseteq_take. apply list_elem_of_fmap in Hp as ([id r] & -> & Hr).
    exists r. split; [|done]. pose proof (Hin _ _ Hr) as Hs. by destruct (seen_some _ _ _ _ _ _ Hs) as [-> _].
  - rewrite <-Hsize. destruct Hl as (_ & _ & Hlim). fold limit in Hlim. unfold len.
    rewrite length_take, length_map, (iteration_perm members), length_map_to_list. lia.
Qed.

(** One critical section is one step of the specification. *)
Lemma step_simulation `{HI : IterationOrder} server m c m' h :
  server_ok server → represents (ttl_ server) m h → registry_step server m c m' →
  ∃ h', presence_step server h c h' ∧ represents (ttl_ server) m' h'.
Proof.
  intros (_ & _ & Hl) Hrep. destruct 1 as [now remote request accepted m m' E|now request found m m' E].
  - rewrite (register_admits _ _ _ _ _ h Hrep) in E by (destruct Hl as (_ & _ & ?); lia).
    eexists. destruct (admits _ _ _ _ _) eqn:Ea; injection E as <- <-.
    + split; [rewrite <-Ea at 1; constructor|]. rewrite Ea. by apply represents_announce.
    + split; [rewrite <-Ea at 1; constructor|]. rewrite Ea. by apply represents_prune.
  - eexists. split; [constructor|].
    + pose proof (find_answers server now request m h Hrep Hl) as Ha. by rewrite E in Ha.
    + rewrite find_peers_spec in E by done. injection E as _ <-. by apply represents_prune.
Qed.

(** What a connection does to the registry is one critical section, or
    nothing. *)
Lemma connection_is_call `{HI : IterationOrder} server now remote m c r m' c' :
  handle_connection server now remote (m, c) = (r, (m', c')) →
  m' = m ∨ ∃ cl, registry_step server m cl m'.
Proof.
  intros [_ ->]%handle_connection_effect. unfold connection_effect, request_effect.
  destruct (read_line kMaxHeaderBytes c).1 as [header|]; [|by left].
  destruct (parse_tracker_request header) as [request|]; [|by left].
  destruct (negb _); [by left|]. right. destruct (kind request).
  - destruct (register_peer server now request (make_record now remote request) m) as [accepted m1] eqn:E.
    exists (Announce now remote request accepted). by constructor.
  - destruct (find_peers server now request m) as [found m1] eqn:E.
    exists (Query now request found). replace (prune_expired_locked _ _ _) with m1; [by constructor|].
    unfold find_peers in E. by injection E.
Qed.

(** ** Properties *)

(** C8: the tracker keeps the contract of a register that never forgets and
    judges by the clock alone: for any sequence of announcements and queries,
    in any order of their clock readings, every answer of the registry, which
    peers it admits, which it refuses for want of room, and which it lists, is
    the answer computed from the whole history, where a peer is seen until a
    reading finds its last accepted announcement older than the time to live;
    and at the end the registry holds exactly the peers that are seen.  So
    that expired peers and swarms are erased only now and then, and a new
    swarm is entered before its peer is admitted, is never observable. *)
Theorem registry_refines_presence `{HI : IterationOrder} server calls m :
  server_ok server → run (registry_step server) ∅ calls m →
  ∃ h, run (presence_step server) [] calls h ∧
    ∀ now swarm id, peer_at (prune_expired_locked (ttl_ server) now m) swarm id =
                    seen (ttl_ server) now h swarm id.
Proof.
  intros Hs Hrun.
  assert (represents (ttl_ server) ∅ []) as Hrep.
  { intros T swarm id. rewrite peer_at_prune. unfold peer_at. by rewrite lookup_empty. }
  revert Hrep. generalize (@nil entry). induction Hrun as [m|m1 m2 m3 c calls Hc _ IH]; intros h Hrep.
  - exists h. split; [constructor|done].
  - destruct (step_simulation server m1 c m2 h Hs Hrep Hc) as (h' & Hp & Hrep').
    destruct (IH h' Hrep') as (h'' & ? & ?). exists h''. split; [by econstructor|done].
Qed.

(** ** Witnesses *)

#[local] Existing Instance listing_order.

(** A peer announces itself, is listed within its time, and not after. *)
Definition example_calls : list call :=
  [ Announce 5 example_remote example_request true;
    Query 7 example_request [peer (make_record 5 example_remote example_request)];
    Query (60 * 1000000000 + 5) example_request [] ].

Lemma registry_refines_presence_witness :
  ∃ h, run (presence_step example_server) [] example_calls h ∧
    seen 60 (60 * 1000000000 + 5) h example_swarm (str "p1") = None.
Proof.
  destruct (registry_refines_presence example_server example_calls
    (prune_expired_locked 60 (60 * 1000000000 + 5)
      (prune_expired_locked 60 7
        (register_peer example_server 5 example_request
          (make_record 5 example_remote example_request) ∅).2)))
    as (h & H1 & H2); [exact example_server_ok| |].
  - repeat econstructor; [apply injective_projections..]; vm_compute; reflexivity.
  - exists h. split; [exact H1|].
    etransitivity; [symmetry; exact (H2 (60 * 1000000000 + 5) example_swarm (str "p1"))|].
    vm_compute; reflexivity.
Defined.
