(* ===== verification/PeerServer.v ===== *)
(** * PeerServer: [src/src/peer_server.cpp]

    Serving one chunk request: what [serve_connection] answers to a connection,
    from the manifest, the shared file and the callback that tells which chunks
    are there.  The threads and the queue are in Pool. *)

From S2P Require Export Prelude.
From S2P Require Import Text Iostream Crypto Protocol Posix Stream Manifest.

#[local] Open Scope Z_scope.

(** ** Definitions *)

(** [has_chunk] is the [std::function], [None] when it is empty. *)
Record PeerServerConfig := {
  ps_manifest : Manifest;
  ps_file_path : bytes;
  ps_token : bytes;
  ps_port : Z;
  ps_bind_address : bytes;
  ps_max_connections : Z;
  ps_has_chunk : option (Z → res bool)
}.

(** The constructor. *)
Definition make_peer_server (config : PeerServerConfig) : res PeerServerConfig :=
  let! _ := validate (ps_manifest config) in
  if bool_decide (ps_file_path config = []) || bool_decide (ps_token config = []) ||
     bool_decide (ps_bind_address config = []) || (ps_max_connections config =? 0)
  then throw "Peer server requires file, token, bind address, and connection limit"
  else Ok config.

(** [endpoint()] of a server whose member [endpoint_] is [e]. *)
Definition peer_endpoint (e : Endpoint) : res Endpoint :=
  if bool_decide (host e = []) || (port e =? 0) then throw "Peer server has not started" else Ok e.

Definition send_error (code : string) : io conn unit :=
  catch_error (write_all (str "ERROR " ++ str code ++ [LF])) (λ _, ret tt).

Definition has_chunk (config : PeerServerConfig) (index : Z) : res bool :=
  match ps_has_chunk config with None => Ok true | Some f => f index end.

(** [config_.manifest.chunk_hashes[index]] of an index in range. *)
Definition chunk_hash (m : Manifest) (index : Z) : bytes :=
  default [] (chunk_hashes m !! Z.to_nat index).

(** The line before the bytes of a chunk. *)
Definition data_line (size : Z) (hash : bytes) : bytes :=
  str "DATA " ++ to_string size ++ str " " ++ hash ++ [LF].

Section Serving.
Context `{Evp}.

(** The [try] block of [serve_connection]; [file] is the content at
    [file_path], if it opens. *)
Definition serve_request (config : PeerServerConfig) (file : option bytes) : io conn unit :=
  do header <- Stream.read_line kMaxHeaderBytes;
  do request <- lift (parse_chunk_request header);
  if negb (secure_token_equal (ps_token config) (cr_token request))
  then send_error "unauthorized"
  else
    do id <- lift (swarm_id (ps_manifest config));
    if negb (beq (cr_swarm_id request) id) then send_error "wrong_swarm"
    else
      do unavailable <- lift
        (if cr_chunk_index request >=? len (chunk_hashes (ps_manifest config)) then Ok true
         else let! has := has_chunk config (cr_chunk_index request) in Ok (negb has));
      if unavailable : bool then send_error "unavailable"
      else
        do expected_size <- lift (chunk_size (ps_manifest config) (cr_chunk_index request));
        let input := open_ifstream file in
        if negb (is_ok_stream input) then send_error "io_failure"
        else
          do offset <- lift (chunk_offset (ps_manifest config) (cr_chunk_index request));
          let input := is_seekg offset input in
          let '(data, input) := is_read expected_size input in
          let hash := chunk_hash (ps_manifest config) (cr_chunk_index request) in
          do corrupt <- lift
            (if negb (len data =? expected_size) then Ok true
             else let! digest := sha256_hex data in Ok (negb (beq digest hash)));
          if corrupt : bool then send_error "corrupt"
          else
            do _ <- write_all (data_line (len data) hash);
            write_all data.

Definition serve_connection (config : PeerServerConfig) (file : option bytes) : io conn unit :=
  catch_error (serve_request config file) (λ _, send_error "bad_request").

End Serving.

(** *** Specifications *)

(** A configuration the constructor accepts, with a callback that throws only
    [Error]s. *)
Definition config_ok (config : PeerServerConfig) : Prop :=
  manifest_ok (ps_manifest config) ∧ ps_token config ≠ [] ∧
  match ps_has_chunk config with None => True | Some f => ∀ i, errors_only (f i) end.

Definition error_line (code : string) : bytes := str "ERROR " ++ str code ++ [LF].

Section Answers.
Context `{HE : Evp, !EvpLaws}.
Variables (config : PeerServerConfig) (file : option bytes).

#[local] Abbreviation m := (ps_manifest config).

(** The slice of the file for a chunk, of the chunk's size if the file is long
    enough. *)
Definition stored_slice (content : bytes) (index : Z) : bytes :=
  take (Z.to_nat (Z.min (file_size_bytes m - index * chunk_size_bytes m) (chunk_size_bytes m)))
    (drop (Z.to_nat (index * chunk_size_bytes m)) content).

(** The decision for a well-formed request: the bytes to serve, the code of
    the refusal, or the exception of the callback. *)
Definition decision (request : ChunkRequest) : res (bytes + string) :=
  if negb (bool_decide (ps_token config = cr_token request)) then Ok (inr "unauthorized"%string)
  else if negb (bool_decide (swarm_id m = Ok (cr_swarm_id request)))
  then Ok (inr "wrong_swarm"%string)
  else if cr_chunk_index request >=? len (chunk_hashes m) then Ok (inr "unavailable"%string)
  else
    let! has := has_chunk config (cr_chunk_index request) in
    Ok (if negb has then inr "unavailable"%string
        else match file with
             | None => inr "io_failure"%string
             | Some content =>
                 let slice := stored_slice content (cr_chunk_index request) in
                 if bool_decide (chunk_size m (cr_chunk_index request) = Ok (len slice)) &&
                    bool_decide (sha256 slice = chunk_hash m (cr_chunk_index request))
                 then inl slice else inr "corrupt"%string
             end).

Definition respond (request : ChunkRequest) : io conn unit :=
  do verdict <- lift (decision request);
  match verdict with
  | inl data =>
      do _ <- write_all (data_line (len data) (chunk_hash m (cr_chunk_index request)));
      write_all data
  | inr code => send_error code
  end.

(** The answer to a header on a connection that does not fail. *)
Definition answer (header : bytes) : bytes :=
  match parse_chunk_request header with
  | Throw _ => error_line "bad_request"
  | Ok request =>
      match decision request with
      | Ok (inl data) => data_line (len data) (chunk_hash m (cr_chunk_index request)) ++ data
      | Ok (inr code) => error_line code
      | Throw _ => error_line "bad_request"
      end
  end.

Lemma send_error_outcome code c r c' :
  send_error code c = (r, c') →
  r = Ok tt ∧ ∃ sent unsent, error_line code = sent ++ unsent ∧ outgoing c' = outgoing c ++ sent.
Proof.
  unfold send_error, catch_error. destruct (write_all _ c) as [r0 c0] eqn:E.
  apply write_all_spec in E as (_ & _ & [[-> Ho]|(w & sent & unsent & -> & Hs & Ho)]); intros [= <- <-].
  - split; [done|]. exists (error_line code), []. by rewrite app_nil_r.
  - split; [done|]. by exists sent, unsent.
Qed.

Lemma send_error_ok code c :
  accepting c → ∃ c', send_error code c = (Ok tt, c') ∧ outgoing c' = outgoing c ++ error_line code.
Proof.
  intros Hc. unfold send_error, catch_error.
  destruct (write_all_ok (str "ERROR " ++ str code ++ [LF]) c Hc) as (c' & -> & _ & _ & ? & _).
  by exists c'.
Qed.

(** The code after parsing is the decision. *)
Lemma serve_request_respond header request c c1 :
  config_ok config → Stream.read_line kMaxHeaderBytes c = (Ok header, c1) →
  parse_chunk_request header = Ok request →
  serve_request config file c = respond request c1.
Proof.
  intros (Hm & _ & _) Hr Hp. pose proof (parse_chunk_request_sound header request Hp) as (_ & _ & Hi).
  unfold serve_request, respond, decision. unfold bind at 1. rewrite Hr. unfold bind at 1. unfold lift at 1.
  rewrite Hp. destruct (secure_token_equal (ps_token config) (cr_token request)) eqn:Ht.
  2:{ rewrite bool_decide_eq_false_2; [done|]. by intros ?%secure_token_equal_spec; congruence. }
  apply secure_token_equal_spec in Ht. rewrite (bool_decide_eq_true_2 _ Ht). cbn [negb].
  destruct (swarm_id_ok m Hm) as (id & Hid & _). unfold bind at 1, lift at 1. rewrite Hid.
  destruct (beq (cr_swarm_id request) id) eqn:Hb; cbn [negb].
  2:{ unfold beq in Hb. reflect. by rewrite bool_decide_eq_false_2 by congruence. }
  apply beq_spec in Hb. rewrite bool_decide_eq_true_2 by congruence. cbn [negb].
  destruct (Z.geb_spec (cr_chunk_index request) (len (chunk_hashes m))) as [Hlt|Hlt]; [done|].
  unfold bind, lift. destruct (has_chunk config (cr_chunk_index request)) as [has|e]; cbn [rbind]; [|done].
  destruct has; cbn [negb]; [|done].
  rewrite chunk_size_spec by (try done; lia). unfold is_ok_stream.
  destruct file as [content|]; [|done]. cbn [open_ifstream is_failbit negb].
  rewrite chunk_offset_spec by (try done; lia). unfold is_seekg. cbn [is_failbit].
  unfold is_read. change (is_good _) with true. cbv iota. cbn [is_content is_pos set_state].
  change (take _ (drop _ content)) with (stored_slice content (cr_chunk_index request)).
  set (slice := stored_slice content (cr_chunk_index request)).
  destruct (Z.eqb_spec (len slice)
    (Z.min (file_size_bytes m - cr_chunk_index request * chunk_size_bytes m) (chunk_size_bytes m))) as [Hn|Hn].
  - rewrite bool_decide_eq_true_2 by congruence. cbn [negb andb]. rewrite sha256_hex_spec. cbn [rbind].
    unfold beq. by destruct (bool_decide (sha256 slice = _)).
  - by rewrite bool_decide_eq_false_2 by congruence.
Qed.

Lemma decision_errors request : config_ok config → errors_only (decision request).
Proof.
  intros (_ & _ & Hf). assert (errors_only (has_chunk config (cr_chunk_index request))) as Hh.
  { unfold has_chunk. by destruct (ps_has_chunk config). }
  clear Hf. unfold decision. errors_only.
Qed.

(** What a decision to serve guarantees. *)
Lemma decision_served request data :
  decision request = Ok (inl data) →
  ∃ content, file = Some content ∧ data = stored_slice content (cr_chunk_index request) ∧
  cr_token request = ps_token config ∧ swarm_id m = Ok (cr_swarm_id request) ∧
  cr_chunk_index request < len (chunk_hashes m) ∧
  has_chunk config (cr_chunk_index request) = Ok true ∧
  chunk_size m (cr_chunk_index request) = Ok (len data) ∧
  sha256 data = chunk_hash m (cr_chunk_index request).
Proof.
  unfold decision. destruct (bool_decide_reflect (ps_token config = cr_token request)); [cbn [negb]|done].
  destruct (bool_decide_reflect (swarm_id m = Ok (cr_swarm_id request))); [cbn [negb]|done].
  destruct (Z.geb_spec (cr_chunk_index request) (len (chunk_hashes m))); [done|].
  destruct (has_chunk config (cr_chunk_index request)) as [[]|]; try done. cbn [rbind negb].
  destruct file as [content|]; [|done].
  destruct (_ && _) eqn:E; [|done]. intros [= <-]. reflect. exists content. by split_and!.
Qed.

(** The line and the bytes of a chunk, or what of them could be sent. *)
Lemma respond_outcome request c r c' :
  config_ok config → respond request c = (r, c') →
  errors_only r ∧ ∃ sent unsent, outgoing c' = outgoing c ++ sent ∧
    match decision request with
    | Ok (inl data) => data_line (len data) (chunk_hash m (cr_chunk_index request)) ++ data = sent ++ unsent
    | Ok (inr code) => error_line code = sent ++ unsent
    | Throw _ => sent = []
    end.
Proof.
  intros Hc. unfold respond. unfold bind at 1, lift. pose proof (decision_errors request Hc) as He.
  destruct (decision request) as [[data|code]|e].
  - unfold bind. set (line := data_line _ _). destruct (write_all line c) as [r1 c1] eqn:E1.
    apply write_all_spec in E1 as (_ & _ & [[-> Ho]|(w & sent & unsent & -> & Hs & Ho)]).
    + intros E2. apply write_all_spec in E2 as (_ & _ & [[-> Ho2]|(w & sent & unsent & -> & Hs & Ho2)]).
      * split; [done|]. exists (line ++ data), []. by rewrite Ho2, Ho, <-app_assoc, app_nil_r.
      * split; [done|]. exists (line ++ sent), unsent. by rewrite Ho2, Ho, Hs, <-!app_assoc.
    + intros [= <- <-]. split; [done|]. exists sent, (unsent ++ data). by rewrite Hs, <-app_assoc, Ho.
  - intros (-> & sent & unsent & Hs & Ho)%send_error_outcome. split; [done|]. eauto.
  - intros [= <- <-]. split; [by destruct e|]. exists [], []. by rewrite app_nil_r.
Qed.

End Answers.

(** What a request may be sent besides errors: the beginning of the data line
    and the bytes of its chunk in the server's file, if it is entitled to
    them. *)
Definition released `{HE : Evp, !EvpLaws} (config : PeerServerConfig) (file : option bytes)
    (request : ChunkRequest) (p : bytes) : Prop :=
  ∃ content data,
    file = Some content ∧ data = stored_slice config content (cr_chunk_index request) ∧
    p `prefix_of` data_line (len data) (chunk_hash (ps_manifest config) (cr_chunk_index request)) ++ data ∧
    cr_token request = ps_token config ∧
    swarm_id (ps_manifest config) = Ok (cr_swarm_id request) ∧
    has_chunk config (cr_chunk_index request) = Ok true ∧
    chunk_size (ps_manifest config) (cr_chunk_index request) = Ok (len data) ∧
    sha256 data = chunk_hash (ps_manifest config) (cr_chunk_index request).

(** The errors of [serve_connection] after a well-formed request; the first
    is for a wrong token and only for it. *)
Definition refusals : list string := ["wrong_swarm"; "unavailable"; "io_failure"; "corrupt"]%string.

Definition refused (config : PeerServerConfig) (request : ChunkRequest) (p : bytes) : Prop :=
  if bool_decide (cr_token request = ps_token config)
  then ∃ code, code ∈ refusals ∧ p `prefix_of` error_line code
  else p `prefix_of` error_line "unauthorized".

(** What is sent before the end of the [try] block: nothing, or the answer to
    the request in the client's own header. *)
Definition served `{HE : Evp, !EvpLaws} (config : PeerServerConfig) (file : option bytes) (c : conn)
    (p : bytes) : Prop :=
  p = [] ∨
  ∃ header request, (Stream.read_line kMaxHeaderBytes c).1 = Ok header ∧
    parse_chunk_request header = Ok request ∧ (refused config request p ∨ released config file request p).

Lemma decision_refused `{HE : Evp, !EvpLaws} config file request code :
  decision config file request = Ok (inr code) →
  if bool_decide (cr_token request = ps_token config) then code ∈ refusals else code = "unauthorized"%string.
Proof.
  unfold decision. rewrite (bool_decide_ext (ps_token config = _) (cr_token request = ps_token config)) by done.
  destruct (bool_decide (cr_token request = _)); cbn [negb]; [|by intros [= <-]].
  destruct (negb _); [intros [= <-]; set_solver|]. destruct (_ >=? _); [intros [= <-]; set_solver|].
  destruct (has_chunk config _) as [[]|]; cbn [rbind negb]; [|intros [= <-]; set_solver|done].
  destruct file as [content|]; [|intros [= <-]; set_solver].
  destruct (_ && _); [done|]. intros [= <-]. set_solver.
Qed.

Lemma serve_request_safe `{HE : Evp, !EvpLaws} config file c r c' :
  config_ok config → serve_request config file c = (r, c') →
  errors_only r ∧ ∃ p, outgoing c' = outgoing c ++ p ∧ served config file c p.
Proof.
  intros Hcfg.
  destruct (Stream.read_line kMaxHeaderBytes c) as [[header|e] c1] eqn:Er.
  all: pose proof Er as Hout; apply read_line_outcome in Hout as (He & (_ & Ho & _) & _); [|done].
  - destruct (parse_chunk_request header) as [request|e] eqn:Hq.
    + rewrite (serve_request_respond config file header request c c1) by done.
      intros (? & sent & unsent & Hs & Hd)%respond_outcome; [|done]. split; [done|].
      exists sent. split; [by rewrite Hs, Ho|].
      destruct (decision config file request) as [[data|code]|e] eqn:Ed; [right..|by left];
        exists header, request; (split; [by rewrite Er|]; split; [done|]).
      * right. apply decision_served in Ed as (content & ? & ? & ? & ? & _ & ? & ? & ?).
        exists content, data. split_and!; try done. by exists unsent.
      * left. apply decision_refused in Ed. unfold refused. case_bool_decide.
        -- exists code. split; [done|]. by exists unsent.
        -- subst code. by exists unsent.
    + assert (serve_request config file c = (Throw e, c1)) as ->.
      { unfold serve_request. unfold bind at 1. rewrite Er. unfold bind at 1, lift. by rewrite Hq. }
      pose proof (parse_chunk_request_errors header) as He2. rewrite Hq in He2.
      intros [= <- <-]. split; [done|]. exists []. rewrite app_nil_r. split; [done|by left].
  - assert (serve_request config file c = (Throw e, c1)) as ->.
    { unfold serve_request. unfold bind at 1. by rewrite Er. }
    intros [= <- <-]. split; [by destruct e|]. exists []. rewrite app_nil_r. split; [done|by left].
Qed.

(** The answer to a complete header. *)
Lemma serve_connection_answer `{HE : Evp, !EvpLaws} config file c header rest :
  config_ok config → valid c = true → clean (incoming c) → accepting c →
  payload (incoming c) = header ++ LF :: rest →
  Forall (λ c, 32 ≤ code c ≤ 126) header → len header ≤ kMaxHeaderBytes →
  ∃ c', serve_connection config file c = (Ok tt, c') ∧
        outgoing c' = outgoing c ++ answer config file header.
Proof.
  intros Hcfg Hv Hc Ha Hp Hh Hl.
  destruct (read_printable_line c header rest Hv Hc Hp Hh Hl) as (c1 & Hr & _ & _ & (_ & Ho & Hse)).
  assert (accepting c1) as Ha1 by (unfold accepting; by rewrite Hse).
  unfold serve_connection, catch_error at 1, answer.
  destruct (parse_chunk_request header) as [request|e] eqn:Hq.
  - rewrite (serve_request_respond config file header request c c1) by done.
    unfold respond. unfold bind at 1, lift. pose proof (decision_errors config file request Hcfg) as He.
    destruct (decision config file request) as [[data|code]|[w|w|]]; try done.
    + set (line := data_line _ _). unfold bind.
      destruct (write_all_ok line c1 Ha1) as (c2 & -> & _ & _ & Ho2 & Ha2).
      destruct (write_all_ok data c2 Ha2) as (c3 & -> & _ & _ & Ho3 & _).
      exists c3. by rewrite Ho3, Ho2, Ho, <-app_assoc.
    + destruct (send_error_ok code c1 Ha1) as (c2 & -> & ?). exists c2. by rewrite <-Ho.
    + destruct (send_error_ok "bad_request" c1 Ha1) as (c2 & -> & ?). exists c2. by rewrite <-Ho.
  - assert (serve_request config file c = (Throw e, c1)) as ->.
    { unfold serve_request. unfold bind at 1. rewrite Hr. unfold bind at 1, lift. by rewrite Hq. }
    pose proof (parse_chunk_request_errors header) as He. rewrite Hq in He.
    destruct e as [w|w|]; try done.
    destruct (send_error_ok "bad_request" c1 Ha1) as (c2 & -> & ?). exists c2. by rewrite <-Ho.
Qed.

(** ** Properties *)

(** C32: on a connection that delivers a complete header and does not fail, the
    server sends exactly the answer: the chunk, with its size and its hash from
    the manifest, if and only if the token is the server's, the swarm is the
    manifest's, the index is in it, the callback has the chunk and the stored
    bytes have the manifest's hash; otherwise the one error line of the first
    condition that fails, and no other bytes. *)
Theorem serve_connection_exact `{HE : Evp, !EvpLaws} config file c header rest :
  config_ok config → valid c = true → clean (incoming c) → accepting c →
  payload (incoming c) = header ++ LF :: rest →
  Forall (λ c, 32 ≤ code c ≤ 126) header → len header ≤ kMaxHeaderBytes →
  ∃ c', serve_connection config file c = (Ok tt, c') ∧
        outgoing c' = outgoing c ++ answer config file header.
Proof. apply serve_connection_answer. Qed.

(** C6: whatever the client sends and however its socket fails, the handler
    returns normally, and what it sent is nothing, or the beginning of one
    answer to the request in the client's own header: if that request does not
    carry exactly the server's token, the line [ERROR unauthorized]; if it
    does, one of the four other error lines, or the data line and the bytes of
    the chunk it asks for, cut from the server's file, where the request names
    the manifest's swarm, the callback has the chunk, and the bytes have the
    manifest's size and hash for it; followed by at most the beginning of the
    bad_request line.  No byte of the file goes to a client without the
    token. *)
Theorem serve_connection_safe `{HE : Evp, !EvpLaws} config file c r c' :
  config_ok config → serve_connection config file c = (r, c') →
  r = Ok tt ∧ ∃ p q, outgoing c' = outgoing c ++ p ++ q ∧ served config file c p ∧
    q `prefix_of` error_line "bad_request".
Proof.
  intros Hcfg. unfold serve_connection, catch_error at 1.
  destruct (serve_request config file c) as [r0 c0] eqn:E.
  apply serve_request_safe in E as (He & p & Ho & Hp); [|done].
  destruct r0 as [[]|[w|w|]]; try done.
  - intros [= <- <-]. split; [done|]. exists p, []. rewrite app_nil_r.
    split_and!; [done|done|apply prefix_nil].
  - intros (-> & q & q' & Hq & Hoq)%send_error_outcome. split; [done|]. exists p, q.
    split_and!; [by rewrite Hoq, Ho, app_assoc|done|by exists q'].
Qed.

(** A server of the example file that lacks chunk 0. *)
Definition example_config : PeerServerConfig :=
  {| ps_manifest := example_manifest; ps_file_path := str "dir/greeting.txt"; ps_token := str "secret";
     ps_port := 0; ps_bind_address := str "127.0.0.1"; ps_max_connections := 32;
     ps_has_chunk := Some (λ i, Ok (negb (i =? 0))) |}.

Definition example_swarm_id : bytes := match swarm_id example_manifest with Ok id => id | Throw _ => [] end.
Definition example_get : bytes := str "GET secret " ++ example_swarm_id ++ str " 2".
Definition example_get_conn : conn :=
  {| valid := true; incoming := [Arrives (example_get ++ [LF])]; outgoing := []; sends := [Short 7] |}.

Lemma example_config_ok : config_ok example_config.
Proof. split; [exact example_manifest_ok|]. split; [discriminate|]. exact (λ _, I). Qed.

Lemma serve_connection_exact_witness :
  ∃ c', serve_connection example_config (Some example_content) example_get_conn = (Ok tt, c') ∧
        outgoing c' = answer example_config (Some example_content) example_get ∧
        decision example_config (Some example_content)
          {| cr_token := str "secret"; cr_swarm_id := example_swarm_id; cr_chunk_index := 2 |} =
        Ok (inl (str "rld")).
Proof.
  destruct (serve_connection_exact example_config (Some example_content) example_get_conn example_get [])
    as (c' & H1 & H2).
  - exact example_config_ok.
  - reflexivity.
  - repeat constructor.
  - repeat constructor.
  - apply app_nil_r.
  - apply Forall_forall. intros c Hc.
    assert (forallb (λ c, (32 <=? code c) && (code c <=? 126)) example_get = true) as Hall
      by (vm_compute; reflexivity).
    rewrite forallb_forall in Hall. apply list_elem_of_In, Hall in Hc. reflect. lia.
  - vm_compute. discriminate.
  - exists c'. split; [exact H1|]. split; [|vm_compute; reflexivity].
    etransitivity; [exact H2|]. change (outgoing example_get_conn) with (@nil ascii). apply app_nil_l.
Defined.

Lemma serve_connection_safe_witness :
  ∃ p q, outgoing (serve_connection example_config (Some (str "hello")) example_get_conn).2 = p ++ q ∧
    served example_config (Some (str "hello")) example_get_conn p ∧
    q `prefix_of` error_line "bad_request".
Proof.
  destruct (serve_connection example_config (Some (str "hello")) example_get_conn) as [r c'] eqn:E.
  destruct (serve_connection_safe example_config (Some (str "hello")) example_get_conn r c' example_config_ok E)
    as (_ & p & q & H1 & H2 & H3).
  exists p, q. split; [exact H1|]. split; [exact H2|exact H3].
Defined.
