(* ===== verification/Pool.v ===== *)
(** * Pool: the threads of [TrackerServer] and [PeerServer]

    Both servers have one accept thread, a queue of connections, worker
    threads and [stop] (src/src/tracker.cpp, src/src/peer_server.cpp: [start],
    [stop], [accept_loop], [worker_loop]).  The threads are interleaved at
    their atomic operations and critical sections; the mutex is explicit
    because a worker holds it between testing its predicate and blocking.
    Serving a connection and sending the busy answer are single steps that may
    take any time but end, as the socket timeouts make them.  [accept] has no
    timeout: on an open listener it ends only when the environment acts, with a
    client or a failure; once the listener is shut down it fails. *)

From S2P Require Export Prelude.

#[local] Open Scope Z_scope.

(** ** Definitions *)

(** Where the accept thread is; the argument is the connection it holds. *)
Inductive acceptor :=
| A_test                       (* [while (running_.load())] *)
| A_accept                     (* [accept_tcp] *)
| A_count (client : nat)       (* before [outstanding_connections_.fetch_add(1U)] *)
| A_check (client : nat) (current : Z)
| A_reject                     (* before the [fetch_sub] of a busy server *)
| A_enqueue (client : nat)     (* before locking the queue *)
| A_notify                     (* before [queue_condition_.notify_one()] *)
| A_uncount                    (* before the [fetch_sub] of a stopping server *)
| A_done.

(** Where a worker is. *)
Inductive worker :=
| W_lock                       (* before locking the queue, also when woken *)
| W_parking                    (* predicate false, mutex held, before blocking *)
| W_waiting                    (* blocked in [wait] *)
| W_serving (client : nat)
| W_uncount                    (* before [fetch_sub(1U)] *)
| W_done.

(** Where the thread that calls [stop] is. *)
Inductive stopper :=
| S_idle
| S_shutdown                   (* before [::shutdown(listener_)] *)
| S_join_acceptor
| S_close                      (* before [listener_.close()] *)
| S_clear                      (* before locking the queue *)
| S_notify                     (* before [notify_all] *)
| S_join_workers
| S_done.

#[global] Instance acceptor_eq_dec : EqDecision acceptor.
Proof. solve_decision. Defined.
#[global] Instance worker_eq_dec : EqDecision worker.
Proof. solve_decision. Defined.

(** [listener_]: not open, open, or open and shut down. *)
Inductive listener_state := Closed | Listening | Shut.

Record pool := {
  running : bool;
  listener : listener_state;
  outstanding : Z;
  queue : list nat;
  acc : acceptor;
  workers : list worker;
  stop : stopper
}.

Definition with_acc (p : pool) (a : acceptor) : pool :=
  {| running := running p; listener := listener p; outstanding := outstanding p; queue := queue p; acc := a;
     workers := workers p; stop := stop p |}.
Definition with_outstanding (p : pool) (n : Z) : pool :=
  {| running := running p; listener := listener p; outstanding := n; queue := queue p; acc := acc p;
     workers := workers p; stop := stop p |}.
Definition with_queue (p : pool) (q : list nat) : pool :=
  {| running := running p; listener := listener p; outstanding := outstanding p; queue := q; acc := acc p;
     workers := workers p; stop := stop p |}.
Definition with_workers (p : pool) (ws : list worker) : pool :=
  {| running := running p; listener := listener p; outstanding := outstanding p; queue := queue p; acc := acc p;
     workers := ws; stop := stop p |}.
Definition with_listener (p : pool) (l : listener_state) : pool :=
  {| running := running p; listener := l; outstanding := outstanding p; queue := queue p; acc := acc p;
     workers := workers p; stop := stop p |}.
Definition with_stop (p : pool) (s : stopper) : pool :=
  {| running := running p; listener := listener p; outstanding := outstanding p; queue := queue p; acc := acc p;
     workers := workers p; stop := s |}.

(** [fetch_add] and [fetch_sub] on the [std::atomic_uint32_t]. *)
Definition fetch_add (p : pool) (n : Z) : pool := with_outstanding p (u32 (outstanding p + n)).
Definition fetch_sub (p : pool) (n : Z) : pool := with_outstanding p (u32 (outstanding p - n)).

(** The mutex is held by a worker that is about to block. *)
Definition mutex_free (p : pool) : Prop := W_parking ∉ workers p.

Definition wake (w : worker) : worker := match w with W_waiting => W_lock | _ => w end.

(** [notify_one]: some waiting worker, if there is one. *)
Inductive notified (ws : list worker) : list worker → Prop :=
| notified_one i : ws !! i = Some W_waiting → notified ws (<[i := W_lock]> ws)
| notified_none : W_waiting ∉ ws → notified ws ws.

(** The accept thread, with the limit [max] of connections.  Where [env] is
    true the environment may act: a client arrives, or accepting one fails. *)
Inductive acceptor_step (env : bool) (max : Z) (p : pool) : pool → Prop :=
| acc_test : acc p = A_test →
    acceptor_step env max p (with_acc p (if running p then A_accept else A_done))
| acc_accept client : env = true → acc p = A_accept → acceptor_step env max p (with_acc p (A_count client))
| acc_accept_error : env = true ∨ listener p ≠ Listening → acc p = A_accept →
    acceptor_step env max p (with_acc p A_test)
| acc_count client : acc p = A_count client →
    acceptor_step env max p (with_acc (fetch_add p 1) (A_check client (outstanding p)))
| acc_check client current : acc p = A_check client current →
    acceptor_step env max p (with_acc p (if current >=? max then A_reject else A_enqueue client))
| acc_reject : acc p = A_reject → acceptor_step env max p (with_acc (fetch_sub p 1) A_test)
| acc_enqueue client : acc p = A_enqueue client → mutex_free p →
    acceptor_step env max p
      (if running p then with_acc (with_queue p (queue p ++ [client])) A_notify
       else with_acc p A_uncount)
| acc_notify ws : acc p = A_notify → notified (workers p) ws →
    acceptor_step env max p (with_acc (with_workers p ws) A_test)
| acc_uncount : acc p = A_uncount → acceptor_step env max p (with_acc (fetch_sub p 1) A_test).

(** Worker [i]; where [env] is true a blocked worker may be woken without a
    notification. *)
Inductive worker_step (env : bool) (i : nat) (p : pool) : pool → Prop :=
| work_exit : workers p !! i = Some W_lock → mutex_free p → running p = false →
    worker_step env i p (with_workers p (<[i := W_done]> (workers p)))
| work_take client rest : workers p !! i = Some W_lock → mutex_free p → running p = true →
    queue p = client :: rest →
    worker_step env i p (with_workers (with_queue p rest) (<[i := W_serving client]> (workers p)))
| work_park : workers p !! i = Some W_lock → mutex_free p → running p = true → queue p = [] →
    worker_step env i p (with_workers p (<[i := W_parking]> (workers p)))
| work_wait : workers p !! i = Some W_parking →
    worker_step env i p (with_workers p (<[i := W_waiting]> (workers p)))
| work_spurious : env = true → workers p !! i = Some W_waiting →
    worker_step env i p (with_workers p (<[i := W_lock]> (workers p)))
| work_serve client : workers p !! i = Some (W_serving client) →
    worker_step env i p (with_workers p (<[i := W_uncount]> (workers p)))
| work_uncount : workers p !! i = Some W_uncount →
    worker_step env i p (with_workers (fetch_sub p 1) (<[i := W_lock]> (workers p))).

(** [stop]; [resets] is true for the tracker, which stores 0 at the end.
    [shutdown] works on a listening socket. *)
Inductive stop_step (resets : bool) (p : pool) : pool → Prop :=
| stop_begin : stop p = S_idle → running p = true →
    stop_step resets p
      {| running := false; listener := listener p; outstanding := outstanding p; queue := queue p;
         acc := acc p; workers := workers p; stop := S_shutdown |}
| stop_shutdown : stop p = S_shutdown →
    stop_step resets p
      (with_stop (with_listener p (match listener p with Listening => Shut | l => l end)) S_join_acceptor)
| stop_joined : stop p = S_join_acceptor → acc p = A_done →
    stop_step resets p (with_stop p S_close)
| stop_close : stop p = S_close → stop_step resets p (with_stop (with_listener p Closed) S_clear)
| stop_clear : stop p = S_clear → mutex_free p →
    stop_step resets p
      (with_stop (with_queue (fetch_sub p (Z.of_nat (length (queue p)))) []) S_notify)
| stop_notify : stop p = S_notify →
    stop_step resets p (with_stop (with_workers p (map wake (workers p))) S_join_workers)
| stop_finish : stop p = S_join_workers → Forall (λ w, w = W_done) (workers p) →
    stop_step resets p
      (with_stop (if resets then with_outstanding p 0 else p) S_done).

(** A step of the server; with [env] false, one that needs nothing of the
    environment. *)
Inductive pool_step (env : bool) (max : Z) (resets : bool) (p p' : pool) : Prop :=
| pool_acceptor : acceptor_step env max p p' → pool_step env max resets p p'
| pool_worker i : worker_step env i p p' → pool_step env max resets p p'
| pool_stop : stop_step resets p p' → pool_step env max resets p p'.

(** The two servers: the tracker resets its counter at the end of [stop], the
    peer server does not. *)
Definition tracker_server_step (max : Z) : pool → pool → Prop := pool_step true max true.
Definition peer_server_step (max : Z) : pool → pool → Prop := pool_step true max false.

(** After [start] with a listener in state [l]: [n] workers were created, and
    the accept thread unless an exception came first. *)
Definition started (l : listener_state) (n : nat) (accepting : bool) : pool :=
  {| running := true; listener := l; outstanding := 0; queue := [];
     acc := if accepting then A_test else A_done; workers := replicate n W_lock; stop := S_idle |}.

(** *** Specifications *)

(** Connections counted in [outstanding_connections_], thread by thread. *)
Definition acc_counted (a : acceptor) : nat :=
  match a with A_check _ _ | A_reject | A_enqueue _ | A_uncount => 1 | _ => 0 end.
Definition worker_counted (w : worker) : nat :=
  match w with W_serving _ | W_uncount => 1 | _ => 0 end.

(** Connections admitted: in the queue or with a worker. *)
Definition admitted (p : pool) : nat :=
  length (queue p) + sum_list_with worker_counted (workers p).

(** Workers about to look at the queue, and a notification about to be sent. *)
Definition worker_ready (w : worker) : nat := match w with W_lock => 1 | _ => 0 end.
Definition ready (p : pool) : nat :=
  sum_list_with worker_ready (workers p) + match acc p with A_notify => 1 | _ => 0 end.

(** How far [stop] is. *)
Definition phase (s : stopper) : nat :=
  match s with
  | S_idle => 0 | S_shutdown => 1 | S_join_acceptor => 2 | S_close => 3 | S_clear => 4 | S_notify => 5
  | S_join_workers => 6 | S_done => 7
  end.

Record pool_ok (max : Z) (p : pool) : Prop := {
  ok_count : outstanding p = Z.of_nat (admitted p + acc_counted (acc p));
  ok_admitted : Z.of_nat (admitted p) ≤ max;
  ok_room : match acc p with
            | A_check _ current => Z.of_nat (admitted p) ≤ current
            | A_enqueue _ => Z.of_nat (admitted p) < max
            | _ => True
            end;
  ok_running : running p = true ↔ phase (stop p) = 0%nat;
  ok_parking : W_parking ∈ workers p → queue p = [] ∧ (phase (stop p) ≤ 4)%nat;
  ok_ready : running p = true → W_waiting ∈ workers p → (length (queue p) ≤ ready p)%nat;
  ok_shut : (2 ≤ phase (stop p))%nat → listener p ≠ Listening;
  ok_acceptor : (3 ≤ phase (stop p))%nat → acc p = A_done;
  ok_closed : (4 ≤ phase (stop p))%nat → listener p = Closed;
  ok_cleared : (5 ≤ phase (stop p))%nat → queue p = [];
  ok_woken : (6 ≤ phase (stop p))%nat → W_waiting ∉ workers p;
  ok_finished : (7 ≤ phase (stop p))%nat → Forall (λ w, w = W_done) (workers p)
}.

(** ** The invariant *)

Lemma elem_of_insert_worker w v (ws : list worker) i :
  w ∈ <[i := v]> ws → w = v ∨ w ∈ ws.
Proof.
  intros [j Hj]%list_elem_of_lookup. apply list_lookup_insert_Some in Hj as [(_ & <- & _)|[_ Hj]];
    [by left|right]. by eapply list_elem_of_lookup_2.
Qed.

Lemma started_ok max l n accepting : 0 ≤ max → pool_ok max (started l n accepting).
Proof.
  intros Hm. assert (sum_list_with worker_counted (replicate n W_lock) = 0)%nat as Hz.
  { apply sum_list_zero, Forall_replicate. done. }
  constructor; unfold admitted; simpl; rewrite ?Hz; try done; try lia.
  - by destruct accepting.
  - by destruct accepting.
  - intros [? _]%elem_of_replicate. done.
Qed.

(** The fields of the invariant that a step leaves alone, or that are about
    another phase. *)
Ltac fields :=
  constructor; simpl; unfold admitted, ready in *; simpl; try assumption; try exact I; try lia;
  try (intros; exfalso; lia).

Section Preservation.
Variables (max : Z) (p : pool).
Hypothesis Hmax : 0 ≤ max < 2 ^ 32 - 1.
Hypothesis Hok : pool_ok max p.

Lemma outstanding_range : 0 ≤ outstanding p ≤ max + 1.
Proof.
  pose proof (ok_count _ _ Hok). pose proof (ok_admitted _ _ Hok).
  assert (acc_counted (acc p) ≤ 1)%nat by (destruct (acc p); simpl; lia). lia.
Qed.

Lemma acceptor_step_ok env p' : acceptor_step env max p p' → pool_ok max p'.
Proof.
  pose proof outstanding_range as Hr.
  destruct Hok as [Hc Ha Hroom Hrun Hp Hready Hsh Hacc Hclo Hcl Hw Hf]. intros Hs.
  assert (acc p ≠ A_done → phase (stop p) < 3)%nat as Hcon.
  { intros Hd. destruct (Nat.lt_ge_cases (phase (stop p)) 3) as [|H3]; [done|]. by destruct (Hd (Hacc H3)). }
  destruct Hs as [Hat|cl He Hat|He Hat|cl Hat|cl cur Hat|Hat|cl Hat Hm|ws Hat Hn|Hat];
    rewrite Hat in *; simpl in *; specialize (Hcon ltac:(done));
    unfold admitted, ready in *; rewrite ?Hat in *.
  - destruct (running p) eqn:Er; fields; by rewrite ?Er.
  - fields.
  - fields.
  - fields. unfold u32; rewrite Z.mod_small; lia.
  - destruct (Z.geb_spec cur max); fields.
  - fields. unfold u32; rewrite Z.mod_small; lia.
  - destruct (running p) eqn:Er; fields; rewrite ?Er, ?length_app; simpl; try assumption; try lia.
    + by intros Hpk.
    + intros _ Hwait. specialize (Hready eq_refl Hwait). lia.
  - assert (∀ f, f W_waiting = f W_lock → sum_list_with f ws = sum_list_with f (workers p)) as Hsum.
    { intros f Hfw. destruct Hn as [i Hi|]; [|done].
      pose proof (sum_list_insert f (workers p) i _ W_lock Hi). lia. }
    assert (∀ w, w ∈ ws → w = W_lock ∨ w ∈ workers p) as Hin.
    { intros w Hx. destruct Hn as [i Hi|]; [by apply elem_of_insert_worker in Hx|by right]. }
    fields; rewrite ?Hsum by done; try assumption.
    + intros [|]%Hin; [done|by apply Hp].
    + intros Hrn Hwait. destruct Hn as [i Hi|Hnone]; [|done].
      pose proof (sum_list_insert worker_ready (workers p) i _ W_lock Hi). simpl in *.
      specialize (Hready Hrn ltac:(by eapply list_elem_of_lookup_2)). lia.
  - fields. unfold u32; rewrite Z.mod_small; lia.
Qed.

(** The fields of the invariant after a worker moved to [w]. *)
Ltac worker_case w Hsc Hsr Hroom :=
  specialize (Hsc w); specialize (Hsr w); simpl in *;
  constructor; unfold admitted, ready in *; simpl; try done; try lia; try congruence;
  try (intros; exfalso; lia);
  try solve [revert Hroom; match goal with p : pool |- _ => destruct (acc p) end; try done; lia].

Lemma worker_step_ok env i p' : worker_step env i p p' → pool_ok max p'.
Proof.
  pose proof outstanding_range as Hr.
  destruct Hok as [Hc Ha Hroom Hrun Hp Hready Hsh Hacc Hclo Hcl Hw Hf].
  unfold admitted, ready in Hc, Ha, Hroom, Hready. intros Hs.
  assert (∀ w, workers p !! i = Some w → w ≠ W_done → phase (stop p) < 7)%nat as Hnd.
  { intros w Hi Hwd. destruct (Nat.lt_ge_cases (phase (stop p)) 7) as [|H7]; [done|].
    specialize (Hf H7). rewrite Forall_forall in Hf.
    destruct Hwd. apply Hf. by eapply list_elem_of_lookup_2. }
  destruct Hs as [Hi Hm Hrn|cl rest Hi Hm Hrn Hq|Hi Hm Hrn Hq|Hi|Hsp Hi|cl Hi|Hi];
    pose proof (λ f v, sum_list_insert f (workers p) i _ v Hi) as Hsum;
    pose proof (Hsum worker_counted) as Hsc; pose proof (Hsum worker_ready) as Hsr; clear Hsum;
    pose proof (λ w v, elem_of_insert_worker w v (workers p) i) as Hel;
    pose proof (Hnd _ Hi ltac:(done)) as Hnd'; clear Hnd.
  - worker_case W_done Hsc Hsr Hroom.
    + intros [|]%Hel; [done|by apply Hp].
    + intros Hst [|]%Hel; [done|]. by apply Hw.
  - rewrite Hq in *. pose proof (proj1 Hrun Hrn) as Hst.
    worker_case (W_serving cl) Hsc Hsr Hroom.
    + intros [|[? _]%Hp]%Hel; done.
    + intros _ [|Hx]%Hel; [done|]. specialize (Hready Hrn Hx). lia.
  - pose proof (proj1 Hrun Hrn) as Hst. worker_case W_parking Hsc Hsr Hroom.
    + rewrite Hq. intros _. split; [done|lia].
    + intros _ _. rewrite Hq. simpl. lia.
  - destruct (Hp ltac:(by eapply list_elem_of_lookup_2)) as [Hq Hst]. worker_case W_waiting Hsc Hsr Hroom.
    intros _ _. rewrite Hq. simpl. lia.
  - worker_case W_lock Hsc Hsr Hroom.
    + intros [|]%Hel; [done|by apply Hp].
    + intros Hrn [|Hx]%Hel; [done|]. specialize (Hready Hrn Hx). lia.
    + intros Hst [|]%Hel; [done|]. by apply Hw.
  - worker_case W_uncount Hsc Hsr Hroom.
    + intros [|]%Hel; [done|by apply Hp].
    + intros Hrn [|Hx]%Hel; [done|]. specialize (Hready Hrn Hx). lia.
    + intros Hst [|]%Hel; [done|]. by apply Hw.
  - worker_case W_lock Hsc Hsr Hroom.
    + unfold u32. rewrite Z.mod_small; lia.
    + intros [|]%Hel; [done|by apply Hp].
    + intros Hrn [|Hx]%Hel; [done|]. specialize (Hready Hrn Hx). lia.
    + intros Hst [|]%Hel; [done|]. by apply Hw.
Qed.

Lemma elem_of_wake w ws : w ∈ map wake ws → w ≠ W_waiting ∧ (w ∈ ws ∨ w = W_lock).
Proof.
  intros (v & -> & Hv)%list_elem_of_fmap. destruct v; simpl; naive_solver.
Qed.

Lemma sum_wake f ws : f W_lock = f W_waiting → sum_list_with f (map wake ws) = sum_list_with f ws.
Proof.
  intros Hf. induction ws as [|w ws IH]; [done|]. simpl. rewrite IH. destruct w; simpl; lia.
Qed.

Lemma stop_step_ok resets p' : stop_step resets p p' → pool_ok max p'.
Proof.
  pose proof outstanding_range as Hr.
  destruct Hok as [Hc Ha Hroom Hrun Hp Hready Hsh Hacc Hclo Hcl Hw Hf].
  unfold admitted, ready in Hc, Ha, Hroom, Hready.
  intros Hs. destruct Hs as [Hs Hrn|Hs|Hs Had|Hs|Hs Hm|Hs|Hs Hd]; rewrite Hs in *; simpl in *;
    repeat match goal with H : (?n ≤ ?m)%nat → _ |- _ =>
      lazymatch n with O => fail | _ => first [specialize (H ltac:(lia)) | clear H] end end;
    assert (running p = true ↔ phase (stop p) = 0%nat) as Hrun' by (by rewrite Hs).
  - fields. intros [? _]%Hp. split; [done|lia].
  - fields; [split; [intros ?%Hrun; lia|lia]|intros [? _]%Hp; split; [done|lia]|].
    intros _. by destruct (listener p).
  - fields; [split; [intros ?%Hrun; lia|lia]|intros [? _]%Hp; split; [done|lia]|done..].
  - fields; [split; [intros ?%Hrun; lia|lia]|intros [? _]%Hp; split; [done|lia]|done..].
  - rewrite Hacc in *. simpl in *.
    fields; rewrite ?Hacc; try done; [|split; [intros ?%Hrun; lia|lia]].
    unfold u32. rewrite Z.mod_small; simpl; lia.
  - fields; rewrite ?sum_wake by done; try assumption; try done;
      [split; [intros ?%Hrun; lia|lia]|..].
    + intros [_ [Hin|]]%elem_of_wake; [|done]. destruct (Hp Hin). lia.
    + intros Hrn. apply Hrun in Hrn. lia.
    + intros _ Hin. by apply elem_of_wake in Hin as [? _].
  - assert (sum_list_with worker_counted (workers p) = 0)%nat as Hz.
    { apply sum_list_zero. eapply Forall_impl; [exact Hd|]. by intros w ->. }
    assert (∀ w, w ∈ workers p → w = W_done) as Hall by by apply Forall_forall.
    assert (running p ≠ true) as Hnr by (intros Hrn; apply Hrun in Hrn; lia).
    rewrite Hcl, Hacc, Hz in *. simpl in *.
    destruct resets; constructor; unfold admitted, ready; simpl; rewrite ?Hcl, ?Hacc, ?Hz; simpl;
      try done; try lia; try (intros Hin; apply Hall in Hin; done).
    all: intros; try (by destruct Hnr); split; intros; [by destruct Hnr|lia].
Qed.

End Preservation.

Lemma pool_step_ok env max resets p p' :
  0 ≤ max < 2 ^ 32 - 1 → pool_ok max p → pool_step env max resets p p' → pool_ok max p'.
Proof.
  intros Hm Hok [Hs|i Hs|Hs];
    [by eapply acceptor_step_ok|by eapply worker_step_ok|by eapply stop_step_ok].
Qed.

(** Every state of a server; the accept thread is created after the listener
    was opened. *)
Definition reachable (max : Z) (resets : bool) (p : pool) : Prop :=
  ∃ l n accepting, (accepting = true → l = Listening) ∧
    rtc (if resets then tracker_server_step max else peer_server_step max) (started l n accepting) p.

Lemma reachable_ok max resets p : 0 ≤ max < 2 ^ 32 - 1 → reachable max resets p → pool_ok max p.
Proof.
  intros Hm (l & n & accepting & _ & H). pose proof (started_ok max l n accepting ltac:(lia)) as Hok.
  assert (rtc (pool_step true max resets) (started l n accepting) p) as H' by by destruct resets.
  clear H. induction H' as [|p1 p2 p3 H1 _ IH]; [done|]. apply IH. by eapply pool_step_ok.
Qed.

(** ** The end of [stop] *)

(** An upper bound of the steps left once [running_] is false. *)
Definition acc_weight (a : acceptor) : nat :=
  match a with
  | A_done => 0 | A_test => 1 | A_notify | A_uncount | A_reject => 2 | A_enqueue _ => 3
  | A_check _ _ => 4 | A_count _ => 5 | A_accept => 6
  end.
Definition worker_weight (w : worker) : nat :=
  match w with
  | W_done => 0 | W_lock => 1 | W_uncount | W_waiting => 2 | W_serving _ | W_parking => 3
  end.
Definition stop_budget (p : pool) : nat :=
  acc_weight (acc p) + sum_list_with worker_weight (workers p) + (7 - phase (stop p)).

Lemma stop_step_decreases env max resets p p' :
  running p = false → pool_step env max resets p p' →
  running p' = false ∧ (stop_budget p' < stop_budget p)%nat.
Proof.
  unfold stop_budget. intros Hr [Hs|i Hs|Hs].
  - destruct Hs as [Hat|cl He Hat|He Hat|cl Hat|cl cur Hat|Hat|cl Hat Hm|ws Hat Hn|Hat];
      rewrite ?Hr; simpl; rewrite Hat; simpl; (split; [done|]); try lia.
    + case_match; simpl; lia.
    + destruct Hn as [i Hi|]; [|lia].
      pose proof (sum_list_insert worker_weight (workers p) i _ W_lock Hi). simpl in *. lia.
  - destruct Hs as [Hi Hm Hrn|cl rest Hi Hm Hrn Hq|Hi Hm Hrn Hq|Hi|Hsp Hi|cl Hi|Hi]; try congruence;
      simpl; (split; [done|]);
      pose proof (λ v, sum_list_insert worker_weight (workers p) i _ v Hi) as Hsum.
    + specialize (Hsum W_done). simpl in *. lia.
    + specialize (Hsum W_waiting). simpl in *. lia.
    + specialize (Hsum W_lock). simpl in *. lia.
    + specialize (Hsum W_uncount). simpl in *. lia.
    + specialize (Hsum W_lock). simpl in *. lia.
  - destruct Hs as [Hs Hrn|Hs|Hs Had|Hs|Hs Hm|Hs|Hs Hd]; [congruence|..]; try destruct resets;
      simpl; rewrite Hs; simpl; (split; [done|]); try lia;
      pose proof (sum_list_le worker_weight worker_weight wake (workers p)
                    ltac:(by intros []; simpl; lia)); lia.
Qed.

(** Some thread can always go on, without the environment. *)
Lemma parked_step max resets p :
  W_parking ∈ workers p → ∃ p', pool_step false max resets p p'.
Proof. intros [i Hi]%list_elem_of_lookup. eexists. eapply (pool_worker _ _ _ _ _ i), work_wait, Hi. Qed.

(** The accept thread goes on once its listener is shut down or closed. *)
Lemma acceptor_progress max resets p :
  acc p ≠ A_done → listener p ≠ Listening → ∃ p', pool_step false max resets p p'.
Proof.
  intros Hd Hl. destruct (decide (W_parking ∈ workers p)) as [|Hm]; [by apply parked_step|].
  destruct (acc p) eqn:Ha; try done.
  1: eexists; by eapply pool_acceptor, acc_test.
  1: eexists; eapply pool_acceptor, acc_accept_error; by auto.
  1: eexists; by eapply pool_acceptor, acc_count.
  1: eexists; by eapply pool_acceptor, acc_check.
  1: eexists; by eapply pool_acceptor, acc_reject.
  1: eexists; by eapply pool_acceptor, acc_enqueue.
  - destruct (decide (W_waiting ∈ workers p)) as [[i Hi]%list_elem_of_lookup|Hn]; eexists.
    + eapply pool_acceptor, acc_notify; [done|]. by eapply notified_one.
    + eapply pool_acceptor, acc_notify; [done|]. by eapply notified_none.
  - eexists; by eapply pool_acceptor, acc_uncount.
Qed.

(** So do the workers once they were woken. *)
Lemma worker_progress max resets p w :
  W_parking ∉ workers p → W_waiting ∉ workers p → running p = false →
  w ∈ workers p → w ≠ W_done → ∃ p', pool_step false max resets p p'.
Proof.
  intros Hm Hw Hr Hin Hne. apply list_elem_of_lookup in Hin as Hi. destruct Hi as [i Hi].
  destruct w; try done; eexists.
  - eapply (pool_worker _ _ _ _ _ i), work_exit; done.
  - eapply (pool_worker _ _ _ _ _ i), work_serve; done.
  - eapply (pool_worker _ _ _ _ _ i), work_uncount; done.
Qed.

Lemma stop_progress max resets p :
  pool_ok max p → running p = false → stop p ≠ S_done → ∃ p', pool_step false max resets p p'.
Proof.
  intros [_ _ _ Hrun Hp _ Hsh _ _ _ Hw _] Hr Hd.
  destruct (stop p) eqn:Hs; simpl in *; [by rewrite (proj2 Hrun eq_refl) in Hr|..]; [| | | | | |done].
  - eexists. by eapply pool_stop, stop_shutdown.
  - destruct (decide (acc p = A_done)) as [Ha|Ha]; [|apply acceptor_progress; [done|apply Hsh; lia]].
    eexists. by eapply pool_stop, stop_joined.
  - eexists. by eapply pool_stop, stop_close.
  - destruct (decide (W_parking ∈ workers p)) as [|Hm]; [by apply parked_step|].
    eexists. by eapply pool_stop, stop_clear.
  - eexists. by eapply pool_stop, stop_notify.
  - destruct (decide (Forall (λ w, w = W_done) (workers p))) as [Hall|Hall].
    { eexists. by eapply pool_stop, stop_finish. }
    apply not_Forall_Exists in Hall; [|apply _]. apply Exists_exists in Hall as (w & Hin & Hne).
    apply (worker_progress max resets p w); try done; [|by apply Hw; lia].
    intros Hpk. destruct (Hp Hpk). lia.
Qed.

(** ** Properties *)

(** C16: connections are bounded: in every reachable state the connections that
    are queued or with a worker are at most the configured limit, and the
    counter is exactly these and the one the accept thread is deciding about,
    so it is at most one more than the limit and, for a limit below 2^32 - 1,
    never wraps around. *)
Theorem connections_bounded max resets p :
  0 ≤ max < 2 ^ 32 - 1 → reachable max resets p →
  Z.of_nat (admitted p) ≤ max ∧ outstanding p = Z.of_nat (admitted p + acc_counted (acc p)) ∧
  0 ≤ outstanding p ≤ max + 1.
Proof.
  intros Hm Hr. apply reachable_ok in Hr as Hok; [|done].
  pose proof (outstanding_range max p Hok). by destruct Hok.
Qed.

(** C17: no connection is stranded: while the server runs and a worker sleeps,
    every queued connection has a worker of its own that is about to look at
    the queue, or a notification about to be sent, in every interleaving and
    without help from spurious wakeups. *)
Theorem no_lost_wakeup max resets p :
  0 ≤ max < 2 ^ 32 - 1 → reachable max resets p →
  running p = true → W_waiting ∈ workers p → (length (queue p) ≤ ready p)%nat.
Proof. intros Hm Hr. apply reachable_ok in Hr as Hok; [|done]. apply Hok. Qed.

(** C15: [stop] always ends, also on a listener that no client ever reaches:
    once it cleared the flag every execution makes a bounded number of steps,
    whatever the environment does, and until [stop] returns some thread can
    always go on without the environment, that is with no client arriving, no
    call to accept failing but on a listener that was shut down, and no
    spurious wakeup; when [stop] returned the accept thread and all workers
    have ended, the listener is closed, the queue is empty and the counter is
    zero, so the server can be started again. *)
Theorem stop_completes max resets p :
  0 ≤ max < 2 ^ 32 - 1 → reachable max resets p → running p = false →
  (∀ k p', nsteps (pool_step true max resets) k p p' → (k ≤ stop_budget p)%nat) ∧
  (stop p ≠ S_done → ∃ p', pool_step false max resets p p') ∧
  (stop p = S_done → acc p = A_done ∧ Forall (λ w, w = W_done) (workers p) ∧
                     listener p = Closed ∧ queue p = [] ∧ outstanding p = 0).
Proof.
  intros Hm Hr Hrun. apply reachable_ok in Hr as Hok; [|done]. split_and!.
  - intros k p' H. clear Hr Hok. revert Hrun.
    induction H as [p|k p p1 p2 H1 _ IH]; intros Hrun; [lia|].
    apply stop_step_decreases in H1 as [Hrun1 H1]; [|done]. specialize (IH Hrun1). lia.
  - by apply stop_progress.
  - intros Hd. destruct Hok as [Hc _ _ _ _ _ _ Ha Hl Hq _ Hf].
    rewrite Hd in *. simpl in *. specialize (Ha ltac:(lia)). specialize (Hf ltac:(lia)).
    specialize (Hq ltac:(lia)). specialize (Hl ltac:(lia)). split_and!; try done.
    rewrite Hc, Ha. unfold admitted. rewrite Hq, sum_list_zero; [done|].
    eapply Forall_impl; [exact Hf|]. by intros w ->.
Qed.

(** A server with two workers: one sleeps, a connection arrives. *)
Lemma example_run :
  ∃ p, reachable 1 true p ∧ running p = true ∧ queue p = [7%nat] ∧
       workers p = [W_waiting; W_waiting] ∧ acc p = A_notify.
Proof.
  eexists. split.
  - exists Listening, 2%nat, true. split; [done|].
    eapply rtc_l; [eapply (pool_worker _ _ _ _ _ 0%nat), work_park;
      [reflexivity|intros H; vm_compute in H; set_solver|reflexivity|reflexivity]|].
    eapply rtc_l; [eapply (pool_worker _ _ _ _ _ 0%nat), work_wait; reflexivity|].
    eapply rtc_l; [eapply (pool_worker _ _ _ _ _ 1%nat), work_park;
      [reflexivity|intros H; vm_compute in H; set_solver|reflexivity|reflexivity]|].
    eapply rtc_l; [eapply (pool_worker _ _ _ _ _ 1%nat), work_wait; reflexivity|].
    eapply rtc_l; [eapply pool_acceptor, acc_test; reflexivity|].
    eapply rtc_l; [eapply pool_acceptor, (acc_accept _ _ _ 7%nat); reflexivity|].
    eapply rtc_l; [eapply pool_acceptor, acc_count; reflexivity|].
    eapply rtc_l; [eapply pool_acceptor, acc_check; reflexivity|].
    eapply rtc_l; [eapply pool_acceptor, acc_enqueue;
      [reflexivity|intros H; vm_compute in H; set_solver]|]. apply rtc_refl.
  - repeat split.
Qed.

Lemma connections_bounded_witness : ∃ p, queue p = [7%nat] ∧ Z.of_nat (admitted p) ≤ 1 ∧ 0 ≤ outstanding p ≤ 2.
Proof.
  destruct example_run as (p & Hr & _ & Hq & _). exists p. split; [exact Hq|].
  destruct (connections_bounded 1 true p) as (H1 & _ & H2); [lia|exact Hr|]. split; [exact H1|exact H2].
Defined.

Lemma no_lost_wakeup_witness : ∃ p, queue p = [7%nat] ∧ (length (queue p) ≤ ready p)%nat.
Proof.
  destruct example_run as (p & Hr & Hrun & Hq & Hw & _). exists p. split; [exact Hq|].
  apply (no_lost_wakeup 1 true p); [lia|exact Hr|exact Hrun|]. rewrite Hw. left.
Defined.

(** A server whose accept thread is blocked on an idle listener when [stop]
    has shut it down. *)
Definition example_stopping : pool :=
  {| running := false; listener := Shut; outstanding := 0; queue := []; acc := A_accept;
     workers := []; stop := S_join_acceptor |}.

Lemma stop_completes_witness :
  reachable 1 true example_stopping ∧ ∃ p', pool_step false 1 true example_stopping p'.
Proof.
  assert (reachable 1 true example_stopping) as Hr.
  { exists Listening, 0%nat, true. split; [reflexivity|].
    eapply rtc_l; [eapply pool_acceptor, acc_test; reflexivity|].
    eapply rtc_l; [eapply pool_stop, stop_begin; reflexivity|].
    eapply rtc_l; [eapply pool_stop, stop_shutdown; reflexivity|]. apply rtc_refl. }
  split; [exact Hr|].
  destruct (stop_completes 1 true example_stopping) as (_ & H & _); [lia|exact Hr|reflexivity|].
  apply H. discriminate.
Defined.
