(* ===== verification/Heartbeat.v ===== *)
(** * Heartbeat: the heartbeat thread of [DownloadCoordinator::run]

    src/src/download.cpp: the heartbeat thread and [stop_heartbeat].  The
    thread waits on a condition variable with a deadline; [stop_heartbeat]
    clears the flag and notifies without taking the mutex the thread holds when
    it tests its predicate.  Time is a clock that ticks; an announcement is one
    step that ends. *)

From S2P Require Export Prelude.

#[local] Open Scope Z_scope.

(** ** Definitions *)

(** Where the heartbeat thread is; [deadline] is that of its [wait_for]. *)
Inductive heart :=
| H_test                    (* [while (heartbeat_running.load())] *)
| H_enter                   (* entering [wait_for], mutex held *)
| H_block (deadline : Z)    (* predicate false, mutex held, before blocking *)
| H_wait (deadline : Z)     (* blocked *)
| H_woken (deadline : Z)    (* notified, before testing the predicate *)
| H_announce                (* [announce_current()], mutex released *)
| H_done.

(** Where the thread that runs the download is. *)
Inductive main :=
| M_work
| M_notify                  (* after [heartbeat_running.store(false)] *)
| M_join                    (* after [notify_all] *)
| M_joined.

Record beat := { alive : bool; clock : Z; heart_at : heart; main_at : main }.

Definition move (s : beat) (h : heart) : beat :=
  {| alive := alive s; clock := clock s; heart_at := h; main_at := main_at s |}.

(** One step, with the interval of [wait_for]; a blocked thread may wake
    without a notification when [spurious] is true. *)
Inductive beat_step (spurious : bool) (interval : Z) (s : beat) : beat → Prop :=
| beat_test : heart_at s = H_test →
    beat_step spurious interval s (move s (if alive s then H_enter else H_done))
| beat_enter : heart_at s = H_enter →
    beat_step spurious interval s (move s (if alive s then H_block (clock s + interval) else H_done))
| beat_block d : heart_at s = H_block d → beat_step spurious interval s (move s (H_wait d))
| beat_timeout d : heart_at s = H_wait d → d ≤ clock s →
    beat_step spurious interval s (move s (if alive s then H_announce else H_done))
| beat_spurious d : spurious = true → heart_at s = H_wait d →
    beat_step spurious interval s (move s (H_woken d))
| beat_woken d : heart_at s = H_woken d →
    beat_step spurious interval s (move s (if alive s then H_block d else H_done))
| beat_announce : heart_at s = H_announce → beat_step spurious interval s (move s H_test)
| beat_store : main_at s = M_work →
    beat_step spurious interval s
      {| alive := false; clock := clock s; heart_at := heart_at s; main_at := M_notify |}
| beat_notify : main_at s = M_notify →
    beat_step spurious interval s
      {| alive := alive s; clock := clock s; main_at := M_join;
         heart_at := match heart_at s with H_wait d => H_woken d | h => h end |}
| beat_join : main_at s = M_join → heart_at s = H_done →
    beat_step spurious interval s
      {| alive := alive s; clock := clock s; heart_at := H_done; main_at := M_joined |}
| beat_tick :
    beat_step spurious interval s
      {| alive := alive s; clock := clock s + 1; heart_at := heart_at s; main_at := main_at s |}.

(** The thread was just started. *)
Definition beat_start : beat := {| alive := true; clock := 0; heart_at := H_test; main_at := M_work |}.

(** A deadline is at most one interval away, and the flag is cleared once the
    main thread stops. *)
Definition beat_ok (interval : Z) (s : beat) : Prop :=
  (alive s = true ↔ main_at s = M_work) ∧
  match heart_at s with H_block d | H_wait d | H_woken d => d ≤ clock s + interval | _ => True end.

Lemma beat_step_ok sp interval s s' :
  0 ≤ interval → beat_ok interval s → beat_step sp interval s s' → beat_ok interval s'.
Proof.
  intros Hi [Ha Hd] Hs.
  destruct Hs as [Hh|Hh|d Hh|d Hh Hc|d Hsp Hh|d Hh|Hh|Hm|Hm|Hm Hh|]; unfold beat_ok in *;
    rewrite ?Hh in Hd; simpl; try (split; [done|]); try (destruct (alive s); simpl; done || lia);
    try done.
  - split; [|by destruct (heart_at s)]. rewrite Ha, Hm. split; discriminate.
  - split; [|done]. rewrite Ha, Hm. split; discriminate.
  - destruct (heart_at s); done || lia.
Qed.

(** While the heart is blocked before its deadline and no notification is to
    come, nothing but the clock moves. *)
Lemma blocked_until interval s s' d :
  alive s = false → main_at s = M_join → heart_at s = H_wait d →
  rtc (beat_step false interval) s s' →
  (main_at s' = M_join ∧ heart_at s' = H_wait d ∧ alive s' = false) ∨ d ≤ clock s'.
Proof.
  intros Ha Hm Hh H.
  assert (∀ t t', beat_step false interval t t' → clock t ≤ clock t') as Hmono.
  { intros t t' []; simpl; lia. }
  revert Ha Hm Hh. induction H as [s|s s1 s2 Hs H IH]; intros Ha Hm Hh; [by left|].
  assert (rtc (beat_step false interval) s1 s2 → clock s1 ≤ clock s2) as Hcl.
  { clear -Hmono. induction 1 as [|? ? ? H1 _ IH]; [lia|]. specialize (Hmono _ _ H1). lia. }
  specialize (Hcl H).
  destruct Hs as [Hh'|Hh'|d' Hh'|d' Hh' Hc|d' Hsp Hh'|d' Hh'|Hh'|Hm'|Hm'|Hm' Hh'|]; try congruence.
  - right. simpl in Hcl. assert (d' = d) by congruence. lia.
  - by apply IH.
Qed.

(** ** Properties *)

(** C27: [stop_heartbeat] can lose its wakeup: it clears the flag and notifies
    without the mutex, so the heartbeat thread may have tested its predicate
    already and not yet be blocked; then the join blocks the download for a
    whole heartbeat interval, whatever it is. *)
Theorem heartbeat_lost_wakeup interval :
  0 < interval →
  ∃ s, rtc (beat_step false interval) beat_start s ∧ main_at s = M_join ∧
    ∀ s', rtc (beat_step false interval) s s' → main_at s' = M_joined → clock s + interval ≤ clock s'.
Proof.
  intros Hi. eexists. split; [|split].
  - eapply rtc_l; [apply beat_test; reflexivity|]. eapply rtc_l; [apply beat_enter; reflexivity|].
    eapply rtc_l; [apply beat_store; reflexivity|]. eapply rtc_l; [apply beat_notify; reflexivity|].
    eapply rtc_l; [eapply beat_block; reflexivity|]. apply rtc_refl.
  - done.
  - simpl. intros s' H Hj.
    apply (blocked_until interval _ s' (0 + interval)) in H as [(Hm & _)|Hc];
      [congruence|lia|reflexivity..].
Qed.

(** C28: that is the worst case: once the flag is cleared, as long as the join
    has not returned some thread can take a step other than the clock, or the
    heartbeat thread is blocked with a deadline at most one interval away. *)
Theorem heartbeat_stop_bounded interval s :
  0 ≤ interval → rtc (beat_step true interval) beat_start s → alive s = false →
  main_at s = M_joined ∨
  (∃ s', beat_step false interval s s' ∧ clock s' = clock s ∧ s' ≠ s) ∨
  (∃ d, heart_at s = H_wait d ∧ clock s < d ≤ clock s + interval).
Proof.
  intros Hi H Ha.
  assert (beat_ok interval s) as [Hal Hd].
  { assert (beat_ok interval beat_start) as H0 by done. revert H0. clear Ha.
    induction H as [|s1 s2 s3 H1 _ IH]; [done|]. intros H0. apply IH. by eapply beat_step_ok. }
  assert (∀ h, heart_at s ≠ h → move s h ≠ s) as Hne.
  { intros h Hh Heq. apply Hh. by rewrite <-Heq. }
  destruct (main_at s) eqn:Hm; [by rewrite (proj2 Hal eq_refl) in Ha| | |by left]; right.
  - left. eexists. split; [by apply beat_notify|]. split; [done|].
    intros Heq. apply (f_equal main_at) in Heq. simpl in Heq. congruence.
  - destruct (heart_at s) eqn:Hh.
    + left. eexists. split; [by apply beat_test|]. rewrite Ha. split; [done|by apply Hne].
    + left. eexists. split; [by apply beat_enter|]. rewrite Ha. split; [done|by apply Hne].
    + left. eexists. split; [by eapply beat_block|]. split; [done|by apply Hne].
    + destruct (Z.le_gt_cases deadline (clock s)).
      * left. eexists. split; [by eapply beat_timeout|]. rewrite Ha. split; [done|by apply Hne].
      * right. exists deadline. split; [done|lia].
    + left. eexists. split; [by eapply beat_woken|]. rewrite Ha. split; [done|by apply Hne].
    + left. eexists. split; [by apply beat_announce|]. split; [done|by apply Hne].
    + left. eexists. split; [by apply beat_join|]. split; [done|].
      intros Heq. apply (f_equal main_at) in Heq. simpl in Heq. congruence.
Qed.

Lemma heartbeat_lost_wakeup_witness :
  ∃ s, rtc (beat_step false 1000) beat_start s ∧ main_at s = M_join ∧
    ∀ s', rtc (beat_step false 1000) s s' → main_at s' = M_joined → clock s + 1000 ≤ clock s'.
Proof. apply (heartbeat_lost_wakeup 1000). lia. Defined.

Lemma heartbeat_stop_bounded_witness :
  ∃ s, main_at s = M_join ∧
    (main_at s = M_joined ∨ (∃ s', beat_step false 1000 s s' ∧ clock s' = clock s ∧ s' ≠ s) ∨
     (∃ d, heart_at s = H_wait d ∧ clock s < d ≤ clock s + 1000)).
Proof.
  eexists. split; [|apply (heartbeat_stop_bounded 1000); [lia| |]].
  2:{ eapply rtc_l; [apply beat_store; reflexivity|].
      eapply rtc_l; [apply beat_notify; reflexivity|]. apply rtc_refl. }
  - reflexivity.
  - reflexivity.
Defined.
