(* ===== verification/Download.v ===== *)
(** * Download: fetching a chunk, [src/src/download.cpp]

    The network half of the downloader: the configuration check, the search of
    a peer's chunk list, the request for one chunk and the retry loop over the
    tracker's peers.  The file half is in Persist, the workers in Workers, the
    whole run in Run. *)

From S2P Require Export Prelude.
From S2P Require Import Hoare Text Iostream Crypto Protocol Posix Stream Net Manifest Tracker PeerServer.

#[local] Open Scope Z_scope.

(** ** Definitions *)

Record DownloadConfig := {
  dc_manifest : Manifest;
  dc_output_directory : bytes;
  dc_tracker_endpoint : Endpoint;
  dc_token : bytes;
  dc_listen_port : Z;
  dc_peer_id : bytes;
  dc_worker_count : Z;
  dc_max_retries : Z;
  dc_network_timeout : Z;
  dc_heartbeat_interval : Z;
  dc_bind_address : bytes;
  dc_peer_max_connections : Z
}.

Definition validate_config (config : DownloadConfig) : res unit :=
  let! _ := validate (dc_manifest config) in
  if bool_decide (dc_output_directory config = []) ||
     bool_decide (host (dc_tracker_endpoint config) = []) || (port (dc_tracker_endpoint config) =? 0) ||
     bool_decide (dc_token config = []) || bool_decide (dc_peer_id config = []) ||
     (dc_worker_count config =? 0) || (dc_max_retries config =? 0) ||
     (dc_network_timeout config <=? 0) || (dc_heartbeat_interval config <=? 0) ||
     bool_decide (dc_bind_address config = []) || (dc_peer_max_connections config =? 0)
  then throw "Download configuration contains an invalid required value"
  else Ok tt.

(** [std::lower_bound] on a random-access range: [first] and [count] are those
    of the standard algorithm; the result is the index of the first element
    not less than [value]. *)
Fixpoint lower_bound (fuel : nat) (l : list Z) (value : Z) (first count : nat) : nat :=
  match fuel with
  | O => first
  | S fuel' =>
      match count with
      | O => first
      | S _ =>
          let step := (count / 2)%nat in
          let it := (first + step)%nat in
          if nth it l 0 <? value
          then lower_bound fuel' l value (S it) (count - (step + 1))%nat
          else lower_bound fuel' l value first step
      end
  end.

(** [std::binary_search]: the first element not less is there and not
    greater. *)
Definition binary_search (l : list Z) (value : Z) : bool :=
  let first := lower_bound (S (length l)) l value 0 (length l) in
  match nth_error l first with Some x => negb (value <? x) | None => false end.

Definition peer_has_chunk (peer : DiscoveredPeer) (index : Z) : bool :=
  dp_has_all_chunks peer || binary_search (dp_chunks peer) index.

Section Fetching.
Context `{Evp}.

Definition get_line (token id : bytes) (index : Z) : bytes :=
  str "GET " ++ token ++ str " " ++ id ++ str " " ++ to_string index ++ [LF].

Definition fetch_chunk (peer : DiscoveredPeer) (m : Manifest) (token : bytes) (index : Z) : io net bytes :=
  with_connection (dp_endpoint peer)
    (do id <- lift (swarm_id m);
     do _ <- write_all (get_line token id index);
     do response <- Stream.read_line kMaxHeaderBytes;
     if starts_with (str "ERROR ") response then raise_error "Peer declined requested chunk"
     else
       do header <- lift (parse_data_header response);
       do size <- lift (chunk_size m index);
       if negb (dh_byte_count header =? size) || negb (beq (dh_sha256 header) (chunk_hash m index))
       then raise_error "Peer returned chunk metadata that disagrees with the manifest"
       else
         do data <- read_exact (dh_byte_count header);
         do digest <- lift (sha256_hex data);
         if negb (beq digest (chunk_hash m index))
         then raise_error "Peer returned bytes that failed chunk integrity verification"
         else ret data).

(** The inner loop of [fetch_with_retry]: the chunk, or the last failure. *)
Fixpoint try_peers (config : DownloadConfig) (index : Z) (peers : list DiscoveredPeer)
    (last_failure : bytes) : io net (bytes + bytes) :=
  match peers with
  | [] => ret (inr last_failure)
  | peer :: peers' =>
      do outcome <- catch_error
        (do data <- fetch_chunk peer (dc_manifest config) (dc_token config) index; ret (inl data))
        (λ what, ret (inr what));
      match outcome with
      | inl data => ret (inl data)
      | inr what => try_peers config index peers' what
      end
  end.

(** One round: the tracker's peers that are not this one and have the chunk. *)
Definition candidates (config : DownloadConfig) (index : Z) (peers : list DiscoveredPeer)
    : list DiscoveredPeer :=
  List.filter (λ peer, negb (bool_decide (dp_peer_id peer = dc_peer_id config) ||
                             negb (peer_has_chunk peer index))) peers.

Definition fetch_round (tracker : TrackerClient) (config : DownloadConfig) (id : bytes) (index : Z)
    (last_failure : bytes) : io net (bytes + bytes) :=
  catch_error
    (do found <- client_peers tracker id;
     try_peers config index (candidates config index found) last_failure)
    (λ what, ret (inr what)).

(** Operations on the network next to the counter [retry_events]. *)
Definition on_net {A} (m : io net A) : io (net * Z) A := λ '(n, events),
  let '(r, n') := m n in (r, (n', events)).
Definition count_retry : io (net * Z) unit := λ '(n, events), (Ok tt, (n, u64 (events + 1))).

(** The loop over the rounds; [rounds] are left, [round] is the present one. *)
Fixpoint retry_loop (rounds : nat) (tracker : TrackerClient) (config : DownloadConfig) (id : bytes)
    (index round : Z) (last_failure : bytes) : io (net * Z) bytes :=
  match rounds with
  | O => raise (Error (str "Unable to fetch chunk " ++ to_string index ++ str ": " ++ last_failure))
  | S rounds' =>
      do outcome <- on_net (fetch_round tracker config id index last_failure);
      match outcome with
      | inl data => ret data
      | inr what =>
          do _ <- (if u32 (round + 1) <? dc_max_retries config then count_retry else ret tt);
          retry_loop rounds' tracker config id index (round + 1) what
      end
  end.

Definition fetch_with_retry (tracker : TrackerClient) (config : DownloadConfig) (id : bytes)
    (index : Z) : io (net * Z) bytes :=
  retry_loop (Z.to_nat (dc_max_retries config)) tracker config id index 0
    (str "no active peer advertised this chunk").

End Fetching.

(** ** The search of a chunk list *)

Lemma increasing_nth l i j :
  increasing l = true → (i < j < length l)%nat → nth i l 0 < nth j l 0.
Proof.
  revert i j. induction l as [|x l IH]; intros i j Hl Hij; simpl in Hij; [lia|].
  apply increasing_cons in Hl as [Hx Hl]. destruct i as [|i], j as [|j]; try lia; simpl.
  - rewrite Forall_forall in Hx. apply Hx. apply list_elem_of_In, nth_In. lia.
  - apply IH; [done|lia].
Qed.

(** The algorithm keeps: everything before [first] is less than the value,
    everything from [first + count] on is not. *)
Lemma lower_bound_spec fuel l value first count :
  increasing l = true → (count < fuel)%nat → (first + count ≤ length l)%nat →
  (∀ i, (i < first)%nat → nth i l 0 < value) →
  (∀ i, (first + count ≤ i < length l)%nat → value ≤ nth i l 0) →
  let r := lower_bound fuel l value first count in
  (r ≤ length l)%nat ∧ (∀ i, (i < r)%nat → nth i l 0 < value) ∧
  (∀ i, (r ≤ i < length l)%nat → value ≤ nth i l 0).
Proof.
  intros Hl. revert first count. induction fuel as [|fuel IH]; intros first count Hf Hc Hlo Hhi; [lia|].
  cbn [lower_bound]. destruct count as [|count].
  { rewrite Nat.add_0_r in *. by split_and!. }
  set (step := (S count / 2)%nat). assert (step < S count)%nat by (apply Nat.div_lt; lia).
  destruct (Z.ltb_spec (nth (first + step) l 0) value) as [Hlt|Hge]; apply IH; try lia.
  - intros i Hi. destruct (Nat.eq_dec i (first + step)%nat) as [->|]; [done|].
    pose proof (increasing_nth l i (first + step)%nat Hl). lia.
  - intros i Hi. apply Hhi. lia.
  - done.
  - intros i Hi. destruct (Nat.eq_dec i (first + step)%nat) as [->|]; [done|].
    pose proof (increasing_nth l (first + step)%nat i Hl). lia.
Qed.

Lemma binary_search_spec l value :
  increasing l = true → binary_search l value = bool_decide (value ∈ l).
Proof.
  intros Hl. unfold binary_search.
  destruct (lower_bound_spec (S (length l)) l value 0 (length l) Hl) as (Hr & Hlo & Hhi);
    [lia|lia|lia|lia|]. set (r := lower_bound _ _ _ _ _) in *.
  assert (value ∈ l ↔ ∃ i, (i < length l)%nat ∧ nth i l 0 = value) as Hin.
  { rewrite list_elem_of_In. split; [apply In_nth|]. intros (i & Hi & <-). by apply nth_In. }
  destruct (nth_error l r) as [x|] eqn:E.
  - apply nth_error_nth with (d := 0) in E as Hx. assert (r < length l)%nat as Hlt.
    { apply nth_error_Some. by rewrite E. }
    destruct (Z.ltb_spec value x) as [Hv|Hv]; simpl; symmetry.
    + apply bool_decide_eq_false_2. rewrite Hin. intros (i & Hi & Hn).
      destruct (Nat.lt_ge_cases i r) as [Hc|Hc]; [specialize (Hlo i Hc); lia|].
      destruct (Nat.eq_dec i r) as [->|]; [lia|].
      pose proof (increasing_nth l r i Hl). lia.
    + apply bool_decide_eq_true_2. rewrite Hin. exists r. split; [done|].
      specialize (Hhi r ltac:(lia)). lia.
  - symmetry. apply bool_decide_eq_false_2. rewrite Hin. intros (i & Hi & Hn).
    apply nth_error_None in E. specialize (Hlo i ltac:(lia)). lia.
Qed.

(** ** Fetching *)

(** The bytes are those of the chunk, as far as the manifest can tell. *)
Definition verified `{Evp} (m : Manifest) (index : Z) (data : bytes) : Prop :=
  chunk_size m index = Ok (len data) ∧ sha256_hex data = Ok (chunk_hash m index).

Definition net_ok (n : net) : Prop := Forall dial_ok (dials n).

(** A use of a connection that throws only [Error]s. *)
Definition conn_safe {A} (m : io conn A) (Q : A → Prop) : Prop :=
  triple (λ _, True) m (λ a _, Q a) (λ e _, is_error e).

Lemma conn_safe_bind {A B} (m : io conn A) (k : A → io conn B) R Q :
  conn_safe m R → (∀ a, R a → conn_safe (k a) Q) → conn_safe (bind m k) Q.
Proof.
  intros Hm Hk c _. specialize (Hm c I). unfold bind. destruct (m c) as [[a|e] c']; [|done].
  by apply (Hk a Hm c').
Qed.

Lemma conn_safe_lift {A} (m : res A) (Q : A → Prop) :
  errors_only m → (∀ a, m = Ok a → Q a) → conn_safe (lift m) Q.
Proof.
  intros He HQ c _. unfold lift. destruct m as [a|e]; [by apply HQ|].
  by eapply errors_only_is_error.
Qed.

Lemma conn_safe_raise {A} w (Q : A → Prop) : conn_safe (raise_error w) Q.
Proof. intros c _. simpl. by eexists. Qed.

Lemma read_line_safe max : 0 ≤ max → conn_safe (Stream.read_line max) (λ _, True).
Proof.
  intros Hm c _. destruct (Stream.read_line max c) as [r c'] eqn:E.
  apply read_line_outcome in E as (He & _); [|done]. destruct r; [done|by eapply errors_only_is_error].
Qed.

Lemma read_exact_safe n : 0 ≤ n → conn_safe (read_exact n) (λ s, len s = n).
Proof.
  intros Hn c _. destruct (read_exact n c) as [r c'] eqn:E.
  apply read_exact_outcome in E as (He & _ & Hs); [|done].
  destruct r; [by apply Hs|by eapply errors_only_is_error].
Qed.

Lemma write_all_safe data : conn_safe (write_all data) (λ _, True).
Proof.
  intros c _. destruct (write_all data c) as [r c'] eqn:E.
  apply write_all_spec in E as (_ & _ & [[-> _]|(w & ? & ? & -> & _)]); [done|by eexists].
Qed.

Lemma with_connection_safe {A} ep (m : io conn A) Q :
  conn_safe m Q →
  triple net_ok (with_connection ep m) (λ a n, Q a ∧ net_ok n) (λ e n, is_error e ∧ net_ok n).
Proof.
  intros Hm n Hn. unfold with_connection, net_ok in *.
  destruct (dials n) as [|[c|e] ds] eqn:E; [|apply Forall_cons in Hn as [Hd Hn]..].
  - split; [by eexists|]. by rewrite E.
  - specialize (Hm c I). by destruct (m c) as [[a|e] c'].
  - split; [|done]. destruct e; try done. by eexists.
Qed.

Section FetchingLemmas.
Context `{HE : Evp}.

Lemma fetch_chunk_safe peer m token index :
  triple net_ok (fetch_chunk peer m token index)
    (λ data n, verified m index data ∧ net_ok n) (λ e n, is_error e ∧ net_ok n).
Proof.
  apply with_connection_safe.
  eapply (conn_safe_bind _ _ (λ _, True)); [by apply conn_safe_lift; [apply swarm_id_errors|]|].
  intros id _. eapply conn_safe_bind; [apply write_all_safe|]. intros _ _.
  eapply conn_safe_bind; [by apply read_line_safe|]. intros response _.
  destruct (starts_with _ response); [apply conn_safe_raise|].
  eapply (conn_safe_bind _ _ (λ d, 0 ≤ dh_byte_count d)).
  { apply conn_safe_lift; [apply parse_data_header_errors|].
    intros d Hd. apply parse_data_header_sound in Hd. lia. }
  intros header Hh.
  eapply (conn_safe_bind _ _ (λ size, chunk_size m index = Ok size));
    [by apply conn_safe_lift; [apply chunk_size_errors|]|].
  intros size Hsize. destruct (negb _ || negb _) eqn:Ht; [apply conn_safe_raise|]. reflect.
  eapply conn_safe_bind; [by apply read_exact_safe|]. intros data Hdata. cbn beta in Hdata.
  eapply (conn_safe_bind _ _ (λ d, sha256_hex data = Ok d));
    [by apply conn_safe_lift; [apply sha256_hex_errors|]|].
  intros digest Hdigest. destruct (negb (beq digest _)) eqn:Hb; [apply conn_safe_raise|].
  apply negb_false_iff, beq_spec in Hb. subst digest.
  intros c _. split; [|done]. rewrite Hsize. congruence.
Qed.

Lemma client_announce_safe tracker ad :
  triple net_ok (client_announce tracker ad) (λ _, net_ok) (λ e n, is_error e ∧ net_ok n).
Proof.
  unfold client_announce. eapply triple_bind.
  { apply (triple_lift_errors _ (λ _, True) net_ok); [apply encode_chunk_list_errors|done]. }
  intros chunks. apply triple_pure. intros _. eapply triple_bind.
  { apply (triple_lift_errors _ (λ _, True) net_ok); [apply parse_tracker_request_errors|done]. }
  intros u. apply triple_pure. intros _.
  eapply triple_conseq; [apply (with_connection_safe _ _ (λ _, True))|done|by intros ? n [_ ?]|done].
  eapply conn_safe_bind; [apply write_all_safe|]. intros _ _.
  eapply conn_safe_bind; [by apply read_line_safe|]. intros response _.
  destruct (negb _); [intros c _; by eexists|by intros c _].
Qed.

Lemma client_peers_safe tracker id :
  triple net_ok (client_peers tracker id) (λ _, net_ok) (λ e n, is_error e ∧ net_ok n).
Proof.
  unfold client_peers. eapply triple_bind.
  - apply (triple_lift_errors _ (λ _, True) net_ok); [apply parse_tracker_request_errors|done].
  - intros u. eapply (triple_conseq _ net_ok _ _ (λ _ n, True ∧ net_ok n));
      [apply (with_connection_safe _ _ (λ _, True))|by intros n [_ ?]|by intros ? n [_ ?]|done].
    eapply conn_safe_bind; [apply write_all_safe|]. intros _ _ c0 _.
    assert (∀ fuel acc c1, (sum_list_with event_cost (incoming c1) < fuel)%nat →
      match peers_loop fuel acc c1 with (Ok _, _) => True | (Throw e, _) => is_error e end) as Hl.
    { induction fuel as [|fuel IH]; intros acc c Hf; [lia|]. cbn [peers_loop].
      unfold bind at 1. destruct (Stream.read_line kMaxHeaderBytes c) as [[s|e] c1] eqn:E.
      - apply read_line_progress in E. destruct (beq s (str "END")); [done|].
        destruct (starts_with (str "ERROR ") s); [by eexists|].
        unfold bind, lift. pose proof (parse_peer_response_errors s) as He.
        destruct (parse_peer_response s) as [p|e]; [apply IH; lia|]. by eapply errors_only_is_error.
      - apply read_line_outcome in E as (He & _); [|done]. by eapply errors_only_is_error. }
    apply Hl. unfold recv_fuel. lia.
Qed.

(** The chunk was found, or not; no exception. *)
Definition found_ok (m : Manifest) (index : Z) (o : bytes + bytes) : Prop :=
  match o with inl data => verified m index data | inr _ => True end.

Lemma try_peers_safe config index peers last :
  triple net_ok (try_peers config index peers last)
    (λ o n, found_ok (dc_manifest config) index o ∧ net_ok n) (λ _ _, False).
Proof.
  revert last. induction peers as [|p peers IH]; intros last; cbn [try_peers].
  { by apply triple_ret'. }
  eapply (triple_bind _ _ _ (λ o n, found_ok (dc_manifest config) index o ∧ net_ok n)).
  - eapply triple_catch_error.
    + eapply triple_bind; [apply fetch_chunk_safe|]. intros data.
      apply (triple_ret' _ (inl data)). by intros n.
    + intros w. apply (triple_ret' _ (inr w)). by intros n [_ Hn].
    + by intros w n [[? ?] _].
    + by intros n [[? ?] _].
  - intros [data|what]; [by apply triple_ret'|].
    eapply triple_pre; [apply IH|]. by intros n [_ ?].
Qed.

Lemma fetch_round_safe tracker config id index last :
  triple net_ok (fetch_round tracker config id index last)
    (λ o n, found_ok (dc_manifest config) index o ∧ net_ok n) (λ _ _, False).
Proof.
  eapply triple_catch_error.
  - eapply triple_bind; [apply client_peers_safe|]. intros found.
    eapply triple_conseq; [apply try_peers_safe|done|done|]. done.
  - intros w. apply (triple_ret' _ (inr w)). by intros n [_ Hn].
  - by intros w n [[? ?] _].
  - by intros n [[? ?] _].
Qed.

(** [j] rounds one after the other, each but the last without the chunk, and
    the outcome of the last. *)
Inductive rounds_made (tracker : TrackerClient) (config : DownloadConfig) (id : bytes) (index : Z)
    : nat → bytes → net → bytes + bytes → net → Prop :=
| final_round last n o n' :
    fetch_round tracker config id index last n = (Ok o, n') →
    rounds_made tracker config id index 1 last n o n'
| failed_round j last n what n1 o n2 :
    fetch_round tracker config id index last n = (Ok (inr what), n1) →
    rounds_made tracker config id index j what n1 o n2 →
    rounds_made tracker config id index (S j) last n o n2.

(** The result of [fetch_with_retry] after rounds with outcome [o]. *)
Definition round_result (index : Z) (o : bytes + bytes) : res bytes :=
  match o with
  | inl data => Ok data
  | inr what => Throw (Error (str "Unable to fetch chunk " ++ to_string index ++ str ": " ++ what))
  end.

(** The loop makes its rounds until one finds the chunk; the retries counted
    are the rounds after the first. *)
Lemma retry_loop_rounds rounds tracker config id index round last n k :
  (0 < rounds)%nat →
  0 ≤ round → round + Z.of_nat rounds = dc_max_retries config → dc_max_retries config < 2 ^ 32 →
  0 ≤ k → k + Z.of_nat rounds < 2 ^ 64 → net_ok n →
  ∃ j o n', (1 ≤ j ≤ rounds)%nat ∧ rounds_made tracker config id index j last n o n' ∧
    retry_loop rounds tracker config id index round last (n, k) =
      (round_result index o, (n', k + (Z.of_nat j - 1))) ∧
    match o with inl data => verified (dc_manifest config) index data | inr _ => j = rounds end.
Proof.
  revert round last n k. induction rounds as [|rounds IH]; intros round last n k H0 Hr Hsum Hmax Hk Hk64 Hn;
    [lia|]. cbn [retry_loop]. unfold bind at 1, on_net.
  pose proof (fetch_round_safe tracker config id index last n Hn) as Hround.
  destruct (fetch_round tracker config id index last n) as [[o|e] n'] eqn:Ef; [|done].
  destruct Hround as [Ho Hn']. destruct o as [data|what].
  { exists 1%nat, (inl data), n'. split; [lia|]. split; [by constructor|]. split; [|done].
    cbn. by rewrite Z.add_0_r. }
  unfold bind at 1. rewrite (u32_small (round + 1)) by lia.
  destruct (Z.ltb_spec (round + 1) (dc_max_retries config)) as [Hlt|Hge].
  - unfold count_retry. rewrite u64_small by lia.
    destruct (IH (round + 1) what n' (k + 1)) as (j & o & n2 & Hj & Hm & -> & Ho2); try lia; [done|].
    exists (S j), o, n2. split; [lia|]. split; [by econstructor|]. split.
    + do 2 f_equal. lia.
    + destruct o; [done|lia].
  - assert (rounds = 0)%nat as -> by lia. exists 1%nat, (inr what), n'. split; [lia|].
    split; [by constructor|]. split; [|done]. cbn. by rewrite Z.add_0_r.
Qed.

(** Whatever the counter, only verified bytes are returned. *)
Lemma retry_loop_verified rounds tracker config id index round last :
  triple (λ '(n, _), net_ok n) (retry_loop rounds tracker config id index round last)
    (λ data _, verified (dc_manifest config) index data) (λ e _, is_error e).
Proof.
  revert round last. induction rounds as [|rounds IH]; intros round last; cbn [retry_loop].
  { apply triple_raise. intros _ _. by eexists. }
  intros [n k] Hn. unfold bind at 1, on_net.
  pose proof (fetch_round_safe tracker config id index last n Hn) as Hround.
  destruct (fetch_round tracker config id index last n) as [[o|e] n']; [|done].
  destruct Hround as [Ho Hn']. destruct o as [data|what]; [done|].
  unfold bind at 1. destruct (u32 (round + 1) <? dc_max_retries config);
    by apply (IH (round + 1) what (n', _)).
Qed.

End FetchingLemmas.

(** ** A chunk from server to client *)

Lemma get_line_header token id index :
  get_line token id index = join_spaces [str "GET"; token; id; to_string index] ++ [LF].
Proof. unfold get_line. by repeat (simpl; rewrite <-app_assoc). Qed.

Lemma data_line_header size hash :
  data_line size hash = join_spaces [str "DATA"; to_string size; hash] ++ [LF].
Proof. unfold data_line. by repeat (simpl; rewrite <-app_assoc). Qed.

(** An accepted message is within the line limit. *)
Lemma accepted_length header :
  (∃ r, parse_chunk_request header = Ok r) ∨ (∃ d, parse_data_header header = Ok d) →
  len header ≤ kMaxHeaderBytes.
Proof.
  unfold parse_chunk_request, parse_data_header.
  destruct (split_header header) as [fs|] eqn:E; [|by intros [[? ?]|[? ?]]].
  by apply split_fields_iff in E as (_ & _ & _ & ?).
Qed.

Section EndToEnd.
Context `{HE : Evp, !EvpLaws}.

(** A server that has a valid copy of the chunk. *)
Record offers (config : PeerServerConfig) (content : bytes) (index : Z) : Prop := {
  offers_index : 0 ≤ index < len (chunk_hashes (ps_manifest config));
  offers_has : has_chunk config index = Ok true;
  offers_size : chunk_size (ps_manifest config) index = Ok (len (stored_slice config content index));
  offers_hash : sha256 (stored_slice config content index) = chunk_hash (ps_manifest config) index
}.

(** The server's answer to the client's line. *)
Lemma answer_chunk config content index id :
  config_ok config → offers config content index →
  safe_atom (ps_token config) = true → swarm_id (ps_manifest config) = Ok id →
  is_sha256_hex id = true →
  answer config (Some content) (join_spaces [str "GET"; ps_token config; id; to_string index]) =
  let slice := stored_slice config content index in
  data_line (len slice) (chunk_hash (ps_manifest config) index) ++ slice.
Proof.
  intros (Hm & _ & _) [Hi Hhas Hsize Hhash] Ht Hid Hhex.
  pose proof (manifest_ok_geometry _ Hm) as (_ & Hcount & _).
  assert (index < 2 ^ 32) by (unfold kMaxChunkCount in *; lia).
  unfold answer. rewrite parse_get by first [done | by apply sha256_hex_atom | lia].
  unfold decision. cbn [cr_token cr_swarm_id cr_chunk_index].
  rewrite (bool_decide_eq_true_2 (ps_token config = _)) by done.
  rewrite (bool_decide_eq_true_2 (swarm_id _ = _)) by done. cbn [negb].
  destruct (Z.geb_spec index (len (chunk_hashes (ps_manifest config)))); [lia|].
  rewrite Hhas. cbn [rbind negb]. by rewrite !bool_decide_eq_true_2.
Qed.

(** What the client makes of a served chunk that arrives in any segments. *)
Lemma fetch_chunk_served peer m token index id slice n c ds :
  manifest_ok m → 0 ≤ index < len (chunk_hashes m) → swarm_id m = Ok id →
  chunk_size m index = Ok (len slice) → sha256 slice = chunk_hash m index →
  dials n = Ok c :: ds → valid c = true → outgoing c = [] → clean (incoming c) → accepting c →
  payload (incoming c) = data_line (len slice) (chunk_hash m index) ++ slice →
  ∃ c', fetch_chunk peer m token index n =
          (Ok slice, {| dials := ds; used := used n ++ [(dp_endpoint peer, c')] |}) ∧
        outgoing c' = get_line token id index.
Proof.
  intros Hm Hi Hid Hsize Hhash Hd Hv Ho Hc Ha Hp.
  assert (0 ≤ len slice ≤ kMaxChunkBytes) as Hlen.
  { rewrite chunk_size_spec in Hsize by done. injection Hsize as Hs.
    pose proof (manifest_ok_geometry _ Hm) as (Hb & _). pose proof (len_nonneg slice).
    change kMaxChunkBytes with kMaxChunkSize. lia. }
  assert (is_sha256_hex (chunk_hash m index) = true) as Hhex
    by (rewrite <-Hhash; apply sha256_is_hex).
  destruct (write_all_ok (get_line token id index) c Ha) as (c1 & Hw & Hv1 & Hi1 & Ho1 & _).
  set (header := join_spaces [str "DATA"; to_string (len slice); chunk_hash m index]).
  assert (payload (incoming c1) = header ++ LF :: slice) as Hp1.
  { rewrite Hi1, Hp, data_line_header, <-app_assoc. done. }
  assert (Forall field_ok [str "DATA"; to_string (len slice); chunk_hash m index]) as Hf
    by fields_ok.
  pose proof (parse_data (len slice) (chunk_hash m index) Hlen Hhex) as Hparse. fold header in Hparse.
  assert (len header ≤ kMaxHeaderBytes) as Hh by (apply accepted_length; eauto).
  destruct (read_printable_line c1 header slice) as (c2 & Hr & Hc2 & Hp2 & (_ & Ho2 & _));
    [congruence|by rewrite Hi1|done|by apply fields_printable|done|].
  destruct (read_exact_spec (len slice) c2 slice [] Hc2) as (c3 & Hx & _ & _ & (_ & Ho3 & _));
    [by rewrite app_nil_r|done|].
  exists c3. split; [|by rewrite Ho3, Ho2, Ho1, Ho]. unfold fetch_chunk.
  apply (with_connection_ok _ _ _ c ds (Ok slice) c3); [done|].
  unfold bind, lift. rewrite Hid, Hw, Hr.
  assert (starts_with (str "ERROR ") header = false) as -> by done.
  rewrite Hparse, Hsize. cbn [dh_byte_count dh_sha256].
  rewrite Z.eqb_refl, (proj2 (beq_spec _ _) eq_refl). cbn [negb orb].
  rewrite Hx, sha256_hex_spec, Hhash, (proj2 (beq_spec _ _) eq_refl). done.
Qed.

End EndToEnd.

(** ** Properties *)

(** C18: whatever the tracker and the peers send and however the connections
    fail, [fetch_with_retry] makes at least one and at most [max_retries]
    rounds, one after the other; it stops after the first that finds the chunk
    and then returns its bytes, which have the manifest's size and hash for the
    chunk; otherwise it makes exactly [max_retries] rounds and throws an [Error]
    with the failure of the last.  [retry_events] grows by exactly the rounds
    after the first. *)
Theorem fetch_only_verified `{HE : Evp} tracker config id index n k :
  net_ok n → 1 ≤ dc_max_retries config < 2 ^ 32 → 0 ≤ k < 2 ^ 63 →
  ∃ j o n', 1 ≤ Z.of_nat j ≤ dc_max_retries config ∧
    rounds_made tracker config id index j (str "no active peer advertised this chunk") n o n' ∧
    fetch_with_retry tracker config id index (n, k) =
      (round_result index o, (n', k + (Z.of_nat j - 1))) ∧
    match o with
    | inl data => verified (dc_manifest config) index data
    | inr _ => Z.of_nat j = dc_max_retries config
    end.
Proof.
  intros Hn Hr Hk. unfold fetch_with_retry.
  destruct (retry_loop_rounds (Z.to_nat (dc_max_retries config)) tracker config id index 0
    (str "no active peer advertised this chunk") n k) as (j & o & n' & Hj & Hm & -> & Ho); try lia; [done|].
  exists j, o, n'. split; [lia|]. split; [done|]. split; [done|]. destruct o; [done|lia].
Qed.

(** For the strictly increasing chunk lists that the tracker client
    accepts, [peer_has_chunk] says exactly that the peer claims every chunk or
    lists this one. *)
Lemma peer_has_chunk_exact peer index :
  increasing (dp_chunks peer) = true →
  peer_has_chunk peer index = dp_has_all_chunks peer || bool_decide (index ∈ dp_chunks peer).
Proof. intros Hl. unfold peer_has_chunk. by rewrite binary_search_spec. Qed.

(** C19: a chunk goes from a server that offers it to a client: when the
    server reads the client's line and the client what the server sent, in any
    segments and with any interruptions and short writes, [fetch_chunk] returns
    the chunk's slice of the server's file and had sent exactly that line. *)
Theorem fetch_from_server `{HE : Evp, !EvpLaws} config content peer index id srv srv' n cli ds :
  config_ok config → offers config content index → safe_atom (ps_token config) = true →
  swarm_id (ps_manifest config) = Ok id →
  valid srv = true → outgoing srv = [] → clean (incoming srv) → accepting srv →
  payload (incoming srv) = get_line (ps_token config) id index →
  serve_connection config (Some content) srv = (Ok tt, srv') →
  dials n = Ok cli :: ds → valid cli = true → outgoing cli = [] → clean (incoming cli) →
  accepting cli → payload (incoming cli) = outgoing srv' →
  ∃ cli', fetch_chunk peer (ps_manifest config) (ps_token config) index n =
            (Ok (stored_slice config content index),
             {| dials := ds; used := used n ++ [(dp_endpoint peer, cli')] |}) ∧
          outgoing cli' = get_line (ps_token config) id index.
Proof.
  intros Hcfg Hoff Ht Hid Hv Ho Hc Ha Hp Hserve Hd Hv2 Ho2 Hc2 Ha2 Hp2.
  destruct (swarm_id_ok _ (proj1 Hcfg)) as (id' & Hid' & Hhex).
  assert (id' = id) as -> by congruence.
  pose proof Hoff as [Hi _ Hsize Hhash]. rewrite get_line_header in Hp.
  pose proof (manifest_ok_geometry _ (proj1 Hcfg)) as (_ & Hcount & _). change kMaxChunkCount with 1000000 in Hcount.
  assert (Forall field_ok [str "GET"; ps_token config; id; to_string index]) as Hf by fields_ok.
  destruct (serve_connection_answer config (Some content) srv _ [] Hcfg Hv Hc Ha Hp) as (s & Hs & Hos).
  { by apply fields_printable. }
  { apply accepted_length. left. eexists. apply parse_get; [done|by apply sha256_hex_atom|lia]. }
  rewrite (answer_chunk config content index id), Ho in Hos by done.
  apply (fetch_chunk_served peer _ _ _ _ _ n cli ds (proj1 Hcfg)); try done.
  rewrite Hp2. by assert (srv' = s) as -> by congruence.
Qed.

(** *** Witnesses *)

(** A downloader of the example file with a tracker that names one peer. *)
Definition example_download : DownloadConfig :=
  {| dc_manifest := example_manifest; dc_output_directory := str "out";
     dc_tracker_endpoint := {| host := str "127.0.0.1"; port := 7000 |}; dc_token := str "secret";
     dc_listen_port := 0; dc_peer_id := str "me"; dc_worker_count := 2; dc_max_retries := 2;
     dc_network_timeout := 3000; dc_heartbeat_interval := 1000; dc_bind_address := str "127.0.0.1";
     dc_peer_max_connections := 32 |}.

Definition example_client : TrackerClient :=
  {| endpoint_ := dc_tracker_endpoint example_download; client_token := str "secret";
     timeout_ := 3000 |}.

(** The tracker is reached only in the second round; the peer sends the chunk
    in two segments. *)
Definition example_net : net :=
  {| dials := [throw "Unable to connect";
               Ok (Net.fresh [Arrives (str "PEER other 127.0.0.1 7001 1,2" ++ [LF] ++ str "END" ++ [LF])]);
               Ok (Net.fresh [Arrives (data_line 3 (chunk_hash example_manifest 2)); Arrives (str "rld")])];
     used := [] |}.

Definition example_peer : DiscoveredPeer :=
  {| dp_peer_id := str "other"; dp_endpoint := {| host := str "127.0.0.1"; port := 7001 |};
     dp_has_all_chunks := false; dp_chunks := [1; 2] |}.

Lemma fetch_only_verified_witness :
  (fetch_with_retry example_client example_download example_swarm_id 2 (example_net, 0)).1 = Ok (str "rld") ∧
  verified example_manifest 2 (str "rld") ∧
  ∃ n', rounds_made example_client example_download example_swarm_id 2 2
          (str "no active peer advertised this chunk") example_net (inl (str "rld")) n'.
Proof.
  assert (net_ok example_net) as Hn by (repeat constructor).
  destruct (fetch_only_verified example_client example_download example_swarm_id 2 example_net 0 Hn
    ltac:(vm_compute; split; [discriminate|reflexivity]) ltac:(lia)) as (j & o & n' & Hj & Hm & Hf & Ho).
  assert ((let '(r, (_, k)) :=
     fetch_with_retry example_client example_download example_swarm_id 2 (example_net, 0) in (r, k)) =
    (Ok (str "rld"), 1)) as Hr by (vm_compute; reflexivity).
  rewrite Hf in Hr |- *. destruct o as [data|what]; cbn [round_result fst] in *; [|discriminate].
  injection Hr as -> Hj1. assert (j = 2%nat) as -> by lia.
  split; [reflexivity|]. split; [exact Ho|]. exists n'. exact Hm.
Defined.

Lemma example_offers : offers example_config example_content 2.
Proof. split; [split; [lia|reflexivity]|reflexivity|reflexivity|vm_compute; reflexivity]. Qed.

Definition example_server_conn : conn :=
  {| valid := true; outgoing := []; sends := [Short 7; Interrupted];
     incoming := [Arrives (get_line (str "secret") example_swarm_id 2)] |}.
Definition example_served : conn :=
  (serve_connection example_config (Some example_content) example_server_conn).2.

Lemma fetch_from_server_witness :
  ∃ cli', fetch_chunk example_peer example_manifest (str "secret") 2
            {| dials := [Ok (Net.fresh [RecvInterrupted; Arrives (outgoing example_served)])]; used := [] |} =
          (Ok (str "rld"), {| dials := []; used := [(dp_endpoint example_peer, cli')] |}) ∧
        outgoing cli' = get_line (str "secret") example_swarm_id 2.
Proof.
  apply (fetch_from_server example_config example_content example_peer 2 example_swarm_id
    example_server_conn example_served
    {| dials := [Ok (Net.fresh [RecvInterrupted; Arrives (outgoing example_served)])]; used := [] |}
    (Net.fresh [RecvInterrupted; Arrives (outgoing example_served)])).
  - exact example_config_ok.
  - exact example_offers.
  - reflexivity.
  - vm_compute. reflexivity.
  - reflexivity.
  - reflexivity.
  - repeat constructor.
  - repeat constructor.
  - apply app_nil_r.
  - vm_compute. reflexivity.
  - reflexivity.
  - reflexivity.
  - reflexivity.
  - repeat constructor.
  - repeat constructor.
  - apply app_nil_r.
Defined.
