(* ===== verification/Filestream.v ===== *)
(** * Filestream: [std::filesystem] queries and [std::ofstream]

    What the program uses of the standard library on top of the system calls:
    the queries of [std::filesystem], opening a file for reading, and an
    output stream with its buffer.  A stream notices the failure of a write
    only when its buffer is written out, which the destructor does without
    telling anybody. *)

From S2P Require Export Prelude.
From S2P Require Import Hoare Posix.

#[local] Open Scope Z_scope.

(** ** Definitions *)

(** *** Queries *)

(** A query: an outcome of the script, and the answer; the overloads without
    an [error_code] throw [filesystem_error]. *)
Definition fs_query {A} (answer : os → res A) : io os A := λ s,
  let s' := after s (files s) (fds s) in
  match next_outcome s with
  | Interrupted => (Throw (StdException (str "filesystem error")), s')
  | Fails e => (Throw (StdException e), s')
  | _ => (answer s, s')
  end.

Definition exists_file (path : bytes) : io os bool :=
  fs_query (λ s, Ok (bool_decide (is_Some (files s !! path)))).

(** Every file of the model is a regular file. *)
Definition is_regular_file (path : bytes) : io os bool :=
  fs_query (λ s, Ok (bool_decide (is_Some (files s !! path)))).

Definition file_size (path : bytes) : io os Z :=
  fs_query (λ s, match files s !! path with
                 | Some f => Ok (len (data f))
                 | None => Throw (StdException (str "No such file or directory"))
                 end).

(** Opening a [std::ifstream]: the content that can be read, or [None]. *)
Definition open_for_reading (path : bytes) : io os (option bytes) := λ s,
  let s' := after s (files s) (fds s) in
  match next_outcome s with
  | Interrupted | Fails _ => (Ok None, s')
  | _ => (Ok (data <$> files s !! path), s')
  end.

(** [std::filesystem::rename] throws, [remove] with an [error_code] reports. *)
Definition fs_rename (from to : bytes) : io os unit :=
  do renamed <- sys_rename from to;
  if failed renamed then raise (StdException (strerror renamed)) else ret tt.

Definition fs_remove (path : bytes) : io os bool :=
  do removed <- sys_unlink path;
  ret (failed removed).

(** [lseek(fd, offset, SEEK_SET)]. *)
Definition sys_lseek (fd : Z) (offset : Z) : io os sysres := λ s,
  match next_outcome s with
  | Interrupted => (Ok EINTR, after s (files s) (fds s))
  | Fails e => (Ok (Errno e), after s (files s) (fds s))
  | _ =>
      match fds s !! fd with
      | None => (Ok (Errno (str "Bad file descriptor")), after s (files s) (fds s))
      | Some d =>
          (Ok (Done offset),
           after s (files s) (<[fd := {| fd_path := fd_path d; fd_offset := offset |}]> (fds s)))
      end
  end.

(** *** Output streams *)

Record ofstream := {
  of_fd : option Z;
  of_buffer : bytes;
  of_fail : bool
}.

(** [std::ofstream output(path, std::ios::binary | std::ios::trunc)]. *)
Definition open_ofstream (path : bytes) : io os ofstream :=
  do opened <- sys_open path true;
  match opened with
  | Done fd => ret {| of_fd := Some fd; of_buffer := []; of_fail := false |}
  | _ => ret {| of_fd := None; of_buffer := []; of_fail := true |}
  end.

(** [if (!output)]. *)
Definition of_ok (output : ofstream) : bool := negb (of_fail output).

Definition of_failed (output : ofstream) : ofstream :=
  {| of_fd := of_fd output; of_buffer := of_buffer output; of_fail := true |}.

(** The loop of the library around [write]; the result is what could not be
    written. *)
Fixpoint drain_loop (fuel : nat) (fd : Z) (rest : bytes) : io os bytes :=
  match fuel with
  | O => raise Diverged
  | S fuel' =>
      if bool_decide (rest = []) then ret []
      else
        do written <- sys_write fd rest;
        match written with
        | Done n => drain_loop fuel' fd (drop (Z.to_nat n) rest)
        | EINTR => drain_loop fuel' fd rest
        | Errno _ => ret rest
        end
  end.

Definition drain (fd : Z) (rest : bytes) : io os bytes :=
  λ s, drain_loop (length (script s) + 2) fd rest s.

(** Writes the buffer out; a failure sets [badbit] and keeps the buffer. *)
Definition of_flush (output : ofstream) : io os ofstream :=
  match of_fd output with
  | None => ret output
  | Some fd =>
      do rest <- drain fd (of_buffer output);
      if bool_decide (rest = [])
      then ret {| of_fd := Some fd; of_buffer := []; of_fail := of_fail output |}
      else ret (of_failed output)
  end.

(** The size of the stream's buffer, and the length from which a string is
    written directly. *)
Definition kStreamBuffer : Z := 8191.
Definition kDirectWrite : Z := 1024.

(** [output.write(s, n)] and [output << s]; of a string that is written
    directly and fails, the stream keeps nothing. *)
Definition of_write (s : bytes) (output : ofstream) : io os ofstream :=
  if of_fail output then ret output
  else
    let buffer := of_buffer output ++ s in
    match of_fd output with
    | Some fd =>
        if Z.min kDirectWrite (kStreamBuffer - len (of_buffer output)) <=? len s
        then
          do rest <- drain fd buffer;
          if bool_decide (rest = [])
          then ret {| of_fd := Some fd; of_buffer := []; of_fail := false |}
          else ret (of_failed output)
        else ret {| of_fd := Some fd; of_buffer := buffer; of_fail := false |}
    | None => ret (of_failed output)
    end.

(** [output.seekp(offset)]. *)
Definition of_seekp (offset : Z) (output : ofstream) : io os ofstream :=
  if of_fail output then ret output
  else
    do output <- of_flush output;
    match of_fd output with
    | Some fd =>
        if of_fail output then ret output
        else
          do moved <- sys_lseek fd offset;
          if failed moved then ret (of_failed output) else ret output
    | None => ret (of_failed output)
    end.

(** The destructor: the buffer is written out and the file closed; failures
    are lost. *)
Definition of_destroy (output : ofstream) : io os unit :=
  match of_fd output with
  | None => ret tt
  | Some fd =>
      do _ <- of_flush output;
      do _ <- sys_close fd;
      ret tt
  end.

(** ** Lemmas *)

Section Queries.
Context {Φ : gmap bytes file → Prop} {h0 : list (gmap bytes file)}.

#[local] Abbreviation At := (at_state Φ h0).

Lemma fs_query_spec {A} (answer : os → res A) f d b sc :
  triple (At f d b sc) (fs_query answer)
    (λ a s, At f d b (tail sc) s ∧ ∃ s0, At f d b sc s0 ∧ answer s0 = Ok a)
    (λ e s, At f d b (tail sc) s ∧
            ((∃ w, e = StdException w) ∨ ∃ s0, At f d b sc s0 ∧ answer s0 = Throw e)).
Proof.
  intros s Hs. pose proof Hs as [H1 H2 _ _ _ H6 _]. unfold fs_query.
  assert (At f d b (tail sc) (after s (files s) (fds s))) as Ha.
  { rewrite H1, H2. by eapply at_after. }
  destruct (next_outcome s); [| |by split; [|left; eexists]..];
    (destruct (answer s) as [a|e] eqn:E; [by split; [|exists s]|by split; [|right; exists s]]).
Qed.

Lemma exists_file_spec path f d b sc :
  triple (At f d b sc) (exists_file path)
    (λ r s, r = bool_decide (is_Some (f !! path)) ∧ At f d b (tail sc) s)
    (λ e s, e ≠ Diverged ∧ At f d b (tail sc) s).
Proof.
  eapply triple_conseq; [apply fs_query_spec|done| |].
  - intros r s (Hs & s0 & H0 & [= <-]). by rewrite (at_files _ _ _ _ _ _ _ H0).
  - by intros e s (Hs & [[w ->]|(s0 & _ & [=])]).
Qed.

Lemma is_regular_file_spec path f d b sc :
  triple (At f d b sc) (is_regular_file path)
    (λ r s, r = bool_decide (is_Some (f !! path)) ∧ At f d b (tail sc) s)
    (λ e s, e ≠ Diverged ∧ At f d b (tail sc) s).
Proof. apply exists_file_spec. Qed.

Lemma file_size_spec path f d b sc fl :
  f !! path = Some fl →
  triple (At f d b sc) (file_size path)
    (λ r s, r = len (data fl) ∧ At f d b (tail sc) s)
    (λ e s, e ≠ Diverged ∧ At f d b (tail sc) s).
Proof.
  intros Hf. eapply triple_conseq; [apply fs_query_spec|done| |].
  - intros r s (Hs & s0 & H0 & Ha). by rewrite (at_files _ _ _ _ _ _ _ H0), Hf in Ha; injection Ha as <-.
  - intros e s (Hs & [[w ->]|(s0 & H0 & Ha)]); [done|].
    by rewrite (at_files _ _ _ _ _ _ _ H0), Hf in Ha.
Qed.

Lemma open_for_reading_spec path f d b sc :
  triple (At f d b sc) (open_for_reading path)
    (λ r s, (r = None ∨ r = data <$> f !! path) ∧ (sc = [] → r = data <$> f !! path) ∧
            At f d b (tail sc) s)
    (λ _ _, False).
Proof.
  intros s Hs. pose proof Hs as [H1 H2 _ H4 _ H6 _]. unfold open_for_reading.
  assert (At f d b (tail sc) (after s (files s) (fds s))) as Ha.
  { rewrite H1, H2. by eapply at_after. }
  unfold next_outcome. rewrite H4. destruct sc as [|[] sc]; rewrite <-?H1; split_and!; try done; auto;
    by rewrite ?H1 in *.
Qed.

Lemma sys_lseek_spec f d b sc fd ds offset :
  d !! fd = Some ds →
  triple (At f d b sc) (sys_lseek fd offset)
    (λ r s, At f (if failed r then d
                  else <[fd := {| fd_path := fd_path ds; fd_offset := offset |}]> d) b (tail sc) s)
    (λ _ _, False).
Proof.
  intros Hd s Hs. pose proof Hs as [H1 H2 _ _ _ H6 _]. unfold sys_lseek.
  destruct (next_outcome s); rewrite ?H1, ?H2, ?Hd; cbn [failed];
    eapply at_after; try done; intros fd' [z Hz]; eauto.
  all: rewrite lookup_insert in Hz; case_decide; subst; eauto.
Qed.

End Queries.

(** ** Output streams *)

Section Output.
Variables (path : bytes) (f0 : gmap bytes file) (d0 : gmap Z descriptor) (b : Z)
  (h0 : list (gmap bytes file)) (Φ : gmap bytes file → Prop).
Hypothesis Φ_any : ∀ p, Φ (<[path := p]> f0).

#[local] Abbreviation At := (at_state Φ h0).

(** The open file with its content and the position of the descriptor. *)
Definition output_at (fd : Z) (content : bytes) (off n : nat) (s : os) : Prop :=
  ∃ y sc, (length sc ≤ n)%nat ∧ At (<[path := {| data := content; synced := y |}]> f0)
    (<[fd := {| fd_path := path; fd_offset := Z.of_nat off |}]> d0) b sc s.

Lemma output_write_spec fd content off n rest :
  triple (output_at fd content off n) (sys_write fd rest)
    (λ r s, match r with
            | Done z => 0 ≤ z ≤ len rest ∧ (n = O → z = len rest) ∧
                output_at fd (overwrite content off (take (Z.to_nat z) rest)) (off + Z.to_nat z) (n - 1) s
            | _ => (0 < n)%nat ∧ output_at fd content off (n - 1) s
            end) (λ _ _, False).
Proof.
  intros s (y & sc & Hn & Hs).
  pose proof (write_at_spec (Φ := Φ) (h0 := h0) _ _ b sc fd rest None _ _
    (lookup_insert_eq d0 fd {| fd_path := path; fd_offset := Z.of_nat off |})
    (lookup_insert_eq f0 path {| data := content; synced := y |})) as H.
  cbn [fd_path fd_offset data synced] in H. rewrite Nat2Z.id in H.
  specialize (H ltac:(intros; rewrite insert_insert_eq; apply Φ_any) s Hs).
  unfold sys_write. destruct (write_at fd rest None s) as [[r|e] s']; [|done].
  assert (length (tail sc) ≤ n - 1)%nat as Htl by (destruct sc; simpl in *; lia).
  destruct r as [z| |e].
  - destruct H as (Hz & Hall & H). rewrite !insert_insert_eq in H. split; [done|]. split.
    + intros ->. apply Hall. by destruct sc; simpl in *; [|lia].
    + exists y, (tail sc). split; [done|]. by rewrite Nat2Z.inj_add, Z2Nat.id by lia.
  - destruct H as [Hne H]. split; [destruct sc; simpl in *; [done|lia]|]. by exists y, (tail sc).
  - destruct H as [Hne H]. split; [destruct sc; simpl in *; [done|lia]|]. by exists y, (tail sc).
Qed.

(** What [drain] writes is a prefix of the text, at the position; all of it
    when no call fails any more. *)
Lemma drain_loop_spec fuel fd rest content off n :
  (n + 2 ≤ fuel ∨ 1 ≤ fuel ∧ rest = [])%nat →
  triple (output_at fd content off n) (drain_loop fuel fd rest)
    (λ r s, ∃ w n', rest = w ++ r ∧ (n = 0 → r = [] ∧ n' = 0)%nat ∧
                    output_at fd (overwrite content off w) (off + length w) n' s)
    (λ _ _, False).
Proof.
  revert rest content off n. induction fuel as [|fuel IH]; intros rest content off n Hf; [lia|].
  cbn [drain_loop]. apply triple_if; intros Hrest; reflect.
  { apply triple_ret'. intros s Hs. exists [], n. subst rest. split; [done|]. split; [by intros ->|].
    by rewrite overwrite_nil, Nat.add_0_r. }
  eapply triple_bind_safe; [apply output_write_spec|].
  intros [z| |e]; cbn beta iota.
  - intros s (Hz & Hall & Hs).
    assert (n + 2 ≤ S fuel)%nat as Hfuel by (destruct Hf as [?|[_ ?]]; [done|by destruct Hrest]).
    assert (n - 1 + 2 ≤ fuel ∨ 1 ≤ fuel ∧ drop (Z.to_nat z) rest = [])%nat as Hn.
    { destruct n; [right|left; lia]. split; [lia|]. rewrite Hall by done. unfold len.
      by rewrite Nat2Z.id, drop_all. }
    specialize (IH (drop (Z.to_nat z) rest) (overwrite content off (take (Z.to_nat z) rest))
      (off + Z.to_nat z)%nat (n - 1)%nat Hn s Hs).
    destruct (drain_loop _ _ _ s) as [[r|?] s']; [|done].
    destruct IH as (w & n' & Hw & Hn0 & Hs'). exists (take (Z.to_nat z) rest ++ w), n'.
    assert (length (take (Z.to_nat z) rest) = Z.to_nat z) as Hl
      by (rewrite length_take; unfold len in Hz; lia).
    split; [by rewrite <-app_assoc, <-Hw, take_drop|]. split; [intros ->; by apply Hn0|].
    replace (off + Z.to_nat z)%nat with (off + length (take (Z.to_nat z) rest))%nat in Hs' by lia.
    rewrite overwrite_app in Hs'.
    by rewrite length_app, Nat.add_assoc.
  - apply triple_pure. intros Hn.
    eapply triple_conseq; [apply (IH rest content off (n - 1)%nat); destruct Hf as [?|[_ ?]]; [lia|done]|done| |done].
    intros r s (w & n' & Hw & _ & Hs). exists w, n'. split; [done|]. split; [lia|done].
  - apply triple_pure. intros Hn. apply triple_ret'. intros s Hs. exists [], (n - 1)%nat.
    split; [done|]. split; [lia|]. by rewrite overwrite_nil, Nat.add_0_r.
Qed.

Lemma drain_spec fd rest content off n :
  triple (output_at fd content off n) (drain fd rest)
    (λ r s, ∃ w n', rest = w ++ r ∧ (n = 0 → r = [] ∧ n' = 0)%nat ∧
                    output_at fd (overwrite content off w) (off + length w) n' s)
    (λ _ _, False).
Proof.
  intros s (y & sc & Hn & Hs).
  pose proof (drain_loop_spec (length (script s) + 2) fd rest content off (length sc)) as Hd.
  unfold drain. rewrite (at_script _ _ _ _ _ _ _ Hs) in Hd |- *.
  specialize (Hd ltac:(lia) s ltac:(by exists y, sc)).
  destruct (drain_loop _ fd rest s) as [[r|e] s']; [|done].
  destruct Hd as (w & n' & Hw & Hn0 & Hs'). exists w, n'. split_and!; try done. intros ->.
  apply Hn0. lia.
Qed.

Lemma of_flush_nil fd fail s :
  of_flush {| of_fd := Some fd; of_buffer := []; of_fail := fail |} s =
  (Ok {| of_fd := Some fd; of_buffer := []; of_fail := fail |}, s).
Proof.
  unfold of_flush. cbn [of_fd of_buffer of_fail]. unfold bind, drain. rewrite Nat.add_comm. done.
Qed.

(** The destructor writes a prefix of the buffer and closes the file. *)
Lemma of_destroy_spec fd buffer fail content off n :
  d0 !! fd = None →
  triple (output_at fd content off n)
    (of_destroy {| of_fd := Some fd; of_buffer := buffer; of_fail := fail |})
    (λ _ s, ∃ w r y sc, buffer = w ++ r ∧ (n = O → r = []) ∧
       At (<[path := {| data := overwrite content off w; synced := y |}]> f0) d0 b sc s)
    (λ _ _, False).
Proof.
  intros Hnone. unfold of_destroy, of_flush. cbn [of_fd of_buffer of_fail].
  eapply triple_bind_safe with (R := λ _ s, ∃ w r off' n', (buffer = w ++ r ∧ (n = O → r = [])) ∧
    output_at fd (overwrite content off w) off' n' s).
  - eapply triple_bind_safe; [apply drain_spec|]. intros rest.
    apply triple_if; intros _; apply triple_ret'; intros s (w & n' & -> & Hn & Hs); naive_solver.
  - intros _. apply triple_ex. intros w. apply triple_ex. intros r. apply triple_ex. intros off'.
    apply triple_ex. intros n'. apply triple_pure. intros [-> Hr].
    eapply triple_bind_safe with (R := λ _ s, ∃ y sc,
      At (<[path := {| data := overwrite content off w; synced := y |}]> f0) d0 b sc s).
    + intros s (y & sc & _ & Hs).
      pose proof (sys_close_spec (Φ := Φ) (h0 := h0) _ _ b sc fd
        (mk_is_Some _ _ (lookup_insert_eq d0 fd {| fd_path := path; fd_offset := Z.of_nat off' |})) s Hs) as Hc.
      destruct (sys_close fd s) as [[a|e] s']; [|done].
      rewrite delete_insert_id in Hc by done. eauto.
    + intros a. apply triple_ret'. intros s (y & sc & Hs). by exists w, r, y, sc.
Qed.

(** Opening a stream creates or empties the file, or sets [failbit]. *)
Lemma open_ofstream_spec sc0 :
  triple (At f0 d0 b sc0) (open_ofstream path)
    (λ o s, of_buffer o = [] ∧ match of_fd o with
            | Some fd => of_fail o = false ∧ d0 !! fd = None ∧
                         ∃ n, (sc0 = [] → n = O) ∧ output_at fd [] 0 n s
            | None => (of_fail o = true ∧ sc0 ≠ []) ∧ ∃ sc, At f0 d0 b sc s
            end) (λ _ _, False).
Proof.
  unfold open_ofstream. eapply triple_bind_safe; [apply sys_open_truncate; intros y; apply Φ_any|].
  intros [fd| |e]; apply triple_ret'; cbn.
  - intros s (_ & Hnone & y & Hs). split_and!; [done..|]. exists (length (tail sc0)).
    split; [by intros ->|]. by exists y, (tail sc0).
  - intros s [? Hs]. eauto.
  - intros s [? Hs]. eauto.
Qed.

(** [seekp] on a stream with nothing in its buffer. *)
Lemma of_seekp_spec fd content off offset :
  0 ≤ offset →
  triple (λ s, ∃ n, output_at fd content off n s)
    (of_seekp offset {| of_fd := Some fd; of_buffer := []; of_fail := false |})
    (λ o s, of_fd o = Some fd ∧ of_buffer o = [] ∧
            ∃ n, output_at fd content (if of_fail o then off else Z.to_nat offset) n s)
    (λ _ _, False).
Proof.
  intros Ho s (n & y & sc & Hn & Hs). unfold of_seekp. cbn [of_fail]. unfold bind at 1.
  rewrite of_flush_nil. cbn [of_fd of_fail].
  pose proof (sys_lseek_spec (Φ := Φ) (h0 := h0) _ _ b sc fd _ offset
    (lookup_insert_eq d0 fd {| fd_path := path; fd_offset := Z.of_nat off |}) s Hs) as Hl.
  unfold bind. destruct (sys_lseek fd offset s) as [[r|e] s']; [|done]. rewrite insert_insert_eq in Hl.
  destruct (failed r); cbn; (split_and!; [done|done|]); exists (length (tail sc)), y, (tail sc);
    (split; [done|]); [done|]. by rewrite Z2Nat.id.
Qed.

End Output.
