(* ===== verification/Persist.v ===== *)
(** * Persist: the partial file, [src/src/download.cpp]

    The file half of the downloader: creating the partial file, checking the
    chunks a resume file lists, and storing a verified chunk, which writes and
    syncs the bytes before the resume file may list them. *)

From S2P Require Export Prelude.
From S2P Require Import Hoare Text Iostream Crypto Posix Filestream Manifest ResumeStore PeerServer Download.

#[local] Open Scope Z_scope.

(** ** Definitions *)

(** The last test sees the stream as it is before its destructor; [output] is
    destroyed on both ways out. *)
Definition prepare_partial_file (path : bytes) (expected_size : Z) : io os unit :=
  do present <- exists_file path;
  if present : bool then
    do regular <- is_regular_file path;
    do bad <- (if negb regular then ret true
               else do size <- file_size path; ret (negb (size =? expected_size)));
    if bad : bool
    then raise (Error (str "Existing partial file does not match manifest size: " ++ path))
    else ret tt
  else
    do output <- open_ofstream path;
    if negb (of_ok output)
    then raise (Error (str "Unable to create partial file: " ++ path))
    else
      do output <- (if 0 <? expected_size
                    then do output <- of_seekp (expected_size - 1) output; of_write [chr 0] output
                    else ret output);
      do _ <- of_destroy output;
      if negb (of_ok output)
      then raise (Error (str "Unable to size partial file: " ++ path))
      else ret tt.

(** [std::numeric_limits<std::streamoff>::max()] and that of [off_t]. *)
Definition kMaxOffset : Z := 2 ^ 63 - 1.

Section Verified.
Context `{Evp}.

Definition partial_chunk_matches (input : ifstream) (m : Manifest) (index : Z) : res (bool * ifstream) :=
  let! offset := chunk_offset m index in
  if offset >? kMaxOffset then Ok (false, input)
  else
    let! size := chunk_size m index in
    let input := is_clear input in
    let input := is_seekg offset input in
    let '(data, input) := is_read size input in
    if negb (len data =? size) then Ok (false, input)
    else
      let! digest := sha256_hex data in
      Ok (beq digest (chunk_hash m index), input).

(** Operations on the object next to the system. *)
Definition on_store {A} (m : io ResumeStore A) : io (os * ResumeStore) A := λ '(s, st),
  let '(r, st') := m st in (r, (s, st')).

(** The loop over the chunks listed as complete. *)
Fixpoint revalidate_loop (m : Manifest) (completed : list Z) (input : ifstream) (changed : bool)
    : io (os * ResumeStore) bool :=
  match completed with
  | [] => ret changed
  | index :: completed' =>
      do found <- lift (partial_chunk_matches input m index);
      let '(matches, input) := found in
      if negb matches
      then do _ <- on_store (mark_incomplete index); revalidate_loop m completed' input true
      else revalidate_loop m completed' input changed
  end.

Definition revalidate_completed_chunks (partial_path : bytes) (m : Manifest)
    : io (os * ResumeStore) unit :=
  do completed <- on_store (λ st, (Ok (completed_chunks st), st));
  if bool_decide (completed = []) then ret tt
  else
    do file <- on_os (open_for_reading partial_path);
    let input := open_ifstream file in
    if negb (is_ok_stream input)
    then raise_error "Unable to read the partial file while revalidating resume state"
    else
      do changed <- revalidate_loop m completed input false;
      if changed : bool then flush else ret tt.

End Verified.

(** The loop over [pwrite]; [rest] is [bytes] from [written]. *)
Fixpoint pwrite_loop (fuel : nat) (fd offset written : Z) (rest : bytes) : io os unit :=
  match fuel with
  | O => raise Diverged
  | S fuel' =>
      if bool_decide (rest = []) then ret tt
      else
        do result <- sys_pwrite fd rest (offset + written);
        match result with
        | EINTR => pwrite_loop fuel' fd offset written rest
        | Errno e => raise (Error (str "Unable to write verified chunk: " ++ e))
        | Done n =>
            if n =? 0 then raise_error "Unable to write verified chunk: zero-byte write"
            else pwrite_loop fuel' fd offset (written + n) (drop (Z.to_nat n) rest)
        end
  end.

(** The [try] block and the [catch (...)] block; the local is [fd]. *)
Definition write_chunk_body (offset : Z) (chunk : bytes) : io (os * Z) unit :=
  do fd <- get_local;
  do _ <- on_os (λ s, pwrite_loop (write_fuel s) fd offset 0 chunk s);
  do flushed <- on_os (sys_fsync fd);
  if failed flushed
  then raise (Error (str "Unable to durably flush verified chunk: " ++ strerror flushed))
  else
    do closing_fd <- get_local;
    do _ <- set_local (-1);
    do closed <- on_os (sys_close closing_fd);
    if failed closed
    then raise (Error (str "Unable to close partial file after a verified chunk write: " ++ strerror closed))
    else ret tt.

Definition write_chunk_cleanup (e : exn) : io (os * Z) unit :=
  do fd <- get_local;
  do _ <- (if fd >=? 0 then on_os (sys_close fd) else ret (Done 0));
  raise e.

(** The part of [write_verified_chunk] before the resume state. *)
Definition write_chunk (partial_path : bytes) (offset : Z) (chunk : bytes) : io os unit :=
  do opened <- sys_open partial_path false;
  match opened with
  | Done fd => λ s,
      let '(r, (s', _)) := catch_all (write_chunk_body offset chunk) write_chunk_cleanup (s, fd) in
      (r, s')
  | _ => raise_error "Unable to open partial file for a verified chunk write"
  end.

Definition write_verified_chunk (partial_path : bytes) (m : Manifest) (index : Z) (chunk : bytes)
    : io (os * ResumeStore) unit :=
  do offset <- lift (chunk_offset m index);
  if (offset >? kMaxOffset) || (len chunk >? kMaxOffset - offset)
  then raise_error "Verified chunk offset is outside the platform file range"
  else
    do _ <- on_os (write_chunk partial_path offset chunk);
    do _ <- on_store (mark_complete index);
    flush.

(** ** Operations on the object *)

Lemma triple_on_store {A B} (P : os → Prop) (m : io ResumeStore A) a st st2
    (k : A → io (os * ResumeStore) B) Q E :
  m st = (Ok a, st2) →
  triple (λ '(s, st'), P s ∧ st' = st2) (k a) Q E →
  triple (λ '(s, st'), P s ∧ st' = st) (bind (on_store m) k) Q E.
Proof. intros Hm Hk [s st'] [HP ->]. unfold bind, on_store. rewrite Hm. by apply (Hk (s, st2)). Qed.

(** ** Writing the bytes of a chunk *)

Lemma file_eta p : {| data := data p; synced := synced p |} = p.
Proof. by destruct p. Qed.

Section WriteChunk.
Variables (path chunk : bytes) (off : Z) (p0 : file) (f0 : gmap bytes file) (d0 : gmap Z descriptor)
  (b : Z) (h0 : list (gmap bytes file)) (Φ : gmap bytes file → Prop).

(** The file with the first [k] bytes of the chunk written, and the file after
    the sync. *)
Definition written (k : nat) : file :=
  {| data := overwrite (data p0) (Z.to_nat off) (take k chunk); synced := synced p0 |}.
Definition stored_file : file :=
  let content := overwrite (data p0) (Z.to_nat off) chunk in
  {| data := content; synced := content |}.

Hypothesis off_nonneg : 0 ≤ off.
Hypothesis f0_path : f0 !! path = Some p0.
Hypothesis Φ_written : ∀ k, Φ (<[path := written k]> f0).
Hypothesis Φ_stored : Φ (<[path := stored_file]> f0).

#[local] Abbreviation At := (at_state Φ h0).

(** The possible files, and the descriptor if it is open. *)
Definition partway (p : file) : Prop := p = stored_file ∨ ∃ k, p = written k.
Definition open_at (fd : Z) (s : os) : Prop :=
  ∃ p o sc, partway p ∧
    At (<[path := p]> f0) (<[fd := {| fd_path := path; fd_offset := o |}]> d0) b sc s.
Definition closed_at (s : os) : Prop := ∃ p sc, partway p ∧ At (<[path := p]> f0) d0 b sc s.
Definition chunk_stored (s : os) : Prop := ∃ sc, At (<[path := stored_file]> f0) d0 b sc s.

Definition chunk_writing (fd : Z) (k n : nat) (s : os) : Prop :=
  ∃ sc, (length sc ≤ n)%nat ∧
    At (<[path := written k]> f0) (<[fd := {| fd_path := path; fd_offset := 0 |}]> d0) b sc s.

Lemma written_0 : <[path := written 0]> f0 = f0.
Proof. apply insert_id. unfold written. by rewrite take_0, overwrite_nil, file_eta. Qed.

Lemma chunk_writing_open fd k n s : chunk_writing fd k n s → open_at fd s.
Proof. intros (sc & _ & H). exists (written k), 0, sc. split; [right; eauto|done]. Qed.

Lemma sys_pwrite_spec fd k n :
  (k ≤ length chunk)%nat →
  triple (chunk_writing fd k n) (sys_pwrite fd (drop k chunk) (off + Z.of_nat k))
    (λ r s, match r with
            | Done z => 0 ≤ z ≤ len (drop k chunk) ∧ chunk_writing fd (k + Z.to_nat z) (n - 1) s ∧
                        (n = O → z = len (drop k chunk))
            | _ => (0 < n)%nat ∧ chunk_writing fd k (n - 1) s
            end) (λ _ _, False).
Proof.
  intros Hk s (sc & Hn & Hs).
  pose proof (write_at_spec (Φ := Φ) (h0 := h0) _ _ b sc fd (drop k chunk) (Some (off + Z.of_nat k))
    _ _ (lookup_insert_eq d0 fd {| fd_path := path; fd_offset := 0 |})
    (lookup_insert_eq f0 path (written k))) as H.
  assert (∀ z, 0 ≤ z ≤ len (drop k chunk) →
    overwrite (data (written k)) (Z.to_nat (off + Z.of_nat k)) (take (Z.to_nat z) (drop k chunk)) =
    data (written (k + Z.to_nat z))) as Hw.
  { intros z Hz. cbn [written data]. replace (Z.to_nat (off + Z.of_nat k))
      with (Z.to_nat off + length (take k chunk))%nat by (rewrite length_take; lia).
    by rewrite overwrite_app, take_take_drop. }
  cbn [fd_path fd_offset] in H.
  specialize (H ltac:(intros z Hz; rewrite insert_insert_eq, Hw by done; apply Φ_written) s Hs). unfold sys_pwrite. destruct (write_at fd _ _ s) as [[r|e] s']; [|done].
  assert (length (tail sc) ≤ n - 1)%nat as Htl by (destruct sc; simpl in *; lia).
  destruct r as [z| |e].
  - destruct H as (Hz & Hall & H). rewrite !insert_insert_eq, Hw in H by done.
    split; [done|]. split; [by exists (tail sc)|]. intros ->. apply Hall. by destruct sc; simpl in *; [|lia].
  - destruct H as [Hne H]. split; [destruct sc; simpl in *; [done|lia]|]. by exists (tail sc).
  - destruct H as [Hne H]. split; [destruct sc; simpl in *; [done|lia]|]. by exists (tail sc).
Qed.

Lemma pwrite_loop_spec fuel fd k n :
  (k ≤ length chunk)%nat → (n + 2 ≤ fuel ∨ 1 ≤ fuel ∧ k = length chunk)%nat →
  triple (chunk_writing fd k n) (pwrite_loop fuel fd off (Z.of_nat k) (drop k chunk))
    (λ _ s, ∃ n', chunk_writing fd (length chunk) n' s) (λ e s, e ≠ Diverged ∧ open_at fd s).
Proof.
  revert k n. induction fuel as [|fuel IH]; intros k n Hk Hf; [lia|]. cbn [pwrite_loop].
  apply triple_if; intros Hrest; reflect.
  - apply triple_ret'. intros s Hs. exists n.
    assert (length chunk - k = 0)%nat by (by rewrite <-length_drop, Hrest).
    by replace (length chunk) with k by lia.
  - assert (k < length chunk)%nat.
    { destruct (decide (k < length chunk)%nat); [done|]. by rewrite drop_ge in Hrest by lia. }
    eapply triple_bind_safe; [by apply sys_pwrite_spec|].
    intros [z| |e]; cbn beta iota.
    + apply triple_if; intros Hz0.
      { apply triple_raise. intros s (_ & Hs & _). split; [done|]. by eapply chunk_writing_open. }
      intros s (Hz & Hs & Hall). rewrite drop_drop.
      unfold len in Hz, Hall. rewrite length_drop in Hz, Hall.
      replace (Z.of_nat k + z) with (Z.of_nat (k + Z.to_nat z)) by lia.
      destruct n as [|n].
      * specialize (Hall eq_refl). apply (IH (k + Z.to_nat z)%nat 0%nat); [lia|right; lia|done].
      * apply (IH (k + Z.to_nat z)%nat n); [lia|lia|]. by replace (S n - 1)%nat with n in Hs by lia.
    + apply triple_pure. intros Hn. apply (IH k (n - 1)%nat); [done|lia].
    + apply triple_pure. intros Hn. apply triple_raise. intros s Hs.
      split; [done|]. by eapply chunk_writing_open.
Qed.

(** Every byte is written and synced; the descriptor is still open. *)
Definition chunk_synced (fd : Z) (s : os) : Prop :=
  ∃ o sc, At (<[path := stored_file]> f0) (<[fd := {| fd_path := path; fd_offset := o |}]> d0) b sc s.

Lemma chunk_fsync_spec fd :
  triple (λ s, ∃ n, chunk_writing fd (length chunk) n s) (sys_fsync fd)
    (λ r s, if failed r then open_at fd s else chunk_synced fd s) (λ _ _, False).
Proof.
  apply triple_ex. intros n s (sc & _ & Hs).
  pose proof (sys_fsync_spec (Φ := Φ) (h0 := h0) _ _ b sc fd _ _
    (lookup_insert_eq d0 fd {| fd_path := path; fd_offset := 0 |})
    (lookup_insert_eq f0 path (written (length chunk)))) as H.
  cbn [fd_path] in H. rewrite insert_insert_eq in H.
  replace {| data := _; synced := _ |} with stored_file in H
    by (unfold stored_file, written; cbn [data]; by rewrite firstn_all).
  specialize (H Φ_stored s Hs). destruct (sys_fsync fd s) as [[r|e] s']; [|done].
  unfold chunk_synced. destruct (failed r); [|by eauto].
  exists (written (length chunk)), 0, (tail sc). split; [right; eauto|done].
Qed.

Lemma chunk_close_spec fd (P : file → Prop) :
  d0 !! fd = None →
  triple (λ s, ∃ p o sc, P p ∧
            At (<[path := p]> f0) (<[fd := {| fd_path := path; fd_offset := o |}]> d0) b sc s)
    (sys_close fd) (λ _ s, ∃ p sc, P p ∧ At (<[path := p]> f0) d0 b sc s) (λ _ _, False).
Proof.
  intros Hnone. apply triple_ex. intros p. apply triple_ex. intros o. apply triple_ex. intros sc.
  apply triple_pure. intros Hp.
  eapply triple_conseq; [apply (sys_close_spec (Φ := Φ) (h0 := h0))|done| |done].
  - rewrite lookup_insert_eq. eauto.
  - intros r s Hs. cbn beta in Hs. rewrite delete_insert_id in Hs by done. eauto.
Qed.

(** After the body failed: the local descriptor says whether it is open. *)
Definition chunk_failed (fd0 : Z) : os * Z → Prop :=
  λ '(s, fd), fd = fd0 ∧ open_at fd0 s ∨ fd = -1 ∧ closed_at s.

Lemma write_chunk_body_spec fd :
  d0 !! fd = None →
  triple (λ '(s, l), (∃ n, chunk_writing fd 0 n s) ∧ l = fd) (write_chunk_body off chunk)
    (λ _ '(s, _), chunk_stored s) (λ e x, e ≠ Diverged ∧ chunk_failed fd x).
Proof.
  intros Hnone. unfold write_chunk_body. apply triple_get_local.
  eapply triple_bind.
  { eapply triple_on_os_exn with (Q := λ _ s, ∃ n, chunk_writing fd (length chunk) n s)
      (E' := λ e s, e ≠ Diverged ∧ open_at fd s).
    - intros s (n & sc & Hn & Hs).
      apply (pwrite_loop_spec (write_fuel s) fd 0 (length sc)); [lia| |by exists sc].
      left. unfold write_fuel. by rewrite (at_script _ _ _ _ _ _ _ Hs).
    - intros e s [? ?]. split; [done|by left]. }
  intros u. cbn beta. eapply triple_bind; [apply triple_on_os, chunk_fsync_spec|].
  intros r. apply triple_if; intros Hr; rewrite Hr.
  { apply triple_raise. intros [s l] [Hs ->]. split; [done|by left]. }
  apply triple_get_local, triple_set_local.
  eapply triple_bind.
  { apply triple_on_os. eapply triple_pre; [by apply (chunk_close_spec fd (λ p, p = stored_file))|].
    intros s (o & sc & Hs). eauto 6. }
  intros c. cbn beta. apply triple_if; intros Hc.
  - apply triple_raise. intros [s l] [(p & sc & -> & Hs) ->]. split; [done|].
    right. split; [done|]. exists stored_file, sc. split; [by left|done].
  - apply triple_ret'. intros [s l] [(p & sc & -> & Hs) _]. by exists sc.
Qed.

Lemma write_chunk_cleanup_spec fd0 e :
  0 ≤ fd0 → d0 !! fd0 = None →
  triple (chunk_failed fd0) (write_chunk_cleanup e)
    (λ _ _, False) (λ e' '(s, _), e' = e ∧ closed_at s).
Proof.
  intros Hfd Hnone [s fd] [[-> Hs]|[-> Hs]]; unfold write_chunk_cleanup, get_local;
    unfold bind at 1; cbn beta iota; [|done].
  destruct (fd0 >=? 0) eqn:E; [|rewrite Z.geb_leb, Z.leb_gt in E; lia].
  pose proof (chunk_close_spec fd0 partway Hnone s Hs) as H.
  unfold bind, on_os. by destruct (sys_close fd0 s) as [[r|?] s'].
Qed.

(** Whatever fails, the file holds the chunk completely and synced, or an
    exception is thrown; in between the file holds a part of the chunk.  No
    descriptor stays open or is closed twice. *)
Lemma write_chunk_triple sc0 :
  triple (At f0 d0 b sc0) (write_chunk path off chunk)
    (λ _ s, chunk_stored s) (λ e s, e ≠ Diverged ∧ closed_at s).
Proof.
  unfold write_chunk. eapply triple_bind_safe; [by eapply sys_open_existing|].
  assert (∀ w, triple (At f0 d0 b (tail sc0)) (@raise_error os unit w)
     (λ _ s, chunk_stored s) (λ e s, e ≠ Diverged ∧ closed_at s)) as Hraise.
  { intros w. apply triple_raise. intros s Hs. split; [done|]. exists (written 0), (tail sc0).
    rewrite written_0. split; [right; eauto|done]. }
  intros [fd| |e]; [|by apply Hraise..].
  intros s (Hfd & Hnone & Hs).
  assert (triple (λ '(s, l), (∃ n, chunk_writing fd 0 n s) ∧ l = fd)
    (catch_all (write_chunk_body off chunk) write_chunk_cleanup)
    (λ _ '(s, _), chunk_stored s) (λ e '(s, _), e ≠ Diverged ∧ closed_at s)) as Hbody.
  { eapply triple_catch_all; [by apply write_chunk_body_spec|]. intros e. apply triple_pure. intros He.
    eapply triple_conseq; [by apply write_chunk_cleanup_spec|done|done|].
    by intros e' [s' l] [-> ?]. }
  specialize (Hbody (s, fd)). destruct (catch_all _ _ (s, fd)) as [[a|e] [s' l]];
    apply Hbody; (split; [|done]); exists (length (tail sc0)), (tail sc0); by rewrite written_0.
Qed.

End WriteChunk.

(** ** Chunks in the partial file *)

(** The bytes [chunk_offset] and [chunk_size] select. *)
Definition chunk_bytes (m : Manifest) (content : bytes) (index : Z) : bytes :=
  take (Z.to_nat (Z.min (file_size_bytes m - index * chunk_size_bytes m) (chunk_size_bytes m)))
    (drop (Z.to_nat (index * chunk_size_bytes m)) content).

#[global] Instance verified_dec `{Evp} m index content : Decision (verified m index content).
Proof. unfold verified. apply _. Defined.

Section Chunks.
Context `{HE : Evp, !EvpLaws}.
Variables (m : Manifest).
Hypothesis m_ok : manifest_ok m.

#[local] Abbreviation in_range i := (0 ≤ i < len (chunk_hashes m)).

Lemma verified_length index content :
  in_range index → verified m index content →
  len content = Z.min (file_size_bytes m - index * chunk_size_bytes m) (chunk_size_bytes m).
Proof. intros Hi [Hs _]. rewrite chunk_size_spec in Hs by done. by injection Hs as <-. Qed.

(** The offset fits a [streamoff] and an [off_t]. *)
Lemma chunk_offset_small index :
  in_range index → 0 ≤ index * chunk_size_bytes m ≤ kMaxOffset - kMaxChunkSize.
Proof.
  intros Hi. destruct (manifest_ok_geometry m m_ok) as (Hb & Hc & _).
  unfold kMaxOffset, kMaxChunkSize, kMaxChunkCount in *. nia.
Qed.

Lemma partial_chunk_matches_spec input index :
  in_range index →
  ∃ input', partial_chunk_matches input m index =
      Ok (bool_decide (verified m index (chunk_bytes m (is_content input) index)), input') ∧
    is_content input' = is_content input.
Proof.
  intros Hi. unfold partial_chunk_matches. rewrite chunk_offset_spec by done. cbn [rbind].
  pose proof (chunk_offset_small index Hi) as Ho. unfold kMaxChunkSize in Ho.
  destruct (Z.gtb_spec (index * chunk_size_bytes m) kMaxOffset); [lia|].
  rewrite chunk_size_spec by done. cbn [rbind].
  unfold is_seekg, is_clear, set_state. cbn [is_failbit is_pos is_content is_eofbit].
  unfold is_read, is_good. cbn [is_failbit is_pos is_content is_eofbit negb andb].
  fold (chunk_bytes m (is_content input) index).
  set (slice := chunk_bytes m (is_content input) index).
  case_bool_decide as Hv.
  - pose proof (verified_length index slice Hi Hv) as Hl. destruct Hv as [_ Hh].
    rewrite Hl, Z.eqb_refl. cbn [negb]. rewrite Hh. cbn [rbind]. rewrite beq_refl. eauto.
  - destruct (Z.eqb_spec (len slice)
      (Z.min (file_size_bytes m - index * chunk_size_bytes m) (chunk_size_bytes m))) as [Hl|Hl];
      cbn [negb]; [|by eauto].
    rewrite sha256_hex_spec. cbn [rbind].
    assert (beq (sha256 slice) (chunk_hash m index) = false) as ->; [|by eauto].
    apply not_true_iff_false. intros Hb%beq_spec. apply Hv. split.
    + by rewrite chunk_size_spec, Hl by done.
    + by rewrite sha256_hex_spec, Hb.
Qed.

(** Writing chunk [j], or a part of it, leaves the other chunks alone. *)
Lemma chunk_bytes_other content i j w :
  in_range i → in_range j → i ≠ j → len w ≤ chunk_size_bytes m →
  len w ≤ file_size_bytes m - j * chunk_size_bytes m →
  verified m i (chunk_bytes m content i) →
  chunk_bytes m (overwrite content (Z.to_nat (j * chunk_size_bytes m)) w) i = chunk_bytes m content i.
Proof.
  intros Hi Hj Hij Hw Hw2 Hv. pose proof (verified_length i _ Hi Hv) as Hl.
  pose proof (chunk_start m i m_ok Hi). pose proof (chunk_start m j m_ok Hj).
  destruct (manifest_ok_geometry m m_ok) as (Hb & _).
  unfold chunk_bytes. apply overwrite_disjoint; [unfold chunk_bytes, len in Hl; lia|].
  unfold len in *. destruct (Z.lt_total i j) as [Hlt|[?|Hlt]]; [|done|].
  - left. assert (i * chunk_size_bytes m + chunk_size_bytes m ≤ j * chunk_size_bytes m) by nia. lia.
  - right. assert (j * chunk_size_bytes m + chunk_size_bytes m ≤ i * chunk_size_bytes m) by nia. lia.
Qed.

Lemma chunk_bytes_written content i chunk :
  in_range i → verified m i chunk →
  chunk_bytes m (overwrite content (Z.to_nat (i * chunk_size_bytes m)) chunk) i = chunk.
Proof.
  intros Hi Hv. pose proof (verified_length i _ Hi Hv) as Hl. unfold chunk_bytes. rewrite <-Hl.
  unfold len. rewrite Nat2Z.id. apply overwrite_same.
Qed.

End Chunks.

(** ** The partial file *)

Section Prepare.
Variables (path : bytes) (size : Z) (f0 : gmap bytes file) (d0 : gmap Z descriptor) (b : Z)
  (h0 : list (gmap bytes file)) (Φ : gmap bytes file → Prop).
Hypothesis size_nonneg : 0 ≤ size.
Hypothesis Φ_new : f0 !! path = None → ∀ p, Φ (<[path := p]> f0).

#[local] Abbreviation At := (at_state Φ h0).

(** The file is one of the right size that was there, or a new one: zeros, or
    empty when the last write of the stream failed unnoticed. *)
Definition prepared (p : file) : Prop :=
  f0 !! path = Some p ∧ len (data p) = size ∨
  f0 !! path = None ∧ (data p = replicate (Z.to_nat size) (chr 0) ∨ data p = []).

Definition not_prepared (e : exn) (s : os) : Prop :=
  e ≠ Diverged ∧ ∃ f sc, At f d0 b sc s ∧ ∀ q, q ≠ path ∨ f0 !! path ≠ None → f !! q = f0 !! q.

Lemma prepare_existing p :
  f0 !! path = Some p →
  triple (λ s, ∃ sc, At f0 d0 b sc s)
    (do regular <- is_regular_file path;
     do bad <- (if negb regular then ret true
                else do size' <- file_size path; ret (negb (size' =? size)));
     if bad : bool
     then raise (Error (str "Existing partial file does not match manifest size: " ++ path))
     else ret tt)
    (λ _ s, len (data p) = size ∧ ∃ sc, At f0 d0 b sc s) not_prepared.
Proof.
  intros Hp. assert (∀ e s sc, e ≠ Diverged → At f0 d0 b sc s → not_prepared e s) as Herr.
  { intros e s sc He Hs. split; [done|]. by exists f0, sc. }
  apply triple_ex. intros sc. eapply triple_bind.
  { eapply triple_conseq; [apply (is_regular_file_spec (Φ := Φ) (h0 := h0))|done|done|]. intros e s [He Hs]. by eapply Herr. }
  intros regular. apply triple_pure. intros ->. rewrite bool_decide_eq_true_2 by (rewrite Hp; eauto).
  cbn [negb]. eapply triple_bind with (R := λ bad s, bad = negb (len (data p) =? size) ∧ ∃ sc, At f0 d0 b sc s).
  { eapply triple_bind.
    - eapply triple_conseq; [by apply (file_size_spec (Φ := Φ) (h0 := h0))|done|done|]. intros e s [He Hs]. by eapply Herr.
    - intros n. apply triple_pure. intros ->. apply triple_ret'. eauto. }
  intros bad. apply triple_pure. intros ->. apply triple_if; intros Hb; reflect.
  - apply triple_raise. intros s [sc' Hs]. by eapply Herr.
  - by apply triple_ret'.
Qed.

(** The new file, and what of the last byte the destructor wrote. *)
Lemma prepare_new_file fd :
  f0 !! path = None → d0 !! fd = None →
  triple (λ s, ∃ n, output_at path f0 d0 b h0 Φ fd [] 0 n s)
    (do output <- (if 0 <? size
                   then do output <- of_seekp (size - 1)
                          {| of_fd := Some fd; of_buffer := []; of_fail := false |};
                        of_write [chr 0] output
                   else ret {| of_fd := Some fd; of_buffer := []; of_fail := false |});
     do _ <- of_destroy output;
     if negb (of_ok output)
     then raise (Error (str "Unable to size partial file: " ++ path))
     else ret tt)
    (λ _ s, ∃ p sc, At (<[path := p]> f0) d0 b sc s ∧ prepared p) not_prepared.
Proof.
  intros Hnone Hfd. pose proof (Φ_new Hnone) as Φ_any.
  assert (∀ p e s sc, e ≠ Diverged → At (<[path := p]> f0) d0 b sc s → not_prepared e s) as Herr.
  { intros p e s sc He Hs. split; [done|]. exists (<[path := p]> f0), sc. split; [done|].
    intros q [Hq|Hq]; [by apply lookup_insert_ne|done]. }
  eapply triple_bind_safe with (R := λ o s, ∃ buffer fail off n,
    o = {| of_fd := Some fd; of_buffer := buffer; of_fail := fail |} ∧
    (fail = false → overwrite [] off buffer = replicate (Z.to_nat size) (chr 0) ∧ (length buffer ≤ 1)%nat) ∧
    output_at path f0 d0 b h0 Φ fd [] off n s).
  - apply triple_if; intros Hsize; reflect.
    + eapply triple_bind_safe; [apply (of_seekp_spec path f0 d0 b h0 Φ fd [] 0%nat); lia|].
      intros [ofd buffer fail] s (Hofd & Hbuf & n & Hs). cbn in Hofd, Hbuf. subst ofd buffer.
      unfold of_write. cbn [of_fail of_fd of_buffer app] in *. destruct fail; cbn.
      * exists [], true, 0%nat, n. by split_and!.
      * exists [chr 0], false, (Z.to_nat (size - 1)), n. split_and!; [done| |done]. intros _. split; [|simpl; lia].
        unfold overwrite. rewrite bool_decide_eq_false_2 by done.
        rewrite take_nil, drop_nil, app_nil_r. cbn [app length]. rewrite Nat.sub_0_r.
        change [chr 0] with (replicate 1 (chr 0)). rewrite <-replicate_add. f_equal. lia.
    + apply triple_ret'. intros s [n Hs]. exists [], false, 0%nat, n. split_and!; [done| |done].
      intros _. split; [|simpl; lia]. assert (size = 0) as -> by lia. done.
  - intros o. apply triple_ex. intros buffer. apply triple_ex. intros fail. apply triple_ex. intros off.
    apply triple_ex. intros n. apply triple_pure. intros ->. apply triple_pure. intros Hbuf.
    eapply triple_bind_safe.
    { by apply (of_destroy_spec path f0 d0 b h0 Φ Φ_any fd buffer fail [] off n). }
    intros u. cbn beta. unfold of_ok. cbn [of_fail]. destruct fail; cbn [negb].
    + apply triple_raise. intros s (w & r & y & sc & Hw & _ & Hs). by eapply Herr.
    + apply triple_ret'. intros s (w & r & y & sc & -> & _ & Hs). destruct (Hbuf eq_refl) as [Hz Hl].
      eexists _, sc. split; [exact Hs|]. right. split; [done|]. cbn [data].
      rewrite length_app in Hl. destruct w as [|c w]; [right; done|left].
      destruct r; [by rewrite app_nil_r in Hz|simpl in Hl; lia].
Qed.

Lemma prepare_triple :
  triple (λ s, ∃ sc, At f0 d0 b sc s) (prepare_partial_file path size)
    (λ _ s, ∃ p sc, At (<[path := p]> f0) d0 b sc s ∧ prepared p) not_prepared.
Proof.
  unfold prepare_partial_file. apply triple_ex. intros sc. eapply triple_bind.
  { eapply triple_conseq; [apply (exists_file_spec (Φ := Φ) (h0 := h0))|done|done|]. intros e s [He Hs].
    split; [done|]. by exists f0, (tail sc). }
  intros present. apply triple_pure. intros ->. apply triple_if; intros Hp; reflect.
  - destruct Hp as [p Hp]. eapply triple_conseq; [by apply (prepare_existing p)| | |done].
    + intros s Hs. by exists (tail sc).
    + intros _ s (Hlen & sc' & Hs). exists p, sc'. rewrite insert_id by done. split; [done|]. by left.
  - assert (f0 !! path = None) as Hnone by (by apply eq_None_not_Some).
    eapply triple_bind_safe; [apply (open_ofstream_spec path f0 d0 b h0 Φ (Φ_new Hnone))|].
    intros [[fd|] buffer fail]; cbn [of_buffer of_fd of_fail]; apply triple_pure; intros ->.
    + apply triple_pure. intros ->. apply triple_pure. intros Hfd.
      eapply triple_pre; [by apply prepare_new_file|]. intros s (n & _ & Hs). by exists n.
    + apply triple_pure. intros [-> _]. apply triple_raise. intros s [sc' Hs]. split; [done|]. by exists f0, sc'.
Qed.

End Prepare.

(** *** A sizing whose failure nobody sees *)

(** The write of the destructor fails: the function returns, the partial file
    is empty, and the next run refuses it. *)
Definition example_full_disk : os :=
  {| files := ∅; fds := ∅; next_fd := 3; bad_closes := 0; history := [];
     script := [Works; Works; Works; Fails (str "No space left on device")] |}.

Lemma prepare_silent_failure :
  let '(r, s) := prepare_partial_file (str "p") 4 example_full_disk in
  r = Ok tt ∧ data <$> files s !! str "p" = Some [] ∧
  (prepare_partial_file (str "p") 4 s).1 =
    Throw (Error (str "Existing partial file does not match manifest size: p")).
Proof. vm_compute. done. Qed.
