(* ===== verification/Durable.v ===== *)
(** * Durable: what a crash of the downloader leaves

    The resume file never lists a chunk whose bytes could be lost: an
    invariant of every file system that storing a verified chunk goes through,
    for a crash that keeps, of every byte written and not synced, the old or
    the new value; and what revalidation makes of a resume file at the next
    start. *)

From S2P Require Export Prelude.
From S2P Require Import Hoare Text Iostream Crypto Posix Filestream Manifest ResumeStore.
From S2P Require Import PeerServer Download Persist.

#[local] Open Scope Z_scope.

(** ** Definitions *)

(** What may be found in a file after a crash: each byte as it was written
    last or as it was synced last. *)
Definition survives (f : file) (c : bytes) : Prop :=
  ∀ k, c !! k = data f !! k ∨ c !! k = synced f !! k.

Section Durable.
Context `{HE : Evp, !EvpLaws}.
Variables (m : Manifest) (partial resume id : bytes) (base : gmap bytes file).

#[local] Abbreviation count := (len (chunk_hashes m)).
#[local] Abbreviation tmp := (resume ++ str ".tmp").

(** A run that finds the text [c] in the resume file takes chunk [i] for
    complete. *)
Definition listed (c : bytes) (i : Z) : Prop :=
  ∃ st, load_or_create resume (Some c) id count = Ok st ∧ i ∈ completed_set st.

(** After a crash, every chunk the resume file lists is in the partial file. *)
Definition crash_safe (fs : gmap bytes file) : Prop :=
  ∀ r c i, fs !! resume = Some r → survives r c → listed c i →
    ∃ p, fs !! partial = Some p ∧ ∀ c', survives p c' → verified m i (chunk_bytes m c' i).

(** No file but those of the download differs from [base]. *)
Definition others (fs : gmap bytes file) : Prop :=
  ∀ q, q ≠ partial → q ≠ resume → q ≠ tmp → fs !! q = base !! q.

(** Safe against a crash, with the other files untouched. *)
Definition safe (fs : gmap bytes file) : Prop := crash_safe fs ∧ others fs.

(** Chunk [i] is in the file and was synced. *)
Definition stored (p : file) (i : Z) : Prop :=
  chunk_bytes m (synced p) i = chunk_bytes m (data p) i ∧ verified m i (chunk_bytes m (data p) i).

(** The chunks of [S] are stored and the resume file lists no others. *)
Definition holds (S : gset Z) (fs : gmap bytes file) : Prop :=
  (∃ p, fs !! partial = Some p ∧ ∀ i, i ∈ S → stored p i) ∧
  (∀ r, fs !! resume = Some r → synced r = data r ∧ ∀ i, listed (data r) i → i ∈ S) ∧
  others fs.

(** The store of this download, whose chunks are stored. *)
Record in_step (st : ResumeStore) (fs : gmap bytes file) : Prop := {
  in_step_ok : store_ok st;
  in_step_path : path_ st = resume;
  in_step_swarm : swarm_id_ st = id;
  in_step_count : chunk_count_ st = count;
  in_step_holds : holds (completed_set st) fs
}.

Hypothesis m_ok : manifest_ok m.
Hypothesis id_plain : plain id.
Hypothesis id_some : id ≠ [].
Hypothesis resume_some : resume ≠ [].
Hypothesis partial_resume : partial ≠ resume.
Hypothesis partial_tmp : partial ≠ tmp.

(** ** The invariant *)

Lemma survives_same f c : synced f = data f → survives f c → c = data f.
Proof. intros E Hc. apply list_eq. intros k. specialize (Hc k). rewrite E in Hc. by destruct Hc. Qed.

Lemma survives_chunk p c i :
  chunk_bytes m (synced p) i = chunk_bytes m (data p) i → survives p c →
  chunk_bytes m c i = chunk_bytes m (data p) i.
Proof.
  unfold chunk_bytes. set (n := Z.to_nat (Z.min _ _)). set (o := Z.to_nat (i * _)). intros E Hc.
  apply list_eq. intros k. apply (f_equal (λ l, l !! k)) in E.
  rewrite !lookup_take, !lookup_drop in *. case_decide; [|done].
  destruct (Hc (o + k)%nat) as [->| ->]; done.
Qed.

Lemma holds_safe S fs : holds S fs → safe fs.
Proof.
  intros ((p & Hp & HS) & Hr & Ho). split; [|done]. intros r c i E Hc Hl.
  destruct (Hr r E) as [Hsync Hlist].
  rewrite (survives_same r c Hsync Hc) in Hl. destruct (HS i (Hlist i Hl)) as [H1 H2].
  exists p. split; [done|]. intros c' Hc'. by rewrite (survives_chunk p c' i).
Qed.

Lemma holds_same S fs fs' : (∀ q, q ≠ tmp → fs' !! q = fs !! q) → holds S fs → holds S fs'.
Proof.
  intros Hq ((p & Hp & HS) & Hr & Ho). assert (resume ≠ tmp) as Hne by (intros E;
    apply (f_equal length) in E; rewrite length_app in E; simpl in E; lia).
  split_and!.
  - exists p. rewrite Hq by done. by split.
  - intros r. rewrite Hq by done. apply Hr.
  - intros q Hp' Hr' Ht. rewrite Hq by done. by apply Ho.
Qed.

Lemma holds_partial S fs p p' :
  fs !! partial = Some p → (∀ i, i ∈ S → stored p i → stored p' i) →
  holds S fs → holds S (<[partial := p']> fs).
Proof.
  intros Hp Hi ((p1 & Hp1 & HS) & Hr & Ho). assert (p1 = p) as -> by congruence. split_and!.
  - exists p'. rewrite lookup_insert_eq. split; [done|]. auto.
  - intros r E. rewrite lookup_insert_ne in E by done. by apply Hr.
  - intros q Hq. rewrite lookup_insert_ne by done. by apply Ho.
Qed.

Lemma count_range : 0 ≤ count < 2 ^ 32.
Proof.
  destruct (manifest_ok_geometry m m_ok) as (_ & Hc & _). change kMaxChunkCount with 1000000 in Hc.
  pose proof (len_nonneg (chunk_hashes m)). lia.
Qed.

(** The text of a store of this download lists its set. *)
Lemma listed_serialize st i :
  store_ok st → swarm_id_ st = id → chunk_count_ st = count →
  listed (serialize_locked st) i → i ∈ completed_set st.
Proof.
  intros Hst Hid Hc (st' & Hl & Hi).
  destruct (load_or_create_serialize st resume Hst) as (st2 & H2 & _ & Hset & _);
    [by rewrite Hid|done|by rewrite Hid|].
  rewrite Hid, Hc in H2. assert (st' = st2) as -> by congruence. by rewrite <-Hset.
Qed.

(** [others] speaks of neither the resume file nor its temporary. *)
Lemma others_publish f0 content :
  others f0 → others (<[resume := content]> (delete tmp f0)).
Proof. intros Ho q Hq1 Hq2 Hq3. rewrite lookup_insert_ne, lookup_delete_ne by done. by apply Ho. Qed.

Lemma others_same f0 f : others f0 → (∀ q, q ≠ tmp → f !! q = f0 !! q) → others f.
Proof. intros Ho Hf q Hq1 Hq2 Hq3. rewrite Hf by done. by apply Ho. Qed.

(** Publishing the text of a store whose chunks are stored. *)
Lemma holds_publish st fs p :
  store_ok st → swarm_id_ st = id → chunk_count_ st = count →
  fs !! partial = Some p → (∀ i, i ∈ completed_set st → stored p i) → others fs →
  holds (completed_set st)
    (<[resume := {| data := serialize_locked st; synced := serialize_locked st |}]> (delete tmp fs)).
Proof.
  intros Hok Hid Hc Hp HS Ho. split_and!.
  - exists p. by rewrite lookup_insert_ne, lookup_delete_ne by done.
  - intros r. rewrite lookup_insert_eq. intros [= <-]. split; [done|].
    intros i. by apply listed_serialize.
  - by apply others_publish.
Qed.

(** The flush of such a store keeps every file system of the run safe. *)
Lemma flush_in_step f0 d0 b h0 st :
  in_step st f0 →
  triple (λ '(s, st'), (∃ sc, at_state safe h0 f0 d0 b sc s) ∧ st' = st) flush
    (λ _ '(s, st'), ∃ f sc, at_state safe h0 f d0 b sc s ∧ in_step st' f ∧
       completed_set st' = completed_set st ∧ dirty_ st' = false ∧ f !! partial = f0 !! partial ∧
       (dirty_ st = true → data <$> f !! resume = Some (serialize_locked st')))
    (λ e '(s, st'), e ≠ Diverged ∧ st' = st ∧
       ∃ f sc, at_state safe h0 f d0 b sc s ∧ in_step st f ∧ f !! partial = f0 !! partial).
Proof.
  intros Hin. pose proof Hin as [Hok Hpath Hid Hc Hh].
  assert (tmp ≠ resume) as Htmp by (intros E; by apply (f_equal length) in E;
    rewrite length_app in E; simpl in E; lia).
  assert (∀ f, (∀ q, q ≠ tmp → f !! q = f0 !! q) → holds (completed_set st) f) as Hsame.
  { intros f Hf. by eapply holds_same. }
  destruct (proj1 Hh) as (p & Hp & HS).
  pose proof (holds_publish st f0 p Hok Hid Hc Hp HS (proj2 (proj2 Hh))) as Hnew.
  eapply triple_conseq; [eapply (flush_triple safe h0 f0 d0 b st); rewrite Hpath| | |].
  - intros f Hf. eapply holds_safe. by apply Hsame.
  - by eapply holds_safe.
  - done.
  - intros [] [s st'] [sc Hf]. rewrite Hpath in Hf. destruct (dirty_ st) eqn:Ed; destruct Hf as [Hs ->].
    + eexists _, sc. split; [exact Hs|]. split; [by constructor|]. split_and!; [done|done| |].
      * by rewrite lookup_insert_ne, lookup_delete_ne by done.
      * intros _. by rewrite lookup_insert_eq.
    + exists f0, sc. by split_and!.
  - intros e [s st'] (He & -> & f & sc & Hs & Hf). rewrite Hpath in Hf. split_and!; [done|done|].
    exists f, sc. split_and!; [done| |by apply Hf]. constructor; auto.
Qed.

(** ** Storing a chunk *)

(** The partial file during and after the write of a chunk. *)
Lemma partway_stored st p index chunk w :
  0 ≤ index < count → verified m index chunk → store_ok st → chunk_count_ st = count →
  index ∉ completed_set st → w `prefix_of` chunk →
  ∀ i, i ∈ completed_set st → stored p i →
    chunk_bytes m (overwrite (data p) (Z.to_nat (index * chunk_size_bytes m)) w) i =
    chunk_bytes m (data p) i.
Proof.
  intros Hi Hv Hst Hc Hn [w' Hw] i Hin [_ Hvi].
  apply elem_of_completed in Hin as Hr; [|done]. rewrite Hc in Hr. destruct Hr as [Hr _].
  pose proof (verified_length m m_ok index chunk Hi Hv) as Hl. rewrite Hw, len_app in Hl.
  pose proof (len_nonneg w'). apply chunk_bytes_other; try done; [congruence|lia|lia].
Qed.

Section Storing.
Variables (f0 : gmap bytes file) (d0 : gmap Z descriptor) (b : Z) (h0 : list (gmap bytes file))
  (st : ResumeStore) (index : Z) (chunk : bytes) (p0 : file).
Hypothesis st_in_step : in_step st f0.
Hypothesis index_range : 0 ≤ index < count.
Hypothesis chunk_verified : verified m index chunk.
Hypothesis index_new : index ∉ completed_set st.
Hypothesis f0_partial : f0 !! partial = Some p0.

#[local] Abbreviation off := (index * chunk_size_bytes m).
#[local] Abbreviation At := (at_state safe h0).

Lemma prefix_of_taken k : take k chunk `prefix_of` chunk.
Proof. exists (drop k chunk). by rewrite take_drop. Qed.

Lemma holds_partway p : partway chunk off p0 p → holds (completed_set st) (<[partial := p]> f0).
Proof.
  pose proof st_in_step as [Hok _ _ Hc Hh]. intros Hp. eapply holds_partial; [exact f0_partial| |exact Hh].
  intros i Hi Hs. pose proof Hs as [Hs1 Hs2].
  pose proof (partway_stored st p0 index chunk) as Hpart.
  destruct Hp as [->|[k ->]]; unfold stored; cbn [stored_file written data synced].
  - by rewrite (Hpart chunk).
  - rewrite Hs1, (Hpart (take k chunk)) by (try done; apply prefix_of_taken). done.
Qed.

(** With the chunk stored and marked, the store is in step again. *)
Lemma marked_in_step :
  in_step (set_completed st index true) (<[partial := stored_file chunk off p0]> f0).
Proof.
  pose proof st_in_step as [Hok Hp Hid Hc _]. constructor; try done; [by apply set_completed_ok|].
  rewrite completed_set_set by (try done; by rewrite Hc).
  destruct (holds_partway (stored_file chunk off p0) (or_introl eq_refl)) as ((p & E & HS) & Hr & Ho).
  rewrite lookup_insert_eq in E. injection E as <-. split_and!; [| |done].
  - exists (stored_file chunk off p0). rewrite lookup_insert_eq. split; [done|].
    intros i [->%elem_of_singleton|Hi]%elem_of_union; [|by apply HS].
    split; [done|]. cbn [stored_file data]. by rewrite chunk_bytes_written.
  - intros r Er. destruct (Hr r Er) as [? Hl]. split; [done|].
    intros i Hi. apply elem_of_union. right. by apply Hl.
Qed.

(** Storing a chunk: at every moment a crash is safe; it returns with the
    chunk stored, marked and listed, and any exception leaves the store in
    step with the files. *)
Lemma write_verified_triple :
  triple (λ '(s, st'), (∃ sc, At f0 d0 b sc s) ∧ st' = st) (write_verified_chunk partial m index chunk)
    (λ _ '(s, st'), ∃ f sc, At f d0 b sc s ∧ in_step st' f ∧ dirty_ st' = false ∧
       completed_set st' = {[index]} ∪ completed_set st ∧
       (data <$> f !! resume = Some (serialize_locked st')))
    (λ e '(s, st'), e ≠ Diverged ∧ (st' = st ∨ st' = set_completed st index true) ∧
       ∃ f sc, At f d0 b sc s ∧ in_step st' f).
Proof.
  pose proof st_in_step as [Hok Hpath Hid Hc Hh].
  pose proof (chunk_offset_small m m_ok index index_range) as Ho.
  pose proof (verified_length m m_ok index chunk index_range chunk_verified) as Hl.
  destruct (manifest_ok_geometry m m_ok) as (Hgeo & _).
  unfold write_verified_chunk.
  eapply triple_lift_ok; [by apply chunk_offset_spec|].
  apply triple_if_false.
  { destruct (Z.gtb_spec off kMaxOffset); [lia|].
    destruct (Z.gtb_spec (len chunk) (kMaxOffset - off)); [lia|done]. }
  eapply triple_bind.
  { eapply triple_on_os_exn.
    - apply triple_ex. intros sc.
      apply (write_chunk_triple partial chunk off p0 f0 d0 b h0 safe ltac:(lia) f0_partial).
      + intros k. eapply holds_safe, holds_partway. right. eauto.
      + eapply holds_safe, holds_partway. by left.
    - intros e s (He & p & sc & Hp & Hs). split_and!; [done|by left|].
      eexists _, sc. split; [exact Hs|]. constructor; try done. by apply holds_partway. }
  intros u. eapply triple_on_store.
  { rewrite mark_complete_spec by (try done; lia). rewrite Hc, decide_True by lia.
    by rewrite decide_False by done. }
  intros [s st'] [[sc Hs] ->].
  pose proof (flush_in_step _ d0 b h0 _ marked_in_step (s, _) (conj (ex_intro _ sc Hs) eq_refl)) as Hf.
  destruct (flush _) as [[u'|e] [s' st']].
  - destruct Hf as (f & sc' & Hs' & Hin' & Hset & Hd & _ & Hr). exists f, sc'.
    split_and!; try done.
    + rewrite Hset, completed_set_set by (try done; by rewrite Hc). done.
    + by apply Hr.
  - destruct Hf as (He & -> & f & sc' & Hs' & Hin' & _). split_and!; [done|by right|]. eauto.
Qed.
End Storing.
(** ** Revalidation *)

(** The chunks of [l] that the content does not have. *)
Definition damaged (content : bytes) (l : list Z) : list Z :=
  filter (λ i, ¬ verified m i (chunk_bytes m content i)) l.

Lemma damaged_cons content i l :
  damaged content (i :: l) =
    if bool_decide (verified m i (chunk_bytes m content i)) then damaged content l
    else i :: damaged content l.
Proof. unfold damaged. rewrite filter_cons. by repeat case_decide; case_bool_decide. Qed.

Lemma revalidate_loop_spec l input changed s st :
  store_ok st → chunk_count_ st = count → NoDup l → Forall (λ i, i ∈ completed_set st) l →
  (changed = true → dirty_ st = true) →
  ∃ st', revalidate_loop m l input changed (s, st) =
           (Ok (changed || negb (bool_decide (damaged (is_content input) l = []))), (s, st')) ∧
    store_ok st' ∧ path_ st' = path_ st ∧ swarm_id_ st' = swarm_id_ st ∧ chunk_count_ st' = count ∧
    completed_set st' = completed_set st ∖ list_to_set (damaged (is_content input) l) ∧
    (if changed || negb (bool_decide (damaged (is_content input) l = []))
     then dirty_ st' = true else st' = st).
Proof.
  revert input changed st.
  induction l as [|i l IH]; intros input changed st Hst Hc Hnd Hl Hd; cbn [revalidate_loop].
  { exists st. rewrite bool_decide_eq_true_2, orb_false_r by done. split; [done|].
    split_and!; try done; [set_solver|]. destruct changed; auto. }
  apply NoDup_cons in Hnd as [Hil Hnd]. apply Forall_cons in Hl as [Hi Hl].
  pose proof Hi as Hr. rewrite elem_of_completed, Hc in Hr by done. destruct Hr as [Hr _].
  destruct (partial_chunk_matches_spec m m_ok input i Hr) as (input' & Hm & Hcont).
  unfold bind at 1, lift. rewrite Hm. cbn beta iota. rewrite damaged_cons.
  case_bool_decide as Hv; cbn [negb].
  - rewrite <-Hcont. by apply IH.
  - rewrite (bool_decide_eq_false_2 (_ :: _ = [])) by done. cbn [negb]. rewrite orb_true_r.
    unfold bind, on_store. rewrite mark_incomplete_spec by (try done; lia).
    rewrite Hc, decide_True, decide_True by (done || lia). cbn beta iota.
    destruct (IH input' true (set_completed st i false)) as (st' & H1 & H2 & H3 & H4 & H5 & H6 & H7);
      [by apply set_completed_ok|done|done| |done|].
    { rewrite Forall_forall in Hl |- *. intros j Hj.
      rewrite completed_set_set by (try done; by rewrite Hc).
      apply elem_of_difference. split; [by apply Hl|]. intros ->%elem_of_singleton. done. }
    exists st'. rewrite H1, Hcont in *. split; [done|]. split_and!; try done.
    rewrite H6, completed_set_set by (try done; by rewrite Hc). rewrite list_to_set_cons. set_solver.
Qed.

(** The files revalidation may start from: a partial file where the bytes of
    the chunks of the store are on disk, and a resume file that lists chunks of the
    store. *)
Definition resumable (st : ResumeStore) (fs : gmap bytes file) (p : file) : Prop :=
  store_ok st ∧ path_ st = resume ∧ swarm_id_ st = id ∧ chunk_count_ st = count ∧
  fs !! partial = Some p ∧
  (∀ i, i ∈ completed_set st → chunk_bytes m (synced p) i = chunk_bytes m (data p) i) ∧
  others fs ∧
  ∀ r, fs !! resume = Some r → synced r = data r ∧ ∀ i, listed (data r) i → i ∈ completed_set st.

Definition kept (p : file) (st st' : ResumeStore) : Prop :=
  ∀ i, i ∈ completed_set st' ↔ i ∈ completed_set st ∧ verified m i (chunk_bytes m (data p) i).

Lemma elem_of_completed_chunks st i : i ∈ completed_chunks st ↔ i ∈ completed_set st.
Proof. unfold completed_set. by rewrite elem_of_list_to_set. Qed.

Lemma kept_damaged p st st' :
  completed_set st' = completed_set st ∖ list_to_set (damaged (data p) (completed_chunks st)) →
  kept p st st'.
Proof.
  intros Hst i. rewrite Hst, elem_of_difference, elem_of_list_to_set. unfold damaged.
  rewrite list_elem_of_filter, elem_of_completed_chunks.
  destruct (decide (verified m i (chunk_bytes m (data p) i))); naive_solver.
Qed.

(** Revalidation keeps exactly the chunks that are in the partial file. *)
Lemma revalidate_triple f0 d0 b h0 st p :
  resumable st f0 p →
  triple (λ '(s, st'), (∃ sc, at_state others h0 f0 d0 b sc s) ∧ st' = st)
    (revalidate_completed_chunks partial m)
    (λ _ '(s, st'), kept p st st' ∧ ∃ f sc, at_state others h0 f d0 b sc s ∧ in_step st' f)
    (λ e '(s, st'), e ≠ Diverged ∧ completed_set st' ⊆ completed_set st ∧
       ∃ f sc, at_state others h0 f d0 b sc s ∧ ∀ q, q ≠ tmp → f !! q = f0 !! q).
Proof.
  intros (Hok & Hpath & Hid & Hc & Hp & Hsync & Ho & Hr). unfold revalidate_completed_chunks.
  assert (∀ st', kept p st st' → ∀ i, i ∈ completed_set st' → stored p i) as Hstored.
  { intros st' Hk i Hi. apply Hk in Hi as [Hi Hv]. split; [by apply Hsync|done]. }
  eapply triple_on_store; [done|]. apply triple_if; intros Hempty; reflect.
  { apply triple_ret'. intros [s st'] [[sc Hs] ->].
    assert (∀ i, i ∉ completed_set st) as Hnone.
    { intros i. rewrite <-elem_of_completed_chunks, Hempty. set_solver. }
    assert (kept p st st) as Hk by (intros i; split; [intros Hi|intros [Hi _]]; by destruct (Hnone i)).
    split; [done|]. exists f0, sc. split; [done|]. constructor; try done. split; [eauto|done]. }
  eapply triple_bind_safe.
  { apply (triple_on_os _ _ (λ file s, (file = None ∨ file = data <$> f0 !! partial) ∧
      ∃ sc, at_state others h0 f0 d0 b sc s)).
    apply triple_ex. intros sc.
    eapply triple_conseq; [apply (open_for_reading_spec (Φ := others) (h0 := h0) partial f0 d0 b sc)|done| |done]. intros r s (? & _ & ?). eauto. }
  intros file. apply triple_if; intros Hopen.
  { apply triple_raise. intros [s st'] [(_ & sc & Hs) ->]. split_and!; [done|done|by exists f0, sc]. }
  intros [s st'] [([->|Hfile] & sc & Hs) ->]; [done|]. rewrite Hp in Hfile. cbn in Hfile. subst file.
  destruct (completed_chunks_ok st Hok) as [Hinc _].
  destruct (revalidate_loop_spec (completed_chunks st) (open_ifstream (Some (data p))) false s st)
    as (st' & H1 & H2 & H3 & H4 & H5 & H6 & H7); [done|done|by apply increasing_NoDup| |done|].
  { apply Forall_forall. intros i. by rewrite elem_of_completed_chunks. }
  pose proof (kept_damaged p st st' H6) as Hk.
  unfold bind. rewrite H1. cbn [orb open_ifstream is_content] in *.
  case_bool_decide; cbn [negb] in H7 |- *.
  - subst st'. split; [done|]. exists f0, sc. split; [done|]. constructor; try done. split; [eauto|done].
  - pose proof (flush_triple others h0 f0 d0 b st') as Hf. rewrite H3, Hpath in Hf.
    specialize (Hf (λ f, others_same f0 f Ho) (others_publish f0 _ Ho) (s, st')
      (conj (ex_intro _ sc Hs) eq_refl)). rewrite H7 in Hf.
    destruct (flush (s, st')) as [[u|e] [s' st2]].
    + destruct Hf as (sc' & Hs' & ->). split; [done|]. eexists _, sc'. split; [exact Hs'|].
      constructor; try done; [by simpl; congruence..|].
      eapply (holds_publish st' f0 p); try done; [congruence|by apply Hstored].
    + destruct Hf as (He & -> & f & sc' & Hs' & Hf). split_and!; [done| |].
      * intros i Hi. by apply Hk.
      * by exists f, sc'.
Qed.

End Durable.

(** Supplies the state a triple starts from. *)
Ltac feed_state H :=
  match type of H with
  | ?P → _ =>
      let HP := fresh "Hpre" in
      assert P as HP;
      [split; [eexists; apply at_start; [assumption|]|reflexivity]
      |specialize (H HP); clear HP]
  end.

(** ** Properties *)

(** The names and the manifest of a download. *)
Record layout (m : Manifest) (partial resume id : bytes) : Prop := {
  layout_manifest : manifest_ok m;
  layout_plain : plain id;
  layout_id : id ≠ [];
  layout_resume : resume ≠ [];
  layout_partial : partial ≠ resume;
  layout_temporary : partial ≠ resume ++ str ".tmp"
}.

(** C2: storing a verified chunk is safe against a crash at any moment,
    whatever calls fail, are interrupted or write short: in every file system
    the call goes through, each chunk that the resume file lists reads back
    with the manifest's hash from every mixture of written and synced bytes
    that the crash may leave.  If it returns, the chunk is stored, marked and
    listed; after an exception at most this chunk was added and the store is
    still in step with the files.  No other file changes and no descriptor is leaked or closed twice. *)
Theorem store_chunk_crash_safe `{HE : Evp, !EvpLaws} m partial resume id s st index chunk :
  layout m partial resume id → os_ok s → in_step m partial resume id (files s) st (files s) →
  0 ≤ index < len (chunk_hashes m) → verified m index chunk → index ∉ completed_set st →
  let '(r, (s', st')) := write_verified_chunk partial m index chunk (s, st) in
  fds s' = fds s ∧ bad_closes s' = bad_closes s ∧
  (∃ hs, history s' = history s ++ hs ∧ Forall (crash_safe m partial resume id) hs) ∧
  in_step m partial resume id (files s) st' (files s') ∧
  match r with
  | Ok _ => completed_set st' = {[index]} ∪ completed_set st ∧
            data <$> files s' !! resume = Some (serialize_locked st')
  | Throw e => e ≠ Diverged ∧ completed_set st' ⊆ {[index]} ∪ completed_set st
  end.
Proof.
  intros [Hm Hpl Hid Hres Hne Htmp] Hs Hin Hi Hv Hn.
  destruct (proj1 (in_step_holds _ _ _ _ _ _ _ Hin)) as (p & Hp & _).
  pose proof (write_verified_triple m partial resume id (files s) Hm Hpl Hid Hres Hne Htmp (files s) (fds s)
    (bad_closes s) (history s) st index chunk p Hin Hi Hv Hn Hp (s, st)) as Ht.
  feed_state Ht; [by eapply holds_safe, in_step_holds|].
  destruct (write_verified_chunk partial m index chunk (s, st)) as [[u|e] [s' st']].
  - destruct Ht as (f & sc & [<- Hd Hb _ (hs & Hh & Hsafe) _ _] & Hin' & _ & Hset & Hr).
    split_and!; try done. exists hs. split; [done|]. eapply Forall_impl; [exact Hsafe|]. by intros fs [? _].
  - destruct Ht as (He & Hst & f & sc & [<- Hd Hb _ (hs & Hh & Hsafe) _ _] & Hin').
    split_and!; try done.
    { exists hs. split; [done|]. eapply Forall_impl; [exact Hsafe|]. by intros fs [? _]. }
    destruct Hst as [->| ->]; [set_solver|]. rewrite completed_set_set; [done|apply Hin|].
    by rewrite (in_step_count _ _ _ _ _ _ _ Hin).
Qed.

(** C14: after a restart the resume file is checked against the partial file:
    if [revalidate_completed_chunks] returns, the store has exactly the chunks
    it had whose bytes in the partial file have the manifest's size and hash,
    and it is in step with the files; an exception never adds a chunk. *)
Theorem revalidate_exact `{HE : Evp, !EvpLaws} m partial resume id s st p :
  layout m partial resume id → os_ok s → resumable m partial resume id (files s) st (files s) p →
  let '(r, (s', st')) := revalidate_completed_chunks partial m (s, st) in
  fds s' = fds s ∧ bad_closes s' = bad_closes s ∧
  match r with
  | Ok _ => (∀ i, i ∈ completed_set st' ↔
                  i ∈ completed_set st ∧ verified m i (chunk_bytes m (data p) i)) ∧
            in_step m partial resume id (files s) st' (files s')
  | Throw e => e ≠ Diverged ∧ completed_set st' ⊆ completed_set st ∧ files s' !! partial = Some p
  end.
Proof.
  intros [Hm Hpl Hid Hres Hne Htmp] Hs Hin.
  pose proof (revalidate_triple m partial resume id (files s) Hm Hpl Hid Hres Hne Htmp (files s) (fds s)
    (bad_closes s) (history s) st p Hin (s, st)) as Ht.
  feed_state Ht; [done|].
  destruct (revalidate_completed_chunks partial m (s, st)) as [[u|e] [s' st']].
  - by destruct Ht as (Hk & f & sc & [<- Hd Hb _ Hh _ _] & Hin').
  - destruct Ht as (He & Hst & f & sc & [<- Hd Hb _ Hh _ _] & Hf). split_and!; try done.
    rewrite Hf by done. apply Hin.
Qed.

(** *** Witnesses *)

(** The example download with its first chunk stored and listed. *)
Definition example_partial : bytes := str "out/greeting.txt.part".
Definition example_resume : bytes := str "out/x.resume".
Definition example_state : ResumeStore :=
  {| path_ := example_resume; swarm_id_ := example_swarm_id; chunk_count_ := 3;
     completed_ := [true; false; false]; revision_ := 1; dirty_ := false |}.
Definition example_partial_file : file :=
  let c := str "hell" ++ replicate 7 (chr 0) in {| data := c; synced := c |}.
Definition example_resume_file : file :=
  {| data := serialize_locked example_state; synced := serialize_locked example_state |}.

(** The first write is interrupted and then short. *)
Definition example_disk : os :=
  {| files := {[ example_partial := example_partial_file; example_resume := example_resume_file ]};
     fds := ∅; next_fd := 3; bad_closes := 0;
     script := [Works; Interrupted; Short 2]; history := [] |}.

Lemma example_swarm_id_hex : is_sha256_hex example_swarm_id = true.
Proof. vm_compute. reflexivity. Qed.

Lemma example_layout : layout example_manifest example_partial example_resume example_swarm_id.
Proof.
  split; [exact example_manifest_ok|apply sha256_hex_plain, example_swarm_id_hex|..];
    vm_compute; discriminate.
Qed.

Lemma example_disk_ok : os_ok example_disk.
Proof. split; [done|]. intros fd [z Hz]. change (fds example_disk) with (∅ : gmap Z descriptor) in Hz.
  by rewrite lookup_empty in Hz. Qed.

Lemma example_state_ok : store_ok example_state.
Proof. split_and!; done. Qed.

Lemma example_state_set i : i ∈ completed_set example_state → i = 0.
Proof.
  rewrite <-elem_of_completed_chunks. change (completed_chunks example_state) with [0].
  apply list_elem_of_singleton.
Qed.

Lemma example_chunk_0 : verified example_manifest 0 (chunk_bytes example_manifest (data example_partial_file) 0).
Proof. split; vm_compute; reflexivity. Qed.

Lemma example_resume_lookup r : files example_disk !! example_resume = Some r → r = example_resume_file.
Proof.
  change (files example_disk) with
    ({[ example_partial := example_partial_file; example_resume := example_resume_file ]} : gmap bytes file).
  rewrite lookup_insert_ne by (vm_compute; discriminate). rewrite lookup_singleton_eq. congruence.
Qed.

Lemma example_in_step :
  in_step example_manifest example_partial example_resume example_swarm_id (files example_disk)
    example_state (files example_disk).
Proof.
  constructor; [exact example_state_ok|reflexivity..|]. split; [|split; [|done]].
  - exists example_partial_file. split; [apply lookup_insert_eq|].
    intros i ->%example_state_set. split; [reflexivity|exact example_chunk_0].
  - intros r ->%example_resume_lookup. split; [reflexivity|]. intros i.
    apply listed_serialize; try reflexivity.
    + apply sha256_hex_plain, example_swarm_id_hex.
    + vm_compute. discriminate.
    + vm_compute. discriminate.
    + exact example_state_ok.
Qed.

Lemma example_chunk_1_new : 1 ∉ completed_set example_state.
Proof. intros H%example_state_set. discriminate. Qed.

Lemma example_store_ok_result :
  (write_verified_chunk example_partial example_manifest 1 (str "o wo") (example_disk, example_state)).1 = Ok tt.
Proof. vm_compute. reflexivity. Qed.

Lemma store_chunk_crash_safe_witness :
  let '(r, (s', st')) := write_verified_chunk example_partial example_manifest 1 (str "o wo")
                           (example_disk, example_state) in
  r = Ok tt ∧ completed_set st' = {[1]} ∪ completed_set example_state ∧
  ∃ hs, history s' = hs ∧
    Forall (crash_safe example_manifest example_partial example_resume example_swarm_id) hs.
Proof.
  pose proof (store_chunk_crash_safe example_manifest example_partial example_resume example_swarm_id
    example_disk example_state 1 (str "o wo") example_layout example_disk_ok example_in_step
    ltac:(split; [lia|reflexivity]) ltac:(split; vm_compute; reflexivity) example_chunk_1_new) as H.
  pose proof example_store_ok_result as Hr.
  destruct (write_verified_chunk _ _ _ _ _) as [r [s' st']]. cbn [fst] in Hr. subst r.
  destruct H as (_ & _ & Hh & _ & Hset & _). split; [reflexivity|]. split; [exact Hset|exact Hh].
Defined.

(** A resume file that lists chunks 0 and 1 of that partial file. *)
Definition example_claim : ResumeStore :=
  {| path_ := example_resume; swarm_id_ := example_swarm_id; chunk_count_ := 3;
     completed_ := [true; true; false]; revision_ := 0; dirty_ := false |}.
Definition example_restart : os :=
  {| files := {[ example_partial := example_partial_file ]}; fds := ∅; next_fd := 3; bad_closes := 0;
     script := [Works; Works; Short 3; Interrupted]; history := [] |}.

Lemma example_restart_ok : os_ok example_restart.
Proof.
  split; [done|]. intros fd [z Hz]. change (fds example_restart) with (∅ : gmap Z descriptor) in Hz.
  by rewrite lookup_empty in Hz.
Qed.

Lemma example_resumable :
  resumable example_manifest example_partial example_resume example_swarm_id (files example_restart)
    example_claim (files example_restart) example_partial_file.
Proof.
  split; [split_and!; done|]. split; [reflexivity|]. split; [reflexivity|]. split; [reflexivity|].
  split; [apply lookup_singleton_eq|]. split; [reflexivity|]. split; [done|].
  intros r H. change (files example_restart) with
    ({[ example_partial := example_partial_file ]} : gmap bytes file) in H.
  rewrite lookup_singleton_ne in H by (vm_compute; discriminate). discriminate.
Qed.

Lemma revalidate_exact_witness :
  let '(r, (s', st')) := revalidate_completed_chunks example_partial example_manifest
                           (example_restart, example_claim) in
  r = Ok tt ∧ completed_chunks st' = [0] ∧
  ∀ i, i ∈ completed_set st' ↔ i ∈ completed_set example_claim ∧
    verified example_manifest i (chunk_bytes example_manifest (data example_partial_file) i).
Proof.
  pose proof (revalidate_exact example_manifest example_partial example_resume example_swarm_id
    example_restart example_claim example_partial_file example_layout example_restart_ok
    example_resumable) as H.
  assert ((revalidate_completed_chunks example_partial example_manifest
             (example_restart, example_claim)).1 = Ok tt) as Hr by (vm_compute; reflexivity).
  assert (completed_chunks (revalidate_completed_chunks example_partial example_manifest
             (example_restart, example_claim)).2.2 = [0]) as Hc by (vm_compute; reflexivity).
  destruct (revalidate_completed_chunks _ _ _) as [r [s' st']]. cbn in Hr, Hc. subst r.
  destruct H as (_ & _ & Hk & _). split; [reflexivity|]. split; [exact Hc|exact Hk].
Defined.
