(* ===== verification/Workers.v ===== *)
(** * Workers: the worker threads of [DownloadCoordinator::run]

    src/src/download.cpp: the lambda the workers run, as a step relation over
    the shared counter, the failure flag and slot, the store with its files and
    the position of every thread.  A fetch sees any network; storing a chunk is
    one step because it holds the write mutex from its first line to its last. *)

From S2P Require Export Prelude.
From S2P Require Import Hoare Text Crypto Protocol Posix Stream Net Manifest ResumeStore.
From S2P Require Import Tracker PeerServer Download Persist Durable.

#[local] Open Scope Z_scope.

(** ** Definitions *)

(** Where a worker is. *)
Inductive phase :=
| W_test                               (* [while (!failed.load())] *)
| W_claim                              (* [next_index.fetch_add(1U)] *)
| W_check (index : Z)                  (* the two tests of the index *)
| W_fetch (index : Z)                  (* [fetch_with_retry] *)
| W_write (index : Z) (data : bytes)   (* [write_verified_chunk] *)
| W_announce                           (* [announce_current] *)
| W_record (e : exn)                   (* in [catch (...)], before the slot *)
| W_fail                               (* before [failed.store(true)] *)
| W_done.

Record pool := {
  next_index : Z;
  failed_flag : bool;
  failure : option exn;
  retry_events : Z;
  disk : os * ResumeStore;
  threads : list phase
}.

Definition with_thread (k : nat) (ph : phase) (s : pool) : pool :=
  {| next_index := next_index s; failed_flag := failed_flag s; failure := failure s;
     retry_events := retry_events s; disk := disk s; threads := <[k := ph]> (threads s) |}.

Section Workers.
Context `{HE : Evp, !EvpLaws}.
Variables (config : DownloadConfig) (tracker : TrackerClient) (id partial : bytes) (server : Endpoint).

#[local] Abbreviation m := (dc_manifest config).
#[local] Abbreviation count := (len (chunk_hashes (dc_manifest config))).

(** [announce_current()]; [server] is the member [endpoint_] of the peer
    server. *)
Definition announce_current (st : ResumeStore) : io net unit :=
  do endpoint <- lift (peer_endpoint server);
  client_announce tracker
    {| pa_swarm_id := id; pa_peer_id := dc_peer_id config; pa_listen_port := port endpoint;
       pa_chunks := completed_chunks st; pa_has_all_chunks := all_complete st |}.

(** One step of worker [k]. *)
Inductive worker_move (k : nat) (s : pool) : pool → Prop :=
| move_test : threads s !! k = Some W_test →
    worker_move k s (with_thread k (if failed_flag s then W_done else W_claim) s)
| move_claim : threads s !! k = Some W_claim →
    worker_move k s
      {| next_index := u32 (next_index s + 1); failed_flag := failed_flag s; failure := failure s;
         retry_events := retry_events s; disk := disk s;
         threads := <[k := W_check (next_index s)]> (threads s) |}
| move_past_end index : threads s !! k = Some (W_check index) → count ≤ index →
    worker_move k s (with_thread k W_done s)
| move_check index b : threads s !! k = Some (W_check index) → index < count →
    complete index (disk s).2 = Ok b →
    worker_move k s (with_thread k (if b then W_test else W_fetch index) s)
| move_fetch index n r n' events : threads s !! k = Some (W_fetch index) → net_ok n →
    fetch_with_retry tracker config id index (n, retry_events s) = (r, (n', events)) →
    worker_move k s
      {| next_index := next_index s; failed_flag := failed_flag s; failure := failure s;
         retry_events := events; disk := disk s;
         threads := <[k := match r with Ok data => W_write index data | Throw e => W_record e end]>
                      (threads s) |}
| move_write index data r d : threads s !! k = Some (W_write index data) →
    write_verified_chunk partial m index data (disk s) = (r, d) →
    worker_move k s
      {| next_index := next_index s; failed_flag := failed_flag s; failure := failure s;
         retry_events := retry_events s; disk := d;
         threads := <[k := match r with Ok _ => W_announce | Throw e => W_record e end]> (threads s) |}
| move_announce n r n' : threads s !! k = Some W_announce → net_ok n →
    announce_current (disk s).2 n = (r, n') →
    worker_move k s
      (with_thread k (match r with Ok _ | Throw (Error _) => W_test | Throw e => W_record e end) s)
| move_record e : threads s !! k = Some (W_record e) →
    worker_move k s
      {| next_index := next_index s; failed_flag := failed_flag s;
         failure := match failure s with None => Some e | Some e' => Some e' end;
         retry_events := retry_events s; disk := disk s; threads := <[k := W_fail]> (threads s) |}
| move_fail : threads s !! k = Some W_fail →
    worker_move k s
      {| next_index := next_index s; failed_flag := true; failure := failure s;
         retry_events := retry_events s; disk := disk s; threads := <[k := W_done]> (threads s) |}.

Definition pool_step (s s' : pool) : Prop := ∃ k, worker_move k s s'.

(** After the threads were created. *)
Definition pool_start (d : os * ResumeStore) : pool :=
  {| next_index := 0; failed_flag := false; failure := None; retry_events := 0; disk := d;
     threads := replicate (Z.to_nat (dc_worker_count config)) W_test |}.

(** The step thread [k] takes when its network is [n]. *)
Definition advance (n : net) (k : nat) (s : pool) : pool :=
  match threads s !! k with
  | Some W_test => with_thread k (if failed_flag s then W_done else W_claim) s
  | Some W_claim =>
      {| next_index := u32 (next_index s + 1); failed_flag := failed_flag s; failure := failure s;
         retry_events := retry_events s; disk := disk s;
         threads := <[k := W_check (next_index s)]> (threads s) |}
  | Some (W_check index) =>
      if count <=? index then with_thread k W_done s
      else match complete index (disk s).2 with
           | Ok b => with_thread k (if b : bool then W_test else W_fetch index) s
           | Throw _ => s
           end
  | Some (W_fetch index) =>
      let '(r, (_, events)) := fetch_with_retry tracker config id index (n, retry_events s) in
      {| next_index := next_index s; failed_flag := failed_flag s; failure := failure s;
         retry_events := events; disk := disk s;
         threads := <[k := match r with Ok data => W_write index data | Throw e => W_record e end]>
                      (threads s) |}
  | Some (W_write index data) =>
      let '(r, d) := write_verified_chunk partial m index data (disk s) in
      {| next_index := next_index s; failed_flag := failed_flag s; failure := failure s;
         retry_events := retry_events s; disk := d;
         threads := <[k := match r with Ok _ => W_announce | Throw e => W_record e end]> (threads s) |}
  | Some W_announce =>
      let '(r, _) := announce_current (disk s).2 n in
      with_thread k (match r with Ok _ | Throw (Error _) => W_test | Throw e => W_record e end) s
  | Some (W_record e) =>
      {| next_index := next_index s; failed_flag := failed_flag s;
         failure := match failure s with None => Some e | Some e' => Some e' end;
         retry_events := retry_events s; disk := disk s; threads := <[k := W_fail]> (threads s) |}
  | Some W_fail =>
      {| next_index := next_index s; failed_flag := true; failure := failure s;
         retry_events := retry_events s; disk := disk s; threads := <[k := W_done]> (threads s) |}
  | Some W_done | None => s
  end.

(** A scheduler: the first thread that has not ended, with the network of that
    moment. *)
Fixpoint first_active (k : nat) (l : list phase) : option nat :=
  match l with
  | [] => None
  | W_done :: l' => first_active (S k) l'
  | _ :: _ => Some k
  end.

Fixpoint schedule (fuel : nat) (nets : pool → net) (s : pool) : pool :=
  match fuel, first_active 0 (threads s) with
  | S fuel', Some k => schedule fuel' nets (advance (nets s) k s)
  | _, _ => s
  end.

(** Every [join] returns. *)
Definition joined (s : pool) : Prop := Forall (λ ph, ph = W_done) (threads s).

End Workers.

(** ** Invariant *)

(** The index a thread works on. *)
Definition held (ph : phase) : option Z :=
  match ph with W_check i | W_fetch i | W_write i _ => Some i | _ => None end.

Definition holds_index (s : pool) (k : nat) (i : Z) : Prop :=
  ∃ ph, threads s !! k = Some ph ∧ held ph = Some i.

Section Invariant.
Context `{HE : Evp, !EvpLaws}.
Variables (config : DownloadConfig) (tracker : TrackerClient) (id partial resume : bytes)
  (server : Endpoint) (base : gmap bytes file) (h0 : list (gmap bytes file)) (d0 : gmap Z descriptor) (b0 : Z).

#[local] Abbreviation m := (dc_manifest config).
#[local] Abbreviation count := (len (chunk_hashes (dc_manifest config))).
#[local] Abbreviation done s := (completed_set (disk s).2).
#[local] Abbreviation move := (worker_move config tracker id partial server).

(** What a thread may rely on. *)
Definition phase_ok (s : pool) (ph : phase) : Prop :=
  match ph with
  | W_check i => 0 ≤ i < next_index s
  | W_fetch i => 0 ≤ i < next_index s ∧ i < count ∧ i ∉ done s
  | W_write i data => 0 ≤ i < next_index s ∧ i < count ∧ i ∉ done s ∧ verified m i data
  | W_record e => e ≠ Diverged
  | W_fail => failure s ≠ None
  | W_done => count ≤ next_index s ∨ failure s ≠ None
  | _ => True
  end.

(** An index is accounted for. *)
Definition settled (s : pool) (i : Z) : Prop :=
  i ∈ done s ∨ (∃ k, holds_index s k i) ∨ failure s ≠ None ∨ ∃ k e, threads s !! k = Some (W_record e).

(** The files and the store are in step, and every file system since [h0] was
    safe. *)
Definition disk_ok (d : os * ResumeStore) : Prop :=
  ∃ sc, at_state (safe m partial resume id base) h0 (files d.1) d0 b0 sc d.1 ∧
        in_step m partial resume id base d.2 (files d.1).

(** The threads that ran past the last index. *)
Definition past (ph : phase) : nat :=
  match ph with W_check i => if count <=? i then 1 else 0 | W_done => 1 | _ => 0 end.

Record pool_ok (s : pool) : Prop := {
  pool_disk : disk_ok (disk s);
  pool_next : 0 ≤ next_index s ≤ count + Z.of_nat (sum_list_with past (threads s));
  pool_phases : ∀ k ph, threads s !! k = Some ph → phase_ok s ph;
  pool_unique : ∀ k1 k2 i, holds_index s k1 i → holds_index s k2 i → k1 = k2;
  pool_settled : ∀ i, 0 ≤ i < Z.min (next_index s) count → settled s i;
  pool_flag : failed_flag s = true → failure s ≠ None;
  pool_failure : failure s ≠ Some Diverged
}.

Hypothesis names_ok : layout m partial resume id.

(** *** The disk *)

Lemma disk_write index data d r d' :
  disk_ok d → 0 ≤ index < count → verified m index data → index ∉ completed_set d.2 →
  write_verified_chunk partial m index data d = (r, d') →
  disk_ok d' ∧
  match r with
  | Ok _ => completed_set d'.2 = {[index]} ∪ completed_set d.2
  | Throw e => e ≠ Diverged ∧ completed_set d.2 ⊆ completed_set d'.2 ∧
               completed_set d'.2 ⊆ {[index]} ∪ completed_set d.2
  end.
Proof.
  intros (sc & Hs & Hin) Hi Hv Hn Hw. destruct d as [s st]. cbn [fst snd] in *.
  destruct names_ok as [Hm Hpl Hid Hres Hne Htmp].
  destruct (proj1 (in_step_holds _ _ _ _ _ _ _ Hin)) as (p & Hp & _).
  pose proof (write_verified_triple m partial resume id base Hm Hpl Hid Hres Hne Htmp (files s) d0 b0 h0
    st index data p Hin Hi Hv Hn Hp (s, st)) as Ht.
  specialize (Ht (conj (ex_intro _ sc Hs) eq_refl)). rewrite Hw in Ht.
  destruct r as [u|e], d' as [s' st']; cbn [fst snd].
  - destruct Ht as (f & sc' & Hs' & Hin' & _ & Hset & _). pose proof (at_files _ _ _ _ _ _ _ Hs') as <-.
    split; [|done]. by exists sc'.
  - destruct Ht as (He & Hst & f & sc' & Hs' & Hin'). pose proof (at_files _ _ _ _ _ _ _ Hs') as <-.
    split; [by exists sc'|]. split; [done|]. destruct Hst as [->| ->]; [set_solver|].
    rewrite completed_set_set; [set_solver|apply Hin|by rewrite (in_step_count _ _ _ _ _ _ _ Hin)].
Qed.

(** *** One thread moves *)

Lemma sum_insert (f : phase → nat) l k x y :
  l !! k = Some x → (sum_list_with f (<[k := y]> l) + f x = sum_list_with f l + f y)%nat.
Proof.
  revert k. induction l as [|z l IH]; intros [|k] Hk; simpl in *; simplify_eq; [lia|].
  specialize (IH k Hk). lia.
Qed.

(** What does not concern the moving thread survives: the counter grows, the
    set grows by what that thread held, a failure stays. *)
Lemma phase_ok_mono s s' ph :
  next_index s ≤ next_index s' → (failure s ≠ None → failure s' ≠ None) →
  (∀ i, held ph = Some i → i ∈ done s' → i ∈ done s) →
  phase_ok s ph → phase_ok s' ph.
Proof.
  intros Hn Hf Hd. destruct ph; cbn [phase_ok held] in *; try done; auto.
  - lia.
  - intros (? & ? & Hnew). split_and!; try lia. eauto.
  - intros (? & ? & Hnew & ?). split_and!; try lia; eauto.
  - intros [?|?]; [left; lia|auto].
Qed.

(** The step of thread [k] from [ph] to [ph'] keeps the invariant if it
    accounts for itself. *)
Lemma pool_ok_move s s' k ph ph' :
  pool_ok s → threads s !! k = Some ph → threads s' = <[k := ph']> (threads s) →
  disk_ok (disk s') →
  next_index s ≤ next_index s' ≤ next_index s + Z.of_nat (past ph' - past ph) + (if bool_decide (next_index s < count) then 1 else 0) →
  (past ph ≤ past ph')%nat →
  done s ⊆ done s' → (∀ i, i ∈ done s' → i ∈ done s ∨ held ph = Some i) →
  (failure s ≠ None → failure s' ≠ None) → failure s' ≠ Some Diverged →
  (failed_flag s' = true → failure s' ≠ None) →
  phase_ok s' ph' →
  (∀ i, held ph' = Some i → held ph = Some i ∨ i = next_index s) →
  (∀ i, held ph = Some i → i < count → settled s' i) →
  (∀ e, ph = W_record e → failure s' ≠ None) →
  (next_index s < next_index s' → held ph' = Some (next_index s) ∧ next_index s' = next_index s + 1) →
  pool_ok s'.
Proof.
  intros [Hdisk Hnext Hph Huniq Hset Hflag Hfail] Hk Ht Hd' Hn' Hpast Hsub Hnew Hf Hfd Hflag' Hok' Hheld' Hheld Hrec Hclaim.
  assert (k < length (threads s))%nat as Hlt by (by eapply lookup_lt_Some).
  assert (∀ j q, threads s' !! j = Some q → j = k ∧ q = ph' ∨ j ≠ k ∧ threads s !! j = Some q) as Hlook.
  { intros j q. rewrite Ht. destruct (decide (j = k)) as [->|Hj].
    - rewrite list_lookup_insert_eq by done. intros [= <-]. by left.
    - rewrite list_lookup_insert_ne by done. by right. }
  constructor; try done.
  - split; [lia|]. rewrite Ht. pose proof (sum_insert past (threads s) k ph ph' Hk) as Hsum.
    case_bool_decide; lia.
  - intros j q [[-> ->]|[Hj Hq]]%Hlook; [done|].
    apply (phase_ok_mono s); [lia|done| |by eapply Hph].
    intros i Hi Hin. destruct (Hnew i Hin) as [?|Hi2]; [done|].
    destruct Hj. apply (Huniq j k i); eexists; eauto.
  - assert (∀ j i, holds_index s' j i → holds_index s j i ∨ j = k ∧ i = next_index s) as Hh.
    { intros j i (q & [[-> ->]|[Hj Hq]]%Hlook & Hi); [|left; by exists q].
      destruct (Hheld' i Hi) as [?| ->]; [left; by exists ph|by right]. }
    assert (∀ j, ¬ holds_index s j (next_index s)) as Hfree.
    { intros j (q & Hq & Hi). specialize (Hph j q Hq). destruct q; simpl in *; simplify_eq; lia. }
    intros k1 k2 i [H1|[-> ->]]%Hh [H2|[-> E]]%Hh; eauto; [subst i; by destruct (Hfree k1)|by destruct (Hfree k2)].
  - intros i Hi. destruct (Z.eq_dec i (next_index s)) as [->|Hne].
    { right. left. exists k, ph'. rewrite Ht, list_lookup_insert_eq by done. split; [done|]. apply Hclaim. lia. }
    assert (i < next_index s) as Hi2.
    { destruct (Z.le_gt_cases (next_index s') (next_index s)); [lia|]. destruct (Hclaim ltac:(lia)). lia. }
    destruct (Hset i ltac:(lia)) as [Hin|[(j & q & Hq & Hi3)|[Hfa|(j & e & Hj)]]].
    + left. by apply Hsub.
    + destruct (decide (j = k)) as [->|Hj].
      * assert (q = ph) as -> by congruence. apply Hheld; [done|lia].
      * right. left. exists j, q. split; [|done]. by rewrite Ht, list_lookup_insert_ne.
    + right. right. left. by apply Hf.
    + destruct (decide (j = k)) as [->|Hjk].
      * right. right. left. apply (Hrec e). congruence.
      * right. right. right. exists j, e. by rewrite Ht, list_lookup_insert_ne.
Qed.

Lemma announce_no_diverge st n r n' :
  net_ok n → announce_current config tracker id server st n = (r, n') → r ≠ Throw Diverged.
Proof.
  intros Hn. unfold announce_current, bind at 1, lift, peer_endpoint, throw.
  destruct (_ || _); [by intros [= <- _]|]. intros Ha.
  pose proof (client_announce_safe tracker
    {| pa_swarm_id := id; pa_peer_id := dc_peer_id config; pa_listen_port := port server;
       pa_chunks := completed_chunks st; pa_has_all_chunks := all_complete st |} n Hn) as Hs.
  rewrite Ha in Hs. destruct r as [|e]; [done|]. by destruct Hs as [[w ->] _].
Qed.

Lemma complete_spec d i :
  disk_ok d → 0 ≤ i < count → complete i d.2 = Ok (bool_decide (i ∈ completed_set d.2)).
Proof.
  intros (sc & _ & Hin) Hi. pose proof (in_step_ok _ _ _ _ _ _ _ Hin) as Hst.
  pose proof (in_step_count _ _ _ _ _ _ _ Hin) as Hc.
  unfold complete. rewrite check_index_spec, Hc, decide_True by lia. cbn [rbind]. f_equal.
  symmetry. destruct (completed_at d.2 i) eqn:E.
  - apply bool_decide_eq_true_2, elem_of_completed; [done|]. by rewrite Hc.
  - apply bool_decide_eq_false_2. rewrite elem_of_completed by done. intros [_ ?]. congruence.
Qed.

(** An index is accounted for by the thread that just moved. *)
Lemma settled_here s k ph i :
  (k < length (threads s))%nat → held ph = Some i ∨ (∃ e, ph = W_record e) →
  ∀ s', threads s' = <[k := ph]> (threads s) → settled s' i.
Proof.
  intros Hk Hph s' Ht. assert (threads s' !! k = Some ph) as Hl by (by rewrite Ht, list_lookup_insert_eq).
  destruct Hph as [Hph|[e ->]]; right; [left; by exists k, ph|right; right; by exists k, e].
Qed.

Lemma past_le_threads l : (sum_list_with past l ≤ length l)%nat.
Proof.
  induction l as [|ph l IH]; simpl; [lia|]. assert (past ph ≤ 1)%nat; [|lia].
  destruct ph; simpl; try lia. destruct (count <=? index); lia.
Qed.

Ltac quick :=
  cbn; try done; auto; try (intros; simplify_eq; repeat case_match; by auto || lia).

(** Each kind of move that changes more than its own thread. *)
Ltac moves s k Hok Hk := eapply (pool_ok_move s _ k); [exact Hok|exact Hk|reflexivity|..].

Lemma pool_ok_claim k s :
  count + len (threads s) < 2 ^ 32 → pool_ok s → threads s !! k = Some W_claim →
  pool_ok {| next_index := u32 (next_index s + 1); failed_flag := failed_flag s;
             failure := failure s; retry_events := retry_events s; disk := disk s;
             threads := <[k := W_check (next_index s)]> (threads s) |}.
Proof.
  intros Hsize Hok Hk. pose proof Hok as [Hdisk Hnext Hph Huniq Hset Hflag Hfail].
  pose proof (len_nonneg (chunk_hashes m)) as Hc0.
  pose proof (past_le_threads (threads s)) as Hpast.
  pose proof (sum_insert past (threads s) k _ W_done Hk) as Hsum. cbn [past] in Hsum.
  pose proof (past_le_threads (<[k := W_done]> (threads s))) as Hpast2. rewrite length_insert in Hpast2.
  assert (u32 (next_index s + 1) = next_index s + 1) as Hu
    by (apply u32_small; unfold len in Hsize, Hnext; lia).
  moves s k Hok Hk; cbn; rewrite ?Hu; quick.
  case_bool_decide; destruct (Z.leb_spec count (next_index s)); lia.
Qed.

Lemma pool_ok_fetch k s i n r n' events :
  pool_ok s → threads s !! k = Some (W_fetch i) → net_ok n →
  fetch_with_retry tracker config id i (n, retry_events s) = (r, (n', events)) →
  pool_ok {| next_index := next_index s; failed_flag := failed_flag s; failure := failure s;
             retry_events := events; disk := disk s;
             threads := <[k := match r with Ok data => W_write i data | Throw e => W_record e end]>
                          (threads s) |}.
Proof.
  intros Hok Hk Hn Hr. pose proof Hok as [Hdisk Hnext Hph Huniq Hset Hflag Hfail].
  pose proof (Hph k _ Hk) as Hp; cbn [phase_ok] in Hp.
  pose proof (retry_loop_verified (Z.to_nat (dc_max_retries config)) tracker config id i 0
    (str "no active peer advertised this chunk") (n, retry_events s) Hn) as Hf.
  unfold fetch_with_retry in Hr. rewrite Hr in Hf.
  moves s k Hok Hk; destruct r as [data|e]; quick.
  - destruct Hp as (? & ? & ?). by split_and!; try lia.
  - by destruct Hf as [w ->].
  - intros j [= <-] _. apply (settled_here s k (W_write i data)); [by eapply lookup_lt_Some|by left|done].
  - intros j [= <-] _. apply (settled_here s k (W_record e)); [by eapply lookup_lt_Some|right; eauto|done].
Qed.

Lemma pool_ok_write k s i data r d :
  pool_ok s → threads s !! k = Some (W_write i data) →
  write_verified_chunk partial m i data (disk s) = (r, d) →
  pool_ok {| next_index := next_index s; failed_flag := failed_flag s; failure := failure s;
             retry_events := retry_events s; disk := d;
             threads := <[k := match r with Ok _ => W_announce | Throw e => W_record e end]>
                          (threads s) |}.
Proof.
  intros Hok Hk Hr. pose proof Hok as [Hdisk Hnext Hph Huniq Hset Hflag Hfail].
  pose proof (Hph k _ Hk) as (Hi1 & Hi2 & Hnew & Hv).
  destruct (disk_write i data (disk s) r d) as [Hd Hset']; [done|lia|done..|].
  moves s k Hok Hk; destruct r as [u|e]; quick.
  - set_solver.
  - by destruct Hset' as (_ & ? & _).
  - rewrite Hset'. set_solver.
  - destruct Hset' as (_ & _ & Hs). intros j Hj%Hs. set_solver.
  - by destruct Hset' as (? & _).
  - intros j [= <-] _. left. cbn. rewrite Hset'. set_solver.
  - intros j [= <-] _. apply (settled_here s k (W_record e)); [by eapply lookup_lt_Some|right; eauto|done].
Qed.

Lemma pool_ok_step k s s' :
  count + len (threads s) < 2 ^ 32 → pool_ok s → move k s s' → pool_ok s'.
Proof.
  intros Hsize Hok Hmove. pose proof Hok as [Hdisk Hnext Hph Huniq Hset Hflag Hfail].
  destruct Hmove as [Hk|Hk|i Hk Hi|i b Hk Hi Hb|i n r n' ev Hk Hn Hr|i data r d Hk Hr|n r n' Hk Hn Hr|e Hk|Hk];
    [|by apply pool_ok_claim| | |by eapply pool_ok_fetch|by eapply pool_ok_write|..];
    pose proof (Hph k _ Hk) as Hp; cbn [phase_ok] in Hp.
  - (* the loop test *)
    moves s k Hok Hk; quick. destruct (failed_flag s); cbn; auto.
  - (* past the end *)
    moves s k Hok Hk; quick.
  - (* the test of the store *)
    rewrite complete_spec in Hb by (done || lia). injection Hb as <-.
    moves s k Hok Hk; case_bool_decide; quick.
    + by intros j [= <-] _; left.
    + intros j [= <-] _. apply (settled_here s k (W_fetch i)); [by eapply lookup_lt_Some|by left|done].
  - (* the announcement *)
    pose proof (announce_no_diverge _ n r n' Hn Hr) as Hnd.
    moves s k Hok Hk; destruct r as [u|[w|w|]]; quick.
  - (* the failure slot *)
    moves s k Hok Hk; quick. destruct (failure s); [done|congruence].
  - (* the failure flag *)
    moves s k Hok Hk; quick.
Qed.

(** *** From start to join *)

#[local] Abbreviation start d := (pool_start config d).
#[local] Abbreviation step := (pool_step config tracker id partial server).

Lemma start_lookup d k ph : threads (start d) !! k = Some ph → ph = W_test.
Proof. by intros [-> _]%lookup_replicate. Qed.

Lemma pool_ok_start d : disk_ok d → pool_ok (start d).
Proof.
  intros Hd. pose proof (len_nonneg (chunk_hashes m)) as Hc.
  constructor; try done.
  - change (next_index (start d)) with 0. lia.
  - by intros k ph ->%start_lookup.
  - intros k1 k2 i (ph & ->%start_lookup & [=]) _.
  - change (next_index (start d)) with 0. lia.
Qed.

Lemma step_threads s s' : step s s' → length (threads s') = length (threads s).
Proof. intros [k Hm]. destruct Hm; cbn [threads with_thread]; by rewrite length_insert. Qed.

Lemma pool_reachable_ok n s0 s :
  pool_ok s0 → count + len (threads s0) < 2 ^ 32 → nsteps step n s0 s →
  pool_ok s ∧ length (threads s) = length (threads s0).
Proof.
  intros Hok Hsize Hs. revert Hok Hsize.
  induction Hs as [s|n s s1 s2 Hstep Hs IH]; intros Hok Hsize; [done|].
  pose proof (step_threads s s1 Hstep) as Hl. destruct Hstep as [k Hm].
  destruct IH as [Hok2 Hl2]; [by eapply pool_ok_step|unfold len in *; lia|]. by rewrite Hl2.
Qed.

(** All threads gone and no failure: every chunk is there. *)
Lemma joined_complete s :
  pool_ok s → joined s → threads s ≠ [] → failure s = None → all_complete (disk s).2 = true.
Proof.
  intros [Hdisk Hnext Hph _ Hset Hflag _] Hj Hne Hf.
  assert (∀ k ph, threads s !! k = Some ph → ph = W_done) as Hdone.
  { intros k ph Hk. unfold joined in Hj. rewrite Forall_lookup in Hj. by eapply Hj. }
  assert (count ≤ next_index s) as Hn.
  { destruct (threads s) as [|ph l] eqn:E; [done|]. assert (ph = W_done) as -> by (by apply (Hdone 0%nat)).
    by destruct (Hph 0%nat W_done eq_refl) as [?|[]]. }
  destruct Hdisk as (sc & _ & Hin). apply all_complete_spec; [apply Hin|].
  rewrite (in_step_count _ _ _ _ _ _ _ Hin). intros i Hi.
  destruct (Hset i ltac:(lia)) as [?|[(k & ph & Hk & Hh)|[?|(k & e & Hk)]]]; [done|..|done|].
  - by rewrite (Hdone k ph Hk) in Hh.
  - by specialize (Hdone k _ Hk).
Qed.

(** *** Termination *)

Definition weight (ph : phase) : nat :=
  match ph with
  | W_done => 0
  | W_fail => 1
  | W_record _ => 2
  | W_claim => 3
  | W_test => 4
  | W_announce => 5
  | W_write _ _ => 6
  | W_fetch _ => 7
  | W_check i => if count <=? i then 1 else 8
  end.

Definition measure (s : pool) : nat :=
  6 * Z.to_nat (count - next_index s) + sum_list_with weight (threads s).

Lemma step_measure s s' :
  count + len (threads s) < 2 ^ 32 → pool_ok s → step s s' → (measure s' < measure s)%nat.
Proof.
  intros Hsize [Hdisk Hnext Hph _ _ _ _] [k Hm]. pose proof (past_le_threads (threads s)) as Hpast.
  assert (∀ x y, threads s !! k = Some x →
    (sum_list_with weight (<[k := y]> (threads s)) + weight x =
     sum_list_with weight (threads s) + weight y)%nat) as Hsum by (intros; by apply sum_insert).
  unfold measure.
  destruct Hm as [Hk|Hk|i Hk Hi|i b Hk Hi Hb|i n r n' ev Hk Hn Hr|i data r d Hk Hr|n r n' Hk Hn Hr|e Hk|Hk];
    cbn [next_index threads with_thread];
    match goal with |- context [<[k := ?y]> _] => specialize (Hsum _ y Hk) end;
    cbn [weight] in Hsum.
  2:{ pose proof (sum_insert past (threads s) k _ W_done Hk) as Hp. cbn [past] in Hp.
      pose proof (past_le_threads (<[k := W_done]> (threads s))) as Hp2. rewrite length_insert in Hp2.
      rewrite u32_small by (unfold len in Hsize, Hnext; lia).
      destruct (Z.leb_spec count (next_index s)); lia. }
  all: repeat case_match; cbn [weight] in Hsum; try (destruct (Z.leb_spec count i)); lia.
Qed.

#[global] Instance done_dec ph : Decision (ph = W_done).
Proof. destruct ph; by (left + right). Defined.
#[global] Instance joined_dec s : Decision (joined s).
Proof. apply Forall_dec. apply _. Defined.

Lemma advance_move n k s ph :
  pool_ok s → net_ok n → threads s !! k = Some ph → ph ≠ W_done →
  move k s (advance config tracker id partial server n k s).
Proof.
  intros [Hdisk Hnext Hph _ _ _ _] Hn Hk Hne. pose proof (Hph k ph Hk) as Hp. unfold advance. rewrite Hk.
  destruct ph as [| |i|i|i data| |e| |]; [..|done].
  - by apply move_test.
  - by apply move_claim.
  - destruct (Z.leb_spec count i); [by eapply move_past_end|].
    cbn [phase_ok] in Hp. rewrite (complete_spec (disk s) i) by (done || lia).
    eapply move_check; [done|done|]. apply complete_spec; [done|lia].
  - destruct (fetch_with_retry tracker config id i (n, retry_events s)) as [r [n' ev]] eqn:E.
    by eapply move_fetch.
  - destruct (write_verified_chunk partial m i data (disk s)) as [r d] eqn:E. by eapply move_write.
  - destruct (announce_current config tracker id server (disk s).2 n) as [r n'] eqn:E.
    by eapply move_announce.
  - by apply move_record.
  - by apply move_fail.
Qed.

Lemma first_active_spec k l :
  match first_active k l with
  | Some j => ∃ ph, (k ≤ j)%nat ∧ l !! (j - k)%nat = Some ph ∧ ph ≠ W_done
  | None => Forall (λ ph, ph = W_done) l
  end.
Proof.
  revert k. induction l as [|ph l IH]; intros k; cbn [first_active]; [constructor|].
  destruct ph; try (eexists; rewrite Nat.sub_diag; by split_and!).
  specialize (IH (S k)). destruct (first_active (S k) l) as [j|]; [|by constructor].
  destruct IH as (ph & Hj & Hl & Hne). exists ph. split_and!; [lia| |done].
  by replace (j - k)%nat with (S (j - S k)) by lia.
Qed.

Lemma step_exists s : pool_ok s → ¬ joined s → ∃ s', step s s'.
Proof.
  intros Hok Hj. pose proof (first_active_spec 0 (threads s)) as Ha.
  destruct (first_active 0 (threads s)) as [k|]; [|done]. destruct Ha as (ph & _ & Hk & Hne).
  rewrite Nat.sub_0_r in Hk. eexists. exists k.
  by apply (advance_move {| dials := []; used := [] |} k s ph); [|constructor|..].
Qed.

Lemma steps_bounded n s s' :
  pool_ok s → count + len (threads s) < 2 ^ 32 → nsteps step n s s' → (n + measure s' ≤ measure s)%nat.
Proof.
  intros Hok Hsize Hs. revert Hok Hsize.
  induction Hs as [s|n s s1 s2 Hstep Hs IH]; intros Hok Hsize; [lia|].
  pose proof (step_measure s s1 Hsize Hok Hstep). pose proof (step_threads s s1 Hstep) as Hl.
  destruct Hstep as [k Hm].
  specialize (IH (pool_ok_step k s s1 Hsize Hok Hm) ltac:(unfold len in *; lia)). lia.
Qed.

(** The scheduler ends with every thread joined. *)
Lemma schedule_joins fuel nets s :
  pool_ok s → count + len (threads s) < 2 ^ 32 → (∀ s', net_ok (nets s')) → (measure s ≤ fuel)%nat →
  let s' := schedule config tracker id partial server fuel nets s in
  rtc step s s' ∧ joined s'.
Proof.
  intros Hok Hsize Hn. revert s Hok Hsize. induction fuel as [|fuel IH]; intros s Hok Hsize Hm;
    cbn [schedule]; pose proof (first_active_spec 0 (threads s)) as Ha;
    destruct (first_active 0 (threads s)) as [k|]; try by split.
  - destruct Ha as (ph & _ & Hk & Hne). rewrite Nat.sub_0_r in Hk.
    pose proof (step_measure s _ Hsize Hok (ex_intro _ k (advance_move _ k s ph Hok (Hn s) Hk Hne))). lia.
  - destruct Ha as (ph & _ & Hk & Hne). rewrite Nat.sub_0_r in Hk.
    pose proof (advance_move (nets s) k s ph Hok (Hn s) Hk Hne) as Hmv.
    assert (step s (advance config tracker id partial server (nets s) k s)) as Hst by (by exists k).
    pose proof (step_measure s _ Hsize Hok Hst). pose proof (step_threads s _ Hst) as Hl.
    destruct (IH (advance config tracker id partial server (nets s) k s)) as [H1 H2];
      [by eapply pool_ok_step|unfold len in *; lia|lia|].
    split; [by eapply rtc_l|done].
Qed.

End Invariant.

(** ** Properties *)

(** C3: the workers share the chunks correctly: in every reachable state no
    two threads work on one index, none fetches a chunk that the store has,
    the store is in step with the files and every file system on the way was
    safe against a crash; and when all threads have ended without a failure,
    every chunk of the manifest is verified and stored. *)
Theorem workers_complete `{HE : Evp, !EvpLaws} config tracker id partial resume server os0 st0 s :
  layout (dc_manifest config) partial resume id → os_ok os0 →
  in_step (dc_manifest config) partial resume id (files os0) st0 (files os0) →
  1 ≤ dc_worker_count config →
  len (chunk_hashes (dc_manifest config)) + dc_worker_count config < 2 ^ 32 →
  rtc (pool_step config tracker id partial server) (pool_start config (os0, st0)) s →
  (∀ k1 k2 i, holds_index s k1 i → holds_index s k2 i → k1 = k2) ∧
  (∀ k i, threads s !! k = Some (W_fetch i) → i ∉ completed_set (disk s).2) ∧
  in_step (dc_manifest config) partial resume id (files os0) (disk s).2 (files (disk s).1) ∧
  (∃ hs, history (disk s).1 = history os0 ++ hs ∧
         Forall (crash_safe (dc_manifest config) partial resume id) hs) ∧
  (joined s → failure s = None → all_complete (disk s).2 = true).
Proof.
  intros Hl Hos Hin Hw Hsize [n Hs]%rtc_nsteps_1.
  assert (len (threads (pool_start config (os0, st0))) = dc_worker_count config) as Hlen
    by (unfold len; cbn; rewrite length_replicate; lia).
  destruct (pool_reachable_ok config tracker id partial resume server (files os0) (history os0) (fds os0) (bad_closes os0)
    Hl n (pool_start config (os0, st0)) s) as [Hok Hth]; [|by rewrite Hlen|exact Hs|].
  { apply pool_ok_start. exists (script os0). split; [|done].
    apply at_start; [done|]. by eapply holds_safe, in_step_holds. }
  pose proof (pool_disk _ _ _ _ _ _ _ _ _ Hok) as (sc & Hat & Hin').
  split_and!; [by eapply pool_unique| |done| |].
  - intros k i Hk. apply (pool_phases _ _ _ _ _ _ _ _ _ Hok k _ Hk).
  - destruct Hat as [_ _ _ _ (hs & Hh & Hsafe) _ _]. exists hs. split; [done|].
    eapply Forall_impl; [exact Hsafe|]. by intros fs [? _].
  - intros Hj Hf. eapply joined_complete; [done|done| |done].
    intros E. unfold len in Hlen. rewrite <-Hth, E in Hlen. simpl in Hlen. lia.
Qed.

(** C4: the workers always end: an execution of [worker_count] threads takes
    at most six steps per chunk and four per thread, whatever the network and
    the files do, and as long as a thread has not ended some thread can take a
    step; so every [join] returns.  The fetch of a chunk and an announcement are
    one step each: they end by themselves, in the rounds and by the timeouts
    that Download and Net model. *)
Theorem workers_terminate `{HE : Evp, !EvpLaws} config tracker id partial resume server os0 st0 n s :
  layout (dc_manifest config) partial resume id → os_ok os0 →
  in_step (dc_manifest config) partial resume id (files os0) st0 (files os0) →
  len (chunk_hashes (dc_manifest config)) + dc_worker_count config < 2 ^ 32 → 0 ≤ dc_worker_count config →
  nsteps (pool_step config tracker id partial server) n (pool_start config (os0, st0)) s →
  Z.of_nat n ≤ 6 * len (chunk_hashes (dc_manifest config)) + 4 * dc_worker_count config ∧
  (joined s ∨ ∃ s', pool_step config tracker id partial server s s').
Proof.
  intros Hl Hos Hin Hsize Hw Hs.
  assert (len (threads (pool_start config (os0, st0))) = dc_worker_count config) as Hlen
    by (unfold len; cbn; rewrite length_replicate; lia).
  assert (pool_ok config id partial resume (files os0) (history os0) (fds os0) (bad_closes os0)
    (pool_start config (os0, st0))) as H0.
  { apply pool_ok_start. exists (script os0). split; [|done].
    apply at_start; [done|]. by eapply holds_safe, in_step_holds. }
  split.
  - pose proof (steps_bounded config tracker id partial resume server _ _ _ _ Hl n _ s H0) as Hb.
    rewrite Hlen in Hb. specialize (Hb Hsize Hs). unfold measure in Hb. cbn [pool_start next_index threads] in Hb.
    assert (∀ k, sum_list_with (weight config) (replicate k W_test) = 4 * k)%nat as Hsum
      by (induction k; simpl; lia).
    rewrite Hsum in Hb. pose proof (len_nonneg (chunk_hashes (dc_manifest config))). lia.
  - destruct (pool_reachable_ok config tracker id partial resume server _ _ _ _ Hl n _ s H0) as [Hok _];
      [by rewrite Hlen|done|].
    destruct (decide (joined s)) as [?|Hj]; [by left|right]. by eapply step_exists.
Qed.

(** *** Witnesses *)

Definition example_run : pool := pool_start example_download (example_disk, example_state).

#[local] Abbreviation example_step :=
  (pool_step example_download example_client example_swarm_id example_partial
     {| host := str "127.0.0.1"; port := 7002 |}).

(** The first thread finds chunk 0 stored, the second fetches chunk 1. *)
Lemma example_steps :
  ∃ s, nsteps example_step 6 example_run s ∧ threads s !! 1%nat = Some (W_fetch 1).
Proof.
  eexists. split.
  - eapply nsteps_l; [exists 0%nat; apply move_test; reflexivity|].
    eapply nsteps_l; [exists 0%nat; apply move_claim; reflexivity|].
    eapply nsteps_l; [exists 1%nat; apply move_test; reflexivity|].
    eapply nsteps_l; [exists 1%nat; apply move_claim; reflexivity|].
    eapply nsteps_l; [exists 0%nat; apply (move_check _ _ _ _ _ _ _ 0 true); vm_compute; reflexivity|].
    eapply nsteps_l; [exists 1%nat; apply (move_check _ _ _ _ _ _ _ 1 false); vm_compute; reflexivity|].
    apply nsteps_O.
  - reflexivity.
Qed.

Lemma workers_complete_witness :
  ∃ s, threads s !! 1%nat = Some (W_fetch 1) ∧ 1 ∉ completed_set (disk s).2 ∧
    (joined s → failure s = None → all_complete (disk s).2 = true).
Proof.
  destruct example_steps as (s & Hs & Hk). exists s.
  destruct (workers_complete example_download example_client example_swarm_id example_partial example_resume
    {| host := str "127.0.0.1"; port := 7002 |} example_disk example_state s
    example_layout example_disk_ok example_in_step ltac:(vm_compute; discriminate)
    ltac:(vm_compute; reflexivity) (rtc_nsteps_2 _ _ _ Hs)) as (_ & Hnew & _ & _ & Hj).
  split; [exact Hk|]. split; [exact (Hnew 1%nat 1 Hk)|exact Hj].
Defined.

Lemma workers_terminate_witness :
  ∃ s, nsteps example_step 6 example_run s ∧ (6 ≤ 6 * 3 + 4 * 2) ∧
    (joined s ∨ ∃ s', example_step s s').
Proof.
  destruct example_steps as (s & Hs & Hk). exists s. split; [exact Hs|].
  exact (workers_terminate example_download example_client example_swarm_id example_partial example_resume
    {| host := str "127.0.0.1"; port := 7002 |} example_disk example_state 6 s
    example_layout example_disk_ok example_in_step ltac:(vm_compute; reflexivity)
    ltac:(vm_compute; discriminate) Hs).
Defined.
