(* ===== verification/Run.v ===== *)
(** * Run: [DownloadCoordinator::run]

    src/src/download.cpp: the whole download over the files, from the check of
    the final file to its publication, with every early return, and the
    [catch (...)] block.  The workers are a run of Workers that ended; the peer
    server's start and the first announcement see any outcome. *)

From S2P Require Export Prelude.
From S2P Require Import Hoare Text Crypto Protocol Posix Filestream Stream Net Manifest.
From S2P Require Import ResumeStore Tracker PeerServer Download Persist Durable Workers.

#[local] Open Scope Z_scope.

(** ** Definitions *)

(** [elapsed] is a measurement of the clock and left out. *)
Record DownloadResult := {
  dr_final_path : bytes;
  dr_completed_chunks : Z;
  dr_retry_events : Z
}.

(** [load_or_create] with its queries of the file. *)
Definition load_or_create_file (path swarm_id : bytes) (chunk_count : Z) : io os ResumeStore :=
  do store <- lift (construct path swarm_id chunk_count);
  do present <- exists_file path;
  if present : bool then
    do file <- open_for_reading path;
    do store <- lift (load_existing file store);
    ret (with_dirty store false)
  else ret store.

(** What is not determined by the files: the outcome of starting the peer
    server, the network of the first announcement, and the pool after the
    workers were joined. *)
Record environment := {
  env_server : res Endpoint;
  env_net : net;
  env_pool : os * ResumeStore → pool
}.

(** Runs an operation with the local object [resume]. *)
Definition with_store {A} (st : ResumeStore) (m : io (os * ResumeStore) A) : io os A := λ s,
  let '(r, (s', _)) := m (s, st) in (r, s').

Section Run.
Context `{Evp}.

Definition final_path (config : DownloadConfig) : bytes :=
  path_join (dc_output_directory config) (file_name (dc_manifest config)).
Definition partial_path (config : DownloadConfig) : bytes :=
  path_join (dc_output_directory config) (file_name (dc_manifest config) ++ str ".part").
Definition resume_path (config : DownloadConfig) (id : bytes) : bytes :=
  path_join (dc_output_directory config) (id ++ str ".resume").

(** [sha256_file(path)]. *)
Definition hash_file (path : bytes) : io os bytes :=
  do file <- open_for_reading path;
  lift (sha256_file path file).

(** The configuration of the peer server; [has_chunk] captures [resume] by
    reference, here as it is at that moment. *)
Definition server_config (config : DownloadConfig) (st : ResumeStore) : PeerServerConfig :=
  {| ps_manifest := dc_manifest config; ps_file_path := partial_path config;
     ps_token := dc_token config; ps_port := dc_listen_port config;
     ps_bind_address := dc_bind_address config; ps_max_connections := dc_peer_max_connections config;
     ps_has_chunk := Some (λ i, complete i st) |}.

Definition get_store : io (os * ResumeStore) ResumeStore := on_store (λ st, (Ok st, st)).

(** The end of the [try] block, after the joins. *)
Definition finish (config : DownloadConfig) (id : bytes) (events : Z) : io (os * ResumeStore) DownloadResult :=
  do _ <- flush;
  do digest <- on_os (hash_file (partial_path config));
  if negb (beq digest (file_sha256 (dc_manifest config)))
  then raise_error "Final full-file SHA-256 verification failed"
  else
    do _ <- on_os (fs_rename (partial_path config) (final_path config));
    do _ <- on_os (fs_remove (resume_path config id));
    ret {| dr_final_path := final_path config;
           dr_completed_chunks := len (chunk_hashes (dc_manifest config));
           dr_retry_events := events |}.

(** The [try] block. *)
Definition run_try (env : environment) (config : DownloadConfig) (id : bytes) (server : Endpoint)
    : io (os * ResumeStore) DownloadResult :=
  do tracker <- lift (make_client (dc_tracker_endpoint config) (dc_token config) (dc_network_timeout config));
  do st <- get_store;
  do _ <- lift (announce_current config tracker id server st (env_net env)).1;
  do workers <- (λ d, (Ok (env_pool env d), disk (env_pool env d)));
  match failure workers with
  | Some e => raise e
  | None =>
      do st <- get_store;
      if negb (all_complete st) then raise_error "Download ended before every manifest chunk was verified"
      else finish config id (retry_events workers)
  end.

(** The [catch (...)] block. *)
Definition run_cleanup (e : exn) : io (os * ResumeStore) DownloadResult :=
  do _ <- catch_error flush (λ _, ret tt);
  raise e.

(** From [revalidate_completed_chunks] on. *)
Definition run_with_store (env : environment) (config : DownloadConfig) (id : bytes)
    : io (os * ResumeStore) DownloadResult :=
  do _ <- revalidate_completed_chunks (partial_path config) (dc_manifest config);
  do st <- get_store;
  do _ <- lift (make_peer_server (server_config config st));
  do server <- lift (env_server env);
  catch_all (run_try env config id server) run_cleanup.

(** The constructor. *)
Definition make_coordinator (config : DownloadConfig) : res DownloadConfig :=
  let! _ := validate_config config in Ok config.

Definition run (env : environment) (config : DownloadConfig) : io os DownloadResult :=
  do id <- lift (swarm_id (dc_manifest config));
  do _ <- create_directories (dc_output_directory config);
  do present <- exists_file (final_path config);
  if present : bool then
    do digest <- hash_file (final_path config);
    if negb (beq digest (file_sha256 (dc_manifest config)))
    then raise_error "Existing final file does not match the selected manifest"
    else ret {| dr_final_path := final_path config;
                dr_completed_chunks := len (chunk_hashes (dc_manifest config));
                dr_retry_events := 0 |}
  else
    do has_resume <- exists_file (resume_path config id);
    do stale <- (if has_resume : bool
                 then do has_partial <- exists_file (partial_path config); ret (negb has_partial)
                 else ret false);
    if stale : bool then raise_error "Resume state exists but its partial file is missing"
    else
      do _ <- prepare_partial_file (partial_path config) (file_size_bytes (dc_manifest config));
      do store <- load_or_create_file (resume_path config id) id (u32 (len (chunk_hashes (dc_manifest config))));
      with_store store (run_with_store env config id).

End Run.

(** What an earlier run leaves: the resume file was synced, and so were the
    chunks it lists; the rest of the partial file need not be. *)
Definition settled `{Evp} (config : DownloadConfig) (id : bytes) (fs : gmap bytes file) : Prop :=
  ∀ r, fs !! resume_path config id = Some r → synced r = data r ∧
    ∀ p i, fs !! partial_path config = Some p →
      listed (dc_manifest config) (resume_path config id) id (data r) i →
      chunk_bytes (dc_manifest config) (synced p) i = chunk_bytes (dc_manifest config) (data p) i.

(** ** Names *)

Lemma path_join_inj d a b : path_join d a = path_join d b → a = b.
Proof.
  unfold path_join. destruct (last d) as [c|]; [|done].
  assert (d ++ a = d ++ b → a = b) as H1 by apply app_inv_head.
  assert (d ++ str "/" ++ a = d ++ str "/" ++ b → a = b) as H2.
  { intros E%app_inv_head. by apply app_inv_head in E. }
  repeat case_match; auto.
Qed.

Lemma path_join_nonempty d a : a ≠ [] → path_join d a ≠ [].
Proof.
  intros Ha. unfold path_join. destruct (last d) as [c|]; [|done].
  assert (d ++ a ≠ []) by (by intros [_ ?]%app_eq_nil).
  assert (d ++ str "/" ++ a ≠ []) by (intros [_ E]%app_eq_nil; by apply app_eq_nil in E as [_ ?]).
  repeat case_match; done.
Qed.

Lemma last_snoc_ne (a b : bytes) c d s t :
  c ≠ d → s = a ++ [c] → t = b ++ [d] → s ≠ t.
Proof. intros Hne -> -> E. apply app_inj_tail in E as [_ ?]. done. Qed.

Section RunProofs.
Context `{HE : Evp, !EvpLaws}.
Variables (env : environment) (config : DownloadConfig) (id : bytes).

#[local] Abbreviation m := (dc_manifest config).
#[local] Abbreviation count := (len (chunk_hashes (dc_manifest config))).
#[local] Abbreviation final := (final_path config).
#[local] Abbreviation partial := (partial_path config).
#[local] Abbreviation resume := (resume_path config id).
#[local] Abbreviation tmp := (resume ++ str ".tmp").

Hypothesis m_ok : manifest_ok m.
Hypothesis id_ok : swarm_id m = Ok id.

Lemma id_hex : is_sha256_hex id = true.
Proof. destruct (swarm_id_ok m m_ok) as (i & Hi & ?). congruence. Qed.

Lemma final_ne_partial : final ≠ partial.
Proof.
  intros E%path_join_inj%(f_equal length). rewrite length_app in E. simpl in E. lia.
Qed.

Lemma partial_ne_resume : partial ≠ resume.
Proof.
  intros E%path_join_inj. revert E.
  apply (last_snoc_ne (file_name m ++ str ".par") (id ++ str ".resum") "t" "e");
    [done|by rewrite <-app_assoc..].
Qed.

Lemma partial_ne_tmp : partial ≠ tmp.
Proof.
  unfold partial_path, resume_path. intros E.
  assert (∀ d a b, path_join d a ++ b = path_join d (a ++ b)) as Hj.
  { intros d a b. unfold path_join. repeat case_match; by rewrite <-?app_assoc. }
  rewrite Hj in E. apply path_join_inj in E. revert E.
  apply (last_snoc_ne (file_name m ++ str ".par") (id ++ str ".resume.tm") "t" "p");
    [done|by rewrite <-?app_assoc..].
Qed.

Lemma names_layout : layout m partial resume id.
Proof.
  pose proof id_hex as Hhex. split.
  - done.
  - by apply sha256_hex_plain.
  - apply is_sha256_hex_spec in Hhex as [Hl _]. by intros ->.
  - apply path_join_nonempty. by intros [_ ?]%app_eq_nil.
  - apply partial_ne_resume.
  - apply partial_ne_tmp.
Qed.

(** ** The run *)

Variables (base : gmap bytes file) (d0 : gmap Z descriptor) (b0 : Z) (h0 : list (gmap bytes file)).

(** The final path is as at the start, or holds the manifest's file. *)
Definition final_ok (fs : gmap bytes file) : Prop :=
  fs !! final = base !! final ∨
  ∃ f, fs !! final = Some f ∧ sha256_hex (data f) = Ok (file_sha256 m).

(** The files are [f], and the final path was right at every moment. *)
Definition at_files_of (f : gmap bytes file) (s : os) : Prop :=
  ∃ sc, at_state final_ok h0 f d0 b0 sc s.

#[local] Abbreviation K := at_files_of.
#[local] Abbreviation matching st f := (in_step m partial resume id base st f).

Hypothesis final_resume : final ≠ resume.
Hypothesis final_tmp : final ≠ tmp.

Lemma others_final fs : others partial resume base fs → final_ok fs.
Proof. intros Ho. left. apply Ho; try done. apply final_ne_partial. Qed.

Lemma hash_file_spec f path :
  triple (K f) (hash_file path)
    (λ digest s, K f s ∧ ∃ fl, f !! path = Some fl ∧ sha256_hex (data fl) = Ok digest)
    (λ e s, e ≠ Diverged ∧ K f s).
Proof.
  intros s [sc Hs]. unfold hash_file, bind, lift.
  pose proof (open_for_reading_spec (Φ := final_ok) (h0 := h0) path f d0 b0 sc s Hs) as Ho.
  destruct (open_for_reading path s) as [[file|e] s']; [|done].
  destruct Ho as (Hf & _ & Hs'). assert (K f s') as HK by (by eexists).
  destruct file as [content|]; [|done]. rewrite sha256_file_spec.
  split; [done|]. destruct Hf as [|Hf]; [done|]. symmetry in Hf. apply fmap_Some in Hf as (fl & Hl & ->).
  exists fl. by rewrite sha256_hex_spec.
Qed.

Lemma flush_at f st :
  matching st f →
  triple (λ '(s, st'), K f s ∧ st' = st) flush
    (λ _ '(s, st'), ∃ f', K f' s ∧ matching st' f' ∧ completed_set st' = completed_set st)
    (λ e '(s, st'), e ≠ Diverged ∧ ∃ f', K f' s ∧ matching st' f').
Proof.
  intros Hin [s st'] [[sc Hs] ->]. destruct names_layout as [Hm Hpl Hid Hres Hne Htmp].
  pose proof (holds_safe _ _ _ _ _ _ _ (in_step_holds _ _ _ _ _ _ _ Hin)) as Hsafe.
  pose proof (flush_in_step m partial resume id base Hpl Hid Hres Hne Htmp f d0 b0 (history s) st Hin
    (s, st) (conj (ex_intro _ sc (at_restart _ _ _ _ _ _ _ _ Hs Hsafe)) eq_refl)) as Hf.
  assert (∀ fs, safe m partial resume id base fs → final_ok fs) as Hweak
    by (intros fs [_ Ho]; by apply others_final).
  destruct (flush (s, st)) as [[u|e] [s' st']].
  - destruct Hf as (f' & sc' & Hs' & Hin' & Hset & _). exists f'. split; [|done].
    exists sc'. by eapply at_join.
  - destruct Hf as (He & -> & f' & sc' & Hs' & Hin' & _). split; [done|]. exists f'. split; [|done].
    exists sc'. by eapply at_join.
Qed.

(** A published download. *)
Definition published_result (r : DownloadResult) (s : os) : Prop :=
  ∃ f fl, K f s ∧ f !! final = Some fl ∧ sha256_hex (data fl) = Ok (file_sha256 m) ∧
    dr_final_path r = final ∧ dr_completed_chunks r = count.

Definition failed_run (e : exn) : os * ResumeStore → Prop := λ '(s, st),
  e ≠ Diverged ∧ ∃ f, K f s ∧ matching st f.

(** The end of a run that threw. *)
Definition run_failed (e : exn) (s : os) : Prop :=
  e ≠ Diverged ∧ ∃ f, K f s ∧ settled config id f.

Lemma matching_settled st f : matching st f → settled config id f.
Proof.
  intros [_ _ _ _ ((p & Hp & HS) & Hr & _)] r Er. destruct (Hr r Er) as [Hs Hl]. split; [done|].
  intros p' i Hp' Hi. assert (p' = p) as -> by congruence. by apply HS, Hl.
Qed.

Lemma failed_run_settled e s st : failed_run e (s, st) → run_failed e s.
Proof. intros (He & f & Hs & Hin). split; [done|]. exists f. split; [done|by eapply matching_settled]. Qed.

Lemma settled_same f f' : (∀ q, q ≠ tmp → f' !! q = f !! q) → settled config id f → settled config id f'.
Proof.
  intros Hq Hf r Er. pose proof partial_ne_tmp.
  assert (resume ≠ tmp) as Hne by (intros E; apply (f_equal length) in E;
    rewrite length_app in E; simpl in E; lia).
  rewrite Hq in Er by done. destruct (Hf r Er) as [Hs Hl]. split; [done|].
  intros p i Hp. rewrite Hq in Hp by done. by apply Hl.
Qed.

Lemma resumable_settled st f p : resumable m partial resume id base st f p → settled config id f.
Proof.
  intros (_ & _ & _ & _ & Hp & Hsync & _ & Hr) r Er. destruct (Hr r Er) as [Hs Hl]. split; [done|].
  intros p' i Hp' Hi. assert (p' = p) as -> by congruence. by apply Hsync, Hl.
Qed.

Lemma rename_publish f fl st :
  matching st f → f !! partial = Some fl → sha256_hex (data fl) = Ok (file_sha256 m) →
  triple (K f) (fs_rename partial final)
    (λ _ s, K (<[final := fl]> (delete partial f)) s) (λ e s, e ≠ Diverged ∧ K f s).
Proof.
  intros Hin Hp Hh s [sc Hs]. unfold fs_rename, bind.
  assert (final_ok (<[final := fl]> (delete partial f))) as Hok.
  { right. exists fl. by rewrite lookup_insert_eq. }
  pose proof (sys_rename_spec (Φ := final_ok) (h0 := h0) f d0 b0 sc partial final fl Hp Hok s Hs) as Hr.
  destruct (sys_rename partial final s) as [[r|e] s']; [|done].
  destruct (failed r); cbn; [split; [done|]|]; by eexists.
Qed.

#[local] Abbreviation result events :=
  {| dr_final_path := final; dr_completed_chunks := count; dr_retry_events := events |}.

(** After the hash was compared. *)
Lemma publish_spec events f fl st :
  matching st f → f !! partial = Some fl → sha256_hex (data fl) = Ok (file_sha256 m) →
  triple (λ '(s, st'), K f s ∧ st' = st)
    (do _ <- on_os (fs_rename partial final); do _ <- on_os (fs_remove resume); ret (result events))
    (λ r '(s, _), published_result r s) failed_run.
Proof.
  intros Hin Hp Hh. eapply triple_bind.
  { eapply triple_on_os_exn; [by eapply rename_publish|]. intros e s [He Hs]. split; [done|]. by exists f. }
  intros u. set (f1 := <[final := fl]> (delete partial f)).
  eapply triple_bind_safe with (R := λ _ '(s, _), ∃ f2, K f2 s ∧ f2 !! final = Some fl).
  - intros [s st'] [[sc Hs] ->]. unfold on_os, fs_remove, bind.
    assert (f1 !! final = Some fl) as Hf1 by apply lookup_insert_eq.
    assert (delete resume f1 !! final = Some fl) as Hf2 by (by rewrite lookup_delete_ne).
    assert (final_ok (delete resume f1)) as Hok by (right; by exists fl).
    pose proof (sys_unlink_spec (Φ := final_ok) (h0 := h0) f1 d0 b0 sc resume Hok s Hs) as Hr.
    destruct (sys_unlink resume s) as [[r|e] s']; [|done].
    destruct (failed r); eexists; (split; [by eexists|done]).
  - intros rm. apply triple_ret'. intros [s st'] (f2 & Hs & Hf2). by exists f2, fl.
Qed.

(** After the flush. *)
Lemma verify_spec events f st :
  matching st f →
  triple (λ '(s, st'), K f s ∧ st' = st)
    (do digest <- on_os (hash_file partial);
     if negb (beq digest (file_sha256 m))
     then raise_error "Final full-file SHA-256 verification failed"
     else do _ <- on_os (fs_rename partial final); do _ <- on_os (fs_remove resume); ret (result events))
    (λ r '(s, _), published_result r s) failed_run.
Proof.
  intros Hin. eapply triple_bind.
  { eapply triple_on_os_exn; [apply hash_file_spec|]. intros e s [He Hs]. split; [done|]. by exists f. }
  intros digest. apply triple_if; intros Hd.
  { apply triple_raise. intros [s st'] [[Hs _] ->]. split; [done|]. by exists f. }
  apply negb_false_iff, beq_spec in Hd. subst digest.
  intros [s st'] [(Hs & fl & Hp & Hh) ->]. by apply (publish_spec events f fl st Hin Hp Hh (s, st)).
Qed.

Lemma finish_spec events f st :
  matching st f →
  triple (λ '(s, st'), K f s ∧ st' = st) (finish config id events)
    (λ r '(s, _), published_result r s) failed_run.
Proof.
  intros Hin. unfold finish. eapply triple_bind; [by apply flush_at|].
  intros u [s st'] (f' & Hs & Hin' & _). by apply (verify_spec events f' st' Hin' (s, st')).
Qed.

(** *** The workers *)

(** The pool is one of Workers that ended. *)
Definition workers_joined (server : Endpoint) : Prop :=
  ∀ d tracker, make_client (dc_tracker_endpoint config) (dc_token config) (dc_network_timeout config) = Ok tracker →
    os_ok d.1 → matching d.2 (files d.1) →
    rtc (pool_step config tracker id partial server) (pool_start config d) (env_pool env d) ∧
    joined (env_pool env d).

Hypothesis workers_range : 1 ≤ dc_worker_count config ∧ count + dc_worker_count config < 2 ^ 32.

Lemma workers_at server tracker f st s :
  workers_joined server →
  make_client (dc_tracker_endpoint config) (dc_token config) (dc_network_timeout config) = Ok tracker →
  matching st f → K f s →
  let p := env_pool env (s, st) in
  ∃ f', K f' (disk p).1 ∧ matching (disk p).2 f' ∧ failure p ≠ Some Diverged ∧
        (failure p = None → all_complete (disk p).2 = true).
Proof.
  intros Hw Ht Hin [sc Hs] p. pose proof Hs as [Hfs Hds _ _ _ _ Hfresh].
  destruct (Hw (s, st) tracker Ht) as [Hsteps Hj]; [by unfold os_ok; cbn [fst]; rewrite Hds|by cbn [fst snd]; rewrite Hfs|].
  clear Hfs Hds Hfresh.
  apply rtc_nsteps_1 in Hsteps as [n Hsteps].
  assert (len (threads (pool_start config (s, st))) = dc_worker_count config) as Hlen
    by (unfold len; cbn; rewrite length_replicate; lia).
  destruct (pool_reachable_ok config tracker id partial resume server base (history s) d0 b0 names_layout
    n (pool_start config (s, st)) p) as [Hok Hth]; [|rewrite Hlen; lia|exact Hsteps|].
  { apply pool_ok_start. exists sc. pose proof (at_files _ _ _ _ _ _ _ Hs) as Hf. cbn [fst snd].
    rewrite Hf. split; [|done]. eapply at_restart; [exact Hs|]. by eapply holds_safe, in_step_holds. }
  destruct (pool_disk _ _ _ _ _ _ _ _ _ Hok) as (sc' & Hs' & Hin').
  exists (files (disk p).1). split_and!; [|done|by eapply pool_failure|].
  - exists sc'. eapply at_join; [exact Hs|exact Hs'|]. intros fs [_ Ho]. by apply others_final.
  - intros Hf. eapply joined_complete; [exact Hok|done| |done].
    intros E. unfold len in Hlen. rewrite <-Hth, E in Hlen. simpl in Hlen. lia.
Qed.

(** *** The [try] block and its handler *)

#[local] Abbreviation store_at f st := (λ '(s, st'), K f s ∧ st' = st).

Lemma triple_throws {A} f st (mr : res A) (k : A → io (os * ResumeStore) DownloadResult) :
  matching st f → mr ≠ Throw Diverged →
  (∀ a, mr = Ok a → triple (store_at f st) (k a) (λ r '(s, _), published_result r s) failed_run) →
  triple (store_at f st) (bind (lift mr) k) (λ r '(s, _), published_result r s) failed_run.
Proof.
  intros Hin Hd Hk. destruct mr as [a|e].
  - by eapply triple_lift_ok; [|apply Hk].
  - intros [s st'] [Hs ->]. split; [congruence|]. by exists f.
Qed.

Lemma run_try_spec server f st :
  workers_joined server → net_ok (env_net env) → matching st f →
  triple (store_at f st) (run_try env config id server)
    (λ r '(s, _), published_result r s) failed_run.
Proof.
  intros Hw Hn Hin. unfold run_try. apply triple_throws; [done| |].
  { unfold make_client, throw. by destruct (_ || _). }
  intros tracker Ht. eapply triple_on_store; [done|]. apply triple_throws; [done| |].
  { destruct (announce_current config tracker id server st (env_net env)) as [r n'] eqn:E.
    by eapply announce_no_diverge. }
  intros u Hu. intros [s st'] [Hs ->].
  destruct (workers_at server tracker f st s Hw Ht Hin Hs) as (f' & Hs' & Hin' & Hfd & Hall).
  unfold bind at 1. cbn beta iota. set (p := env_pool env (s, st)) in *.
  destruct (failure p) as [e|] eqn:Ef.
  - cbn. destruct (disk p) as [s' st']. split; [congruence|]. by exists f'.
  - unfold get_store, on_store, bind at 1. destruct (disk p) as [s' st'] eqn:Ed. cbn [fst snd] in *.
    rewrite Hall by done. cbn [negb]. by apply (finish_spec _ f' st' Hin' (s', st')).
Qed.

Lemma run_cleanup_spec e :
  e ≠ Diverged →
  triple (λ '(s, st), ∃ f, K f s ∧ matching st f) (run_cleanup e)
    (λ r '(s, _), published_result r s) (λ e' '(s, _), run_failed e' s).
Proof.
  intros He [s st] (f & Hs & Hin). unfold run_cleanup, bind, catch_error.
  pose proof (flush_at f st Hin (s, st) (conj Hs eq_refl)) as Hf.
  destruct (flush (s, st)) as [[u|[w|w|]] [s' st']]; cbn.
  - destruct Hf as (f' & ? & ? & _). eapply failed_run_settled. split; [done|]. by exists f'.
  - destruct Hf as (_ & f' & ? & ?). eapply failed_run_settled. split; [done|]. by exists f'.
  - destruct Hf as (_ & f' & ? & ?). eapply failed_run_settled. split; [done|]. by exists f'.
  - by destruct Hf.
Qed.

Hypothesis server_ok : env_server env ≠ Throw Diverged.
Hypothesis net_fine : net_ok (env_net env).
Hypothesis env_fine : ∀ server, env_server env = Ok server → workers_joined server.

Lemma run_with_store_spec f st p :
  resumable m partial resume id base st f p →
  triple (store_at f st) (run_with_store env config id)
    (λ r '(s, _), published_result r s) (λ e '(s, _), run_failed e s).
Proof.
  intros Hres [s st'] [[sc Hs] ->]. destruct names_layout as [Hm Hpl Hid Hre Hne Htmp].
  assert (others partial resume base f) as Ho by apply Hres.
  pose proof (revalidate_triple m partial resume id base Hm Hpl Hid Hre Hne Htmp f d0 b0 (history s) st p
    Hres (s, st) (conj (ex_intro _ sc (at_restart _ _ _ _ _ _ _ _ Hs Ho)) eq_refl)) as Hr.
  unfold run_with_store. unfold bind at 1.
  destruct (revalidate_completed_chunks partial m (s, st)) as [[u|e] [s1 st1]].
  2:{ destruct Hr as (He & _ & f1 & sc1 & Hs1 & Hf1). split; [done|]. exists f1. split.
      - exists sc1. eapply at_join; [exact Hs|exact Hs1|]. apply others_final.
      - eapply settled_same; [exact Hf1|by eapply resumable_settled]. }
  destruct Hr as (_ & f1 & sc1 & Hs1 & Hin).
  assert (K f1 s1) as HK.
  { exists sc1. eapply at_join; [exact Hs|exact Hs1|]. apply others_final. }
  assert (triple (store_at f1 st1)
    (do st <- get_store; do _ <- lift (make_peer_server (server_config config st));
     do server <- lift (env_server env); catch_all (run_try env config id server) run_cleanup)
    (λ r '(s, _), published_result r s) (λ e '(s, _), run_failed e s)) as Hrest;
    [|by apply (Hrest (s1, st1))].
  eapply triple_on_store; [done|].
  assert (∀ A (mr : res A) k, mr ≠ Throw Diverged →
    (∀ a, mr = Ok a → triple (store_at f1 st1) (k a) (λ r '(s, _), published_result r s)
                        (λ e '(s, _), run_failed e s)) →
    triple (store_at f1 st1) (bind (lift mr) k) (λ r '(s, _), published_result r s)
      (λ e '(s, _), run_failed e s)) as Hlift.
  { intros A [a|e] k Hd Hk; [by eapply triple_lift_ok; [|apply Hk]|].
    intros [s2 st2] [Hs2 ->]. eapply failed_run_settled. split; [congruence|]. by exists f1. }
  apply Hlift.
  { unfold make_peer_server, throw. pose proof (validate_no_diverge (ps_manifest (server_config config st1))).
    destruct (validate _); cbn [rbind]; [by destruct (_ || _)|congruence]. }
  intros cfg _. apply Hlift; [done|]. intros server Hsrv.
  eapply triple_catch_all; [by apply run_try_spec; [apply env_fine| |]|].
  intros e. intros [s2 st2] [He Hf]. by apply (run_cleanup_spec e He (s2, st2)).
Qed.

(** *** The files at the start *)

Hypothesis base_settled : settled config id base.

Lemma count_small : u32 count = count.
Proof.
  apply u32_small. destruct (manifest_ok_geometry m m_ok) as (_ & Hc & _).
  change kMaxChunkCount with 1000000 in Hc. pose proof (len_nonneg (chunk_hashes m)). lia.
Qed.

(** Loading gives a store that lists what the file does. *)
Lemma load_at f :
  triple (K f) (load_or_create_file resume id (u32 count))
    (λ st s, K f s ∧ store_ok st ∧ path_ st = resume ∧ swarm_id_ st = id ∧ chunk_count_ st = count ∧
       match f !! resume with
       | Some r => ∀ i, listed m resume id (data r) i ↔ i ∈ completed_set st
       | None => completed_set st = ∅
       end)
    (λ e s, e ≠ Diverged ∧ K f s).
Proof.
  intros s [sc Hs]. unfold load_or_create_file. rewrite count_small.
  pose proof (count_range m m_ok) as Hcount. unfold bind at 1, lift at 1.
  destruct (construct resume id count) as [st0|e] eqn:Ec.
  2:{ split; [|by eexists]. unfold construct, throw in Ec. destruct (_ || _); congruence. }
  destruct (construct_ok _ _ _ _ Hcount Ec) as (Hok0 & Hset0 & Hp0 & Hs0 & Hc0 & _).
  pose proof (exists_file_spec (Φ := final_ok) (h0 := h0) resume f d0 b0 sc s Hs) as He.
  unfold bind at 1. destruct (exists_file resume s) as [[present|e] s1]; [|destruct He as [? ?]; split; [done|by eexists]].
  destruct He as [-> Hs1]. case_bool_decide as Hpr.
  2:{ apply eq_None_not_Some in Hpr. cbn. rewrite Hpr. split_and!; try done. by eexists. }
  destruct Hpr as [r Hr]. pose proof (open_for_reading_spec (Φ := final_ok) (h0 := h0) resume f d0 b0 _ s1 Hs1) as Ho.
  unfold bind at 1. destruct (open_for_reading resume s1) as [[file|e] s2]; [|done].
  destruct Ho as (Hf & _ & Hs2). assert (K f s2) as HK by (by eexists).
  unfold bind, lift. destruct (load_existing file st0) as [st|e] eqn:El.
  2:{ split; [|done]. intros ->. by eapply load_existing_no_diverge. }
  destruct Hf as [->| ->]; [done|]. rewrite Hr in El. change (data <$> Some r) with (Some (data r)) in El.
  assert (load_or_create resume (Some (data r)) id count = Ok (with_dirty st false)) as Hl.
  { unfold load_or_create. rewrite Ec. cbn [rbind]. by rewrite El. }
  destruct (load_or_create_ok _ _ _ _ _ Hcount Hl) as (? & ? & ? & ? & _).
  cbn. rewrite Hr. split_and!; try done. intros i. split.
  - intros (st' & Hl' & Hi). assert (st' = with_dirty st false) as -> by congruence. done.
  - intros Hi. by exists (with_dirty st false).
Qed.

(** From the loaded store to the end of the run. *)
Lemma run_prepared_spec p :
  (base !! resume ≠ None → base !! partial ≠ None) →
  (base !! partial = Some p ∨ base !! partial = None) →
  triple (K (<[partial := p]> base))
    (do store <- load_or_create_file resume id (u32 count); with_store store (run_with_store env config id))
    published_result run_failed.
Proof.
  intros Hstale Hbase. set (f := <[partial := p]> base).
  assert (f !! resume = base !! resume) as Hfr
    by (apply lookup_insert_ne; apply partial_ne_resume).
  assert (settled config id f) as Hset.
  { destruct Hbase as [Hb|Hb]; [unfold f; rewrite insert_id by done; exact base_settled|]. intros r Hr. rewrite Hfr in Hr.
    destruct Hstale; [by rewrite Hr|done]. }
  eapply triple_bind.
  { eapply triple_conseq; [apply load_at|done|done|]. intros e s [He Hs]. split; [done|]. by exists f. }
  intros st s (Hs & Hok & Hpath & Hid & Hc & Hlist). unfold with_store.
  assert (resumable m partial resume id base st f p) as Hres.
  { split_and!; try done.
    - apply lookup_insert_eq.
    - intros i Hi. rewrite Hfr in Hlist. destruct (base !! resume) as [r|] eqn:Er;
        [|rewrite Hlist in Hi; set_solver].
      destruct Hbase as [Hb|Hb]; [|by destruct Hstale].
      eapply base_settled; [done..|]. by apply Hlist.
    - intros q Hq _ _. by apply lookup_insert_ne.
    - intros r Hr. rewrite Hr in Hlist. split; [|by intros i ?%Hlist]. eapply base_settled. by rewrite <-Hfr. }
  pose proof (run_with_store_spec f st p Hres (s, st) (conj Hs eq_refl)) as Hrun.
  by destruct (run_with_store env config id (s, st)) as [[r|e] [s' st']].
Qed.

Lemma exists_at path :
  triple (K base) (exists_file path)
    (λ r s, r = bool_decide (is_Some (base !! path)) ∧ K base s) run_failed.
Proof.
  apply triple_ex. intros sc. eapply triple_conseq; [apply (exists_file_spec (Φ := final_ok) (h0 := h0))|done| |].
  - intros r s [? ?]. split; [done|]. by exists (tail sc).
  - intros e s [? ?]. split; [done|]. exists base. split; [by exists (tail sc)|done].
Qed.

Lemma prepare_at :
  (base !! resume ≠ None → base !! partial ≠ None) →
  triple (K base) (prepare_partial_file partial (file_size_bytes m))
    (λ _ s, ∃ p, K (<[partial := p]> base) s ∧ (base !! partial = Some p ∨ base !! partial = None))
    run_failed.
Proof.
  intros Hstale. assert (∀ p, final_ok (<[partial := p]> base)) as HΦ.
  { intros p. left. apply lookup_insert_ne. intros E. by apply final_ne_partial. }
  eapply triple_conseq; [apply (prepare_triple partial (file_size_bytes m) base d0 b0 h0 final_ok)|done| |].
  - apply m_ok.
  - done.
  - intros u s (p & sc & Hs & Hp). exists p. split; [by eexists|]. destruct Hp as [[? _]|[? _]]; auto.
  - intros e s (He & f & sc & Hs & Hf). split; [done|]. exists f. split; [by exists sc|].
    pose proof partial_ne_resume. destruct (base !! partial) as [p|] eqn:Ep.
    + intros r. rewrite !Hf by (right; congruence). apply base_settled.
    + intros r. rewrite Hf by (left; congruence). intros Hr. destruct Hstale; [by rewrite Hr|done].
Qed.

Lemma run_fresh_spec :
  triple (K base)
    (do has_resume <- exists_file resume;
     do stale <- (if has_resume : bool
                  then do has_partial <- exists_file partial; ret (negb has_partial)
                  else ret false);
     if stale : bool then raise_error "Resume state exists but its partial file is missing"
     else
       do _ <- prepare_partial_file partial (file_size_bytes m);
       do store <- load_or_create_file resume id (u32 count);
       with_store store (run_with_store env config id))
    published_result run_failed.
Proof.
  eapply triple_bind; [apply exists_at|]. intros has. apply triple_pure. intros ->.
  eapply triple_bind with (R := λ stale s,
    (stale = false → base !! resume ≠ None → base !! partial ≠ None) ∧ K base s).
  { apply triple_if; intros Hr; reflect.
    - eapply triple_bind; [apply exists_at|]. intros has. apply triple_pure. intros ->.
      apply triple_ret'. intros s Hs. split; [|done]. intros Hb _ Hn. rewrite Hn in Hb.
      rewrite bool_decide_eq_false_2 in Hb by (by intros [? ?]). done.
    - apply triple_ret'. intros s Hs. split; [|done]. intros _ Hn. destruct Hr.
      by destruct (base !! resume). }
  intros stale. apply triple_pure. intros Hstale. apply triple_if; intros Hst.
  { apply triple_raise. intros s Hs. split; [done|]. by exists base. }
  eapply triple_bind; [apply prepare_at; auto|]. intros u. apply triple_ex. intros p.
  intros s [Hs Hp]. by apply (run_prepared_spec p (Hstale Hst) Hp s).
Qed.

Lemma run_spec : triple (K base) (run env config) published_result run_failed.
Proof.
  unfold run. eapply triple_lift_ok; [exact id_ok|].
  eapply triple_bind with (R := λ _, K base).
  { apply triple_ex. intros sc.
    eapply triple_conseq; [apply (create_directories_spec (Φ := final_ok) (h0 := h0))|done| |].
    - intros u s Hs. by exists (tail sc).
    - intros e s [He Hs]. split; [done|]. exists base. split; [by exists (tail sc)|done]. }
  intros u. eapply triple_bind; [apply exists_at|]. intros present. apply triple_pure. intros ->.
  apply triple_if; intros Hp; [|apply run_fresh_spec].
  eapply triple_bind.
  { eapply triple_conseq; [apply (hash_file_spec base)|done|done|]. intros e s [He Hs].
    split; [done|]. by exists base. }
  intros digest. apply triple_if; intros Hd.
  - apply triple_raise. intros s [Hs _]. split; [done|]. by exists base.
  - apply negb_false_iff, beq_spec in Hd. subst digest. apply triple_ret'.
    intros s (Hs & fl & Hf & Hh). by exists base, fl.
Qed.

End RunProofs.

(** ** Properties *)

(** What a run starts from: an accepted configuration, names that do not
    collide, files as an earlier run leaves them, and an environment of joined
    workers. *)
Record run_ready `{HE : Evp, !EvpLaws} (env : environment) (config : DownloadConfig) (id : bytes) (s : os)
    : Prop := {
  ready_manifest : manifest_ok (dc_manifest config);
  ready_id : swarm_id (dc_manifest config) = Ok id;
  ready_resume : final_path config ≠ resume_path config id;
  ready_temporary : final_path config ≠ resume_path config id ++ str ".tmp";
  ready_workers : 1 ≤ dc_worker_count config ∧
                  len (chunk_hashes (dc_manifest config)) + dc_worker_count config < 2 ^ 32;
  ready_os : os_ok s;
  ready_settled : settled config id (files s);
  ready_server : env_server env ≠ Throw Diverged;
  ready_net : net_ok (env_net env);
  ready_pool : ∀ server, env_server env = Ok server → workers_joined env config id (files s) server
}.

(** C1: a download that returns has published the manifest's file.  The run
    starts from an accepted manifest, final and resume paths that do not
    collide, fewer than 2^32 chunks and workers together, and files as an
    earlier run leaves them: the resume file and the chunks it lists are on
    disk, the rest of the partial file need not be.  Then, whatever the network
    delivers and whatever system calls fail: if [run] returns, the file at the
    final path has the manifest's SHA-256 and the result names it; if it throws,
    it does end, and the files are such that a run can start from them again;
    and at every moment of the run the final path is as it was at the start or
    holds the manifest's file, so no unverified file ever appears there.  No
    descriptor is leaked or closed twice. *)
Theorem run_verified `{HE : Evp, !EvpLaws} env config id s :
  run_ready env config id s →
  let '(r, s') := run env config s in
  fds s' = fds s ∧ bad_closes s' = bad_closes s ∧ final_ok config (files s) (files s') ∧
  (∃ hs, history s' = history s ++ hs ∧ Forall (final_ok config (files s)) hs) ∧
  match r with
  | Ok result =>
      dr_final_path result = final_path config ∧
      dr_completed_chunks result = len (chunk_hashes (dc_manifest config)) ∧
      ∃ f, files s' !! final_path config = Some f ∧
           sha256_hex (data f) = Ok (file_sha256 (dc_manifest config))
  | Throw e => e ≠ Diverged ∧ settled config id (files s')
  end.
Proof.
  intros [Hm Hid Hfr Hft Hw Hos Hset Hsrv Hnet Hpool].
  assert (at_files_of config (files s) (fds s) (bad_closes s) (history s) (files s) s) as H0.
  { exists (script s). apply at_start; [done|by left]. }
  pose proof (run_spec env config id Hm Hid (files s) (fds s) (bad_closes s) (history s) Hfr Hft Hw Hsrv
    Hnet Hpool Hset s H0) as Hrun.
  destruct (run env config s) as [[r|e] s'].
  - destruct Hrun as (f & fl & (sc & [<- Hd Hb _ Hh Hf _]) & Hfl & Hhash & Hp & Hc).
    split_and!; try done. by exists fl.
  - by destruct Hrun as (He & f & (sc & [<- Hd Hb _ Hh Hf _]) & Hst).
Qed.

(** *** Witness *)

(** The example directory with the manifest, a partial file of which only
    chunk 0 is on disk and a resume file that lists it; some calls fail or
    write short. *)
Definition example_resume_path : bytes := resume_path example_download example_swarm_id.
Definition example_saved : ResumeStore :=
  {| path_ := example_resume_path; swarm_id_ := example_swarm_id; chunk_count_ := 3;
     completed_ := [true; false; false]; revision_ := 1; dirty_ := false |}.
Definition example_manifest_text : bytes :=
  match serialize example_manifest with Ok text => text | Throw _ => [] end.
Definition example_unsynced_file : file :=
  {| data := data example_partial_file; synced := str "hell" |}.
Definition example_files : gmap bytes file :=
  {[ partial_path example_download := example_unsynced_file;
     example_resume_path := {| data := serialize_locked example_saved;
                               synced := serialize_locked example_saved |};
     str "greeting.manifest" := {| data := example_manifest_text; synced := example_manifest_text |} ]}.
Definition example_directory (sc : list outcome) : os :=
  {| files := example_files; fds := ∅; next_fd := 3; bad_closes := 0; script := sc; history := [] |}.
Definition example_script : list outcome := replicate 10 Works ++ [Short 1; Interrupted].

Definition example_server : Endpoint := {| host := str "127.0.0.1"; port := 7002 |}.
Definition example_tracker : TrackerClient :=
  {| endpoint_ := dc_tracker_endpoint example_download; client_token := str "secret"; timeout_ := 3000 |}.

Definition example_ok_net : net :=
  {| dials := [Ok (Net.fresh [Arrives (str "OK" ++ [LF])])]; used := [] |}.

(** The tracker and the peer as the moving thread needs them. *)
Definition example_nets (s : pool) : net :=
  match first_active 0 (threads s) ≫= λ k, threads s !! k with
  | Some (W_fetch i) =>
      let slice := chunk_bytes example_manifest example_content i in
      {| dials := [Ok (Net.fresh [Arrives (str "PEER other 127.0.0.1 7001 all" ++ [LF] ++ str "END" ++ [LF])]);
                   Ok (Net.fresh [Arrives (data_line (len slice) (chunk_hash example_manifest i)); Arrives slice])];
         used := [] |}
  | _ => example_ok_net
  end.

Definition example_env : environment :=
  {| env_server := Ok example_server; env_net := example_ok_net;
     env_pool := λ d, schedule example_download example_tracker example_swarm_id
       (partial_path example_download) example_server 26 example_nets (pool_start example_download d) |}.

Lemma example_nets_ok s : net_ok (example_nets s).
Proof. unfold example_nets. repeat case_match; repeat constructor. Qed.

Lemma example_swarm_id_ok : swarm_id example_manifest = Ok example_swarm_id.
Proof. vm_compute. reflexivity. Qed.

Lemma example_ready sc : run_ready example_env example_download example_swarm_id (example_directory sc).
Proof.
  assert (layout example_manifest (partial_path example_download) example_resume_path example_swarm_id) as Hl
    by exact (names_layout example_download example_swarm_id example_manifest_ok example_swarm_id_ok).
  split.
  - exact example_manifest_ok.
  - exact example_swarm_id_ok.
  - vm_compute. discriminate.
  - vm_compute. discriminate.
  - vm_compute. split; [discriminate|reflexivity].
  - split; [done|]. intros fd [z Hz]. change (fds (example_directory sc)) with (∅ : gmap Z descriptor) in Hz.
    by rewrite lookup_empty in Hz.
  - change (files (example_directory sc)) with example_files. unfold example_files.
    intros f Hf. rewrite lookup_insert_ne in Hf by apply Hl.
    change (resume_path example_download example_swarm_id) with example_resume_path in Hf |- *.
    rewrite lookup_insert_eq in Hf. injection Hf as <-. split; [done|]. intros p i Hp Hi.
    rewrite lookup_insert_eq in Hp. injection Hp as <-.
    apply listed_serialize in Hi; try reflexivity; try apply Hl; [|split_and!; done].
    rewrite <-elem_of_completed_chunks in Hi. change (completed_chunks example_saved) with [0] in Hi.
    apply list_elem_of_singleton in Hi as ->. reflexivity.
  - done.
  - repeat constructor.
  - intros server [= <-] d tracker [= <-] Hos Hin.
    unfold example_env. cbn [env_pool].
    pose proof (schedule_joins example_download example_tracker example_swarm_id (partial_path example_download)
      example_resume_path example_server (files (example_directory sc)) (history d.1) (fds d.1) (bad_closes d.1) Hl
      26 example_nets (pool_start example_download d)) as Hj. cbv zeta in Hj.
    apply Hj; clear Hj.
    + apply pool_ok_start. exists (script d.1). split; [|exact Hin].
      apply at_start; [done|]. by eapply holds_safe, in_step_holds.
    + vm_compute. reflexivity.
    + intros s. apply example_nets_ok.
    + vm_compute. lia.
Qed.

(** The example run fetches the two missing chunks and publishes the file. *)
Lemma example_run_result :
  (run example_env example_download (example_directory example_script)).1 =
  Ok {| dr_final_path := str "out/greeting.txt"; dr_completed_chunks := 3; dr_retry_events := 0 |}.
Proof. vm_compute. reflexivity. Qed.

Lemma run_verified_witness :
  ∃ f, files (run example_env example_download (example_directory example_script)).2 !! str "out/greeting.txt" = Some f ∧
       sha256_hex (data f) = Ok (file_sha256 example_manifest).
Proof.
  pose proof (run_verified example_env example_download example_swarm_id (example_directory example_script)
    (example_ready example_script)) as H.
  pose proof example_run_result as Hr.
  destruct (run example_env example_download (example_directory example_script)) as [r s']. cbn [fst snd] in *. subst r.
  destruct H as (_ & _ & _ & _ & _ & _ & Hf). exact Hf.
Defined.
