(* ===== verification/Save.v ===== *)
(** * Save: writing a manifest to a file

    [Manifest::save] of src/src/manifest.cpp over the output stream of
    Filestream, and what a reader makes of a file that it left cut short: the
    stream reports the failure of its last write to nobody, so this happens. *)

From S2P Require Export Prelude.
From S2P Require Import Hoare Text Iostream Crypto Posix Filestream Manifest.

#[local] Open Scope Z_scope.

(** ** Definitions *)

(** The end of the scope of [output]. *)
Definition finish_save (path text : bytes) (output : ofstream) : io os unit :=
  do output <- of_write text output;
  do _ <- of_destroy output;
  if negb (of_ok output)
  then raise (Error (str "Unable to finish manifest write: " ++ path))
  else ret tt.

(** An exception of [serialize] leaves the scope with the file already
    emptied. *)
Definition save (m : Manifest) (path : bytes) : io os unit :=
  let parent := path_parent path in
  do _ <- (if negb (bool_decide (parent = [])) then create_directories parent else ret tt);
  do output <- open_ofstream path;
  if negb (of_ok output)
  then raise (Error (str "Unable to write manifest: " ++ path))
  else
    match serialize m with
    | Throw e => do _ <- of_destroy output; raise e
    | Ok text => finish_save path text output
    end.

(** ** What is written *)

Section Saving.
Variables (path text : bytes) (f0 : gmap bytes file) (d0 : gmap Z descriptor) (b : Z)
  (h0 : list (gmap bytes file)).

#[local] Abbreviation Φ := (λ _ : gmap bytes file, True).
#[local] Abbreviation At := (at_state Φ h0).

(** The file holds the beginning of the text. *)
Definition partly_saved (s : os) : Prop := ∃ p sc,
  data p `prefix_of` text ∧ At (<[path := p]> f0) d0 b sc s.

(** The file holds the text when no call failed. *)
Definition saved (sc0 : list outcome) (s : os) : Prop := ∃ p sc,
  data p `prefix_of` text ∧ (sc0 = [] → data p = text) ∧ At (<[path := p]> f0) d0 b sc s.

Lemma of_write_spec fd n :
  triple (output_at path f0 d0 b h0 Φ fd [] 0 n)
    (of_write text {| of_fd := Some fd; of_buffer := []; of_fail := false |})
    (λ o s, ∃ content rest n', (text = content ++ of_buffer o ++ rest ∧ (n = O → of_fail o = false ∧ n' = O) ∧
              of_fd o = Some fd ∧ (of_fail o = false → rest = [])) ∧
            output_at path f0 d0 b h0 Φ fd content (length content) n' s) (λ _ _, False).
Proof.
  unfold of_write. cbn [of_fail of_buffer of_fd app]. apply triple_if; intros _.
  - eapply triple_bind_safe; [by apply drain_spec|]. intros rest.
    apply triple_if; intros Hr; reflect; apply triple_ret'; intros s (w & n' & -> & Hn & Hs);
      (replace (overwrite [] 0 w) with w in Hs by exact (eq_sym (overwrite_append [] w))); cbn [of_buffer of_fail of_fd].
    + exists w, [], n'. subst rest. split; [|done]. split_and!; try done. intros ->. split; [done|]. by apply Hn.
    + exists w, rest, n'. split; [|done]. split_and!; try done. intros ->. by destruct (Hn eq_refl).
  - apply triple_ret'. intros s Hs. exists [], [], n. split; [|done].
    cbn. rewrite app_nil_r. split_and!; by try intros ->.
Qed.

Lemma finish_save_spec fd n sc0 :
  d0 !! fd = None → (sc0 = [] → n = O) →
  triple (output_at path f0 d0 b h0 Φ fd [] 0 n)
    (finish_save path text {| of_fd := Some fd; of_buffer := []; of_fail := false |})
    (λ _, saved sc0) (λ e s, (is_error e ∧ sc0 ≠ []) ∧ partly_saved s).
Proof.
  intros Hfd Hsc. unfold finish_save. eapply triple_bind_safe; [apply of_write_spec|].
  intros [ofd buffer fail]. cbn [of_buffer of_fd of_fail]. apply triple_ex. intros content.
  apply triple_ex. intros rest. apply triple_ex. intros n'. apply triple_pure.
  intros (Htext & Hn & -> & Hrest).
  eapply triple_bind_safe; [by apply (of_destroy_spec path f0 d0 b h0 Φ (λ _, I))|]. intros u. cbv beta.
  unfold of_ok. cbn [of_fail].
  assert (∀ w r : bytes, buffer = w ++ r → content ++ w `prefix_of` text) as Hpre.
  { intros w r ->. rewrite Htext, <-!app_assoc. by eexists; rewrite <-app_assoc. }
  destruct fail; cbn [negb].
  - apply triple_raise. intros s (w & r & y & sc & Hw & _ & Hs). rewrite overwrite_append in Hs. split.
    + split; [by eexists|]. intros Hs0. by destruct (Hn (Hsc Hs0)).
    + exists {| data := content ++ w; synced := y |}, sc. split; [by eapply Hpre|done].
  - apply triple_ret'. intros s (w & r & y & sc & Hw & Hr & Hs). rewrite overwrite_append in Hs.
    exists {| data := content ++ w; synced := y |}, sc. split_and!; [by eapply Hpre| |done].
    intros Hs0. destruct (Hn (Hsc Hs0)) as [_ Hn']. rewrite Htext, Hrest, Hw, Hr by done. cbn.
    by rewrite !app_nil_r.
Qed.

Lemma save_spec m sc0 :
  serialize m = Ok text →
  triple (At f0 d0 b sc0) (save m path) (λ _, saved sc0)
    (λ e s, (e ≠ Diverged ∧ sc0 ≠ []) ∧ ((∃ sc, At f0 d0 b sc s) ∨ partly_saved s)).
Proof.
  intros Htext. unfold save. cbv zeta. rewrite Htext.
  eapply triple_bind with (R := λ _ s, ∃ sc, (sc0 = [] → sc = []) ∧ At f0 d0 b sc s).
  { apply triple_if; intros _; [|apply triple_ret'; eauto].
    intros s Hs. pose proof (create_directories_spec (Φ := Φ) (h0 := h0) f0 d0 b sc0 (path_parent path) s Hs) as Hc.
    pose proof (at_script _ _ _ _ _ _ _ Hs) as Hsc. unfold create_directories, next_outcome in *.
    rewrite Hsc in *. destruct sc0 as [|[] sc0]; cbn in *; [by exists []|..].
    1-2: by exists sc0. all: destruct Hc as [He Hc]; split; [done|]; left; by exists sc0. }
  intros u. apply triple_ex. intros sc. apply triple_pure. intros Hsc.
  eapply triple_bind_safe; [apply (open_ofstream_spec path f0 d0 b h0 Φ (λ _, I))|].
  intros [[fd|] buffer fail]; cbn [of_buffer of_fd of_fail]; apply triple_pure; intros ->.
  - apply triple_pure. intros ->. apply triple_pure. intros Hfd. apply triple_ex. intros n.
    apply triple_pure. intros Hn. cbn.
    eapply triple_exn; [apply finish_save_spec; [done|auto]|]. intros e s [[[w ->] Hne] Hs]. auto.
  - apply triple_pure. intros [-> Hne]. apply triple_raise. intros s [sc' Hs].
    split; [split; [done|auto]|]. left. eauto.
Qed.

End Saving.

(** ** Files cut short *)

(** The stream is before a beginning of [rest]. *)
Definition at_cut (i : ifstream) (rest : bytes) : Prop := ∃ p, p `prefix_of` rest ∧ at_rest i p.

(** A line read from a file that was cut: the line, or what is left of it, and
    then nothing follows. *)
Lemma read_line_cut msg i line rest l i' :
  at_cut i (line ++ LF :: rest) → plain line → read_text_line msg i = Ok (l, i') →
  l = line ∧ at_cut i' rest ∨ l `prefix_of` line ∧ is_good i' = false.
Proof.
  intros (p & [q Hq] & Hi) Hplain Hread.
  assert (LF ∉ line) as HLF by (by apply plain_not_in).
  assert (CR ∉ line) as HCR by (by apply plain_not_in).
  rewrite <-(take_drop (length line) p) in Hq, Hi.
  destruct (drop (length line) p) as [|c p'] eqn:Ed.
  - right. rewrite app_nil_r in Hq, Hi. set (t := take (length line) p) in *.
    assert (t `prefix_of` line) as Ht.
    { exists (drop (length t) line). rewrite <-(take_drop (length t) line) at 1. f_equal.
      apply (f_equal (take (length t))) in Hq. rewrite take_app_length, take_app_le in Hq; [done|].
      unfold t. rewrite length_take. lia. }
    assert (∀ x, x ∈ t → x ∈ line) as Hin by (intros x Hx; destruct Ht as [z Hz]; rewrite Hz; apply elem_of_app; by left).
    clearbody t. clear Hq Ed. destruct Hi as (Hg & Hr & Hp). unfold read_text_line, is_getline in Hread.
    assert (split_at LF t = None) as Hs by (apply split_at_none; auto).
    rewrite Hg, Hr, Hs in Hread. case_bool_decide as Ht0; cbn in Hread; [done|].
    injection Hread as <- <-. rewrite chomp_cr_id by auto. split; [done|]. done.
  - left. rewrite <-app_assoc in Hq.
    assert (length (take (length line) p) = length line) as Hl.
    { apply (f_equal length) in Ed. rewrite length_drop in Ed. simpl in Ed. rewrite length_take. lia. }
    apply app_inj_1 in Hq as [Hline Hq]; [|done]. rewrite <-Hline in Hi.
    cbn in Hq. injection Hq as <- ->.
    destruct (read_text_line_spec msg i line p' Hi HLF HCR) as (i2 & Hr & Hi2).
    rewrite Hr in Hread. injection Hread as <- <-. split; [done|]. exists p'. split; [by eexists|done].
Qed.

(** Nothing can be read after the end. *)
Lemma read_line_ended msg i : is_good i = false → ∃ e, read_text_line msg i = Throw e.
Proof. intros Hi. unfold read_text_line, is_getline. rewrite Hi. eauto. Qed.

Lemma prefix_cancel (a b c : bytes) : a ++ b `prefix_of` a ++ c → b `prefix_of` c.
Proof. apply prefix_app_inv. Qed.

(** A field of a file that was cut. *)
Lemma field_cut path i (field : string) value rest l i' v :
  at_cut i (str field ++ str "=" ++ value ++ LF :: rest) → plain (str field) → plain value →
  Manifest.read_line i path = Ok (l, i') → require_field l field = Ok v →
  v = value ∧ at_cut i' rest ∨ v `prefix_of` value ∧ is_good i' = false.
Proof.
  intros Hi Hf Hv Hread Hreq.
  assert (at_cut i ((str field ++ str "=" ++ value) ++ LF :: rest)) as Hi2 by (by rewrite <-!app_assoc).
  assert (plain (str field ++ str "=" ++ value)) as Hp.
  { rewrite !plain_app. split_and!; [done|by apply plain_str|done]. }
  apply (read_line_cut _ _ _ _ _ _ Hi2 Hp) in Hread as [[-> Hc]|[Hl Hg]].
  - left. split; [|done]. unfold require_field in Hreq. rewrite require_prefix_app in Hreq. by injection Hreq.
  - right. split; [|done]. unfold require_field, require_prefix in Hreq.
    destruct (starts_with _ l) eqn:E; cbn [negb] in Hreq; [|done]. apply Ok_inj in Hreq.
    apply starts_with_spec in E as [t ->]. rewrite drop_app_length in Hreq. subst v.
    rewrite (app_assoc (str field)) in Hl. by apply prefix_cancel in Hl.
Qed.

(** A field after which another line was read. *)
Lemma field_next path i field value rest l i' v x :
  at_cut i (str field ++ str "=" ++ value ++ LF :: rest) → plain (str field) → plain value →
  Manifest.read_line i path = Ok (l, i') → require_field l field = Ok v →
  Manifest.read_line i' path = Ok x → v = value ∧ at_cut i' rest.
Proof.
  intros Hi Hf Hv Hread Hreq Hnext.
  destruct (field_cut path i field value rest l i' v Hi Hf Hv Hread Hreq) as [?|[_ Hg]]; [done|].
  unfold Manifest.read_line in Hnext. destruct (read_line_ended (str "Unexpected end of manifest: " ++ path) i' Hg) as [e He].
  congruence.
Qed.

(** An entry cut anywhere has its index and the beginning of its hash. *)
Lemma parse_chunk_entry_cut i h entry index hash :
  0 ≤ i < 2 ^ 32 → entry `prefix_of` to_string i ++ COMMA :: h →
  parse_chunk_entry entry = Ok (index, hash) → index = i ∧ hash `prefix_of` h.
Proof.
  intros Hi [q Hq] Hparse. unfold parse_chunk_entry in Hparse.
  destruct (split_at COMMA entry) as [[t hash']|] eqn:E; [|done].
  apply split_at_some in E as [-> Ht]. rewrite <-app_assoc in Hq.
  assert (COMMA ∉ to_string i) as Hc by (apply digits_not_in; [done|apply to_string_digits; lia]).
  pose proof (split_at_app COMMA t (hash' ++ q) Ht) as H1. change ((COMMA :: hash') ++ q) with (COMMA :: hash' ++ q) in Hq.
  rewrite <-Hq, split_at_app in H1 by done. injection H1 as <- ->.
  unfold parse_unsigned in Hparse. rewrite parse_field_to_string in Hparse by lia.
  cbn in Hparse. injection Hparse as <- <-. split; [done|by eexists].
Qed.

(** The chunk lines of a file that was cut: the beginnings of the hashes. *)
Lemma load_chunks_cut path hashes idx input chunks chunks' input' :
  Forall (λ h, is_sha256_hex h = true) hashes → 0 ≤ idx → idx + len hashes ≤ 2 ^ 32 →
  at_cut input (serialize_chunks idx hashes) →
  load_chunks path (length hashes) input chunks = Ok (chunks', input') →
  ∃ hs, Forall2 prefix hs hashes ∧ (∀ j, 0 ≤ j < len hashes → chunks' !! (idx + j) = hs !! Z.to_nat j) ∧
        (∀ j, j < idx → chunks' !! j = chunks !! j).
Proof.
  revert idx input chunks. induction hashes as [|h l IH]; intros idx input chunks Hh Hidx Hbound Hin Hload.
  { injection Hload as <- <-. exists []. split_and!; try done. unfold len; simpl; lia. }
  apply Forall_cons in Hh as [Hh Hl]. rewrite len_cons in Hbound. pose proof (len_nonneg l).
  cbn [length load_chunks] in Hload. bind_inv Hload x Hread. destruct x as [line i1].
  bind_inv Hload entry Hentry. bind_inv Hload y Hparse. destruct y as [index hash].
  destruct (chunks !! index) eqn:Hnone; [done|]. rewrite serialize_chunks_cons in Hin.
  assert (plain (to_string idx ++ COMMA :: h)) as Hp.
  { apply plain_app. split; [by apply plain_to_string|]. constructor; [done|by apply sha256_hex_plain]. }
  destruct (field_cut path input "chunk" _ _ line i1 entry Hin (plain_str "chunk" eq_refl) Hp Hread Hentry)
    as [[-> Hi1]|[Hcut Hend]].
  - rewrite parse_chunk_entry_spec in Hparse by lia. injection Hparse as <- <-.
    destruct (IH (idx + 1) i1 _ Hl ltac:(lia) ltac:(lia) Hi1 Hload) as (hs & Hpre & Hnew & Hold).
    exists (h :: hs). split_and!.
    + by constructor.
    + intros j Hj. rewrite len_cons in Hj. destruct (decide (j = 0)) as [->|].
      * rewrite Z.add_0_r, Hold by lia. apply lookup_insert_eq.
      * replace (idx + j) with (idx + 1 + (j - 1)) by lia. rewrite Hnew by lia.
        by replace (Z.to_nat j) with (S (Z.to_nat (j - 1))) by lia.
    + intros j Hj. rewrite Hold by lia. by rewrite lookup_insert_ne by lia.
  - apply parse_chunk_entry_cut with (i := idx) (h := h) in Hparse as [-> Hhash]; [|lia|done].
    destruct l as [|h' l].
    + injection Hload as <- <-. exists [hash]. split_and!.
      * by constructor.
      * intros j Hj. assert (j = 0) as -> by (unfold len in Hj; simpl in Hj; lia).
        rewrite Z.add_0_r. apply lookup_insert_eq.
      * intros j Hj. by rewrite lookup_insert_ne by lia.
    + cbn [length load_chunks] in Hload. bind_inv Hload x Hread'.
      destruct (read_line_ended (str "Unexpected end of manifest: " ++ path) i1 Hend) as [e He].
      unfold Manifest.read_line in Hread'. congruence.
Qed.

Lemma hashes_cut hs hashes :
  Forall2 prefix hs hashes → Forall (λ h, is_sha256_hex h = true) hs →
  Forall (λ h, is_sha256_hex h = true) hashes → hs = hashes.
Proof.
  induction 1 as [|h h' hs hashes [q ->] _ IH]; [done|]. intros [H1 Hs1]%Forall_cons [H2 Hs2]%Forall_cons.
  f_equal; [|by apply IH]. apply is_sha256_hex_spec in H1 as [H1 _], H2 as [H2 _].
  rewrite length_app in H2. destruct q; [by rewrite app_nil_r|simpl in H2; lia].
Qed.

(** The count and the chunks of a file that was cut before them or in them. *)
Lemma chunk_lines_cut path m i l i' text count chunks i2 hashes :
  Forall (λ h, is_sha256_hex h = true) (chunk_hashes m) → len (chunk_hashes m) ≤ kMaxChunkCount →
  at_cut i (str "chunk_count" ++ str "=" ++ to_string (len (chunk_hashes m)) ++ LF ::
            serialize_chunks 0 (chunk_hashes m)) →
  Manifest.read_line i path = Ok (l, i') → require_field l "chunk_count" = Ok text →
  parse_unsigned 32 text "chunk_count" = Ok count →
  load_chunks path (Z.to_nat count) i' ∅ = Ok (chunks, i2) →
  collect_chunks (Z.to_nat count) 0 chunks [] = Ok hashes →
  Forall (λ h, is_sha256_hex h = true) hashes → len hashes = len (chunk_hashes m) →
  hashes = chunk_hashes m.
Proof.
  intros Hhashes Hcount Hin Hr Hq Hc Hchunks Hcollect Hhashes' Hlen.
  unfold kMaxChunkCount in Hcount. pose proof (len_nonneg (chunk_hashes m)) as Hnn.
  destruct (field_cut path i "chunk_count" _ _ _ _ _ Hin (plain_str "chunk_count" eq_refl)
    (plain_to_string _ Hnn) Hr Hq) as [[-> Hin']|[_ Hend]].
  - unfold parse_unsigned in Hc. rewrite parse_field_to_string in Hc by lia. apply Ok_inj in Hc as <-.
    replace (Z.to_nat (len (chunk_hashes m))) with (length (chunk_hashes m)) in * by (unfold len; lia).
    destruct (load_chunks_cut path (chunk_hashes m) 0 i' ∅ chunks i2 Hhashes ltac:(lia) ltac:(lia) Hin' Hchunks)
      as (hs & Hpre & Hnew & _).
    rewrite (collect_chunks_spec _ 0 chunks [] hs) in Hcollect.
    + apply Ok_inj in Hcollect as <-. by apply hashes_cut.
    + by eapply Forall2_length.
    + intros j Hj. apply Hnew. unfold len. lia.
  - destruct (Z.to_nat count) as [|n] eqn:En.
    + cbn in Hcollect. apply Ok_inj in Hcollect as <-. unfold len in *. simpl in Hlen.
      destruct (chunk_hashes m); [done|simpl in *; lia].
    + cbn [load_chunks] in Hchunks. bind_inv Hchunks x Hr6.
      destruct (read_line_ended (str "Unexpected end of manifest: " ++ path) i' Hend). unfold Manifest.read_line in Hr6. congruence.
Qed.

(** A manifest file that was cut anywhere loads as the manifest it was to hold,
    or not at all. *)
Lemma load_cut path m text p m' :
  manifest_ok m → serialize m = Ok text → p `prefix_of` text → load path (Some p) = Ok m' → m' = m.
Proof.
  intros Hm Htext Hp Hload. pose proof Hm as (Hv & Hsize & Hcs).
  pose proof (load_sound _ _ _ Hload) as (Hv' & _ & _).
  rewrite serialize_text, Hv in Htext. cbn [rbind] in Htext. apply Ok_inj in Htext as <-.
  apply validate_spec in Hv as (_ & _ & _ & Hsha & Hexp & Hcount & Hhashes).
  apply validate_spec in Hv' as (_ & _ & _ & _ & Hexp' & _ & Hhashes').
  unfold load in Hload. change (negb (is_ok_stream _)) with false in Hload. cbv iota in Hload.
  match type of Hp with _ `prefix_of` ?t => assert (at_cut (open_ifstream (Some p)) t) as Hin
    by (exists p; split; [done|apply open_at_rest]) end.
  bind_inv Hload x Hr0. destruct x as [l0 i0]. destruct (negb _); [done|].
  bind_inv Hload x Hr1. destruct x as [l1 i1]. bind_inv Hload t1 Hq1. bind_inv Hload name Hname.
  bind_inv Hload x Hr2. destruct x as [l2 i2]. bind_inv Hload t2 Hq2. bind_inv Hload fsize Hfsize.
  bind_inv Hload x Hr3. destruct x as [l3 i3]. bind_inv Hload t3 Hq3. bind_inv Hload csize Hcsize.
  bind_inv Hload x Hr4. destruct x as [l4 i4]. bind_inv Hload digest Hq4.
  bind_inv Hload x Hr5. destruct x as [l5 i5]. bind_inv Hload t5 Hq5. bind_inv Hload count Hc.
  destruct (count >? kMaxChunkCount); [done|]. bind_inv Hload x Hchunks. destruct x as [chunks i6].
  destruct (is_getline i6) as [[[] ?] ?]; [done|]. bind_inv Hload hashes Hcollect.
  bind_skip Hload u. apply Ok_inj in Hload as <-. cbn [file_name file_size_bytes chunk_size_bytes
    file_sha256 chunk_hashes] in *.
  apply (read_line_cut _ _ _ _ _ _ Hin (plain_str "SWARMSYNC_MANIFEST_V1" eq_refl)) in Hr0
    as [[_ Hin0]|[_ Hend]].
  2:{ destruct (read_line_ended (str "Unexpected end of manifest: " ++ path) i0 Hend). unfold Manifest.read_line in Hr1. congruence. }
  destruct (field_next path i0 "file_name" _ _ _ _ _ _ Hin0 (plain_str "file_name" eq_refl)
    (hex_encode_plain _) Hr1 Hq1 Hr2) as [-> Hin1].
  rewrite hex_decode_encode in Hname. apply Ok_inj in Hname as <-.
  destruct (field_next path i1 "file_size" _ _ _ _ _ _ Hin1 (plain_str "file_size" eq_refl)
    (plain_to_string (file_size_bytes m) ltac:(lia)) Hr2 Hq2 Hr3) as [-> Hin2].
  unfold parse_unsigned in Hfsize. rewrite parse_field_to_string in Hfsize by lia. apply Ok_inj in Hfsize as <-.
  destruct (field_next path i2 "chunk_size" _ _ _ _ _ _ Hin2 (plain_str "chunk_size" eq_refl)
    (plain_to_string (chunk_size_bytes m) ltac:(lia)) Hr3 Hq3 Hr4) as [-> Hin3].
  unfold parse_unsigned in Hcsize. rewrite parse_field_to_string in Hcsize by lia. apply Ok_inj in Hcsize as <-.
  destruct (field_next path i3 "file_sha256" _ _ _ _ _ _ Hin3 (plain_str "file_sha256" eq_refl)
    (sha256_hex_plain _ Hsha) Hr4 Hq4 Hr5) as [-> Hin4].
  assert (hashes = chunk_hashes m) as ->; [|by destruct m].
  eapply chunk_lines_cut; try done. by rewrite Hexp', Hexp.
Qed.

(** ** Properties *)

(** C13: a saved manifest is never another manifest: whatever system calls fail,
    [save] ends, touches only its file and leaks no descriptor; when it returns
    or throws after opening the file, what it left there loads as the manifest
    that was saved or not at all, even if the last write failed unnoticed; when
    no call fails it returns and the file loads as that manifest. *)
Theorem saved_manifest_safe m path s :
  manifest_ok m → os_ok s →
  let '(r, s') := save m path s in
  let loads_as_saved := ∀ f m', files s' !! path = Some f → load path (Some (data f)) = Ok m' → m' = m in
  fds s' = fds s ∧ bad_closes s' = bad_closes s ∧ (∀ q, q ≠ path → files s' !! q = files s !! q) ∧
  match r with
  | Ok _ => loads_as_saved ∧
            (script s = [] → ∃ f, files s' !! path = Some f ∧ load path (Some (data f)) = Ok m)
  | Throw e => e ≠ Diverged ∧ script s ≠ [] ∧ (files s' !! path = files s !! path ∨ loads_as_saved)
  end.
Proof.
  intros Hm Hos. destruct (serialize_ok m Hm) as [text Htext].
  pose proof (save_spec path text (files s) (fds s) (bad_closes s) (history s) m (script s) Htext s
    (at_start (λ _, True) s Hos I)) as Hs.
  assert (∀ p f m', data p `prefix_of` text → <[path := p]> (files s) !! path = Some f →
            load path (Some (data f)) = Ok m' → m' = m) as Hload.
  { intros p f m' Hp Hf Hl. rewrite lookup_insert_eq in Hf. injection Hf as <-. by eapply load_cut. }
  destruct (save m path s) as [[u|e] s'].
  - destruct Hs as (p & sc & Hp & Htxt & [Hf Hd Hb _ _ _ _]). rewrite Hf. split_and!; try done.
    + intros q Hq. by apply lookup_insert_ne.
    + intros f m'. by apply Hload.
    + intros Hsc. exists p. split; [apply lookup_insert_eq|]. rewrite Htxt by done. by apply load_serialize.
  - destruct Hs as ([He Hsc] & [[sc [Hf Hd Hb _ _ _ _]]|(p & sc & Hp & [Hf Hd Hb _ _ _ _])]); rewrite Hf.
    + split_and!; try done. by left.
    + split_and!; try done; [by intros q Hq; apply lookup_insert_ne|]. right. intros f m'. by apply Hload.
Qed.

(** *** Witness, and a save whose failure nobody sees *)

Definition example_empty_disk (sc : list outcome) : os :=
  {| files := ∅; fds := ∅; next_fd := 3; bad_closes := 0; script := sc; history := [] |}.

Lemma example_empty_disk_ok sc : os_ok (example_empty_disk sc).
Proof. split; [done|]. intros fd [z Hz]. cbn in Hz. by rewrite lookup_empty in Hz. Qed.

(** The write of the destructor fails: [save] returns, and the file is empty. *)
Lemma save_can_lose_everything :
  (save example_manifest (str "m") (example_empty_disk [Works; Fails (str "No space left on device")])).1 = Ok tt ∧
  data <$> files (save example_manifest (str "m") (example_empty_disk [Works; Fails (str "No space left on device")])).2
    !! str "m" = Some [].
Proof. vm_compute. done. Qed.

Lemma saved_manifest_safe_witness :
  (save example_manifest (str "m") (example_empty_disk [])).1 = Ok tt ∧
  ∃ f, files (save example_manifest (str "m") (example_empty_disk [])).2 !! str "m" = Some f ∧
       load (str "m") (Some (data f)) = Ok example_manifest.
Proof.
  pose proof (saved_manifest_safe example_manifest (str "m") (example_empty_disk []) example_manifest_ok
    (example_empty_disk_ok [])) as H.
  assert ((save example_manifest (str "m") (example_empty_disk [])).1 = Ok tt) as Hr by (vm_compute; reflexivity).
  destruct (save example_manifest (str "m") (example_empty_disk [])) as [r s']. cbn [fst snd] in *. subst r.
  split; [reflexivity|]. destruct H as (_ & _ & _ & _ & H). apply H. reflexivity.
Defined.
