(* ===== verification/Sockets.v ===== *)
(** * Sockets: opening, accepting and configuring TCP sockets

    The descriptor half of [src/src/protocol.cpp]: the [Socket] class,
    [connect_tcp], [listen_tcp], [accept_tcp], [bound_port] and
    [set_socket_timeout] over the process's descriptor table, which other
    threads share.  Any system call may fail or be interrupted, and before any
    of them other threads may open descriptors; [open] and [socket] return the
    lowest free number.  [getaddrinfo] is a parameter. *)

From S2P Require Export Prelude.
From S2P Require Import Hoare Text Protocol Posix.

#[local] Open Scope Z_scope.

(** ** Definitions *)

(** A socket address: its family, the numeric form of its host, and the port
    in host byte order. *)
Record address := { family : Z; numeric_host : bytes; address_port : Z }.

Definition AF_INET : Z := 2.
Definition AF_INET6 : Z := 10.
Definition FD_CLOEXEC : Z := 1.
Definition O_RDWR : Z := 2.
Definition O_NONBLOCK : Z := 2048.

(** An error number is its text. *)
Definition EINPROGRESS : bytes := str "Operation now in progress".
Definition EBADF : bytes := str "Bad file descriptor".

(** Whose descriptor it is: of the call that is modelled, or of the rest of
    the process. *)
Inductive party := Ours | Theirs.

(** How far a connection is: under way, up, or failed with an error that
    [SO_ERROR] has not read yet. *)
Inductive connection_state :=
| Unconnected
| Connecting (peer : address)
| Connected (peer : address)
| Broken (errno : bytes).

Record descriptor := {
  owner : party;
  fd_flags : Z;
  status_flags : Z;
  reuse_address : bool;
  receive_timeout : option (Z * Z);
  send_timeout : option (Z * Z);
  local_address : address;
  connection : connection_state;
  shut_down : bool;
  listening : option Z
}.

(** What the next system call does.  [Gives] is the error with which a
    connection fails while [poll] waits for it, [Expires] the end of the time
    [poll] waits, [Assigns] the port a [bind] to port 0 gets; where they do not
    apply the call works. *)
Inductive answer :=
| Yields
| Gives (errno : bytes)
| Expires
| Assigns (port : Z)
| Interrupts
| Refuses (errno : bytes).

(** A call: the other threads open descriptors, then the call answers. *)
Record event := { opened_by_others : nat; answered : answer }.

(** [refused_timeouts] counts the failed [setsockopt] calls for a timeout,
    [stray_closes] the [close] calls on a free number and [foreign_closes]
    those on a descriptor of another thread. *)
Record sockets := {
  table : gmap Z descriptor;
  events : list event;
  arrivals : list address;
  address_lists : Z;
  refused_timeouts : Z;
  stray_closes : Z;
  foreign_closes : Z
}.

Definition with_table (t : gmap Z descriptor) (s : sockets) : sockets :=
  {| table := t; events := events s; arrivals := arrivals s; address_lists := address_lists s;
     refused_timeouts := refused_timeouts s; stray_closes := stray_closes s;
     foreign_closes := foreign_closes s |}.

(** The lowest free descriptor number. *)
Definition lowest_free (t : gmap Z descriptor) : Z :=
  match List.find (λ fd, bool_decide (t !! fd = None)) (seqZ 0 (Z.of_nat (S (size t)))) with
  | Some fd => fd
  | None => 0
  end.

Definition unspecified (f : Z) : address := {| family := f; numeric_host := []; address_port := 0 |}.

Definition new_descriptor (who : party) (f : Z) : descriptor :=
  {| owner := who; fd_flags := 0; status_flags := O_RDWR; reuse_address := false;
     receive_timeout := None; send_timeout := None; local_address := unspecified f;
     connection := Unconnected; shut_down := false; listening := None |}.

Fixpoint others_open (n : nat) (t : gmap Z descriptor) : gmap Z descriptor :=
  match n with
  | O => t
  | S n' => others_open n' (<[lowest_free t := new_descriptor Theirs AF_INET]> t)
  end.

(** The start of every system call. *)
Definition call : io sockets answer := λ s,
  match events s with
  | [] => (Ok Yields, s)
  | e :: es =>
      (Ok (answered e),
       {| table := others_open (opened_by_others e) (table s); events := es; arrivals := arrivals s;
          address_lists := address_lists s; refused_timeouts := refused_timeouts s;
          stray_closes := stray_closes s; foreign_closes := foreign_closes s |})
  end.

(** *** System calls *)

Definition sys_socket (f : Z) : io sockets sysres :=
  do a <- call;
  match a with
  | Refuses e => ret (Errno e)
  | Interrupts => ret EINTR
  | _ => λ s,
      let fd := lowest_free (table s) in
      (Ok (Done fd), with_table (<[fd := new_descriptor Ours f]> (table s)) s)
  end.

(** A call on [fd] that applies [f] to its descriptor. *)
Definition on_descriptor (fd : Z) (f : answer → descriptor → Z * descriptor) : io sockets sysres :=
  do a <- call;
  match a with
  | Refuses e => ret (Errno e)
  | Interrupts => ret EINTR
  | _ => λ s,
      match table s !! fd with
      | None => (Ok (Errno EBADF), s)
      | Some d => let '(n, d') := f a d in (Ok (Done n), with_table (<[fd := d']> (table s)) s)
      end
  end.

(** [fcntl(fd, F_GETFD)] and so on. *)
Definition fcntl_getfd (fd : Z) : io sockets sysres := on_descriptor fd (λ _ d, (fd_flags d, d)).
Definition fcntl_getfl (fd : Z) : io sockets sysres := on_descriptor fd (λ _ d, (status_flags d, d)).
Definition set_fd_flags (flags : Z) (d : descriptor) : descriptor :=
  {| owner := owner d; fd_flags := flags; status_flags := status_flags d; reuse_address := reuse_address d;
     receive_timeout := receive_timeout d; send_timeout := send_timeout d;
     local_address := local_address d; connection := connection d; shut_down := shut_down d; listening := listening d |}.
Definition set_status_flags (flags : Z) (d : descriptor) : descriptor :=
  {| owner := owner d; fd_flags := fd_flags d; status_flags := flags; reuse_address := reuse_address d;
     receive_timeout := receive_timeout d; send_timeout := send_timeout d;
     local_address := local_address d; connection := connection d; shut_down := shut_down d; listening := listening d |}.
Definition fcntl_setfd (fd flags : Z) : io sockets sysres :=
  on_descriptor fd (λ _ d, (0, set_fd_flags flags d)).
Definition fcntl_setfl (fd flags : Z) : io sockets sysres :=
  on_descriptor fd (λ _ d, (0, set_status_flags flags d)).

Definition set_connection (c : connection_state) (d : descriptor) : descriptor :=
  {| owner := owner d; fd_flags := fd_flags d; status_flags := status_flags d;
     reuse_address := reuse_address d; receive_timeout := receive_timeout d;
     send_timeout := send_timeout d; local_address := local_address d; connection := c;
     shut_down := shut_down d; listening := listening d |}.

(** [connect] on a non-blocking socket: after [EINPROGRESS] the connection is
    under way. *)
Definition sys_connect (fd : Z) (a : address) : io sockets sysres := λ s,
  let '(r, s') := call s in
  match r, table s' !! fd with
  | Ok Interrupts, _ => (Ok EINTR, s')
  | Ok (Refuses e), Some d =>
      (Ok (Errno e), if beq e EINPROGRESS
                     then with_table (<[fd := set_connection (Connecting a) d]> (table s')) s' else s')
  | Ok _, None => (Ok (Errno EBADF), s')
  | Ok _, Some d => (Ok (Done 0), with_table (<[fd := set_connection (Connected a) d]> (table s')) s')
  | Throw e, _ => (Throw e, s')
  end.

(** A connection under way comes up or fails. *)
Definition settle (r : answer) (d : descriptor) : descriptor :=
  match connection d with
  | Connecting a => set_connection (match r with Gives e => Broken e | _ => Connected a end) d
  | _ => d
  end.

(** [poll] for [POLLOUT]: 1 once the connection is no longer under way, 0 when
    the time is over, which with a negative timeout it never is. *)
Definition sys_poll (fd timeout : Z) : io sockets sysres :=
  do a <- call;
  match a with
  | Refuses e => ret (Errno e)
  | Interrupts => ret EINTR
  | _ => λ s,
      if (match a with Expires => true | _ => false end) && (0 <=? timeout) then (Ok (Done 0), s)
      else match table s !! fd with
           | None => (Ok (Done 1), s)
           | Some d => (Ok (Done 1), with_table (<[fd := settle a d]> (table s)) s)
           end
  end.

(** [getsockopt(fd, SOL_SOCKET, SO_ERROR)] and the value it reads, [None] for
    0; reading clears it. *)
Definition getsockopt_error (fd : Z) : io sockets (sysres * option bytes) :=
  do a <- call;
  match a with
  | Refuses e => ret (Errno e, None)
  | Interrupts => ret (EINTR, None)
  | _ => λ s,
      match table s !! fd with
      | None => (Ok (Errno EBADF, None), s)
      | Some d =>
          match connection d with
          | Broken e => (Ok (Done 0, Some e), with_table (<[fd := set_connection Unconnected d]> (table s)) s)
          | _ => (Ok (Done 0, None), s)
          end
      end
  end.

(** [shutdown(fd, SHUT_RDWR)] works on a socket that listens or is connected,
    and ends a blocked [accept]. *)
Definition set_shut_down (d : descriptor) : descriptor :=
  {| owner := owner d; fd_flags := fd_flags d; status_flags := status_flags d;
     reuse_address := reuse_address d; receive_timeout := receive_timeout d;
     send_timeout := send_timeout d; local_address := local_address d; connection := connection d;
     shut_down := true; listening := listening d |}.
Definition sys_shutdown (fd : Z) : io sockets sysres :=
  do _ <- call;
  λ s, match table s !! fd with
       | None => (Ok (Errno EBADF), s)
       | Some d =>
           match listening d, connection d with
           | None, (Unconnected | Connecting _ | Broken _) =>
               (Ok (Errno (str "Transport endpoint is not connected")), s)
           | _, _ => (Ok (Done 0), with_table (<[fd := set_shut_down d]> (table s)) s)
           end
       end.

Definition set_receive_timeout (tv : Z * Z) (d : descriptor) : descriptor :=
  {| owner := owner d; fd_flags := fd_flags d; status_flags := status_flags d;
     reuse_address := reuse_address d; receive_timeout := Some tv; send_timeout := send_timeout d;
     local_address := local_address d; connection := connection d; shut_down := shut_down d; listening := listening d |}.
Definition set_send_timeout (tv : Z * Z) (d : descriptor) : descriptor :=
  {| owner := owner d; fd_flags := fd_flags d; status_flags := status_flags d;
     reuse_address := reuse_address d; receive_timeout := receive_timeout d; send_timeout := Some tv;
     local_address := local_address d; connection := connection d; shut_down := shut_down d; listening := listening d |}.

(** [setsockopt] for [SO_RCVTIMEO] and [SO_SNDTIMEO]. *)
Definition setsockopt_timeout (fd : Z) (set : descriptor → descriptor) : io sockets sysres :=
  do r <- on_descriptor fd (λ _ d, (0, set d));
  λ s, (Ok r,
        {| table := table s; events := events s; arrivals := arrivals s; address_lists := address_lists s;
           refused_timeouts := refused_timeouts s + (if failed r then 1 else 0);
           stray_closes := stray_closes s; foreign_closes := foreign_closes s |}).

Definition setsockopt_reuse (fd : Z) : io sockets sysres :=
  on_descriptor fd (λ _ d, (0,
    {| owner := owner d; fd_flags := fd_flags d; status_flags := status_flags d; reuse_address := true;
       receive_timeout := receive_timeout d; send_timeout := send_timeout d;
       local_address := local_address d; connection := connection d; shut_down := shut_down d; listening := listening d |})).

(** [bind]: port 0 becomes the port the system assigns. *)
Definition bound_to (a : address) (r : answer) : address :=
  {| family := family a; numeric_host := numeric_host a;
     address_port := if address_port a =? 0
                     then match r with Assigns p => p | _ => 32768 end else address_port a |}.
Definition sys_bind (fd : Z) (a : address) : io sockets sysres :=
  on_descriptor fd (λ r d, (0,
    {| owner := owner d; fd_flags := fd_flags d; status_flags := status_flags d;
       reuse_address := reuse_address d; receive_timeout := receive_timeout d;
       send_timeout := send_timeout d; local_address := bound_to a r;
       connection := connection d; shut_down := shut_down d; listening := listening d |})).

Definition sys_listen (fd backlog : Z) : io sockets sysres :=
  on_descriptor fd (λ _ d, (0,
    {| owner := owner d; fd_flags := fd_flags d; status_flags := status_flags d;
       reuse_address := reuse_address d; receive_timeout := receive_timeout d;
       send_timeout := send_timeout d; local_address := local_address d;
       connection := connection d; shut_down := shut_down d; listening := Some backlog |})).

(** [accept] on an open listener: the next peer that arrives; when there is
    none any more, or the listener was shut down, it fails. *)
Definition accepts (d : descriptor) : bool :=
  bool_decide (is_Some (listening d)) && negb (shut_down d).
Definition sys_accept (fd : Z) : io sockets (sysres * address) :=
  do a <- call;
  match a with
  | Refuses e => ret (Errno e, unspecified AF_INET)
  | Interrupts => ret (EINTR, unspecified AF_INET)
  | _ => λ s,
      match table s !! fd, arrivals s with
      | None, _ => (Ok (Errno EBADF, unspecified AF_INET), s)
      | Some d, peer :: arrivals' =>
          if accepts d then
            let accepted := lowest_free (table s) in
            (Ok (Done accepted, peer),
             {| table := <[accepted := set_connection (Connected peer) (new_descriptor Ours (family peer))]>
                           (table s);
                events := events s; arrivals := arrivals'; address_lists := address_lists s;
                refused_timeouts := refused_timeouts s; stray_closes := stray_closes s;
                foreign_closes := foreign_closes s |})
          else (Ok (Errno (str "Invalid argument"), unspecified AF_INET), s)
      | Some _, [] => (Ok (Errno (str "Invalid argument"), unspecified AF_INET), s)
      end
  end.

Definition sys_getsockname (fd : Z) : io sockets (sysres * address) :=
  do a <- call;
  match a with
  | Refuses e => ret (Errno e, unspecified AF_INET)
  | Interrupts => ret (EINTR, unspecified AF_INET)
  | _ => λ s,
      match table s !! fd with
      | None => (Ok (Errno EBADF, unspecified AF_INET), s)
      | Some d => (Ok (Done 0, local_address d), s)
      end
  end.

(** [getnameinfo] with [NI_NUMERICHOST | NI_NUMERICSERV]: the texts, or the
    text of its error. *)
Definition sys_getnameinfo (a : address) : io sockets (bytes + bytes * bytes) :=
  do r <- call;
  match r with
  | Refuses e => ret (inl e)
  | _ => ret (inr (numeric_host a, to_string (address_port a)))
  end.

(** [close] releases the number whatever it returns. *)
Definition sys_close (fd : Z) : io sockets unit :=
  do _ <- call;
  λ s, (Ok tt,
        {| table := delete fd (table s); events := events s; arrivals := arrivals s;
           address_lists := address_lists s; refused_timeouts := refused_timeouts s;
           stray_closes := stray_closes s + (match table s !! fd with None => 1 | Some _ => 0 end);
           foreign_closes := foreign_closes s +
             (match table s !! fd with Some {| owner := Theirs |} => 1 | _ => 0 end) |}).

(** *** [src/src/protocol.cpp] *)

Definition throw_socket_error {A} (action : string) (r : sysres) : io sockets A :=
  raise (Error (str action ++ str ": " ++ strerror r)).

Definition close_fd (fd : Z) : io sockets unit := if fd >=? 0 then sys_close fd else ret tt.

Definition set_close_on_exec (fd : Z) : io sockets unit :=
  do flags <- fcntl_getfd fd;
  match flags with
  | Done flags =>
      do r <- fcntl_setfd fd (Z.lor flags FD_CLOEXEC);
      if failed r then throw_socket_error "Unable to set close-on-exec" r else ret tt
  | r => throw_socket_error "Unable to set close-on-exec" r
  end.

Definition set_non_blocking (fd : Z) (enabled : bool) : io sockets unit :=
  do flags <- fcntl_getfl fd;
  match flags with
  | Done flags =>
      let next_flags := if enabled then Z.lor flags O_NONBLOCK else Z.land flags (Z.lnot O_NONBLOCK) in
      do r <- fcntl_setfl fd next_flags;
      if failed r then throw_socket_error "Unable to update socket flags" r else ret tt
  | r => throw_socket_error "Unable to inspect socket flags" r
  end.

(** [static_cast<int>]. *)
Definition to_int (z : Z) : Z := (z + 2 ^ 31) mod 2 ^ 32 - 2 ^ 31.

(** The loop over [poll]. *)
Fixpoint poll_loop (fuel : nat) (fd timeout : Z) : io sockets sysres :=
  match fuel with
  | O => raise Diverged
  | S fuel' =>
      do result <- sys_poll fd (to_int timeout);
      match result with
      | EINTR => poll_loop fuel' fd timeout
      | _ => ret result
      end
  end.

Definition wait_for_connect (fd timeout : Z) : io sockets unit :=
  do result <- (λ s, poll_loop (S (length (events s))) fd timeout s);
  match result with
  | Done 0 => raise_error "TCP connection timed out"
  | Done _ =>
      do read <- getsockopt_error fd;
      let '(r, socket_error) := read in
      if failed r then throw_socket_error "Unable to read connection result" r
      else match socket_error with
           | Some e => throw_socket_error "TCP connection failed" (Errno e)
           | None => ret tt
           end
  | r => throw_socket_error "Unable to poll connecting socket" r
  end.

Definition endpoint_from_address (a : address) : io sockets Endpoint :=
  do result <- sys_getnameinfo a;
  match result with
  | inl e => raise (Error (str "Unable to read peer address: " ++ e))
  | inr (host, service) =>
      do port <- lift (parse_number 16 service "remote port");
      ret {| host := host; port := port |}
  end.

(** The class [Socket]; a moved-from object has the handle -1. *)
Record Socket := { fd_ : Z }.

Definition valid (socket : Socket) : bool := fd_ socket >=? 0.
Definition native_handle (socket : Socket) : Z := fd_ socket.
(** The descriptor and the object afterwards. *)
Definition release (socket : Socket) : Z * Socket := (fd_ socket, {| fd_ := -1 |}).
Definition close (socket : Socket) : io sockets Socket :=
  let '(released, socket) := release socket in
  do _ <- close_fd released; ret socket.
(** The move constructor: the new object and [other] afterwards. *)
Definition move (other : Socket) : Socket * Socket :=
  let '(released, other) := release other in ({| fd_ := released |}, other).
(** [operator=]; [same] is [this == &other].  [*this] and [other] afterwards. *)
Definition assign (same : bool) (this other : Socket) : io sockets (Socket * Socket) :=
  if same then ret (this, other)
  else
    do this <- close this;
    let '(released, other) := release other in
    ret ({| fd_ := released |}, other).

(** The scope of a local [Socket] that [m] returns from: an exception runs its
    destructor. *)
Definition with_socket {A} (socket : Socket) (m : io sockets A) : io sockets A :=
  catch_all m (λ e, do _ <- close socket; raise e).

Definition set_socket_timeout (socket : Socket) (timeout : Z) : io sockets unit :=
  if negb (valid socket) || (timeout <=? 0)
  then raise_error "Socket timeout requires an open socket and positive duration"
  else
    let seconds := Z.quot timeout 1000 in
    let remainder := timeout - seconds * 1000 in
    let value := (seconds, remainder * 1000) in
    do r <- setsockopt_timeout (native_handle socket) (set_receive_timeout value);
    if failed r then throw_socket_error "Unable to configure socket timeout" r
    else
      do r <- setsockopt_timeout (native_handle socket) (set_send_timeout value);
      if failed r then throw_socket_error "Unable to configure socket timeout" r else ret tt.

Definition count_lists (n : Z) : io sockets unit := λ s,
  (Ok tt, {| table := table s; events := events s; arrivals := arrivals s;
             address_lists := address_lists s + n; refused_timeouts := refused_timeouts s;
             stray_closes := stray_closes s; foreign_closes := foreign_closes s |}).
Definition freeaddrinfo : io sockets unit := count_lists (-1).

(** The [try] block of [connect_tcp]: the socket, or why the address is
    skipped. *)
Definition connect_attempt (timeout : Z) (item : address) (fd : Z) : io sockets (Socket + bytes) :=
  do _ <- set_close_on_exec fd;
  do _ <- set_non_blocking fd true;
  do connected <- sys_connect fd item;
  if failed connected && negb (beq (strerror connected) EINPROGRESS)
  then do _ <- close_fd fd; ret (inr (strerror connected))
  else
    do _ <- (if failed connected then wait_for_connect fd timeout else ret tt);
    do _ <- set_non_blocking fd false;
    let socket := {| fd_ := fd |} in
    with_socket socket
      (do _ <- set_socket_timeout socket timeout;
       do _ <- freeaddrinfo;
       ret (inl socket)).

(** The loop over the addresses, with the body [attempt] of its [try] block:
    the socket, or the last error. *)
Fixpoint address_loop (attempt : address → Z → io sockets (Socket + bytes)) (items : list address)
    (last_error : bytes) : io sockets (Socket + bytes) :=
  match items with
  | [] => ret (inr last_error)
  | item :: items' =>
      do opened <- sys_socket (family item);
      match opened with
      | Done fd =>
          do outcome <- catch_error (attempt item fd) (λ what, do _ <- close_fd fd; ret (inr what));
          match outcome with
          | inl socket => ret (inl socket)
          | inr what => address_loop attempt items' what
          end
      | r => address_loop attempt items' (strerror r)
      end
  end.

(** The [try] block of [listen_tcp]. *)
Definition listen_attempt (backlog : Z) (item : address) (fd : Z) : io sockets (Socket + bytes) :=
  do _ <- set_close_on_exec fd;
  do r <- setsockopt_reuse fd;
  if failed r then throw_socket_error "Unable to set SO_REUSEADDR" r
  else
    do r <- sys_bind fd item;
    if failed r then throw_socket_error "Unable to bind TCP listener" r
    else
      do r <- sys_listen fd backlog;
      if failed r then throw_socket_error "Unable to listen on TCP socket" r
      else do _ <- freeaddrinfo; ret (inl {| fd_ := fd |}).

(** [getaddrinfo] for a node, a service and whether [AI_PASSIVE] is set: the
    text of its error, or the addresses. *)
Class Resolver := getaddrinfo : option bytes → bytes → bool → bytes + list address.

Section Resolving.
Context `{Resolver}.

Definition connect_tcp (endpoint : Endpoint) (timeout : Z) : io sockets Socket :=
  if bool_decide (host endpoint = []) || (port endpoint =? 0) || (timeout <=? 0)
  then raise_error "TCP endpoint and timeout must be valid"
  else
    match getaddrinfo (Some (host endpoint)) (to_string (port endpoint)) false with
    | inl e => raise (Error (str "Unable to resolve TCP endpoint: " ++ e))
    | inr results =>
        do _ <- count_lists 1;
        do outcome <- address_loop (connect_attempt timeout) results (str "No reachable address");
        match outcome with
        | inl socket => ret socket
        | inr last_error =>
            do _ <- freeaddrinfo;
            raise (Error (str "Unable to connect to " ++ host endpoint ++ str ":" ++
                          to_string (port endpoint) ++ str ": " ++ last_error))
        end
    end.

Definition listen_tcp (port : Z) (bind_address : bytes) (backlog : Z) : io sockets Socket :=
  if backlog <=? 0 then raise_error "TCP listen backlog must be positive"
  else
    match getaddrinfo (if bool_decide (bind_address = []) then None else Some bind_address)
            (to_string port) true with
    | inl e => raise (Error (str "Unable to resolve listen address: " ++ e))
    | inr results =>
        do _ <- count_lists 1;
        do outcome <- address_loop (listen_attempt backlog) results (str "No bindable address");
        match outcome with
        | inl socket => ret socket
        | inr last_error =>
            do _ <- freeaddrinfo;
            raise (Error (str "Unable to listen on " ++ bind_address ++ str ":" ++ to_string port ++
                          str ": " ++ last_error))
        end
    end.

End Resolving.

(** The loop over [accept]. *)
Fixpoint accept_loop (fuel : nat) (fd : Z) : io sockets (sysres * address) :=
  match fuel with
  | O => raise Diverged
  | S fuel' =>
      do accepted <- sys_accept fd;
      match accepted.1 with
      | EINTR => accept_loop fuel' fd
      | _ => ret accepted
      end
  end.

(** [accept_tcp]: the socket, and what [*remote_endpoint] becomes when
    [wants_endpoint] says that the pointer is not null. *)
Definition accept_tcp (listener : Socket) (wants_endpoint : bool) : io sockets (Socket * option Endpoint) :=
  do accepted <- (λ s, accept_loop (S (length (events s))) (native_handle listener) s);
  match accepted with
  | (Done accepted, peer) =>
      catch_all
        (do _ <- set_close_on_exec accepted;
         do remote_endpoint <- (if wants_endpoint
                                then do e <- endpoint_from_address peer; ret (Some e) else ret None);
         ret ({| fd_ := accepted |}, remote_endpoint))
        (λ e, do _ <- close_fd accepted; raise e)
  | (r, _) => throw_socket_error "Unable to accept TCP connection" r
  end.

(** [ntohs] of the stored port is the port. *)
Definition bound_port (socket : Socket) : io sockets Z :=
  do named <- sys_getsockname (native_handle socket);
  let '(r, a) := named in
  if failed r then throw_socket_error "Unable to read TCP bound port" r
  else if family a =? AF_INET then ret (address_port a)
  else if family a =? AF_INET6 then ret (address_port a)
  else raise_error "TCP socket has an unsupported address family".

(** ** The descriptor table *)

#[global] Instance party_eq_dec : EqDecision party.
Proof. solve_decision. Defined.

(** The descriptors of the modelled code. *)
Definition ours (t : gmap Z descriptor) : gmap Z descriptor := filter (λ p, owner p.2 = Ours) t.

Lemma ours_lookup t fd d : ours t !! fd = Some d ↔ t !! fd = Some d ∧ owner d = Ours.
Proof. apply map_lookup_filter_Some. Qed.

Lemma ours_insert t fd d : owner d = Ours → ours (<[fd := d]> t) = <[fd := d]> (ours t).
Proof. intros Hd. by apply map_filter_insert_True. Qed.

Lemma ours_delete t fd : ours (delete fd t) = delete fd (ours t).
Proof. apply map_filter_delete. Qed.

Lemma ours_insert_theirs t fd d :
  t !! fd = None → owner d = Theirs → ours (<[fd := d]> t) = ours t.
Proof.
  intros Ht Hd. unfold ours. rewrite map_filter_insert_False by (simpl; congruence).
  by rewrite delete_id.
Qed.

Lemma ours_none t fd : t !! fd = None → ours t !! fd = None.
Proof. intros Ht. destruct (ours t !! fd) as [d|] eqn:E; [|done]. apply ours_lookup in E as [? _]. congruence. Qed.

Lemma lowest_free_spec t : t !! lowest_free t = None ∧ 0 ≤ lowest_free t.
Proof.
  unfold lowest_free. set (l := seqZ 0 (Z.of_nat (S (size t)))).
  destruct (List.find _ l) as [fd|] eqn:E.
  - apply find_some in E as [Hin Hfd]. apply bool_decide_eq_true_1 in Hfd. split; [done|].
    apply list_elem_of_In, elem_of_seqZ in Hin. lia.
  - exfalso. assert (list_to_set l ⊆ dom t) as Hsub.
    { intros fd Hin. apply elem_of_list_to_set, list_elem_of_In in Hin.
      apply (find_none _ _ E) in Hin. apply bool_decide_eq_false_1 in Hin.
      apply elem_of_dom. by destruct (t !! fd). }
    apply subseteq_size in Hsub. rewrite size_dom, size_list_to_set in Hsub by apply NoDup_seqZ.
    subst l. rewrite length_seqZ in Hsub. lia.
Qed.

Lemma others_open_ours n t : ours (others_open n t) = ours t.
Proof.
  revert t. induction n as [|n IH]; intros t; [done|]. cbn [others_open]. rewrite IH.
  apply ours_insert_theirs; [apply lowest_free_spec|done].
Qed.

(** ** What the calls do to them *)

(** The close calls on descriptors that were not ours, less the failed timeout
    options. *)
Definition bad (s : sockets) : Z := stray_closes s + foreign_closes s - refused_timeouts s.

Record world (o : gmap Z descriptor) (l k : Z) (s : sockets) : Prop := {
  world_ours : ours (table s) = o;
  world_lists : address_lists s = l;
  world_bad : bad s = k
}.

#[local] Abbreviation no_throw := (λ (_ : exn) (_ : sockets), False).

Lemma call_spec o l k : triple (world o l k) call (λ _, world o l k) no_throw.
Proof.
  intros s [Ho Hl Hk]. unfold call. destruct (events s) as [|e es]; [done|].
  split; [|done..]. cbn. by rewrite others_open_ours.
Qed.

Lemma on_descriptor_spec o l k fd d f :
  o !! fd = Some d → (∀ a, owner (f a d).2 = Ours) →
  triple (world o l k) (on_descriptor fd f)
    (λ r s, match r with
            | Done n => ∃ a, n = (f a d).1 ∧ world (<[fd := (f a d).2]> o) l k s
            | _ => world o l k s
            end) no_throw.
Proof.
  intros Hd Hf. unfold on_descriptor. eapply triple_bind_safe; [apply call_spec|].
  intros a s Hs. pose proof Hs as [Ho Hl Hk]. rewrite <-Ho in Hd. apply ours_lookup in Hd as [Hd _].
  assert (∀ r, world (<[fd := (f r d).2]> o) l k (with_table (<[fd := (f r d).2]> (table s)) s)) as Hset.
  { intros r. split; [|done..]. cbn. by rewrite ours_insert, Ho. }
  assert (∀ r, let '(n, d') := f r d in ∃ a, n = (f a d).1 ∧
            world (<[fd := (f a d).2]> o) l k (with_table (<[fd := d']> (table s)) s)) as Hgo.
  { intros r. specialize (Hset r). destruct (f r d) as [n d'] eqn:E. exists r. by rewrite E. }
  specialize (Hgo a).
  destruct a; try done; rewrite Hd; by destruct (f _ d).
Qed.

Lemma close_free o l k fd :
  o !! fd = None → 0 ≤ fd → triple (world o l k) (close_fd fd) (λ _, world o l (k + 1)) no_throw.
Proof.
  intros Hn Hfd. unfold close_fd. rewrite (proj2 (Z.geb_le _ _) Hfd). unfold sys_close.
  eapply triple_bind_safe; [apply call_spec|]. intros a s [Ho Hl Hk].
  assert (ours (delete fd (table s)) = o) as Hd by (rewrite ours_delete, Ho; by apply delete_id).
  split; [done|done|]. unfold bad in *. cbn. destruct (table s !! fd) as [d|] eqn:E; [|lia].
  destruct d as [[] ? ? ? ? ? ? ? ? ?]; [|lia]. exfalso.
  assert (ours (table s) !! fd = None) as Hx by (by rewrite Ho).
  rewrite (proj2 (ours_lookup _ _ _) (conj E eq_refl)) in Hx. done.
Qed.

Section Held.
Variables (o : gmap Z descriptor) (l k fd : Z).
Hypotheses (fd_new : o !! fd = None) (fd_nonneg : 0 ≤ fd).

#[local] Abbreviation at_fd d := (world (<[fd := d]> o) l k).

(** [fd] is ours, in whatever state. *)
Definition held (k : Z) (s : sockets) : Prop := ∃ d, owner d = Ours ∧ world (<[fd := d]> o) l k s.
#[local] Abbreviation fails := (λ e s, is_error e ∧ held k s).

Lemma held_call d f :
  (∀ a, owner (f a d).2 = Ours) →
  triple (at_fd d) (on_descriptor fd f)
    (λ r s, match r with
            | Done n => ∃ a, n = (f a d).1 ∧ at_fd (f a d).2 s
            | _ => at_fd d s
            end) no_throw.
Proof.
  intros Hf. eapply triple_conseq; [by apply on_descriptor_spec, Hf; apply lookup_insert_eq|done| |done].
  intros [n| |e] s; [|done..]. intros (a & Hn & Hs). exists a. split; [done|]. by rewrite insert_insert_eq in Hs.
Qed.

Lemma close_held k' : triple (held k') (close_fd fd) (λ _, world o l k') no_throw.
Proof.
  intros s (d & Hown & Hs). revert s Hs. unfold close_fd. rewrite (proj2 (Z.geb_le _ _) fd_nonneg).
  unfold sys_close. eapply triple_bind_safe; [apply call_spec|]. intros a s [Ho Hl Hk].
  assert (table s !! fd = Some d) as Hd by (eapply ours_lookup; rewrite Ho; apply lookup_insert_eq).
  split; [|done|].
  - cbn. by rewrite ours_delete, Ho, delete_insert_id.
  - unfold bad in *. cbn. rewrite Hd. destruct d as [[] ? ? ? ? ? ? ? ? ?]; [lia|done].
Qed.

Lemma throw_spec {A} d action r Q :
  owner d = Ours → triple (at_fd d) (@throw_socket_error A action r) Q fails.
Proof. intros Hd. apply triple_raise. intros s Hs. split; [by eexists|]. by exists d. Qed.

Lemma set_close_on_exec_spec d :
  owner d = Ours →
  triple (at_fd d) (set_close_on_exec fd)
    (λ _, at_fd (set_fd_flags (Z.lor (fd_flags d) FD_CLOEXEC) d)) fails.
Proof.
  intros Hd. unfold set_close_on_exec, fcntl_getfd, fcntl_setfd.
  eapply triple_bind_safe; [by apply held_call|]. intros [n| |e]; try by apply throw_spec.
  apply triple_ex. intros a. apply triple_pure. intros ->.
  eapply triple_bind_safe; [by apply held_call|]. intros [n| |e]; try by apply throw_spec.
  apply triple_ret'. by intros s (_ & _ & Hs).
Qed.

Definition blocking_flags (enabled : bool) (flags : Z) : Z :=
  if enabled then Z.lor flags O_NONBLOCK else Z.land flags (Z.lnot O_NONBLOCK).

Lemma set_non_blocking_spec d enabled :
  owner d = Ours →
  triple (at_fd d) (set_non_blocking fd enabled)
    (λ _, at_fd (set_status_flags (blocking_flags enabled (status_flags d)) d)) fails.
Proof.
  intros Hd. unfold set_non_blocking, fcntl_getfl, fcntl_setfl.
  eapply triple_bind_safe; [by apply held_call|]. intros [n| |e]; try by apply throw_spec.
  apply triple_ex. intros a. apply triple_pure. intros ->.
  eapply triple_bind_safe; [by apply held_call|]. intros [n| |e]; try by apply throw_spec.
  apply triple_ret'. by intros s (_ & _ & Hs).
Qed.

Lemma sys_connect_spec d a :
  owner d = Ours →
  triple (at_fd d) (sys_connect fd a)
    (λ r, if failed r
          then if beq (strerror r) EINPROGRESS then at_fd (set_connection (Connecting a) d) else at_fd d
          else at_fd (set_connection (Connected a) d)) no_throw.
Proof.
  intros Hd s Hs. unfold sys_connect. pose proof (call_spec _ _ _ s Hs) as Hc.
  destruct (call s) as [[r|e] s']; [|done]. pose proof Hc as [Ho Hl Hk].
  assert (table s' !! fd = Some d) as Ht by (eapply ours_lookup; rewrite Ho; apply lookup_insert_eq).
  assert (∀ c, at_fd (set_connection c d) (with_table (<[fd := set_connection c d]> (table s')) s')) as Hset.
  { intros c. split; [|done..]. cbn. by rewrite ours_insert, Ho, insert_insert_eq. }
  rewrite Ht. destruct r as [| | | | |e]; cbn [failed strerror]; try apply Hset.
  - by destruct (beq _ EINPROGRESS) eqn:E; [vm_compute in E|].
  - destruct (beq e EINPROGRESS); [apply Hset|done].
Qed.

(** The descriptor after [poll] said that the connection is decided. *)
Definition decided (a : address) (d d' : descriptor) : Prop :=
  d' = set_connection (Connected a) d ∨ ∃ e, d' = set_connection (Broken e) d.

Lemma sys_poll_spec d a timeout s :
  owner d = Ours → connection d = Connecting a → at_fd d s →
  let '(r, s') := sys_poll fd timeout s in
  match r with
  | Ok (Done n) => n = 0 ∧ at_fd d s' ∨ n = 1 ∧ ∃ d', decided a d d' ∧ at_fd d' s'
  | Ok EINTR => at_fd d s' ∧ (length (events s') < length (events s))%nat
  | Ok _ => at_fd d s'
  | Throw _ => False
  end.
Proof.
  intros Hd Hc Hs. unfold sys_poll, bind. pose proof (call_spec _ _ _ s Hs) as Hcall.
  assert ((call s).1 = Ok Interrupts → (length (events (call s).2) < length (events s))%nat) as Hev.
  { unfold call. destruct (events s); cbn; [done|lia]. }
  destruct (call s) as [[r|e] s']; [|done]. cbn in Hev. pose proof Hcall as [Ho Hl Hk].
  assert (table s' !! fd = Some d) as Ht by (eapply ours_lookup; rewrite Ho; apply lookup_insert_eq).
  assert (decided a d (settle r d) ∧
          at_fd (settle r d) (with_table (<[fd := settle r d]> (table s')) s')) as Hset.
  { assert (decided a d (settle r d)) as Hdec
      by (unfold settle; rewrite Hc; destruct r; first [by left|by right; eexists]).
    split; [done|]. split; [|done..]. cbn. rewrite ours_insert, Ho, insert_insert_eq; [done|].
    by destruct Hdec as [->|[e ->]]. }
  destruct r; cbn -[settle with_table]; rewrite ?Ht;
    try (right; split; [done|]; by eexists); try done.
  - destruct (0 <=? timeout); [by left|]. right. split; [done|]. by eexists.
  - split; [done|]. by apply Hev.
Qed.

(** The loop ends: every interruption is an event. *)
Lemma poll_loop_spec d a fuel timeout :
  owner d = Ours → connection d = Connecting a →
  triple (λ s, at_fd d s ∧ (length (events s) < fuel)%nat) (poll_loop fuel fd timeout)
    (λ r s, match r with
            | Done 0 => at_fd d s
            | Done _ => ∃ d', decided a d d' ∧ at_fd d' s
            | _ => at_fd d s
            end) no_throw.
Proof.
  intros Hd Hc. induction fuel as [|fuel IH]; intros s [Hs Hf]; [lia|]. cbn [poll_loop].
  unfold bind at 1. pose proof (sys_poll_spec d a (to_int timeout) s Hd Hc Hs) as Hp.
  destruct (sys_poll fd (to_int timeout) s) as [[[n| |e]|e] s']; [|..|done].
  - by destruct Hp as [[-> ?]|[-> ?]].
  - destruct Hp as [Hs' Hev]. apply (IH s'). split; [done|lia].
  - exact Hp.
Qed.

(** It returns only when the connection is up. *)
Lemma wait_for_connect_spec d a timeout :
  owner d = Ours → connection d = Connecting a →
  triple (at_fd d) (wait_for_connect fd timeout) (λ _, at_fd (set_connection (Connected a) d)) fails.
Proof.
  intros Hd Hc. unfold wait_for_connect.
  eapply triple_bind_safe with (R := λ r s, match r with
            | Done 0 => at_fd d s
            | Done _ => ∃ d', decided a d d' ∧ at_fd d' s
            | _ => at_fd d s
            end).
  { intros s Hs. apply (poll_loop_spec d a); [done..|]. split; [done|lia]. }
  assert (∀ d' A e Q, owner d' = Ours → triple (at_fd d') (@raise_error sockets A e) Q fails) as Hraise.
  { intros d' A e Q Hd'. apply triple_raise. intros s Hs. split; [by eexists|]. by exists d'. }
  assert (∀ d', decided a d d' → triple (at_fd d')
    (do read <- getsockopt_error fd;
     let '(r, socket_error) := read in
     if failed r then throw_socket_error "Unable to read connection result" r
     else match socket_error with
          | Some e => throw_socket_error "TCP connection failed" (Errno e)
          | None => ret tt
          end) (λ _, at_fd (set_connection (Connected a) d)) fails) as Hread.
  { intros d' Hdec. assert (owner d' = Ours) as Hown by (by destruct Hdec as [->|[e ->]]).
    eapply triple_bind_safe with (R := λ '(r, oe) s, ∃ d2, owner d2 = Ours ∧ at_fd d2 s ∧
      (failed r = false → oe = None → d2 = set_connection (Connected a) d)).
    - unfold getsockopt_error. eapply triple_bind_safe; [apply call_spec|].
      intros r s Hs. pose proof Hs as [Ho Hl Hk].
      assert (table s !! fd = Some d') as Ht by (eapply ours_lookup; rewrite Ho; apply lookup_insert_eq).
      assert (at_fd (set_connection Unconnected d')
                (with_table (<[fd := set_connection Unconnected d']> (table s)) s)) as Hset.
      { split; [|done..]. cbn. by rewrite ours_insert, Ho, insert_insert_eq. }
      destruct r; cbn; try (exists d'; by split_and!);
        rewrite Ht; (destruct Hdec as [->|[e ->]]; cbn;
          [exists (set_connection (Connected a) d)
          |exists (set_connection Unconnected (set_connection (Broken e) d))]; by split_and!).
    - intros [r oe]. apply triple_ex. intros d2. apply triple_if; intros Hr.
      + apply triple_raise. intros s (Ho & Hs & _). split; [by eexists|]. by exists d2.
      + destruct oe.
        * apply triple_raise. intros s (Ho & Hs & _). split; [by eexists|]. by exists d2.
        * apply triple_ret'. intros s (_ & Hs & Heq). by rewrite <-Heq. }
  intros [[|n|n]| |]; try by apply throw_spec.
  - by apply Hraise.
  - apply triple_ex. intros d'. apply triple_pure. apply Hread.
  - apply triple_ex. intros d'. apply triple_pure. apply Hread.
Qed.

(** A refused timeout option is counted. *)
Lemma setsockopt_timeout_spec d set :
  owner (set d) = Ours → owner d = Ours →
  triple (at_fd d) (setsockopt_timeout fd set)
    (λ r s, if failed r then held (k - 1) s else at_fd (set d) s) no_throw.
Proof.
  intros Hset Hd. unfold setsockopt_timeout. eapply triple_bind_safe; [by apply held_call|].
  intros r s Hs. destruct r as [n| |e]; cbn.
  - destruct Hs as (_ & _ & [Ho Hl Hk]). split; [done|done|]. unfold bad in *. cbn. lia.
  - destruct Hs as [Ho Hl Hk]. exists d. split; [done|]. split; [done|done|]. unfold bad in *. cbn. lia.
  - destruct Hs as [Ho Hl Hk]. exists d. split; [done|]. split; [done|done|]. unfold bad in *. cbn. lia.
Qed.

(** [timeval] of a duration in milliseconds. *)
Definition timeval_of (timeout : Z) : Z * Z := (timeout / 1000, timeout mod 1000 * 1000).

Lemma timeval_quot timeout :
  0 < timeout → (Z.quot timeout 1000, (timeout - Z.quot timeout 1000 * 1000) * 1000) = timeval_of timeout.
Proof. intros Ht. unfold timeval_of. rewrite Z.quot_div_nonneg, Z.mod_eq by lia. f_equal. lia. Qed.

Lemma set_socket_timeout_spec d timeout :
  owner d = Ours → 0 < timeout →
  triple (at_fd d) (set_socket_timeout {| fd_ := fd |} timeout)
    (λ _, at_fd (set_send_timeout (timeval_of timeout) (set_receive_timeout (timeval_of timeout) d)))
    (λ e s, is_error e ∧ held (k - 1) s).
Proof.
  intros Hd Ht. unfold set_socket_timeout, valid, native_handle. cbn [fd_].
  rewrite (proj2 (Z.geb_le _ _) fd_nonneg), (proj2 (Z.leb_gt _ _) Ht). cbn [negb orb].
  cbv zeta. rewrite timeval_quot by done.
  assert (∀ action r, triple (held (k - 1)) (@throw_socket_error unit action r)
    (λ _, at_fd (set_send_timeout (timeval_of timeout) (set_receive_timeout (timeval_of timeout) d)))
    (λ e s, is_error e ∧ held (k - 1) s)) as Hthrow.
  { intros action r. apply triple_raise. intros s Hs. split; [by eexists|done]. }
  eapply triple_bind_safe; [by apply setsockopt_timeout_spec|]. intros r. cbv beta. destruct (failed r); [apply Hthrow|].
  eapply triple_bind_safe; [by apply setsockopt_timeout_spec|]. intros r'. cbv beta. destruct (failed r'); [apply Hthrow|].
  by apply triple_ret'.
Qed.

End Held.

(** ** Trying the addresses *)

Section Attempts.
Variables (o : gmap Z descriptor) (l k : Z).

(** What a [try] block does with a new descriptor: the socket over it, with
    the list of addresses freed; or the address is skipped; or it throws, and
    the descriptor is still open or was closed at the price of one bad
    close. *)
Definition attempt_spec (opened : address → descriptor → Prop)
    (attempt : address → Z → io sockets (Socket + bytes)) : Prop := ∀ item fd,
  o !! fd = None → 0 ≤ fd →
  triple (world (<[fd := new_descriptor Ours (family item)]> o) l k) (attempt item fd)
    (λ r s, match r with
            | inl socket => socket = {| fd_ := fd |} ∧
                            ∃ d, opened item d ∧ world (<[fd := d]> o) (l - 1) k s
            | inr _ => world o l k s
            end)
    (λ e s, is_error e ∧ (held o l fd k s ∨ world o l (k - 1) s)).

(** The outcome of the loop. *)
Definition opened_one (opened : address → descriptor → Prop) (items : list address)
    (r : Socket + bytes) (s : sockets) : Prop :=
  match r with
  | inl socket => ∃ item d, item ∈ items ∧ opened item d ∧ 0 ≤ fd_ socket ∧ o !! fd_ socket = None ∧
                            world (<[fd_ socket := d]> o) (l - 1) k s
  | inr _ => world o l k s
  end.

Lemma sys_socket_spec f :
  triple (world o l k) (sys_socket f)
    (λ r s, match r with
            | Done fd => (o !! fd = None ∧ 0 ≤ fd) ∧ world (<[fd := new_descriptor Ours f]> o) l k s
            | _ => world o l k s
            end) no_throw.
Proof.
  unfold sys_socket. eapply triple_bind_safe; [apply call_spec|].
  intros a s Hs. pose proof Hs as [Ho Hl Hk]. destruct (lowest_free_spec (table s)) as [Hn H0].
  assert (o !! lowest_free (table s) = None) as Hon by (rewrite <-Ho; by apply ours_none).
  destruct a; try done; (split; [done|]); (split; [|done..]); cbn; by rewrite ours_insert, Ho.
Qed.

Lemma address_loop_spec opened attempt items last_error :
  attempt_spec opened attempt →
  triple (world o l k) (address_loop attempt items last_error) (opened_one opened items) no_throw.
Proof.
  intros Ha. revert last_error. induction items as [|item items IH]; intros last_error; cbn [address_loop].
  { by apply triple_ret'. }
  assert (∀ e, triple (world o l k) (address_loop attempt items e) (opened_one opened (item :: items))
                 no_throw) as Hnext.
  { intros e. eapply triple_conseq; [apply IH|done| |done]. intros [socket|w] s; [|done].
    intros (i & d & Hi & Hx). exists i, d. split; [by right|done]. }
  eapply triple_bind_safe; [apply sys_socket_spec|]. intros [fd| |e]; [|apply Hnext..].
  apply triple_pure. intros [Hn H0].
  eapply triple_bind_safe with (R := opened_one opened [item]).
  - eapply triple_catch_error with (E' := λ e s, is_error e ∧ (held o l fd k s ∨ world o l (k - 1) s)).
    + eapply triple_conseq; [by apply Ha|done| |done]. intros [socket|w] s; [|done].
      intros (-> & d & Hd & Hs). exists item, d. split; [by left|done].
    + intros w. cbv beta.
      eapply triple_pre with (P' := λ s, held o l fd k s ∨ world o l (k - 1) s); [|by intros s [_ ?]].
      eapply triple_bind_safe with (R := λ _, world o l k); [|intros; by apply triple_ret'].
      intros s [Hs|Hs]; [by apply close_held|].
      pose proof (close_free o l (k - 1) fd Hn H0 s Hs) as Hc.
      replace (k - 1 + 1) with k in Hc by lia. exact Hc.
    + by intros w s [[what [=]] _].
    + by intros s [[what [=]] _].
  - intros [socket|w]; [|apply Hnext]. apply triple_ret'.
    intros s (i & d & Hi & Hx). apply list_elem_of_singleton in Hi as ->. exists item, d.
    split; [by left|done].
Qed.

End Attempts.

(** A connected socket: blocking, closed on [exec], with both timeouts. *)
Definition connected_descriptor (timeout : Z) (item : address) : descriptor :=
  {| owner := Ours; fd_flags := FD_CLOEXEC; status_flags := O_RDWR; reuse_address := false;
     receive_timeout := Some (timeval_of timeout); send_timeout := Some (timeval_of timeout);
     local_address := unspecified (family item); connection := Connected item; shut_down := false;
     listening := None |}.

(** A listening socket on [item]. *)
Definition listening_descriptor (backlog : Z) (item : address) (d : descriptor) : Prop :=
  ∃ r, d = {| owner := Ours; fd_flags := FD_CLOEXEC; status_flags := O_RDWR; reuse_address := true;
              receive_timeout := None; send_timeout := None; local_address := bound_to item r;
              connection := Unconnected; shut_down := false; listening := Some backlog |}.

Lemma count_lists_spec o l k n : triple (world o l k) (count_lists n) (λ _, world o (l + n) k) no_throw.
Proof. intros s [Ho Hl Hk]. split; [done| |done]. cbn. by rewrite Hl. Qed.

Lemma connect_attempt_spec o l k timeout :
  0 < timeout → attempt_spec o l k (λ item d, d = connected_descriptor timeout item) (connect_attempt timeout).
Proof.
  intros Ht item fd Hn H0. unfold connect_attempt.
  assert (∀ e s, is_error e ∧ held o l fd k s →
                 is_error e ∧ (held o l fd k s ∨ world o l (k - 1) s)) as Hweak by (intros e s [? ?]; auto).
  eapply triple_bind.
  { eapply triple_exn; [by apply set_close_on_exec_spec|exact Hweak]. }
  intros ?. eapply triple_bind.
  { eapply triple_exn; [by apply set_non_blocking_spec|exact Hweak]. }
  intros ?. eapply triple_bind_safe; [by apply sys_connect_spec|]. intros connected. cbv beta.
  set (d := set_status_flags _ _). apply triple_if; intros Hc.
  { apply andb_true_iff in Hc as [-> ->%negb_true_iff].
    eapply triple_bind_safe with (R := λ _, world o l k); [|intros u'; by apply triple_ret'].
    eapply triple_pre; [by apply (close_held o l fd Hn H0 k)|]. intros s Hs. by exists d. }
  eapply triple_bind with (R := λ _, world (<[fd := set_connection (Connected item) d]> o) l k).
  { destruct (failed connected); [|by apply triple_ret'].
    apply negb_false_iff in Hc. rewrite Hc.
    eapply triple_exn; [by apply (wait_for_connect_spec o l k fd (set_connection (Connecting item) d) item)|
      exact Hweak]. }
  intros ?. eapply triple_bind.
  { eapply triple_exn; [by apply set_non_blocking_spec|exact Hweak]. }
  intros ?. cbv zeta. unfold with_socket.
  eapply triple_catch_all with (E' := λ e s, is_error e ∧ held o l fd (k - 1) s).
  - eapply triple_bind; [by apply set_socket_timeout_spec|]. intros ?.
    eapply triple_bind_safe; [apply count_lists_spec|]. intros ?. apply triple_ret'.
    intros s Hs. split; [done|]. eexists. split; [done|]. exact Hs.
  - intros e. apply triple_pure. intros He. unfold close, release. cbn [fd_].
    eapply triple_bind_safe with (R := λ _, world o l (k - 1)).
    { eapply triple_bind_safe; [by apply close_held|]. intros ?. by apply triple_ret'. }
    intros ?. apply triple_raise. intros s Hs. auto.
Qed.

Lemma listen_attempt_spec o l k backlog :
  attempt_spec o l k (listening_descriptor backlog) (listen_attempt backlog).
Proof.
  intros item fd Hn H0. unfold listen_attempt.
  assert (∀ e s, is_error e ∧ held o l fd k s →
                 is_error e ∧ (held o l fd k s ∨ world o l (k - 1) s)) as Hweak by (intros e s [? ?]; auto).
  assert (∀ d action r, owner d = Ours →
    triple (world (<[fd := d]> o) l k) (@throw_socket_error (Socket + bytes) action r)
      (λ r s, match r with
              | inl socket => socket = {| fd_ := fd |} ∧
                              ∃ d, listening_descriptor backlog item d ∧ world (<[fd := d]> o) (l - 1) k s
              | inr _ => world o l k s
              end)
      (λ e s, is_error e ∧ (held o l fd k s ∨ world o l (k - 1) s))) as Hthrow.
  { intros d action r Hd. eapply triple_exn; [by apply throw_spec|exact Hweak]. }
  eapply triple_bind.
  { eapply triple_exn; [by apply set_close_on_exec_spec|exact Hweak]. }
  intros ?. unfold setsockopt_reuse. eapply triple_bind_safe; [by apply held_call|].
  intros [n| |e]; [|by eapply Hthrow..]. cbn [failed].
  apply triple_ex. intros a1. apply triple_pure. intros _.
  unfold sys_bind. eapply triple_bind_safe; [by apply held_call|].
  intros [n'| |e]; [|by eapply Hthrow..]. cbn [failed].
  apply triple_ex. intros r. apply triple_pure. intros _.
  unfold sys_listen. eapply triple_bind_safe; [by apply held_call|].
  intros [n''| |e]; [|by eapply Hthrow..]. cbn [failed].
  apply triple_ex. intros a'. apply triple_pure. intros _.
  eapply triple_bind_safe; [apply count_lists_spec|]. intros ?. apply triple_ret'.
  intros s Hs. split; [done|]. eexists. split; [by exists r|]. exact Hs.
Qed.

(** ** The operations *)

Section Operations.
Context `{Resolver}.
Variables (o : gmap Z descriptor) (l k : Z).

#[local] Abbreviation fails := (λ e s, is_error e ∧ world o l k s).

(** The end of [connect_tcp] and of [listen_tcp]. *)
Lemma resolved_spec opened attempt items last_error (message : bytes → bytes) :
  attempt_spec o (l + 1) k opened attempt →
  triple (world o l k)
    (do _ <- count_lists 1;
     do outcome <- address_loop attempt items last_error;
     match outcome with
     | inl socket => ret socket
     | inr last_error => do _ <- freeaddrinfo; raise (Error (message last_error))
     end)
    (λ socket s, ∃ item d, item ∈ items ∧ opened item d ∧ 0 ≤ fd_ socket ∧ o !! fd_ socket = None ∧
                           world (<[fd_ socket := d]> o) l k s) fails.
Proof.
  intros Ha. eapply triple_bind_safe; [apply count_lists_spec|]. intros ?.
  eapply triple_bind_safe; [by apply address_loop_spec|]. intros [socket|w]; cbn [opened_one].
  - apply triple_ret'. intros s (item & d & Hi & Ho & H0 & Hn & Hs). exists item, d.
    replace (l + 1 - 1) with l in Hs by lia. done.
  - eapply triple_bind_safe; [apply count_lists_spec|]. intros ?. apply triple_raise.
    intros s Hs. split; [by eexists|]. by replace (l + 1 + -1) with l in Hs by lia.
Qed.

Lemma connect_tcp_spec endpoint timeout :
  triple (world o l k) (connect_tcp endpoint timeout)
    (λ socket s, ∃ items item,
       getaddrinfo (Some (host endpoint)) (to_string (port endpoint)) false = inr items ∧ item ∈ items ∧
       0 ≤ fd_ socket ∧ o !! fd_ socket = None ∧
       world (<[fd_ socket := connected_descriptor timeout item]> o) l k s) fails.
Proof.
  unfold connect_tcp. apply triple_if; intros Ht.
  { apply triple_raise. intros s Hs. split; [by eexists|done]. }
  apply orb_false_iff in Ht as [_ Ht%Z.leb_gt].
  destruct (getaddrinfo _ _ _) as [e|items].
  { apply triple_raise. intros s Hs. split; [by eexists|done]. }
  eapply triple_conseq.
  - apply (resolved_spec (λ item d, d = connected_descriptor timeout item) (connect_attempt timeout) items _
             (λ w, str "Unable to connect to " ++ host endpoint ++ str ":" ++
                          to_string (port endpoint) ++ str ": " ++ w)).
    by apply connect_attempt_spec.
  - done.
  - intros socket s (item & d & Hi & -> & Hx). by exists items, item.
  - done.
Qed.

Lemma listen_tcp_spec port bind_address backlog :
  triple (world o l k) (listen_tcp port bind_address backlog)
    (λ socket s, ∃ items item d,
       getaddrinfo (if bool_decide (bind_address = []) then None else Some bind_address) (to_string port) true
         = inr items ∧ item ∈ items ∧ listening_descriptor backlog item d ∧
       0 ≤ fd_ socket ∧ o !! fd_ socket = None ∧ world (<[fd_ socket := d]> o) l k s) fails.
Proof.
  unfold listen_tcp. apply triple_if; intros _.
  { apply triple_raise. intros s Hs. split; [by eexists|done]. }
  destruct (getaddrinfo _ _ _) as [e|items].
  { apply triple_raise. intros s Hs. split; [by eexists|done]. }
  eapply triple_conseq.
  - apply (resolved_spec (listening_descriptor backlog) (listen_attempt backlog) items _
             (λ w, str "Unable to listen on " ++ bind_address ++ str ":" ++
                          to_string port ++ str ": " ++ w)).
    apply listen_attempt_spec.
  - done.
  - intros socket s (item & d & Hi & Ho & Hx). by exists items, item, d.
  - done.
Qed.

(** The outcome of [accept]: a descriptor of the peer, or nothing. *)
Definition accepted_or_failed (r : sysres * address) (s : sockets) : Prop :=
  match r.1 with
  | Done fd => (o !! fd = None ∧ 0 ≤ fd) ∧
               world (<[fd := set_connection (Connected r.2) (new_descriptor Ours (family r.2))]> o) l k s
  | _ => world o l k s
  end.

Lemma sys_accept_spec fd s :
  world o l k s →
  let '(r, s') := sys_accept fd s in
  match r with
  | Ok r => accepted_or_failed r s' ∧ (r.1 = EINTR → (length (events s') < length (events s))%nat)
  | Throw _ => False
  end.
Proof.
  intros Hs. unfold sys_accept, bind. pose proof (call_spec _ _ _ s Hs) as Hc.
  assert ((call s).1 ≠ Ok Yields → (length (events (call s).2) < length (events s))%nat) as Hev.
  { unfold call. by destruct (events s); cbn; [|lia]. }
  destruct (call s) as [[a|e] s']; [|done]. cbn in Hev. pose proof Hc as [Ho Hl Hk].
  destruct (lowest_free_spec (table s')) as [Hn H0].
  assert (o !! lowest_free (table s') = None) as Hon by (rewrite <-Ho; by apply ours_none).
  destruct a; cbn; try (split; [done|]; intros; try done; apply Hev; congruence);
    (destruct (table s' !! fd) as [d|]; [destruct (arrivals s') as [|peer arrivals']; [done|];
       destruct (accepts d); [|done]|done]);
    (split; [|done]); (split; [done|]); (split; [|done..]); cbn; by rewrite ours_insert, Ho.
Qed.

Lemma accept_loop_spec fuel fd :
  triple (λ s, world o l k s ∧ (length (events s) < fuel)%nat) (accept_loop fuel fd)
    accepted_or_failed no_throw.
Proof.
  induction fuel as [|fuel IH]; intros s [Hs Hf]; [lia|]. cbn [accept_loop]. unfold bind.
  pose proof (sys_accept_spec fd s Hs) as Ha.
  destruct (sys_accept fd s) as [[[r peer]|e] s']; [|done]. destruct Ha as [Ha Hev].
  destruct r as [n| |e]; [exact Ha| |exact Ha]. cbn in *. specialize (Hev eq_refl).
  apply (IH s'). split; [exact Ha|lia].
Qed.

(** The endpoint of an address with a non-negative port. *)
Definition endpoint_of (a : address) (e : Endpoint) : Prop :=
  host e = numeric_host a ∧ (0 ≤ address_port a → port e = address_port a).

Lemma endpoint_from_address_spec o' k' a :
  triple (world o' l k') (endpoint_from_address a)
    (λ e s, endpoint_of a e ∧ world o' l k' s) (λ e s, is_error e ∧ world o' l k' s).
Proof.
  unfold endpoint_from_address, sys_getnameinfo.
  eapply triple_bind_safe with (R := λ r s, world o' l k' s ∧
    ∀ hs, r = inr hs → hs = (numeric_host a, to_string (address_port a))).
  { eapply triple_bind_safe; [apply call_spec|]. intros []; apply triple_ret'; intros s Hs;
      (split; [done|]); by intros hs [= <-]. }
  intros [e|[h p]].
  { apply triple_raise. intros s [Hs _]. split; [by eexists|done]. }
  intros s [Hs Hr]. specialize (Hr _ eq_refl). injection Hr as -> ->. unfold bind, lift.
  pose proof (parse_number_errors 16 (to_string (address_port a)) "remote port") as He.
  destruct (parse_number 16 _ _) as [n|e] eqn:E.
  - split; [|done]. split; [done|]. intros Ha. cbn. apply parse_field_iff in E as (_ & _ & <- & _).
    by apply to_string_spec.
  - split; [|done]. by eapply errors_only_throw.
Qed.

Lemma accept_tcp_spec listener wants :
  triple (world o l k) (accept_tcp listener wants)
    (λ r s, ∃ peer d, 0 ≤ fd_ r.1 ∧ o !! fd_ r.1 = None ∧ world (<[fd_ r.1 := d]> o) l k s ∧
       d = set_fd_flags FD_CLOEXEC (set_connection (Connected peer) (new_descriptor Ours (family peer))) ∧
       (if wants : bool then ∃ e, r.2 = Some e ∧ endpoint_of peer e else r.2 = None)) fails.
Proof.
  unfold accept_tcp. eapply triple_bind_safe with (R := accepted_or_failed).
  { intros s Hs. apply accept_loop_spec. split; [done|lia]. }
  intros [[fd| |e] peer]; unfold accepted_or_failed; cbn [fst snd].
  2-3: apply triple_raise; intros s Hs; split; [by eexists|done].
  apply triple_pure. intros [Hn H0].
  eapply triple_catch_all with (E' := λ e s, is_error e ∧ held o l fd k s).
  - eapply triple_bind; [by apply set_close_on_exec_spec|]. intros ?.
    set (d := set_fd_flags _ _).
    eapply triple_bind with (R := λ r s, world (<[fd := d]> o) l k s ∧
      (if wants then ∃ e, r = Some e ∧ endpoint_of peer e else r = None)).
    + destruct wants; [|by apply triple_ret'; intros s Hs].
      eapply triple_bind.
      * eapply triple_exn; [apply endpoint_from_address_spec|]. intros e s [He Hs]. split; [done|]. by exists d.
      * intros e. apply triple_ret'. intros s [He Hs]. split; [done|]. by exists e.
    + intros r. apply triple_ret'. intros s [Hs Hr]. by exists peer, d.
  - intros e. apply triple_pure. intros He. eapply triple_bind_safe; [by apply close_held|].
    intros ?. apply triple_raise. by intros s Hs.
Qed.

End Operations.

(** The port that [bound_port] reads. *)
Lemma bound_port_spec socket s r s' :
  bound_port socket s = (r, s') →
  match r with
  | Ok p => ∃ d, table s' !! fd_ socket = Some d ∧ p = address_port (local_address d)
  | Throw e => is_error e
  end.
Proof.
  unfold bound_port, sys_getsockname, native_handle, bind.
  destruct (call s) as [[a|e] s1] eqn:Ec; [|by unfold call in Ec; destruct (events s)].
  assert (∀ action q, match (@throw_socket_error Z action q s1).1 with
                      | Ok _ => False | Throw e => is_error e end) as Hthrow by (intros; by eexists).
  assert (∀ d, table s1 !! fd_ socket = Some d →
    (if family (local_address d) =? AF_INET then ret (address_port (local_address d))
     else if family (local_address d) =? AF_INET6 then ret (address_port (local_address d))
     else raise_error "TCP socket has an unsupported address family") s1 = (r, s') →
    match r with
    | Ok p => ∃ d, table s' !! fd_ socket = Some d ∧ p = address_port (local_address d)
    | Throw e => is_error e
    end) as Hread.
  { intros d Hd. repeat case_match; intros [= <- <-]; try by exists d. by eexists. }
  destruct a; try (intros [= <- <-]; by eexists); cbn;
    (destruct (table s1 !! fd_ socket) as [d|] eqn:Ed; [by apply Hread|intros [= <- <-]; by eexists]).
Qed.

(** ** Properties *)

(** C12: [connect_tcp] owns its descriptors, whatever calls fail or are
    interrupted and whatever other threads open: it ends; if it returns, the
    one descriptor it opened is connected to an address that the host and port
    resolved to, blocking again, closed on [exec] and has the timeout in both
    directions; if it throws, an [Error], it leaves no descriptor open; the
    list of addresses is freed.  Every [close] is of its own open descriptor,
    except one for each timeout option that the system refused. *)
Theorem connect_tcp_exact `{Resolver} endpoint timeout s :
  let '(r, s') := connect_tcp endpoint timeout s in
  address_lists s' = address_lists s ∧
  (stray_closes s' + foreign_closes s') - (stray_closes s + foreign_closes s) =
    refused_timeouts s' - refused_timeouts s ∧
  match r with
  | Ok socket => ∃ items item,
      getaddrinfo (Some (host endpoint)) (to_string (port endpoint)) false = inr items ∧ item ∈ items ∧
      ours (table s) !! fd_ socket = None ∧ valid socket = true ∧
      ours (table s') = <[fd_ socket := connected_descriptor timeout item]> (ours (table s))
  | Throw e => is_error e ∧ ours (table s') = ours (table s)
  end.
Proof.
  pose proof (connect_tcp_spec (ours (table s)) (address_lists s) (bad s) endpoint timeout s) as Hc.
  assert (world (ours (table s)) (address_lists s) (bad s) s) as Hs by done. specialize (Hc Hs).
  destruct (connect_tcp endpoint timeout s) as [[socket|e] s'].
  - destruct Hc as (items & item & Hi & Hin & H0 & Hn & [Ho Hl Hb]). unfold bad in Hb.
    split_and!; [done|lia|]. exists items, item. split_and!; try done. by apply Z.geb_le.
  - destruct Hc as (He & [Ho Hl Hb]). unfold bad in Hb. split_and!; done || lia.
Qed.

(** C24: the server side owns its descriptors in the same way.  [listen_tcp]
    returns one new socket that listens, with address reuse, on an address its
    host and port resolved to, and [bound_port] then reads the port of that
    address or, for port 0, the one the system assigned; [accept_tcp] returns
    one new descriptor of the peer, and the endpoint it reports is the peer's.
    Both end, through any interruptions, throw only [Error]s, and when they
    throw have closed what they opened, exactly once. *)
Theorem server_sockets_exact `{Resolver} s :
  (∀ port bind_address backlog, let '(r, s') := listen_tcp port bind_address backlog s in
   address_lists s' = address_lists s ∧ bad s' = bad s ∧
   match r with
   | Ok socket => ∃ items item d,
       getaddrinfo (if bool_decide (bind_address = []) then None else Some bind_address)
         (to_string port) true = inr items ∧ item ∈ items ∧ listening_descriptor backlog item d ∧
       ours (table s) !! fd_ socket = None ∧ ours (table s') = <[fd_ socket := d]> (ours (table s)) ∧
       ∀ s1 s2 p, table s2 !! fd_ socket = Some d → bound_port socket s1 = (Ok p, s2) →
         p = address_port (local_address d) ∧ (address_port item ≠ 0 → p = address_port item)
   | Throw e => is_error e ∧ ours (table s') = ours (table s)
   end) ∧
  (∀ listener wants, let '(r, s') := accept_tcp listener wants s in
   address_lists s' = address_lists s ∧ bad s' = bad s ∧
   match r with
   | Ok (socket, reported) => ∃ peer d,
       ours (table s) !! fd_ socket = None ∧ ours (table s') = <[fd_ socket := d]> (ours (table s)) ∧
       connection d = Connected peer ∧ fd_flags d = FD_CLOEXEC ∧
       (if wants : bool then ∃ e, reported = Some e ∧ endpoint_of peer e else reported = None)
   | Throw e => is_error e ∧ ours (table s') = ours (table s)
   end).
Proof.
  assert (world (ours (table s)) (address_lists s) (bad s) s) as Hs by done. split.
  - intros port bind_address backlog.
    pose proof (listen_tcp_spec (ours (table s)) (address_lists s) (bad s) port bind_address backlog s Hs) as Hc.
    destruct (listen_tcp port bind_address backlog s) as [[socket|e] s'].
    + destruct Hc as (items & item & d & Hi & Hin & Hd & H0 & Hn & [Ho Hl Hb]).
      split_and!; try done. exists items, item, d. split_and!; try done.
      intros s1 s2 p Ht Hp. apply bound_port_spec in Hp as (d' & Hd' & ->).
      assert (d' = d) as -> by congruence. split; [done|]. intros Hz. destruct Hd as [r ->].
      cbn. by rewrite (proj2 (Z.eqb_neq _ _) Hz).
    + by destruct Hc as (He & [Ho Hl Hb]).
  - intros listener wants.
    pose proof (accept_tcp_spec (ours (table s)) (address_lists s) (bad s) listener wants s Hs) as Hc.
    destruct (accept_tcp listener wants s) as [[[socket reported]|e] s'].
    + destruct Hc as (peer & d & H0 & Hn & [Ho Hl Hb] & -> & Hr). split_and!; try done.
      by exists peer, (set_fd_flags FD_CLOEXEC (set_connection (Connected peer) (new_descriptor Ours (family peer)))).
    + by destruct Hc as (He & [Ho Hl Hb]).
Qed.

(** *** The bad close *)

Definition example_resolver : Resolver := λ _ _ _,
  inr [{| family := AF_INET; numeric_host := str "127.0.0.1"; address_port := 7000 |}].

(** The system refuses the receive timeout, and before the second [close] of
    the descriptor another thread opens one. *)
Definition example_sockets : sockets :=
  {| table := ∅;
     events := replicate 8 {| opened_by_others := 0; answered := Yields |} ++
               [{| opened_by_others := 0; answered := Refuses (str "Invalid argument") |};
                {| opened_by_others := 0; answered := Yields |};
                {| opened_by_others := 1; answered := Yields |}];
     arrivals := []; address_lists := 0; refused_timeouts := 0; stray_closes := 0; foreign_closes := 0 |}.

(** When [set_socket_timeout] throws, the [Socket] closes the descriptor and
    the handler closes the number again: here that is a descriptor that another
    thread has opened in between. *)
Lemma connect_closes_foreign_descriptor :
  let '(r, s') := @connect_tcp example_resolver {| host := str "localhost"; port := 7000 |} 1000 example_sockets in
  (if r then False else True) ∧ foreign_closes example_sockets = 0 ∧ foreign_closes s' = 1.
Proof. vm_compute. done. Qed.
