(* ===== verification/Start.v ===== *)
(** * Start: starting and stopping the servers

    [start] and [stop] of [TrackerServer] (src/src/tracker.cpp) and of
    [PeerServer] (src/src/peer_server.cpp): the listening socket, the endpoint
    and the threads that are created and joined, and what is left when any of it
    fails.  A join returns only when the thread may be relied on to end: the
    accept thread when the flag is cleared and its listener no longer accepts, a
    worker when the flag is cleared and all workers were notified since; that
    they do end then is what Pool shows.  A join before that never returns. *)

From S2P Require Export Prelude.
From S2P Require Import Hoare Text Protocol Posix Sockets Tracker PeerServer.

#[local] Open Scope Z_scope.

(** ** Definitions *)

(** The threads of the process as the servers use them.  [spawns] is the
    outcome of every [std::thread] that will be created: [Some] is the
    [system_error] it throws.  [live] are the threads that were created and not
    joined, [notified] is whether the workers were notified since the flag was
    cleared, [terminated] whether [std::terminate] was called, as the end of a
    joinable [std::thread] does. *)
Record threads := {
  spawns : list (option bytes);
  live : gset nat;
  next_thread : nat;
  notified : bool;
  terminated : bool
}.

(** A [std::thread], with its thread if it is joinable. *)
Abbreviation handle := (option nat).
Definition joinable (t : handle) : bool := bool_decide (is_Some t).

(** The members the two functions use, next to the system: [queued] is the
    size of [queue_]. *)
Record host := {
  system : sockets;
  threading : threads;
  running : bool;
  listener : Socket;
  endpoint : Endpoint;
  queued : Z;
  outstanding : Z;
  worker_threads : list handle;
  accept_thread : handle
}.

Definition modify (f : host → host) : io host unit := λ h, (Ok tt, f h).
Definition gets {A} (f : host → A) : io host A := λ h, (Ok (f h), h).

Definition with_system (s : sockets) (h : host) : host :=
  {| system := s; threading := threading h; running := running h; listener := listener h;
     endpoint := endpoint h; queued := queued h; outstanding := outstanding h;
     worker_threads := worker_threads h; accept_thread := accept_thread h |}.
Definition with_threading (t : threads) (h : host) : host :=
  {| system := system h; threading := t; running := running h; listener := listener h;
     endpoint := endpoint h; queued := queued h; outstanding := outstanding h;
     worker_threads := worker_threads h; accept_thread := accept_thread h |}.
Definition with_running (b : bool) (h : host) : host :=
  {| system := system h; threading := threading h; running := b; listener := listener h;
     endpoint := endpoint h; queued := queued h; outstanding := outstanding h;
     worker_threads := worker_threads h; accept_thread := accept_thread h |}.
Definition with_listener (l : Socket) (h : host) : host :=
  {| system := system h; threading := threading h; running := running h; listener := l;
     endpoint := endpoint h; queued := queued h; outstanding := outstanding h;
     worker_threads := worker_threads h; accept_thread := accept_thread h |}.
Definition with_endpoint (e : Endpoint) (h : host) : host :=
  {| system := system h; threading := threading h; running := running h; listener := listener h;
     endpoint := e; queued := queued h; outstanding := outstanding h;
     worker_threads := worker_threads h; accept_thread := accept_thread h |}.
Definition with_queue (q n : Z) (h : host) : host :=
  {| system := system h; threading := threading h; running := running h; listener := listener h;
     endpoint := endpoint h; queued := q; outstanding := n;
     worker_threads := worker_threads h; accept_thread := accept_thread h |}.
Definition with_workers (ws : list handle) (h : host) : host :=
  {| system := system h; threading := threading h; running := running h; listener := listener h;
     endpoint := endpoint h; queued := queued h; outstanding := outstanding h;
     worker_threads := ws; accept_thread := accept_thread h |}.
Definition with_accept (t : handle) (h : host) : host :=
  {| system := system h; threading := threading h; running := running h; listener := listener h;
     endpoint := endpoint h; queued := queued h; outstanding := outstanding h;
     worker_threads := worker_threads h; accept_thread := t |}.

Definition on_sockets {A} (m : io sockets A) : io host A := λ h,
  let '(r, s) := m (system h) in (r, with_system s h).

(** *** Threads *)

(** The constructor of [std::thread] that starts a thread. *)
Definition spawn : io host nat := λ h,
  let t := threading h in
  let rest := tail (spawns t) in
  match spawns t with
  | Some e :: _ =>
      (Throw (StdException e),
       with_threading {| spawns := rest; live := live t; next_thread := next_thread t;
                         notified := notified t; terminated := terminated t |} h)
  | _ =>
      (Ok (next_thread t),
       with_threading {| spawns := rest; live := {[next_thread t]} ∪ live t;
                         next_thread := S (next_thread t); notified := notified t;
                         terminated := terminated t |} h)
  end.

Definition set_notified (b : bool) (t : threads) : threads :=
  {| spawns := spawns t; live := live t; next_thread := next_thread t; notified := b;
     terminated := terminated t |}.
Definition set_terminated (b : bool) (t : threads) : threads :=
  {| spawns := spawns t; live := live t; next_thread := next_thread t; notified := notified t;
     terminated := b |}.
Definition set_live (l : gset nat) (t : threads) : threads :=
  {| spawns := spawns t; live := l; next_thread := next_thread t; notified := notified t;
     terminated := terminated t |}.

(** The destructors of handles, and what assigning to them overwrites. *)
Definition drop_handles (ts : list handle) : io host unit :=
  modify (λ h, with_threading
    (set_terminated (terminated (threading h) || existsb joinable ts) (threading h)) h).

(** [running_.exchange(b)] and [compare_exchange_strong]: storing the flag. *)
Definition set_running (b : bool) : io host unit :=
  modify (λ h, with_running b (with_threading (set_notified (notified (threading h) && negb b) (threading h)) h)).

(** [queue_condition_.notify_all()]. *)
Definition notify_all : io host unit :=
  modify (λ h, with_threading (set_notified (negb (running h)) (threading h)) h).

(** What the threads need to end. *)
Definition accept_ends (h : host) : bool :=
  negb (running h) &&
  match table (system h) !! fd_ (listener h) with Some d => negb (accepts d) | None => true end.
Definition worker_ends (h : host) : bool := negb (running h) && notified (threading h).

(** [join] of a joinable handle. *)
Definition join (ends : host → bool) (t : handle) : io host unit := λ h,
  match t with
  | None => (Throw (StdException (str "Invalid argument")), h)
  | Some i =>
      if ends h
      then (Ok tt, with_threading (set_live (live (threading h) ∖ {[i]}) (threading h)) h)
      else (Throw Diverged, h)
  end.

(** *** [start] and [stop] *)

(** The loop that creates the workers; [n] are missing. *)
Fixpoint spawn_workers (n : nat) : io host unit :=
  match n with
  | O => ret tt
  | S n' =>
      do thread <- spawn;
      do _ <- modify (λ h, with_workers (worker_threads h ++ [Some thread]) h);
      spawn_workers n'
  end.

(** The loop that joins the workers; those before [rest] are [done]. *)
Fixpoint join_workers (done rest : list handle) : io host unit :=
  match rest with
  | [] => ret tt
  | worker :: rest' =>
      do _ <- (if joinable worker then join worker_ends worker else ret tt);
      do _ <- modify (with_workers (done ++ None :: rest'));
      join_workers (done ++ [None]) rest'
  end.

(** [stop]; the tracker [resets] its counter at the end. *)
Definition stop (resets : bool) : io host unit :=
  do was_running <- gets running;
  do _ <- set_running false;
  if negb was_running then ret tt
  else
    do socket <- gets listener;
    do _ <- (if valid socket
             then do _ <- on_sockets (sys_shutdown (native_handle socket)); ret tt else ret tt);
    do thread <- gets accept_thread;
    do _ <- (if joinable thread
             then do _ <- join accept_ends thread; modify (with_accept None) else ret tt);
    do closed <- on_sockets (close socket);
    do _ <- modify (with_listener closed);
    do pending <- gets (λ h, u32 (queued h));
    do _ <- modify (λ h, with_queue 0 (if pending >? 0 then u32 (outstanding h - pending) else outstanding h) h);
    do _ <- notify_all;
    do workers <- gets worker_threads;
    do _ <- join_workers [] workers;
    do workers <- gets worker_threads;
    do _ <- drop_handles workers;
    do _ <- modify (with_workers []);
    if resets then modify (λ h, with_queue (queued h) 0 h) else ret tt.

Section Starting.
Context `{Resolver}.

(** The [try] block of [start]; the default backlog is 64. *)
Definition start_body (port : Z) (bind_address : bytes) (workers : Z) : io host unit :=
  do opened <- on_sockets (listen_tcp port bind_address 64);
  do old <- gets listener;
  do assigned <- on_sockets (assign false old opened);
  do _ <- modify (with_listener assigned.1);
  do p <- on_sockets (bound_port assigned.1);
  do _ <- modify (with_endpoint {| Protocol.host := bind_address; Protocol.port := p |});
  do _ <- spawn_workers (Z.to_nat workers);
  do thread <- spawn;
  do old <- gets accept_thread;
  do _ <- drop_handles [old];
  modify (with_accept (Some thread)).

Definition start (name : string) (resets : bool) (port : Z) (bind_address : bytes) (workers : Z)
    : io host unit :=
  do was_running <- gets running;
  if was_running : bool then raise (Error (str name ++ str " is already running"))
  else
    do _ <- set_running true;
    catch_all (start_body port bind_address workers) (λ e, do _ <- stop resets; raise e).

Definition tracker_start (server : TrackerServer) : io host unit :=
  start "Tracker server" true (requested_port_ server) (bind_address_ server)
    (worker_count (limits_ server)).
Definition tracker_stop : io host unit := stop true.

Definition peer_start (config : PeerServerConfig) : io host unit :=
  start "Peer server" false (ps_port config) (ps_bind_address config)
    (Z.min (ps_max_connections config) 4).
Definition peer_stop : io host unit := stop false.

End Starting.

(** ** Lemmas *)

Section Hosting.
Context `{Resolver}.
Variables (o : gmap Z descriptor) (l k : Z).

#[local] Abbreviation no_throw := (λ (_ : exn) (_ : host), False).

(** The listener is closed, or is our open descriptor, which listens. *)
Definition listening_at (socket : Socket) (s : sockets) : Prop :=
  fd_ socket = -1 ∧ world o l k s ∨
  0 ≤ fd_ socket ∧ o !! fd_ socket = None ∧
  ∃ d, owner d = Ours ∧ is_Some (listening d) ∧ world (<[fd_ socket := d]> o) l k s.

(** The joinable handles of the workers [ws] and the accept thread [a] are the
    threads that live, each held once. *)
Record holding (ws : list handle) (a : handle) (t : threads) : Prop := {
  holding_unique : NoDup (omap id (a :: ws));
  holding_live : live t = list_to_set (omap id (a :: ws));
  holding_new : ∀ i, i ∈ live t → (i < next_thread t)%nat;
  holding_fine : terminated t = false
}.

Definition stopped (h : host) : Prop :=
  running h = false ∧ fd_ (listener h) = -1 ∧ worker_threads h = [] ∧ accept_thread h = None ∧
  live (threading h) = ∅ ∧ terminated (threading h) = false ∧ world o l k (system h).

(** Starting, or trying to. *)
Record starting (h : host) : Prop := {
  starting_running : running h = true;
  starting_listener : listening_at (listener h) (system h);
  starting_threads : holding (worker_threads h) (accept_thread h) (threading h);
  starting_accept : joinable (accept_thread h) = true → fd_ (listener h) ≠ -1
}.

(** [shutdown] of the listener: it accepts no more. *)
Lemma shutdown_spec socket s :
  0 ≤ fd_ socket → o !! fd_ socket = None →
  (∃ d, owner d = Ours ∧ is_Some (listening d) ∧ world (<[fd_ socket := d]> o) l k s) →
  ∃ r s', sys_shutdown (fd_ socket) s = (Ok r, s') ∧ held o l (fd_ socket) k s' ∧
    ∀ d, table s' !! fd_ socket = Some d → accepts d = false.
Proof.
  intros H0 Hn (d & Hd & [b Hb] & Hs). unfold sys_shutdown, bind.
  pose proof (call_spec _ _ _ s Hs) as Hc. destruct (call s) as [[a|e] s']; [|done].
  pose proof Hc as [Ho Hl Hk].
  assert (table s' !! fd_ socket = Some d) as Ht by (eapply ours_lookup; rewrite Ho; apply lookup_insert_eq).
  rewrite Ht, Hb. eexists _, _. split; [done|]. split.
  - exists (set_shut_down d). split; [done|]. split; [|done..]. cbn.
    by rewrite ours_insert, Ho, insert_insert_eq.
  - intros d'. cbn. rewrite lookup_insert_eq. intros [= <-]. unfold accepts. cbn. apply andb_false_r.
Qed.

(** Joining the workers of a stopping server ends, and leaves the others. *)
Lemma join_workers_spec done rest h :
  running h = false → notified (threading h) = true → worker_threads h = done ++ rest →
  Forall (λ t, t = None) done → holding rest None (threading h) →
  ∃ h', join_workers done rest h = (Ok tt, h') ∧ system h' = system h ∧ running h' = running h ∧
    listener h' = listener h ∧ endpoint h' = endpoint h ∧ queued h' = queued h ∧
    outstanding h' = outstanding h ∧ accept_thread h' = accept_thread h ∧
    Forall (λ t, t = None) (worker_threads h') ∧ holding [] None (threading h').
Proof.
  revert done h. induction rest as [|t rest IH]; intros done h Hr Hn Hw Hd [Hu Hl Hx Hf]; cbn [join_workers].
  { exists h. rewrite Hw, app_nil_r. by split_and!. }
  assert (∀ h1, system h1 = system h → running h1 = running h → listener h1 = listener h →
    endpoint h1 = endpoint h → queued h1 = queued h → outstanding h1 = outstanding h →
    accept_thread h1 = accept_thread h → notified (threading h1) = true → holding rest None (threading h1) →
    ∃ h', (do _ <- modify (with_workers (done ++ None :: rest)); join_workers (done ++ [None]) rest) h1 =
            (Ok tt, h') ∧ system h' = system h ∧ running h' = running h ∧ listener h' = listener h ∧
      endpoint h' = endpoint h ∧ queued h' = queued h ∧ outstanding h' = outstanding h ∧
      accept_thread h' = accept_thread h ∧
      Forall (λ t, t = None) (worker_threads h') ∧ holding [] None (threading h')) as Hgo.
  { intros h1 H1 H2 H3 H4 H5 H6 H7 H8 H9. unfold bind, modify.
    destruct (IH (done ++ [None]) (with_workers (done ++ None :: rest) h1)) as (h' & E); cbn;
      [congruence|done|by rewrite <-app_assoc|apply Forall_app; split; [done|by repeat constructor]|done|].
    exists h'. cbn in E. rewrite <-H1, <-H2, <-H3, <-H4, <-H5, <-H6, <-H7. exact E. }
  unfold bind at 1. destruct t as [i|]; [|by apply Hgo].
  assert (∀ h1, h1 = with_threading (set_live (live (threading h) ∖ {[i]}) (threading h)) h →
    (if joinable (Some i) then join worker_ends (Some i) else ret tt) h = (Ok tt, h1)) as Ej.
  { intros h1 ->. change (joinable (Some i)) with true. unfold join, worker_ends. by rewrite Hr, Hn. }
  rewrite (Ej _ eq_refl). apply Hgo; try done.
  cbn in Hu, Hl. apply NoDup_cons in Hu as [Hi Hu].
  split; [exact Hu| |cbn; intros j Hj; apply Hx; set_solver|done]. cbn. rewrite Hl. set_solver.
Qed.

(** The first part of [stop], on the host [h0] of a server [h] whose flag is
    cleared. *)
Lemma stop_shutdown_spec h0 :
  listening_at (listener h0) (system h0) →
  ∃ s1, (if valid (listener h0)
         then do _ <- on_sockets (sys_shutdown (native_handle (listener h0))); ret tt else ret tt) h0 =
    (Ok tt, with_system s1 h0) ∧
  (fd_ (listener h0) = -1 ∧ world o l k s1 ∨
   0 ≤ fd_ (listener h0) ∧ o !! fd_ (listener h0) = None ∧ held o l (fd_ (listener h0)) k s1 ∧
   ∀ d, table s1 !! fd_ (listener h0) = Some d → accepts d = false).
Proof.
  intros [[Hfd Hw]|(H0 & Hn & Hh)].
  - exists (system h0). unfold valid. rewrite Hfd. split; [by destruct h0|by left].
  - destruct (shutdown_spec (listener h0) (system h0) H0 Hn Hh) as (r & s1 & E & Hh1 & Hacc).
    exists s1. unfold valid. rewrite (proj2 (Z.geb_le _ _) H0). unfold bind, on_sockets, native_handle.
    rewrite E. split; [done|by right].
Qed.

(** The join of the accept thread, after the shutdown. *)
Lemma stop_accept_spec h1 :
  running h1 = false → holding (worker_threads h1) (accept_thread h1) (threading h1) →
  (joinable (accept_thread h1) = true →
   ∀ d, table (system h1) !! fd_ (listener h1) = Some d → accepts d = false) →
  ∃ t, (if joinable (accept_thread h1)
        then do _ <- join accept_ends (accept_thread h1); modify (with_accept None) else ret tt) h1 =
    (Ok tt, with_accept None (with_threading t h1)) ∧ holding (worker_threads h1) None t.
Proof.
  intros Hr [Hu Hlive Hx Hf] Ha. destruct (accept_thread h1) as [i|] eqn:Ei.
  - change (joinable (Some i)) with true in *. specialize (Ha eq_refl). unfold bind, join.
    assert (accept_ends h1 = true) as ->.
    { unfold accept_ends. rewrite Hr. destruct (table (system h1) !! _) as [d|]; [|done].
      by rewrite (Ha d eq_refl). }
    eexists. split; [reflexivity|]. cbn in Hu, Hlive. apply NoDup_cons in Hu as [Hi Hu].
    split; [exact Hu| |cbn; intros j Hj; apply Hx; set_solver|exact Hf]. cbn. rewrite Hlive. set_solver.
  - exists (threading h1). split; [|by split]. change (joinable None) with false. unfold ret.
    do 2 f_equal. destruct h1. cbn in Ei. by subst.
Qed.

Lemma stop_close_spec h2 :
  (fd_ (listener h2) = -1 ∧ world o l k (system h2) ∨
   0 ≤ fd_ (listener h2) ∧ o !! fd_ (listener h2) = None ∧ held o l (fd_ (listener h2)) k (system h2)) →
  ∃ s3, on_sockets (close (listener h2)) h2 = (Ok {| fd_ := -1 |}, with_system s3 h2) ∧ world o l k s3.
Proof.
  unfold on_sockets, close, release, bind. intros [[Hfd Hw]|(H0 & Hn & Hh)].
  - exists (system h2). unfold close_fd. rewrite Hfd. by split.
  - pose proof (close_held o l (fd_ (listener h2)) Hn H0 k (system h2) Hh) as Hc.
    destruct (close_fd (fd_ (listener h2)) (system h2)) as [[u|e] s3]; [|done]. by exists s3.
Qed.

(** [stop] shuts down and closes the listener and joins every thread. *)
Lemma stop_spec resets h :
  starting h →
  ∃ h', stop resets h = (Ok tt, h') ∧ stopped h' ∧ queued h' = 0 ∧
    outstanding h' = (if resets then 0
                      else if u32 (queued h) >? 0 then u32 (outstanding h - u32 (queued h)) else outstanding h).
Proof.
  intros [Hr Hl Ht Ha]. unfold stop. unfold bind at 1, gets at 1. unfold bind at 1, set_running, modify at 1.
  rewrite Hr. cbn [negb]. set (h0 := with_running false _). unfold bind at 1, gets at 1.
  destruct (stop_shutdown_spec h0 Hl) as (s1 & E1 & Hs1). unfold bind at 1. rewrite E1.
  unfold bind at 1, gets at 1. set (h1 := with_system s1 h0).
  destruct (stop_accept_spec h1) as (t2 & E2 & Ht2); [done| | |].
  { destruct Ht as [Hu Hlive Hx Hf]. by split. }
  { intros Hj. specialize (Ha Hj). by destruct Hs1 as [[? _]|(_ & _ & _ & ?)]. }
  unfold bind at 1. rewrite E2. set (h2 := with_accept None _).
  destruct (stop_close_spec h2) as (s3 & E3 & Hs3); [destruct Hs1 as [|(? & ? & ? & _)]; auto|].
  change (listener h0) with (listener h2). unfold bind at 1. rewrite E3. unfold bind at 1, modify at 1.
  unfold bind at 1, gets at 1. unfold bind at 1, modify at 1. unfold bind at 1, notify_all, modify at 1.
  unfold bind at 1, gets at 1. set (h4 := with_threading _ _).
  destruct (join_workers_spec [] (worker_threads h4) h4) as (h5 & E5 & G1 & G2 & G3 & G4 & G5 & G6 & G7 & G8 & G9);
    [done..| |].
  { destruct Ht2 as [Hu Hlive Hx Hf]. by split. }
  unfold bind at 1. rewrite E5. unfold bind at 1, gets at 1. unfold bind at 1, drop_handles, modify at 1.
  unfold bind at 1, modify at 1. destruct G9 as [_ Glive _ Gf].
  assert (existsb joinable (worker_threads h5) = false) as Hj.
  { clear -G8. induction G8 as [|t ts -> _ IH]; [done|exact IH]. }
  assert (∀ q n hh, hh = with_queue q n (with_workers [] (with_threading
      (set_terminated (terminated (threading h5) || existsb joinable (worker_threads h5)) (threading h5)) h5)) →
    stopped hh) as Hst.
  { intros q n hh ->. unfold stopped. cbn. rewrite G1, G2, G3, G7, Hj, Gf. by split_and!. }
  destruct resets.
  - eexists. split; [reflexivity|]. split; [by eapply Hst|]. split; [exact G5|reflexivity].
  - eexists. split; [reflexivity|]. split; [|split; [exact G5|exact G6]].
    apply (Hst (queued h5) (outstanding h5)). by destruct h5.
Qed.

(** Creating a thread. *)
Lemma holding_spawn ws a t n :
  holding ws a t →
  let t' := {| spawns := n; live := {[next_thread t]} ∪ live t; next_thread := S (next_thread t);
               notified := notified t; terminated := terminated t |} in
  holding (ws ++ [Some (next_thread t)]) a t' ∧ (a = None → holding ws (Some (next_thread t)) t').
Proof.
  intros [Hu Hl Hx Hf] t'. assert (next_thread t ∉ omap id (a :: ws)) as Hnew.
  { intros Hin. assert (next_thread t ∈ live t) as Hin' by (rewrite Hl; by apply elem_of_list_to_set).
    specialize (Hx _ Hin'). lia. }
  assert (∀ i, i ∈ live t' → (i < next_thread t')%nat) as Hx'.
  { intros i. cbn. intros [->%elem_of_singleton|?%Hx]%elem_of_union; lia. }
  assert (omap id (a :: ws ++ [Some (next_thread t)]) = omap id (a :: ws) ++ [next_thread t]) as Ho.
  { rewrite app_comm_cons, omap_app. done. }
  split.
  - split; [| |done|done]; rewrite Ho.
    + apply NoDup_app. split; [done|]. split; [|apply NoDup_singleton].
      intros i Hi ->%list_elem_of_singleton. done.
    + cbn [live t']. rewrite list_to_set_app_L, Hl. set_solver.
  - intros ->. cbn in *. split; [by apply NoDup_cons| |done|done]. cbn. by rewrite Hl.
Qed.

Definition same_host (h h' : host) : Prop :=
  system h' = system h ∧ running h' = running h ∧ listener h' = listener h ∧ endpoint h' = endpoint h ∧
  accept_thread h' = accept_thread h.

Lemma spawn_spec h :
  holding (worker_threads h) (accept_thread h) (threading h) →
  let '(r, h') := spawn h in
  same_host h h' ∧ worker_threads h' = worker_threads h ∧
  match r with
  | Ok i => holding (worker_threads h ++ [Some i]) (accept_thread h) (threading h') ∧
            (accept_thread h = None → holding (worker_threads h) (Some i) (threading h'))
  | Throw e => e ≠ Diverged ∧ holding (worker_threads h) (accept_thread h) (threading h')
  end.
Proof.
  intros Hh. unfold spawn.
  destruct (spawns (threading h)) as [|[e|] rest]; cbn.
  - split; [done|]. split; [done|]. by apply holding_spawn.
  - split; [done|]. split; [done|]. split; [done|]. by destruct Hh.
  - split; [done|]. split; [done|]. by apply holding_spawn.
Qed.

Lemma spawn_workers_spec n h :
  holding (worker_threads h) (accept_thread h) (threading h) →
  let '(r, h') := spawn_workers n h in
  same_host h h' ∧ holding (worker_threads h') (accept_thread h') (threading h') ∧
  match r with
  | Ok _ => ∃ ids, worker_threads h' = worker_threads h ++ map Some ids ∧ length ids = n
  | Throw e => e ≠ Diverged
  end.
Proof.
  revert h. induction n as [|n IH]; intros h Hh; cbn [spawn_workers].
  { split; [done|]. split; [done|]. exists []. by rewrite app_nil_r. }
  unfold bind at 1. pose proof (spawn_spec h Hh) as Hs.
  destruct (spawn h) as [[i|e] h1]; destruct Hs as (Hsame & Hw & Hs).
  2:{ destruct Hs as [He Hs]. split; [done|]. rewrite Hw. destruct Hsame as (_ & _ & _ & _ & ->). by split. }
  destruct Hs as [Hs _]. destruct Hsame as (H1 & H2 & H3 & H4 & H5). unfold bind, modify.
  set (h2 := with_workers _ h1). specialize (IH h2). cbn in IH. rewrite Hw, H5 in IH. specialize (IH Hs).
  destruct (spawn_workers n h2) as [r h3]. destruct IH as ((G1 & G2 & G3 & G4 & G5) & Hh3 & Hr).
  split; [split_and!; cbn in *; congruence|]. split; [done|]. destruct r as [u|e]; [|done].
  destruct Hr as (ids & Hids & Hn). exists (i :: ids). split; [|cbn; by rewrite Hn].
  rewrite Hids. cbn. by rewrite <-app_assoc.
Qed.

Lemma bound_port_triple o' socket :
  triple (world o' l k) (bound_port socket)
    (λ p s, world o' l k s ∧ ∀ d, o' !! fd_ socket = Some d → p = address_port (local_address d))
    (λ e s, is_error e ∧ world o' l k s).
Proof.
  unfold bound_port, sys_getsockname, native_handle.
  eapply triple_bind_safe with (R := λ r s, world o' l k s ∧
    ∀ d, o' !! fd_ socket = Some d → failed r.1 = false → r.2 = local_address d).
  { eapply triple_bind_safe; [apply call_spec|].
    intros a s Hs. pose proof Hs as [Ho _ _].
    assert (∀ d, o' !! fd_ socket = Some d → table s !! fd_ socket = Some d) as Hd.
    { intros d Hd. rewrite <-Ho in Hd. by apply ours_lookup in Hd as [? _]. }
    destruct a; try (split; [done|]; by intros ? ? [=]);
      (destruct (table s !! fd_ socket) as [d'|] eqn:E; (split; [done|]); [|by intros ? ? [=]];
       intros d Hd' _; apply Hd in Hd'; cbn; congruence). }
  intros [r a]. cbn [fst snd].
  assert (∀ what, triple (λ s, world o' l k s ∧ ∀ d, o' !! fd_ socket = Some d → failed r = false → a = local_address d)
    (@raise sockets Z (Error what))
    (λ p s, world o' l k s ∧ ∀ d, o' !! fd_ socket = Some d → p = address_port (local_address d))
    (λ e s, is_error e ∧ world o' l k s)) as Hraise.
  { intros what. apply triple_raise. intros s [Hs _]. split; [by eexists|done]. }
  apply triple_if; intros Hf; [apply Hraise|].
  repeat (apply triple_if; intros _); try apply Hraise;
    (apply triple_ret'; intros s [Hs Ha]; split; [done|]; intros d Hd; by rewrite (Ha d Hd Hf)).
Qed.

(** A server that started: it listens, and its workers and its accept thread
    are the threads that live. *)
Definition started_on (port : Z) (bind_address : bytes) (workers : Z) (h : host) : Prop :=
  running h = true ∧ terminated (threading h) = false ∧
  (∃ ids a, worker_threads h = map Some ids ∧ length ids = Z.to_nat workers ∧ accept_thread h = Some a ∧
            NoDup (a :: ids) ∧ live (threading h) = list_to_set (a :: ids) ∧
            ∀ i, i ∈ a :: ids → (i < next_thread (threading h))%nat) ∧
  ∃ items item d,
    getaddrinfo (if bool_decide (bind_address = []) then None else Some bind_address) (to_string port) true
      = inr items ∧ item ∈ items ∧ listening_descriptor 64 item d ∧
    0 ≤ fd_ (listener h) ∧ o !! fd_ (listener h) = None ∧
    world (<[fd_ (listener h) := d]> o) l k (system h) ∧
    endpoint h = {| Protocol.host := bind_address; Protocol.port := address_port (local_address d) |}.

Lemma omap_map_some (ids : list nat) : omap id (map Some ids) = ids.
Proof. induction ids as [|i ids IH]; [done|]. cbn. by rewrite IH. Qed.

Lemma started_starting port bind_address workers h :
  started_on port bind_address workers h → starting h.
Proof.
  intros (Hr & Hf & (ids & a & Hw & _ & Ha & Hu & Hl & Hx) & items & item & d & _ & _ & [r ->] & H0 & Hn & Hs & _).
  split; [done| | |intros _; lia].
  - right. split_and!; [done|done|]. eexists. split; [|split; [|exact Hs]]; [done|by eexists].
  - rewrite Hw, Ha. split; cbn [omap list_omap id]; rewrite ?omap_map_some; try done.
    intros i. rewrite Hl, elem_of_list_to_set. apply Hx.
Qed.

Lemma start_body_spec port bind_address workers h :
  running h = true → fd_ (listener h) = -1 → worker_threads h = [] → accept_thread h = None →
  live (threading h) = ∅ → terminated (threading h) = false → world o l k (system h) →
  let '(r, h') := start_body port bind_address workers h in
  match r with
  | Ok _ => started_on port bind_address workers h'
  | Throw e => e ≠ Diverged ∧ starting h'
  end.
Proof.
  intros Hr Hfd Hws Hacc Hlive Hterm Hw. unfold start_body. unfold bind at 1, on_sockets at 1.
  assert (holding (worker_threads h) (accept_thread h) (threading h)) as Hh.
  { rewrite Hws, Hacc. split; cbn; [constructor|done|rewrite Hlive; set_solver|done]. }
  pose proof (listen_tcp_spec o l k port bind_address 64 (system h) Hw) as Hl.
  destruct (listen_tcp port bind_address 64 (system h)) as [[opened|e] s1].
  2:{ destruct Hl as [[w ->] Hs1]. split; [done|]. split; [done|by left|done|cbn; by rewrite Hacc]. }
  destruct Hl as (items & item & d & Hi & Hin & Hd & H0 & Hn & Hs1).
  unfold bind at 1, gets at 1. unfold bind at 1, on_sockets at 1, assign, close, release, close_fd.
  cbn [system listener with_system]. rewrite Hfd. cbn. unfold bind, modify, gets, on_sockets, drop_handles. cbn.
  pose proof (bound_port_triple (<[fd_ opened := d]> o) {| fd_ := fd_ opened |} s1 Hs1) as Hp.
  assert (∀ s, world (<[fd_ opened := d]> o) l k s → listening_at {| fd_ := fd_ opened |} s) as Hat.
  { intros s Hs. right. split_and!; [done|done|]. destruct Hd as [r ->].
    eexists. split; [|split; [|exact Hs]]; [done|by eexists]. }
  destruct (bound_port {| fd_ := fd_ opened |} s1) as [[p|e] s2].
  2:{ destruct Hp as [[w ->] Hs2]. split; [done|]. split; [done|by apply Hat|done|cbn; by rewrite Hacc]. }
  destruct Hp as [Hs2 Hp]. specialize (Hp d (lookup_insert_eq _ _ _)). subst p. cbn.
  match goal with |- context [spawn_workers ?n ?s] => pose proof (spawn_workers_spec n s Hh) as Hsp end.
  destruct (spawn_workers _ _) as [[u|e] h3]; destruct Hsp as ((G1 & G2 & G3 & G4 & G5) & Hh3 & Hne);
    cbn in G1, G2, G3, G4, G5.
  2:{ split; [done|]. split; [congruence|rewrite G1, G3; by apply Hat|done|by rewrite G5, Hacc]. }
  pose proof (spawn_spec h3 Hh3) as Hsp. destruct (spawn h3) as [[i|e] h4];
    destruct Hsp as ((K1 & K2 & K3 & K4 & K5) & Hw4 & Hne').
  2:{ destruct Hne' as [He Hne']. split; [done|].
      split; [congruence|rewrite K1, K3, G1, G3; by apply Hat|by rewrite Hw4, K5|by rewrite K5, G5, Hacc]. }
  destruct Hne' as [_ [Hu Hlv Hx Hf]]; [congruence|]. destruct Hne as (ids & Hids & Hlen).
  cbn in Hids. rewrite Hws in Hids. cbn in Hids. rewrite Hids in *.
  cbn [omap list_omap id] in Hu, Hlv. rewrite omap_map_some in Hu, Hlv. split_and!.
  - cbn. by rewrite K2, G2.
  - cbn. by rewrite K5, G5, Hacc, Hf.
  - exists ids, i. cbn. split_and!; try done. intros j Hj. apply Hx. rewrite Hlv. by apply elem_of_list_to_set.
  - exists items, item, d. cbn. rewrite K1, K3, K4, G1, G3, G4. by split_and!.
Qed.

End Hosting.

(** ** Properties *)

(** C23: a server starts completely or not at all, and [stop] undoes it.  From
    a stopped server, [start] of the tracker and of the peer server either
    returns, with one listening socket on an address its bind address resolved
    to, an endpoint with the port that socket has, and exactly the configured
    number of workers and the accept thread created, distinct, held by the
    server and the only threads it has; or throws, and then the server is
    stopped again: no descriptor, no list of addresses and no thread is left,
    whatever call or thread creation failed.  A started server refuses a second
    [start] without a change.  [stop] of a started server, however many
    connections are queued and counted, always returns: it waits for no thread
    before that thread was told to end, joins each once, empties the queue,
    corrects the counter by it, or resets it in the tracker, and leaves the
    server stopped.  No descriptor is closed twice and [std::terminate] is never
    called. *)
Theorem start_all_or_nothing `{Resolver} o l k server config h launch halt resets port bind_address workers :
  stopped o l k h →
  launch = tracker_start server ∧ halt = tracker_stop ∧ resets = true ∧ port = requested_port_ server ∧
    bind_address = bind_address_ server ∧ workers = worker_count (limits_ server) ∨
  launch = peer_start config ∧ halt = peer_stop ∧ resets = false ∧ port = ps_port config ∧
    bind_address = ps_bind_address config ∧ workers = Z.min (ps_max_connections config) 4 →
  (let '(r, h') := launch h in
   match r with
   | Ok _ => started_on o l k port bind_address workers h'
   | Throw e => e ≠ Diverged ∧ stopped o l k h'
   end) ∧
  ∀ h1, started_on o l k port bind_address workers h1 →
    (∃ w, launch h1 = (Throw (Error w), h1)) ∧
    ∃ h2, halt h1 = (Ok tt, h2) ∧ stopped o l k h2 ∧ queued h2 = 0 ∧
      (0 ≤ queued h1 < 2 ^ 32 →
       outstanding h2 = if (resets : bool) then 0
                        else if queued h1 >? 0 then u32 (outstanding h1 - queued h1) else outstanding h1).
Proof.
  intros Hst Hlaunch.
  assert (∃ name, launch = start name resets port bind_address workers ∧ halt = stop resets) as (name & -> & ->).
  { destruct Hlaunch as [(-> & -> & -> & -> & -> & ->)|(-> & -> & -> & -> & -> & ->)]; by eexists. }
  clear Hlaunch. split.
  - destruct Hst as (Hr & Hfd & Hn & Ha & Hlive & Hterm & Hw). unfold start at 1. unfold bind at 1, gets at 1.
    rewrite Hr. unfold bind at 1, set_running, modify at 1, catch_all.
    match goal with |- context [start_body _ _ _ ?s] =>
      pose proof (start_body_spec o l k port bind_address workers s eq_refl Hfd Hn Ha Hlive Hterm Hw) as Hb end.
    destruct (start_body _ _ _ _) as [[u|e] h1]; [done|]. destruct Hb as [He Hs]. unfold bind.
    destruct (stop_spec o l k resets h1 Hs) as (h2 & -> & ? & _). done.
  - intros h1 Hs. pose proof (started_starting _ _ _ _ _ _ _ Hs) as Hstart. split.
    + eexists. unfold start, bind, gets. by rewrite (starting_running _ _ _ _ Hstart).
    + destruct (stop_spec o l k resets h1 Hstart) as (h2 & E & Hstop & Hq & Ho). exists h2.
      split_and!; try done. intros Hrange. by rewrite Ho, (u32_small (queued h1)).
Qed.

(** *** Witness *)

(** A stopped host whose [n]-th thread cannot be created, if it is [Some]. *)
Definition example_host (failing : list (option bytes)) : host :=
  {| system := {| table := ∅; events := []; arrivals := []; address_lists := 0; refused_timeouts := 0;
                  stray_closes := 0; foreign_closes := 0 |};
     threading := {| spawns := failing; live := ∅; next_thread := 0; notified := false; terminated := false |};
     running := false; listener := {| fd_ := -1 |}; endpoint := {| Protocol.host := []; Protocol.port := 0 |};
     queued := 0; outstanding := 0; worker_threads := []; accept_thread := None |}.

Definition example_tracker : TrackerServer :=
  {| requested_port_ := 0; token_ := []; ttl_ := 0; bind_address_ := [];
     limits_ := {| max_connections := 0; worker_count := 0; max_swarms := 0; max_peers_per_swarm := 0;
                   max_response_peers := 0 |} |}.

(** The peer server starts with four workers and its accept thread; when the
    second worker cannot be created, everything is undone. *)
Lemma start_all_or_nothing_witness :
  (∃ h, @peer_start example_resolver example_config (example_host []) = (Ok tt, h) ∧
        length (worker_threads h) = 4%nat ∧ size (live (threading h)) = 5%nat ∧
        ∃ h2, peer_stop h = (Ok tt, h2) ∧ stopped ∅ 0 0 h2) ∧
  let failing := example_host [None; Some (str "Resource temporarily unavailable")] in
  (@peer_start example_resolver example_config failing).1 =
    Throw (StdException (str "Resource temporarily unavailable")) ∧
  stopped ∅ 0 0 (@peer_start example_resolver example_config failing).2.
Proof.
  assert (∀ failing, stopped ∅ 0 0 (example_host failing)) as Hs.
  { intros failing. split_and!; [reflexivity..|]. split; [|reflexivity..]. apply map_filter_empty. }
  pose proof (λ failing, @start_all_or_nothing example_resolver ∅ 0 0 example_tracker example_config
    (example_host failing) (@peer_start example_resolver example_config) peer_stop false (ps_port example_config)
    (ps_bind_address example_config) (Z.min (ps_max_connections example_config) 4) (Hs failing)
    (or_intror (conj eq_refl (conj eq_refl (conj eq_refl (conj eq_refl (conj eq_refl eq_refl))))))) as Hall.
  split.
  - destruct (Hall []) as [H Hstop].
    assert ((@peer_start example_resolver example_config (example_host [])).1 = Ok tt) as Hr
      by (vm_compute; reflexivity).
    assert (let h := (@peer_start example_resolver example_config (example_host [])).2 in
            length (worker_threads h) = 4%nat ∧ size (live (threading h)) = 5%nat) as Hn
      by (vm_compute; split; reflexivity).
    destruct (@peer_start example_resolver example_config (example_host [])) as [r h]. cbn [fst snd] in *. subst r.
    exists h. split; [reflexivity|]. split; [apply Hn|]. split; [apply Hn|].
    destruct (Hstop h H) as (_ & h2 & E & Hh2 & _). exists h2. split; [exact E|exact Hh2].
  - cbv zeta. set (failing := [None; Some _]). destruct (Hall failing) as [H _].
    assert ((@peer_start example_resolver example_config (example_host failing)).1 =
      Throw (StdException (str "Resource temporarily unavailable"))) as Hr by (vm_compute; reflexivity).
    destruct (@peer_start example_resolver example_config (example_host failing)) as [r h']. cbn [fst snd] in *.
    subst r. split; [reflexivity|exact (proj2 H)].
Defined.
