(* ===== verification/Cli.v ===== *)
(** * Cli: the program [swarmsync], [src/apps/swarmsync_main.cpp]

    The command line: the options with their checks, and the three commands on
    top of Manifest, Save, PeerServer, Tracker and Run, up to the exit code.
    What is printed is left out. *)

From S2P Require Export Prelude.
From S2P Require Import Hoare Text Iostream Crypto Protocol Posix Filestream Stream Net.
From S2P Require Import Manifest Tracker PeerServer Download Run Save.

#[local] Open Scope Z_scope.

(** ** Definitions *)

Record Options := { values : gmap bytes bytes; help : bool }.

(** The order in which a range-for visits the [unordered_map] of the options:
    unspecified, but every option once. *)
Class OptionOrder := {
  option_order : gmap bytes bytes → list (bytes * bytes);
  option_order_perm m : option_order m ≡ₚ map_to_list m
}.

(** *** Options *)

(** The loop of [parse_options] over [argv] from [index]. *)
Fixpoint parse_options_loop (argv : list bytes) (options : Options) : res Options :=
  match argv with
  | [] => Ok options
  | name :: argv' =>
      if beq name (str "--help")
      then parse_options_loop argv' {| values := values options; help := true |}
      else
        match argv' with
        | [] => Throw (Error (str "Expected an option followed by a value: " ++ name))
        | value :: argv'' =>
            if negb (starts_with (str "--") name)
            then Throw (Error (str "Expected an option followed by a value: " ++ name))
            else if starts_with (str "--") value
            then Throw (Error (str "Option is missing a value: " ++ name))
            else match values options !! name with
                 | Some _ => Throw (Error (str "Option appears more than once: " ++ name))
                 | None => parse_options_loop argv''
                             {| values := <[name := value]> (values options); help := help options |}
                 end
        end
  end.

Definition parse_options (argv : list bytes) (start : nat) : res Options :=
  parse_options_loop (drop start argv) {| values := ∅; help := false |}.

(** The loop of [allow_only] over the options. *)
Fixpoint allow_only_loop (options : list (bytes * bytes)) (allowed : list bytes) : res unit :=
  match options with
  | [] => Ok tt
  | (name, _) :: options' =>
      let found := existsb (λ candidate, beq name candidate) allowed in
      if negb found then Throw (Error (str "Unsupported option: " ++ name))
      else allow_only_loop options' allowed
  end.

Definition allow_only `{OptionOrder} (options : Options) (allowed : list string) : res unit :=
  allow_only_loop (option_order (values options)) (map str allowed).

Definition require (options : Options) (name : string) : res bytes :=
  match values options !! str name with
  | Some ((_ :: _) as value) => Ok value
  | _ => Throw (Error (str "Required option is missing: " ++ str name))
  end.

Definition optional (options : Options) (name fallback : string) : bytes :=
  default (str fallback) (values options !! str name).

Definition number (value : bytes) (name : string) : res Z :=
  let invalid := str "Option must be an unsigned integer: " ++ str name in
  parse_field 32 value invalid invalid.

Definition port (options : Options) (name : string) : res Z :=
  let! text := require options name in
  let! parsed := number text name in
  if (parsed =? 0) || (parsed >? 65535)
  then Throw (Error (str "Option must be a TCP port from 1 to 65535: " ++ str name))
  else Ok parsed.

Definition listen_port (options : Options) (name : string) : res Z :=
  let! text := require options name in
  let! parsed := number text name in
  if parsed >? 65535
  then Throw (Error (str "Option must be a TCP port from 0 to 65535: " ++ str name))
  else Ok parsed.

(** [environment_token] is [std::getenv("SWARMSYNC_TOKEN")]. *)
Definition token (environment_token : option bytes) (options : Options) : res bytes :=
  match values options !! str "--token" with
  | Some supplied => Ok supplied
  | None =>
      match environment_token with
      | Some ((_ :: _) as t) => Ok t
      | _ => throw "Set SWARMSYNC_TOKEN or pass --token for this private swarm"
      end
  end.

Section Commands.
Context `{HE : Evp, HO : OptionOrder}.

(** *** [manifest create] *)

(** [Manifest::from_file] with its queries of the file; it opens the file
    twice. *)
Definition from_file_disk (path : bytes) (size : Z) : io os Manifest :=
  if (size =? 0) || (size >? kMaxChunkSize)
  then raise_error "Chunk size must be between 1 and 4194304 bytes"
  else
    do regular <- is_regular_file path;
    if negb regular then raise (Error (str "Manifest source must be a regular file: " ++ path))
    else
      do file_size <- file_size path;
      if expected_chunk_count file_size size >? kMaxChunkCount
      then raise_error "File creates more chunks than the configured manifest limit"
      else
        do file <- open_for_reading path;
        let input := open_ifstream file in
        if negb (is_ok_stream input)
        then raise (Error (str "Unable to open manifest source: " ++ path))
        else
          do digest <- hash_file path;
          lift
            (let! ' (hashes, input) :=
               while_read (read_fuel input) size
                 (λ hashes block, let! h := sha256_hex block in Ok (hashes ++ [h])) input [] in
             if negb (is_eofbit input)
             then Throw (Error (str "Unable to read manifest source: " ++ path))
             else
               let m := {| file_name := path_filename path; file_size_bytes := file_size;
                           chunk_size_bytes := size; file_sha256 := digest; chunk_hashes := hashes |} in
               let! _ := validate m in
               Ok m).

Definition create_manifest (options : Options) : io os Manifest :=
  do _ <- lift (allow_only options ["--file"; "--out"; "--chunk-size"]);
  do source <- lift (require options "--file");
  do output <- lift (require options "--out");
  do chunk_size <- lift (number (optional options "--chunk-size" "262144") "--chunk-size");
  do m <- from_file_disk source chunk_size;
  do _ <- save m output;
  ret m.

(** *** [seed] *)

(** [Manifest::load] with its opening of the file. *)
Definition load_disk (path : bytes) : io os Manifest :=
  do file <- open_for_reading path;
  lift (load path file).

(** What a seeder meets outside the files: the outcome of starting its server,
    the network of the first announcement, and for every beat the network of
    its announcement, or [None] when a stop signal came during the sleep. *)
Record seeding := {
  seed_server : res Endpoint;
  seed_net : net;
  seed_beats : list (option net)
}.

(** [announce()]; the server holds its endpoint. *)
Definition seed_announce (tracker : TrackerClient) (m : Manifest) (peer_id : bytes) (server : Endpoint)
    : io net unit :=
  do id <- lift (swarm_id m);
  do endpoint <- lift (peer_endpoint server);
  client_announce tracker
    {| pa_swarm_id := id; pa_peer_id := peer_id; pa_listen_port := Protocol.port endpoint;
       pa_chunks := []; pa_has_all_chunks := true |}.

(** The loop until a signal comes; the end of the list is a signal between two
    beats. *)
Fixpoint seed_loop (tracker : TrackerClient) (m : Manifest) (peer_id : bytes) (server : Endpoint)
    (beats : list (option net)) : res unit :=
  match beats with
  | [] | None :: _ => Ok tt
  | Some n :: beats' =>
      match (seed_announce tracker m peer_id server n).1 with
      | Ok _ | Throw (Error _) => seed_loop tracker m peer_id server beats'
      | Throw e => Throw e
      end
  end.

(** The three tests of the source file. *)
Definition seed_mismatch (m : Manifest) (source : bytes) : io os bool :=
  do regular <- is_regular_file source;
  if negb regular then ret true
  else
    do size <- file_size source;
    if negb (size =? file_size_bytes m) then ret true
    else do digest <- hash_file source; ret (negb (beq digest (file_sha256 m))).

(** The part of [seed] after the checks of the file. *)
Definition seed_serve (environment_token : option bytes) (options : Options) (m : Manifest)
    (source : bytes) (w : seeding) : res unit :=
  let! shared_token := token environment_token options in
  let! host := require options "--tracker-host" in
  let! tracker_port := port options "--tracker-port" in
  let! peer_id := require options "--peer-id" in
  let! heartbeat := number (optional options "--heartbeat-ms" "1000") "--heartbeat-ms" in
  if heartbeat <=? 0 then throw "--heartbeat-ms must be positive"
  else
    let! lport := listen_port options "--listen-port" in
    let! _ := make_peer_server
      {| ps_manifest := m; ps_file_path := source; ps_token := shared_token; ps_port := lport;
         ps_bind_address := optional options "--bind" "127.0.0.1"; ps_max_connections := 32;
         ps_has_chunk := None |} in
    let! server := seed_server w in
    let! tracker := make_client {| Protocol.host := host; Protocol.port := tracker_port |} shared_token 3000 in
    let! _ := (seed_announce tracker m peer_id server (seed_net w)).1 in
    seed_loop tracker m peer_id server (seed_beats w).

Definition seed (environment_token : option bytes) (options : Options) (w : seeding) : io os unit :=
  do _ <- lift (allow_only options ["--manifest"; "--file"; "--tracker-host"; "--tracker-port";
                                    "--listen-port"; "--peer-id"; "--bind"; "--heartbeat-ms"; "--token"]);
  do path <- lift (require options "--manifest");
  do m <- load_disk path;
  do source <- lift (require options "--file");
  do mismatch <- seed_mismatch m source;
  if mismatch : bool then raise_error "Seed file does not match the selected manifest"
  else lift (seed_serve environment_token options m source w).

(** *** [download] *)

(** The braces evaluate their parts from left to right. *)
Definition download_config (environment_token : option bytes) (options : Options) (m : Manifest)
    : res DownloadConfig :=
  let! out_dir := require options "--out-dir" in
  let! host := require options "--tracker-host" in
  let! tracker_port := port options "--tracker-port" in
  let! shared_token := token environment_token options in
  let! lport := listen_port options "--listen-port" in
  let! peer_id := require options "--peer-id" in
  let! workers := number (optional options "--workers" "4") "--workers" in
  let! retries := number (optional options "--retries" "3") "--retries" in
  let! heartbeat := number (optional options "--heartbeat-ms" "1000") "--heartbeat-ms" in
  Ok {| dc_manifest := m; dc_output_directory := out_dir;
        dc_tracker_endpoint := {| Protocol.host := host; Protocol.port := tracker_port |};
        dc_token := shared_token; dc_listen_port := lport; dc_peer_id := peer_id;
        dc_worker_count := workers; dc_max_retries := retries; dc_network_timeout := 3000;
        dc_heartbeat_interval := heartbeat; dc_bind_address := optional options "--bind" "127.0.0.1";
        dc_peer_max_connections := 32 |}.

(** The environment of the run may depend on the configuration. *)
Definition download (environment_token : option bytes) (options : Options)
    (env : DownloadConfig → environment) : io os DownloadResult :=
  do _ <- lift (allow_only options ["--manifest"; "--out-dir"; "--tracker-host"; "--tracker-port";
                                    "--listen-port"; "--peer-id"; "--workers"; "--retries"; "--bind";
                                    "--heartbeat-ms"; "--token"]);
  do path <- lift (require options "--manifest");
  do m <- load_disk path;
  do config <- lift (download_config environment_token options m);
  do config <- lift (make_coordinator config);
  run (env config) config.

(** *** [main] *)

Record outside := {
  out_token : option bytes;
  out_seeding : seeding;
  out_run : DownloadConfig → environment
}.

(** The [try] block. *)
Definition main_body (w : outside) (argv : list bytes) : io os Z :=
  match argv with
  | [] | [_] => ret 0
  | _ :: command :: rest =>
      if beq command (str "--help") then ret 0
      else if beq command (str "manifest") then
        match rest with
        | [] => raise_error "Use: swarmsync manifest create --file <path> --out <path>"
        | action :: _ =>
            if negb (beq action (str "create"))
            then raise_error "Use: swarmsync manifest create --file <path> --out <path>"
            else
              do options <- lift (parse_options argv 3);
              if help options then ret 0
              else do _ <- create_manifest options; ret 0
        end
      else
        do options <- lift (parse_options argv 2);
        if help options then ret 0
        else if beq command (str "seed")
        then do _ <- seed (out_token w) options (out_seeding w); ret 0
        else if beq command (str "download")
        then do _ <- download (out_token w) options (out_run w); ret 0
        else raise (Error (str "Unknown command: " ++ command))
  end.

(** Every exception is printed; the exit code is 1. *)
Definition main (w : outside) (argv : list bytes) : io os Z :=
  catch_all (main_body w argv)
    (λ e, match e with Diverged => raise Diverged | _ => ret 1 end).

End Commands.

(** ** Options *)

(** A command line as a list of options, [None] for [--help]. *)
Definition render_option (o : option (bytes * bytes)) : list bytes :=
  match o with None => [str "--help"] | Some (name, value) => [name; value] end.

Definition option_ok (o : option (bytes * bytes)) : Prop :=
  match o with
  | None => True
  | Some (name, value) => starts_with (str "--") name = true ∧ name ≠ str "--help" ∧
                          starts_with (str "--") value = false
  end.

#[local] Abbreviation pairs items := (omap (λ o, o) items).

Lemma parse_loop_sound argv : ∀ options result,
  parse_options_loop argv options = Ok result →
  ∃ items, argv = concat (map render_option items) ∧ Forall option_ok items ∧ NoDup (pairs items).*1 ∧
    (∀ name, name ∈ (pairs items).*1 → values options !! name = None) ∧
    values result = list_to_map (pairs items) ∪ values options ∧
    help result = help options || bool_decide (None ∈ items).
Proof.
  remember (length argv) as n eqn:Hn. revert argv Hn.
  induction n as [n IH] using lt_wf_ind. intros [|name argv] Hn options result H; cbn [parse_options_loop] in H.
  { injection H as <-. exists []. cbn. split_and!; [done|constructor|constructor|by intros ? ?%elem_of_nil| |].
    - by rewrite (left_id_L ∅ (∪)).
    - by rewrite orb_false_r. }
  simpl in Hn. destruct (beq name (str "--help")) eqn:Eh.
  - apply beq_spec in Eh as ->. apply (IH (length argv)) in H as (items & -> & Hok & Hnd & Hnew & Hv & Hh); [|lia|done].
    exists (None :: items). split_and!; try done; [by constructor|].
    rewrite Hh. cbn. rewrite bool_decide_eq_true_2 by (by left). by rewrite orb_true_r.
  - destruct argv as [|value argv]; [done|].
    destruct (starts_with (str "--") name) eqn:En; cbn [negb] in H; [|done].
    destruct (starts_with (str "--") value) eqn:Ev; [done|].
    destruct (values options !! name) eqn:El; [done|].
    apply (IH (length argv)) in H as (items & -> & Hok & Hnd & Hnew & Hv & Hh); [|simpl in Hn; lia|done].
    cbn [values help] in *. assert (name ∉ (pairs items).*1) as Hfresh.
    { intros Hin%Hnew. by rewrite lookup_insert_eq in Hin. }
    exists (Some (name, value) :: items). split_and!.
    + done.
    + constructor; [|done]. split_and!; try done. intros ->. by rewrite beq_refl in Eh.
    + cbn. by constructor.
    + intros n' [->|Hin]%elem_of_cons; [done|]. specialize (Hnew n' Hin).
      rewrite lookup_insert_ne in Hnew; [done|]. intros ->. done.
    + rewrite Hv. cbn. rewrite <-insert_union_r; [by rewrite insert_union_l|]. by apply not_elem_of_list_to_map.
    + rewrite Hh. f_equal. apply bool_decide_ext. rewrite elem_of_cons. naive_solver.
Qed.

Lemma parse_loop_complete items : ∀ options,
  Forall option_ok items → NoDup (pairs items).*1 →
  (∀ name, name ∈ (pairs items).*1 → values options !! name = None) →
  parse_options_loop (concat (map render_option items)) options =
    Ok {| values := list_to_map (pairs items) ∪ values options;
          help := help options || bool_decide (None ∈ items) |}.
Proof.
  induction items as [|[[name value]|] items IH]; intros options Hok Hnd Hnew; cbn [map concat render_option app].
  - cbn. rewrite (left_id_L ∅ (∪)), orb_false_r. by destruct options.
  - apply Forall_cons in Hok as [(En & Hne & Ev) Hok]. cbn in Hnd. apply NoDup_cons in Hnd as [Hfresh Hnd].
    cbn [parse_options_loop]. destruct (beq name (str "--help")) eqn:Eh; [by apply beq_spec in Eh|].
    rewrite En, Ev. cbn [negb]. rewrite (Hnew name) by (by left).
    rewrite IH; [|done|done|].
    + cbn. f_equal. f_equal.
      * rewrite <-insert_union_r; [by rewrite insert_union_l|]. by apply not_elem_of_list_to_map.
      * f_equal. apply bool_decide_ext. rewrite elem_of_cons. naive_solver.
    + intros n' Hin. cbn. rewrite lookup_insert_ne; [|by intros ->]. apply Hnew. by right.
  - apply Forall_cons in Hok as [_ Hok]. cbn [parse_options_loop]. rewrite beq_refl, IH by done.
    f_equal. cbn. f_equal. rewrite bool_decide_eq_true_2 by (by left). by rewrite orb_true_r.
Qed.

Lemma allow_only_loop_spec options allowed :
  allow_only_loop options allowed = Ok tt ↔ Forall (λ o, o.1 ∈ allowed) options.
Proof.
  induction options as [|[name value] options IH]; cbn [allow_only_loop]; [by rewrite Forall_nil|].
  rewrite Forall_cons, <-IH. destruct (existsb _ allowed) eqn:E; cbn.
  - apply existsb_exists in E as (c & Hc & Heq%beq_spec). subst c. apply list_elem_of_In in Hc. naive_solver.
  - split; [done|]. intros [Hin _]. exfalso. apply list_elem_of_In in Hin.
    assert (existsb (λ candidate, beq name candidate) allowed = true) as Hx; [|congruence].
    apply existsb_exists. exists name. split; [done|]. apply beq_refl.
Qed.

(** The options that are accepted, in any order of the table. *)
Lemma allow_only_spec `{OptionOrder} options allowed :
  allow_only options allowed = Ok tt ↔ ∀ name, is_Some (values options !! name) → name ∈ map str allowed.
Proof.
  unfold allow_only. rewrite allow_only_loop_spec, option_order_perm, Forall_forall. split.
  - intros Hall name [value Hv]. by apply (Hall (name, value)), elem_of_map_to_list.
  - intros Hall [name value] Hin%elem_of_map_to_list. apply Hall. eauto.
Qed.

(** ** [download] *)

Section DownloadProofs.
Context `{HE : Evp, !EvpLaws, HO : OptionOrder}.

Lemma download_config_manifest environment_token options m config :
  download_config environment_token options m = Ok config → dc_manifest config = m.
Proof.
  unfold download_config. intros Hc.
  do 9 (apply rbind_ok in Hc as (? & _ & Hc)). by apply Ok_inj in Hc as <-.
Qed.

Lemma download_config_no_diverge environment_token options m :
  download_config environment_token options m ≠ Throw Diverged.
Proof.
  assert (∀ v n, number v n ≠ Throw Diverged) as Hnumber by (intros; apply parse_field_no_diverge).
  assert (∀ n, require options n ≠ Throw Diverged) as Hrequire.
  { intros n. unfold require. by repeat case_match. }
  unfold download_config, port, listen_port, token. no_diverge.
Qed.

Lemma allow_only_no_diverge options allowed : allow_only options allowed ≠ Throw Diverged.
Proof.
  unfold allow_only. induction (option_order (values options)) as [|[name value] l IH]; [done|].
  cbn [allow_only_loop]. by destruct (existsb _ _).
Qed.

(** What a returning download left in the files. *)
Definition download_published (config : DownloadConfig) (s : os) : Prop :=
  ∃ f, files s !! final_path config = Some f ∧ sha256_hex (data f) = Ok (file_sha256 (dc_manifest config)).

Lemma run_ready_spec env config id s0 :
  run_ready env config id s0 →
  triple (at_files_of config (files s0) (fds s0) (bad_closes s0) (history s0) (files s0)) (run env config)
    (λ _, download_published config) (λ e _, e ≠ Diverged).
Proof.
  intros [Hm Hid Hfr Hft Hw Hos Hset Hsrv Hnet Hpool].
  eapply triple_conseq; [by apply (run_spec env config id Hm Hid)|done| |by intros e s [? _]].
  intros r s (f & fl & (sc & [<- _ _ _ _ _ _]) & Hf & Hh & _). by exists fl.
Qed.

Lemma download_spec environment_token options env s path f m :
  require options "--manifest" = Ok path → files s !! path = Some f → load path (Some (data f)) = Ok m →
  os_ok s →
  (∀ config id, download_config environment_token options m = Ok config → swarm_id m = Ok id →
     run_ready (env config) config id s) →
  match download environment_token options env s with
  | (Ok _, s') => ∃ config, download_config environment_token options m = Ok config ∧ download_published config s'
  | (Throw e, _) => e ≠ Diverged
  end.
Proof.
  intros Hpath Hf Hload Hos Hready. unfold download, bind, lift, load_disk.
  destruct (allow_only options _) as [u|e] eqn:Ea.
  2:{ intros ->. by eapply allow_only_no_diverge. }
  rewrite Hpath. pose proof (load_sound _ _ _ Hload) as Hm.
  destruct (swarm_id_ok m Hm) as (id & Hid & _).
  assert (∀ Φ : gmap bytes file → Prop, Φ (files s) →
    let '(r, s1) := open_for_reading path s in
    ∃ file, r = Ok file ∧ (file = None ∨ file = data <$> files s !! path) ∧
      at_state Φ (history s) (files s) (fds s) (bad_closes s) (tail (script s)) s1) as Ho.
  { intros Φ HΦ. pose proof (open_for_reading_spec (Φ := Φ) (h0 := history s) path _ _ _ _ s (at_start Φ s Hos HΦ)).
    destruct (open_for_reading path s) as [[file|e] s1]; [|done]. naive_solver. }
  unfold bind, lift. destruct (open_for_reading path s) as [r s1].
  destruct (Ho (λ _, True) I) as (file & -> & Hfile & _). destruct (load path file) as [m1|e] eqn:El.
  2:{ intros ->. by eapply load_no_diverge. }
  assert (m1 = m) as ->.
  { destruct Hfile as [->| ->]; [done|]. rewrite Hf in El.
    change (data <$> Some f) with (Some (data f)) in El. congruence. }
  destruct (download_config environment_token options m) as [config|e] eqn:Ec.
  2:{ intros ->. by eapply download_config_no_diverge. }
  specialize (Hready config id eq_refl Hid). unfold make_coordinator.
  destruct (validate_config config) as [[]|e] eqn:Ev; cbn [rbind].
  2:{ intros ->. revert Ev. unfold validate_config. apply rbind_no_diverge; [apply validate_no_diverge|].
      intros _. by destruct (_ || _). }
  destruct (Ho (final_ok config (files s))) as (_ & _ & _ & Hs1); [by left|].
  pose proof (run_ready_spec (env config) config id s Hready s1 (ex_intro _ _ Hs1)) as Hrun.
  destruct (run (env config) config s1) as [[r|e] s2]; [by exists config|done].
Qed.

(** ** [manifest create] *)

Section Creating.
Variables (f : gmap bytes file) (d : gmap Z descriptor) (b : Z) (h0 : list (gmap bytes file)) (sc0 : list outcome).

#[local] Abbreviation At := (at_state (λ _, True) h0 f d b).

(** A state after some calls, all of which worked if the script was empty. *)
Definition undisturbed (s : os) : Prop := ∃ sc, (sc0 = [] → sc = []) ∧ At sc s.

(** A query that works when the script is empty. *)
Lemma undisturbed_query {A} (m : io os A) (Q : A → Prop) :
  (∀ sc, triple (At sc) m (λ r s, Q r ∧ At (tail sc) s) (λ e s, e ≠ Diverged ∧ At (tail sc) s)) →
  (∀ s, At [] s → ∃ r s', m s = (Ok r, s')) →
  triple undisturbed m (λ r s, Q r ∧ undisturbed s) (λ e s, (e ≠ Diverged ∧ sc0 ≠ []) ∧ undisturbed s).
Proof.
  intros Hm Hok s (sc & Hsc & Hs). specialize (Hm sc s Hs).
  assert (sc0 = [] → tail sc = []) as Htl by (intros H0; by rewrite (Hsc H0)).
  destruct (m s) as [[r|e] s'] eqn:E; destruct Hm as [Hr Hs'].
  - split; [done|]. by exists (tail sc).
  - split; [split; [done|]|by exists (tail sc)]. intros H0. rewrite (Hsc H0) in Hs.
    destruct (Hok s Hs) as (r & s2 & Hx). congruence.
Qed.

Lemma query_works {A} (answer : os → res A) a s :
  At [] s → answer s = Ok a → ∃ r s', fs_query answer s = (Ok r, s').
Proof. intros Hs Ha. unfold fs_query, next_outcome. rewrite (at_script _ _ _ _ _ _ _ Hs), Ha. eauto. Qed.

Lemma open_undisturbed path :
  triple undisturbed (open_for_reading path)
    (λ r s, (r = None ∧ sc0 ≠ [] ∨ r = data <$> f !! path) ∧ undisturbed s) (λ _ _, False).
Proof.
  intros s (sc & Hsc & Hs).
  pose proof (open_for_reading_spec (Φ := λ _, True) (h0 := h0) path f d b sc s Hs) as Ho.
  destruct (open_for_reading path s) as [[r|e] s']; [|done]. destruct Ho as (Hr & Hall & Hs').
  split; [|exists (tail sc); split; [intros H0; by rewrite (Hsc H0)|done]].
  destruct Hr as [->|Hr]; [|by right]. destruct (decide (sc0 = [])) as [H0|]; [right; auto|by left].
Qed.

Lemma from_file_no_diverge path content size :
  0 ≤ size → len content < 2 ^ 64 → from_file path (Some (len content)) (Some content) size ≠ Throw Diverged.
Proof.
  intros Hs Hl. destruct ((size =? 0) || (size >? kMaxChunkSize)) eqn:E1.
  { unfold from_file. by rewrite E1. }
  destruct (expected_chunk_count (len content) size >? kMaxChunkCount) eqn:E2.
  { unfold from_file. by rewrite E1, E2. }
  apply orb_false_iff in E1 as [E1%Z.eqb_neq E1']. rewrite gtb_false in E1', E2.
  rewrite from_file_spec by lia. no_diverge.
Qed.

Lemma from_file_disk_spec path fl size :
  f !! path = Some fl → len (data fl) < 2 ^ 64 → 0 ≤ size →
  triple undisturbed (from_file_disk path size)
    (λ m s, from_file path (Some (len (data fl))) (Some (data fl)) size = Ok m ∧ undisturbed s)
    (λ e s, (e ≠ Diverged ∧ (sc0 = [] → from_file path (Some (len (data fl))) (Some (data fl)) size = Throw e)) ∧
            undisturbed s).
Proof.
  intros Hf Hlen H0. pose proof (from_file_no_diverge path (data fl) size H0 Hlen) as Hnd.
  unfold from_file_disk, from_file in *.
  apply triple_if; intros Hsize; rewrite Hsize.
  { apply triple_raise. by intros s Hs. }
  eapply triple_bind.
  { eapply triple_exn; [eapply (undisturbed_query _ (λ r, r = true))|].
    - intros sc. eapply triple_conseq; [apply (is_regular_file_spec (Φ := λ _, True) (h0 := h0))|done| |done].
      intros r s [-> Hs]. split; [|done]. apply bool_decide_eq_true_2. rewrite Hf. eauto.
    - intros s Hs. by eapply query_works.
    - naive_solver. }
  intros regular. apply triple_pure. intros ->. cbn [negb].
  eapply triple_bind.
  { eapply triple_exn; [eapply (undisturbed_query _ (λ r, r = len (data fl)))|].
    - intros sc. by apply (file_size_spec (Φ := λ _, True) (h0 := h0)).
    - intros s Hs. eapply query_works; [done|]. by rewrite (at_files _ _ _ _ _ _ _ Hs), Hf.
    - naive_solver. }
  intros stat. apply triple_pure. intros ->. apply triple_if; intros Hcount; rewrite Hcount.
  { apply triple_raise. by intros s Hs. }
  eapply triple_bind_safe; [apply open_undisturbed|]. intros file. apply triple_pure. intros Hfile.
  cbv zeta. destruct Hfile as [[-> Hne]| ->]; cbn [open_ifstream].
  { apply triple_raise. intros s Hs. split; [|done]. split; [done|]. by intros. }
  rewrite Hf. change (data <$> Some fl) with (Some (data fl)).
  change (negb (is_ok_stream (open_ifstream (Some (data fl))))) with false. cbv iota.
  eapply triple_bind with (R := λ r s, sha256_file path (Some (data fl)) = Ok r ∧ undisturbed s).
  { unfold hash_file. eapply triple_bind_safe; [apply open_undisturbed|]. intros file. apply triple_pure.
    rewrite Hf. intros [[-> Hne]| ->].
    - apply triple_raise. intros s Hs. by split_and!.
    - change (data <$> Some fl) with (Some (data fl)). rewrite sha256_file_spec. apply triple_ret'. by intros s Hs. }
  intros digest. apply triple_pure. rewrite sha256_file_spec. intros [= <-]. cbn [rbind].
  apply triple_lift; [done|].
  intros e s He Hs. split; [|done]. split; [|by intros]. intros ->. revert Hnd.
  rewrite Hsize, Hcount, sha256_file_spec.
  change (negb (is_ok_stream (open_ifstream (Some (data fl))))) with false. cbv iota. cbn [rbind]. by rewrite He.
Qed.

End Creating.

Lemma from_file_sound path content size m :
  0 ≤ size → len content < 2 ^ 64 → from_file path (Some (len content)) (Some content) size = Ok m →
  m = hashed_manifest path content size ∧ manifest_ok m.
Proof.
  intros Hs Hl Hm.
  destruct ((size =? 0) || (size >? kMaxChunkSize)) eqn:E1; [unfold from_file in Hm; by rewrite E1 in Hm|].
  destruct (expected_chunk_count (len content) size >? kMaxChunkCount) eqn:E2;
    [unfold from_file in Hm; by rewrite E1, E2 in Hm|].
  apply orb_false_iff in E1 as [E1%Z.eqb_neq E1']. rewrite gtb_false in E1', E2.
  rewrite from_file_spec in Hm by lia.
  destruct (validate _) as [[]|e] eqn:Ev; cbn in Hm; [|done]. apply Ok_inj in Hm as <-.
  split; [done|]. split; [done|]. cbn. unfold kMaxChunkSize in E1'. pose proof (len_nonneg content). lia.
Qed.

End DownloadProofs.

(** ** Properties *)

(** C26: the command line is read exactly: [parse_options] accepts the arguments
    from [start] if and only if they are a sequence of [--help] and of pairs of
    a name that begins with two dashes and a value that does not, no name
    twice; the result maps each name to its value and says whether [--help] was
    there.  In particular it ends, and a later option never replaces one. *)
Theorem parse_options_exact argv start options :
  parse_options argv start = Ok options ↔
  ∃ items, drop start argv = concat (map render_option items) ∧ Forall option_ok items ∧
    NoDup (omap id items).*1 ∧ values options = list_to_map (omap id items) ∧
    help options = bool_decide (None ∈ items).
Proof.
  unfold parse_options. split.
  - intros (items & Hargs & Hok & Hnd & _ & Hv & Hh)%parse_loop_sound. exists items.
    cbn [values help] in *. rewrite (right_id_L ∅ (∪)) in Hv. done.
  - intros (items & -> & Hok & Hnd & Hv & Hh). rewrite parse_loop_complete; [|done..].
    cbn [values help]. rewrite (right_id_L ∅ (∪)). destruct options. cbn in *. by subst.
Qed.

(** C25: [swarmsync manifest create] describes its source: whatever calls fail,
    it ends, and if it returns, the manifest has the source's name, size and
    SHA-256, and the output file loads as that manifest or not at all; when no
    call fails and the source can be described, it returns and the output file
    loads as that manifest. *)
Theorem create_manifest_describes `{HE : Evp, !EvpLaws, HO : OptionOrder} options s source output fl size :
  os_ok s → require options "--file" = Ok source → require options "--out" = Ok output →
  number (optional options "--chunk-size" "262144") "--chunk-size" = Ok size →
  files s !! source = Some fl → len (data fl) < 2 ^ 64 →
  let '(r, s') := create_manifest options s in
  match r with
  | Ok m =>
      manifest_ok m ∧ file_name m = path_filename source ∧ file_size_bytes m = len (data fl) ∧
      chunk_size_bytes m = size ∧ sha256_hex (data fl) = Ok (file_sha256 m) ∧
      (∀ g m', files s' !! output = Some g → load output (Some (data g)) = Ok m' → m' = m) ∧
      (script s = [] → ∃ g, files s' !! output = Some g ∧ load output (Some (data g)) = Ok m)
  | Throw e =>
      e ≠ Diverged ∧
      (script s = [] → (∀ name, is_Some (values options !! name) →
                          name ∈ map str ["--file"; "--out"; "--chunk-size"]) →
       from_file source (Some (len (data fl))) (Some (data fl)) size = Throw e)
  end.
Proof.
  intros Hos Hsrc Hout Hsize Hf Hlen.
  assert (0 ≤ size) as H0 by (unfold number in Hsize; by apply parse_field_range in Hsize as [? _]).
  assert (undisturbed (files s) (fds s) (bad_closes s) (history s) (script s) s) as Hs.
  { exists (script s). split; [done|]. by apply at_start. }
  unfold create_manifest, bind, lift. destruct (allow_only options _) as [[]|e] eqn:Ea.
  2:{ split; [intros ->; by eapply allow_only_no_diverge|]. intros _ Hall.
      apply allow_only_spec in Hall. congruence. }
  rewrite Hsrc, Hout, Hsize. pose proof (from_file_disk_spec _ _ _ _ _ source fl size Hf Hlen H0 s Hs) as Hfile.
  destruct (from_file_disk source size s) as [[m|e] s1]; [|naive_solver].
  destruct Hfile as (Hm & sc & Hsc & Hs1). destruct (from_file_sound _ _ _ _ H0 Hlen Hm) as [-> Hok].
  set (m := hashed_manifest source (data fl) size) in *.
  destruct (serialize_ok m Hok) as [text Htext].
  pose proof (save_spec output text (files s) (fds s) (bad_closes s) (history s) m sc Htext s1 Hs1) as Hsave.
  destruct (save m output s1) as [[u|e] s2]; unfold ret.
  - destruct Hsave as (p & sc' & Hp & Htxt & [Hf2 _ _ _ _ _ _]). rewrite Hf2. split_and!; try done.
    + by rewrite sha256_hex_spec.
    + intros g m' Hg Hl. rewrite lookup_insert_eq in Hg. injection Hg as <-. by eapply load_cut.
    + intros Hs0. exists p. split; [apply lookup_insert_eq|]. rewrite Htxt by auto. by apply load_serialize.
  - destruct Hsave as ([He Hne] & _). split; [done|]. intros Hs0. by destruct Hne; auto.
Qed.

(** C11: the exit code of [swarmsync download] can be trusted: for options that
    parse, without [--help], and name a manifest that loads, and a run that may
    start ([run_ready]), whatever the network delivers and whatever calls fail, [main] ends with 0 or 1, and if
    it is 0 the configuration was read from the options and the file at the
    final path has the SHA-256 of the manifest named on the command line. *)
Theorem download_exit_code `{HE : Evp, !EvpLaws, HO : OptionOrder} w argv s program rest options path fl m :
  argv = program :: str "download" :: rest → parse_options argv 2 = Ok options → help options = false →
  require options "--manifest" = Ok path → files s !! path = Some fl → load path (Some (data fl)) = Ok m →
  os_ok s →
  (∀ config id, download_config (out_token w) options m = Ok config → swarm_id m = Ok id →
     run_ready (out_run w config) config id s) →
  let '(r, s') := main w argv s in
  (r = Ok 0 ∨ r = Ok 1) ∧
  (r = Ok 0 → ∃ config g, download_config (out_token w) options m = Ok config ∧ dc_manifest config = m ∧
     files s' !! final_path config = Some g ∧ sha256_hex (data g) = Ok (file_sha256 m)).
Proof.
  intros Hargv Hopts Hhelp Hpath Hf Hload Hos Hready.
  assert (main w argv s = catch_all (do _ <- download (out_token w) options (out_run w); ret 0)
            (λ e, match e with Diverged => raise Diverged | _ => ret 1 end) s) as ->.
  { unfold main, main_body, catch_all. rewrite Hargv.
    change (beq (str "download") _) with false at 1. change (beq (str "download") (str "manifest")) with false.
    rewrite <-Hargv. unfold bind at 1, lift at 1. rewrite Hopts, Hhelp. done. }
  pose proof (download_spec (out_token w) options (out_run w) s path fl m Hpath Hf Hload Hos Hready) as Hd.
  unfold catch_all, bind. destruct (download _ _ _ s) as [[r|e] s'].
  - destruct Hd as (config & Hc & g & Hg & Hh). split; [by left|]. intros _. exists config, g.
    pose proof (download_config_manifest _ _ _ _ Hc) as Hcm. by rewrite Hcm in Hh.
  - destruct e; [| |done]; (split; [by right|]); by intros [=].
Qed.

(** *** Witnesses *)

#[local] Instance table_order : OptionOrder :=
  {| option_order := map_to_list; option_order_perm m := Permutation_refl _ |}.

Definition example_create : Options :=
  {| values := {[ str "--file" := str "dir/greeting.txt"; str "--out" := str "m"; str "--chunk-size" := str "4" ]};
     help := false |}.
Definition example_source : file := {| data := example_content; synced := example_content |}.
Definition example_sources : os :=
  {| files := {[ str "dir/greeting.txt" := example_source ]}; fds := ∅; next_fd := 3; bad_closes := 0;
     script := []; history := [] |}.

Lemma create_manifest_describes_witness :
  (create_manifest example_create example_sources).1 = Ok example_manifest ∧
  sha256_hex example_content = Ok (file_sha256 example_manifest) ∧
  ∃ g, files (create_manifest example_create example_sources).2 !! str "m" = Some g ∧
       load (str "m") (Some (data g)) = Ok example_manifest.
Proof.
  assert (os_ok example_sources) as Hos.
  { split; [discriminate|]. intros fd [z Hz]. change (fds example_sources) with (∅ : gmap Z descriptor) in Hz.
    by rewrite lookup_empty in Hz. }
  pose proof (create_manifest_describes example_create example_sources (str "dir/greeting.txt") (str "m")
    example_source 4 Hos ltac:(vm_compute; reflexivity) ltac:(vm_compute; reflexivity)
    ltac:(vm_compute; reflexivity) ltac:(vm_compute; reflexivity) ltac:(vm_compute; reflexivity)) as H.
  assert ((create_manifest example_create example_sources).1 = Ok example_manifest) as Hr by (vm_compute; reflexivity).
  destruct (create_manifest example_create example_sources) as [r s']. cbn [fst snd] in *. subst r.
  destruct H as (_ & _ & _ & _ & Hh & _ & Hall). split; [reflexivity|]. split; [exact Hh|].
  apply Hall. reflexivity.
Defined.

Definition example_argv : list bytes :=
  map str ["swarmsync"; "download"; "--manifest"; "greeting.manifest"; "--out-dir"; "out";
           "--tracker-host"; "127.0.0.1"; "--tracker-port"; "7000"; "--listen-port"; "0";
           "--peer-id"; "me"; "--workers"; "2"; "--retries"; "2"].
Definition example_options : Options :=
  match parse_options example_argv 2 with Ok options => options | Throw _ => {| values := ∅; help := false |} end.
Definition example_outside : outside :=
  {| out_token := Some (str "secret"); out_run := λ _, example_env;
     out_seeding := {| seed_server := throw "unused"; seed_net := {| dials := []; used := [] |}; seed_beats := [] |} |}.

Lemma example_download_config :
  download_config (Some (str "secret")) example_options example_manifest = Ok example_download.
Proof. vm_compute. reflexivity. Qed.

Definition example_cli_script : list outcome := Works :: example_script.

Lemma example_exit_code : (main example_outside example_argv (example_directory example_cli_script)).1 = Ok 0.
Proof. vm_compute. reflexivity. Qed.

Lemma download_exit_code_witness :
  (main example_outside example_argv (example_directory example_cli_script)).1 = Ok 0 ∧
  ∃ g, files (main example_outside example_argv (example_directory example_cli_script)).2 !! str "out/greeting.txt" = Some g ∧
       sha256_hex (data g) = Ok (file_sha256 example_manifest).
Proof.
  split; [exact example_exit_code|].
  assert (parse_options example_argv 2 = Ok example_options) as Hopts by (vm_compute; reflexivity).
  assert (files (example_directory example_cli_script) !! str "greeting.manifest" =
          Some {| data := example_manifest_text; synced := example_manifest_text |}) as Hf by (vm_compute; reflexivity).
  assert (load (str "greeting.manifest") (Some example_manifest_text) = Ok example_manifest) as Hl
    by (vm_compute; reflexivity).
  pose proof (download_exit_code example_outside example_argv (example_directory example_cli_script) (str "swarmsync")
    (drop 2 example_argv) example_options (str "greeting.manifest") _ example_manifest eq_refl Hopts
    ltac:(vm_compute; reflexivity) ltac:(vm_compute; reflexivity) Hf Hl (ready_os _ _ _ _ (example_ready example_cli_script))) as H.
  pose proof example_exit_code as Hr.
  destruct (main example_outside example_argv (example_directory example_cli_script)) as [r s']. cbn [fst snd] in *. subst r.
  destruct H as [_ H].
  - intros config id Hc Hid. assert (config = example_download) as ->.
    { pose proof example_download_config. unfold example_outside, out_token in Hc. congruence. }
    assert (id = example_swarm_id) as -> by (pose proof example_swarm_id_ok; congruence). exact (example_ready example_cli_script).
  - destruct (H eq_refl) as (config & g & Hc & _ & Hg & Hh). exists g.
    assert (config = example_download) as ->.
    { pose proof example_download_config. unfold example_outside, out_token in Hc. congruence. }
    split; [exact Hg|exact Hh].
Defined.
