(* ===== verification/TrackerCli.v ===== *)
(** * TrackerCli: the program [swarmsync-tracker], [src/apps/tracker_main.cpp]

    The command line of the tracker: its options, the server they configure
    and the exit code.  What is printed is left out. *)

From S2P Require Export Prelude.
From S2P Require Import Text Protocol Tracker.

#[local] Open Scope Z_scope.

(** ** Definitions *)

Definition options := gmap bytes bytes.

(** The loop of [parse_options]. *)
Fixpoint parse_loop (argv : list bytes) (opts : options) : res options :=
  match argv with
  | [] => Ok opts
  | name :: argv' =>
      match argv' with
      | [] => Throw (Error (str "Expected an option followed by a value: " ++ name))
      | value :: argv'' =>
          if negb (starts_with (str "--") name)
          then Throw (Error (str "Expected an option followed by a value: " ++ name))
          else if starts_with (str "--") value || bool_decide (is_Some (opts !! name))
          then Throw (Error (str "Invalid or duplicate option: " ++ name))
          else parse_loop argv'' (<[name := value]> opts)
      end
  end.

Definition parse_options (argv : list bytes) : res options := parse_loop (drop 1 argv) ∅.

Definition require (opts : options) (name : string) : res bytes :=
  match opts !! str name with
  | Some ((_ :: _) as value) => Ok value
  | _ => Throw (Error (str "Required option is missing: " ++ str name))
  end.

Definition optional (opts : options) (name fallback : string) : bytes :=
  default (str fallback) (opts !! str name).

Definition number (value : bytes) (name : string) : res Z :=
  let invalid := str "Option must be an unsigned integer: " ++ str name in
  parse_field 32 value invalid invalid.

Definition token (environment_token : option bytes) (opts : options) : res bytes :=
  match opts !! str "--token" with
  | Some supplied => Ok supplied
  | None =>
      match environment_token with
      | Some ((_ :: _) as t) => Ok t
      | _ => throw "Set SWARMSYNC_TOKEN or pass --token for this private tracker"
      end
  end.

(** The names [main] accepts; the loop over the options throws for any
    other. *)
Definition supported : list bytes :=
  map str ["--port"; "--bind"; "--ttl-seconds"; "--max-connections"; "--workers"; "--max-swarms";
           "--max-peers-per-swarm"; "--max-response-peers"; "--token"].
Fixpoint check_supported (opts : list (bytes * bytes)) : res unit :=
  match opts with
  | [] => Ok tt
  | (name, _) :: opts' =>
      if negb (existsb (beq name) supported) then Throw (Error (str "Unsupported option: " ++ name))
      else check_supported opts'
  end.

(** The limits and the server of [main]; TTLs are in seconds. *)
Definition configure (environment_token : option bytes) (opts : options) : res TrackerServer :=
  let! port_text := require opts "--port" in
  let! requested_port := number port_text "--port" in
  let! ttl_seconds := number (optional opts "--ttl-seconds" "30") "--ttl-seconds" in
  if (requested_port >? 65535) || (ttl_seconds =? 0)
  then throw "--port must be from 0 to 65535 and --ttl-seconds must be positive"
  else
    let! max_connections := number (optional opts "--max-connections" "32") "--max-connections" in
    let! worker_count := number (optional opts "--workers" "4") "--workers" in
    let! max_swarms := number (optional opts "--max-swarms" "1024") "--max-swarms" in
    let! max_peers_per_swarm :=
      number (optional opts "--max-peers-per-swarm" "256") "--max-peers-per-swarm" in
    let! max_response_peers := number (optional opts "--max-response-peers" "128") "--max-response-peers" in
    let! shared_token := token environment_token opts in
    make_server requested_port shared_token ttl_seconds (optional opts "--bind" "127.0.0.1")
      {| max_connections := max_connections; worker_count := worker_count; max_swarms := max_swarms;
         max_peers_per_swarm := max_peers_per_swarm; max_response_peers := max_response_peers |}.

(** [main] up to the wait for a signal: [None] when it prints its usage,
    otherwise the server that was started; [start] is the outcome of
    [tracker.start()]. *)
Definition main_body (order : options → list (bytes * bytes)) (environment_token : option bytes)
    (start : TrackerServer → res unit) (argv : list bytes) : res (option TrackerServer) :=
  if bool_decide (length argv = 1%nat) || match argv with [_; a] => beq a (str "--help") | _ => false end
  then Ok None
  else
    let! opts := parse_options argv in
    let! _ := check_supported (order opts) in
    let! server := configure environment_token opts in
    let! _ := start server in
    Ok (Some server).

(** The exit code: 0 after the usage, or after a signal stopped the server. *)
Definition main (order : options → list (bytes * bytes)) (environment_token : option bytes)
    (start : TrackerServer → res unit) (argv : list bytes) : Z :=
  match main_body order environment_token start argv with Ok _ => 0 | Throw _ => 1 end.

(** ** The configured server *)

Lemma number_range v n z : number v n = Ok z → 0 ≤ z < 2 ^ 32.
Proof. unfold number. by intros ?%parse_field_range. Qed.

(** A server that was configured has a port, a TTL that a 32-bit number of
    seconds holds, and consistent limits. *)
Lemma configure_ok environment_token opts server :
  configure environment_token opts = Ok server →
  server_ok server ∧ 0 ≤ requested_port_ server ≤ 65535 ∧ 0 < ttl_ server < 2 ^ 32 ∧ token_ server ≠ [].
Proof.
  unfold configure. intros H.
  bind_skip H t. bind_inv H p Hp. bind_inv H ttl Httl.
  destruct ((p >? 65535) || (ttl =? 0)) eqn:E; [done|].
  apply orb_false_iff in E as [E1%gtb_false E2%Z.eqb_neq].
  bind_inv H a Ha. bind_inv H b Hb. bind_inv H c Hc. bind_inv H d Hd. bind_inv H e He. bind_skip H tok.
  apply number_range in Hp, Httl, Ha, Hb, Hc, Hd, He.
  assert (server_ok server ∧ token_ server = tok) as [Hok _] by (eapply make_server_ok, H; cbn; lia).
  unfold make_server in H. repeat (case_match; [done|]).
  apply Ok_inj in H as <-. split; [done|]. cbn. split_and!; try lia. apply Hok.
Qed.
